(* ===== verification/_CoqProject ===== *)
-Q . S2P
Prelude.v
RustStd.v
Json.v
Identity.v
Contexts.v
Resources.v
Registry.v
Bus.v
Deps.v
Calls.v
Journal.v
Manifest.v
Prog.v
Timed.v
Debts.v
KernelState.v
KernelCalls.v
KernelLifecycle.v
KernelDispatch.v
KernelResolve.v
KernelActions.v
KernelInv.v
KernelDemo.v
KernelCallProps.v
KernelDepProps.v
KernelConc.v
KernelLifeProps.v
Utf8.v
Wire.v
Frame.v
FrameWriter.v
Assembler.v
Scan.v
ScanExact.v
Envelope.v
Dependency.v
Handshake.v
Classify.v
Remote.v
Guard.v
Store.v
StoreProps.v
Session.v
SessionProps.v
TlsIo.v
Base64.v
Inventory.v
Service.v
ServiceProps.v
Executor.v
ExecutorProps.v
Ledger.v
HostState.v
HostCalls.v
HostStreams.v
HostDeps.v
HostConn.v
HostInv.v
HostBudget.v
HostDemo.v
HostTime.v
HostProps.v
HostReader.v
HostIds.v
HostStreamProps.v
Controller.v
ControllerWire.v
ControllerDemo.v
ControllerInv.v
ControllerProps.v
ControllerRoutes.v
Component.v
ComponentInv.v
ComponentProps.v
ComponentHost.v
Unary.v
UnaryProps.v
Api.v
ApiProps.v
Daemon.v
