(* ===== verification/Prelude.v ===== *)
(** * A verification development for Matrix

    Matrix is a kernel for component composition. Plugins are described by JSON
    manifests; the kernel keeps their definitions, activates them once what they
    require is provided by active plugins, admits calls to their capabilities,
    mediates the effects of those calls, and withdraws and disposes of plugins.
    Components run in processes of their own and speak the component protocol; hosts
    are connected by multiplexed sessions that speak the remote profile; what must
    survive a restart is in a durable store; a service leases components to remote
    principals and serves their calls; a controller keeps routes to such services. This
    development models the crates [matrix-core], [matrix-proto], [matrix-guard], [matrix-host],
    [matrix-component], [matrix-runtime], [matrix-rt] and [matrix-sdk], and proves what each part
    promises, alone, against its counterparts and under every interleaving of threads.

    ** The parts and the files

    Shared:
    - [Prelude], [RustStd], [Json], [Utf8]: results, ordered maps and sets, sorting, the
      methods of [str], decimal printing and parsing, UTF-8, and the values of
      [serde_json] with the accessors the sources use.

    The kernel, [src/crates/matrix-core/src]:
    - [Identity] ([identity.rs], [fsm.rs]): instance references, lifecycle states
      and their canonical form.
    - [Contexts] ([context.rs]): the table of activations, with its generations and
      epoch, every method of [ContextTable].
    - [Resources] ([resources.rs]): owned resources, their acquisition order, the
      two-phase release and the timer and task threads as step machines. [register]
      takes its lock twice; the kernel runs the halves as two actions.
    - [Registry], [Bus] ([registry.rs], [bus.rs]): published capabilities and
      subscriptions.
    - [Deps] ([deps.rs]): capability names, requirements, the dependency graph, the
      search for a cycle, the topological order, the transitive consumers.
    - [Calls] ([calls.rs]): tickets, cancel cells (a store of shared flags), the
      ring of confirmed effects, cleanup claims.
    - [Journal] ([journal.rs]): the append-only file as the list of its lines.
    - [Manifest] ([kernel.rs] 41-365, [external.rs]): manifests and execution kinds.
    - [Prog]: programs of atomic actions. A method of the kernel is a tree whose
      nodes are critical sections ([Act]) and waits on the condition variable
      ([Wait]); [run] executes it alone, [pool_step] interleaves the nodes of any
      number of threads, [exec] follows a schedule. Program equivalence is the
      setoid [≡]. [always] lifts a property of single actions to all interleavings.
    - [Timed], [Debts]: loops that poll until a deadline, with the lemmas that their rounds are
      enough under every interleaving and how long a thread still waits ([prompt]); budgets that
      threads charge and give back.
    - [KernelState] ([Kernel], its locks, [Env]); [KernelCalls] (admission, grants,
      dependency children, commits, cancellation, finalization);
      [KernelLifecycle] (acquisition and release, resolution, disposal,
      reconciliation, manifests); [KernelDispatch] (invocation, reducers, faults,
      events, replay, reset): one program per method of [impl Kernel], composed as
      the methods call each other.
    - [KernelActions]: every public method that changes the kernel as a [KernelOp], the setters of
      forwarders, hook and sink, [provide] and [deliver_evt] included; every update a critical
      section can make as a [KAct], and the proof that each method is made of them.
    - [Inventory]: the report of the kernel's tables.
    - [KernelDemo]: a deployment of two plugins that the witnesses evaluate.

    The wire, [src/crates/matrix-proto/src]:
    - [Wire] ([error.rs]): error codes and their stable subset.
    - [Frame], [FrameWriter] ([frame.rs]): length-prefixed frames over any reader, and
      the write under an absolute deadline.
    - [Scan], [ScanExact], [Envelope] ([envelope.rs]): the raw scan of a payload, the
      grammar of JSON it is compared with, and the schemas of the component protocol.
    - [Dependency], [Handshake], [Classify], [Remote] ([dependency.rs], [handshake.rs],
      [classify.rs], [remote.rs]): the bodies of dependency calls, negotiation and the
      replay window, the distinction from legacy peers, the remote profile.

    Around the kernel:
    - [Guard] ([src/crates/matrix-guard/src/lib.rs]): launch tokens, the sandbox and its
      command line, the system call filter, the restart budget.
    - [Store], [StoreProps] ([src/crates/matrix-runtime/src/store.rs]): the tables of the
      database, one transaction per method; any sequence of calls with restarts.
    - [Assembler], [Session], [SessionProps], [TlsIo] ([src/crates/matrix-runtime/src/session.rs]):
      frames out of decrypted chunks; the shared state of a session, its callers and
      the turns of its engine thread, interleaved; the frames of the handshake.
    - [Service], [ServiceProps] ([src/crates/matrix-runtime/src/service.rs]): grants, leases,
      revocation, supervision and calls over the kernel and the store. The state of the
      service contains theirs; a program of the kernel is lifted to it action by action.
    - [Base64], [Executor], [ExecutorProps] ([route_executor.rs],
      [remote_session_server.rs] and the base64 of [route_controller.rs]): the handlers of
      a route over its session and the service.
    - [Ledger]: executions of operations over service, routes and store together.
    - [HostState], [HostCalls], [HostStreams], [HostDeps], [HostConn]
      ([src/crates/matrix-host/src/lib.rs]): the processes and sessions of components, forwarded
      calls, streams and their relay, child calls, connections. The state contains the kernel; a
      program of the kernel is lifted to it action by action. [HostInv], [HostBudget],
      [HostTime], [HostProps], [HostReader], [HostIds], [HostStreamProps] are its
      invariants and theorems, [HostDemo] a deployment.
    - [Controller] ([route_controller.rs]): the manager of routes over the host and its
      sessions: links, leases, reconciliation, renewal, notices, the transport of remote calls.
      [ControllerWire], [ControllerInv], [ControllerProps], [ControllerRoutes] are its theorems,
      [ControllerDemo] a route.
    - [Component] ([src/crates/matrix-component/src/lib.rs]): the library components are written
      with: connecting, serving, the context of a call, the dispatcher of events. [ComponentInv],
      [ComponentProps]: invariants and theorems; [ComponentHost]: the library against the host.
    - [Unary], [UnaryProps] ([src/crates/matrix-runtime/src/remote.rs]): requests of one frame,
      their server over the service, the client, and the proxy of a remote component.
    - [Api], [ApiProps] ([src/crates/matrix-runtime/src/api.rs]): the facade of the runtime:
      configurations and their validation, start, reload, inspection, shutdown, over the service, the
      host and the route manager, which share the kernel; copies of stores on a disk of images.
    - [Daemon] ([src/crates/matrix-rt/src/main.rs], [src/crates/matrix-sdk/src/lib.rs]): the command
      line, the requests of the daemon over the kernel, and the client.

    ** What the theorems show

    - Tables: single ownership and acquisition order, release at most once, no
      orphan threads, one fresh disposal claim, only the latest generation is
      admissible, isolation of publications between instances, a ticket ends once,
      the cancel flag is exact, the effect ring is bounded ([Resources], [Contexts],
      [Registry], [Calls]).
    - Algorithms: cycle search, topological order, transitive consumers and
      requirement resolution equal their specifications on graphs and definitions
      ([Deps], [KernelResolve]); parsed requirements are canonical; accepted manifests
      satisfy their constraints; the journal reads back what was appended.
    - Invariant: every interleaving of every method on a fresh kernel keeps the
      tables consistent ([KernelInv.interleavings_keep_tables]); what no
      interleaving can undo is in [KernelConc].
    - Methods executed alone: what [call_open], [commit_effect], [dependency_admit]
      and [revoke_outbound] guarantee on success and on refusal ([KernelCallProps],
      [KernelDepProps]); when a disposal succeeds, what it has released then, whom it
      spares, and that the nesting of reconciliations is irrelevant
      ([KernelLifeProps]).
    - At the end of [KernelLifeProps], three schedules under which methods that are correct alone are
      not: two commits of one ticket, an acquisition against a disposal, the bench
      reset against a disposal.
    - Wire: reading a frame does not depend on how its bytes arrive, and the session's
      assembler implements the parser of the whole byte sequence; encoding round-trips; a
      deadline write delivers a frame whole and in time or shuts the socket down
      ([Frame], [FrameWriter], [Assembler]). The raw scan accepts exactly the JSON texts
      with distinct keys, bounded depth and no escaped surrogates ([ScanExact]), payloads are accepted
      exactly when they are well-formed envelopes ([Envelope]), the replay window implements a
      bounded log, negotiation is bounded ([Handshake]), a remote call carries no
      authority and bounded budgets ([Remote]).
    - Guard: the token comparison decides equality, the filter enforces its policy on
      every machine of classic BPF, restarts are bounded in every window ([Guard]).
    - Store: at most one start per operation, replay of results, fences, epochs and the
      invariant of the tables, over every sequence of calls, restarts and database
      errors ([StoreProps]).
    - Sessions: the invariant of every interleaving, finality of detachment, expiry,
      priority of control frames, and a run in which the answer to one request
      resolves another ([SessionProps]). The handshake receives exactly the frames of its
      bytes, and a truncated one can read as a clean end ([TlsIo]).
    - Service: the invariant of the leases, the finality of revocation, what a turn of the
      supervisor keeps, and the renewal that cannot be retried ([ServiceProps]).
    - Routes: a call is acknowledged and answered once whatever other threads do, unless a thread
      does not start; streams and tables are bounded, two defects of replay and deadlines
      ([ExecutorProps]); the base64 of the relay round-trips ([Base64]); no operation runs
      twice under any interleaving of the whole executor ([Ledger]).

    - Host: what a forwarded call or a child call charges is given back however it ends, the
      tables of a session are bounded, a forwarded call can end within its timeout from every state of
      a host that is not frozen, workers end ([HostBudget], [HostProps]); the read loop handles exactly
      the frames that the wire format gives the byte stream ([HostReader]), operation ids identify
      invocations ([HostIds]), taps see whole streams ([HostStreamProps]). At the end of [HostProps], runs that go wrong: a forged answer, a hole in a
      stream, twin sessions, a frozen host.
    - Controller: the invariant of links and sessions, the end of the exchange of a call within its
      timeout ([ControllerProps]),
      attaching fails closed and teardown leaves nothing ([ControllerRoutes]), what the executor
      accepts and attests ([ControllerWire]); orphaned routes, an overtaken shutdown and a notice
      that crosses peers (at the end of [ControllerProps]).
    - Component library: events are accounted for, answers reach the wait of their request, a call
      is answered at most once, the code of a call ends ([ComponentProps]); its frames are
      accepted by the host, the handshake agrees, and a stream can mask a result
      ([ComponentHost]).
    - Unary profile: a request and its answer cross the wire unchanged, connections are bounded,
      a retired proxy is silent ([UnaryProps]).
    - Facade: a valid configuration starts exactly when its manifests fit the store, a reload is exact
      and its baseline has every grant in force, snapshots are bounded and independent of tokens, waiting and shutdown end and what they
      leave, backups restore; grants that no reload retires, a failed restore that starts empty
      ([ApiProps]).
    - Daemon: arguments are split exactly, and a request through the client does what its verb means,
      no more ([Daemon]).

    ** Conventions and bounds

    - Counters of identities ([u64]) and clocks are [N], without wrap-around: they
      start at 1 and grow by one per issue. JSON integers and the arithmetic of the
      reducers keep their 64 bits ([RustStd]), hashes and frame lengths their width.
      [panic_count], the depth of a dependency and [Instant + Duration] are unbounded.
    - The iteration order of a [HashMap] is that of [map_to_list]; where the source
      sorts, so does the model.
    - One acquisition of a lock is one action. The mutex [dep_admit_lock], which
      serializes [dependency_admit], is not modelled: the model has more
      interleavings than the code, and the theorems on interleavings cover them.
    - Disposal can finalize, finalization reconciles and reconciliation disposes:
      the nesting has a bound, [env_nesting], that every theorem quantifies over; by
      [reconcile_fuel_irrelevant] it does not matter to a method executed alone. The
      loop of [reconcile] has the bound of the source, [2 n + 4]. The fuels of [Deps]
      are the number of nodes, and its theorems show that they are enough. The
      scanners and readers of the wire have the length of their input as fuel; every
      turn consumes a byte, and [scan_exact], [read_frame_chunking] and
      [assembler_refines] show that it is enough.
    - [Env] holds what the kernel asks of the outside: whether the OS starts a
      thread, the answer of the forwarder that runs external processes, the wall
      clock, the manifest files and the [Debug] rendering of strings. Journal writes
      of the kernel succeed.
    - Elsewhere the outside answers from arguments: a reader, a socket, a lock, the
      clock and a TLS connection from scripts over which the theorems quantify; the
      parser and printer of [serde_json] are functions; SQLite answers a writing
      transaction with success or with an error that rolls it back. A method of the
      session engine reads the clock once.
    - A method that holds the lock of the service is one action, in which the kernel's
      programs run alone; calls of the kernel outside this lock interleave action by action.
      Routes take one lock per action. A kernel call that outlives the budget of its leg
      goes on as a thread of its own. [u64] counters of routes and streams do not wrap: a
      stream receives less than the sum of its frames. What the host does for the service and its
      routes is an argument or is recorded; what it does itself is in the files of the host.
    - A mutex that the source holds across several steps is not one in the model, except where a
      theorem is about it ([Unary]): the model has more interleavings, and what it says of the time a
      method takes does not include waits for such a mutex. The lock of the lease of a link is held
      across requests, so the theorem on remote calls begins after the call has read the lease. A
      worker of the host that asks for the lock of the sessions while it holds it takes no further
      step, its charges stay, and the host is marked frozen ([ho_frozen]); other threads may go on in
      the model, and theorems that the freeze would make false are stated of hosts that are not frozen.
      Sending on a session tests its state and then the queue; [SessionProps] interleaves the two
      halves, the routes and the controller take them as one action. Loops that poll
      have rounds that cover their deadlines ([rounds]), and the theorems of termination show that
      they never run out; loops without an end have a number of turns as argument, over which the
      theorems quantify. Certificate files do not change while a process runs.
    - The code of an application is a finite tree of uses of the library ([Script]); spawned
      threads wait in a list until they start.
    - [Plugin.leases] and [leases.rs] are omitted: the list is empty and only ever
      cleared.

    ** Not modelled

    Of [matrix-runtime]: the settings of rustls and the loading of certificates ([server_config],
    [client_config]), which are calls of that library; the parser of configurations, which serde
    derives. Of [matrix-rt]: the choice of the home directory and the syncs of the journal. The
    conformance binary ([matrix-conform.rs]) and the examples drive the above from outside, with
    processes and sockets of their own, and add no state. *)

From stdpp Require Export base tactics list gmap sets sorting strings pretty numbers relations.
From Stdlib Require Export Lia.

(** ** Scope and machine integers *)

Declare Scope matrix_scope.
Delimit Scope matrix_scope with matrix.
#[global] Open Scope matrix_scope.

(** Kernel-issued identities ([u64] newtypes in [identity.rs]/[calls.rs]).
    They are counters that start at 1 and grow by one per issue. *)
Notation InstanceId := N (only parsing).
Notation ContextId := N (only parsing).
Notation ResourceHandle := N (only parsing).
Notation TicketId := N (only parsing).

(** Milliseconds of the local monotonic clock ([std::time::Instant]). *)
Notation Instant := N (only parsing).

Definition u64_max : N := 18446744073709551615.
Definition u32_max : N := 4294967295.
Definition i64_max : N := 9223372036854775807.

(** [u64::saturating_sub] / [usize::saturating_sub]. *)
Definition saturating_sub (a b : N) : N := if (b <=? a)%N then (a - b)%N else 0%N.

(** ** [Result] *)

Inductive result (A E : Type) : Type :=
| Ok (a : A)
| Err (e : E).
Arguments Ok {A E} a.
Arguments Err {A E} e.

Definition is_ok {A E} (r : result A E) : bool :=
  match r with Ok _ => true | Err _ => false end.

Definition map_err {A E F} (f : E → F) (r : result A E) : result A F :=
  match r with Ok a => Ok a | Err e => Err (f e) end.

Definition ok_or {A E} (o : option A) (e : E) : result A E :=
  match o with Some a => Ok a | None => Err e end.

(** The [?] operator. *)
Notation "'let?' x ':=' e 'in' k" :=
  (match e with Ok x => k | Err err => Err err end)
  (at level 200, x pattern, e at level 200, k at level 200, right associativity)
  : matrix_scope.

(** [iter().map(f).collect::<Result<Vec<_>, _>>()]: stops at the first error. *)
Fixpoint collect_result {A B E} (f : A → result B E) (l : list A) : result (list B) E :=
  match l with
  | [] => Ok []
  | a :: l =>
      let? b := f a in
      let? bs := collect_result f l in
      Ok (b :: bs)
  end.

(** [if !b { return Err(e) }]. *)
Definition ensure {E} (b : bool) (e : E) : result unit E := if b then Ok tt else Err e.

(** [for a in l { f(a)?; }]. *)
Fixpoint for_each {A E} (f : A → result unit E) (l : list A) : result unit E :=
  match l with
  | [] => Ok tt
  | a :: l => let? _ := f a in for_each f l
  end.

(** [match s { "a" | "b" => x, ... , _ => None }] on strings: the first arm. *)
Fixpoint arm {A} (s : string) (t : list (list string * A)) : option A :=
  match t with
  | [] => None
  | (names, a) :: t => if bool_decide (s ∈ names) then Some a else arm s t
  end.

(** ** Options *)

Definition is_some {A} (o : option A) : bool :=
  match o with Some _ => true | None => false end.

Definition is_some_and {A} (f : A → bool) (o : option A) : bool :=
  match o with Some a => f a | None => false end.

(** [Option::and_then]. *)
Definition and_then {A B} (o : option A) (f : A → option B) : option B :=
  match o with Some a => f a | None => None end.

(** ** Sorting

    [Vec<String>::sort] and [sort_by_key] on numeric keys are merge sorts on a
    total order; the order on strings is the byte-wise lexicographic one. *)

Definition sort_strings (l : list string) : list string := merge_sort String.le l.

Definition key_le {A} (key : A → N) (a b : A) : Prop := (key a ≤ key b)%N.

#[export] Instance key_le_dec {A} (key : A → N) : RelDecision (key_le key).
Proof. intros a b. unfold key_le. apply _. Defined.

#[export] Instance key_le_trans {A} (key : A → N) : Transitive (key_le key).
Proof. intros a b c. unfold key_le. lia. Qed.

#[export] Instance key_le_total {A} (key : A → N) : Total (key_le key).
Proof. intros a b. unfold key_le. lia. Qed.

Definition sort_by_key {A} (key : A → N) (l : list A) : list A :=
  merge_sort (key_le key) l.

(** [Vec::dedup]: removes consecutive repetitions. *)
Fixpoint dedup (l : list string) : list string :=
  match l with
  | [] => []
  | x :: l' =>
      match dedup l' with
      | [] => [x]
      | y :: r => if bool_decide (x = y) then y :: r else x :: y :: r
      end
  end.

(** [HashMap::retain]. *)
Definition retain {K V} `{Countable K} (f : K → V → bool) (m : gmap K V) : gmap K V :=
  filter (λ kv, f kv.1 kv.2 = true) m.

(** [HashMap::values().filter(f).cloned().collect()], in the (unspecified)
    iteration order of the map. *)
Definition values_where {K V} `{Countable K} (f : V → bool) (m : gmap K V) : list V :=
  List.filter f (map_to_list m).*2.

(** [HashMap::keys().cloned().collect()]. *)
Definition keys {K V} `{Countable K} (m : gmap K V) : list K := (map_to_list m).*1.

(** ** Hint databases and tactics *)

Create HintDb matrix.
Create HintDb matrix_rw.

(** Case analysis on the boolean tests and matches of the goal, closing what
    congruence and linear arithmetic close. *)
Ltac mx_simpl :=
  repeat (simplify_eq/= || case_bool_decide || case_decide); try done.

Ltac mx_case :=
  repeat (case_match; simplify_eq/=); try done; eauto with matrix.

(** Follows a chain of [?] that ended in [Ok]: every step succeeded. *)
Ltac mx_ok :=
  repeat match goal with
  | H : (match ?r with Ok _ => _ | Err _ => Err _ end) = Ok _ |- _ =>
      let E := fresh "E" in destruct r eqn:E; [|discriminate H]
  | H : ensure _ _ = Ok _ |- _ => unfold ensure in H; case_match; [|discriminate H]
  | H : ok_or ?o _ = Ok _ |- _ =>
      let E := fresh "E" in destruct o eqn:E; [cbn in H; injection H as H; subst|discriminate H]
  | H : Ok _ = Ok _ |- _ => injection H as H; subst
  | u : unit |- _ => destruct u
  end.

(** Turns the boolean comparisons of [N] in the context into propositions. *)
Ltac nbool :=
  repeat match goal with
  | H : (_ =? _)%N = true |- _ => apply N.eqb_eq in H
  | H : (_ =? _)%N = false |- _ => apply N.eqb_neq in H
  | H : (_ <=? _)%N = true |- _ => apply N.leb_le in H
  | H : (_ <=? _)%N = false |- _ => apply N.leb_gt in H
  | H : (_ <? _)%N = true |- _ => apply N.ltb_lt in H
  | H : (_ <? _)%N = false |- _ => apply N.ltb_ge in H
  | H : negb _ = true |- _ => apply negb_true_iff in H
  | H : negb _ = false |- _ => apply negb_false_iff in H
  | H : _ && _ = true |- _ => apply andb_true_iff in H as [? ?]
  | H : _ || _ = false |- _ => apply orb_false_iff in H as [? ?]
  | H : bool_decide _ = true |- _ => apply bool_decide_eq_true in H
  | H : bool_decide _ = false |- _ => apply bool_decide_eq_false in H
  end.

(** ** Generic lemmas *)

Lemma saturating_sub_spec a b : saturating_sub a b = (a - b)%N.
Proof. unfold saturating_sub. destruct (N.leb_spec b a); lia. Qed.

Section retain.
Context {K V : Type} `{Countable K}.
Implicit Types (m : gmap K V) (f : K → V → bool).

Lemma lookup_retain f m k :
  retain f m !! k = (v ← m !! k; if f k v then Some v else None).
Proof.
  unfold retain. rewrite map_lookup_filter.
  destruct (m !! k) as [v|]; simpl; [|done].
  by destruct (f k v).
Qed.

Lemma lookup_retain_Some f m k v :
  retain f m !! k = Some v ↔ m !! k = Some v ∧ f k v = true.
Proof.
  rewrite lookup_retain. destruct (m !! k) as [v'|]; simpl; [|by split; [|intros []]].
  destruct (f k v') eqn:E; (split; [intros [= ->]|intros [[= ->] ?]]); auto; congruence.
Qed.

Lemma lookup_retain_None f m k :
  m !! k = None → retain f m !! k = None.
Proof. intros E. by rewrite lookup_retain, E. Qed.
End retain.

Lemma elem_of_filter_list {A} (f : A → bool) (l : list A) x :
  x ∈ List.filter f l ↔ x ∈ l ∧ f x = true.
Proof. rewrite !list_elem_of_In. apply filter_In. Qed.

Lemma elem_of_concat {A} (x : A) (ls : list (list A)) :
  x ∈ concat ls ↔ ∃ l, l ∈ ls ∧ x ∈ l.
Proof.
  rewrite list_elem_of_In, in_concat. by setoid_rewrite list_elem_of_In.
Qed.

Lemma elem_of_values_where {K V} `{Countable K} (f : V → bool) (m : gmap K V) v :
  v ∈ values_where f m ↔ (∃ k, m !! k = Some v) ∧ f v = true.
Proof.
  unfold values_where. rewrite elem_of_filter_list. f_equiv.
  rewrite list_elem_of_fmap. split.
  - intros [[k v'] [-> Hin]]. apply elem_of_map_to_list in Hin. eauto.
  - intros [k Hk]. exists (k, v). by rewrite elem_of_map_to_list.
Qed.

Lemma elem_of_keys {K V} `{Countable K} (m : gmap K V) k :
  k ∈ keys m ↔ is_Some (m !! k).
Proof.
  unfold keys. rewrite list_elem_of_fmap. split.
  - intros [[k' v] [-> Hin]]. apply elem_of_map_to_list in Hin. eauto.
  - intros [v Hk]. exists (k, v). by rewrite elem_of_map_to_list.
Qed.

Lemma sort_strings_perm l : sort_strings l ≡ₚ l.
Proof. apply merge_sort_Permutation. Qed.

Lemma sort_strings_sorted l : StronglySorted String.le (sort_strings l).
Proof. apply (StronglySorted_merge_sort _ l). Qed.

Lemma elem_of_sort_strings x l : x ∈ sort_strings l ↔ x ∈ l.
Proof. by rewrite sort_strings_perm. Qed.

Lemma sort_by_key_perm {A} (key : A → N) l : sort_by_key key l ≡ₚ l.
Proof. apply merge_sort_Permutation. Qed.

Lemma elem_of_sort_by_key {A} (key : A → N) l x : x ∈ sort_by_key key l ↔ x ∈ l.
Proof. by rewrite sort_by_key_perm. Qed.

Lemma elem_of_dedup x l : x ∈ dedup l ↔ x ∈ l.
Proof.
  induction l as [|y l IH]; simpl; [done|].
  destruct (dedup l) as [|z r] eqn:E; [set_solver|].
  case_bool_decide; subst; set_solver.
Qed.

Lemma collect_result_ok {A B E} (f : A → result B E) l bs :
  collect_result f l = Ok bs → Forall2 (λ a b, f a = Ok b) l bs.
Proof.
  revert bs; induction l as [|a l IH]; intros bs; simpl; [by intros [= <-]|].
  destruct (f a) eqn:Ea; [|done]. destruct (collect_result f l); [|done].
  intros [= <-]. auto.
Qed.

Lemma ensure_ok {E} b (e : E) : ensure b e = Ok tt ↔ b = true.
Proof. by destruct b. Qed.

Lemma for_each_ok {A E} (f : A → result unit E) l :
  for_each f l = Ok tt ↔ Forall (λ a, f a = Ok tt) l.
Proof.
  induction l as [|a l IH]; cbn; [by split|]. rewrite Forall_cons, <- IH.
  destruct (f a) as [[]|]; [tauto|]. by split; [|intros []].
Qed.

Lemma arm_elem {A} s (t : list (list string * A)) :
  is_Some (arm s t) ↔ s ∈ concat t.*1.
Proof.
  induction t as [|[names a] t IH]; cbn.
  - split; [by intros []|by intros ?%not_elem_of_nil].
  - rewrite elem_of_app, <- IH. case_bool_decide; [|tauto]. split; eauto.
Qed.

#[export] Hint Rewrite @elem_of_values_where @elem_of_keys elem_of_sort_strings
  @elem_of_sort_by_key elem_of_dedup @lookup_retain_Some @elem_of_filter_list : matrix_rw.
