(* ===== verification/RustStd.v ===== *)
(** * The Rust standard-library string operations the kernel uses

    [String] values are UTF-8 byte strings ([string], one [ascii] per byte).
    [str::trim], [str::rfind], [str::parse::<u64>], [str::split],
    [to_ascii_lowercase], [join] and the [Display] of unsigned integers are
    written out on those bytes. *)

From S2P Require Import Prelude.
From Stdlib Require Import Ascii.

Notation chars := String.list_ascii_of_string (only parsing).
Notation of_chars := String.string_of_list_ascii (only parsing).

Notation bytes := (list ascii) (only parsing).

Definition byte (n : N) : ascii := ascii_of_N n.

(** The UTF-8 encodings of the code points with the Unicode [White_Space]
    property, which [str::trim] removes. *)
Definition white_space : list (list ascii) :=
  ((λ n, [byte n]) <$> [9; 10; 11; 12; 13; 32]%N)
  ++ ((λ p : list N, byte <$> p) <$>
    [ [194; 133]; [194; 160]; [225; 154; 128];
      [226; 128; 128]; [226; 128; 129]; [226; 128; 130]; [226; 128; 131];
      [226; 128; 132]; [226; 128; 133]; [226; 128; 134]; [226; 128; 135];
      [226; 128; 136]; [226; 128; 137]; [226; 128; 138];
      [226; 128; 168]; [226; 128; 169]; [226; 128; 175];
      [226; 129; 159]; [227; 128; 128] ]%N).

(** [strip p l]: the rest of [l] after the prefix [p]. *)
Fixpoint strip (p l : list ascii) : option (list ascii) :=
  match p, l with
  | [], _ => Some l
  | a :: p, b :: l => if bool_decide (a = b) then strip p l else None
  | _ :: _, [] => None
  end.

(** [str::strip_prefix]. *)
Definition strip_prefix (p s : string) : option string := of_chars <$> strip (chars p) (chars s).

Fixpoint strip_any (ps : list (list ascii)) (l : list ascii) : option (list ascii) :=
  match ps with
  | [] => None
  | p :: ps => match strip p l with Some r => Some r | None => strip_any ps l end
  end.

(** Drops white-space sequences from the front; each round drops at least one
    byte, so [length l] rounds are enough. *)
Fixpoint drop_ws (ps : list (list ascii)) (fuel : nat) (l : list ascii) : list ascii :=
  match fuel with
  | O => l
  | S fuel => match strip_any ps l with Some r => drop_ws ps fuel r | None => l end
  end.

#[global] Arguments white_space : simpl never.

Definition trim_start_l (l : list ascii) : list ascii :=
  drop_ws white_space (length l) l.

Definition trim_end_l (l : list ascii) : list ascii :=
  reverse (drop_ws (reverse <$> white_space) (length l) (reverse l)).

(** [str::trim]. *)
Definition trim (s : string) : string := of_chars (trim_end_l (trim_start_l (chars s))).

(** [str::is_empty]. *)
Definition str_is_empty (s : string) : bool := bool_decide (s = "").

(** [u64::saturating_add] / [usize::saturating_add]. *)
Definition saturating_add (a b : N) : N := N.min (a + b) u64_max.

(** [str::len]. *)
Definition str_len (s : string) : N := N.of_nat (String.length s).

(** [str::rfind(c)] followed by [split_at]: what precedes and what follows the
    last occurrence of [c]. *)
Fixpoint rsplit_at (c : ascii) (l : list ascii) : option (list ascii * list ascii) :=
  match l with
  | [] => None
  | a :: l' =>
      match rsplit_at c l' with
      | Some (b, m) => Some (a :: b, m)
      | None => if bool_decide (a = c) then Some ([], l') else None
      end
  end.

Definition is_ascii_digit (a : ascii) : bool :=
  let n := N_of_ascii a in (48 <=? n)%N && (n <=? 57)%N.

Definition digit_value (a : ascii) : N := (N_of_ascii a - 48)%N.

(** The digit loop of [u64::from_str]: an overflowing multiplication or
    addition is an error. *)
Fixpoint parse_digits (acc : N) (l : list ascii) : option N :=
  match l with
  | [] => Some acc
  | a :: l =>
      if is_ascii_digit a then
        let acc := (acc * 10 + digit_value a)%N in
        if (acc <=? u64_max)%N then parse_digits acc l else None
      else None
  end.

(** [str::parse::<u64>]: an optional [+], then at least one ASCII digit. *)
Definition parse_u64 (l : list ascii) : option N :=
  match l with
  | [] => None
  | a :: l' =>
      if bool_decide (a = "+"%char) then
        match l' with [] => None | _ => parse_digits 0 l' end
      else parse_digits 0 l
  end.

(** [str::split(c)]. *)
Fixpoint split_on (c : ascii) (l : list ascii) : list (list ascii) :=
  match l with
  | [] => [[]]
  | a :: l' =>
      if bool_decide (a = c) then [] :: split_on c l'
      else match split_on c l' with
           | [] => [[a]]
           | w :: ws => (a :: w) :: ws
           end
  end.

Definition ascii_lower (a : ascii) : ascii :=
  let n := N_of_ascii a in
  if (65 <=? n)%N && (n <=? 90)%N then ascii_of_N (n + 32) else a.

(** [str::to_ascii_lowercase]. *)
Definition to_ascii_lowercase (s : string) : string := of_chars (ascii_lower <$> chars s).

(** [str::starts_with]. *)
Definition starts_with (p s : string) : bool := String.prefix p s.

(** [slice::join]. *)
Definition join (sep : string) (l : list string) : string := String.concat sep l.

(** [Display] of an unsigned integer. *)
Definition display (n : N) : string := pretty n.

(** [Debug] of a [Vec<u64>]: [[1, 2]]. *)
Definition debug_vec (l : list N) : string := "[" +:+ join ", " (display <$> l) +:+ "]".

(** [str::replace(pat, rep)] for a non-empty pattern: left to right, without
    overlap; every round consumes a byte, so [length l] rounds are enough. *)
Fixpoint replace_l (fuel : nat) (pat rep l : list ascii) : list ascii :=
  match fuel, l with
  | S fuel, a :: l' =>
      match strip pat l with
      | Some r => rep ++ replace_l fuel pat rep r
      | None => a :: replace_l fuel pat rep l'
      end
  | _, _ => l
  end.

Definition str_replace (pat rep s : string) : string :=
  of_chars (replace_l (length (chars s)) (chars pat) (chars rep) (chars s)).

(** [Vec::pop]. *)
Definition pop {A} (l : list A) : option (A * list A) :=
  match reverse l with
  | [] => None
  | x :: r => Some (x, reverse r)
  end.

(** Error texts that embed the [Debug] rendering of a string ([{:?}], with its
    Unicode escaping) keep the string itself. *)
Inductive Msg : Type :=
| Text (s : string)
| TextDebug (before arg after : string).


(** ** Facts *)

Lemma strip_app p l : strip p (p ++ l) = Some l.
Proof. induction p as [|a p IH]; simpl; [done|]. by rewrite bool_decide_eq_true_2. Qed.

Lemma strip_Some p l r : strip p l = Some r → l = p ++ r.
Proof.
  revert l; induction p as [|a p IH]; intros [|b l]; simpl; try congruence.
  case_bool_decide; [|done]. intros ?%IH. by subst.
Qed.

Lemma strip_any_Some ps l r :
  strip_any ps l = Some r → ∃ p, p ∈ ps ∧ l = p ++ r.
Proof.
  induction ps as [|p ps IH]; simpl; [done|].
  destruct (strip p l) eqn:E.
  - intros [= ->]. apply strip_Some in E. exists p. split; [left|done].
  - intros [p' [? ?]]%IH. exists p'. split; [by right|done].
Qed.

Lemma strip_any_None ps l p r : strip_any ps l = None → p ∈ ps → l ≠ p ++ r.
Proof.
  induction ps as [|p' ps IH]; simpl; [intros _ Hp; inv Hp|].
  destruct (strip p' l) eqn:E; [done|].
  intros Hn [->|Hp]%elem_of_cons; [|by apply IH].
  intros ->. by rewrite strip_app in E.
Qed.

Lemma strip_any_None_intro ps l :
  (∀ p r, p ∈ ps → l ≠ p ++ r) → strip_any ps l = None.
Proof.
  intros Hp. destruct (strip_any ps l) as [r|] eqn:E; [|done].
  apply strip_any_Some in E as (p & Hin & ->). by destruct (Hp p r).
Qed.

Lemma drop_ws_stop ps n l : strip_any ps l = None → drop_ws ps n l = l.
Proof. intros E. destruct n; simpl; [done|]. by rewrite E. Qed.

Lemma length_drop_ws ps n l : length (drop_ws ps n l) ≤ length l.
Proof.
  revert l; induction n as [|n IH]; intros l; simpl; [done|].
  destruct (strip_any ps l) as [r|] eqn:E; [|done].
  apply strip_any_Some in E as (p & _ & ->). rewrite length_app.
  specialize (IH r). lia.
Qed.

(** A list [drop_ws] leaves alone starts with none of the sequences. *)
Lemma drop_ws_fixed ps l :
  [] ∉ ps → drop_ws ps (length l) l = l → strip_any ps l = None.
Proof.
  intros Hne. destruct l as [|a l]; simpl.
  - intros _. apply strip_any_None_intro. intros [|] r Hp; done.
  - destruct (strip_any ps (a :: l)) as [r|] eqn:E; [|done].
    apply strip_any_Some in E as (p & Hp & Heq). intros Hd.
    pose proof (length_drop_ws ps (length l) r) as Hlen. rewrite Hd in Hlen.
    apply (f_equal length) in Heq. rewrite length_app in Heq.
    destruct p; [done|]. simpl in *. lia.
Qed.

(** No white-space byte sequence contains a byte below 128 other than the
    ASCII white space itself. *)
Definition ws_free (a : ascii) : bool :=
  forallb (forallb (λ b, negb (bool_decide (a = b)))) white_space.

Lemma ws_free_not_in a p : ws_free a = true → p ∈ white_space → a ∉ p.
Proof.
  unfold ws_free. rewrite forallb_forall. intros Ha Hp%list_elem_of_In Hin.
  specialize (Ha p Hp). rewrite forallb_forall in Ha.
  apply list_elem_of_In, Ha in Hin. rewrite bool_decide_eq_true_2 in Hin; done.
Qed.

Lemma white_space_nonempty p : p ∈ white_space → p ≠ [].
Proof.
  assert (forallb (λ p, negb (bool_decide (p = []))) white_space = true) as Hall by done.
  rewrite forallb_forall in Hall.
  intros Hp%list_elem_of_In%Hall. case_bool_decide; done.
Qed.

(** A white-space-free byte after [b] shields [b] from being extended into a
    white-space sequence. *)
Lemma trim_start_l_guard b a r :
  ws_free a = true → trim_start_l b = b →
  trim_start_l (b ++ a :: r) = b ++ a :: r.
Proof.
  intros Ha Hb. apply drop_ws_stop, strip_any_None_intro. intros p rr Hp Heq.
  assert (a ∉ p) as Hap by (by apply ws_free_not_in).
  assert (∃ q, b = p ++ q) as [q ->].
  { clear Hb Hp. revert p rr Heq Hap.
    induction b as [|c b IH]; intros [|d p] rr Heq Hap; simplify_eq/=.
    - by exists [].
    - set_solver.
    - by exists (c :: b).
    - destruct (IH p rr) as [q ->]; [done|set_solver|by exists q]. }
  apply drop_ws_fixed in Hb; [|by intros Hnil%white_space_nonempty].
  by destruct (strip_any_None _ _ p q Hb Hp).
Qed.

(** A final white-space-free byte stops [trim_end]. *)
Lemma trim_end_l_guard b a : ws_free a = true → trim_end_l (b ++ [a]) = b ++ [a].
Proof.
  intros Ha. unfold trim_end_l. rewrite drop_ws_stop; [apply reverse_involutive|].
  apply strip_any_None_intro. intros p r Hp Heq.
  apply list_elem_of_fmap in Hp as (p' & -> & Hp').
  rewrite reverse_snoc in Heq. pose proof (white_space_nonempty _ Hp').
  destruct p' as [|x p'] using rev_ind; [done|].
  rewrite reverse_snoc in Heq. simplify_eq/=.
  eapply ws_free_not_in; [done..|]. set_solver.
Qed.

Lemma rsplit_at_app c b m : c ∉ m → rsplit_at c (b ++ c :: m) = Some (b, m).
Proof.
  intros Hm. assert (rsplit_at c m = None) as Hn.
  { induction m as [|a m IH]; simpl; [done|].
    rewrite IH by set_solver. rewrite bool_decide_eq_false_2; [done|set_solver]. }
  induction b as [|a b IH]; simpl; [|by rewrite IH].
  rewrite Hn. by rewrite bool_decide_eq_true_2.
Qed.

Lemma rsplit_at_None c l : c ∉ l → rsplit_at c l = None.
Proof.
  induction l as [|a l IH]; simpl; [done|]. intros Hc.
  rewrite IH by set_solver. rewrite bool_decide_eq_false_2; [done|set_solver].
Qed.

Lemma parse_digits_app acc l1 l2 :
  parse_digits acc (l1 ++ l2) = (acc' ← parse_digits acc l1; parse_digits acc' l2).
Proof.
  revert acc; induction l1 as [|a l1 IH]; intros acc; simpl; [done|].
  destruct (is_ascii_digit a); [|done]. destruct (_ <=? _)%N; [apply IH|done].
Qed.

(** Printing a [u64] and parsing it back. *)
Definition digits (n : N) : list ascii := chars (display n).

Lemma chars_app s1 s2 : chars (s1 +:+ s2) = chars s1 ++ chars s2.
Proof. induction s1 as [|a s1 IH]; simpl; [done|]. by rewrite IH. Qed.

Lemma pretty_N_char_digit x :
  (x < 10)%N → is_ascii_digit (pretty_N_char x) = true ∧ digit_value (pretty_N_char x) = x.
Proof.
  intros Hx. assert (x = 0 ∨ x = 1 ∨ x = 2 ∨ x = 3 ∨ x = 4 ∨ x = 5 ∨ x = 6 ∨ x = 7
    ∨ x = 8 ∨ x = 9)%N as Hcases by lia.
  by repeat destruct Hcases as [->|Hcases]; subst.
Qed.

Lemma parse_digits_pretty_go x s :
  (x ≤ u64_max)%N →
  parse_digits 0 (chars (pretty_N_go x s)) = parse_digits x (chars s).
Proof.
  revert s. induction (N.lt_wf_0 x) as [x _ IH]; intros s Hx.
  destruct (decide (x = 0)%N) as [->|Hne]; [by rewrite pretty_N_go_0|].
  rewrite pretty_N_go_step by lia.
  pose proof (N.div_mod x 10 ltac:(done)) as Hdm.
  pose proof (N.mod_lt x 10 ltac:(done)) as Hlt.
  assert (x / 10 < x)%N as Hdiv by (apply N.div_lt; lia).
  rewrite IH; [|done|by etrans; [apply N.lt_le_incl|]]. simpl.
  destruct (pretty_N_char_digit _ Hlt) as [-> ->].
  rewrite (N.mul_comm (x / 10)), <-Hdm.
  destruct (N.leb_spec x u64_max); [done|lia].
Qed.

Lemma digits_head n : ∃ a l, digits n = a :: l ∧ is_ascii_digit a = true.
Proof.
  unfold digits, display, pretty, pretty_N. case_decide as Hn; [by exists "0"%char, []|].
  assert (∀ x s, (x ≠ 0)%N → ∃ a l, chars (pretty_N_go x s) = a :: l
    ∧ is_ascii_digit a = true) as Hgo; [|by apply Hgo].
  clear n Hn. intros x. induction (N.lt_wf_0 x) as [x _ IH]; intros s Hx.
  rewrite pretty_N_go_step by lia.
  destruct (decide (x / 10 = 0)%N) as [->|Hq].
  - rewrite pretty_N_go_0. simpl. eexists _, _. split; [done|].
    apply pretty_N_char_digit, N.mod_lt. done.
  - apply IH; [apply N.div_lt; lia|done].
Qed.

Lemma parse_digits_display n : (n ≤ u64_max)%N → parse_digits 0 (digits n) = Some n.
Proof.
  intros Hn. unfold digits, display, pretty, pretty_N. case_decide as E; [by subst|].
  by rewrite parse_digits_pretty_go.
Qed.

Lemma parse_u64_display n : (n ≤ u64_max)%N → parse_u64 (digits n) = Some n.
Proof.
  intros Hn. destruct (digits_head n) as (a & l & E & Ha).
  unfold parse_u64. rewrite E. rewrite bool_decide_eq_false_2 by (by intros ->).
  rewrite <-E. by apply parse_digits_display.
Qed.

Lemma parse_digits_all l acc n :
  parse_digits acc l = Some n → Forall (λ a, is_ascii_digit a = true) l.
Proof.
  revert acc; induction l as [|a l IH]; intros acc; simpl; [auto|].
  destruct (is_ascii_digit a) eqn:E; [|done]. destruct (_ <=? _)%N; [|done].
  intros ?%IH. auto.
Qed.

Lemma digits_all n : Forall (λ a, is_ascii_digit a = true) (digits n).
Proof.
  unfold digits, display, pretty, pretty_N. case_decide; [by repeat constructor|].
  assert (∀ x s, Forall (λ a, is_ascii_digit a = true) (chars s) →
    Forall (λ a, is_ascii_digit a = true) (chars (pretty_N_go x s))) as Hgo; [|by apply Hgo].
  clear. intros x. induction (N.lt_wf_0 x) as [x _ IH]; intros s Hs.
  destruct (decide (x = 0)%N) as [->|Hne]; [by rewrite pretty_N_go_0|].
  rewrite pretty_N_go_step by lia. apply IH; [apply N.div_lt; lia|].
  simpl. constructor; [|done]. apply pretty_N_char_digit, N.mod_lt. done.
Qed.

Lemma is_ascii_digit_ws_free a : is_ascii_digit a = true → ws_free a = true.
Proof. destruct a as [[] [] [] [] [] [] [] []]; vm_compute; congruence. Qed.

Lemma chars_of_chars l : chars (of_chars l) = l.
Proof. apply String.list_ascii_of_string_of_list_ascii. Qed.

Lemma of_chars_chars s : of_chars (chars s) = s.
Proof. apply String.string_of_list_ascii_of_string. Qed.

Lemma pop_Some {A} (l : list A) x r : pop l = Some (x, r) ↔ l = r ++ [x].
Proof.
  unfold pop. destruct (reverse l) as [|y l'] eqn:E.
  - apply (f_equal reverse) in E. rewrite reverse_involutive in E. subst. cbn.
    split; [done|]. by destruct r.
  - apply (f_equal reverse) in E. rewrite reverse_involutive, reverse_cons in E. subst l.
    split; [by intros [= -> ->]|]. by intros [-> [= ->]]%app_inj_tail.
Qed.

Lemma pop_None {A} (l : list A) : pop l = None ↔ l = [].
Proof.
  unfold pop. destruct (reverse l) as [|y l'] eqn:E.
  - apply (f_equal reverse) in E. rewrite reverse_involutive in E. by subst.
  - split; [done|]. intros ->. by apply (f_equal length) in E.
Qed.

(** [drop_ws] with enough rounds ends where no sequence can be dropped. *)
Lemma drop_ws_end ps n l :
  [] ∉ ps → length l ≤ n → strip_any ps (drop_ws ps n l) = None.
Proof.
  intros Hne. revert l; induction n as [|n IH]; intros l L; cbn.
  - destruct l; [|cbn in L; lia]. apply strip_any_None_intro. intros [|] r Hp; done.
  - destruct (strip_any ps l) as [r|] eqn:E; [|done].
    apply strip_any_Some in E as (p & Hp & ->). apply IH. rewrite length_app in L.
    destruct p; [done|]. cbn in L. lia.
Qed.

Lemma white_space_no_nil : [] ∉ white_space.
Proof. by intros H%white_space_nonempty. Qed.

Lemma reverse_white_space_no_nil : [] ∉ reverse <$> white_space.
Proof.
  intros (p & E & H%white_space_nonempty)%list_elem_of_fmap.
  apply (f_equal reverse) in E. by rewrite reverse_involutive in E.
Qed.

Lemma strip_any_prefix ps l k : strip_any ps (l ++ k) = None → strip_any ps l = None.
Proof.
  intros E. apply strip_any_None_intro. intros p r Hp ->. rewrite <- app_assoc in E.
  by apply (strip_any_None _ _ p (r ++ k) E Hp).
Qed.

(** No white space in front, none at the end. *)
Definition trimmed_start (l : list ascii) : Prop := strip_any white_space l = None.
Definition trimmed_end (l : list ascii) : Prop :=
  strip_any (reverse <$> white_space) (reverse l) = None.

Lemma trimmed_start_l l : trimmed_start l → trim_start_l l = l.
Proof. apply drop_ws_stop. Qed.

Lemma trimmed_end_l l : trimmed_end l → trim_end_l l = l.
Proof. intros H. unfold trim_end_l. rewrite drop_ws_stop by done. apply reverse_involutive. Qed.

Lemma drop_ws_suffix ps n l : ∃ k, l = k ++ drop_ws ps n l.
Proof.
  revert l; induction n as [|n IH]; intros l; cbn; [by exists []|].
  destruct (strip_any ps l) as [r|] eqn:E; [|by exists []].
  apply strip_any_Some in E as (p & _ & ->). destruct (IH r) as [k Hk].
  exists (p ++ k). rewrite <- app_assoc. by f_equal.
Qed.

Lemma trim_end_l_prefix l : ∃ k, l = trim_end_l l ++ k.
Proof.
  unfold trim_end_l.
  destruct (drop_ws_suffix (reverse <$> white_space) (length l) (reverse l)) as [k Hk].
  exists (reverse k). apply (f_equal reverse) in Hk.
  by rewrite reverse_involutive, reverse_app in Hk.
Qed.

Lemma trim_trimmed s : trimmed_start (chars (trim s)) ∧ trimmed_end (chars (trim s)).
Proof.
  unfold trim. rewrite chars_of_chars.
  pose proof (drop_ws_end white_space (length (chars s)) (chars s) white_space_no_nil
    ltac:(done)) as S. fold (trim_start_l (chars s)) in S.
  set (y := trim_start_l (chars s)) in *. split.
  - destruct (trim_end_l_prefix y) as [k Hk]. rewrite Hk in S. by apply strip_any_prefix in S.
  - unfold trimmed_end, trim_end_l. rewrite reverse_involutive.
    apply drop_ws_end; [apply reverse_white_space_no_nil|]. by rewrite length_reverse.
Qed.

Lemma trim_id s : trimmed_start (chars s) → trimmed_end (chars s) → trim s = s.
Proof.
  intros S E. unfold trim. rewrite trimmed_start_l, trimmed_end_l by done. apply of_chars_chars.
Qed.

Lemma parse_digits_bound l acc n :
  parse_digits acc l = Some n → (acc ≤ u64_max)%N → (n ≤ u64_max)%N.
Proof.
  revert acc; induction l as [|a l IH]; intros acc; cbn; [by intros [= ->]|].
  destruct (is_ascii_digit a); [|done]. destruct (N.leb_spec (acc * 10 + digit_value a) u64_max); [|done]. eauto.
Qed.

Lemma parse_u64_bound l n : parse_u64 l = Some n → (n ≤ u64_max)%N.
Proof.
  unfold parse_u64. intros H.
  assert (Z : (0 ≤ u64_max)%N) by (unfold u64_max; lia).
  repeat case_match; try done; eauto using parse_digits_bound.
Qed.

Lemma rsplit_at_Some c l b m : rsplit_at c l = Some (b, m) → l = b ++ c :: m.
Proof.
  revert b; induction l as [|a l IH]; intros b; cbn; [done|].
  destruct (rsplit_at c l) as [[b' m']|].
  - intros [= <- <-]. cbn. f_equal. by apply IH.
  - case_bool_decide; [|done]. intros [= <- <-]. by subst.
Qed.
