(* ===== verification/Json.v ===== *)
(** * [serde_json::Value]

    The JSON values the kernel reads (manifests, call inputs) and writes
    (journal arguments, error replies). An object is an association list of
    its members; [serde_json]'s default map keeps them sorted by key and
    without repetition, and [get] reads the first member with the key. *)

From S2P Require Import Prelude.

(** [serde_json::Number]: [u64], negative [i64] or a float (its bits). *)
Inductive Number : Type :=
| PosInt (n : N)
| NegInt (z : Z)
| Float (bits : N).

Inductive Value : Type :=
| JNull
| JBool (b : bool)
| JNumber (n : Number)
| JString (s : string)
| JArray (l : list Value)
| JObject (m : list (string * Value)).

(** Lookup in the members of an object ([Map::get]). *)
Fixpoint assoc {A} (key : string) (m : list (string * A)) : option A :=
  match m with
  | [] => None
  | (k, v) :: m => if bool_decide (k = key) then Some v else assoc key m
  end.

Definition as_object (v : Value) : option (list (string * Value)) :=
  match v with JObject m => Some m | _ => None end.

Definition as_array (v : Value) : option (list Value) :=
  match v with JArray l => Some l | _ => None end.

Definition as_str (v : Value) : option string :=
  match v with JString s => Some s | _ => None end.

Definition as_bool (v : Value) : option bool :=
  match v with JBool b => Some b | _ => None end.

Definition as_u64 (v : Value) : option N :=
  match v with JNumber (PosInt n) => Some n | _ => None end.

Definition as_i64 (v : Value) : option Z :=
  match v with
  | JNumber (PosInt n) => if (n <=? i64_max)%N then Some (Z.of_N n) else None
  | JNumber (NegInt z) => Some z
  | _ => None
  end.

(** [Value::get(key)]: [None] on anything but an object. *)
Definition get (key : string) (v : Value) : option Value :=
  m ← as_object v; assoc key m.

(** [v.get(key).and_then(|x| x.as_str())] and its siblings. *)
Definition get_str (key : string) (v : Value) : option string := get key v ≫= as_str.
Definition get_array (key : string) (v : Value) : option (list Value) := get key v ≫= as_array.
Definition get_u64 (key : string) (v : Value) : option N := get key v ≫= as_u64.
Definition get_i64 (key : string) (v : Value) : option Z := get key v ≫= as_i64.

(** The same on the members of an object. *)
Definition obj_str (key : string) (m : list (string * Value)) : option string :=
  assoc key m ≫= as_str.
Definition obj_array (key : string) (m : list (string * Value)) : option (list Value) :=
  assoc key m ≫= as_array.
Definition obj_object (key : string) (m : list (string * Value))
    : option (list (string * Value)) :=
  assoc key m ≫= as_object.
Definition obj_u64 (key : string) (m : list (string * Value)) : option N :=
  assoc key m ≫= as_u64.

(** [json!] on the scalar types the kernel embeds. *)
Definition j_u64 (n : N) : Value := JNumber (PosInt n).
Definition j_i64 (z : Z) : Value :=
  JNumber (if (0 <=? z)%Z then PosInt (Z.to_N z) else NegInt z).
Definition j_opt (o : option Value) : Value := default JNull o.

Definition member_le (a b : string * Value) : Prop := String.le a.1 b.1.

#[export] Instance member_le_dec : RelDecision member_le.
Proof. intros a b. unfold member_le. apply _. Defined.

(** [json!({...})]: the members sorted by key. *)
Definition obj (l : list (string * Value)) : Value := JObject (merge_sort member_le l).

Definition j_strs (l : list string) : Value := JArray (JString <$> l).

(** ** Objects *)

Lemma assoc_perm {A} k (l l' : list (string * A)) : l ≡ₚ l' → NoDup l.*1 → assoc k l = assoc k l'.
Proof.
  induction 1 as [|[a x] l l' P IH|[a x] [b y] l|l1 l2 l3 P1 IH1 P2 IH2]; intros ND; cbn in *.
  - done.
  - apply NoDup_cons in ND as [_ ND]. by rewrite IH.
  - apply NoDup_cons in ND as [Ni _]. repeat case_bool_decide; try done. subst. set_solver.
  - rewrite IH1 by done. apply IH2. by rewrite <- P1.
Qed.

(** The members of a [json!] object. *)
Lemma get_obj k (l : list (string * Value)) : bool_decide (NoDup l.*1) = true → get k (obj l) = assoc k l.
Proof.
  intros ND%bool_decide_eq_true. cbn. symmetry. apply assoc_perm; [|done].
  symmetry. apply merge_sort_Permutation.
Qed.
