(* ===== verification/Identity.v ===== *)
(** * Identities and the lifecycle FSM ([identity.rs], [fsm.rs]) *)

From S2P Require Import Prelude RustStd.

(** ** [fsm.rs] *)

Inductive Fsm : Type :=
| Registered | Waiting | Preparing | Active | Quiescing | CleanupPending
| Disposed | Failed
| Pending     (* legacy: Registered *)
| Loading     (* legacy: Preparing *)
| Unloading   (* legacy: Quiescing *).

#[export] Instance Fsm_eq_dec : EqDecision Fsm.
Proof. solve_decision. Defined.

Definition fsm_as_str (s : Fsm) : string :=
  match s with
  | Registered => "Registered"
  | Waiting => "Waiting"
  | Preparing => "Preparing"
  | Active => "Active"
  | Quiescing => "Quiescing"
  | CleanupPending => "CleanupPending"
  | Disposed => "Disposed"
  | Failed => "Failed"
  | Pending => "Pending"
  | Loading => "Loading"
  | Unloading => "Unloading"
  end.

Definition admits_calls (s : Fsm) : bool := bool_decide (s = Active).

Definition canonical (s : Fsm) : Fsm :=
  match s with
  | Pending => Registered
  | Loading => Preparing
  | Unloading => Quiescing
  | s => s
  end.

Definition is_terminal_like (s : Fsm) : bool :=
  match canonical s with
  | Disposed | Failed | CleanupPending => true
  | _ => false
  end.

(** ** [identity.rs] *)

Record InstanceRef : Type := mkInstanceRef {
  ref_epoch : N;
  ref_instance : N;
  ref_context : N;
  ref_logical : string;
  ref_generation : N;
}.

#[export] Instance InstanceRef_eq_dec : EqDecision InstanceRef.
Proof. solve_decision. Defined.

Definition describe (r : InstanceRef) : string :=
  "e" +:+ display (ref_epoch r) +:+ ":" +:+ ref_logical r +:+ ":"
  +:+ display (ref_instance r) +:+ ":" +:+ display (ref_context r)
  +:+ "#" +:+ display (ref_generation r).

Definition same_activation (a b : InstanceRef) : bool :=
  (ref_epoch a =? ref_epoch b)%N
  && (ref_instance a =? ref_instance b)%N
  && (ref_generation a =? ref_generation b)%N.

(** [fresh_epoch]: little-endian [u64] of eight entropy bytes. *)
Definition u64_from_le_bytes (bytes : list N) : N :=
  foldr (λ b acc, (b + 256 * acc)%N) 0%N bytes.

Definition fresh_epoch (entropy : list N) : N := u64_from_le_bytes (take 8 entropy).

(** ** Facts *)

Lemma canonical_idem s : canonical (canonical s) = canonical s.
Proof. by destruct s. Qed.

Lemma canonical_active s : canonical s = Active ↔ s = Active.
Proof. by destruct s. Qed.

Lemma same_activation_spec a b :
  same_activation a b = true ↔
  ref_epoch a = ref_epoch b ∧ ref_instance a = ref_instance b
  ∧ ref_generation a = ref_generation b.
Proof. unfold same_activation. rewrite !andb_true_iff, !N.eqb_eq. tauto. Qed.

#[export] Hint Rewrite canonical_idem canonical_active : matrix_rw.
