(* ===== verification/Contexts.v ===== *)
(** * The context table ([context.rs])

    One record per activation of a logical id: fresh instance and context ids,
    a generation that grows by one per activation, and the lifecycle state.
    [Inner] behind the mutex is the record [ContextTable]; every method is a
    function of it (each holds the mutex for its whole body). *)

From S2P Require Import Prelude RustStd Identity.

Record ContextRecord : Type := mkContextRecord {
  cr_context : ContextId;
  cr_instance : InstanceId;
  cr_logical : string;
  cr_generation : N;
  cr_epoch : N;
  cr_state : Fsm;
  cr_parent : option ContextId;
  cr_cause : option string;
}.

#[export] Instance ContextRecord_eq_dec : EqDecision ContextRecord.
Proof. solve_decision. Defined.

Definition reference (r : ContextRecord) : InstanceRef :=
  mkInstanceRef (cr_epoch r) (cr_instance r) (cr_context r) (cr_logical r) (cr_generation r).

(** [rec.state = s; rec.cause = c]. *)
Definition with_state_cause (s : Fsm) (c : option string) (r : ContextRecord) : ContextRecord :=
  mkContextRecord (cr_context r) (cr_instance r) (cr_logical r) (cr_generation r)
    (cr_epoch r) s (cr_parent r) c.

Inductive ContextError : Type :=
| UnknownInstance (i : N)
| UnknownContext (c : N)
| NotActive (logical state : string)
| StaleGeneration (logical : string) (expected got : N)
| AlreadyDisposed (logical : string).

Inductive DisposeClaim : Type :=
| Fresh (r : ContextRecord)
| InFlight (logical : string).

Definition context_error_display (e : ContextError) : string :=
  match e with
  | UnknownInstance i => "unknown instance inst-" +:+ display i
  | UnknownContext c => "unknown context ctx-" +:+ display c
  | NotActive l s => "context-not-active: " +:+ l +:+ " is " +:+ s
  | StaleGeneration l e g =>
      "stale-generation: " +:+ l +:+ " expected #" +:+ display e +:+ " got #" +:+ display g
  | AlreadyDisposed l => "already disposed: " +:+ l
  end.

Record ContextTable : Type := mkContextTable {
  ct_epoch : N;
  next_instance : N;
  next_context : N;
  by_instance : gmap N ContextRecord;
  by_context : gmap N N;
  current_by_logical : gmap string N;
  generations : gmap string N;
}.

Definition with_by_instance (m : gmap N ContextRecord) (t : ContextTable) : ContextTable :=
  mkContextTable (ct_epoch t) (next_instance t) (next_context t) m (by_context t)
    (current_by_logical t) (generations t).

(** [ContextTable::new]; the boot epoch comes from OS entropy. *)
Definition context_table_new (epoch : N) : ContextTable :=
  mkContextTable epoch 1 1 ∅ ∅ ∅ ∅.

Definition generation_of (logical : string) (t : ContextTable) : N :=
  default 0%N (generations t !! logical).

Definition create_in (logical : string) (state : Fsm) (cause : option string)
    (t : ContextTable) : ContextRecord * ContextTable :=
  let gen := (default 0 (generations t !! logical) + 1)%N in
  let inst := next_instance t in
  let ctx := next_context t in
  let rec := mkContextRecord ctx inst logical gen (ct_epoch t) state None cause in
  (rec,
   mkContextTable (ct_epoch t) (next_instance t + 1) (next_context t + 1)
     (<[inst := rec]> (by_instance t)) (<[ctx := inst]> (by_context t))
     (<[logical := inst]> (current_by_logical t)) (<[logical := gen]> (generations t))).

Definition create (logical : string) (t : ContextTable) : ContextRecord * ContextTable :=
  create_in logical Active None t.

Definition create_waiting (logical cause : string) (t : ContextTable)
    : ContextRecord * ContextTable :=
  create_in logical Waiting (Some cause) t.

Definition get_by_instance (inst : InstanceId) (t : ContextTable) : option ContextRecord :=
  by_instance t !! inst.

Definition get_by_context (ctx : ContextId) (t : ContextTable) : option ContextRecord :=
  inst ← by_context t !! ctx; by_instance t !! inst.

Definition current (logical : string) (t : ContextTable) : option ContextRecord :=
  inst ← current_by_logical t !! logical; by_instance t !! inst.

Definition current_all (t : ContextTable) : gmap string ContextRecord :=
  omap (λ inst, by_instance t !! inst) (current_by_logical t).

Definition require_active (inst : InstanceId) (t : ContextTable)
    : result ContextRecord ContextError :=
  match by_instance t !! inst with
  | None => Err (UnknownInstance inst)
  | Some rec =>
      if negb (bool_decide (canonical (cr_state rec) = Active)) then
        Err (NotActive (cr_logical rec) (fsm_as_str (cr_state rec)))
      else
        match current_by_logical t !! cr_logical rec with
        | Some cur =>
            if negb (cur =? inst)%N then
              let cur_gen := default (cr_generation rec)
                               (cr_generation <$> by_instance t !! cur) in
              Err (StaleGeneration (cr_logical rec) cur_gen (cr_generation rec))
            else Ok rec
        | None => Ok rec
        end
  end.

Definition claim_dispose (inst : InstanceId) (t : ContextTable)
    : result DisposeClaim ContextError * ContextTable :=
  match by_instance t !! inst with
  | None => (Err (UnknownInstance inst), t)
  | Some rec =>
      match canonical (cr_state rec) with
      | Disposed => (Err (AlreadyDisposed (cr_logical rec)), t)
      | Failed => (Err (AlreadyDisposed (cr_logical rec)), t)
      | Quiescing => (Ok (InFlight (cr_logical rec)), t)
      | CleanupPending => (Ok (InFlight (cr_logical rec)), t)
      | _ =>
          let rec' := with_state_cause Quiescing None rec in
          (Ok (Fresh rec'), with_by_instance (<[inst := rec']> (by_instance t)) t)
      end
  end.

(** [if let Some(rec) = by_instance.get_mut(&inst)]. *)
Definition update_record (inst : InstanceId) (f : ContextRecord → ContextRecord)
    (t : ContextTable) : ContextTable :=
  with_by_instance (alter f inst (by_instance t)) t.

Definition mark_disposed (inst : InstanceId) (t : ContextTable) : ContextTable :=
  update_record inst (with_state_cause Disposed None) t.

Definition mark_cleanup_pending (inst : InstanceId) (cause : string) (t : ContextTable)
    : ContextTable :=
  update_record inst (with_state_cause CleanupPending (Some cause)) t.

Definition mark_failed (inst : InstanceId) (cause : string) (t : ContextTable) : ContextTable :=
  update_record inst (with_state_cause Failed (Some cause)) t.

Definition mark_active (inst : InstanceId) (t : ContextTable) : bool * ContextTable :=
  match by_instance t !! inst with
  | None => (false, t)
  | Some rec =>
      match canonical (cr_state rec) with
      | Waiting | Preparing | Registered =>
          (true, update_record inst (with_state_cause Active None) t)
      | Active => (true, t)
      | _ => (false, t)
      end
  end.

Definition mark_waiting (inst : InstanceId) (cause : string) (t : ContextTable)
    : bool * ContextTable :=
  match by_instance t !! inst with
  | None => (false, t)
  | Some rec =>
      match canonical (cr_state rec) with
      | Waiting | Preparing | Registered =>
          (true, update_record inst (with_state_cause Waiting (Some cause)) t)
      | _ => (false, t)
      end
  end.

Definition set_state (inst : InstanceId) (state : Fsm) (t : ContextTable) : ContextTable :=
  update_record inst (λ r, with_state_cause state (cr_cause r) r) t.

(** Inventory order: by [(logical, generation)]. *)
Definition ctx_key_le (a b : ContextRecord) : Prop :=
  (cr_logical a = cr_logical b ∧ (cr_generation a ≤ cr_generation b)%N)
  ∨ (cr_logical a ≠ cr_logical b ∧ String.le (cr_logical a) (cr_logical b)).

#[export] Instance ctx_key_le_dec : RelDecision ctx_key_le.
Proof. intros a b. unfold ctx_key_le. apply _. Defined.

Definition ctx_snapshot (t : ContextTable) : list ContextRecord :=
  merge_sort ctx_key_le (map_to_list (by_instance t)).*2.

(** The mutators of the table as data, for sequences of operations. [set_state]
    is left out: only [reset_bench] calls it, with the state already there. *)
Inductive CtxOp : Type :=
| OpCreateIn (logical : string) (state : Fsm) (cause : option string)
| OpClaimDispose (inst : InstanceId)
| OpMarkDisposed (inst : InstanceId)
| OpMarkCleanupPending (inst : InstanceId) (cause : string)
| OpMarkFailed (inst : InstanceId) (cause : string)
| OpMarkActive (inst : InstanceId)
| OpMarkWaiting (inst : InstanceId) (cause : string).

Definition ctx_apply (o : CtxOp) (t : ContextTable) : ContextTable :=
  match o with
  | OpCreateIn l s c => (create_in l s c t).2
  | OpClaimDispose i => (claim_dispose i t).2
  | OpMarkDisposed i => mark_disposed i t
  | OpMarkCleanupPending i c => mark_cleanup_pending i c t
  | OpMarkFailed i c => mark_failed i c t
  | OpMarkActive i => (mark_active i t).2
  | OpMarkWaiting i c => (mark_waiting i c t).2
  end.

Definition ctx_run (ops : list CtxOp) (t : ContextTable) : ContextTable :=
  foldl (λ t o, ctx_apply o t) t ops.

(** ** Invariant *)

Record ctx_wf (t : ContextTable) : Prop := {
  wf_next : (0 < next_instance t)%N ∧ (0 < next_context t)%N;
  wf_inst_key : ∀ i r, by_instance t !! i = Some r → cr_instance r = i;
  wf_inst_fresh : ∀ i r, by_instance t !! i = Some r → (0 < i < next_instance t)%N;
  wf_ctx_fresh : ∀ i r, by_instance t !! i = Some r → (0 < cr_context r < next_context t)%N;
  wf_ctx_inv : ∀ i r, by_instance t !! i = Some r → by_context t !! cr_context r = Some i;
  wf_ctx_ref : ∀ c i, by_context t !! c = Some i →
    ∃ r, by_instance t !! i = Some r ∧ cr_context r = c;
  wf_epoch : ∀ i r, by_instance t !! i = Some r → cr_epoch r = ct_epoch t;
  wf_gen : ∀ i r, by_instance t !! i = Some r →
    (0 < cr_generation r ≤ generation_of (cr_logical r) t)%N;
  wf_gen_inj : ∀ i r i' r', by_instance t !! i = Some r → by_instance t !! i' = Some r' →
    cr_logical r = cr_logical r' → cr_generation r = cr_generation r' → i = i';
  wf_current : ∀ l i, current_by_logical t !! l = Some i →
    ∃ r, by_instance t !! i = Some r ∧ cr_logical r = l ∧ cr_generation r = generation_of l t;
  wf_has_current : ∀ i r, by_instance t !! i = Some r →
    is_Some (current_by_logical t !! cr_logical r);
}.

(** The part of a record no operation ever changes. *)
Definition same_identity (r r' : ContextRecord) : Prop :=
  cr_context r = cr_context r' ∧ cr_instance r = cr_instance r'
  ∧ cr_logical r = cr_logical r' ∧ cr_generation r = cr_generation r'
  ∧ cr_epoch r = cr_epoch r'.

(** States a dispose has already linearized from. *)
Definition left_active (s : Fsm) : bool :=
  match canonical s with
  | Quiescing | CleanupPending | Disposed | Failed => true
  | _ => false
  end.

(** ** Facts *)

Lemma context_table_new_wf e : ctx_wf (context_table_new e).
Proof. by split; intros *; simpl; rewrite ?lookup_empty. Qed.

Section wf.
Context (t : ContextTable) (W : ctx_wf t).

Lemma fresh_instance_none : by_instance t !! next_instance t = None.
Proof.
  destruct (by_instance t !! next_instance t) eqn:E; [|done].
  apply (wf_inst_fresh _ W) in E. lia.
Qed.

Lemma fresh_context_none : by_context t !! next_context t = None.
Proof.
  destruct (by_context t !! next_context t) eqn:E; [|done].
  apply (wf_ctx_ref _ W) in E as (r & Hr & Hc). apply (wf_ctx_fresh _ W) in Hr. lia.
Qed.

Lemma create_in_wf l s c : ctx_wf (create_in l s c t).2.
Proof.
  pose proof (wf_next _ W). pose proof fresh_instance_none. pose proof fresh_context_none.
  split; unfold create_in, generation_of; simpl.
  - lia.
  - intros i r [[<- <-]|[? ?]]%lookup_insert_Some; [done|by eapply wf_inst_key].
  - intros i r [[<- <-]|[? Hr]]%lookup_insert_Some; [lia|].
    apply (wf_inst_fresh _ W) in Hr. lia.
  - intros i r [[<- <-]|[? Hr]]%lookup_insert_Some; simpl; [lia|].
    apply (wf_ctx_fresh _ W) in Hr. lia.
  - intros i r [[<- <-]|[? Hr]]%lookup_insert_Some; simpl; [by rewrite lookup_insert_eq|].
    rewrite lookup_insert_ne; [by apply (wf_ctx_inv _ W)|].
    apply (wf_ctx_fresh _ W) in Hr. lia.
  - intros c' i [[<- <-]|[? Hc]]%lookup_insert_Some.
    + eexists. by rewrite lookup_insert_eq.
    + apply (wf_ctx_ref _ W) in Hc as (r & Hr & <-). exists r.
      rewrite lookup_insert_ne; [done|]. apply (wf_inst_fresh _ W) in Hr. lia.
  - intros i r [[<- <-]|[? Hr]]%lookup_insert_Some; [done|by eapply wf_epoch].
  - intros i r [[<- <-]|[? Hr]]%lookup_insert_Some; simpl.
    + rewrite lookup_insert_eq. simpl. lia.
    + apply (wf_gen _ W) in Hr as [? Hle]. unfold generation_of in Hle.
      rewrite lookup_insert. case_decide; subst; simpl; lia.
  - intros i r i' r' [[<- <-]|[? Hr]]%lookup_insert_Some
      [[<- <-]|[? Hr']]%lookup_insert_Some; simpl; [done| | |by eapply wf_gen_inj].
    + intros -> Hg. apply (wf_gen _ W) in Hr'. unfold generation_of in Hr'. lia.
    + intros <- Hg. apply (wf_gen _ W) in Hr. unfold generation_of in Hr. lia.
  - intros l' i [[<- <-]|[? Hc]]%lookup_insert_Some.
    + eexists. rewrite !lookup_insert_eq. done.
    + apply (wf_current _ W) in Hc as (r & Hr & Hl & Hg). exists r.
      rewrite !lookup_insert_ne by (try done; apply (wf_inst_fresh _ W) in Hr; lia). done.
  - intros i r [[<- <-]|[? Hr]]%lookup_insert_Some; simpl; [by rewrite lookup_insert_eq|].
    destruct (decide (l = cr_logical r)) as [<-|]; simplify_map_eq; [done|].
    by eapply wf_has_current.
Qed.

Lemma lookup_update_record inst f i r' :
  by_instance (update_record inst f t) !! i = Some r' ↔
  ∃ r, by_instance t !! i = Some r ∧ r' = (if bool_decide (inst = i) then f r else r).
Proof.
  unfold update_record; simpl. rewrite lookup_alter.
  case_bool_decide; [subst; rewrite decide_True by done|rewrite decide_False by done].
  - rewrite fmap_Some. naive_solver.
  - naive_solver.
Qed.

Lemma update_record_identity inst f i r' :
  (∀ r, same_identity r (f r)) →
  by_instance (update_record inst f t) !! i = Some r' →
  ∃ r, by_instance t !! i = Some r ∧ same_identity r r'.
Proof.
  intros Hf (r & Hr & ->)%lookup_update_record. exists r. split; [done|].
  case_bool_decide; [apply Hf|]. done.
Qed.

Lemma update_record_wf inst f :
  (∀ r, same_identity r (f r)) → ctx_wf (update_record inst f t).
Proof.
  intros Hf.
  assert (∀ i r, by_instance t !! i = Some r →
    ∃ r', by_instance (update_record inst f t) !! i = Some r' ∧ same_identity r r') as Hfw.
  { intros i r Hr. eexists. rewrite lookup_update_record. split; [eauto|].
    case_bool_decide; [apply Hf|done]. }
  pose proof (λ i r', update_record_identity inst f i r' Hf) as Hbw.
  split; try (intros i r' (r & Hr & E1 & E2 & E3 & E4 & E5)%Hbw; rewrite <-?E1, <-?E2, <-?E3, <-?E4, <-?E5).
  - exact (wf_next _ W).
  - exact (wf_inst_key _ W _ _ Hr).
  - exact (wf_inst_fresh _ W _ _ Hr).
  - exact (wf_ctx_fresh _ W _ _ Hr).
  - exact (wf_ctx_inv _ W _ _ Hr).
  - intros c i (r & Hr & <-)%(wf_ctx_ref _ W). destruct (Hfw _ _ Hr) as (r' & ? & E1 & _).
    exists r'. split; [done|by rewrite E1].
  - exact (wf_epoch _ W _ _ Hr).
  - exact (wf_gen _ W _ _ Hr).
  - intros i r' i2 r2' (r & Hr & _ & _ & E3 & E4 & _)%Hbw
      (r2 & Hr2 & _ & _ & E3' & E4' & _)%Hbw.
    rewrite <-E3, <-E4, <-E3', <-E4'. exact (wf_gen_inj _ W _ _ _ _ Hr Hr2).
  - intros l i (r & Hr & Hl & Hg)%(wf_current _ W).
    destruct (Hfw _ _ Hr) as (r' & Hr' & _ & _ & E3 & E4 & _).
    exists r'. split; [done|by rewrite <-E3, <-E4].
  - exact (wf_has_current _ W _ _ Hr).
Qed.
End wf.


Lemma with_state_cause_identity s c r : same_identity r (with_state_cause s c r).
Proof. done. Qed.

#[export] Hint Resolve with_state_cause_identity update_record_wf create_in_wf : matrix.

Lemma claim_dispose_update inst t :
  (claim_dispose inst t).2 = t
  ∨ (claim_dispose inst t).2 = update_record inst (with_state_cause Quiescing None) t.
Proof.
  unfold claim_dispose, update_record. destruct (by_instance t !! inst) as [r|] eqn:E; [|by left].
  destruct (canonical (cr_state r)); simpl; auto; right; f_equal;
    apply map_eq; intros i; rewrite lookup_insert, lookup_alter;
    case_decide; subst; by rewrite ?E.
Qed.

Lemma ctx_apply_wf o t : ctx_wf t → ctx_wf (ctx_apply o t).
Proof.
  intros W. destruct o as [|inst| | | | |]; cbn [ctx_apply];
    unfold mark_disposed, mark_cleanup_pending, mark_failed; auto with matrix.
  - destruct (claim_dispose_update inst t) as [-> | ->]; auto with matrix.
  - unfold mark_active. repeat case_match; simpl; auto with matrix.
  - unfold mark_waiting. repeat case_match; simpl; auto with matrix.
Qed.

Lemma set_state_wf inst s t : ctx_wf t → ctx_wf (set_state inst s t).
Proof. intros W. by apply update_record_wf. Qed.

Lemma ctx_run_wf ops t : ctx_wf t → ctx_wf (ctx_run ops t).
Proof.
  revert t; induction ops as [|o ops IH]; intros t W; [done|]. by apply IH, ctx_apply_wf.
Qed.

(** An instance that left the admitting states never comes back. *)
Lemma ctx_apply_left_active o t inst r :
  ctx_wf t → by_instance t !! inst = Some r → left_active (cr_state r) = true →
  ∃ r', by_instance (ctx_apply o t) !! inst = Some r' ∧ left_active (cr_state r') = true.
Proof.
  intros W Hr Hl.
  assert (∀ i s c, left_active s = true →
    ∃ r', by_instance (update_record i (with_state_cause s c) t) !! inst = Some r'
      ∧ left_active (cr_state r') = true) as Hup.
  { intros i s c Hs. eexists. rewrite lookup_update_record. split; [eauto|].
    by case_bool_decide. }
  assert (∃ r', by_instance t !! inst = Some r' ∧ left_active (cr_state r') = true) as Hid
    by eauto.
  destruct o as [l s c|i|i|i c|i c|i|i c]; simpl; try (by apply Hup).
  - exists r. rewrite lookup_insert_ne; [done|]. apply (wf_inst_fresh _ W) in Hr. lia.
  - destruct (claim_dispose_update i t) as [-> | ->]; auto.
  - unfold mark_active. destruct (by_instance t !! i) as [r'|] eqn:Ei; [|done].
    destruct (canonical (cr_state r')) eqn:Ec; simpl; auto.
    all: destruct (decide (i = inst)) as [->|];
      [simplify_eq; unfold left_active in Hl; by rewrite Ec in Hl|].
    all: exists r; rewrite lookup_alter_ne; done.
  - unfold mark_waiting. destruct (by_instance t !! i) as [r'|] eqn:Ei; [|done].
    destruct (canonical (cr_state r')) eqn:Ec; simpl; auto.
    all: destruct (decide (i = inst)) as [->|];
      [simplify_eq; unfold left_active in Hl; by rewrite Ec in Hl|].
    all: exists r; rewrite lookup_alter_ne; done.
Qed.

Lemma ctx_run_left_active ops t inst r :
  ctx_wf t → by_instance t !! inst = Some r → left_active (cr_state r) = true →
  ∃ r', by_instance (ctx_run ops t) !! inst = Some r' ∧ left_active (cr_state r') = true.
Proof.
  revert t r; induction ops as [|o ops IH]; intros t r W Hr Hl; [eauto|].
  destruct (ctx_apply_left_active o t inst r W Hr Hl) as (r' & Hr' & Hl').
  eapply IH; eauto using ctx_apply_wf.
Qed.

Lemma claim_dispose_fresh inst t r t' :
  claim_dispose inst t = (Ok (Fresh r), t') →
  by_instance t' !! inst = Some r ∧ cr_state r = Quiescing
  ∧ t' = update_record inst (with_state_cause Quiescing None) t.
Proof.
  intros E. pose proof (claim_dispose_update inst t) as Hu. rewrite E in Hu. simpl in Hu.
  unfold claim_dispose in E. destruct (by_instance t !! inst) as [r0|] eqn:Er; [|done].
  destruct (canonical (cr_state r0)) eqn:Ec; simplify_eq; simpl;
    rewrite lookup_insert_eq; repeat split; destruct Hu as [Hu|Hu]; try done;
    exfalso; apply (f_equal by_instance) in Hu; simpl in Hu;
    apply (f_equal (lookup inst)) in Hu; rewrite lookup_insert_eq, Er in Hu;
    injection Hu as Hu; rewrite <-Hu in Ec; done.
Qed.

Lemma claim_dispose_not_fresh inst t r :
  by_instance t !! inst = Some r → left_active (cr_state r) = true →
  ∀ r' t', claim_dispose inst t ≠ (Ok (Fresh r'), t').
Proof.
  intros Hr Hl r' t'. unfold claim_dispose. rewrite Hr. unfold left_active in Hl.
  destruct (canonical (cr_state r)); done.
Qed.

Lemma current_lookup t l r :
  ctx_wf t → current l t = Some r →
  by_instance t !! cr_instance r = Some r ∧ cr_logical r = l
  ∧ current_by_logical t !! l = Some (cr_instance r).
Proof.
  intros W. unfold current. rewrite bind_Some. intros (i & Hi & Hr).
  pose proof (wf_inst_key _ W _ _ Hr) as <-. split; [done|].
  apply (wf_current _ W) in Hi as Hi'. destruct Hi' as (r' & ? & ? & _). by simplify_eq.
Qed.

Lemma require_active_ok t inst r :
  require_active inst t = Ok r ↔
  by_instance t !! inst = Some r ∧ cr_state r = Active
  ∧ (current_by_logical t !! cr_logical r = Some inst
     ∨ current_by_logical t !! cr_logical r = None).
Proof.
  unfold require_active. destruct (by_instance t !! inst) as [r0|]; [|naive_solver].
  pose proof (canonical_active (cr_state r0)) as Hact.
  case_bool_decide as Hc; simpl; [|naive_solver].
  destruct (current_by_logical t !! cr_logical r0) as [cur|] eqn:Hcur; [|naive_solver].
  destruct (N.eqb_spec cur inst) as [->|]; simpl; naive_solver.
Qed.

(** ** Properties *)

(** dispose is claimed at most once. Whatever operations ran since boot, and
    whatever operations run after a caller observed [Fresh] for an instance, no
    later [claim_dispose] of that instance observes [Fresh] again. *)
Theorem claim_dispose_once e before inst r t after :
  claim_dispose inst (ctx_run before (context_table_new e)) = (Ok (Fresh r), t) →
  ∀ r' t', claim_dispose inst (ctx_run after t) ≠ (Ok (Fresh r'), t').
Proof.
  intros E. assert (ctx_wf (ctx_run before (context_table_new e))) as W
    by apply ctx_run_wf, context_table_new_wf.
  apply claim_dispose_fresh in E as (Hr & Hs & ->).
  destruct (ctx_run_left_active after
    (update_record inst (with_state_cause Quiescing None)
      (ctx_run before (context_table_new e))) inst r) as (r' & Hr' & Hl');
    [auto with matrix|done|by rewrite Hs|].
  by eapply claim_dispose_not_fresh.
Qed.

Lemma claim_dispose_once_witness :
  ∃ r t, claim_dispose 1 (ctx_run [OpCreateIn "echo" Active None] (context_table_new 7))
         = (Ok (Fresh r), t)
  ∧ ∀ r' t', claim_dispose 1 (ctx_run [OpMarkDisposed 1; OpCreateIn "echo" Active None] t)
             ≠ (Ok (Fresh r'), t').
Proof.
  eexists _, _. split; [reflexivity|]. eapply (claim_dispose_once 7 [OpCreateIn "echo" Active None]).
  reflexivity.
Defined.

(** a stale generation is never revalidated. In every reachable table, an
    instance that passes [require_active] is the logical id's current one, holds
    its highest generation, and every other record of that logical id is an
    older generation (so it is rejected). *)
Theorem require_active_latest e ops inst r :
  let t := ctx_run ops (context_table_new e) in
  require_active inst t = Ok r →
  current (cr_logical r) t = Some r
  ∧ cr_generation r = generation_of (cr_logical r) t
  ∧ ∀ i' r', by_instance t !! i' = Some r' → cr_logical r' = cr_logical r → i' ≠ inst →
      (cr_generation r' < cr_generation r)%N ∧ is_ok (require_active i' t) = false.
Proof.
  intros t (Hr & Hs & Hcur)%require_active_ok.
  assert (ctx_wf t) as W by apply ctx_run_wf, context_table_new_wf.
  destruct Hcur as [Hcur|Hcur]; [|by apply (wf_has_current _ W) in Hr; rewrite Hcur in Hr; destruct Hr].
  apply (wf_current _ W) in Hcur as Hgen. destruct Hgen as (r2 & Hr2 & _ & Hg).
  simplify_eq. split; [unfold current; by rewrite Hcur|]. split; [done|].
  intros i' r' Hr' Hl Hne. split.
  - apply (wf_gen _ W) in Hr' as Hle. rewrite Hl, <-Hg in Hle.
    destruct (decide (cr_generation r' = cr_generation r)) as [Heq|]; [|lia].
    destruct Hne. by eapply (wf_gen_inj _ W).
  - destruct (require_active i' t) as [r2|] eqn:E; [|done].
    apply require_active_ok in E as (? & ? & [E|E]); simplify_eq; congruence.
Qed.

Lemma require_active_latest_witness :
  let ops := [OpCreateIn "ws" Active None; OpCreateIn "ws" Active None] in
  let t := ctx_run ops (context_table_new 7) in
  ∃ r, require_active 2 t = Ok r ∧ current (cr_logical r) t = Some r.
Proof.
  eexists. split; [reflexivity|].
  apply (require_active_latest 7 [OpCreateIn "ws" Active None; OpCreateIn "ws" Active None] 2).
  reflexivity.
Defined.
