(* ===== verification/Resources.v ===== *)
(** * The resource table ([resources.rs])

    Ownership records, the per-context acquisition lists, and the timer and
    task threads. The [Arc]s a live timer shares with its thread (cancel flag,
    done flag, counter) are one cell of the [threads] store, named by the
    handle the thread was spawned for; [TimerLive]/[TaskLive] and a
    [ReleaseClaim] only hold that name. *)

From S2P Require Import Prelude RustStd Identity.

Inductive ResourceKind : Type :=
| Cap (name : string)
| Sub (topic : string)
| Timer (label : string) (interval_ms : N)
| Task (label : string)
| FailAcquire (label : string)
| FailRelease (label : string).

#[export] Instance ResourceKind_eq_dec : EqDecision ResourceKind.
Proof. solve_decision. Defined.

Definition kind_label (k : ResourceKind) : string :=
  match k with
  | Cap name => name
  | Sub topic => topic
  | Timer label _ => label
  | Task label => label
  | FailAcquire label => label
  | FailRelease label => label
  end.

Definition kind_name (k : ResourceKind) : string :=
  match k with
  | Cap _ => "cap"
  | Sub _ => "sub"
  | Timer _ _ => "timer"
  | Task _ => "task"
  | FailAcquire _ => "fail-acquire"
  | FailRelease _ => "fail-release"
  end.

Inductive ResourceState : Type := ResActive | Released.

#[export] Instance ResourceState_eq_dec : EqDecision ResourceState.
Proof. solve_decision. Defined.

Record ResourceRecord : Type := mkResourceRecord {
  rr_handle : ResourceHandle;
  rr_kind : ResourceKind;
  rr_owner_context : ContextId;
  rr_owner_instance : InstanceId;
  rr_owner_logical : string;
  rr_generation : N;
  rr_state : ResourceState;
  rr_seq : N;
}.

Definition rr_release (r : ResourceRecord) : ResourceRecord :=
  mkResourceRecord (rr_handle r) (rr_kind r) (rr_owner_context r) (rr_owner_instance r)
    (rr_owner_logical r) (rr_generation r) Released (rr_seq r).

Inductive AcquireError : Type :=
| InvalidName (s : string)
| FailInjected (s : string).

Definition acquire_error_display (e : AcquireError) : string :=
  match e with
  | InvalidName s => "invalid resource name: " +:+ s
  | FailInjected s => "injected acquire failure: " +:+ s
  end.

Inductive ReleaseError : Type :=
| UnknownHandle (h : N)
| AlreadyReleased (h : N)
| CleanupFailed (handle : N) (reason : string).

Definition release_error_display (e : ReleaseError) : string :=
  match e with
  | UnknownHandle h => "unknown resource handle res-" +:+ display h
  | AlreadyReleased h => "resource res-" +:+ display h +:+ " already released"
  | CleanupFailed h reason => "cleanup failed for res-" +:+ display h +:+ ": " +:+ reason
  end.

(** ** The timer and task threads *)

(** Where a thread stands in its loop: before the first cancel test, between
    the sleep and the second cancel test (timers only), or out of the loop. *)
Inductive ThreadPc : Type := LoopTop | AfterSleep | Exited.

Record Thread : Type := mkThread {
  th_interval : option N;     (* [Some i]: timer with interval [i]; [None]: task *)
  th_cancel : bool;
  th_done : bool;
  th_count : N;               (* fires / beats *)
  th_acc : N;                 (* milliseconds since the last fire *)
  th_pc : ThreadPc;
}.

Definition thread_new (interval : option N) : Thread :=
  mkThread interval false false 0 0 LoopTop.

Definition th_exit (th : Thread) : Thread :=
  mkThread (th_interval th) (th_cancel th) true (th_count th) (th_acc th) Exited.

Definition th_set_cancel (th : Thread) : Thread :=
  mkThread (th_interval th) true (th_done th) (th_count th) (th_acc th) (th_pc th).

(** One step of the timer loop: the cancel test and the 1 ms sleep, or the
    second cancel test and the accounting. *)
Definition timer_step (interval : N) (th : Thread) : Thread :=
  match th_pc th with
  | LoopTop =>
      if th_cancel th then th_exit th
      else mkThread (th_interval th) (th_cancel th) (th_done th) (th_count th) (th_acc th) AfterSleep
  | AfterSleep =>
      if th_cancel th then th_exit th
      else
        let acc := (th_acc th + 1)%N in
        if (interval <=? acc)%N then
          mkThread (th_interval th) (th_cancel th) (th_done th) (th_count th + 1) 0 LoopTop
        else mkThread (th_interval th) (th_cancel th) (th_done th) (th_count th) acc LoopTop
  | Exited => th
  end.

(** One step of the task loop: the cancel test, one heartbeat, the sleep. *)
Definition task_step (th : Thread) : Thread :=
  match th_pc th with
  | Exited => th
  | _ =>
      if th_cancel th then th_exit th
      else mkThread (th_interval th) (th_cancel th) (th_done th) (th_count th + 1)
             (th_acc th) LoopTop
  end.

Definition thread_step (th : Thread) : Thread :=
  match th_interval th with
  | Some i => timer_step i th
  | None => task_step th
  end.

(** [JoinHandle::join]: the thread runs until it left its loop; after the cancel
    flag is set, one step is enough ([join_cancelled]). *)
Fixpoint join_thread (fuel : nat) (th : Thread) : Thread :=
  match fuel with
  | O => th
  | S fuel => if th_done th then th else join_thread fuel (thread_step th)
  end.

(** ** The table *)

Record Live : Type := mkLive { lv_thread : N; lv_join : bool }.

Record ReleaseClaim : Type := mkReleaseClaim {
  rc_handle : ResourceHandle;
  rc_kind : ResourceKind;
  rc_owner_context : ContextId;
  rc_timer : option Live;
  rc_task : option Live;
}.

Record ResourceTable : Type := mkResourceTable {
  next_handle : N;
  next_seq : N;
  records : gmap N ResourceRecord;
  by_owner : gmap N (list N);
  timers : gmap N Live;
  tasks : gmap N Live;
  threads : gmap N Thread;
  total_releases : N;
  double_release_attempts : N;
}.

Definition resource_table_new : ResourceTable := mkResourceTable 1 1 ∅ ∅ ∅ ∅ ∅ 0 0.

Definition with_records (m : gmap N ResourceRecord) (bo : gmap N (list N)) (t : ResourceTable)
    : ResourceTable :=
  mkResourceTable (next_handle t) (next_seq t) m bo (timers t) (tasks t) (threads t)
    (total_releases t) (double_release_attempts t).

Definition with_live (ti ta : gmap N Live) (th : gmap N Thread) (t : ResourceTable)
    : ResourceTable :=
  mkResourceTable (next_handle t) (next_seq t) (records t) (by_owner t) ti ta th
    (total_releases t) (double_release_attempts t).

Definition validate_kind (k : ResourceKind) : result unit AcquireError :=
  match k with
  | Cap name | Sub name =>
      if str_is_empty (trim name) then Err (InvalidName name) else Ok tt
  | Timer label interval_ms =>
      if str_is_empty (trim label) then Err (InvalidName label)
      else if (interval_ms =? 0)%N || (60000 <? interval_ms)%N then
        Err (InvalidName ("interval_ms out of range: " +:+ display interval_ms))
      else Ok tt
  | Task label => if str_is_empty (trim label) then Err (InvalidName label) else Ok tt
  | FailAcquire label => Err (FailInjected label)
  | FailRelease label => if str_is_empty (trim label) then Err (InvalidName label) else Ok tt
  end.

(** The locked block of [register]: allocates the handle and the sequence number
    and records ownership. *)
Definition register_record (ctx : ContextId) (inst : InstanceId) (logical : string)
    (generation : N) (kind : ResourceKind) (t : ResourceTable) : N * ResourceTable :=
  let h := next_handle t in
  let s := next_seq t in
  let rec := mkResourceRecord h kind ctx inst logical generation ResActive s in
  (h,
   mkResourceTable (h + 1) (s + 1) (<[h := rec]> (records t))
     (<[ctx := default [] (by_owner t !! ctx) ++ [h]]> (by_owner t))
     (timers t) (tasks t) (threads t) (total_releases t) (double_release_attempts t)).

(** [i.records.remove(&handle); by_owner.get_mut(&owner).retain(|h| h != handle)]. *)
Definition drop_record (h : ResourceHandle) (ctx : ContextId) (t : ResourceTable)
    : ResourceTable :=
  with_records (delete h (records t)) (alter (filter (λ h', h' ≠ h)) ctx (by_owner t)) t.

(** The rest of [register]: a timer or a task gets its thread, which is entered in
    the live map under a second lock; when the thread cannot start, the record is
    dropped. [spawn] is the outcome of [std::thread::Builder::spawn]: [None] when
    the thread started, [Some e] with the OS error otherwise. *)
Definition register_attach (kind : ResourceKind) (h : ResourceHandle) (ctx : ContextId)
    (spawn : option string) (t : ResourceTable) : result ResourceHandle AcquireError * ResourceTable :=
  match kind with
  | Timer _ interval_ms =>
      match spawn with
      | None =>
          (Ok h, with_live (<[h := mkLive h true]> (timers t)) (tasks t)
                   (<[h := thread_new (Some interval_ms)]> (threads t)) t)
      | Some e => (Err (FailInjected ("timer spawn failed: " +:+ e)), drop_record h ctx t)
      end
  | Task _ =>
      match spawn with
      | None =>
          (Ok h, with_live (timers t) (<[h := mkLive h true]> (tasks t))
                   (<[h := thread_new None]> (threads t)) t)
      | Some e => (Err (FailInjected ("task spawn failed: " +:+ e)), drop_record h ctx t)
      end
  | _ => (Ok h, t)
  end.

Definition register (ctx : ContextId) (inst : InstanceId) (logical : string)
    (generation : N) (kind : ResourceKind) (spawn : option string) (t : ResourceTable)
    : result ResourceHandle AcquireError * ResourceTable :=
  match validate_kind kind with
  | Err e => (Err e, t)
  | Ok _ =>
      let '(h, t) := register_record ctx inst logical generation kind t in
      register_attach kind h ctx spawn t
  end.

Definition count_double_release (t : ResourceTable) : ResourceTable :=
  mkResourceTable (next_handle t) (next_seq t) (records t) (by_owner t) (timers t) (tasks t)
    (threads t) (total_releases t) (double_release_attempts t + 1).

(** First half of [begin_release]: the upfront read and the two early returns. *)
Definition begin_release_check (h : ResourceHandle) (t : ResourceTable)
    : result unit ReleaseError * ResourceTable :=
  match records t !! h with
  | None => (Err (UnknownHandle h), t)
  | Some rec =>
      if bool_decide (rr_state rec = Released) then
        (Err (AlreadyReleased h), count_double_release t)
      else
        match rr_kind rec with
        | FailRelease label =>
            (Err (CleanupFailed h ("resource '" +:+ label +:+ "' refused release")), t)
        | _ => (Ok tt, t)
        end
  end.

(** Second half of [begin_release]: revalidates under the lock, marks
    [Released] and takes the live handles out of the maps. *)
Definition begin_release_claim (h : ResourceHandle) (t : ResourceTable)
    : result ReleaseClaim ReleaseError * ResourceTable :=
  match records t !! h with
  | None => (Err (UnknownHandle h), t)
  | Some rec =>
      if bool_decide (rr_state rec = Released) then
        (Err (AlreadyReleased h), count_double_release t)
      else
        (Ok (mkReleaseClaim h (rr_kind rec) (rr_owner_context rec) (timers t !! h) (tasks t !! h)),
         mkResourceTable (next_handle t) (next_seq t) (<[h := rr_release rec]> (records t))
           (by_owner t) (delete h (timers t)) (delete h (tasks t)) (threads t)
           (total_releases t + 1) (double_release_attempts t))
  end.

Definition begin_release (h : ResourceHandle) (t : ResourceTable)
    : result ReleaseClaim ReleaseError * ResourceTable :=
  match begin_release_check h t with
  | (Err e, t) => (Err e, t)
  | (Ok _, t) => begin_release_claim h t
  end.

(** [cancel.store(true)] and, when the join handle is there, [join]. *)
Definition stop_thread (l : Live) (t : ResourceTable) : ResourceTable :=
  with_live (timers t) (tasks t)
    (alter (λ th, let th := th_set_cancel th in if lv_join l then join_thread 1 th else th)
       (lv_thread l) (threads t)) t.

Definition stop_live (o : option Live) (t : ResourceTable) : ResourceTable :=
  match o with Some l => stop_thread l t | None => t end.

Definition finish_release (c : ReleaseClaim) (t : ResourceTable) : ResourceTable :=
  stop_live (rc_task c) (stop_live (rc_timer c) t).

Definition res_release (h : ResourceHandle) (t : ResourceTable)
    : result unit ReleaseError * ResourceTable :=
  match begin_release h t with
  | (Err e, t) => (Err e, t)
  | (Ok claim, t) => (Ok tt, finish_release claim t)
  end.

Definition rollback_register (h : ResourceHandle) (t : ResourceTable) : ResourceTable :=
  match records t !! h with
  | Some r =>
      if bool_decide (rr_state r = ResActive) then
        let timer := timers t !! h in
        let task := tasks t !! h in
        let t := drop_record h (rr_owner_context r) t in
        let t := with_live (delete h (timers t)) (delete h (tasks t)) (threads t) t in
        stop_live task (stop_live timer t)
      else t
  | None => t
  end.

Definition handles_for (owner : ContextId) (t : ResourceTable) : list ResourceHandle :=
  default [] (by_owner t !! owner).

Definition res_record (h : ResourceHandle) (t : ResourceTable) : option ResourceRecord :=
  records t !! h.

Definition res_validate (h : ResourceHandle) (expect_instance : InstanceId)
    (expect_generation : N) (t : ResourceTable) : result ResourceRecord ReleaseError :=
  match records t !! h with
  | None => Err (UnknownHandle h)
  | Some rec =>
      if negb (bool_decide (rr_state rec = ResActive)) then Err (AlreadyReleased h)
      else if negb (rr_owner_instance rec =? expect_instance)%N
              || negb (rr_generation rec =? expect_generation)%N then
        Err (CleanupFailed h
          ("stale handle: owned by inst-" +:+ display (rr_owner_instance rec) +:+ "#"
           +:+ display (rr_generation rec)))
      else Ok rec
  end.

Definition rr_is_active (r : ResourceRecord) : bool := bool_decide (rr_state r = ResActive).

Definition active_count (t : ResourceTable) : nat :=
  length (values_where rr_is_active (records t)).

Definition active_for (owner : ContextId) (t : ResourceTable) : nat :=
  length (List.filter (λ h, is_some_and rr_is_active (records t !! h)) (handles_for owner t)).

(** Inventory order: by [(owner_context, seq)]. *)
Definition rr_key_le (a b : ResourceRecord) : Prop :=
  (rr_owner_context a < rr_owner_context b)%N
  ∨ (rr_owner_context a = rr_owner_context b ∧ (rr_seq a ≤ rr_seq b)%N).

#[export] Instance rr_key_le_dec : RelDecision rr_key_le.
Proof. intros a b. unfold rr_key_le. apply _. Defined.

Definition res_inventory (t : ResourceTable) : list ResourceRecord :=
  merge_sort rr_key_le (map_to_list (records t)).*2.

Definition timer_fires (h : ResourceHandle) (t : ResourceTable) : option N :=
  l ← timers t !! h; th_count <$> threads t !! lv_thread l.

Definition task_beats (h : ResourceHandle) (t : ResourceTable) : option N :=
  l ← tasks t !! h; th_count <$> threads t !! lv_thread l.

Definition is_live (h : ResourceHandle) (t : ResourceTable) : bool :=
  match timers t !! h with
  | Some l => negb (is_some_and th_done (threads t !! lv_thread l))
  | None =>
      match tasks t !! h with
      | Some l => negb (is_some_and th_done (threads t !! lv_thread l))
      | None => is_some_and rr_is_active (records t !! h)
      end
  end.

(** The operations on the table as data; [OpRunThread] is the scheduler giving
    a spawned thread one step. *)
Inductive ResOp : Type :=
| OpRegister (ctx inst : N) (logical : string) (generation : N) (kind : ResourceKind)
    (spawn : option string)
| OpRelease (h : N)
| OpRollback (h : N)
| OpRunThread (h : N).

Definition run_thread (h : N) (t : ResourceTable) : ResourceTable :=
  with_live (timers t) (tasks t) (alter thread_step h (threads t)) t.

Definition res_apply (o : ResOp) (t : ResourceTable) : ResourceTable :=
  match o with
  | OpRegister c i l g k s => (register c i l g k s t).2
  | OpRelease h => (res_release h t).2
  | OpRollback h => rollback_register h t
  | OpRunThread h => run_thread h t
  end.

Definition res_run (ops : list ResOp) (t : ResourceTable) : ResourceTable :=
  foldl (λ t o, res_apply o t) t ops.

(** ** The table invariant *)

Definition is_released (kv : N * ResourceRecord) : Prop := rr_state kv.2 = Released.

#[export] Instance is_released_dec kv : Decision (is_released kv).
Proof. unfold is_released. apply _. Defined.

Definition is_timer (k : ResourceKind) : Prop :=
  match k with Timer _ _ => True | _ => False end.

Definition is_task (k : ResourceKind) : Prop :=
  match k with Task _ => True | _ => False end.

(** [h] names an active record whose kind satisfies [P]. *)
Definition active_kind (P : ResourceKind → Prop) (h : N) (m : gmap N ResourceRecord) : Prop :=
  ∃ r, m !! h = Some r ∧ rr_state r = ResActive ∧ P (rr_kind r).

Record res_wf (t : ResourceTable) : Prop := mkResWf {
  rw_fresh : ∀ h r, records t !! h = Some r → rr_handle r = h ∧ (h < next_handle t)%N;
  rw_owner : ∀ c h, h ∈ handles_for c t ↔
    ∃ r, records t !! h = Some r ∧ rr_owner_context r = c;
  rw_sorted : ∀ c, StronglySorted N.lt (handles_for c t);
  rw_timers : ∀ h l, timers t !! h = Some l ↔
    l = mkLive h true ∧ active_kind is_timer h (records t);
  rw_tasks : ∀ h l, tasks t !! h = Some l ↔
    l = mkLive h true ∧ active_kind is_task h (records t);
  rw_threads : ∀ h th, threads t !! h = Some th →
    (h < next_handle t)%N ∧ (th_pc th = Exited → th_done th = true) ∧
    (th_done th = false → is_Some (timers t !! h) ∨ is_Some (tasks t !! h));
  rw_releases : total_releases t = N.of_nat (size (filter is_released (records t)));
}.

Lemma rr_state_dec r : rr_state r = ResActive ∨ rr_state r = Released.
Proof. destruct (rr_state r); auto. Qed.

Lemma res_wf_new : res_wf resource_table_new.
Proof.
  split; unfold handles_for; cbn; try done.
  - intros c h. rewrite lookup_empty. cbn. split; [by intros ?%not_elem_of_nil|].
    by intros (r & [=] & _).
  - intros c. rewrite lookup_empty. constructor.
  - intros h l. rewrite lookup_empty. split; [done|]. by intros (_ & r & [=] & _).
  - intros h l. rewrite lookup_empty. split; [done|]. by intros (_ & r & [=] & _).
Qed.

(** ** Threads *)

Lemma thread_step_pc th :
  (th_pc th = Exited → th_done th = true) →
  th_pc (thread_step th) = Exited → th_done (thread_step th) = true.
Proof.
  unfold thread_step, timer_step, task_step. intros H.
  destruct (th_interval th), (th_pc th) eqn:E, (th_cancel th);
    repeat case_match; cbn; rewrite ?E; auto; try done.
Qed.

Lemma thread_step_done th : th_done th = true → th_done (thread_step th) = true.
Proof.
  unfold thread_step, timer_step, task_step. intros H.
  destruct (th_interval th), (th_pc th) eqn:E, (th_cancel th); repeat case_match; done.
Qed.

(** A cancelled thread leaves its loop at its next step: [join] returns. *)
Lemma join_cancelled th :
  (th_pc th = Exited → th_done th = true) →
  th_done (join_thread 1 (th_set_cancel th)) = true ∧
  (th_pc (join_thread 1 (th_set_cancel th)) = Exited →
   th_done (join_thread 1 (th_set_cancel th)) = true).
Proof.
  intros H. assert (th_done (join_thread 1 (th_set_cancel th)) = true) as E; [|auto].
  cbn. destruct (th_done th) eqn:Ed; [done|].
  unfold thread_step, timer_step, task_step. cbn.
  destruct (th_interval th), (th_pc th) eqn:Ep; cbn; try done;
    by specialize (H eq_refl).
Qed.

Lemma join_thread_count th :
  th_cancel th = true → th_count (join_thread 1 th) = th_count th.
Proof.
  intros H. cbn. destruct (th_done th); [done|].
  unfold thread_step, timer_step, task_step.
  destruct (th_interval th), (th_pc th); rewrite ?H; done.
Qed.

(** ** Registration *)

Lemma handles_register_record c i l g k t c' :
  handles_for c' (register_record c i l g k t).2 =
  if decide (c = c') then handles_for c t ++ [next_handle t] else handles_for c' t.
Proof.
  unfold handles_for, register_record. cbn. rewrite lookup_insert.
  by destruct (decide (c = c')).
Qed.

Lemma handles_drop_record h c t c' :
  handles_for c' (drop_record h c t) =
  if decide (c = c') then filter (λ h', h' ≠ h) (handles_for c t) else handles_for c' t.
Proof.
  unfold handles_for, drop_record. cbn. rewrite lookup_alter.
  destruct (decide (c = c')) as [->|]; [|done]. by destruct (by_owner t !! c').
Qed.

Lemma filter_ne_id (h : N) (l : list N) : h ∉ l → filter (λ h', h' ≠ h) l = l.
Proof.
  induction l as [|x l IH]; intros H; [done|].
  rewrite filter_cons_True by set_solver. f_equal. set_solver.
Qed.

Section register.
Context (t : ResourceTable) (W : res_wf t).

Lemma fresh_record h : (next_handle t ≤ h)%N → records t !! h = None.
Proof.
  intros L. destruct (records t !! h) as [r|] eqn:E; [|done].
  destruct (rw_fresh _ W _ _ E). lia.
Qed.

Lemma fresh_timer : timers t !! next_handle t = None.
Proof.
  destruct (timers t !! next_handle t) as [l|] eqn:E; [|done].
  apply (rw_timers _ W) in E as (_ & r & Hr & _). rewrite fresh_record in Hr by lia. done.
Qed.

Lemma fresh_task : tasks t !! next_handle t = None.
Proof.
  destruct (tasks t !! next_handle t) as [l|] eqn:E; [|done].
  apply (rw_tasks _ W) in E as (_ & r & Hr & _). rewrite fresh_record in Hr by lia. done.
Qed.

Lemma fresh_handle c : next_handle t ∉ handles_for c t.
Proof. intros (r & E & _)%(rw_owner _ W). rewrite fresh_record in E by lia. done. Qed.

Lemma handles_below c h : h ∈ handles_for c t → (h < next_handle t)%N.
Proof. intros (r & E & _)%(rw_owner _ W). by destruct (rw_fresh _ W _ _ E). Qed.

(** A record that is registered and dropped again leaves no trace in any
    owner's list. *)
Lemma register_drop_handles c i l g k c' :
  handles_for c' (drop_record (next_handle t) c (register_record c i l g k t).2)
  = handles_for c' t.
Proof.
  rewrite handles_drop_record, !handles_register_record.
  destruct (decide (c = c')) as [->|]; [|done]. destruct (decide _); [|done].
  rewrite filter_app, filter_ne_id by apply fresh_handle.
  rewrite filter_cons_False by (intros H; by apply H). cbn. by rewrite app_nil_r.
Qed.
End register.

(** The thread attached to a fresh record, by kind. *)
Definition attach (k : ResourceKind) (h : N) (t : ResourceTable) : ResourceTable :=
  match k with
  | Timer _ i => with_live (<[h := mkLive h true]> (timers t)) (tasks t)
                   (<[h := thread_new (Some i)]> (threads t)) t
  | Task _ => with_live (timers t) (<[h := mkLive h true]> (tasks t))
                (<[h := thread_new None]> (threads t)) t
  | _ => t
  end.

Lemma register_cases c i l g k s t :
  (∃ e, register c i l g k s t = (Err e, t)) ∨
  (register c i l g k s t = (Ok (next_handle t), attach k (next_handle t) (register_record c i l g k t).2)) ∨
  (∃ e, register c i l g k s t
        = (Err e, drop_record (next_handle t) c (register_record c i l g k t).2)).
Proof.
  unfold register, attach. destruct (validate_kind k); [|eauto].
  destruct k, s; cbn; eauto.
Qed.

Lemma active_kind_insert_ne P h h' r m :
  h ≠ h' → active_kind P h (<[h' := r]> m) ↔ active_kind P h m.
Proof. intros N. unfold active_kind. by setoid_rewrite lookup_insert_ne. Qed.

Lemma active_kind_insert_eq P h r m :
  active_kind P h (<[h := r]> m) ↔ rr_state r = ResActive ∧ P (rr_kind r).
Proof.
  unfold active_kind. setoid_rewrite lookup_insert_eq. split.
  - intros (? & [= <-] & ?). done.
  - intros ?. eauto.
Qed.

Lemma active_kind_delete P h h' m :
  active_kind P h (delete h' m) ↔ h ≠ h' ∧ active_kind P h m.
Proof.
  unfold active_kind. setoid_rewrite lookup_delete_Some. split.
  - intros (r & [? ?] & ? & ?). split; [done|]. eauto.
  - intros (? & r & ? & ? & ?). eauto 10.
Qed.

Lemma StronglySorted_snoc (l : list N) x :
  StronglySorted N.lt l → (∀ y, y ∈ l → (y < x)%N) → StronglySorted N.lt (l ++ [x]).
Proof.
  intros S H. induction S as [|y l S IH F]; cbn; [repeat constructor|].
  constructor; [apply IH; set_solver|]. rewrite Forall_app. split; [done|].
  constructor; [apply H; set_solver|constructor].
Qed.

Lemma StronglySorted_filter (P : N → Prop) `{∀ x, Decision (P x)} (l : list N) :
  StronglySorted N.lt l → StronglySorted N.lt (filter P l).
Proof.
  induction 1 as [|y l S IH F]; [constructor|].
  rewrite filter_cons. destruct (decide (P y)); [|done]. constructor; [done|].
  rewrite Forall_forall in *. intros x [_ Hx]%list_elem_of_filter. auto.
Qed.

Lemma live_insert_iff (m : gmap N Live) (h : N) (r : ResourceRecord) (rs : gmap N ResourceRecord)
    (P : ResourceKind → Prop) :
  m !! h = None → rs !! h = None →
  (∀ h' l, m !! h' = Some l ↔ l = mkLive h' true ∧ active_kind P h' rs) →
  ((P (rr_kind r) ∧ rr_state r = ResActive) →
   ∀ h' l, <[h := mkLive h true]> m !! h' = Some l ↔
     l = mkLive h' true ∧ active_kind P h' (<[h := r]> rs)) ∧
  ((¬ P (rr_kind r)) →
   ∀ h' l, m !! h' = Some l ↔ l = mkLive h' true ∧ active_kind P h' (<[h := r]> rs)).
Proof.
  intros Hm Hr I. split; intros HP h' l; destruct (decide (h' = h)) as [->|N].
  - rewrite lookup_insert_eq, active_kind_insert_eq. naive_solver.
  - rewrite lookup_insert_ne, active_kind_insert_ne by done. apply I.
  - rewrite Hm, active_kind_insert_eq. naive_solver.
  - rewrite active_kind_insert_ne by done. apply I.
Qed.

Lemma attach_fields k h t :
  records (attach k h t) = records t ∧ by_owner (attach k h t) = by_owner t ∧
  next_handle (attach k h t) = next_handle t ∧ total_releases (attach k h t) = total_releases t.
Proof. by destruct k. Qed.

Lemma attach_threads k h t h' th :
  threads (attach k h t) !! h' = Some th →
  threads t !! h' = Some th ∨
  (h' = h ∧ th_done th = false ∧ th_pc th = LoopTop ∧
   (is_Some (timers (attach k h t) !! h) ∨ is_Some (tasks (attach k h t) !! h))).
Proof.
  destruct k; cbn; auto; intros [[<- <-]|[? ?]]%lookup_insert_Some; auto;
    right; rewrite lookup_insert_eq; eauto 10.
Qed.

Lemma attach_mono k h t h' :
  timers t !! h = None → tasks t !! h = None →
  is_Some (timers t !! h') ∨ is_Some (tasks t !! h') →
  is_Some (timers (attach k h t) !! h') ∨ is_Some (tasks (attach k h t) !! h').
Proof.
  intros H1 H2. destruct k; cbn; auto;
  destruct (decide (h = h')) as [<-|]; rewrite ?lookup_insert_eq, ?lookup_insert_ne by done; eauto.
Qed.

(** A successful registration. *)
Lemma register_ok_wf c i l g k t :
  res_wf t → res_wf (attach k (next_handle t) (register_record c i l g k t).2).
Proof.
  intros W. set (t1 := (register_record c i l g k t).2).
  destruct (attach_fields k (next_handle t) t1) as (Er & Eo & En & Et).
  pose proof (fresh_record t W (next_handle t) ltac:(lia)) as Hf.
  assert (Hh : ∀ c', handles_for c' (attach k (next_handle t) t1) = handles_for c' t1).
  { intros c'. unfold handles_for. by rewrite Eo. }
  split; rewrite ?Er, ?En, ?Et.
  - intros h r Hr0. cbn in Hr0. apply lookup_insert_Some in Hr0 as [[<- <-]|[? Hr]]; cbn;
      [split; [done|lia]|].
    destruct (rw_fresh _ W _ _ Hr). split; [done|lia].
  - intros c' h. rewrite Hh. unfold t1. rewrite handles_register_record. cbn.
    setoid_rewrite lookup_insert_Some. pose proof (rw_owner _ W c' h) as O.
    destruct (decide (c = c')) as [->|N].
    + rewrite elem_of_app, list_elem_of_singleton, O. split.
      * intros [(r & Hr & Ho)| ->]; [|eauto].
        exists r. split; [|done]. right. split; [|done]. intros <-. congruence.
      * intros (r & [[<- <-]|[? ?]] & Ho); eauto.
    + rewrite O. split.
      * intros (r & Hr & Ho). exists r. split; [|done]. right. split; [|done]. intros <-. congruence.
      * intros (r & [[<- <-]|[? ?]] & Ho); eauto. done.
  - intros c'. rewrite Hh. unfold t1. rewrite handles_register_record.
    destruct (decide _); [|apply (rw_sorted _ W)].
    apply StronglySorted_snoc; [apply (rw_sorted _ W)|]. intros y. apply handles_below, W.
  - destruct (live_insert_iff (timers t) (next_handle t)
      (mkResourceRecord (next_handle t) k c i l g ResActive (next_seq t)) (records t) is_timer
      (fresh_timer t W) Hf (rw_timers _ W)) as [Y N]. cbn in *.
    destruct k; cbn in *; auto.
  - destruct (live_insert_iff (tasks t) (next_handle t)
      (mkResourceRecord (next_handle t) k c i l g ResActive (next_seq t)) (records t) is_task
      (fresh_task t W) Hf (rw_tasks _ W)) as [Y N]. cbn in *.
    destruct k; cbn in *; auto.
  - intros h th [Hth|(-> & Hd & Hp & Hl)]%attach_threads; cbn in *.
    + destruct (rw_threads _ W _ _ Hth) as (? & ? & Hlv). split; [lia|]. split; [done|].
      intros Hd. apply attach_mono; [exact (fresh_timer t W)|exact (fresh_task t W)|]. by apply Hlv.
    + split; [lia|]. split; [by rewrite Hp|done].
  - cbn. rewrite map_filter_insert_False by done.
    rewrite delete_id by done. apply (rw_releases _ W).
Qed.

(** A registration that fails after the record was made restores the table. *)
Lemma register_err_fields c i l g k t :
  res_wf t →
  let t' := drop_record (next_handle t) c (register_record c i l g k t).2 in
  records t' = records t ∧ (∀ c', handles_for c' t' = handles_for c' t) ∧
  timers t' = timers t ∧ tasks t' = tasks t ∧ threads t' = threads t ∧
  total_releases t' = total_releases t ∧ (next_handle t ≤ next_handle t')%N.
Proof.
  intros W t'. split_and!; try done.
  - cbn. rewrite delete_insert_id; [done|]. apply fresh_record; [done|lia].
  - intros c'. by apply register_drop_handles.
  - cbn. lia.
Qed.

Lemma register_wf c i l g k s t : res_wf t → res_wf (register c i l g k s t).2.
Proof.
  intros W. destruct (register_cases c i l g k s t) as [[e ->]|[->|[e ->]]]; cbn [snd]; [done| |].
  - by apply register_ok_wf.
  - destruct (register_err_fields c i l g k t W) as (Er & Eh & Et & Ek & Eth & Erl & Hn).
    split; rewrite ?Er, ?Et, ?Ek, ?Eth, ?Erl; try setoid_rewrite Eh; try apply W.
    + intros h r Hr. destruct (rw_fresh _ W _ _ Hr). split; [done|lia].
    + intros h th Hth. destruct (rw_threads _ W _ _ Hth) as (? & ? & ?). split; [lia|done].
Qed.

(** ** Release and rollback *)

(** The thread store after [finish_release] (or the tail of
    [rollback_register]) stopped the threads of [h]. *)
Definition stop_handle (h : N) (t : ResourceTable) (ths : gmap N Thread) : gmap N Thread :=
  let stop o ths :=
    match o with
    | Some l => alter (λ th, let th := th_set_cancel th in
                             if lv_join l then join_thread 1 th else th) (lv_thread l) ths
    | None => ths
    end in
  stop (tasks t !! h) (stop (timers t !! h) ths).

Lemma stop_live_eq o t :
  stop_live o t =
  with_live (timers t) (tasks t)
    (match o with
     | Some l => alter (λ th, let th := th_set_cancel th in
                              if lv_join l then join_thread 1 th else th) (lv_thread l) (threads t)
     | None => threads t
     end) t.
Proof. by destruct o, t. Qed.

Lemma stop_handle_other h t :
  res_wf t → ∀ h', h' ≠ h → stop_handle h t (threads t) !! h' = threads t !! h'.
Proof.
  intros W h' N. unfold stop_handle.
  destruct (timers t !! h) as [l|] eqn:E1;
    [apply (rw_timers _ W) in E1 as [-> _]|];
    (destruct (tasks t !! h) as [l'|] eqn:E2;
      [apply (rw_tasks _ W) in E2 as [-> _]|]); cbn; by rewrite ?lookup_alter_ne.
Qed.

Lemma active_kind_disjoint h m : active_kind is_timer h m → active_kind is_task h m → False.
Proof.
  intros (r & Hr & _ & K) (r' & Hr' & _ & K'). simplify_eq. by destruct (rr_kind r).
Qed.

Lemma stop_handle_self h t th :
  res_wf t → stop_handle h t (threads t) !! h = Some th →
  (h < next_handle t)%N ∧ th_done th = true.
Proof.
  intros W. unfold stop_handle.
  assert (J : ∀ th', threads t !! h = Some th' →
    th_done (join_thread 1 (th_set_cancel th')) = true).
  { intros th' H. refine (proj1 (join_cancelled _ _)). by apply (rw_threads _ W _ _ H). }
  destruct (timers t !! h) as [l|] eqn:E1, (tasks t !! h) as [l'|] eqn:E2.
  - apply (rw_timers _ W) in E1 as [_ E1]. apply (rw_tasks _ W) in E2 as [_ E2].
    destruct (active_kind_disjoint _ _ E1 E2).
  - apply (rw_timers _ W) in E1 as [-> _]. cbn [lv_thread lv_join].
    rewrite lookup_alter_eq. intros (th0 & Hth & ->)%fmap_Some_1.
    split; [by apply (rw_threads _ W _ _ Hth)|by apply J].
  - apply (rw_tasks _ W) in E2 as [-> _]. cbn [lv_thread lv_join].
    rewrite lookup_alter_eq. intros (th0 & Hth & ->)%fmap_Some_1.
    split; [by apply (rw_threads _ W _ _ Hth)|by apply J].
  - intros Hth. destruct (rw_threads _ W _ _ Hth) as (? & ? & Hd). split; [done|].
    destruct (th_done th); [done|].
    destruct (Hd eq_refl) as [[? H']|[? H']]; congruence.
Qed.

Lemma live_delete_iff (m : gmap N Live) h rs rs' (P : ResourceKind → Prop) :
  (∀ h' l, m !! h' = Some l ↔ l = mkLive h' true ∧ active_kind P h' rs) →
  (¬ active_kind P h rs') → (∀ h', h' ≠ h → rs' !! h' = rs !! h') →
  ∀ h' l, delete h m !! h' = Some l ↔ l = mkLive h' true ∧ active_kind P h' rs'.
Proof.
  intros I N E h' l. rewrite lookup_delete_Some.
  destruct (decide (h' = h)) as [->|Ne]; [naive_solver|].
  rewrite I. unfold active_kind. rewrite (E h') by done. naive_solver.
Qed.

(** Retiring handle [h]: its live entries are removed and its threads stopped;
    the record is either marked [Released] or forgotten. *)
Lemma retire_wf h t t' :
  res_wf t →
  timers t' = delete h (timers t) → tasks t' = delete h (tasks t) →
  threads t' = stop_handle h t (threads t) → next_handle t' = next_handle t →
  (∀ h', h' ≠ h → records t' !! h' = records t !! h') →
  (∀ r', records t' !! h = Some r' → rr_state r' = Released ∧
     ∃ r, records t !! h = Some r ∧ rr_handle r' = rr_handle r
          ∧ rr_owner_context r' = rr_owner_context r) →
  (∀ c, StronglySorted N.lt (handles_for c t')) →
  (∀ c h', h' ∈ handles_for c t' ↔ ∃ r, records t' !! h' = Some r ∧ rr_owner_context r = c) →
  total_releases t' = N.of_nat (size (filter is_released (records t'))) →
  res_wf t'.
Proof.
  intros W Eti Eta Eth En Ene Eh Hs Ho Hr.
  assert (NA : ∀ P, ¬ active_kind P h (records t')).
  { intros P (r & H1 & H2 & _). destruct (Eh _ H1) as [? _]. congruence. }
  split; try done.
  - intros h' r Hr'. rewrite En. destruct (decide (h' = h)) as [->|N].
    + destruct (Eh _ Hr') as (_ & r0 & H0 & -> & _). exact (rw_fresh _ W _ _ H0).
    + rewrite Ene in Hr' by done. exact (rw_fresh _ W _ _ Hr').
  - rewrite Eti. by apply (live_delete_iff _ _ (records t)); [apply (rw_timers _ W)| |].
  - rewrite Eta. by apply (live_delete_iff _ _ (records t)); [apply (rw_tasks _ W)| |].
  - intros h' th. rewrite Eth, En, Eti, Eta. destruct (decide (h' = h)) as [->|N].
    + intros [? Hd]%(stop_handle_self _ _ _ W). rewrite Hd. naive_solver.
    + rewrite stop_handle_other, !lookup_delete_ne by done. exact (rw_threads _ W h' th).
Qed.

Lemma begin_release_cases h t :
  (∃ e t', begin_release h t = (Err e, t') ∧ (t' = t ∨ t' = count_double_release t)) ∨
  (∃ r, records t !! h = Some r ∧ rr_state r = ResActive ∧ begin_release h t = begin_release_claim h t).
Proof.
  unfold begin_release, begin_release_check.
  destruct (records t !! h) as [r|] eqn:E; [|left; eauto 10].
  destruct (rr_state_dec r) as [S|S]; rewrite S.
  - rewrite bool_decide_eq_false_2 by done. destruct (rr_kind r); eauto 10.
  - rewrite bool_decide_eq_true_2 by done. eauto 10.
Qed.

Lemma count_double_release_wf t : res_wf t → res_wf (count_double_release t).
Proof. by intros [? ? ? ? ? ? ?]; split. Qed.

Lemma claim_eq h t r :
  records t !! h = Some r → rr_state r = ResActive →
  begin_release_claim h t =
    (Ok (mkReleaseClaim h (rr_kind r) (rr_owner_context r) (timers t !! h) (tasks t !! h)),
     mkResourceTable (next_handle t) (next_seq t) (<[h := rr_release r]> (records t))
       (by_owner t) (delete h (timers t)) (delete h (tasks t)) (threads t)
       (total_releases t + 1) (double_release_attempts t)).
Proof.
  intros E S. unfold begin_release_claim. by rewrite E, S, bool_decide_eq_false_2.
Qed.

Lemma finish_release_claim h t r :
  records t !! h = Some r → rr_state r = ResActive →
  (res_release h t = (Err (CleanupFailed h ("resource '" +:+ kind_label (rr_kind r) +:+ "' refused release")), t)
   ∧ ∃ l, rr_kind r = FailRelease l) ∨
  res_release h t = (Ok tt,
     mkResourceTable (next_handle t) (next_seq t) (<[h := rr_release r]> (records t))
       (by_owner t) (delete h (timers t)) (delete h (tasks t)) (stop_handle h t (threads t))
       (total_releases t + 1) (double_release_attempts t)).
Proof.
  intros E S. unfold res_release, begin_release, begin_release_check.
  rewrite E, S, bool_decide_eq_false_2 by done.
  destruct (rr_kind r) eqn:K;
    [right|right|right|right|right|left; split; [done|eauto]];
    rewrite (claim_eq _ _ _ E S); unfold finish_release; cbn [rc_task rc_timer];
    rewrite !stop_live_eq; done.
Qed.

Lemma release_wf_active h t r :
  res_wf t → records t !! h = Some r → rr_state r = ResActive →
  res_wf (mkResourceTable (next_handle t) (next_seq t) (<[h := rr_release r]> (records t))
            (by_owner t) (delete h (timers t)) (delete h (tasks t)) (stop_handle h t (threads t))
            (total_releases t + 1) (double_release_attempts t)).
Proof.
  intros W Hr S. apply (retire_wf h t); cbn; try done.
  - intros h' N. by rewrite lookup_insert_ne.
  - intros r'. rewrite lookup_insert_eq. intros [= <-]. eauto.
  - exact (rw_sorted _ W).
  - intros c h'. rewrite (rw_owner _ W c h' : h' ∈ handles_for c _ ↔ _).
    destruct (decide (h' = h)) as [->|N].
    + rewrite Hr, lookup_insert_eq. naive_solver.
    + by rewrite lookup_insert_ne.
  - rewrite (rw_releases _ W), map_filter_insert_True by done.
    rewrite map_size_insert_None; [lia|].
    rewrite map_lookup_filter_None. right. intros ? ?. simplify_eq.
    unfold is_released. cbn. congruence.
Qed.

Lemma release_wf h t : res_wf t → res_wf (res_release h t).2.
Proof.
  intros W. destruct (begin_release_cases h t) as [(e & t' & E & Ht)|(r & Hr & S & _)].
  { unfold res_release. rewrite E. cbn.
    destruct Ht as [->| ->]; [done|by apply count_double_release_wf]. }
  destruct (finish_release_claim _ _ _ Hr S) as [[-> _]| ->]; [done|].
  by apply release_wf_active.
Qed.

Lemma rollback_eq h t r :
  records t !! h = Some r → rr_state r = ResActive →
  rollback_register h t =
    mkResourceTable (next_handle t) (next_seq t) (delete h (records t))
      (alter (filter (λ h', h' ≠ h)) (rr_owner_context r) (by_owner t))
      (delete h (timers t)) (delete h (tasks t)) (stop_handle h t (threads t))
      (total_releases t) (double_release_attempts t).
Proof.
  intros E S. unfold rollback_register. rewrite E, S, bool_decide_eq_true_2 by done.
  by rewrite !stop_live_eq.
Qed.

Lemma rollback_wf h t : res_wf t → res_wf (rollback_register h t).
Proof.
  intros W. destruct (records t !! h) as [r|] eqn:Hr;
    [|by unfold rollback_register; rewrite Hr].
  destruct (rr_state_dec r) as [S|S];
    [|by unfold rollback_register; rewrite Hr, S, bool_decide_eq_false_2].
  assert (Hh : ∀ c, handles_for c (rollback_register h t)
    = handles_for c (drop_record h (rr_owner_context r) t)).
  { intros c. by rewrite (rollback_eq _ _ _ Hr S). }
  apply (retire_wf h t); try setoid_rewrite Hh; try setoid_rewrite handles_drop_record;
    rewrite ?(rollback_eq _ _ _ Hr S); cbn; try done.
  - intros h' N. by rewrite lookup_delete_ne.
  - intros r'. by rewrite lookup_delete_eq.
  - intros c. destruct (decide _); [apply StronglySorted_filter|]; apply (rw_sorted _ W).
  - intros c h'. setoid_rewrite lookup_delete_Some. destruct (decide _) as [<-|N].
    + rewrite list_elem_of_filter, (rw_owner _ W). naive_solver.
    + rewrite (rw_owner _ W). split; [|naive_solver].
      intros (r' & H1 & H2). exists r'. split; [|done]. split; [|done]. intros <-. congruence.
  - rewrite (rw_releases _ W), map_filter_delete, delete_id; [done|].
    rewrite map_lookup_filter_None. right. intros ? ?. simplify_eq.
    unfold is_released. cbn. congruence.
Qed.

Lemma run_thread_wf h t : res_wf t → res_wf (run_thread h t).
Proof.
  intros W. split; try apply W. intros h' th. cbn. rewrite lookup_alter.
  destruct (decide (h = h')) as [->|N]; [|exact (rw_threads _ W h' th)].
  intros (th0 & Hth & ->)%fmap_Some_1. destruct (rw_threads _ W _ _ Hth) as (? & ? & Hl).
  split; [done|]. split; [by apply thread_step_pc|]. intros Hd. apply Hl.
  destruct (th_done th0) eqn:E; [|done]. by rewrite (thread_step_done _ E) in Hd.
Qed.

Lemma res_apply_wf o t : res_wf t → res_wf (res_apply o t).
Proof.
  destruct o; cbn; auto using register_wf, release_wf, rollback_wf, run_thread_wf.
Qed.

Lemma res_run_wf ops t : res_wf t → res_wf (res_run ops t).
Proof. revert t; induction ops as [|o ops IH]; intros t W; [done|]. apply IH, res_apply_wf, W. Qed.

#[export] Hint Resolve res_wf_new register_wf release_wf rollback_wf run_thread_wf : matrix.

(** ** Released records stay *)

Definition released_in (h : N) (t : ResourceTable) : Prop :=
  ∃ r, records t !! h = Some r ∧ rr_state r = Released.

Lemma released_apply o h t : res_wf t → released_in h t → released_in h (res_apply o t).
Proof.
  intros W (r & Hr & S). destruct o as [c i l g k s|h'|h'|h']; cbn [res_apply].
  - destruct (register_cases c i l g k s t) as [[e ->]|[->|[e ->]]]; cbn [snd]; [by exists r| |].
    + exists r. split; [|done]. destruct (attach_fields k (next_handle t)
        (register_record c i l g k t).2) as (-> & _). cbn [snd records register_record].
      destruct (rw_fresh _ W _ _ Hr). rewrite lookup_insert_ne; [done|lia].
    + exists r. split; [|done].
      by destruct (register_err_fields c i l g k t W) as (-> & _).
  - destruct (begin_release_cases h' t) as [(e & t' & E & Ht)|(r' & Hr' & S' & _)].
    + unfold res_release. rewrite E. cbn. exists r. by destruct Ht as [->| ->].
    + assert (h ≠ h') by congruence.
      destruct (finish_release_claim _ _ _ Hr' S') as [[-> _]| ->]; exists r; [done|].
      cbn. by rewrite lookup_insert_ne.
  - destruct (records t !! h') as [r'|] eqn:E;
      [|unfold rollback_register; rewrite E; by exists r].
    destruct (rr_state_dec r') as [S'|S'].
    + rewrite (rollback_eq _ _ _ E S'). exists r. split; [|done]. cbn.
      rewrite lookup_delete_ne; congruence.
    + unfold rollback_register. rewrite E, S', bool_decide_eq_false_2 by done. by exists r.
  - by exists r.
Qed.

Lemma released_run ops h t : res_wf t → released_in h t → released_in h (res_run ops t).
Proof.
  revert t; induction ops as [|o ops IH]; intros t W R; [done|].
  apply IH; [by apply res_apply_wf|by apply released_apply].
Qed.

Lemma release_released h t :
  released_in h t → res_release h t = (Err (AlreadyReleased h), count_double_release t).
Proof.
  intros (r & Hr & S). unfold res_release, begin_release, begin_release_check.
  by rewrite Hr, S, bool_decide_eq_true_2.
Qed.

Lemma release_ok_released h t t' : res_release h t = (Ok tt, t') → released_in h t'.
Proof.
  destruct (begin_release_cases h t) as [(e & t1 & E & _)|(r & Hr & S & _)].
  { unfold res_release. by rewrite E. }
  destruct (finish_release_claim _ _ _ Hr S) as [[-> _]| ->]; [done|].
  intros [= <-]. exists (rr_release r). cbn. by rewrite lookup_insert_eq.
Qed.

(** ** Properties of the resource table *)

(** ownership is single and ordered. In every reachable table, a context's
    acquisition list is in the order the handles were issued (so a disposal that
    walks it backwards releases in reverse acquisition order), it holds exactly
    the records the context owns, and no handle is listed for two contexts. *)
Theorem single_owner_acquisition_order (ops : list ResOp) :
  let t := res_run ops resource_table_new in
  (∀ c, StronglySorted N.lt (handles_for c t)) ∧
  (∀ c h, h ∈ handles_for c t ↔ ∃ r, res_record h t = Some r ∧ rr_owner_context r = c) ∧
  (∀ c c' h, h ∈ handles_for c t → h ∈ handles_for c' t → c = c').
Proof.
  pose proof (res_run_wf ops _ res_wf_new) as W. split_and!; try apply W.
  intros c c' h (r & Hr & <-)%(rw_owner _ W) (r' & Hr' & <-)%(rw_owner _ W). by simplify_eq.
Qed.

(** release happens at most once. After a successful release, whatever is
    done to the table, a second release of the handle is refused with
    [AlreadyReleased] and counted, and [total_releases] is exactly the number of
    records in state [Released]. *)
Theorem release_at_most_once (ops ops' : list ResOp) (h : N) (t1 : ResourceTable) :
  res_release h (res_run ops resource_table_new) = (Ok tt, t1) →
  let t2 := res_run ops' t1 in
  res_release h t2 = (Err (AlreadyReleased h), count_double_release t2) ∧
  total_releases t2 = N.of_nat (size (filter is_released (records t2))).
Proof.
  intros H t2. pose proof (res_run_wf ops _ res_wf_new) as W.
  assert (W1 : res_wf t1) by (apply (f_equal snd) in H; cbn in H; subst t1; by apply release_wf).
  split; [|by apply rw_releases, res_run_wf].
  by apply release_released, released_run, release_ok_released with (1 := H).
Qed.

Lemma release_at_most_once_witness :
  let t1 := (res_release 1 (res_run [OpRegister 7 3 "p" 1 (Timer "tick" 5) None]
                              resource_table_new)).2 in
  res_release 1 (res_run [OpRollback 1] t1)
  = (Err (AlreadyReleased 1), count_double_release (res_run [OpRollback 1] t1)).
Proof.
  intros t1.
  apply (release_at_most_once [OpRegister 7 3 "p" 1 (Timer "tick" 5) None] [OpRollback 1] 1 t1).
  reflexivity.
Defined.

(** no thread outlives its record. In every table reached by the methods one
    after the other (no other method between the two critical sections of
    [register]), a timer or task thread that has not left its loop belongs to a
    record that is still active, of kind timer or task, and listed for its owner. *)
Theorem no_orphan_threads (ops : list ResOp) (h : N) (th : Thread) :
  let t := res_run ops resource_table_new in
  threads t !! h = Some th → th_done th = false →
  ∃ r, res_record h t = Some r ∧ rr_state r = ResActive ∧
       (is_timer (rr_kind r) ∨ is_task (rr_kind r)) ∧ h ∈ handles_for (rr_owner_context r) t.
Proof.
  intros t Hth Hd. pose proof (res_run_wf ops _ res_wf_new : res_wf t) as W.
  destruct (rw_threads _ W _ _ Hth) as (_ & _ & Hl).
  destruct (Hl Hd) as [[l E]|[l E]];
    [apply (rw_timers _ W) in E|apply (rw_tasks _ W) in E];
    destruct E as (_ & r & Hr & S & K); exists r; split_and!; auto;
    apply (rw_owner _ W); eauto.
Qed.

Lemma no_orphan_threads_witness :
  let t := res_run [OpRegister 7 3 "p" 1 (Task "work") None] resource_table_new in
  ∃ r, res_record 1 t = Some r ∧ rr_state r = ResActive ∧
       (is_timer (rr_kind r) ∨ is_task (rr_kind r)) ∧ (1%N) ∈ handles_for (rr_owner_context r) t.
Proof.
  apply (no_orphan_threads [OpRegister 7 3 "p" 1 (Task "work") None] 1 (thread_new None));
    reflexivity.
Defined.

(** the compensation of a failed cap acquisition is exact. Rolling back the
    handle a successful [register] returned restores the records, the live
    timers and tasks, the release counters and every owner's acquisition list,
    and the spawned thread has exited. *)
Theorem register_rollback_roundtrip (ops : list ResOp) (c i : N) (l : string) (g : N)
    (k : ResourceKind) (s : option string) (h : N) (t1 : ResourceTable) :
  let t := res_run ops resource_table_new in
  register c i l g k s t = (Ok h, t1) →
  let t2 := rollback_register h t1 in
  records t2 = records t ∧ timers t2 = timers t ∧ tasks t2 = tasks t ∧
  (∀ c', handles_for c' t2 = handles_for c' t) ∧
  total_releases t2 = total_releases t ∧
  (∀ th, threads t2 !! h = Some th → th_done th = true).
Proof.
  intros t H t2. pose proof (res_run_wf ops _ res_wf_new : res_wf t) as W.
  pose proof (register_wf c i l g k s t W) as W1. rewrite H in W1. cbn in W1.
  destruct (register_cases c i l g k s t) as [[e E]|[E|[e E]]]; rewrite H in E; [done| |done].
  assert (h = next_handle t ∧ t1 = attach k (next_handle t) (register_record c i l g k t).2)
    as [-> E1] by (by split; congruence). clear E.
  destruct (attach_fields k (next_handle t) (register_record c i l g k t).2) as (F1 & F2 & _ & F4).
  rewrite <- E1 in F1, F2, F4.
  pose proof (fresh_record t W (next_handle t) ltac:(lia)) as Hf.
  set (r := mkResourceRecord (next_handle t) k c i l g ResActive (next_seq t)).
  assert (Hr : records t1 !! next_handle t = Some r) by (rewrite F1; apply lookup_insert_eq).
  assert (E2 := rollback_eq _ _ _ Hr eq_refl). fold t2 in E2.
  split_and!.
  - rewrite E2. cbn. rewrite F1. cbn. by apply delete_insert_id.
  - rewrite E2. cbn. rewrite E1. destruct k; cbn; rewrite ?delete_insert_id, ?delete_id;
      auto using fresh_timer.
  - rewrite E2. cbn. rewrite E1. destruct k; cbn; rewrite ?delete_insert_id, ?delete_id;
      auto using fresh_task.
  - intros c'. rewrite <- (register_drop_handles t W c i l g k c').
    unfold handles_for. rewrite E2. cbn. by rewrite F2.
  - rewrite E2. cbn. by rewrite F4.
  - intros th. rewrite E2. cbn. by intros [_ ?]%(stop_handle_self _ _ _ W1).
Qed.

Lemma register_rollback_roundtrip_witness :
  let t := res_run [OpRegister 7 3 "p" 1 (Cap "a@1") None] resource_table_new in
  let t1 := (register 7 3 "p" 1 (Timer "tick" 9) None t).2 in
  records (rollback_register 2 t1) = records t.
Proof.
  intros t t1.
  apply (register_rollback_roundtrip [OpRegister 7 3 "p" 1 (Cap "a@1") None]
           7 3 "p" 1 (Timer "tick" 9) None 2 t1).
  reflexivity.
Defined.

Lemma timer_run (i : N) (n : nat) :
  (0 < i)%N →
  Nat.iter (2 * n) thread_step (thread_new (Some i)) =
  mkThread (Some i) false false (N.of_nat n / i) (N.of_nat n mod i) LoopTop.
Proof.
  intros Hi. induction n as [|n IH].
  { cbn. by rewrite N.Div0.div_0_l, N.Div0.mod_0_l. }
  replace (2 * S n) with (S (S (2 * n))) by lia. rewrite !Nat.iter_succ, IH. cbn.
  unfold timer_step. cbn.
  pose proof (N.div_mod (N.of_nat n) i ltac:(lia)) as D.
  pose proof (N.mod_lt (N.of_nat n) i ltac:(lia)) as L.
  set (q := (N.of_nat n / i)%N) in *. set (m := (N.of_nat n mod i)%N) in *.
  destruct (N.leb_spec i (m + 1)); f_equal.
  - apply (N.div_unique _ i (q + 1) 0); lia.
  - apply (N.mod_unique _ i (q + 1) 0); lia.
  - apply (N.div_unique _ i q (m + 1)); lia.
  - apply (N.mod_unique _ i q (m + 1)); lia.
Qed.

Lemma cancelled_run (m : nat) (th : Thread) :
  th_cancel th = true →
  th_count (Nat.iter m thread_step th) = th_count th ∧
  th_cancel (Nat.iter m thread_step th) = true.
Proof.
  intros C. induction m as [|m [IH1 IH2]]; [done|]. rewrite Nat.iter_succ.
  set (th' := Nat.iter m thread_step th) in *. rewrite <- IH1. revert IH2.
  unfold thread_step, timer_step, task_step.
  destruct (th_interval th'), (th_pc th'); intros C'; rewrite ?C'; done.
Qed.

(** timer accounting. An uncancelled timer of interval [i] that slept [n]
    times has fired [n / i] times; once its cancel flag is set it never fires
    again, wherever it stood in its loop, and its next step leaves the loop. *)
Theorem timer_fires_exactly (i : N) (n m k : nat) :
  (0 < i)%N →
  th_count (Nat.iter (2 * n) thread_step (thread_new (Some i))) = (N.of_nat n / i)%N ∧
  (let th := Nat.iter k thread_step (thread_new (Some i)) in
   th_count (Nat.iter m thread_step (th_set_cancel th)) = th_count th ∧
   th_done (Nat.iter (S m) thread_step (th_set_cancel th)) = true).
Proof.
  intros Hi. split; [by rewrite timer_run|]. intros th.
  assert (P : th_pc th = Exited → th_done th = true).
  { unfold th. clear. induction k as [|k IH]; [done|]. rewrite Nat.iter_succ.
    by apply thread_step_pc. }
  split; [by apply (cancelled_run m (th_set_cancel th))|].
  rewrite Nat.iter_succ_r.
  assert (D : th_done (thread_step (th_set_cancel th)) = true).
  { destruct (join_cancelled th P) as [J _]. cbn in J.
    destruct (th_done th) eqn:E; [|done]. by apply thread_step_done. }
  revert D. generalize (thread_step (th_set_cancel th)). clear. intros th D.
  induction m as [|m IH]; [done|]. rewrite Nat.iter_succ. by apply thread_step_done.
Qed.

Lemma timer_fires_exactly_witness :
  th_count (Nat.iter (2 * 7) thread_step (thread_new (Some 3%N))) = 2%N.
Proof. apply (timer_fires_exactly 3 7 0 0). reflexivity. Defined.
