(* ===== verification/Registry.v ===== *)
(** * The capability registry ([registry.rs])

    [Registry] is a map from capability names to the entry of the instance that
    registered them. Every method is one critical section on the map, except
    [revoke_instance], which locks three times (length, retain, length). *)

From S2P Require Import Prelude Identity.

Record Entry : Type := mkEntry {
  en_logical : string;
  en_instance : N;
  en_generation : N;
  en_epoch : N;
}.

Notation Registry := (gmap string Entry) (only parsing).

Definition entry_ref (e : Entry) : InstanceRef :=
  mkInstanceRef (en_epoch e) (en_instance e) 0 (en_logical e) (en_generation e).

Definition provide (cap fiber : string) (r : Registry) : Registry :=
  <[cap := mkEntry fiber 0 0 0]> r.

Definition provide_instance (cap : string) (i : InstanceRef) (r : Registry) : Registry :=
  <[cap := mkEntry (ref_logical i) (ref_instance i) (ref_generation i) (ref_epoch i)]> r.

Definition resolve (cap : string) (r : Registry) : option string := en_logical <$> r !! cap.

Definition resolve_ref (cap : string) (r : Registry) : option InstanceRef :=
  entry_ref <$> r !! cap.

Definition resolve_instance (cap : string) (r : Registry) : option InstanceId :=
  e ← r !! cap;
  if (en_instance e =? 0)%N then None else Some (en_instance e).

Definition revoke_fiber (fiber : string) (r : Registry) : Registry :=
  retain (λ _ v, negb (bool_decide (en_logical v = fiber))) r.

Definition revoke_instance (inst : InstanceId) (r : Registry) : nat * Registry :=
  let before := size r in
  let r' := retain (λ _ v, negb (en_instance v =? inst)%N) r in
  (before - size r', r').

Definition revoke_cap_if_owned (cap : string) (inst : InstanceId) (r : Registry)
    : bool * Registry :=
  match r !! cap with
  | Some e =>
      if (en_instance e =? inst)%N then (true, delete cap r)
      else if (en_instance e =? 0)%N then (true, delete cap r)
      else (false, r)
  | None => (false, r)
  end.

Definition reg_snapshot (r : Registry) : gmap string string := en_logical <$> r.

Definition snapshot_refs (r : Registry) : gmap string InstanceRef := entry_ref <$> r.

(** The mutations of the registry as data. *)
Inductive RegOp : Type :=
| OpProvide (cap fiber : string)
| OpProvideInstance (cap : string) (i : InstanceRef)
| OpRevokeInstance (inst : N)
| OpRevokeCap (cap : string) (inst : N).

Definition reg_apply (o : RegOp) (r : Registry) : Registry :=
  match o with
  | OpProvide cap fiber => provide cap fiber r
  | OpProvideInstance cap i => provide_instance cap i r
  | OpRevokeInstance inst => (revoke_instance inst r).2
  | OpRevokeCap cap inst => (revoke_cap_if_owned cap inst r).2
  end.

Definition reg_run (ops : list RegOp) (r : Registry) : Registry :=
  foldl (λ r o, reg_apply o r) r ops.

(** The operation is not a registration of [cap] and is not made in the name of
    [inst]. *)
Definition foreign_to (cap : string) (inst : N) (o : RegOp) : Prop :=
  match o with
  | OpProvide c _ | OpProvideInstance c _ => c ≠ cap
  | OpRevokeInstance i | OpRevokeCap _ i => i ≠ inst
  end.

(** ** Lemmas *)

Lemma revoke_cap_lookup cap inst r cap' :
  (revoke_cap_if_owned cap inst r).2 !! cap' =
  if decide (cap = cap')
  then (e ← r !! cap;
        if ((en_instance e =? inst)%N || (en_instance e =? 0)%N)%bool then None else Some e)
  else r !! cap'.
Proof.
  unfold revoke_cap_if_owned. destruct (decide (cap = cap')) as [<-|N].
  - destruct (r !! cap) as [e|] eqn:E; cbn; [|done].
    destruct (en_instance e =? inst)%N; cbn; [by rewrite lookup_delete_eq|].
    destruct (en_instance e =? 0)%N; cbn; [by rewrite lookup_delete_eq|done].
  - destruct (r !! cap) as [e|]; [|done]. repeat case_match; cbn; by rewrite ?lookup_delete_ne.
Qed.

Lemma reg_apply_foreign o cap e r :
  r !! cap = Some e → en_instance e ≠ 0%N → foreign_to cap (en_instance e) o →
  reg_apply o r !! cap = Some e.
Proof.
  intros E Z F. destruct o as [c f|c i|i|c i]; cbn in F; cbn [reg_apply].
  - unfold provide. by rewrite lookup_insert_ne.
  - unfold provide_instance. by rewrite lookup_insert_ne.
  - cbn. apply lookup_retain_Some. split; [done|].
    apply negb_true_iff, N.eqb_neq. congruence.
  - rewrite revoke_cap_lookup. destruct (decide (c = cap)) as [->|]; [|done].
    rewrite E. cbn. rewrite (proj2 (N.eqb_neq _ _)) by congruence.
    by rewrite (proj2 (N.eqb_neq _ _)).
Qed.

(** discarding an old generation never removes the new one. A capability
    registered by an instance keeps resolving to that instance, generation and
    epoch under any sequence of registrations of other capabilities and of
    revocations ([revoke_instance], [revoke_cap_if_owned]) made in the name of
    other instances. *)
Theorem registry_isolation (ops : list RegOp) (cap : string) (i : InstanceRef) (r : Registry) :
  ref_instance i ≠ 0%N →
  Forall (foreign_to cap (ref_instance i)) ops →
  resolve_ref cap (reg_run ops (provide_instance cap i r))
    = Some (mkInstanceRef (ref_epoch i) (ref_instance i) 0 (ref_logical i) (ref_generation i)) ∧
  resolve_instance cap (reg_run ops (provide_instance cap i r)) = Some (ref_instance i).
Proof.
  intros Z F.
  set (e := mkEntry (ref_logical i) (ref_instance i) (ref_generation i) (ref_epoch i)).
  assert (H : reg_run ops (provide_instance cap i r) !! cap = Some e).
  { assert (H0 : provide_instance cap i r !! cap = Some e) by apply lookup_insert_eq.
    revert H0. generalize (provide_instance cap i r) as r0.
    induction F as [|o ops Fo F IH]; intros r0 H0; [done|].
    apply IH. by apply reg_apply_foreign. }
  unfold resolve_ref, resolve_instance. rewrite H. cbn.
  by rewrite (proj2 (N.eqb_neq _ _)).
Qed.

Lemma registry_isolation_witness :
  let i := mkInstanceRef 9 5 2 "p" 2 in
  resolve_instance "x@1"
    (reg_run [OpRevokeInstance 4; OpRevokeCap "x@1" 4; OpProvide "y@1" "q"]
       (provide_instance "x@1" i ∅)) = Some 5%N.
Proof.
  intros i.
  apply (registry_isolation
           [OpRevokeInstance 4; OpRevokeCap "x@1" 4; OpProvide "y@1" "q"] "x@1" i ∅);
    [done|]. repeat constructor; done.
Defined.

(** [revoke_instance] removes exactly the entries of the instance and returns
    how many it removed. *)
Theorem revoke_instance_exact (inst : N) (r : Registry) :
  let '(n, r') := revoke_instance inst r in
  (∀ cap e, r' !! cap = Some e ↔ r !! cap = Some e ∧ en_instance e ≠ inst) ∧
  n + size r' = size r.
Proof.
  unfold revoke_instance. split.
  - intros cap e. rewrite lookup_retain_Some, negb_true_iff, N.eqb_neq. done.
  - assert (size (retain (λ _ v, negb (en_instance v =? inst)%N) r) ≤ size r); [|lia].
    apply map_subseteq_size. unfold retain. apply map_filter_subseteq.
Qed.
