(* ===== verification/Bus.v ===== *)
(** * The topic bus ([bus.rs])

    Subscriptions of fibers to topics; instance 0 marks a subscription made
    through the legacy adapter, which names no instance. *)

From S2P Require Import Prelude.

Record Subscription : Type := mkSubscription { sub_logical : string; sub_instance : N }.

#[export] Instance Subscription_eq_dec : EqDecision Subscription.
Proof. solve_decision. Defined.

Notation Bus := (gmap string (list Subscription)) (only parsing).

(** [entry(topic).or_default()], then [push] unless already there. *)
Definition add_subscription (s : Subscription) (topic : string) (b : Bus) : Bus :=
  let e := default [] (b !! topic) in
  <[topic := if bool_decide (s ∈ e) then e else e ++ [s]]> b.

Definition subscribe (fiber topic : string) (b : Bus) : Bus :=
  add_subscription (mkSubscription fiber 0) topic b.

Definition subscribe_instance (logical : string) (inst : InstanceId) (topic : string) (b : Bus)
    : Bus :=
  add_subscription (mkSubscription logical inst) topic b.

Definition unsubscribe_fiber (fiber : string) (b : Bus) : Bus :=
  filter (λ s, sub_logical s ≠ fiber) <$> b.

Definition unsubscribe_instance (inst : InstanceId) (b : Bus) : Bus :=
  filter (λ s, sub_instance s ≠ inst) <$> b.

Definition unsubscribe_topic_if_owned (inst : InstanceId) (topic : string) (b : Bus)
    : bool * Bus :=
  match b !! topic with
  | Some v =>
      let v' := filter (λ s, ¬ (sub_instance s = inst ∨ sub_instance s = 0%N)) v in
      (negb (bool_decide (length v' = length v)), <[topic := v']> b)
  | None => (false, b)
  end.

Definition subscribers (topic : string) (b : Bus) : list string :=
  sub_logical <$> default [] (b !! topic).

Definition subscriber_instances (topic : string) (b : Bus) : list InstanceId :=
  sub_instance <$> filter (λ s, sub_instance s ≠ 0%N) (default [] (b !! topic)).

Definition publish : Bus → Bus := id.

(** ** Lemmas *)

Definition subs_of (topic : string) (b : Bus) : list Subscription := default [] (b !! topic).

Lemma subs_add s topic b topic' x :
  x ∈ subs_of topic' (add_subscription s topic b) ↔
  x ∈ subs_of topic' b ∨ (topic' = topic ∧ x = s).
Proof.
  unfold subs_of, add_subscription. rewrite lookup_insert.
  destruct (decide (topic = topic')) as [<-|N]; cbn; [|naive_solver].
  case_bool_decide; set_solver.
Qed.

Lemma nodup_add s topic b :
  (∀ t, NoDup (subs_of t b)) → ∀ t, NoDup (subs_of t (add_subscription s topic b)).
Proof.
  intros H t. unfold subs_of, add_subscription. rewrite lookup_insert.
  destruct (decide (topic = t)) as [<-|N]; [cbn|apply H]. specialize (H topic).
  case_bool_decide; [apply H|]. apply NoDup_app. split_and!; [apply H| |apply NoDup_singleton].
  set_solver.
Qed.

(** A topic is delivered once per subscriber. Subscribing is idempotent (no
    sequence of subscriptions lists the same logical and instance twice on a
    topic), and an instance is a target of a topic exactly when it subscribed. *)
Theorem subscribe_idempotent (subs : list (string * N * string)) (topic : string) :
  let b := foldl (λ b s, subscribe_instance s.1.1 s.1.2 s.2 b) ∅ subs in
  NoDup (default [] (b !! topic)) ∧
  (∀ inst, inst ≠ 0%N →
     inst ∈ subscriber_instances topic b ↔ ∃ logical, (logical, inst, topic) ∈ subs).
Proof.
  assert (G : ∀ b0, (∀ t, NoDup (subs_of t b0)) →
    (∀ t, NoDup (subs_of t (foldl (λ b s, subscribe_instance s.1.1 s.1.2 s.2 b) b0 subs))) ∧
    (∀ x, x ∈ subs_of topic (foldl (λ b s, subscribe_instance s.1.1 s.1.2 s.2 b) b0 subs) ↔
       x ∈ subs_of topic b0 ∨ (sub_logical x, sub_instance x, topic) ∈ subs)).
  { induction subs as [|[[l i] tp] subs IH]; intros b0 H0; cbn.
    { split; [done|]. intros x. set_solver. }
    destruct (IH _ (nodup_add (mkSubscription l i) tp b0 H0)) as [N E].
    split; [exact N|]. intros x. unfold subscribe_instance in *. rewrite E, subs_add.
    rewrite elem_of_cons. destruct x as [xl xi]; cbn. naive_solver. }
  destruct (G ∅) as [N E]; [intros t; constructor|]. cbn. split; [apply N|].
  intros inst Z. unfold subscriber_instances. rewrite list_elem_of_fmap. split.
  - intros (x & -> & [_ [Hx|Hx]%E]%list_elem_of_filter); [set_solver|eauto].
  - intros [l Hl]. exists (mkSubscription l inst). split; [done|].
    apply list_elem_of_filter. split; [done|]. apply E. by right.
Qed.

(** Releasing a subscription of one instance also removes the subscriptions other
    fibers made through the legacy adapter on that topic. *)
Theorem unsubscribe_topic_drops_legacy :
  subscribers "t" (unsubscribe_topic_if_owned 5 "t"
    (subscribe "legacy" "t" (subscribe_instance "p" 5 "t" ∅))).2 = [].
Proof. reflexivity. Qed.

(** [unsubscribe_topic_if_owned] keeps every subscription of every other
    instance, on every topic, and removes all of its own on this one. *)
Theorem unsubscribe_topic_isolation (inst : N) (topic : string) (b : Bus) (topic' : string)
    (s : Subscription) :
  inst ≠ 0%N → sub_instance s ≠ 0%N →
  let b' := (unsubscribe_topic_if_owned inst topic b).2 in
  s ∈ default [] (b' !! topic') ↔
  s ∈ default [] (b !! topic') ∧ (sub_instance s = inst → topic' ≠ topic).
Proof.
  intros Z Zs. cbn. unfold unsubscribe_topic_if_owned.
  destruct (b !! topic) as [v|] eqn:E; cbn.
  - rewrite lookup_insert. destruct (decide (topic = topic')) as [<-|N].
    + rewrite E. cbn. rewrite list_elem_of_filter. naive_solver.
    + naive_solver.
  - destruct (decide (topic' = topic)) as [->|N]; [rewrite E; set_solver|naive_solver].
Qed.

Lemma unsubscribe_topic_isolation_witness :
  let b := subscribe_instance "q" 6 "t" (subscribe_instance "p" 5 "t" ∅) in
  mkSubscription "q" 6 ∈ default [] ((unsubscribe_topic_if_owned 5 "t" b).2 !! "t").
Proof.
  intros b. apply (unsubscribe_topic_isolation 5 "t" b "t" (mkSubscription "q" 6)); [done|done|].
  split; [|done]. apply (bool_decide_unpack _). vm_compute. exact I.
Defined.
