(* ===== verification/Deps.v ===== *)
(** * Dependencies and bindings ([deps.rs])

    Parsing of [requires]/[provides], interface matching, and the algorithms on
    the graph of mandatory dependencies: cycle search, topological order,
    transitive consumers. The graph is a map from a consumer to the providers
    it references; a node may occur only as a provider. *)

From Stdlib Require Import Ascii.
From S2P Require Import Prelude RustStd Json.

(** ** Data *)

Record Requirement : Type := mkRequirement {
  rq_interface : string;
  rq_base : string;
  rq_major : option N;
  rq_provider : option string;
}.

#[export] Instance Requirement_eq_dec : EqDecision Requirement.
Proof. solve_decision. Defined.

Record Binding : Type := mkBinding {
  bd_interface : string;
  bd_provider_logical : string;
  bd_provider_instance : N;
  bd_provider_generation : N;
}.

#[export] Instance Binding_eq_dec : EqDecision Binding.
Proof. solve_decision. Defined.

Inductive ResolveError : Type :=
| Missing (interface : string)
| Ambiguous (interface : string) (providers : list string)
| VersionMismatch (interface provider detail : string)
| UnknownProvider (interface provider : string)
| ProviderNotActive (interface provider state : string)
| Cycle (path : list string).

Definition resolve_error_display (e : ResolveError) : string :=
  match e with
  | Missing i => "dependency-unavailable: no definition provides " +:+ i
  | Ambiguous i ps =>
      "ambiguous-provider: " +:+ i +:+ " provided by [" +:+ join ", " ps
      +:+ "]; use an explicit binding"
  | VersionMismatch i p d =>
      "dependency-unavailable: " +:+ i +:+ " at " +:+ p +:+ " is incompatible (" +:+ d +:+ ")"
  | UnknownProvider i p =>
      "dependency-unavailable: provider '" +:+ p +:+ "' of " +:+ i +:+ " is unknown"
  | ProviderNotActive i p st =>
      "dependency-unavailable: provider '" +:+ p +:+ "' of " +:+ i +:+ " is " +:+ st
  | Cycle path => "cycle: " +:+ join " -> " path
  end.

(** ** Interface names *)

Definition at_sign : ascii := "@"%char.

Definition split_cap (s : string) : string * option N :=
  let s := trim s in
  match rsplit_at at_sign (chars s) with
  | Some (b, m) =>
      match parse_u64 m with
      | Some n => (of_chars b, Some n)
      | None => (s, None)
      end
  | None => (s, None)
  end.

Definition norm_cap (base : string) (major : option N) : string :=
  match major with
  | Some m => base +:+ "@" +:+ display m
  | None => base
  end.

Definition parse_require_value (v : Value) : result Requirement Msg :=
  match v with
  | JString s =>
      if str_is_empty (trim s) then Err (Text "requires entry vazio")
      else
        let '(base, major) := split_cap s in
        if str_is_empty base then Err (TextDebug "invalid requires: " s "")
        else Ok (mkRequirement (norm_cap base major) base major None)
  | JObject _ =>
      let iface := trim (default "" (get_str "interface" v)) in
      if str_is_empty iface then Err (Text "requires sem 'interface'")
      else
        let '(base, major) := split_cap iface in
        if str_is_empty base then Err (TextDebug "invalid requires: " iface "")
        else
          let provider :=
            p ← trim <$> get_str "provider" v;
            if str_is_empty p then None else Some p in
          match get_u64 "major" v with
          | Some m =>
              let base := (split_cap iface).1 in
              if str_is_empty base then Err (TextDebug "invalid requires: " iface "")
              else Ok (mkRequirement (norm_cap base (Some m)) base (Some m) provider)
          | None => Ok (mkRequirement (norm_cap base major) base major provider)
          end
  | _ => Err (Text "requires deve ser string ou objeto")
  end.

Definition parse_requires (v : option Value) : result (list Requirement) Msg :=
  match v with
  | None => Ok []
  | Some v =>
      let? arr := ok_or (as_array v) (Text "'requires' deve ser array") in
      collect_result parse_require_value arr
  end.

(** One iteration of the loop of [parse_provides]. *)
Definition parse_provide_value (item : Value) : result string Msg :=
  match item with
  | JString s =>
      if str_is_empty (trim s) then Err (Text "provides/capability vazio") else Ok (trim s)
  | JObject _ =>
      let iface := trim (default "" (get_str "interface" item)) in
      if str_is_empty iface then Err (Text "provides sem 'interface'")
      else
        let '(base, major) := split_cap iface in
        let major := match get_u64 "major" item with Some m => Some m | None => major end in
        if str_is_empty base then Err (TextDebug "invalid provides: " iface "")
        else Ok (norm_cap base major)
  | _ => Err (Text "provides deve ter strings ou objetos")
  end.

Definition parse_provides (v : option Value) : result (list string) Msg :=
  match v with
  | None => Ok []
  | Some v =>
      let? arr := ok_or (as_array v) (Text "'provides' deve ser array") in
      collect_result parse_provide_value arr
  end.

Definition cap_satisfies (provided_cap : string) (req : Requirement) : bool :=
  let '(base, major) := split_cap provided_cap in
  if negb (bool_decide (base = rq_base req)) then false
  else
    match rq_major req, major with
    | Some want, Some got => (want =? got)%N
    | Some _, None => false
    | None, _ => true
    end.

(** ** The graph *)

Notation Provides := (gmap string (list string)) (only parsing).
Notation Requires := (gmap string (list Requirement)) (only parsing).
Notation Edges := (gmap string (list string)) (only parsing).

Definition provider_candidates (req : Requirement) (provides_of : Provides) : list string :=
  sort_strings
    (List.filter (λ kv, existsb (λ c, cap_satisfies c req) kv.2) (map_to_list provides_of)).*1.

(** The providers one consumer references: the explicit one, or all candidates. *)
Definition requirement_deps (provides_of : Provides) (r : Requirement) : list string :=
  match rq_provider r with
  | Some p => [p]
  | None => provider_candidates r provides_of
  end.

Definition graph_edges (requires_of : Requires) (provides_of : Provides) : Edges :=
  let edges :=
    (λ reqs, dedup (sort_strings (concat (requirement_deps provides_of <$> reqs))))
      <$> requires_of in
  edges ∪ ((λ _, []) <$> provides_of).

(** *** [find_cycle] *)

Inductive DfsResult : Type :=
| Found (cyc : list string)
| Done (color : gmap string N) (stack : list string)
| OutOfFuel.

Definition color_of (color : gmap string N) (n : string) : N := default 0%N (color !! n).

(** [stack.iter().position(|n| n == nx).unwrap_or(0)]. *)
Definition position (nx : string) (stack : list string) : nat :=
  default 0 (fst <$> list_find (nx =.) stack).

(** The [for nx in nexts] loop of [dfs] and the two statements after it; [rec] is
    the recursive call. *)
Fixpoint visit_nexts (rec : string → gmap string N → list string → DfsResult) (node : string)
    (nexts : list string) (color : gmap string N) (stack : list string) : DfsResult :=
  match nexts with
  | [] =>
      Done (<[node := 2%N]> color) (match pop stack with Some (_, s) => s | None => [] end)
  | nx :: nexts =>
      let c := color_of color nx in
      if (c =? 1)%N then Found (drop (position nx stack) stack ++ [nx])
      else if (c =? 0)%N then
        match rec nx color stack with
        | Found cyc => Found cyc
        | Done color stack => visit_nexts rec node nexts color stack
        | OutOfFuel => OutOfFuel
        end
      else visit_nexts rec node nexts color stack
  end.

Fixpoint dfs (fuel : nat) (edges : Edges) (node : string) (color : gmap string N)
    (stack : list string) : DfsResult :=
  match fuel with
  | O => OutOfFuel
  | S fuel =>
      visit_nexts (dfs fuel edges) node (default [] (edges !! node))
        (<[node := 1%N]> color) (stack ++ [node])
  end.

(** All nodes of the graph, those that occur only as providers included. *)
Definition graph_nodes (edges : Edges) : gset string :=
  dom edges ∪ list_to_set (concat (map_to_list edges).*2).

Fixpoint find_cycle_from (edges : Edges) (nodes : list string) (color : gmap string N)
    (stack : list string) : DfsResult :=
  match nodes with
  | [] => Done color stack
  | n :: nodes =>
      if (color_of color n =? 0)%N then
        match dfs (S (size (graph_nodes edges))) edges n color stack with
        | Done color stack => find_cycle_from edges nodes color stack
        | r => r
        end
      else find_cycle_from edges nodes color stack
  end.

Definition find_cycle (edges : Edges) : option (list string) :=
  match find_cycle_from edges (sort_strings (keys edges)) ∅ [] with
  | Found cyc => Some cyc
  | _ => None
  end.

(** *** [topo_order] *)

(** [rev.entry(d).or_default().push(c)]. *)
Definition rev_push (c d : string) (rev : gmap string (list string))
    : gmap string (list string) :=
  <[d := default [] (rev !! d) ++ [c]]> rev.

(** The loops that fill [indeg] and [rev]. *)
Definition indeg_edge (c : string) (m : gmap string nat) (d : string) : gmap string nat :=
  let m := <[c := S (default 0 (m !! c))]> m in
  <[d := default 0 (m !! d)]> m.

Definition indegrees (edges : Edges) : gmap string nat :=
  foldl (λ m kv, foldl (indeg_edge kv.1) (<[kv.1 := default 0 (m !! kv.1)]> m) kv.2)
    ∅ (map_to_list edges).

Definition reverse_edges (edges : Edges) : gmap string (list string) :=
  foldl (λ m kv, foldl (λ m d, rev_push kv.1 d m) m kv.2) ∅ (map_to_list edges).

(** [ready.sort_unstable(); ready.reverse()]. *)
Definition order_ready (ready : list string) : list string := reverse (sort_strings ready).

(** [if let Some(e) = indeg.get_mut(c) { *e -= 1; if *e == 0 { ready.push(c) } }]. *)
Definition relax (st : gmap string nat * list string) (c : string)
    : gmap string nat * list string :=
  let '(indeg, ready) := st in
  match indeg !! c with
  | Some e => (<[c := e - 1]> indeg, if e - 1 =? 0 then ready ++ [c] else ready)
  | None => (indeg, ready)
  end.

Fixpoint topo_loop (fuel : nat) (rev : gmap string (list string)) (indeg : gmap string nat)
    (ready order : list string) : list string :=
  match fuel with
  | O => order
  | S fuel =>
      match pop ready with
      | None => order
      | Some (n, ready) =>
          let '(indeg, ready) :=
            foldl relax (indeg, ready) (sort_strings (default [] (rev !! n))) in
          topo_loop fuel rev indeg (order_ready ready) (order ++ [n])
      end
  end.

Definition topo_order (edges : Edges) : option (list string) :=
  let indeg := indegrees edges in
  let ready := order_ready (filter (λ n, indeg !! n = Some 0) (keys indeg)) in
  let order := topo_loop (S (size indeg)) (reverse_edges edges) indeg ready [] in
  if length order =? size indeg then Some order else None.

(** *** [transitive_consumers] *)

(** [if seen.insert(c) { out.push(c); stack.push(c) }]. *)
Definition visit_consumer (st : gset string * list string * list string) (c : string)
    : gset string * list string * list string :=
  let '(seen, out, stack) := st in
  if bool_decide (c ∈ seen) then (seen, out, stack)
  else ({[c]} ∪ seen, out ++ [c], stack ++ [c]).

Fixpoint consumers_loop (fuel : nat) (rev : gmap string (list string)) (seen : gset string)
    (out stack : list string) : list string :=
  match fuel with
  | O => out
  | S fuel =>
      match pop stack with
      | None => out
      | Some (n, stack) =>
          let '(seen, out, stack) :=
            foldl visit_consumer (seen, out, stack) (sort_strings (default [] (rev !! n))) in
          consumers_loop fuel rev seen out stack
      end
  end.

Definition transitive_consumers (target : string) (edges : Edges) : list string :=
  sort_strings
    (consumers_loop (S (S (size (graph_nodes edges)))) (reverse_edges edges) {[target]} []
       [target]).

(** ** Specifications *)

(** [c] references [d] as a provider. *)
Definition dep_edge (edges : Edges) (c d : string) : Prop := d ∈ default [] (edges !! c).

Definition acyclic (edges : Edges) : Prop := ∀ n, ¬ tc (dep_edge edges) n n.

(** Consecutive elements of [l] are related. *)
Definition is_path (R : string → string → Prop) (l : list string) : Prop :=
  ∀ i a b, l !! i = Some a → l !! S i = Some b → R a b.

(** [a -> ... -> a], at least one edge long. *)
Definition is_cycle (edges : Edges) (cyc : list string) : Prop :=
  (∃ n mid, cyc = n :: mid ++ [n]) ∧ is_path (dep_edge edges) cyc.

(** Every provider of a listed consumer is listed before it. *)
Definition providers_first (edges : Edges) (order : list string) : Prop :=
  ∀ pre c post, order = pre ++ c :: post → ∀ d, dep_edge edges c d → d ∈ pre.

(** ** Paths and cycles *)

Lemma is_path_drop R k l : is_path R l → is_path R (drop k l).
Proof. intros H i a b. rewrite !lookup_drop, Nat.add_succ_r. apply H. Qed.

Lemma is_path_snoc R l x y :
  is_path R (l ++ [x]) → R x y → is_path R ((l ++ [x]) ++ [y]).
Proof.
  intros P Rxy i a b Ha Hb. apply lookup_app_Some in Hb as [Hb|[Hl Hb]].
  - apply (P i a b); [|done]. rewrite lookup_app_l in Ha; [done|].
    apply lookup_lt_Some in Hb. lia.
  - apply list_lookup_singleton_Some in Hb as [Hi <-]. rewrite length_app in *. cbn in *.
    rewrite lookup_app_l in Ha by (rewrite length_app; cbn; lia).
    replace i with (length l) in Ha by lia.
    rewrite lookup_app_r, Nat.sub_diag in Ha by lia. by simplify_eq/=.
Qed.

Lemma is_path_tc R n l m : is_path R (n :: l ++ [m]) → tc R n m.
Proof.
  revert n; induction l as [|x l IH]; intros n P; cbn in P.
  - apply tc_once. by apply (P 0).
  - apply tc_l with x; [by apply (P 0)|]. apply IH. intros i a b. apply (P (S i)).
Qed.

Lemma is_cycle_not_acyclic edges cyc : is_cycle edges cyc → ¬ acyclic edges.
Proof. intros [(n & mid & ->) P] A. by apply (A n), is_path_tc with mid. Qed.

Lemma position_drop nx stack :
  nx ∈ stack → ∃ rest, drop (position nx stack) stack = nx :: rest.
Proof.
  intros H. unfold position.
  destruct (list_find_elem_of (nx =.) stack nx H eq_refl) as [[i y] E].
  rewrite E. cbn. apply list_find_Some in E as (Hi & <- & _).
  exists (drop (S i) stack). by apply drop_S.
Qed.

Lemma dep_edge_node edges c d :
  dep_edge edges c d → c ∈ graph_nodes edges ∧ d ∈ graph_nodes edges.
Proof.
  unfold dep_edge, graph_nodes. destruct (edges !! c) as [ds|] eqn:E; cbn; [|set_solver].
  intros H. split.
  - apply elem_of_union_l, elem_of_dom. eauto.
  - apply elem_of_union_r, elem_of_list_to_set, elem_of_concat. exists ds. split; [|done].
    apply list_elem_of_fmap. exists (c, ds). split; [done|]. by apply elem_of_map_to_list.
Qed.

Section dfs.
Context (edges : Edges).

(** White nodes, the measure of the search. *)
Definition whites (color : gmap string N) : nat :=
  size (filter (λ n, color_of color n = 0%N) (graph_nodes edges)).

Record dfs_inv (color : gmap string N) (stack : list string) : Prop := {
  di_path : is_path (dep_edge edges) stack;
  di_grey : ∀ x, color_of color x = 1%N ↔ x ∈ stack;
  di_black : ∀ x, color_of color x = 2%N → sn (dep_edge edges) x;
  di_le : ∀ x, (color_of color x ≤ 2)%N;
}.

(** What one search of a white node achieves. *)
Definition dfs_post (fuel : nat) (node : string) (color : gmap string N) (stack : list string)
    (r : DfsResult) : Prop :=
  match r with
  | Found cyc => is_cycle edges cyc
  | Done color' stack' =>
      stack' = stack ∧ dfs_inv color' stack ∧ color_of color' node = 2%N ∧
      (∀ x, color_of color x ≠ 0%N → color_of color' x = color_of color x)
  | OutOfFuel => fuel ≤ whites color
  end.

Lemma color_of_insert color n c x :
  color_of (<[n := c]> color) x = if decide (n = x) then c else color_of color x.
Proof. unfold color_of. rewrite lookup_insert. by destruct (decide _). Qed.

Lemma whites_mono c1 c2 :
  (∀ x, color_of c1 x ≠ 0%N → color_of c2 x ≠ 0%N) → whites c2 ≤ whites c1.
Proof.
  intros H. unfold whites. apply (subseteq_size (C:=gset string)). intros x. rewrite !elem_of_filter. intros [Z ?].
  split; [|done]. destruct (N.eq_dec (color_of c1 x) 0%N) as [|N]; [done|].
  by apply H in N.
Qed.

Lemma whites_insert color n c :
  color_of color n = 0%N → c ≠ 0%N → n ∈ graph_nodes edges →
  whites (<[n := c]> color) < whites color.
Proof.
  intros Z C G. unfold whites. apply (subset_size (C:=gset string)). split.
  - intros x. rewrite !elem_of_filter, color_of_insert. destruct (decide _); naive_solver.
  - intros S. specialize (S n). rewrite !elem_of_filter, color_of_insert in S.
    rewrite decide_True in S by done. naive_solver.
Qed.

Lemma visit_nexts_spec fuel node stack0 color0 :
  (∀ nx color, color_of color nx = 0%N → nx ∈ graph_nodes edges →
     dfs_inv color (stack0 ++ [node]) → dep_edge edges node nx →
     dfs_post fuel nx color (stack0 ++ [node]) (dfs fuel edges nx color (stack0 ++ [node]))) →
  color_of color0 node = 0%N → node ∉ stack0 →
  ∀ nexts color,
  whites color < whites color0 →
  (∀ d, d ∈ nexts → dep_edge edges node d) →
  (∀ d, dep_edge edges node d → d ∈ nexts ∨ color_of color d = 2%N) →
  dfs_inv color (stack0 ++ [node]) →
  (∀ x, color_of color0 x ≠ 0%N → color_of color x = color_of color0 x) →
  dfs_post (S fuel) node color0 stack0
    (visit_nexts (dfs fuel edges) node nexts color (stack0 ++ [node])).
Proof.
  intros Rec Z0 Nst nexts. induction nexts as [|nx nexts IH]; intros color Hw Hn Hd I Hk.
  - cbn [visit_nexts]. rewrite (proj2 (pop_Some _ node stack0)) by done. cbn.
    assert (B : sn (dep_edge edges) node).
    { constructor. intros d E. destruct (Hd d E) as [?|?]; [set_solver|]. by apply I. }
    split; [done|]. split; [split|split].
    + intros i a b Ha Hb. apply (di_path _ _ I i); by apply lookup_app_l_Some.
    + intros x. rewrite color_of_insert. destruct (decide _) as [<-|N]; [naive_solver|].
      rewrite (di_grey _ _ I). set_solver.
    + intros x. rewrite color_of_insert. destruct (decide _) as [<-|N]; [done|]. apply I.
    + intros x. rewrite color_of_insert. destruct (decide _) as [<-|N]; [lia|]. apply I.
    + by rewrite color_of_insert, decide_True.
    + intros x Hx. rewrite color_of_insert. destruct (decide _) as [<-|N]; [done|]. auto.
  - cbn [visit_nexts]. assert (E : dep_edge edges node nx) by (apply Hn; set_solver).
    destruct (N.eqb_spec (color_of color nx) 1%N) as [C1|C1].
    { cbn. apply (di_grey _ _ I) in C1. destruct (position_drop _ _ C1) as [rest D].
      split; [rewrite D; eauto|].
      pose proof (is_path_snoc _ _ _ _ (di_path _ _ I) E) as P.
      apply (is_path_drop _ (position nx (stack0 ++ [node]))) in P.
      rewrite drop_app_le in P; [done|]. apply (f_equal length) in D.
      rewrite length_drop in D. cbn in D. lia. }
    destruct (N.eqb_spec (color_of color nx) 0%N) as [C0|C0].
    + pose proof (Rec nx color C0 (proj2 (dep_edge_node _ _ _ E)) I E) as P.
      destruct (dfs fuel edges nx color (stack0 ++ [node])) as [cyc|color' stack'|]; cbn in P |- *;
        [done| |lia].
      destruct P as (-> & I' & B & K). apply IH; try done.
      * assert (whites color' ≤ whites color); [|lia]. apply whites_mono.
        intros x Hx. by rewrite K.
      * set_solver.
      * intros d Ed. destruct (Hd d Ed) as [[->|?]%elem_of_cons|B']; [by right|by left|right].
        rewrite K; [done|]. by rewrite B'.
      * intros x Hx. rewrite K by (by rewrite Hk). auto.
    + apply IH; try done; [set_solver|]. intros d Ed.
      destruct (Hd d Ed) as [[->|?]%elem_of_cons|B']; auto. right.
      pose proof (di_le _ _ I nx). lia.
Qed.

Lemma dfs_spec fuel node color stack :
  color_of color node = 0%N → node ∈ graph_nodes edges → dfs_inv color stack →
  (∀ s x, stack = s ++ [x] → dep_edge edges x node) →
  dfs_post fuel node color stack (dfs fuel edges node color stack).
Proof.
  revert node color stack. induction fuel as [|fuel IH]; intros node color stack Z G I L.
  { cbn. lia. }
  cbn [dfs]. apply visit_nexts_spec.
  - intros nx c Zc Gc Ic Ec. apply IH; [done|done|done|].
    intros s x [_ [= ->]]%app_inj_tail. done.
  - done.
  - intros N%(di_grey _ _ I). lia.
  - apply whites_insert; [done|lia|done].
  - by intros d.
  - by left.
  - split.
    + destruct stack as [|x s _] using rev_ind; [by intros [|[]] ? ?|].
      apply is_path_snoc; [apply I|eauto].
    + intros x. rewrite color_of_insert, elem_of_app, list_elem_of_singleton.
      rewrite <- (di_grey _ _ I). destruct (decide _); naive_solver.
    + intros x. rewrite color_of_insert. destruct (decide _); [done|apply I].
    + intros x. rewrite color_of_insert. destruct (decide _); [lia|apply I].
  - intros x Hx. rewrite color_of_insert. by destruct (decide _) as [<-|].
Qed.

Lemma find_cycle_from_spec nodes color :
  (∀ n, n ∈ nodes → n ∈ graph_nodes edges) → dfs_inv color [] →
  match find_cycle_from edges nodes color [] with
  | Found cyc => is_cycle edges cyc
  | Done color' stack' =>
      dfs_inv color' [] ∧ (∀ x, color_of color x = 2%N ∨ x ∈ nodes → color_of color' x = 2%N)
  | OutOfFuel => False
  end.
Proof.
  revert color. induction nodes as [|n nodes IH]; intros color G I; cbn [find_cycle_from].
  { split; [done|]. set_solver. }
  assert (Gn : n ∈ graph_nodes edges) by set_solver.
  destruct (N.eqb_spec (color_of color n) 0%N) as [Z|Z].
  - pose proof (dfs_spec (S (size (graph_nodes edges))) n color [] Z Gn I
      ltac:(by intros [] ? ?)) as P.
    destruct (dfs _ _ _ _ _) as [cyc|color' stack'|]; cbn in P; [done| |].
    + destruct P as (-> & I' & B & K). specialize (IH color' ltac:(set_solver) I').
      destruct (find_cycle_from _ _ _ _); [done| |done]. destruct IH as [? H]. split; [done|].
      intros x [Hx|[->|Hx]%elem_of_cons]; apply H; auto. left. rewrite K; [done|]. by rewrite Hx.
    + assert (whites color ≤ size (graph_nodes edges)); [|lia].
      unfold whites. apply (subseteq_size (C:=gset string)). set_solver.
  - specialize (IH color ltac:(set_solver) I).
    destruct (find_cycle_from _ _ _ _); [done| |done]. destruct IH as [? H]. split; [done|].
    intros x [Hx|[->|Hx]%elem_of_cons]; apply H; auto. left.
    pose proof (di_le _ _ I n). assert (color_of color n ≠ 1%N); [|lia].
    intros C%(di_grey _ _ I). set_solver.
Qed.

Lemma dfs_inv_init : dfs_inv ∅ [].
Proof.
  split; unfold color_of; try setoid_rewrite lookup_empty; cbn; try done.
  intros x. split; [done|]. set_solver.
Qed.

Lemma find_cycle_cases :
  (∃ cyc, find_cycle edges = Some cyc ∧ is_cycle edges cyc) ∨
  (find_cycle edges = None ∧ ∀ n, sn (dep_edge edges) n).
Proof.
  assert (G : ∀ n, n ∈ sort_strings (keys edges) → n ∈ graph_nodes edges).
  { intros n. rewrite elem_of_sort_strings, elem_of_keys. intros ?.
    by apply elem_of_union_l, elem_of_dom. }
  pose proof (find_cycle_from_spec _ ∅ G dfs_inv_init) as H.
  unfold find_cycle. destruct (find_cycle_from _ _ _ _) as [cyc|color' stack'|]; [eauto| |done].
  right. split; [done|]. destruct H as [I B]. intros n.
  destruct (edges !! n) as [ds|] eqn:E.
  - apply I, B. right. rewrite elem_of_sort_strings, elem_of_keys. eauto.
  - constructor. intros d. unfold flip, dep_edge. rewrite E. cbn. set_solver.
Qed.
End dfs.

Lemma sn_acyclic edges : (∀ n, sn (dep_edge edges) n) → acyclic edges.
Proof.
  intros S n. induction (S n) as [n _ IH]. intros T. inversion T as [? ? E|? y ? E T']; subst.
  - by apply (IH n E).
  - apply (IH y E). eapply tc_r; [exact T'|done].
Qed.

(** ** The degree and reverse-edge tables *)

(** Number of occurrences. *)
Definition occ (x : string) (l : list string) : nat := length (filter (x =.) l).

Arguments occ : simpl never.

Lemma occ_nil x : occ x [] = 0.
Proof. done. Qed.

Lemma occ_cons x y l : occ x (y :: l) = (if decide (x = y) then 1 else 0) + occ x l.
Proof. unfold occ. rewrite filter_cons. by destruct (decide (x = y)). Qed.

Lemma occ_app x l1 l2 : occ x (l1 ++ l2) = occ x l1 + occ x l2.
Proof. unfold occ. by rewrite filter_app, length_app. Qed.

Lemma occ_perm x l1 l2 : l1 ≡ₚ l2 → occ x l1 = occ x l2.
Proof. intros P. unfold occ. by rewrite P. Qed.

Lemma occ_pos x l : 0 < occ x l ↔ x ∈ l.
Proof.
  induction l as [|y l IH]; [unfold occ; cbn; split; [lia|set_solver]|].
  rewrite occ_cons, elem_of_cons. destruct (decide (x = y)); [split; [auto|lia]|].
  rewrite Nat.add_0_l, IH. naive_solver.
Qed.

(** Sum of [f] over the entries of consumer [c]. *)
Definition weight (f : list string → nat) (c : string) (l : list (string * list string)) : nat :=
  sum_list_with (λ kv, if decide (kv.1 = c) then f kv.2 else 0) l.

Lemma weight_edges f c (edges : Edges) :
  f [] = 0 → weight f c (map_to_list edges) = f (default [] (edges !! c)).
Proof.
  intros F0. induction edges as [|k ds m E IH] using map_ind.
  { rewrite map_to_list_empty, lookup_empty. cbn. by rewrite F0. }
  unfold weight in *. rewrite map_to_list_insert by done. cbn. rewrite IH, lookup_insert.
  destruct (decide (k = c)) as [->|]; [|done]. rewrite E. cbn. lia.
Qed.

Lemma rev_fold_inner k ds (m : gmap string (list string)) c n :
  occ c (default [] (foldl (λ m d, rev_push k d m) m ds !! n)) =
  occ c (default [] (m !! n)) + (if decide (k = c) then occ n ds else 0).
Proof.
  revert m; induction ds as [|d ds IH]; intros m; cbn [foldl].
  { rewrite occ_nil. destruct (decide _); lia. }
  rewrite IH. unfold rev_push. rewrite lookup_insert, occ_cons.
  destruct (decide (d = n)) as [->|N]; cbn.
  - rewrite occ_app, occ_cons, occ_nil.
    destruct (decide (n = n)), (decide (c = k)), (decide (k = c)); try congruence; lia.
  - destruct (decide (n = d)), (decide (k = c)); try congruence; lia.
Qed.

Lemma reverse_edges_occ edges c n :
  occ c (default [] (reverse_edges edges !! n)) = occ n (default [] (edges !! c)).
Proof.
  rewrite <- (weight_edges (occ n) c edges) by done. unfold reverse_edges.
  assert (G : ∀ L m, occ c (default [] (foldl (λ m kv, foldl (λ m d, rev_push kv.1 d m) m kv.2) m L !! n))
    = occ c (default [] (m !! n)) + weight (occ n) c L).
  { induction L as [|[k ds] L IH]; intros m; cbn; [lia|].
    rewrite IH, rev_fold_inner. unfold weight. lia. }
  by rewrite G, lookup_empty.
Qed.

Lemma elem_of_reverse_edges edges c n :
  c ∈ default [] (reverse_edges edges !! n) ↔ dep_edge edges c n.
Proof. unfold dep_edge. by rewrite <- !occ_pos, reverse_edges_occ. Qed.

Lemma indeg_edge_val c m d x :
  default 0 (indeg_edge c m d !! x) = default 0 (m !! x) + (if decide (c = x) then 1 else 0).
Proof.
  unfold indeg_edge. rewrite !lookup_insert.
  destruct (decide (d = x)) as [->|], (decide (c = x)) as [->|]; cbn; lia.
Qed.

Lemma indeg_fold_val c ds m x :
  default 0 (foldl (indeg_edge c) m ds !! x)
  = default 0 (m !! x) + (if decide (c = x) then length ds else 0).
Proof.
  revert m; induction ds as [|d ds IH]; intros m; cbn [foldl length].
  - destruct (decide _); lia.
  - rewrite IH, indeg_edge_val. destruct (decide _); lia.
Qed.

Lemma indeg_fold_dom c ds m :
  dom (foldl (indeg_edge c) (<[c := default 0 (m !! c)]> m) ds)
  = {[c]} ∪ dom m ∪ list_to_set ds.
Proof.
  assert (G : ∀ m', c ∈ dom m' → dom (foldl (indeg_edge c) m' ds) = dom m' ∪ list_to_set ds).
  { induction ds as [|d ds IH]; intros m' Hc; cbn; [set_solver|].
    rewrite IH by (unfold indeg_edge; rewrite !dom_insert_L; set_solver).
    unfold indeg_edge. rewrite !dom_insert_L. set_solver. }
  rewrite G; rewrite dom_insert_L; set_solver.
Qed.

Lemma indegrees_val edges x : default 0 (indegrees edges !! x) = length (default [] (edges !! x)).
Proof.
  rewrite <- (weight_edges length x edges) by done. unfold indegrees.
  assert (G : ∀ L m, default 0 (foldl (λ m kv, foldl (indeg_edge kv.1)
      (<[kv.1 := default 0 (m !! kv.1)]> m) kv.2) m L !! x)
    = default 0 (m !! x) + weight length x L).
  { induction L as [|[k ds] L IH]; intros m; cbn; [lia|].
    rewrite IH, indeg_fold_val, lookup_insert. unfold weight.
    destruct (decide (k = x)) as [->|]; cbn; lia. }
  by rewrite G, lookup_empty.
Qed.

Lemma indegrees_dom edges : dom (indegrees edges) = graph_nodes edges.
Proof.
  unfold indegrees, graph_nodes.
  assert (G : ∀ L m, dom (foldl (λ m kv, foldl (indeg_edge kv.1)
      (<[kv.1 := default 0 (m !! kv.1)]> m) kv.2) m L)
    = dom m ∪ list_to_set L.*1 ∪ list_to_set (concat L.*2)).
  { induction L as [|[k ds] L IH]; intros m; cbn; [set_solver|].
    rewrite IH, indeg_fold_dom, list_to_set_app_L. set_solver. }
  rewrite G, dom_empty_L. f_equal. apply set_eq. intros x.
  rewrite elem_of_union, elem_of_list_to_set. fold (keys edges). rewrite elem_of_keys, elem_of_dom.
  set_solver.
Qed.

Lemma indegrees_lookup edges x :
  x ∈ graph_nodes edges → indegrees edges !! x = Some (length (default [] (edges !! x))).
Proof.
  rewrite <- indegrees_dom, elem_of_dom. intros [e E]. pose proof (indegrees_val edges x) as V.
  rewrite E in *. cbn in V. by subst.
Qed.

(** ** Kahn's loop *)

(** What the inner loop does to the degrees and the ready list. *)
Lemma relax_fold ds : ∀ indeg ready,
  (∀ c e, indeg !! c = Some e → occ c ds ≤ e) →
  ∃ extra,
    (foldl relax (indeg, ready) ds).2 = ready ++ extra ∧ NoDup extra ∧
    (∀ c, (foldl relax (indeg, ready) ds).1 !! c = (λ e, e - occ c ds) <$> indeg !! c) ∧
    (∀ c, c ∈ extra ↔ 0 < occ c ds ∧ indeg !! c = Some (occ c ds)).
Proof.
  induction ds as [|d ds IH]; intros indeg ready H; cbn [foldl].
  { exists []. rewrite app_nil_r. split_and!; [done|constructor| |].
    - intros c. cbn. rewrite occ_nil. destruct (indeg !! c) as [e|]; cbn; [|done]. f_equal. lia.
    - intros c. rewrite occ_nil. split; [set_solver|lia]. }
  cbn [relax]. destruct (indeg !! d) as [e|] eqn:E.
  - assert (He : S (occ d ds) ≤ e).
    { specialize (H d e E). rewrite occ_cons, decide_True in H by done. lia. }
    destruct (IH (<[d := e - 1]> indeg) (if e - 1 =? 0 then ready ++ [d] else ready))
      as (extra & E1 & N & E2 & E3).
    { intros c e' [[<- <-]|[Nc Hc]]%lookup_insert_Some; [lia|].
      specialize (H c e' Hc). rewrite occ_cons in H. lia. }
    exists ((if e - 1 =? 0 then [d] else []) ++ extra).
    assert (D : d ∈ extra ↔ 0 < occ d ds ∧ e - 1 = occ d ds).
    { rewrite E3, lookup_insert_eq. split; intros [? H']; split; auto; congruence. }
    split_and!.
    + rewrite E1. destruct (e - 1 =? 0); [by rewrite <- app_assoc|done].
    + destruct (Nat.eqb_spec (e - 1) 0); cbn; [|done]. constructor; [|done]. rewrite D. lia.
    + intros c. rewrite E2, lookup_insert, occ_cons. destruct (decide (d = c)) as [->|].
      * rewrite decide_True, E by done. cbn. f_equal. lia.
      * rewrite decide_False by congruence. done.
    + intros c. rewrite elem_of_app, occ_cons. destruct (decide (c = d)) as [->|Nc].
      * rewrite D, E. destruct (Nat.eqb_spec (e - 1) 0).
        -- split; [intros _; split; [lia|f_equal; lia]|]. intros _. left. set_solver.
        -- split; [intros [?|[? ?]]; [set_solver|]; split; [lia|f_equal; lia]|].
           intros [? [= ?]]. right. lia.
      * rewrite E3, lookup_insert_ne by done. destruct (e - 1 =? 0); set_solver.
  - destruct (IH indeg ready) as (extra & E1 & N & E2 & E3).
    { intros c e' Hc. specialize (H c e' Hc). rewrite occ_cons in H. lia. }
    exists extra. split_and!; [done|done| |].
    + intros c. rewrite E2, occ_cons. destruct (decide (c = d)) as [->|]; [by rewrite E|done].
    + intros c. rewrite E3, occ_cons. destruct (decide (c = d)) as [->|]; [|done].
      rewrite E. naive_solver.
Qed.

Section topo.
Context (edges : Edges).

Notation deps c := (default [] (edges !! c)).

(** Providers of [c] not yet in [order], with multiplicity. *)
Definition pending_deps (order : list string) (c : string) : nat :=
  length (filter (.∉ order) (deps c)).

Record topo_inv (indeg : gmap string nat) (ready order : list string) : Prop := {
  ti_nodup : NoDup (order ++ ready);
  ti_dom : dom indeg = graph_nodes edges;
  ti_deg : ∀ c e, indeg !! c = Some e → e = pending_deps order c;
  ti_ready : ∀ c, c ∈ order ++ ready ↔ indeg !! c = Some 0;
  ti_first : providers_first edges order;
}.

Lemma pending_zero order c : pending_deps order c = 0 ↔ ∀ d, dep_edge edges c d → d ∈ order.
Proof.
  unfold pending_deps, dep_edge. rewrite length_zero_iff_nil. split.
  - intros E d Hd. destruct (decide (d ∈ order)) as [|N]; [done|].
    assert (d ∈ filter (.∉ order) (deps c)) as F by (by apply list_elem_of_filter).
    rewrite E in F. set_solver.
  - intros H. destruct (filter _ _) as [|d l] eqn:E; [done|].
    assert (d ∈ filter (.∉ order) (deps c)) as F by (rewrite E; set_solver).
    apply list_elem_of_filter in F as [N Hd]. destruct (N (H d Hd)).
Qed.

Lemma pending_snoc order n c :
  n ∉ order → pending_deps (order ++ [n]) c + occ n (deps c) = pending_deps order c.
Proof.
  intros N. unfold pending_deps. induction (deps c) as [|d l IH]; [done|].
  rewrite !filter_cons, occ_cons. destruct (decide (n = d)) as [->|Nd].
  - rewrite decide_False by set_solver. rewrite decide_True by done. cbn. lia.
  - destruct (decide (d ∉ order)).
    + rewrite decide_True by set_solver. cbn. lia.
    + rewrite decide_False by set_solver. lia.
Qed.

Lemma topo_step indeg ready order n :
  topo_inv indeg (ready ++ [n]) order →
  let '(indeg', ready') :=
    foldl relax (indeg, ready) (sort_strings (default [] (reverse_edges edges !! n))) in
  topo_inv indeg' (order_ready ready') (order ++ [n]).
Proof.
  intros [N D Dg R F].
  set (ds := sort_strings _).
  assert (O : ∀ c, occ c ds = occ n (deps c)).
  { intros c. unfold ds. by rewrite (occ_perm _ _ _ (sort_strings_perm _)), reverse_edges_occ. }
  assert (Nn : n ∉ order) by (apply NoDup_app in N as (_ & H & _); set_solver).
  assert (P : ∀ c, pending_deps (order ++ [n]) c + occ c ds = pending_deps order c).
  { intros c. rewrite O. by apply pending_snoc. }
  destruct (relax_fold ds indeg ready) as (extra & E1 & Nx & E2 & E3).
  { intros c e Hc. rewrite (Dg c e Hc). specialize (P c). lia. }
  destruct (foldl relax (indeg, ready) ds) as [indeg' ready']. cbn in E1, E2. subst ready'.
  assert (Pe : (order ++ [n]) ++ order_ready (ready ++ extra) ≡ₚ (order ++ ready ++ [n]) ++ extra).
  { unfold order_ready. rewrite reverse_Permutation, sort_strings_perm.
    rewrite <- !app_assoc. apply Permutation_app_head.
    rewrite (app_assoc [n]), (Permutation_app_comm [n] ready). by rewrite <- app_assoc. }
  assert (X : ∀ c, c ∈ extra → c ∉ order ++ ready ++ [n]).
  { intros c [? Hc]%E3 Hr%R. rewrite Hr in Hc. injection Hc. lia. }
  split.
  - rewrite Pe. apply NoDup_app. split_and!; [done| |done]. intros c H1 H2. by apply (X c).
  - apply set_eq. intros c. rewrite <- D, !elem_of_dom, E2. by rewrite fmap_is_Some.
  - intros c e. rewrite E2. intros (e0 & Hc & ->)%fmap_Some_1. rewrite (Dg c e0 Hc).
    specialize (P c). lia.
  - intros c. rewrite Pe, elem_of_app, R, E3, E2. split.
    + intros [->|[? ->]]; cbn; f_equal; lia.
    + intros (e0 & Hc & He)%fmap_Some_1. rewrite Hc. rewrite (Dg c e0 Hc) in *.
      destruct (decide (pending_deps order c = 0)) as [->|]; [by left|right].
      specialize (P c). split; [lia|f_equal; lia].
  - intros pre c post E d Hd. destruct post as [|y post _] using rev_ind.
    + apply app_inj_tail in E as [<- <-].
      assert (Hn : indeg !! n = Some 0) by (apply R; set_solver).
      apply Dg in Hn. symmetry in Hn. rewrite pending_zero in Hn. by apply Hn.
    + rewrite app_comm_cons, app_assoc in E. apply app_inj_tail in E as [E ->].
      exact (F pre c post E d Hd).
Qed.

Lemma topo_inv_bound indeg ready order :
  topo_inv indeg ready order → length order + length ready ≤ size (graph_nodes edges).
Proof.
  intros [N D _ R _]. rewrite <- length_app.
  rewrite <- (size_list_to_set (C:=gset string) _ N). apply (subseteq_size (C:=gset string)).
  intros c. rewrite elem_of_list_to_set, R, <- D, elem_of_dom. eauto.
Qed.

Lemma topo_loop_spec fuel indeg ready order :
  topo_inv indeg ready order → size (graph_nodes edges) < fuel + length order →
  ∃ indeg', topo_inv indeg' [] (topo_loop fuel (reverse_edges edges) indeg ready order).
Proof.
  revert indeg ready order. induction fuel as [|fuel IH]; intros indeg ready order I L.
  { pose proof (topo_inv_bound _ _ _ I). lia. }
  cbn [topo_loop]. destruct (pop ready) as [[n ready']|] eqn:E.
  - apply pop_Some in E. subst ready. pose proof (topo_step _ _ _ _ I) as S.
    destruct (foldl relax _ _) as [indeg' ready]. apply IH; [done|].
    rewrite length_app. cbn. lia.
  - apply pop_None in E. subst ready. eauto.
Qed.

Lemma topo_inv_init :
  topo_inv (indegrees edges)
    (order_ready (filter (λ n, indegrees edges !! n = Some 0) (keys (indegrees edges)))) [].
Proof.
  assert (E : ∀ c, c ∈ order_ready (filter (λ n, indegrees edges !! n = Some 0)
    (keys (indegrees edges))) ↔ indegrees edges !! c = Some 0).
  { intros c. unfold order_ready.
    rewrite reverse_Permutation, sort_strings_perm, list_elem_of_filter, elem_of_keys.
    split; [by intros []|]. intros H. split; [done|]. by rewrite H. }
  split; cbn.
  - unfold order_ready. rewrite reverse_Permutation, sort_strings_perm.
    apply NoDup_filter, NoDup_fst_map_to_list.
  - apply indegrees_dom.
  - intros c e H. pose proof (indegrees_val edges c) as V. rewrite H in V. cbn in V.
    unfold pending_deps. rewrite V. f_equal. symmetry. clear.
    induction (deps c) as [|d l IH]; [done|]. rewrite filter_cons_True by set_solver. by f_equal.
  - done.
  - by intros [] ? ? ?.
Qed.

Lemma topo_end :
  ∃ indeg order,
    topo_inv indeg [] order ∧
    topo_order edges = if length order =? size (graph_nodes edges) then Some order else None.
Proof.
  assert (Sz : size (indegrees edges) = size (graph_nodes edges)).
  { by rewrite <- indegrees_dom, size_dom. }
  destruct (topo_loop_spec (S (size (indegrees edges))) _ _ _ topo_inv_init) as [indeg I].
  { cbn. rewrite Sz. lia. }
  eexists indeg, _. split; [exact I|]. unfold topo_order. by rewrite <- Sz.
Qed.

Lemma topo_complete indeg order :
  topo_inv indeg [] order → length order = size (graph_nodes edges) →
  ∀ n, n ∈ order ↔ n ∈ graph_nodes edges.
Proof.
  intros I L. destruct I as [N D _ R _]. rewrite app_nil_r in N.
  assert (Sub : (list_to_set order : gset string) ⊆ graph_nodes edges).
  { intros c. rewrite elem_of_list_to_set. rewrite <- (app_nil_r order), R, <- D, elem_of_dom. eauto. }
  intros n. rewrite <- (elem_of_list_to_set (C:=gset string)).
  destruct (decide (graph_nodes edges ⊆ (list_to_set order : gset string))) as [S|S]; [set_solver|].
  assert ((list_to_set order : gset string) ⊂ graph_nodes edges) as Q%subset_size by done.
  rewrite size_list_to_set in Q by done. lia.
Qed.

Lemma providers_first_sn order :
  providers_first edges order → ∀ n, n ∈ order → sn (dep_edge edges) n.
Proof.
  induction order as [|x l IH] using rev_ind; intros P n Hn; [set_solver|].
  assert (Pl : providers_first edges l).
  { intros pre c post -> d. apply (P pre c (post ++ [x])). by rewrite <- app_assoc. }
  apply elem_of_app in Hn as [?|?%list_elem_of_singleton]; [by apply IH|]. subst x.
  constructor. intros d E. apply IH; [done|]. by apply (P l n []).
Qed.
End topo.

(** ** The consumers worklist *)

Lemma visit_fold ds : ∀ seen out stack,
  ∃ l, foldl visit_consumer (seen, out, stack) ds
         = (list_to_set l ∪ seen, out ++ l, stack ++ l) ∧
       NoDup l ∧ (∀ x, x ∈ l ↔ x ∈ ds ∧ x ∉ seen).
Proof.
  induction ds as [|d ds IH]; intros seen out stack; cbn [foldl].
  { exists []. rewrite !app_nil_r. cbn. rewrite (left_id_L ∅ (∪)).
    split_and!; [done|constructor|]. intros x. rewrite elem_of_nil. naive_solver. }
  cbn [visit_consumer]. case_bool_decide as Hd.
  - destruct (IH seen out stack) as (l & E & N & H). exists l. split_and!; [done|done|].
    intros x. rewrite H, elem_of_cons. naive_solver.
  - destruct (IH ({[d]} ∪ seen) (out ++ [d]) (stack ++ [d])) as (l & E & N & H).
    exists (d :: l). split_and!.
    + rewrite E, <- !app_assoc. cbn. do 2 f_equal. rewrite !(assoc_L (∪)). f_equal.
      apply (comm_L (∪)).
    + constructor; [|done]. rewrite H, elem_of_union, elem_of_singleton. naive_solver.
    + intros x. rewrite !elem_of_cons, H, elem_of_union, elem_of_singleton.
      destruct (decide (x = d)) as [->|]; naive_solver.
Qed.

Section consumers.
Context (edges : Edges) (target : string).

(** [x] is the target or depends on it, directly or not. *)
Notation reaches := (rtc (flip (dep_edge edges)) target).

Record cons_inv (done : gset string) (seen : gset string) (out stack : list string) : Prop := {
  ci_seen : ∀ x, x ∈ seen ↔ x ∈ done ∨ x ∈ stack;
  ci_nodup : NoDup stack;
  ci_disj : ∀ x, x ∈ done → x ∉ stack;
  ci_out_nodup : NoDup out;
  ci_out : ∀ x, x ∈ out ↔ x ∈ seen ∧ x ≠ target;
  ci_closed : ∀ x c, x ∈ done → dep_edge edges c x → c ∈ seen;
  ci_target : target ∈ seen;
  ci_sound : ∀ x, x ∈ seen → reaches x;
  ci_nodes : seen ⊆ {[target]} ∪ graph_nodes edges;
}.

Lemma cons_step done seen out stack n :
  cons_inv done seen out (stack ++ [n]) →
  let '(seen', out', stack') :=
    foldl visit_consumer (seen, out, stack)
      (sort_strings (default [] (reverse_edges edges !! n))) in
  cons_inv ({[n]} ∪ done) seen' out' stack' ∧ n ∉ done.
Proof.
  intros [S N D On O C T R G].
  destruct (visit_fold (sort_strings (default [] (reverse_edges edges !! n))) seen out stack)
    as (l & -> & Nl & L).
  assert (L' : ∀ x, x ∈ l ↔ dep_edge edges x n ∧ x ∉ seen).
  { intros x. by rewrite L, elem_of_sort_strings, elem_of_reverse_edges. }
  apply NoDup_app in N as (N1 & N2 & _).
  split; [|intros Hn; apply (D n Hn); set_solver]. split.
  - intros x. rewrite elem_of_union, elem_of_list_to_set, S. set_solver.
  - apply NoDup_app. split_and!; [done| |done]. intros x Hx. rewrite L', S. set_solver.
  - intros x. rewrite elem_of_union, elem_of_singleton, elem_of_app, L', S. set_solver.
  - apply NoDup_app. split_and!; [done| |done]. intros x Hx. rewrite L'. set_solver.
  - intros x. rewrite elem_of_app, O, elem_of_union, elem_of_list_to_set, L'. set_solver.
  - intros x c [->%elem_of_singleton|Hx]%elem_of_union E.
    + destruct (decide (c ∈ seen)); [set_solver|]. apply elem_of_union_l, elem_of_list_to_set, L'. done.
    + apply elem_of_union_r. by apply (C x).
  - set_solver.
  - intros x [[E _]%elem_of_list_to_set%L'|Hx]%elem_of_union; [|by apply R].
    apply rtc_r with n; [|done]. apply R, S. set_solver.
  - intros x [[E _]%elem_of_list_to_set%L'|Hx]%elem_of_union; [|by apply G].
    apply dep_edge_node in E as [? _]. set_solver.
Qed.

Lemma consumers_loop_spec fuel : ∀ done seen out stack,
  cons_inv done seen out stack → S (size (graph_nodes edges)) < fuel + size done →
  ∃ done' seen', cons_inv done' seen' (consumers_loop fuel (reverse_edges edges) seen out stack) [].
Proof.
  induction fuel as [|fuel IH]; intros done seen out stack I L.
  { assert (size done ≤ S (size (graph_nodes edges))); [|lia].
    transitivity (size ({[target]} ∪ graph_nodes edges)).
    - apply (subseteq_size (C:=gset string)). intros x Hx. apply (ci_nodes _ _ _ _ I).
      apply (ci_seen _ _ _ _ I). by left.
    - rewrite size_union_alt, size_singleton.
      assert (size (graph_nodes edges ∖ {[target]}) ≤ size (graph_nodes edges)); [|lia].
      apply (subseteq_size (C:=gset string)). set_solver. }
  cbn [consumers_loop]. destruct (pop stack) as [[n stack']|] eqn:E.
  - apply pop_Some in E. subst stack. pose proof (cons_step _ _ _ _ _ I) as P.
    destruct (foldl visit_consumer _ _) as [[seen' out'] stack'']. destruct P as [I' Nd].
    apply (IH ({[n]} ∪ done)); [done|]. rewrite size_union by set_solver.
    rewrite size_singleton. lia.
  - apply pop_None in E. subst stack. eauto.
Qed.

Lemma consumers_end :
  ∃ done' seen',
    cons_inv done' seen'
      (consumers_loop (S (S (size (graph_nodes edges)))) (reverse_edges edges) {[target]} []
         [target]) [].
Proof.
  apply (consumers_loop_spec _ ∅); [|rewrite size_empty; lia].
  split; try set_solver; repeat constructor; set_solver.
Qed.
End consumers.

(** ** Interface names *)

Lemma display_guard n : ∃ b a, digits n = b ++ [a] ∧ ws_free a = true ∧ at_sign ∉ digits n.
Proof.
  pose proof (digits_all n) as A. destruct (digits_head n) as (a & l & E & _).
  destruct (digits n) as [|a' b' _] using rev_ind; [done|].
  exists b', a'. split; [done|]. apply Forall_app in A as [A1 A2].
  split; [apply is_ascii_digit_ws_free; by rewrite Forall_singleton in A2|].
  intros [H|H%list_elem_of_singleton]%elem_of_app.
  - rewrite Forall_forall in A1. by apply A1 in H.
  - subst a'. rewrite Forall_singleton in A2. done.
Qed.

Lemma split_norm base m :
  trimmed_start (chars base) → (m ≤ u64_max)%N →
  split_cap (norm_cap base (Some m)) = (base, Some m).
Proof.
  intros T L. cbn [norm_cap].
  destruct (display_guard m) as (b & a & E & W & NA).
  assert (C : chars (base +:+ "@" +:+ display m) = chars base ++ at_sign :: digits m).
  { by rewrite !chars_app. }
  assert (Tr : trim (base +:+ "@" +:+ display m) = base +:+ "@" +:+ display m).
  { unfold trim. rewrite C, trim_start_l_guard by (try done; by apply trimmed_start_l).
    rewrite E. replace (chars base ++ at_sign :: b ++ [a]) with ((chars base ++ at_sign :: b) ++ [a])
      by (by rewrite <- app_assoc). rewrite trim_end_l_guard by done.
    rewrite <- app_assoc, <- app_comm_cons, <- E, <- C. apply of_chars_chars. }
  unfold split_cap. rewrite Tr, C, rsplit_at_app by done.
  rewrite parse_u64_display by done. by rewrite of_chars_chars.
Qed.

(** The base of a split name is trimmed in front; without a major it is a fixed
    point of [split_cap]. *)
Lemma split_cap_base s base major :
  split_cap s = (base, major) →
  trimmed_start (chars base) ∧
  match major with
  | Some m => (m ≤ u64_max)%N
  | None => split_cap base = (base, None)
  end.
Proof.
  destruct (trim_trimmed s) as [T1 T2]. pose proof (trim_id _ T1 T2) as Ti.
  unfold split_cap. destruct (rsplit_at at_sign (chars (trim s))) as [[b m]|] eqn:E.
  - destruct (parse_u64 m) as [n|] eqn:P; intros [= <- <-].
    + apply rsplit_at_Some in E. rewrite E in T1. rewrite chars_of_chars.
      split; [by apply strip_any_prefix in T1|]. by eapply parse_u64_bound.
    + split; [done|]. by rewrite Ti, E, P.
  - intros [= <- <-]. split; [done|]. by rewrite Ti, E.
Qed.

Lemma split_norm_split s base major :
  split_cap s = (base, major) → split_cap (norm_cap base major) = (base, major).
Proof.
  intros H. destruct (split_cap_base _ _ _ H) as [T M]. destruct major as [m|]; [|done].
  by apply split_norm.
Qed.

(** Numbers of a JSON document fit their width. *)
Fixpoint json_ok (v : Value) : Prop :=
  match v with
  | JNumber (PosInt n) => (n ≤ u64_max)%N
  | JArray l => (fix all l := match l with [] => True | v :: l => json_ok v ∧ all l end) l
  | JObject m =>
      (fix all m := match m with [] => True | (_, v) :: m => json_ok v ∧ all m end) m
  | _ => True
  end.

Lemma json_ok_get_u64 v key n : json_ok v → get_u64 key v = Some n → (n ≤ u64_max)%N.
Proof.
  unfold get_u64, get. destruct v as [| | | | |m]; try done. cbn.
  induction m as [|[k v] m IH]; cbn; [done|]. intros [Hv Hm].
  case_bool_decide; cbn; [|by apply IH]. destruct v as [| |[]| | |]; try done.
  cbn. by intros [= <-].
Qed.

Lemma json_ok_get v key x : json_ok v → get key v = Some x → json_ok x.
Proof.
  unfold get. destruct v as [| | | | |m]; try done. cbn.
  induction m as [|[k v] m IH]; cbn; [done|]. intros [Hv Hm].
  case_bool_decide; [by intros [= <-]|by apply IH].
Qed.

Lemma json_ok_array l x : json_ok (JArray l) → x ∈ l → json_ok x.
Proof.
  cbn. induction l as [|y l IH]; [set_solver|]. intros [Hy Hl] [->|Hx]%elem_of_cons; auto.
Qed.

(** The interface splits back into the stored base and major. *)
Definition canonical_requirement (r : Requirement) : Prop :=
  split_cap (rq_interface r) = (rq_base r, rq_major r) ∧ rq_base r ≠ "".

Lemma parse_require_value_canonical v r :
  json_ok v → parse_require_value v = Ok r → canonical_requirement r.
Proof.
  intros J. unfold parse_require_value, str_is_empty, canonical_requirement.
  destruct v as [| | |s| |m]; try done.
  - case_bool_decide; [done|]. destruct (split_cap s) as [base major] eqn:E.
    case_bool_decide; [done|]. intros [= <-]. cbn. eauto using split_norm_split.
  - set (iface := trim _). case_bool_decide; [done|].
    destruct (split_cap iface) as [base major] eqn:E. case_bool_decide; [done|].
    destruct (get_u64 "major" (JObject m)) as [k|] eqn:K.
    + cbn [fst]. rewrite bool_decide_eq_false_2 by done. intros [= <-].
      cbn [rq_interface rq_base rq_major]. split; [|done].
      apply split_norm; [by apply (split_cap_base _ _ _ E)|by apply (json_ok_get_u64 _ _ _ J K)].
    + intros [= <-]. cbn. eauto using split_norm_split.
Qed.

(** ** Properties *)

(** a parsed requirement is canonical. Whatever form the manifest entry has
    (string or object, with or without an explicit major), the interface the
    kernel stores splits back into the base and major it stores, the base is not
    empty, and a provider of that very interface satisfies it. *)
Theorem parse_require_canonical (v : Value) (r : Requirement) :
  json_ok v → parse_require_value v = Ok r →
  split_cap (rq_interface r) = (rq_base r, rq_major r) ∧ rq_base r ≠ "" ∧
  cap_satisfies (rq_interface r) r = true.
Proof.
  intros J H. destruct (parse_require_value_canonical v r J H) as [G1 G2].
  split_and!; [done|done|]. unfold cap_satisfies. rewrite G1.
  rewrite bool_decide_eq_true_2 by done. cbn. destruct (rq_major r); [apply N.eqb_refl|done].
Qed.

Lemma parse_require_canonical_witness :
  cap_satisfies "workspace.fs@2"
    (mkRequirement "workspace.fs@2" "workspace.fs" (Some 2%N) (Some "ws")) = true.
Proof.
  apply (parse_require_canonical
    (JObject [("interface", JString " workspace.fs "); ("major", JNumber (PosInt 2));
              ("provider", JString "ws ")])
    (mkRequirement "workspace.fs@2" "workspace.fs" (Some 2%N) (Some "ws"))).
  - vm_compute. repeat split; congruence.
  - vm_compute. reflexivity.
Defined.

(** cycle detection is sound and complete. When [find_cycle] reports a path,
    it is a closed path of dependency edges; it reports none exactly when the
    dependency graph has no cycle. The recursion never runs out of fuel. *)
Theorem find_cycle_correct (edges : Edges) :
  match find_cycle edges with
  | Some cyc => is_cycle edges cyc
  | None => acyclic edges
  end.
Proof.
  destruct (find_cycle_cases edges) as [(cyc & -> & H)|[-> H]]; [done|by apply sn_acyclic].
Qed.

(** C38: [topo_order] returns an order exactly when the graph is acyclic; the
    order lists every node once, providers before their consumers. *)
Theorem topo_order_correct (edges : Edges) :
  match topo_order edges with
  | Some order =>
      acyclic edges ∧ NoDup order ∧ providers_first edges order ∧
      (∀ n, n ∈ order ↔ n ∈ graph_nodes edges)
  | None => ¬ acyclic edges
  end.
Proof.
  destruct (topo_end edges) as (indeg & order & I & ->).
  destruct (Nat.eqb_spec (length order) (size (graph_nodes edges))) as [L|L].
  - pose proof (topo_complete _ _ _ I L) as C. split_and!; [|by destruct I; simplify_list_eq|apply I|done].
    apply sn_acyclic. intros n. destruct (decide (n ∈ graph_nodes edges)) as [G|G].
    + eapply providers_first_sn; [apply I|by apply C].
    + constructor. intros d [G' _]%dep_edge_node. done.
  - intros A. destruct (find_cycle_cases edges) as [(cyc & _ & H)|[_ Sn]].
    { by apply is_cycle_not_acyclic in H. }
    apply L. assert (In : ∀ n, n ∈ graph_nodes edges → n ∈ order).
    { intros n. induction (Sn n) as [n _ IH]. intros G.
      rewrite <- (app_nil_r order). apply (ti_ready _ _ _ _ I).
      pose proof G as G'. rewrite <- (ti_dom _ _ _ _ I), elem_of_dom in G'. destruct G' as [e He].
      rewrite He. f_equal. rewrite (ti_deg _ _ _ _ I _ _ He). apply pending_zero.
      intros d E. apply IH; [done|]. by apply dep_edge_node in E as [_ ?]. }
    pose proof (topo_inv_bound _ _ _ _ I) as B. cbn in B. pose proof (ti_nodup _ _ _ _ I) as N.
    rewrite app_nil_r in N. rewrite <- (size_list_to_set (C:=gset string) _ N) in *.
    assert (graph_nodes edges ⊆ (list_to_set order : gset string)) as Q%subseteq_size by set_solver.
    lia.
Qed.

(** [transitive_consumers target] lists, in alphabetical order and without
    repetition, exactly the nodes other than [target] that depend on it directly
    or through other nodes. *)
Theorem transitive_consumers_correct (target : string) (edges : Edges) :
  let l := transitive_consumers target edges in
  StronglySorted String.le l ∧ NoDup l ∧
  (∀ x, x ∈ l ↔ x ≠ target ∧ rtc (flip (dep_edge edges)) target x).
Proof.
  cbn zeta. unfold transitive_consumers.
  destruct (consumers_end edges target) as (done & seen & I).
  split; [apply sort_strings_sorted|]. rewrite sort_strings_perm.
  split; [apply I|]. intros x. rewrite elem_of_sort_strings, (ci_out _ _ _ _ _ _ I). split.
  - intros [Hx N]. split; [done|]. by apply (ci_sound _ _ _ _ _ _ I).
  - intros [N R]. split; [|done].
    assert (H : ∀ y, y ∈ seen → rtc (flip (dep_edge edges)) y x → x ∈ seen).
    { clear N R. intros y Hy Ry. induction Ry as [|y z w E _ IH]; [done|]. apply IH.
      apply (ci_closed _ _ _ _ _ _ I y); [|done].
      by apply (ci_seen _ _ _ _ _ _ I) in Hy as [?|?%not_elem_of_nil]. }
    apply (H target); [apply (ci_target _ _ _ _ _ _ I)|done].
Qed.
