(* ===== verification/Calls.v ===== *)
(** * Admission tickets and confirmed effects ([calls.rs])

    [CallsTable] without its mutex and condition variable: each method is one
    critical section, a function on the table. The cooperative cancel flag of a
    ticket ([Arc<AtomicBool>], shared by the record, its clones and the worker)
    is a cell of the [flags] store, and the record holds its name.
    [Instant::now()] and the wall clock are arguments. *)

From S2P Require Import Prelude RustStd Json.

Definition MAX_INFLIGHT_CALLS : nat := 256.
Definition MAX_EFFECTS : nat := 1024.

Inductive WithdrawPolicy : Type := PolicyDrain | PolicyCancel.

#[export] Instance WithdrawPolicy_eq_dec : EqDecision WithdrawPolicy.
Proof. solve_decision. Defined.

Definition policy_as_str (p : WithdrawPolicy) : string :=
  match p with PolicyDrain => "drain" | PolicyCancel => "cancel" end.

Definition policy_parse (s : string) : option WithdrawPolicy :=
  let s := to_ascii_lowercase (trim s) in
  if bool_decide (s = "drain") then Some PolicyDrain
  else if bool_decide (s = "cancel") then Some PolicyCancel
  else None.

Record CallPolicy : Type := mkCallPolicy { on_withdraw : WithdrawPolicy; drain_ms : N }.

#[export] Instance CallPolicy_eq_dec : EqDecision CallPolicy.
Proof. solve_decision. Defined.

Definition policy_default : CallPolicy := mkCallPolicy PolicyCancel 0.
Definition policy_drain (ms : N) : CallPolicy := mkCallPolicy PolicyDrain ms.

Inductive TicketState : Type := TkAdmitted | TkCommitted | TkCancelled | TkExpired.

#[export] Instance TicketState_eq_dec : EqDecision TicketState.
Proof. solve_decision. Defined.

Definition ticket_state_as_str (s : TicketState) : string :=
  match s with
  | TkAdmitted => "Admitted"
  | TkCommitted => "Committed"
  | TkCancelled => "Cancelled"
  | TkExpired => "Expired"
  end.

Record DepChild : Type := mkDepChild {
  dc_parent : TicketId;
  dc_binding : string;
  dc_consumer : InstanceId;
  dc_session : string;
  dc_grant_consumer : string;
  dc_grant_cap : string;
  dc_grant_rev : N;
  dc_depth : N;
  dc_remote_peer : option string;
}.

#[export] Instance DepChild_eq_dec : EqDecision DepChild.
Proof. solve_decision. Defined.

Record TicketRecord : Type := mkTicketRecord {
  tk_id : TicketId;
  tk_cap : string;
  tk_logical : string;
  tk_instance : InstanceId;
  tk_generation : N;
  tk_context : ContextId;
  tk_epoch : N;
  tk_policy : CallPolicy;
  tk_state : TicketState;
  tk_cancel : N;                 (* the cancel cell *)
  tk_pins : list ResourceHandle;
  tk_opened_at : Instant;
  tk_drain_until : option Instant;
  tk_cancel_reason : option string;
  tk_dep : option DepChild;
}.

(** Field assignments on a record. *)
Definition tk_with (t : TicketRecord) (st : TicketState) (until : option Instant)
    (reason : option string) (dep : option DepChild) : TicketRecord :=
  mkTicketRecord (tk_id t) (tk_cap t) (tk_logical t) (tk_instance t) (tk_generation t)
    (tk_context t) (tk_epoch t) (tk_policy t) st (tk_cancel t) (tk_pins t) (tk_opened_at t)
    until reason dep.

Definition tk_set_state (st : TicketState) (t : TicketRecord) : TicketRecord :=
  tk_with t st (tk_drain_until t) (tk_cancel_reason t) (tk_dep t).

(** [t.state = st; t.cancel_reason = Some(reason)]. *)
Definition tk_stop (st : TicketState) (reason : string) (t : TicketRecord) : TicketRecord :=
  tk_with t st (tk_drain_until t) (Some reason) (tk_dep t).

Definition is_open (t : TicketRecord) : bool := bool_decide (tk_state t = TkAdmitted).

Definition elapsed_ms (now : Instant) (t : TicketRecord) : N :=
  saturating_sub now (tk_opened_at t).

Definition drain_left_ms (now : Instant) (t : TicketRecord) : option N :=
  (λ u, if (now <? u)%N then (u - now)%N else 0%N) <$> tk_drain_until t.

Record CommittedEffect : Type := mkCommittedEffect {
  ef_seq : N;
  ef_ticket : TicketId;
  ef_logical : string;
  ef_instance : InstanceId;
  ef_generation : N;
  ef_kind : string;
  ef_payload : Value;
  ef_at_ms : N;
}.

Record CallsTable : Type := mkCallsTable {
  next_ticket : N;
  next_effect : N;
  tickets : gmap N TicketRecord;
  effects : list CommittedEffect;
  cleanup_claims : gset N;
  next_flag : N;
  flags : gmap N bool;
}.

Definition calls_new : CallsTable := mkCallsTable 1 1 ∅ [] ∅ 0 ∅.

Definition with_tickets (m : gmap N TicketRecord) (fl : gmap N bool) (t : CallsTable)
    : CallsTable :=
  mkCallsTable (next_ticket t) (next_effect t) m (effects t) (cleanup_claims t) (next_flag t) fl.

Definition with_claims (s : gset N) (t : CallsTable) : CallsTable :=
  mkCallsTable (next_ticket t) (next_effect t) (tickets t) (effects t) s (next_flag t) (flags t).

(** [Arc::new(AtomicBool::new(false))]: the cell a caller passes to [alloc]. *)
Definition new_flag (t : CallsTable) : N * CallsTable :=
  (next_flag t,
   mkCallsTable (next_ticket t) (next_effect t) (tickets t) (effects t) (cleanup_claims t)
     (next_flag t + 1) (<[next_flag t := false]> (flags t))).

(** [cancel.load()]. *)
Definition flag_value (f : N) (t : CallsTable) : bool := default false (flags t !! f).

Definition alloc (cap logical : string) (instance : InstanceId) (generation : N)
    (context : ContextId) (epoch : N) (policy : CallPolicy) (pins : list ResourceHandle)
    (cancel : N) (now : Instant) (t : CallsTable) : TicketId * CallsTable :=
  let id := next_ticket t in
  let rec := mkTicketRecord id cap logical instance generation context epoch policy TkAdmitted
               cancel pins now None None None in
  (id,
   mkCallsTable (id + 1) (next_effect t) (<[id := rec]> (tickets t)) (effects t)
     (cleanup_claims t) (next_flag t) (flags t)).

Definition set_dep_meta (id : TicketId) (meta : DepChild) (t : CallsTable) : bool * CallsTable :=
  match tickets t !! id with
  | None => (false, t)
  | Some r =>
      (true,
       with_tickets
         (<[id := tk_with r (tk_state r) (tk_drain_until r) (tk_cancel_reason r) (Some meta)]>
            (tickets t)) (flags t) t)
  end.

Definition open_children_of (parent : TicketId) (t : CallsTable) : list TicketRecord :=
  values_where (λ r, is_some_and (λ d, (dc_parent d =? parent)%N) (tk_dep r) && is_open r)
    (tickets t).

(** The loop the three revocations share: every open ticket with [mine] is
    [TkCancelled], its cell set and its reason recorded; the marked records are
    returned. *)
Definition cancel_where (mine : TicketRecord → bool) (reason : string) (t : CallsTable)
    : list TicketRecord * CallsTable :=
  let sel r := mine r && is_open r in
  let out := tk_stop TkCancelled reason <$> values_where sel (tickets t) in
  (out,
   with_tickets ((λ r, if sel r then tk_stop TkCancelled reason r else r) <$> tickets t)
     (foldr (λ r fl, <[tk_cancel r := true]> fl) (flags t) out) t).

Definition revoke_descendants (parent : TicketId) (reason : string) (t : CallsTable)
    : list TicketRecord * CallsTable :=
  cancel_where (λ r, is_some_and (λ d, (dc_parent d =? parent)%N) (tk_dep r)) reason t.

Definition revoke_children_of_consumer (consumer : InstanceId) (reason : string)
    (t : CallsTable) : list TicketRecord * CallsTable :=
  cancel_where (λ r, is_some_and (λ d, (dc_consumer d =? consumer)%N) (tk_dep r)) reason t.

Definition revoke_grant_children (consumer cap : string) (keep_rev : option N)
    (reason : string) (t : CallsTable) : list TicketRecord * CallsTable :=
  cancel_where
    (λ r, is_some_and
       (λ d, bool_decide (dc_grant_consumer d = consumer) && bool_decide (dc_grant_cap d = cap)
             && negb (bool_decide (Some (dc_grant_rev d) = keep_rev))) (tk_dep r)) reason t.

Definition get_ticket (id : TicketId) (t : CallsTable) : option TicketRecord := tickets t !! id.

Definition mark_committed_if_admitted (id : TicketId) (t : CallsTable) : bool * CallsTable :=
  match tickets t !! id with
  | Some r =>
      if is_open r then
        (true, with_tickets (<[id := tk_set_state TkCommitted r]> (tickets t)) (flags t) t)
      else (false, t)
  | None => (false, t)
  end.

(** [t.state = st; t.cancel.store(true); t.cancel_reason = Some(reason)]. *)
Definition stop_ticket (id : TicketId) (r : TicketRecord) (st : TicketState) (reason : string)
    (t : CallsTable) : CallsTable :=
  with_tickets (<[id := tk_stop st reason r]> (tickets t)) (<[tk_cancel r := true]> (flags t)) t.

Definition expire_ticket (id : TicketId) (t : CallsTable) : bool * CallsTable :=
  match tickets t !! id with
  | Some r =>
      if is_open r then (true, stop_ticket id r TkExpired "deadline-exceeded" t) else (false, t)
  | None => (false, t)
  end.

Definition set_state (id : TicketId) (st : TicketState) (t : CallsTable) : bool * CallsTable :=
  match tickets t !! id with
  | None => (false, t)
  | Some r => (true, with_tickets (<[id := tk_set_state st r]> (tickets t)) (flags t) t)
  end.

Definition set_drain_until (id : TicketId) (until : Instant) (t : CallsTable)
    : bool * CallsTable :=
  match tickets t !! id with
  | None => (false, t)
  | Some r =>
      (true,
       if is_open r then
         with_tickets
           (<[id := tk_with r (tk_state r) (Some until) (tk_cancel_reason r) (tk_dep r)]>
              (tickets t)) (flags t) t
       else t)
  end.

Definition cancel (id : TicketId) (reason : string) (t : CallsTable) : bool * CallsTable :=
  match tickets t !! id with
  | None => (false, t)
  | Some r =>
      if negb (is_open r) then (false, t) else (true, stop_ticket id r TkCancelled reason t)
  end.

(** The test of the [expire_overdue] loop. *)
Definition overdue (now : Instant) (r : TicketRecord) : bool :=
  is_open r && is_some_and (λ until, (until <=? now)%N) (tk_drain_until r).

Definition expire_overdue (now : Instant) (t : CallsTable) : list TicketId * CallsTable :=
  let out := values_where (overdue now) (tickets t) in
  (tk_id <$> out,
   with_tickets
     ((λ r, if overdue now r then tk_stop TkExpired "drain-exceeded" r else r) <$> tickets t)
     (foldr (λ r fl, <[tk_cancel r := true]> fl) (flags t) out) t).

Definition remove (id : TicketId) (t : CallsTable) : option TicketRecord * CallsTable :=
  (tickets t !! id, with_tickets (delete id (tickets t)) (flags t) t).

Definition pending_for (inst : InstanceId) (t : CallsTable) : list TicketRecord :=
  sort_by_key tk_id (values_where (λ r, (tk_instance r =? inst)%N) (tickets t)).

Definition pending_count (inst : InstanceId) (t : CallsTable) : nat :=
  length (values_where (λ r, (tk_instance r =? inst)%N) (tickets t)).

Definition inflight_count (t : CallsTable) : nat := size (tickets t).

Definition calls_snapshot (t : CallsTable) : list TicketRecord :=
  sort_by_key tk_id (map_to_list (tickets t)).*2.

(** [wait_settled] as a function of what it observes each time it holds the
    lock: the table and the clock, at the first test and after every wake-up.
    [None]: it is still waiting after these observations. *)
Fixpoint wait_settled (inst : InstanceId) (until : Instant) (obs : list (CallsTable * Instant))
    : option bool :=
  match obs with
  | [] => None
  | (t, now) :: obs =>
      if pending_count inst t =? 0 then Some true
      else if (until <=? now)%N then Some false
      else wait_settled inst until obs
  end.

Definition push_effect (ticket : TicketId) (logical : string) (instance : InstanceId)
    (generation : N) (kind : string) (payload : Value) (at_ms : N) (t : CallsTable)
    : CommittedEffect * CallsTable :=
  let e := mkCommittedEffect (next_effect t) ticket logical instance generation kind payload
             at_ms in
  let l := effects t ++ [e] in
  (e,
   mkCallsTable (next_ticket t) (next_effect t + 1) (tickets t)
     (drop (length l - MAX_EFFECTS) l) (cleanup_claims t) (next_flag t) (flags t)).

Definition effects_for (logical : option string) (t : CallsTable) : list CommittedEffect :=
  List.filter
    (λ e, match logical with Some l => bool_decide (ef_logical e = l) | None => true end)
    (effects t).

Definition effects_len (t : CallsTable) : nat := length (effects t).

Definition try_claim_cleanup (inst : InstanceId) (t : CallsTable) : bool * CallsTable :=
  (negb (bool_decide (inst ∈ cleanup_claims t)), with_claims ({[inst]} ∪ cleanup_claims t) t).

Definition release_cleanup_claim (inst : InstanceId) (t : CallsTable) : CallsTable :=
  with_claims (cleanup_claims t ∖ {[inst]}) t.

(** The operations as data. [OpAlloc] creates the cell and the ticket, as every
    caller of [alloc] does. *)
Inductive CallOp : Type :=
| OpAlloc (cap logical : string) (instance generation context epoch : N) (policy : CallPolicy)
    (pins : list N) (now : N)
| OpSetDep (id : N) (meta : DepChild)
| OpRevokeDescendants (parent : N) (reason : string)
| OpRevokeConsumer (consumer : N) (reason : string)
| OpRevokeGrant (consumer cap : string) (keep : option N) (reason : string)
| OpMarkCommitted (id : N)
| OpExpireTicket (id : N)
| OpSetDrain (id until : N)
| OpCancel (id : N) (reason : string)
| OpExpireOverdue (now : N)
| OpRemove (id : N)
| OpPushEffect (id : N) (logical : string) (instance generation : N) (kind : string)
    (payload : Value) (at_ms : N)
| OpTryClaim (inst : N)
| OpReleaseClaim (inst : N).

Definition call_apply (o : CallOp) (t : CallsTable) : CallsTable :=
  match o with
  | OpAlloc cap l i g c e p pins now =>
      let '(f, t) := new_flag t in (alloc cap l i g c e p pins f now t).2
  | OpSetDep id m => (set_dep_meta id m t).2
  | OpRevokeDescendants p r => (revoke_descendants p r t).2
  | OpRevokeConsumer c r => (revoke_children_of_consumer c r t).2
  | OpRevokeGrant c cap k r => (revoke_grant_children c cap k r t).2
  | OpMarkCommitted id => (mark_committed_if_admitted id t).2
  | OpExpireTicket id => (expire_ticket id t).2
  | OpSetDrain id u => (set_drain_until id u t).2
  | OpCancel id r => (cancel id r t).2
  | OpExpireOverdue now => (expire_overdue now t).2
  | OpRemove id => (remove id t).2
  | OpPushEffect id l i g k p a => (push_effect id l i g k p a t).2
  | OpTryClaim i => (try_claim_cleanup i t).2
  | OpReleaseClaim i => release_cleanup_claim i t
  end.

Definition call_run (ops : list CallOp) (t : CallsTable) : CallsTable :=
  foldl (λ t o, call_apply o t) t ops.

(** ** The table invariant *)

Definition stopped (st : TicketState) : Prop := st = TkCancelled ∨ st = TkExpired.

(** The ring holds the last effects, numbered without gaps up to [next - 1]. *)
Definition ring_ok (next : N) (l : list CommittedEffect) : Prop :=
  ∃ first, next = (first + N.of_nat (length l))%N ∧ (1 ≤ first)%N ∧
    length l ≤ MAX_EFFECTS ∧ (1 < first → length l = MAX_EFFECTS)%N ∧
    ∀ k e, l !! k = Some e → ef_seq e = (first + N.of_nat k)%N.

Record calls_wf (t : CallsTable) : Prop := {
  cw_id : ∀ id r, tickets t !! id = Some r → tk_id r = id ∧ (id < next_ticket t)%N;
  cw_flag_lt : ∀ id r, tickets t !! id = Some r → (tk_cancel r < next_flag t)%N;
  cw_flag : ∀ id r, tickets t !! id = Some r →
    flag_value (tk_cancel r) t = true ↔ stopped (tk_state r);
  cw_flag_inj : ∀ id id' r r', tickets t !! id = Some r → tickets t !! id' = Some r' →
    tk_cancel r = tk_cancel r' → id = id';
  cw_ring : ring_ok (next_effect t) (effects t);
}.

Lemma calls_wf_new : calls_wf calls_new.
Proof. split; cbn; try done. exists 1%N. split_and!; try done. cbn. lia. Qed.

Lemma is_open_spec r : is_open r = true ↔ tk_state r = TkAdmitted.
Proof. apply bool_decide_eq_true. Qed.

Lemma flags_foldr (l : list TicketRecord) (fl : gmap N bool) f :
  default false (foldr (λ r fl, <[tk_cancel r := true]> fl) fl l !! f) = true ↔
  default false (fl !! f) = true ∨ ∃ r, r ∈ l ∧ tk_cancel r = f.
Proof.
  induction l as [|r l IH]; cbn; [set_solver|]. rewrite lookup_insert.
  destruct (decide (tk_cancel r = f)) as [E|E]; cbn.
  - split; [|done]. intros _. right. exists r. split; [left|done].
  - rewrite IH. split; [intros [?|(r' & ? & ?)]; [auto|]; right; exists r'; split; [by right|done]|].
    intros [?|(r' & [->|?]%elem_of_cons & ?)]; [auto|done|eauto].
Qed.

(** A step on the tickets: every remaining ticket keeps its identity, its cell
    and, once it is not [TkAdmitted], its state; the cells set are those of
    the tickets that stop. *)
Record evolves (t t' : CallsTable) : Prop := {
  ev_next : next_ticket t' = next_ticket t;
  ev_next_flag : next_flag t' = next_flag t;
  ev_effects : effects t' = effects t ∧ next_effect t' = next_effect t;
  ev_ticket : ∀ id r', tickets t' !! id = Some r' →
    ∃ r, tickets t !! id = Some r ∧ tk_id r' = tk_id r ∧ tk_cancel r' = tk_cancel r ∧
         (tk_state r ≠ TkAdmitted → tk_state r' = tk_state r);
  ev_flag : ∀ id r', tickets t' !! id = Some r' →
    flag_value (tk_cancel r') t' = true ↔ stopped (tk_state r');
}.

Lemma evolves_wf t t' : calls_wf t → evolves t t' → calls_wf t'.
Proof.
  intros W E. split.
  - intros id r' H. rewrite (ev_next _ _ E).
    destruct (ev_ticket _ _ E _ _ H) as (r & Hr & -> & _). exact (cw_id _ W _ _ Hr).
  - intros id r' H. rewrite (ev_next_flag _ _ E).
    destruct (ev_ticket _ _ E _ _ H) as (r & Hr & _ & -> & _). exact (cw_flag_lt _ W _ _ Hr).
  - apply E.
  - intros id id' r1 r2 H1 H2 Ec.
    destruct (ev_ticket _ _ E _ _ H1) as (x & Hx & _ & E1 & _).
    destruct (ev_ticket _ _ E _ _ H2) as (y & Hy & _ & E2 & _).
    apply (cw_flag_inj _ W _ _ _ _ Hx Hy). congruence.
  - destruct (ev_effects _ _ E) as [-> ->]. apply W.
Qed.

Lemma evolves_refl t : calls_wf t → evolves t t.
Proof.
  intros W. split; [done..| |apply W]. intros id r H. eauto.
Qed.

(** Updating one ticket. *)
Lemma evolves_insert t id r r' fl :
  calls_wf t → tickets t !! id = Some r →
  tk_id r' = tk_id r → tk_cancel r' = tk_cancel r →
  (tk_state r ≠ TkAdmitted → tk_state r' = tk_state r) →
  (∀ f, f ≠ tk_cancel r → fl !! f = flags t !! f) →
  (default false (fl !! tk_cancel r) = true ↔ stopped (tk_state r')) →
  evolves t (with_tickets (<[id := r']> (tickets t)) fl t).
Proof.
  intros W Hr Ei Ec Es Hfl Hf. split; cbn; try done.
  - intros id' r0 [[<- <-]|[N H]]%lookup_insert_Some; [by eauto 10|eauto].
  - intros id' r0 [[<- <-]|[N H]]%lookup_insert_Some; unfold flag_value; cbn.
    + by rewrite Ec.
    + rewrite Hfl; [exact (cw_flag _ W _ _ H)|].
      intros E. apply N. by apply (cw_flag_inj _ W _ _ _ _ Hr H).
Qed.

Lemma stop_ticket_evolves t id r st reason :
  calls_wf t → tickets t !! id = Some r → tk_state r = TkAdmitted → stopped st →
  evolves t (stop_ticket id r st reason t).
Proof.
  intros W Hr A S. apply evolves_insert with r; try done.
  - intros f N. by rewrite lookup_insert_ne.
  - by rewrite lookup_insert_eq.
Qed.

(** Stopping every ticket of a selection of open ones. *)
Lemma stop_where_evolves t sel st reason out :
  calls_wf t → stopped st → (∀ r, sel r = true → tk_state r = TkAdmitted) →
  (∀ f, (∃ r, r ∈ out ∧ tk_cancel r = f) ↔
        (∃ r, r ∈ values_where sel (tickets t) ∧ tk_cancel r = f)) →
  evolves t (with_tickets ((λ r, if sel r then tk_stop st reason r else r) <$> tickets t)
               (foldr (λ r fl, <[tk_cancel r := true]> fl) (flags t) out) t).
Proof.
  intros W S Hsel Hout. split; cbn; try done.
  - intros id r'. rewrite lookup_fmap. intros (r & Hr & ->)%fmap_Some_1. exists r.
    split; [done|]. destruct (sel r) eqn:E; [|done]. cbn. split_and!; [done..|].
    by rewrite (Hsel _ E).
  - intros id r'. rewrite lookup_fmap. intros (r & Hr & ->)%fmap_Some_1.
    unfold flag_value. cbn [flags with_tickets]. rewrite flags_foldr, Hout.
    setoid_rewrite elem_of_values_where. pose proof (cw_flag _ W _ _ Hr) as F.
    unfold flag_value in F. destruct (sel r) eqn:E; cbn [tk_cancel tk_stop tk_with tk_state].
    + split; [done|]. intros _. right. exists r. split; [|done]. eauto.
    + rewrite F. split; [|by left]. intros [?|(r0 & [[id0 H0] E0] & Ec)]; [done|].
      assert (id0 = id) as -> by exact (cw_flag_inj _ W _ _ _ _ H0 Hr Ec). congruence.
Qed.

Lemma cancel_where_evolves mine reason t :
  calls_wf t → evolves t (cancel_where mine reason t).2.
Proof.
  intros W. unfold cancel_where. cbn [snd]. apply stop_where_evolves; [done|by left| |].
  - intros r [_ ?%is_open_spec]%andb_true_iff. done.
  - intros f. setoid_rewrite list_elem_of_fmap. split.
    + intros (r & (r0 & -> & H) & <-). by exists r0.
    + intros (r & H & <-). exists (tk_stop TkCancelled reason r). eauto.
Qed.

Lemma expire_overdue_evolves now t : calls_wf t → evolves t (expire_overdue now t).2.
Proof.
  intros W. unfold expire_overdue. cbn [snd]. apply stop_where_evolves; [done|by right| |done].
  intros r [?%is_open_spec _]%andb_true_iff. done.
Qed.

Ltac on_ticket t id :=
  let r := fresh "r" in let H := fresh "Hr" in
  destruct (tickets t !! id) as [r|] eqn:H; cbn [snd]; [|by apply evolves_refl].

(** Every operation but the allocation, the removal and the ledger. *)
Lemma call_apply_evolves o t :
  calls_wf t →
  match o with
  | OpAlloc _ _ _ _ _ _ _ _ _ | OpPushEffect _ _ _ _ _ _ _ => True
  | _ => evolves t (call_apply o t)
  end.
Proof.
  intros W. destruct o; cbn [call_apply]; try done.
  - unfold set_dep_meta. on_ticket t id. eapply evolves_insert; try done.
    exact (cw_flag _ W _ _ Hr).
  - by apply cancel_where_evolves.
  - by apply cancel_where_evolves.
  - by apply cancel_where_evolves.
  - unfold mark_committed_if_admitted. on_ticket t id. destruct (is_open r) eqn:O;
      [apply is_open_spec in O|by apply evolves_refl].
    eapply evolves_insert; try done; cbn.
    rewrite (cw_flag _ W _ _ Hr : default false _ = true ↔ _), O. split; by intros [].
  - unfold expire_ticket. on_ticket t id. destruct (is_open r) eqn:O;
      [apply is_open_spec in O|by apply evolves_refl]. apply stop_ticket_evolves; [done..|by right].
  - unfold set_drain_until. on_ticket t id. destruct (is_open r); [|by apply evolves_refl].
    eapply evolves_insert; try done. exact (cw_flag _ W _ _ Hr).
  - unfold cancel. on_ticket t id. destruct (is_open r) eqn:O; cbn;
      [apply is_open_spec in O|by apply evolves_refl]. apply stop_ticket_evolves; [done..|by left].
  - by apply expire_overdue_evolves.
  - unfold remove. cbn. split; cbn; try done.
    + intros id' r' [? H]%lookup_delete_Some. eauto.
    + intros id' r' [? H]%lookup_delete_Some. exact (cw_flag _ W _ _ H).
  - destruct (evolves_refl t W) as [? ? ? ? ?]. by split.
  - destruct (evolves_refl t W) as [? ? ? ? ?]. by split.
Qed.

Lemma alloc_wf cap l i g c e p pins now t :
  calls_wf t → calls_wf (call_apply (OpAlloc cap l i g c e p pins now) t).
Proof.
  intros W. cbn. split; cbn; try apply W.
  - intros id r [[<- <-]|[N H]]%lookup_insert_Some; [split; [done|lia]|].
    destruct (cw_id _ W _ _ H). split; [done|lia].
  - intros id r [[<- <-]|[N H]]%lookup_insert_Some; [cbn; lia|].
    pose proof (cw_flag_lt _ W _ _ H). lia.
  - intros id r [[<- <-]|[N H]]%lookup_insert_Some; unfold flag_value; cbn.
    + rewrite lookup_insert_eq. cbn. split; [done|by intros []].
    + pose proof (cw_flag_lt _ W _ _ H). rewrite lookup_insert_ne by lia.
      exact (cw_flag _ W _ _ H).
  - intros id id' r r' [[<- <-]|[N H]]%lookup_insert_Some [[<- <-]|[N' H']]%lookup_insert_Some;
      cbn; try done; intros E.
    + pose proof (cw_flag_lt _ W _ _ H'). lia.
    + pose proof (cw_flag_lt _ W _ _ H). lia.
    + by apply (cw_flag_inj _ W _ _ _ _ H H').
Qed.

Lemma ring_push next l e :
  ring_ok next l → ef_seq e = next →
  ring_ok (next + 1) (drop (length (l ++ [e]) - MAX_EFFECTS) (l ++ [e])).
Proof.
  intros (first & -> & F & L & Full & S) E. rewrite length_app. cbn [length].
  destruct (decide (length l = MAX_EFFECTS)) as [M|M].
  - exists (first + 1)%N. rewrite length_drop, length_app. cbn [length].
    split_and!; [rewrite M; unfold MAX_EFFECTS; lia|lia|rewrite M; lia|rewrite M; lia|].
    intros k e' H. rewrite lookup_drop in H.
    replace (length l + 1 - MAX_EFFECTS) with 1 in H by lia.
    apply lookup_app_Some in H as [H|[Hk H]].
    + rewrite (S _ _ H). lia.
    + apply list_lookup_singleton_Some in H as [Hk' <-]. rewrite E. lia.
  - exists first. rewrite (proj2 (Nat.sub_0_le _ _)) by lia. rewrite drop_0, length_app. cbn [length].
    split_and!; [lia|done|lia|intros Hf; specialize (Full Hf); lia|].
    intros k e' [H|[Hk H]]%lookup_app_Some; [by apply S|].
    apply list_lookup_singleton_Some in H as [Hk' <-]. rewrite E. f_equal. lia.
Qed.

Lemma call_apply_wf o t : calls_wf t → calls_wf (call_apply o t).
Proof.
  intros W. pose proof (call_apply_evolves o t W) as E.
  destruct o; try (by apply (evolves_wf _ _ W E)); [by apply alloc_wf|].
  split; try apply W. cbn. apply ring_push; [apply W|done].
Qed.

Lemma call_run_wf ops t : calls_wf t → calls_wf (call_run ops t).
Proof. revert t; induction ops as [|o ops IH]; intros t W; [done|]. apply IH, call_apply_wf, W. Qed.

#[export] Hint Resolve calls_wf_new call_apply_wf call_run_wf : matrix.

(** ** Tickets that left [TkAdmitted] *)

(** [id] was issued and is gone or not [TkAdmitted]. *)
Definition settled (id : N) (t : CallsTable) : Prop :=
  (id < next_ticket t)%N ∧ ∀ r, tickets t !! id = Some r → tk_state r ≠ TkAdmitted.

Lemma settled_apply o id t : calls_wf t → settled id t → settled id (call_apply o t).
Proof.
  intros W [L S]. pose proof (call_apply_evolves o t W) as E.
  assert (G : evolves t (call_apply o t) → settled id (call_apply o t)).
  { clear E. intros E. split; [by rewrite (ev_next _ _ E)|]. intros r' H.
    destruct (ev_ticket _ _ E _ _ H) as (r & Hr & _ & _ & K). rewrite K; by apply (S r). }
  destruct o; try (by apply G).
  - split; cbn; [lia|]. intros r [[<- <-]|[N H]]%lookup_insert_Some; [lia|by apply S].
  - by split.
Qed.

Lemma settled_run ops id t : calls_wf t → settled id t → settled id (call_run ops t).
Proof.
  revert t; induction ops as [|o ops IH]; intros t W S; [done|].
  apply IH; [by apply call_apply_wf|by apply settled_apply].
Qed.

Lemma settled_refuses id t :
  settled id t →
  mark_committed_if_admitted id t = (false, t) ∧ expire_ticket id t = (false, t) ∧
  (∀ reason, cancel id reason t = (false, t)).
Proof.
  intros [_ S]. unfold mark_committed_if_admitted, expire_ticket, cancel.
  destruct (tickets t !! id) as [r|] eqn:H; [|done].
  assert (is_open r = false) as -> by (apply bool_decide_eq_false; by apply S). done.
Qed.

(** ** Properties of the calls table *)

(** the terminal accept is single. Once [mark_committed_if_admitted]
    accepted a ticket, no later operation of the table makes a second accept, an
    expiry or a cancellation of that ticket succeed: cancel, deadline and
    completion are settled by whichever came first. *)
Theorem single_terminal_accept (ops ops' : list CallOp) (id : N) (t1 : CallsTable) :
  mark_committed_if_admitted id (call_run ops calls_new) = (true, t1) →
  let t2 := call_run ops' t1 in
  mark_committed_if_admitted id t2 = (false, t2) ∧ expire_ticket id t2 = (false, t2) ∧
  (∀ reason, cancel id reason t2 = (false, t2)).
Proof.
  intros H t2. apply settled_refuses.
  pose proof (call_run_wf ops _ calls_wf_new) as W.
  assert (W1 : calls_wf t1).
  { pose proof (call_apply_wf (OpMarkCommitted id) _ W) as W1. cbn in W1. by rewrite H in W1. }
  apply settled_run; [done|]. revert H. unfold mark_committed_if_admitted.
  destruct (tickets _ !! id) as [r|] eqn:E; [|done]. destruct (is_open r); [|done].
  intros [= <-]. split; cbn; [by destruct (cw_id _ W _ _ E)|].
  intros r'. rewrite lookup_insert_eq. by intros [= <-].
Qed.

Lemma single_terminal_accept_witness :
  let ops := [OpAlloc "c@1" "p" 1 1 1 7 policy_default [] 0] in
  let t1 := (mark_committed_if_admitted 1 (call_run ops calls_new)).2 in
  expire_ticket 1 (call_run [OpCancel 1 "late"] t1) = (false, call_run [OpCancel 1 "late"] t1).
Proof.
  intros ops t1. apply (single_terminal_accept ops [OpCancel 1 "late"] 1 t1). reflexivity.
Defined.

(** the worker's cancel signal is exact. In every table reachable from
    the empty one, the cell a ticket shares with its worker reads [true] exactly
    when the ticket was cancelled or expired, never for an admitted or committed
    one, whichever other tickets were cancelled, expired or revoked in bulk. *)
Theorem cancel_signal_exact (ops : list CallOp) (id : N) (r : TicketRecord) :
  let t := call_run ops calls_new in
  get_ticket id t = Some r →
  flag_value (tk_cancel r) t = true ↔ tk_state r = TkCancelled ∨ tk_state r = TkExpired.
Proof. intros t H. exact (cw_flag _ (call_run_wf ops _ calls_wf_new) _ _ H). Qed.

Lemma cancel_signal_exact_witness :
  let t := call_run [OpAlloc "c@1" "p" 1 1 1 7 policy_default [] 0;
                     OpAlloc "d@1" "q" 2 1 2 7 policy_default [] 0; OpCancel 2 "x"] calls_new in
  flag_value 0 t = true ↔ TkAdmitted = TkCancelled ∨ TkAdmitted = TkExpired.
Proof.
  apply (cancel_signal_exact [OpAlloc "c@1" "p" 1 1 1 7 policy_default [] 0;
           OpAlloc "d@1" "q" 2 1 2 7 policy_default [] 0; OpCancel 2 "x"] 1
           (mkTicketRecord 1 "c@1" "p" 1 1 1 7 policy_default TkAdmitted 0 [] 0 None None None)).
  reflexivity.
Defined.

(** the effect ledger is bounded and contiguous. After any operations it
    holds at most [MAX_EFFECTS] effects: the most recent ones, numbered
    consecutively up to the last number issued, and older ones are missing only
    when the ring is full. *)
Theorem effect_ring_bounded (ops : list CallOp) :
  let t := call_run ops calls_new in
  effects_len t ≤ MAX_EFFECTS ∧
  (next_effect t - 1 = N.of_nat (effects_len t) ∨
   effects_len t = MAX_EFFECTS ∧ N.of_nat (effects_len t) < next_effect t - 1)%N ∧
  (∀ k e, effects_for None t !! k = Some e →
     ef_seq e = (next_effect t - N.of_nat (effects_len t) + N.of_nat k)%N).
Proof.
  intros t. destruct (cw_ring _ (call_run_wf ops _ calls_wf_new)) as (first & E & F & L & Full & S).
  fold t in E, L, Full, S. unfold effects_len. split_and!; [done| |].
  - destruct (decide (1 < first)%N) as [Hf|Hf]; [right|left]; rewrite E; [|lia].
    split; [by apply Full|lia].
  - intros k e. unfold effects_for.
    assert (List.filter (λ _ : CommittedEffect, true) (effects t) = effects t) as ->.
    { clear. induction (effects t); cbn; congruence. }
    intros H. rewrite (S _ _ H), E. lia.
Qed.

(** drain expiry is exact. [expire_overdue now] returns exactly the ids of
    the admitted tickets whose drain deadline has passed, those end [TkExpired]
    with reason [drain-exceeded], and every other ticket is unchanged. *)
Theorem expire_overdue_exact (ops : list CallOp) (now : N) :
  let t := call_run ops calls_new in
  let '(out, t') := expire_overdue now t in
  (∀ id, id ∈ out ↔ ∃ r until, get_ticket id t = Some r ∧ tk_state r = TkAdmitted ∧
                      tk_drain_until r = Some until ∧ (until ≤ now)%N) ∧
  (∀ id r, get_ticket id t = Some r →
     get_ticket id t' =
       Some (if bool_decide (id ∈ out) then tk_stop TkExpired "drain-exceeded" r else r)).
Proof.
  intros t. pose proof (call_run_wf ops _ calls_wf_new : calls_wf t) as W.
  cbn. assert (O : ∀ r, overdue now r = true ↔
    tk_state r = TkAdmitted ∧ ∃ until, tk_drain_until r = Some until ∧ (until ≤ now)%N).
  { intros r. unfold overdue. rewrite andb_true_iff, is_open_spec. f_equiv.
    destruct (tk_drain_until r) as [u|]; cbn; [rewrite N.leb_le|]; naive_solver. }
  assert (I : ∀ id, id ∈ tk_id <$> values_where (overdue now) (tickets t) ↔
    ∃ r, tickets t !! id = Some r ∧ overdue now r = true).
  { intros id. rewrite list_elem_of_fmap. setoid_rewrite elem_of_values_where. split.
    - intros (r & -> & [k Hk] & Hr). destruct (cw_id _ W _ _ Hk) as [-> _]. eauto.
    - intros (r & Hr & Ho). exists r. destruct (cw_id _ W _ _ Hr) as [-> _]. eauto 10. }
  split.
  - intros id. rewrite I. setoid_rewrite O. unfold get_ticket. naive_solver.
  - intros id r H. unfold get_ticket in *. cbn. rewrite lookup_fmap, H. cbn. f_equal.
    destruct (overdue now r) eqn:E.
    + rewrite bool_decide_eq_true_2; [done|]. apply I. eauto.
    + rewrite bool_decide_eq_false_2; [done|]. rewrite I. intros (r' & H' & E'). congruence.
Qed.
