(* ===== verification/Journal.v ===== *)
(** * The write-ahead journal ([journal.rs])

    The file is the list of its lines, each the value [serde_json] parses from
    it ([None] for a line that is not JSON); serialising a value and parsing the
    line back gives the value, as [serde_json] documents. The time stamp is an
    argument, and so is the outcome of the write, which [append] ignores. *)

From S2P Require Import Prelude Json.

Record JournalEntry : Type := mkJournalEntry {
  je_seq : N;
  je_fiber : string;
  je_kind : string;
  je_args : Value;
  je_ts : string;
  je_undo : Value;
  je_v : N;
}.

Record Journal : Type := mkJournal {
  jr_file : list (option Value);
  jr_seq : N;
  jr_core_v2 : bool;
}.

Definition entry_of_value (v : Value) : JournalEntry :=
  mkJournalEntry (default 0%N (get_u64 "seq" v)) (default "" (get_str "fiber" v))
    (default "" (get_str "kind" v)) (default JNull (get "args" v))
    (default "" (get_str "ts" v)) (default JNull (get "undo" v))
    (default 1%N (get_u64 "v" v)).

(** Lines that do not parse are skipped; the result is sorted by [seq]. *)
Definition read_all (file : list (option Value)) : list JournalEntry :=
  sort_by_key je_seq (entry_of_value <$> omap id file).

(** [open] on a file with the given content. *)
Definition journal_open (file : list (option Value)) (core_v2 : bool) : Journal :=
  mkJournal file (default 0%N (je_seq <$> last (read_all file))) core_v2.

Definition adopt_seq (seq : N) (j : Journal) : Journal :=
  if (jr_seq j <? seq)%N then mkJournal (jr_file j) seq (jr_core_v2 j) else j.

(** The line [append] writes; [json!] keeps the members sorted by key. *)
Definition journal_line (seq : N) (fiber kind : string) (args : Value) (ts : string)
    (undo : Value) (core_v2 : bool) : Value :=
  JObject [("args", args); ("fiber", JString fiber); ("kind", JString kind);
           ("seq", j_u64 seq); ("ts", JString ts); ("undo", undo);
           ("v", j_u64 (if core_v2 then 2 else 1))].

Definition append (fiber kind : string) (args undo : Value) (ts : string) (wrote : bool)
    (j : Journal) : N * Journal :=
  let seq := (jr_seq j + 1)%N in
  let line := journal_line seq fiber kind args ts undo (jr_core_v2 j) in
  (seq,
   mkJournal (if wrote then jr_file j ++ [Some line] else jr_file j) seq (jr_core_v2 j)).

Definition journal_reset (j : Journal) : Journal := mkJournal [] 0 (jr_core_v2 j).

Definition tail (n : nat) (j : Journal) : list JournalEntry :=
  let all := read_all (jr_file j) in
  drop (length all - n) all.

(** What happens to a journal: appends, a crash that leaves a torn line behind,
    and re-opening the file. *)
Inductive JournalOp : Type :=
| OpAppend (fiber kind : string) (args undo : Value) (ts : string) (wrote : bool)
| OpTorn
| OpReopen.

Definition journal_apply (o : JournalOp) (j : Journal) : Journal :=
  match o with
  | OpAppend f k a u ts w => (append f k a u ts w j).2
  | OpTorn => mkJournal (jr_file j ++ [None]) (jr_seq j) (jr_core_v2 j)
  | OpReopen => journal_open (jr_file j) (jr_core_v2 j)
  end.

Definition journal_run (ops : list JournalOp) (j : Journal) : Journal :=
  foldl (λ j o, journal_apply o j) j ops.

(** The entries the appends of a history ask for, without their numbers. *)
Definition appended (ops : list JournalOp) : list (string * string * Value * Value * string) :=
  omap (λ o, match o with
             | OpAppend f k a u ts true => Some (f, k, a, u, ts)
             | _ => None
             end) ops.

Definition entry_content (e : JournalEntry) : string * string * Value * Value * string :=
  (je_fiber e, je_kind e, je_args e, je_undo e, je_ts e).

(** ** Lemmas *)

Definition strictly_increasing (l : list JournalEntry) : Prop :=
  StronglySorted (λ a b, (je_seq a < je_seq b)%N) l.

Lemma sort_by_key_id {A} (key : A → N) (l : list A) :
  StronglySorted (λ a b, (key a < key b)%N) l → sort_by_key key l = l.
Proof.
  intros S. unfold sort_by_key.
  assert (N : ∀ a b, a ∈ l → b ∈ l → key a = key b → a = b).
  { induction S as [|x l S IH F]; intros a b Ha Hb E; [set_solver|].
    rewrite Forall_forall in F. apply elem_of_cons in Ha as [->|Ha], Hb as [->|Hb]; auto.
    - specialize (F b Hb). lia.
    - specialize (F a Ha). lia. }
  pose proof (StronglySorted_merge_sort (key_le key) l) as S1.
  assert (S2 : StronglySorted (key_le key) l).
  { clear -S. induction S as [|x l S IH F]; constructor; [done|].
    eapply Forall_impl; [exact F|]. intros y. unfold key_le. lia. }
  pose proof (merge_sort_Permutation (key_le key) l) as P. revert S1 P.
  generalize (merge_sort (key_le key) l) as l1. revert N. clear S.
  induction S2 as [|x l S2 IH F]; intros N l1 S1 P; [by apply Permutation_nil_r in P|].
  destruct l1 as [|y l1]; [by apply Permutation_nil_l in P|].
  apply StronglySorted_inv in S1 as [S1 F1]. rewrite Forall_forall in F, F1.
  assert (x = y) as <-.
  { assert (Hy : y ∈ x :: l) by (rewrite <- P; left).
    assert (Hx : x ∈ y :: l1) by (rewrite P; left).
    apply elem_of_cons in Hy as [->|Hy]; [done|]. apply elem_of_cons in Hx as [->|Hx]; [done|].
    specialize (F y Hy). specialize (F1 x Hx). unfold key_le in *.
    apply N; [left|by right|lia]. }
  f_equal. apply IH; [|done|by apply Permutation_cons_inv in P].
  intros a b Ha Hb. apply N; by right.
Qed.

(** The file holds entries with increasing numbers, all up to [jr_seq]. *)
Record journal_inv (ops : list (string * string * Value * Value * string)) (j : Journal)
    : Prop := {
  ji_sorted : strictly_increasing (entry_of_value <$> omap id (jr_file j));
  ji_bound : Forall (λ e, (1 ≤ je_seq e ≤ jr_seq j)%N) (entry_of_value <$> omap id (jr_file j));
  ji_content : entry_content <$> (entry_of_value <$> omap id (jr_file j)) = ops;
}.

Lemma read_all_sorted ops j : journal_inv ops j → read_all (jr_file j) = entry_of_value <$> omap id (jr_file j).
Proof. intros I. apply sort_by_key_id, I. Qed.

Lemma increasing_snoc l e :
  strictly_increasing l → Forall (λ x, (je_seq x < je_seq e)%N) l →
  strictly_increasing (l ++ [e]).
Proof.
  intros S F. induction S as [|x l S IH Fx]; cbn; [repeat constructor|].
  inv F. constructor; [by apply IH|]. apply Forall_app. auto.
Qed.

(** Reading back a written line. *)
Lemma entry_of_line seq f k a ts u v2 :
  entry_of_value (journal_line seq f k a ts u v2) =
  mkJournalEntry seq f k a ts u (if v2 then 2 else 1)%N.
Proof. reflexivity. Qed.

Lemma journal_apply_inv o ops j :
  journal_inv ops j → journal_inv (ops ++ appended [o]) (journal_apply o j).
Proof.
  intros [S B C]. destruct o as [f k a u ts [|]| |]; cbn.
  - unfold append. split; cbn; rewrite omap_app, fmap_app;
      cbn [omap list_omap id fmap list_fmap]; rewrite entry_of_line.
    + apply increasing_snoc; [done|]. eapply Forall_impl; [exact B|]. cbn. lia.
    + apply Forall_app. split; [|repeat constructor; cbn; lia].
      eapply Forall_impl; [exact B|]. cbn. lia.
    + rewrite fmap_app, C. done.
  - rewrite app_nil_r. split; cbn; [done| |done]. eapply Forall_impl; [exact B|]. cbn. lia.
  - rewrite app_nil_r. split; cbn; rewrite omap_app; cbn; rewrite app_nil_r; done.
  - rewrite app_nil_r. pose proof (read_all_sorted ops j (Build_journal_inv _ _ S B C)) as R.
    split; cbn; [done| |done]. rewrite R. revert S B.
    generalize (entry_of_value <$> omap id (jr_file j)) as l. clear. intros l S B.
    destruct l as [|e l _] using rev_ind; [constructor|].
    rewrite last_snoc. cbn. apply Forall_app in B as [B1 B2].
    rewrite Forall_forall in *. intros x [Hx|Hx%list_elem_of_singleton]%elem_of_app.
    + split; [by apply B1|]. 
      assert (He : e ∈ [e]) by set_solver.
      pose proof (StronglySorted_app_1_elem_of _ _ _ _ _ S Hx He) as Hl. cbn in Hl. lia.
    + subst x. split; [|lia]. apply (B2 e). set_solver.
Qed.

Lemma appended_app o1 o2 : appended (o1 ++ o2) = appended o1 ++ appended o2.
Proof. apply omap_app. Qed.

Lemma journal_run_inv ops : ∀ done j,
  journal_inv done j → journal_inv (done ++ appended ops) (journal_run ops j).
Proof.
  induction ops as [|o ops IH]; intros done j I; cbn [journal_run foldl].
  { cbn. by rewrite app_nil_r. }
  change (o :: ops) with ([o] ++ ops). rewrite appended_app, (app_assoc done).
  by apply IH, journal_apply_inv.
Qed.

(** the journal is an ordered, replayable log. After any history of appends
    (some of which may fail to reach the disk), torn lines and re-openings
    starting from an empty file, reading it back yields exactly the appended
    entries that reached the disk, in the order of the appends, with strictly
    increasing sequence numbers, and the next append gets a number above all of
    them. *)
Theorem journal_replay_faithful (ops : list JournalOp) (core_v2 : bool) :
  let j := journal_run ops (journal_open [] core_v2) in
  entry_content <$> read_all (jr_file j) = appended ops ∧
  strictly_increasing (read_all (jr_file j)) ∧
  (∀ f k a u ts w e, e ∈ read_all (jr_file j) → (je_seq e < (append f k a u ts w j).1)%N).
Proof.
  assert (I0 : journal_inv [] (journal_open [] core_v2)) by (split; [constructor..|done]).
  pose proof (journal_run_inv ops [] _ I0) as I. cbn zeta.
  rewrite (read_all_sorted _ _ I). destruct I as [S B C]. split_and!; [done|done|].
  intros f k a u ts w e He. rewrite Forall_forall in B. specialize (B e He). cbn. lia.
Qed.
