(* ===== verification/Manifest.v ===== *)
(** * Manifests ([kernel.rs], first part, and [external.rs])

    The definition of a component as the kernel stores it, and its validation
    from the manifest's JSON: capabilities, requirements, call policies, the
    execution kind and the outbound policy with its mandatory finite limits. *)

From Stdlib Require Import Ascii.
From S2P Require Import Prelude RustStd Json Calls Deps.

(** ** Execution ([external.rs]) *)

Inductive ExecutionKind : Type :=
| InProcess
| External (entrypoint : string) (args : list string) (timeout_ms : N).

#[export] Instance ExecutionKind_eq_dec : EqDecision ExecutionKind.
Proof. solve_decision. Defined.

Definition is_external (k : ExecutionKind) : bool :=
  match k with External _ _ _ => true | InProcess => false end.

Definition exec_timeout_ms (k : ExecutionKind) : N :=
  match k with InProcess => 0%N | External _ _ t => t end.

(** [.map(|s| s.trim().to_string()).filter(|s| !s.is_empty())]. *)
Definition trimmed_nonempty (o : option string) : option string :=
  s ← trim <$> o; if str_is_empty s then None else Some s.

(** [a.iter().filter_map(|x| x.as_str().map(|s| s.to_string())).collect()]. *)
Definition strings_of (a : list Value) : list string := omap as_str a.

Definition is_inprocess (s : string) : bool :=
  bool_decide (s = "inprocess") || bool_decide (s = "in-process").

Definition parse_execution (v : option Value) : result ExecutionKind Msg :=
  match v with
  | None => Ok InProcess
  | Some v =>
      match as_str v with
      | Some s =>
          if is_inprocess s then Ok InProcess
          else if bool_decide (s = "process") then
            Err (Text "'execution: process' exige objeto com entrypoint")
          else Err (TextDebug "execution desconhecido: " s "")
      | None =>
          let? obj := ok_or (as_object v) (Text "'execution' deve ser string ou objeto") in
          let kind := default "inprocess" (obj_str "kind" obj) in
          if is_inprocess kind then Ok InProcess
          else if bool_decide (kind = "process") then
            let? entrypoint :=
              ok_or (trimmed_nonempty (obj_str "entrypoint" obj))
                (Text "execution.process exige 'entrypoint'") in
            let args := default [] (strings_of <$> (obj_array "args" obj)) in
            let timeout_ms := default 5000%N (obj_u64 "timeout_ms" obj) in
            if (timeout_ms =? 0)%N || (300000 <? timeout_ms)%N then
              Err (Text "timeout_ms fora de [1, 300000]")
            else Ok (External entrypoint args timeout_ms)
          else Err (TextDebug "execution.kind desconhecido: " kind "")
      end
  end.

Definition expand_args (args : list string) (sock id : string) : list string :=
  (λ a, str_replace "{id}" id (str_replace "{sock}" sock a)) <$> args.

Record ForwardRequest : Type := mkForwardRequest {
  fr_ticket : TicketId;
  fr_cap : string;
  fr_input : Value;
  fr_logical : string;
  fr_instance : InstanceId;
  fr_generation : N;
  fr_timeout_ms : N;
  fr_cancel : N;
}.

Inductive ForwardError : Type :=
| FwCancelled
| FwTimeout
| FwGone (s : string)
| FwProtocol (s : string).

Definition forward_error_code (e : ForwardError) : string :=
  match e with
  | FwCancelled => "cancelled"
  | FwTimeout => "deadline-exceeded"
  | FwGone _ => "outcome-unknown"
  | FwProtocol _ => "internal"
  end.

Inductive ForwardOutcome : Type :=
| FwOk (v : Value)
| FwErr (code message : string)
| FwFailed (e : ForwardError).

Inductive LifecycleEvent : Type :=
| LcActivated (logical : string) (instance generation : N) (entrypoint : string)
    (args : list string) (timeout_ms : N)
| LcWithdrawn (logical : string) (instance generation : N)
| LcRemoved (logical : string).

(** ** Outbound policy *)

Record OutboundLimits : Type := mkOutboundLimits {
  max_depth : N;
  max_children_per_parent : N;
  max_calls_per_session : N;
  max_calls_global : N;
  max_seen_requests : N;
  max_queued_bytes : N;
  max_deadline_ms : N;
}.

Record OutboundPolicy : Type := mkOutboundPolicy {
  ob_requested : list string;
  ob_limits : OutboundLimits;
}.

(** [c.split('@')] gives exactly a non-empty name and a non-empty all-digit
    version. *)
Definition versioned_cap (c : string) : bool :=
  match split_on at_sign (chars c) with
  | [name; ver] =>
      negb (bool_decide (name = [])) && negb (bool_decide (ver = [])) && forallb is_ascii_digit ver
  | _ => false
  end.

Definition outbound_limit (lim : list (string * Value)) (k : string) : result N Msg :=
  match obj_u64 k lim with
  | Some n =>
      if (0 <? n)%N then Ok n
      else Err (Text ("'outbound.limits." +:+ k +:+ "' must be a positive integer"))
  | None => Err (Text ("'outbound.limits." +:+ k +:+ "' must be a positive integer"))
  end.

(** The first requested capability that is not versioned. *)
Fixpoint check_requested (l : list string) : result unit Msg :=
  match l with
  | [] => Ok tt
  | c :: l =>
      if versioned_cap c then check_requested l
      else Err (TextDebug "invalid versioned capability in outbound.request: " c "")
  end.

Definition parse_outbound (v : option Value) : result (option OutboundPolicy) Msg :=
  match v with
  | None => Ok None
  | Some v =>
      let? obj := ok_or (as_object v) (Text "'outbound' deve ser objeto") in
      let? arr :=
        ok_or (obj_array "request" obj)
          (Text "'outbound.request' deve ser array de capabilities versionadas solicitadas") in
      let? requested :=
        collect_result
          (λ c, ok_or (trimmed_nonempty (as_str c))
                  (Text "'outbound.request' requires non-empty strings")) arr in
      let? _ := check_requested requested in
      let? lim :=
        ok_or (obj_object "limits" obj)
          (Text "'outbound.limits' is required with all finite limits") in
      let? depth := outbound_limit lim "max_depth" in
      let? children := outbound_limit lim "max_children_per_parent" in
      let? session := outbound_limit lim "max_calls_per_session" in
      let? global := outbound_limit lim "max_calls_global" in
      let? seen := outbound_limit lim "max_seen_requests" in
      let? bytes := outbound_limit lim "max_queued_bytes" in
      let? deadline := outbound_limit lim "max_deadline_ms" in
      Ok (Some (mkOutboundPolicy requested
                  (mkOutboundLimits depth children session global seen bytes deadline)))
  end.

(** ** Call policies *)

Definition parse_call_policy (cap : string) (pv : Value) : result CallPolicy Msg :=
  let? on_withdraw :=
    match get_str "on_withdraw" pv with
    | Some o =>
        ok_or (policy_parse o) (TextDebug ("invalid on_withdraw in '" +:+ cap +:+ "': ") o "")
    | None => Ok (on_withdraw policy_default)
    end in
  match get_u64 "drain_ms" pv with
  | Some d => Ok (mkCallPolicy on_withdraw d)
  | None =>
      if is_some (get "drain_ms" pv) then Err (Text ("invalid drain_ms in '" +:+ cap +:+ "'"))
      else Ok (mkCallPolicy on_withdraw (drain_ms policy_default))
  end.

Fixpoint parse_policies (obj : list (string * Value)) (out : gmap string CallPolicy)
    : result (gmap string CallPolicy) Msg :=
  match obj with
  | [] => Ok out
  | (cap, pv) :: obj =>
      if str_is_empty (trim cap) then Err (Text "cap vazia em 'calls'")
      else
        let? pol := parse_call_policy cap pv in
        parse_policies obj (<[cap := pol]> out)
  end.

Definition parse_call_policies (v : option Value) : result (gmap string CallPolicy) Msg :=
  match v with
  | None => Ok ∅
  | Some v =>
      let? obj := ok_or (as_object v) (Text "'calls' must be a cap→policy object") in
      parse_policies obj ∅
  end.

(** ** The stored definition *)

Record StoredManifest : Type := mkStoredManifest {
  sm_id : string;
  sm_caps : list string;
  sm_requires : list Requirement;
  sm_subs : list string;
  sm_calls : gmap string CallPolicy;
  sm_reducer : string;
  sm_init_state : Value;
  sm_tier : string;
  sm_trust : string;
  sm_restart : string;
  sm_source : option string;
  sm_execution : ExecutionKind;
  sm_remote : bool;
  sm_outbound : option OutboundPolicy;
}.

(** The strings of an array member, trimmed, without the empty ones. *)
Definition string_items (key : string) (v : Value) : list string :=
  default []
    ((λ a, List.filter (λ s, negb (str_is_empty s)) (trim <$> strings_of a)) <$> get_array key v).

(** The member is there and is not an array. *)
Definition not_array (key : string) (v : Value) : bool :=
  is_some (get key v) && negb (is_some (get_array key v)).

(** The member is an array with an item that is not a string or is blank. *)
Definition blank_item (key : string) (v : Value) : bool :=
  is_some_and
    (existsb (λ x, match as_str x with Some s => str_is_empty (trim s) | None => true end))
    (get_array key v).

(** [for c in extra { if !caps.contains(c) { caps.push(c) } }]. *)
Definition union_caps (caps extra : list string) : list string :=
  foldl (λ caps c, if bool_decide (c ∈ caps) then caps else caps ++ [c]) caps extra.

Definition parse_manifest_value (v : Value) : result StoredManifest Msg :=
  let id := default "" (get_str "id" v) in
  if str_is_empty (trim id) then Err (Text "manifest without id")
  else if not_array "capabilities" v then Err (Text "'capabilities' deve ser array de strings")
  else
    let? extra := parse_provides (get "provides" v) in
    let caps := union_caps (string_items "capabilities" v) extra in
    let? requires := parse_requires (get "requires" v) in
    let subs := string_items "subscriptions" v in
    if not_array "subscriptions" v then Err (Text "'subscriptions' deve ser array de strings")
    else if blank_item "capabilities" v then Err (Text "capability vazia")
    else if blank_item "subscriptions" v then Err (Text "subscription vazia")
    else
      let? calls := parse_call_policies (get "calls" v) in
      let? execution := parse_execution (get "execution" v) in
      let? outbound := parse_outbound (get "outbound" v) in
      let remote := default false (get "remote" v ≫= as_bool) in
      if remote && is_some_and (λ a, negb (bool_decide (length a = 0))) (get_array "requires" v)
      then Err (Text "remote definitions provide only; requires must be empty")
      else
        Ok (mkStoredManifest id caps requires subs calls (default "noop" (get_str "reducer" v))
              (default (JObject []) (get "init_state" v))
              (default "inproc" (get_str "tier" v)) (default "trusted" (get_str "trust" v))
              (default "permanent" (get_str "restart" v)) None execution remote outbound).

Definition provides_of (defs : gmap string StoredManifest) : gmap string (list string) :=
  sm_caps <$> defs.

Definition requires_of (defs : gmap string StoredManifest) : gmap string (list Requirement) :=
  sm_requires <$> defs.

(** ** Lemmas *)

Lemma ok_or_Ok {A E} (o : option A) (e : E) a : ok_or o e = Ok a → o = Some a.
Proof. destruct o; cbn; congruence. Qed.

(** Opens one [?]: [H : (let? x := e in k) = Ok r]. *)
Ltac open_try H E :=
  match type of H with
  | (match ?e with Ok _ => _ | Err _ => _ end) = Ok _ =>
      destruct e eqn:E; [|discriminate H]
  end.

Lemma trimmed_nonempty_Some o s :
  trimmed_nonempty o = Some s → s ≠ "" ∧ ∃ s0, o = Some s0 ∧ s = trim s0.
Proof.
  destruct o as [s0|]; cbn; [|done]. unfold str_is_empty. case_bool_decide; [done|].
  intros [= <-]. eauto.
Qed.

Lemma collect_result_Forall {A B E} (f : A → result B E) (P : B → Prop) l bs :
  (∀ a b, f a = Ok b → P b) → collect_result f l = Ok bs → Forall P bs.
Proof.
  intros HP H%collect_result_ok. induction H; constructor; eauto.
Qed.

Lemma check_requested_ok l u :
  check_requested l = Ok u → Forall (λ c, versioned_cap c = true) l.
Proof.
  induction l as [|c l IH]; cbn; [constructor|]. destruct (versioned_cap c) eqn:E; [|done].
  constructor; auto.
Qed.

Lemma outbound_limit_pos lim k n : outbound_limit lim k = Ok n → (0 < n)%N.
Proof.
  unfold outbound_limit. destruct (obj_u64 k lim) as [m|]; [|done].
  destruct (N.ltb_spec 0 m); [|done]. by intros [= <-].
Qed.

(** What the manifest promises about outbound calls. *)
Definition outbound_ok (p : OutboundPolicy) : Prop :=
  Forall (λ c, c ≠ "" ∧ versioned_cap c = true) (ob_requested p) ∧
  let l := ob_limits p in
  (0 < max_depth l ∧ 0 < max_children_per_parent l ∧ 0 < max_calls_per_session l ∧
   0 < max_calls_global l ∧ 0 < max_seen_requests l ∧ 0 < max_queued_bytes l ∧
   0 < max_deadline_ms l)%N.

Lemma parse_outbound_ok v p : parse_outbound v = Ok (Some p) → outbound_ok p.
Proof.
  destruct v as [v|]; cbn; [|done]. intros H.
  open_try H E1. open_try H E2. open_try H E3. open_try H E4. open_try H E5.
  open_try H L1. open_try H L2. open_try H L3. open_try H L4. open_try H L5. open_try H L6.
  open_try H L7. injection H as <-. split; cbn.
  - apply check_requested_ok in E4.
    assert (F : Forall (λ c, c ≠ "") a1).
    { eapply collect_result_Forall; [|exact E3]. cbn. intros x b H%ok_or_Ok.
      by apply trimmed_nonempty_Some in H as [? _]. }
    clear -E4 F. induction F; inv E4; constructor; auto.
  - split_and!; eauto using outbound_limit_pos.
Qed.

(** A process entry point is not blank and its timeout is within bounds. *)
Definition execution_ok (k : ExecutionKind) : Prop :=
  match k with
  | InProcess => True
  | External e _ t => e ≠ "" ∧ (1 ≤ t ≤ 300000)%N
  end.

Lemma parse_execution_ok v k : parse_execution v = Ok k → execution_ok k.
Proof.
  destruct v as [v|]; cbn; [|by intros [= <-]]. destruct (as_str v) as [s|].
  - repeat case_match; intros [= <-]; done.
  - intros H. open_try H E1. destruct (is_inprocess _); [by injection H as <-|].
    case_bool_decide; [|done]. open_try H E2.
    apply ok_or_Ok, trimmed_nonempty_Some in E2 as [Ne _].
    destruct (_ || _) eqn:B; [done|]. injection H as <-. nbool. split; [done|lia].
Qed.

Lemma parse_provides_ok v l : parse_provides v = Ok l → Forall (λ c, c ≠ "") l.
Proof.
  destruct v as [v|]; cbn; [|intros [= <-]; constructor]. intros H. open_try H E.
  eapply collect_result_Forall; [|exact H]. intros x c.
  unfold parse_provide_value, str_is_empty. destruct x as [| | |s| |m]; try done.
  - case_bool_decide; [done|]. by intros [= <-].
  - case_bool_decide; [done|]. destruct (split_cap _) as [base major].
    case_bool_decide as Hb; [done|]. intros [= <-]. unfold norm_cap.
    destruct (match get_u64 _ _ with Some _ => _ | None => _ end); [|done].
    by destruct base.
Qed.

Lemma parse_requires_ok v l :
  (∀ x, v = Some x → json_ok x) → parse_requires v = Ok l → Forall canonical_requirement l.
Proof.
  destruct v as [v|]; cbn; [|intros _ [= <-]; constructor]. intros J H. open_try H E.
  specialize (J v eq_refl). destruct v as [| | | |arr|]; try done. injection E as <-.
  apply collect_result_ok in H. assert (K : ∀ x, x ∈ arr → json_ok x) by (intros x; by apply json_ok_array).
  clear J. induction H as [|x r arr rs Hx H IH]; constructor.
  - apply (parse_require_value_canonical x); [|done]. apply K. left.
  - apply IH. intros y Hy. apply K. by right.
Qed.

Lemma string_items_ok key v : Forall (λ c, c ≠ "") (string_items key v).
Proof.
  apply Forall_forall. intros x. unfold string_items. destruct (get_array key v) as [a|]; cbn; [|set_solver].
  rewrite elem_of_filter_list. unfold str_is_empty. intros [_ H]. by case_bool_decide.
Qed.

Lemma union_caps_ok caps extra c : c ∈ union_caps caps extra ↔ c ∈ caps ∨ c ∈ extra.
Proof.
  revert caps; induction extra as [|x extra IH]; intros caps; cbn; [set_solver|].
  rewrite (IH _ : c ∈ foldl _ _ _ ↔ _). case_bool_decide; set_solver.
Qed.

(** an accepted manifest is well formed. Its id, every provided capability and
    every subscription is non-empty; every requirement is canonical and non-empty; a
    process execution names an entry point and has a timeout in [1, 300000]; an
    outbound policy requests only [name@digits] capabilities and has all seven
    limits finite and positive; a remote definition requires nothing. *)
Theorem parse_manifest_sound (v : Value) (m : StoredManifest) :
  json_ok v → parse_manifest_value v = Ok m →
  trim (sm_id m) ≠ "" ∧
  Forall (λ c, c ≠ "") (sm_caps m) ∧ Forall (λ s, s ≠ "") (sm_subs m) ∧
  Forall canonical_requirement (sm_requires m) ∧
  execution_ok (sm_execution m) ∧
  (∀ p, sm_outbound m = Some p → outbound_ok p) ∧
  (sm_remote m = true → sm_requires m = []).
Proof.
  intros J. unfold parse_manifest_value, str_is_empty. case_bool_decide as Hid; [done|].
  destruct (not_array "capabilities" v); [done|]. intros H.
  open_try H E1. open_try H E2.
  destruct (not_array "subscriptions" v); [done|].
  destruct (blank_item "capabilities" v); [done|]. destruct (blank_item "subscriptions" v); [done|].
  open_try H E3. open_try H E4. open_try H E5.
  destruct (_ && _) eqn:R; [done|]. injection H as <-. cbn. split_and!.
  - done.
  - apply Forall_forall. intros c [Hc|Hc]%union_caps_ok.
    + exact (proj1 (Forall_forall _ _) (string_items_ok _ _) c Hc).
    + exact (proj1 (Forall_forall _ _) (parse_provides_ok _ _ E1) c Hc).
  - apply string_items_ok.
  - eapply parse_requires_ok; [|exact E2]. intros x. by apply json_ok_get.
  - by eapply parse_execution_ok.
  - intros p ->. by eapply parse_outbound_ok.
  - intros Hr. rewrite Hr in R. cbn in R. revert E2. unfold get_array in R.
    destruct (get "requires" v) as [rv|]; cbn; [|by intros [= <-]].
    intros E2. open_try E2 E. apply ok_or_Ok in E. cbn in R. rewrite E in R. cbn in R.
    apply negb_false_iff, bool_decide_eq_true in R. apply length_zero_iff_nil in R. subst.
    by injection E2 as <-.
Qed.

Lemma parse_manifest_sound_witness :
  let v := JObject [("id", JString "ws");
                    ("provides", JArray [JString "workspace.fs@1"]);
                    ("execution", JObject [("kind", JString "process");
                                           ("entrypoint", JString "bin/ws")])] in
  execution_ok (External "bin/ws" [] 5000).
Proof.
  intros v. set (m := mkStoredManifest "ws" ["workspace.fs@1"] [] [] ∅ "noop" (JObject []) "inproc"
    "trusted" "permanent" None (External "bin/ws" [] 5000) false None).
  apply (parse_manifest_sound v m); vm_compute; [tauto|reflexivity].
Defined.
