(* ===== verification/Prog.v ===== *)
(** * Kernel programs

    The kernel's methods hold no lock across their steps: a method is a
    sequence of short critical sections on the tables, each taking one lock.
    A method is therefore a program [prog]: a tree of atomic actions on the
    shared state, plus the one blocking wait the kernel has (a condition
    variable with a deadline). [run] executes a program alone; [pool_step]
    interleaves the programs of several threads, one action at a time, with the
    clock moving in between. *)

From S2P Require Import Prelude.

(** The monotonic clock of the state. *)
Class Clock (St : Type) : Type := {
  clock : St → N;
  advance : N → St → St;
}.

Section prog.
Context {St : Type} `{Clock St}.

Inductive prog (A : Type) : Type :=
| Ret (a : A)
| Act {X : Type} (f : St → X * St) (k : X → prog A)
| Wait (settled : St → bool) (until : N) (k : bool → prog A).

Arguments Ret {A} a.
Arguments Act {A X} f k.
Arguments Wait {A} settled until k.

Fixpoint bind {A B} (p : prog A) (f : A → prog B) : prog B :=
  match p with
  | Ret a => f a
  | Act g k => Act g (λ x, bind (k x) f)
  | Wait c u k => Wait c u (λ b, bind (k b) f)
  end.

(** One critical section. *)
Definition act {X} (f : St → X * St) : prog X := Act f Ret.
Definition read {X} (f : St → X) : prog X := act (λ s, (f s, s)).
Definition modify (f : St → St) : prog unit := act (λ s, (tt, f s)).

(** [for x in l { f(x) }] *)
Fixpoint for_each {A} (l : list A) (f : A → prog unit) : prog unit :=
  match l with
  | [] => Ret tt
  | x :: l => bind (f x) (λ _, for_each l f)
  end.

(** [for x in l { acc = f(acc, x) }] *)
Fixpoint for_fold {A B} (l : list A) (acc : B) (f : B → A → prog B) : prog B :=
  match l with
  | [] => Ret acc
  | x :: l => bind (f acc x) (λ acc, for_fold l acc f)
  end.

(** Sequential execution. A wait that is not settled lets the clock reach the
    deadline, since no other thread runs. *)
Fixpoint run {A} (p : prog A) (s : St) : A * St :=
  match p with
  | Ret a => (a, s)
  | Act f k => let '(x, s') := f s in run (k x) s'
  | Wait c u k =>
      if c s then run (k true) s
      else run (k false) (if (clock s <? u)%N then advance u s else s)
  end.

(** One step of one thread. *)
Inductive thread_step {A} : prog A → St → prog A → St → Prop :=
| step_act {X} (f : St → X * St) k s :
    thread_step (Act f k) s (k (f s).1) (f s).2
| step_settled c u k s :
    c s = true → thread_step (Wait c u k) s (k true) s
| step_deadline c u k s :
    c s = false → (u ≤ clock s)%N → thread_step (Wait c u k) s (k false) s.

(** One step of a pool of threads, or of the clock. *)
Inductive pool_step {A} : list (prog A) * St → list (prog A) * St → Prop :=
| pool_thread pre p p' post s s' :
    thread_step p s p' s' → pool_step (pre ++ p :: post, s) (pre ++ p' :: post, s')
| pool_tick ps s n :
    (clock s ≤ n)%N → pool_step (ps, s) (ps, advance n s).

(** An executable scheduler: one step of a thread (a blocked or finished thread
    stays), and the steps of the threads a schedule names. *)
Definition step_thread {A} (p : prog A) (s : St) : prog A * St :=
  match p with
  | Ret _ => (p, s)
  | Act f k => let '(x, s') := f s in (k x, s')
  | Wait c u k => if c s then (k true, s) else if (u <=? clock s)%N then (k false, s) else (p, s)
  end.

Fixpoint exec {A} (sched : list nat) (c : list (prog A) * St) : list (prog A) * St :=
  match sched with
  | [] => c
  | i :: sched =>
      match c.1 !! i with
      | Some p => let '(p', s') := step_thread p c.2 in exec sched (<[i := p']> c.1, s')
      | None => exec sched c
      end
  end.

(** What a finished thread returned. *)
Definition outcome {A} (p : prog A) : option A := match p with Ret a => Some a | _ => None end.

(** ** Programs all of whose actions respect a relation *)

Fixpoint always (R : St → St → Prop) {A} (p : prog A) : Prop :=
  match p with
  | Ret _ => True
  | Act f k => (∀ s, R s (f s).2) ∧ (∀ x, always R (k x))
  | Wait _ u k => (∀ s, R s (advance u s)) ∧ (∀ b, always R (k b))
  end.

Lemma always_bind R {A B} (p : prog A) (f : A → prog B) :
  always R p → (∀ a, always R (f a)) → always R (bind p f).
Proof.
  intros P F. induction p as [a|X g k IH|c u k IH]; cbn in *; [apply F| |];
    destruct P; split; auto.
Qed.

Lemma always_modify R (f : St → St) : (∀ s, R s (f s)) → always R (modify f).
Proof. intros Hf. by split. Qed.

Lemma always_read R {X} (f : St → X) : Reflexive R → always R (read f).
Proof. intros Hr. by split. Qed.

Lemma always_one R {X} (f : St → X * St) : (∀ s, R s (f s).2) → always R (act f).
Proof. intros Hf. by split. Qed.

Lemma always_for_each R {A} (l : list A) f :
  (∀ x, x ∈ l → always R (f x)) → always R (for_each l f).
Proof.
  induction l as [|x l IH]; cbn; intros F; [done|].
  apply always_bind; [apply F; left|]. intros _. apply IH. intros y Hy. apply F. by right.
Qed.

Lemma always_for_fold R {A B} (l : list A) (acc : B) f :
  (∀ acc x, x ∈ l → always R (f acc x)) → always R (for_fold l acc f).
Proof.
  revert acc. induction l as [|x l IH]; intros acc F; cbn; [done|].
  apply always_bind; [apply F; left|]. intros a. apply IH. intros b y Hy. apply F. by right.
Qed.

Lemma always_impl (R R' : St → St → Prop) {A} (p : prog A) :
  (∀ s s', R s s' → R' s s') → always R p → always R' p.
Proof.
  intros I P. induction p as [a|X g k IH|c u k IH]; cbn in *; [done| |]; destruct P; split; auto.
Qed.

(** A reflexive and transitive relation respected by every action relates the
    ends of a sequential execution... *)
Lemma always_run (R : St → St → Prop) {A} (p : prog A) s :
  Reflexive R → Transitive R → always R p → R s (run p s).2.
Proof.
  intros Hr Ht P. revert s. induction p as [a|X f k IH|c u k IH]; intros s; cbn in *; [done| |];
    destruct P as [Hf Hk].
  - specialize (Hf s). destruct (f s) as [x s']. cbn in Hf. by etrans; [|apply IH].
  - destruct (c s); [by apply IH|]. destruct (_ <? _)%N; [|by apply IH].
    etrans; [apply Hf|by apply IH].
Qed.

(** ... and an invariant preserved by every action of every thread, and by the
    clock, holds in every state of every interleaving. *)
Definition preserves (I : St → Prop) (s s' : St) : Prop := I s → I s'.

#[export] Instance preserves_refl I : Reflexive (preserves I).
Proof. by intros s Hs. Qed.

#[export] Instance preserves_trans I : Transitive (preserves I).
Proof. intros s1 s2 s3 A B Hs. auto. Qed.

Lemma always_thread_step (I : St → Prop) {A} (p p' : prog A) s s' :
  always (preserves I) p → thread_step p s p' s' → I s → I s' ∧ always (preserves I) p'.
Proof.
  intros P S Hs. destruct S as [X f k s|c u k s Hc|c u k s Hc Hu]; destruct P as [Hf Hk].
  - split; [by apply Hf|apply Hk].
  - by split.
  - by split.
Qed.

Lemma always_pool (I : St → Prop) {A} (ps : list (prog A)) s ps' s' :
  (∀ n s, I s → I (advance n s)) →
  Forall (always (preserves I)) ps → I s →
  rtc pool_step (ps, s) (ps', s') → I s' ∧ Forall (always (preserves I)) ps'.
Proof.
  intros Adv F Hs R.
  assert (G : ∀ c c' : list (prog A) * St, rtc pool_step c c' →
    Forall (always (preserves I)) c.1 → I c.2 → I c'.2 ∧ Forall (always (preserves I)) c'.1).
  { clear -Adv. intros c c' R. induction R as [c|c1 c2 c3 S _ IH]; [done|].
    intros F Hs. destruct S as [pre p p' post s s' T|ps s n L]; cbn in *.
    - apply Forall_app in F as [F1 F2]. apply Forall_cons in F2 as [F2 F3].
      destruct (always_thread_step I _ _ _ _ F2 T Hs) as [Hs2 P2].
      apply IH; [|done]. apply Forall_app. split; [done|]. by constructor.
    - apply IH; [done|]. by apply Adv. }
  by apply (G _ _ R).
Qed.

(** A schedule is an interleaving. *)
Lemma exec_sound {A} sched (c : list (prog A) * St) : rtc pool_step c (exec sched c).
Proof.
  revert c. induction sched as [|i sched IH]; intros [ps s]; cbn; [done|].
  destruct (ps !! i) as [p|] eqn:Hp; [|done].
  assert (S : step_thread p s = (p, s) ∨ thread_step p s (step_thread p s).1 (step_thread p s).2).
  { destruct p as [a|X f k|c u k]; cbn; [by left| |].
    - right. pose proof (step_act f k s) as S. by destruct (f s).
    - destruct (c s) eqn:Hc; [right; by apply step_settled|].
      destruct (u <=? clock s)%N eqn:Hu; [|by left].
      right. apply step_deadline; [done|]. by apply N.leb_le. }
  destruct (step_thread p s) as [p' s'] eqn:Hs. cbn in S.
  destruct S as [[= -> ->]|S]; [rewrite list_insert_id by done; apply IH|].
  eapply rtc_l; [|apply IH].
  rewrite <- (take_drop_middle ps i p Hp) at 1. rewrite insert_take_drop by by eapply lookup_lt_Some.
  by constructor.
Qed.

Lemma exec_rtc {A} sched (ps : list (prog A)) s :
  rtc pool_step (ps, s) ((exec sched (ps, s)).1, (exec sched (ps, s)).2).
Proof. rewrite <- surjective_pairing. apply exec_sound. Qed.

(** ** Sequential reasoning *)

Lemma run_bind {A B} (p : prog A) (f : A → prog B) s :
  run (bind p f) s = let '(a, s') := run p s in run (f a) s'.
Proof.
  revert s. induction p as [a|X g k IH|c u k IH]; intros s; cbn; [done| |].
  - destruct (g s) as [x s']. apply IH.
  - destruct (c s); apply IH.
Qed.

Lemma run_ret {A} (a : A) s : run (Ret a) s = (a, s).
Proof. done. Qed.

Lemma run_read {X} (f : St → X) s : run (read f) s = (f s, s).
Proof. done. Qed.

Lemma run_modify (f : St → St) s : run (modify f) s = (tt, f s).
Proof. done. Qed.

Lemma run_act {X} (f : St → X * St) s : run (act f) s = f s.
Proof. cbn. by destruct (f s). Qed.

Lemma run_Act {A X} (f : St → X * St) (k : X → prog A) s : run (Act f k) s = run (k (f s).1) (f s).2.
Proof. cbn. by destruct (f s). Qed.

Lemma run_Wait {A} c u (k : bool → prog A) s :
  run (Wait c u k) s = run (k (c s)) (if c s then s else if (clock s <? u)%N then advance u s else s).
Proof. cbn. by destruct (c s). Qed.

(** ** Equivalence of programs

    Two programs are equivalent when they run alone alike, from every state. *)

#[global] Instance prog_equiv {A} : Equiv (prog A) := λ p q, ∀ s, run p s = run q s.

#[export] Instance prog_equivalence {A} : Equivalence (≡@{prog A}).
Proof.
  split; [by intros p s|by intros p q E s; rewrite E|].
  intros p q r E F s. by rewrite E, F.
Qed.

Lemma bind_equiv {A B} (p q : prog A) (f g : A → prog B) :
  p ≡ q → (∀ a, f a ≡ g a) → bind p f ≡ bind q g.
Proof. intros E F s. rewrite !run_bind, E. destruct (run q s). apply F. Qed.

Lemma for_each_equiv {A} (l : list A) (f g : A → prog unit) :
  (∀ x, f x ≡ g x) → for_each l f ≡ for_each l g.
Proof. intros E. induction l as [|x l IH]; cbn; [done|]. by apply bind_equiv. Qed.

Lemma for_fold_equiv {A B} (l : list A) (b : B) (f g : B → A → prog B) :
  (∀ b x, f b x ≡ g b x) → for_fold l b f ≡ for_fold l b g.
Proof.
  intros E. revert b. induction l as [|x l IH]; intros b; cbn; [done|]. by apply bind_equiv.
Qed.

(** ** Programs that do not see a change of the state

    Every action of [p] gives the same result before and after [g], and commutes
    with it. *)
Fixpoint commutes (g : St → St) {A} (p : prog A) : Prop :=
  match p with
  | Ret _ => True
  | Act f k => (∀ s, f (g s) = ((f s).1, g (f s).2)) ∧ (∀ x, commutes g (k x))
  | Wait c u k =>
      (∀ s, c (g s) = c s ∧ clock (g s) = clock s ∧ advance u (g s) = g (advance u s)) ∧
      (∀ b, commutes g (k b))
  end.

Lemma commutes_bind g {A B} (p : prog A) (f : A → prog B) :
  commutes g p → (∀ a, commutes g (f a)) → commutes g (bind p f).
Proof.
  intros P F. induction p as [a|X h k IH|c u k IH]; cbn in *; [apply F| |];
    destruct P; split; auto.
Qed.

Lemma commutes_read g {X} (f : St → X) : (∀ s, f (g s) = f s) → commutes g (read f).
Proof. intros Hf. split; [|done]. intros s. cbn. by rewrite Hf. Qed.

Lemma commutes_for_fold g {A B} (l : list A) (acc : B) f :
  (∀ acc x, commutes g (f acc x)) → commutes g (for_fold l acc f).
Proof.
  intros F. revert acc. induction l as [|x l IH]; intros acc; cbn; [done|].
  by apply commutes_bind.
Qed.

Lemma commutes_run g {A} (p : prog A) s :
  commutes g p → run p (g s) = ((run p s).1, g (run p s).2).
Proof.
  revert s. induction p as [a|X f k IH|c u k IH]; intros s P; cbn in *; [done| |];
    destruct P as [Hf Hk].
  - rewrite Hf. destruct (f s) as [x s']. cbn. by apply IH.
  - destruct (Hf s) as (-> & -> & Ha). destruct (c s); [by apply IH|].
    destruct (_ <? _)%N; rewrite ?Ha; by apply IH.
Qed.

(** A program whose actions all leave the state alone. *)
Lemma reads_run {A} (p : prog A) s : always eq p → run p s = ((run p s).1, s).
Proof.
  intros P. assert (E : s = (run p s).2); [|by destruct (run p s); cbn in *; subst].
  by apply (always_run eq); [apply _..|].
Qed.

(** [p] takes states of [P] to results and states of [Q]. *)
Definition triple {A} (P : St → Prop) (p : prog A) (Q : A → St → Prop) : Prop :=
  ∀ s, P s → Q (run p s).1 (run p s).2.

Lemma triple_bind {A B} P (p : prog A) Q (f : A → prog B) R :
  triple P p Q → (∀ a, triple (Q a) (f a) R) → triple P (bind p f) R.
Proof.
  intros Hp Hf s Hs. rewrite run_bind. specialize (Hp s Hs).
  destruct (run p s) as [a s']. by apply Hf.
Qed.

Lemma triple_conseq {A} (P P' : St → Prop) (p : prog A) (Q Q' : A → St → Prop) :
  triple P p Q → (∀ s, P' s → P s) → (∀ a s, Q a s → Q' a s) → triple P' p Q'.
Proof. intros T Hp Hq s Hs. apply Hq, T, Hp, Hs. Qed.

Lemma triple_for_each {A} (Inv : St → Prop) (l : list A) f :
  (∀ x, x ∈ l → triple Inv (f x) (λ _, Inv)) → triple Inv (for_each l f) (λ _, Inv).
Proof.
  induction l as [|x l IH]; intros F; cbn; [by intros s|].
  apply (triple_bind _ _ (λ _, Inv)); [apply F; left|]. intros _. apply IH. intros y Hy.
  apply F. by right.
Qed.
End prog.

Arguments prog St : clear implicits.
Arguments Ret {St A} a.
Arguments Act {St A X} f k.
Arguments Wait {St A} settled until k.

Notation "'let!' x ':=' p 'in' k" := (bind p (λ x, k))
  (at level 200, x pattern, p at level 200, k at level 200, right associativity) : matrix_scope.

Notation "'do!' p ';' k" := (bind p (λ _, k))
  (at level 200, p at level 200, k at level 200, right associativity) : matrix_scope.

(** [let x = p?;] *)
Notation "'let?!' x ':=' p 'in' k" :=
  (bind p (λ r, match r with Ok x => k | Err err => Ret (Err err) end))
  (at level 200, x pattern, p at level 200, k at level 200, right associativity) : matrix_scope.

#[global] Arguments bind : simpl never.
#[global] Arguments act : simpl never.
#[global] Arguments read : simpl never.
#[global] Arguments modify : simpl never.
#[global] Arguments run : simpl never.
