(* ===== verification/Timed.v ===== *)
(** * Programs and the clock

    A loop that polls a channel with a time-out until a deadline runs a number of rounds bounded
    by the clock: each round that ends without a result has let the clock reach the end of its
    time-out. [poll] is such a loop with an explicit number of rounds; [timed] states at which
    times a program can return what, under every interleaving, and [poll_returns] that enough
    rounds are enough. *)

From S2P Require Import Prelude Prog.

Section timed.
Context {St : Type} `{Clock St}.

Lemma bind_act {A B X} (g : St → X * St) k (f : A → prog St B) :
  bind (Act g k) f = Act g (λ x, bind (k x) f).
Proof. done. Qed.

Lemma bind_wait {A B} c u (k : bool → prog St A) (f : A → prog St B) :
  bind (Wait c u k) f = Wait c u (λ b, bind (k b) f).
Proof. done. Qed.

(** [loop { if let Some(a) = round() { return a } }], for at most [fuel] rounds. *)
Fixpoint poll {A} (fuel : nat) (round : prog St (option A)) : prog St (option A) :=
  match fuel with
  | O => Ret None
  | S fuel =>
      let! r := round in
      match r with
      | Some a => Ret (Some a)
      | None => poll fuel round
      end
  end.

(** Rounds of [quantum] that cover [span]. *)
Definition rounds (span quantum : N) : nat := 2 + N.to_nat (span / quantum).

(** Started at time [t] or later, [p] returns only [a] at a time [t'] with [Q t' a], whatever
    the other threads do. *)
Fixpoint timed {A} (Q : N → A → Prop) (t : N) (p : prog St A) : Prop :=
  match p with
  | Ret a => Q t a
  | Act f k => ∀ s, (t ≤ clock s)%N → timed Q (clock s) (k (f s).1)
  | Wait c u k =>
      (∀ s, (t ≤ clock s)%N → c s = true → timed Q (clock s) (k true)) ∧
      (∀ t', (t ≤ t')%N → (u ≤ t')%N → timed Q t' (k false))
  end.

Lemma timed_bind {A B} (Q : N → B → Prop) t (p : prog St A) (f : A → prog St B) :
  timed (λ t' a, timed Q t' (f a)) t p → timed Q t (bind p f).
Proof.
  revert t. induction p as [a|X g k IH|c u k IH]; intros t; [done| |].
  - rewrite bind_act. cbn. auto.
  - rewrite bind_wait. cbn. intros [T F]. split; auto.
Qed.

Lemma timed_mono {A} (P Q : N → A → Prop) t (p : prog St A) :
  (∀ t' a, (t ≤ t')%N → P t' a → Q t' a) → timed P t p → timed Q t p.
Proof.
  revert t. induction p as [a|X g k IH|c u k IH]; intros t I; cbn; [by apply I| |].
  - intros T s L. apply IH; [intros t' a L'; apply I; lia|auto].
  - intros [T F]. split.
    + intros s L C. apply IH; [intros t2 a L2; apply I; lia|auto].
    + intros t' L U. apply IH; [intros t2 a L2; apply I; lia|auto].
Qed.

(** The times only grow. *)
Lemma timed_after {A} (Q : N → A → Prop) t (p : prog St A) :
  timed Q t p → timed (λ t' a, (t ≤ t')%N ∧ Q t' a) t p.
Proof. apply timed_mono. by split. Qed.

Lemma timed_true {A} (Q : N → A → Prop) t (p : prog St A) : (∀ t' a, (t ≤ t')%N → Q t' a) → timed Q t p.
Proof.
  revert t. induction p as [a|X g k IH|c u k IH]; intros t I; cbn; [by apply I| |].
  - intros s L. apply IH. intros t' a L'. apply I. lia.
  - split; [intros s L _|intros t' L _]; apply IH; intros t2 a L2; apply I; lia.
Qed.

Lemma timed_read {A B} (Q : N → B → Prop) t (g : St → A) (f : A → prog St B) :
  (∀ s, (t ≤ clock s)%N → timed Q (clock s) (f (g s))) → timed Q t (bind (read g) f).
Proof. intros F. apply timed_bind. exact F. Qed.

(** After a part whose results do not matter. *)
Lemma timed_skip {A B} (Q : N → B → Prop) t (p : prog St A) (f : A → prog St B) :
  (∀ t' a, (t ≤ t')%N → timed Q t' (f a)) → timed Q t (bind p f).
Proof. intros F. apply timed_bind, timed_true. exact F. Qed.

(** Enough rounds: the loop never gives up before its deadline. A round that ends without a
    result started before the deadline [D] and lasted at least [q], or until [D]. *)
Lemma poll_returns {A} (round : prog St (option A)) (D q : N) fuel t :
  (0 < q)%N →
  (∀ t, timed (λ t' r, r = None → (t < D)%N ∧ (N.min (t + q) D ≤ t')%N) t round) →
  (D ≤ t + q * N.of_nat fuel)%N →
  timed (λ _ r, r ≠ None) t (poll (S fuel) round).
Proof.
  intros Hq R. revert t. induction fuel as [|fuel IH]; intros t L; cbn [poll]; apply timed_bind.
  - eapply timed_mono; [|apply R]. intros t' [a|] L' Hn; cbn; [done|]. destruct Hn; [done|]. lia.
  - eapply timed_mono; [|apply R]. intros t' [a|] L' Hn; cbn [timed]; [done|].
    destruct Hn as [A1 A2]; [done|]. apply IH. lia.
Qed.

Lemma rounds_enough span q D t :
  (0 < q)%N → (D ≤ t + span)%N → (D ≤ t + q * N.of_nat (S (N.to_nat (span / q))))%N.
Proof.
  intros Hq L. pose proof (N.div_mod span q ltac:(lia)) as E. pose proof (N.mod_lt span q ltac:(lia)). nia.
Qed.

(** ** All interleavings

    A step of a pool that does not turn the clock back: the clock is monotonic. *)

Definition clocked_step {A} (c c' : list (prog St A) * St) : Prop :=
  pool_step c c' ∧ (clock c.2 ≤ clock c'.2)%N.

Lemma timed_later {A} (P : A → Prop) t t' (p : prog St A) :
  (t ≤ t')%N → timed (λ _, P) t p → timed (λ _, P) t' p.
Proof.
  intros L. destruct p as [a|X g k|c u k]; cbn; [done| |].
  - intros T s L'. apply T. lia.
  - intros [T F]. split; [intros s L2 C; apply T; [lia|done]|intros t2 L2 U; auto with lia].
Qed.

Lemma timed_step {A} (P : A → Prop) (p p' : prog St A) s s' :
  (clock s ≤ clock s')%N → timed (λ _, P) (clock s) p → thread_step p s p' s' → timed (λ _, P) (clock s') p'.
Proof.
  intros L T S. destruct S as [X f k s|c u k s E|c u k s E Lu]; cbn in T.
  - eapply timed_later; [exact L|by apply T].
  - eapply timed_later; [exact L|]. by apply T.
  - eapply timed_later; [exact L|]. by apply T.
Qed.

(** What a thread may return, it may return under every interleaving with other threads. *)
Lemma timed_pool {A} (P : A → Prop) ps ps' s s' :
  Forall (timed (λ _, P) (clock s)) ps → rtc clocked_step (ps, s) (ps', s') →
  Forall (timed (λ _, P) (clock s')) ps'.
Proof.
  intros T R. remember (ps, s) as c eqn:Ec. remember (ps', s') as c' eqn:Ec'.
  revert ps s Ec T. induction R as [c|c1 c2 c3 S _ IH]; intros ps s -> T.
  { by injection Ec' as -> ->. }
  destruct S as [S L]. cbn in L.
  assert (W : ∀ s2 l, (clock s ≤ clock s2)%N → Forall (timed (λ _, P) (clock s)) l →
    Forall (timed (λ _, P) (clock s2)) l).
  { intros s2 l L2 Hl. eapply Forall_impl; [apply Hl|]. intros q. by apply timed_later. }
  inversion S as [pre p p' post s1 s2 St1 E1 E2|qs s1 n L1 E1 E2]; subst; clear S; cbn in L.
  - apply Forall_app in T as [T1 [T2 T3]%Forall_cons].
    eapply IH; [done|done|]. apply Forall_app. split; [eauto|]. constructor; [|eauto].
    by eapply timed_step.
  - eapply IH; [done|done|]. eauto.
Qed.

Lemma timed_outcome {A} (P : A → Prop) ps ps' s s' i a :
  Forall (timed (λ _, P) (clock s)) ps → rtc clocked_step (ps, s) (ps', s') →
  (ps' !! i ≫= outcome) = Some a → P a.
Proof.
  intros T R O. pose proof (timed_pool P _ _ _ _ T R) as G.
  destruct (ps' !! i) as [p|] eqn:E; [|done]. apply (Forall_lookup_1 _ _ _ _ G) in E.
  destruct p; cbn in O; try done. by injection O as ->.
Qed.

(** One thread among others: what its steps and the time keep, holds of what is left of it. *)
Lemma thread_kept {A} (Φ : N → prog St A → Prop) ps ps' s s' i p :
  (∀ t t' p, (t ≤ t')%N → Φ t p → Φ t' p) →
  (∀ p p' s s', (clock s ≤ clock s')%N → Φ (clock s) p → thread_step p s p' s' → Φ (clock s') p') →
  ps !! i = Some p → Φ (clock s) p → rtc clocked_step (ps, s) (ps', s') →
  ∃ q, ps' !! i = Some q ∧ Φ (clock s') q.
Proof.
  intros Mono Step Hp T R. remember (ps, s) as c eqn:Ec. remember (ps', s') as c' eqn:Ec'.
  revert ps s p Ec Hp T. induction R as [c|c1 c2 c3 S _ IH]; intros ps s p -> Hp T.
  { injection Ec' as -> ->. eauto. }
  destruct S as [S L]. cbn in L.
  inversion S as [pre q q' post s1 s2 St1 E1 E2|qs s1 n L1 E1 E2]; subst; clear S; cbn in L.
  - destruct (decide (i = length pre)) as [->|Ne].
    + rewrite list_lookup_middle in Hp by done. injection Hp as ->.
      eapply IH; [done|done|by rewrite list_lookup_middle|]. by eapply Step.
    + eapply (IH eq_refl _ _ p); [done| |by eapply Mono].
      rewrite <- Hp. destruct (decide (i < length pre)) as [Lt|Ge].
      * by rewrite !lookup_app_l.
      * rewrite !lookup_app_r by lia. destruct (i - length pre) as [|j] eqn:Ej; [lia|done].
  - eapply IH; [done|done|done|]. by eapply Mono.
Qed.

(** ** A thread can always return *)

Definition later (s s' : St) : Prop := (clock s ≤ clock s')%N.

#[export] Instance later_refl : Reflexive later.
Proof. intros s. unfold later. lia. Qed.

Hypothesis clock_advance : ∀ n s, clock (advance n s) = N.max n (clock s).

Lemma pool_at {A} ps i (p p' : prog St A) s s' :
  ps !! i = Some p → thread_step p s p' s' → later s s' → clocked_step (ps, s) (<[i := p']> ps, s').
Proof.
  intros Hp T L. split; [|exact L]. rewrite <- (take_drop_middle ps i p Hp) at 1.
  rewrite insert_take_drop by by eapply lookup_lt_Some. by constructor.
Qed.

(** Its own steps and the clock bring a thread to its end; the other threads need not move. *)
Lemma finish {A} (p : prog St A) ps i s :
  always later p → ps !! i = Some p → ∃ a s', rtc clocked_step (ps, s) (<[i := Ret a]> ps, s').
Proof.
  revert ps s. induction p as [a|X f k IH|c u k IH]; intros ps s P Hp.
  - exists a, s. by rewrite list_insert_id.
  - destruct P as [Pf Pk]. destruct (IH (f s).1 (<[i := k (f s).1]> ps) (f s).2) as (a & s' & R).
    { apply Pk. } { apply list_lookup_insert_eq. by eapply lookup_lt_Some. }
    rewrite list_insert_insert_eq in R. exists a, s'. eapply rtc_l; [|exact R].
    apply (pool_at _ _ _ _ _ _ Hp); [apply step_act|apply Pf].
  - destruct P as [Pf Pk]. set (s1 := advance (N.max u (clock s)) s).
    assert (L1 : later s s1) by (unfold later, s1; rewrite clock_advance; lia).
    destruct (IH (c s1) (<[i := k (c s1)]> ps) s1) as (a & s' & R).
    { apply Pk. } { apply list_lookup_insert_eq. by eapply lookup_lt_Some. }
    rewrite list_insert_insert_eq in R. exists a, s'. eapply (rtc_l _ _ (ps, s1)).
    { split; [|exact L1]. apply pool_tick. lia. }
    eapply rtc_l; [|exact R]. apply (pool_at _ _ _ _ _ _ Hp); [|apply reflexivity].
    destruct (c s1) eqn:Ec; [by apply step_settled|]. apply step_deadline; [done|].
    unfold s1. rewrite clock_advance. lia.
Qed.

(** Among any other threads: what the thread returns satisfies [P], and from every state it can
    return without their help. *)
Lemma thread_returns {A} (P : A → Prop) ps ps' s s' i p :
  always later p → timed (λ _, P) (clock s) p → ps !! i = Some p → rtc clocked_step (ps, s) (ps', s') →
  (∀ a, (ps' !! i ≫= outcome) = Some a → P a) ∧
  ∃ a s'', P a ∧ rtc clocked_step (ps', s') (<[i := Ret a]> ps', s'').
Proof.
  intros L T Hp R.
  destruct (thread_kept (λ t q, always later q ∧ timed (λ _, P) t q) ps ps' s s' i p) as (q & Hq & Lq & Tq);
    [| |exact Hp|by split|exact R|].
  { intros t t' q' Lt [A1 A2]. split; [done|]. by eapply timed_later. }
  { intros q1 q2 s1 s2 Lt [A1 A2] St1. split; [|by eapply timed_step]. destruct St1; apply A1. }
  split.
  - intros a O. rewrite Hq in O. destruct q; cbn in O; try done. by injection O as ->.
  - destruct (finish q ps' i s' Lq Hq) as (a & s'' & F). exists a, s''. split; [|done].
    destruct (thread_kept (timed (λ _, P)) ps' (<[i := Ret a]> ps') s' s'' i q) as (r & Hr & Tr);
      [apply timed_later|intros ?????? ?; by eapply timed_step|exact Hq|exact Tq|exact F|].
    rewrite list_lookup_insert_eq in Hr by by eapply lookup_lt_Some. by injection Hr as <-.
Qed.

(** ** How long a thread waits

    [lone Q t p]: executed alone from time [t], with actions that take no time, [p] can return [a] at
    a time [t'] with [Q t' a]. *)
Fixpoint lone {A} (Q : N → A → Prop) (t : N) (p : prog St A) : Prop :=
  match p with
  | Ret a => Q t a
  | Act f k => ∀ s, clock s = t → clock (f s).2 = t ∧ lone Q t (k (f s).1)
  | Wait c u k =>
      (∀ t', (t ≤ t' ≤ N.max t u)%N → lone Q t' (k true)) ∧ lone Q (N.max t u) (k false)
  end.

(** At every point of [p], whatever other threads did before and however long they took: from time
    [t'] on, [p] can return alone at a time [e] with [Q t' e a]. *)
Fixpoint prompt {A} (Q : N → N → A → Prop) (t : N) (p : prog St A) : Prop :=
  (∀ t', (t ≤ t')%N → lone (Q t') t' p) ∧
  match p with
  | Ret _ => True
  | Act f k => ∀ s, (t ≤ clock s)%N → prompt Q (clock s) (k (f s).1)
  | Wait c u k =>
      (∀ s, (t ≤ clock s)%N → c s = true → prompt Q (clock s) (k true)) ∧
      (∀ t', (t ≤ t')%N → (u ≤ t')%N → prompt Q t' (k false))
  end.

Lemma lone_mono {A} (P Q : N → A → Prop) t (p : prog St A) : (∀ t' a, P t' a → Q t' a) → lone P t p → lone Q t p.
Proof.
  intros I. revert t. induction p as [a|X g k IH|c u k IH]; intros t; cbn; [apply I| |].
  - intros L s Hs. destruct (L s Hs). auto.
  - intros [T F]. split; auto.
Qed.

Lemma lone_bind {A B} (Q : N → B → Prop) t (p : prog St A) (f : A → prog St B) :
  lone (λ t' a, lone Q t' (f a)) t p → lone Q t (bind p f).
Proof.
  revert t. induction p as [a|X g k IH|c u k IH]; intros t; [done| |].
  - rewrite bind_act. cbn. intros L s Hs. destruct (L s Hs). auto.
  - rewrite bind_wait. cbn. intros [T F]. split; auto.
Qed.

(** Programs that neither wait nor move the clock. *)
Fixpoint instant {A} (p : prog St A) : Prop :=
  match p with
  | Ret _ => True
  | Act f k => (∀ s, clock (f s).2 = clock s) ∧ ∀ x, instant (k x)
  | Wait _ _ _ => False
  end.

Lemma instant_bind {A B} (p : prog St A) (f : A → prog St B) :
  instant p → (∀ a, instant (f a)) → instant (bind p f).
Proof.
  intros P F. induction p as [a|X g k IH|c u k IH]; [apply F| |done]. destruct P as [Pg Pk]. split; auto.
Qed.

Lemma instant_act {X} (f : St → X * St) : (∀ s, clock (f s).2 = clock s) → instant (act f).
Proof. by split. Qed.

Lemma lone_instant {A B} (Q : N → B → Prop) t (p : prog St A) (f : A → prog St B) :
  instant p → (∀ a, lone Q t (f a)) → lone Q t (bind p f).
Proof.
  intros P F. apply lone_bind. induction p as [a|X g k IH|c u k IH]; [apply F| |done].
  destruct P as [Pg Pk]. intros s Hs. rewrite Pg. auto.
Qed.

Lemma lone_read {A B} (Q : N → B → Prop) t (g : St → A) (f : A → prog St B) :
  (∀ s, clock s = t → lone Q t (f (g s))) → lone Q t (bind (read g) f).
Proof. intros F s Hs. split; [done|]. by apply F. Qed.

Lemma prompt_lone {A} (Q : N → N → A → Prop) t t' (p : prog St A) : prompt Q t p → (t ≤ t')%N → lone (Q t') t' p.
Proof. destruct p; intros [L _]; apply L. Qed.

Lemma prompt_later {A} (Q : N → N → A → Prop) t t' (p : prog St A) : (t ≤ t')%N → prompt Q t p → prompt Q t' p.
Proof.
  intros Lt. destruct p as [a|X g k|c u k]; cbn; intros [L K]; (split; [intros t2 L2; apply L; lia|]).
  - done.
  - intros s Ls. apply K. lia.
  - destruct K as [T F]. split; [intros s Ls; apply T; lia|intros t2 L2; apply F; lia].
Qed.

Lemma prompt_bind {A B} (Q : N → N → B → Prop) t (p : prog St A) (f : A → prog St B) :
  prompt (λ t' e a, lone (Q t') e (f a)) t p → timed (λ t' a, prompt Q t' (f a)) t p → prompt Q t (bind p f).
Proof.
  revert t. induction p as [a|X g k IH|c u k IH]; intros t P T; [exact T| |].
  - split; [intros t' Lt; apply (lone_bind (Q t') t' (Act g k)); by eapply prompt_lone in P|]. destruct P as [_ P].
    intros s Ls. apply IH; [by apply P|by apply T].
  - split; [intros t' Lt; apply (lone_bind (Q t') t' (Wait c u k)); by eapply prompt_lone in P|].
    destruct P as [_ [P1 P2]], T as [T1 T2].
    split; [intros s Ls C; apply IH; [by apply P1|by apply T1]|intros t' Lt U; apply IH; [by apply P2|by apply T2]].
Qed.

Lemma prompt_mono {A} (P Q : N → N → A → Prop) t (p : prog St A) :
  (∀ t' e a, (t ≤ t')%N → P t' e a → Q t' e a) → prompt P t p → prompt Q t p.
Proof.
  revert t. induction p as [a|X g k IH|c u k IH]; intros t I [L K].
  all: split; [intros t' Lt; eapply lone_mono; [|by apply L]; intros e b; by apply I|].
  - done.
  - intros s Ls. apply IH; [intros t' e b Lt; apply I; lia|by apply K].
  - destruct K as [T F]. split.
    + intros s Ls C. apply IH; [intros t' e b Lt; apply I; lia|by apply T].
    + intros t' Lt U. apply IH; [intros t2 e b L2; apply I; lia|by apply F].
Qed.

(** An instant part, then the rest. *)
Lemma prompt_skip {A B} (Q : N → N → B → Prop) t (p : prog St A) (f : A → prog St B) :
  instant p → (∀ t' a, (t ≤ t')%N → prompt Q t' (f a)) → prompt Q t (bind p f).
Proof.
  revert t. induction p as [a|X g k IH|c u k IH]; intros t P F; [apply F; lia| |done].
  split.
  - intros t' Lt. apply (lone_instant (Q t') t' (Act g k)); [done|]. intros a.
    apply (prompt_lone Q t' t'); [by apply F|lia].
  - destruct P as [_ Pk]. intros s Ls. apply IH; [done|]. intros t' a Lt. apply F. lia.
Qed.

Lemma prompt_read {A B} (Q : N → N → B → Prop) t (g : St → A) (f : A → prog St B) :
  (∀ s, (t ≤ clock s)%N → prompt Q (clock s) (f (g s))) → prompt Q t (bind (read g) f).
Proof.
  intros F. split; [|exact F]. intros t' Lt s Hs. split; [done|]. subst t'.
  apply (prompt_lone Q (clock s)); [by apply F|lia].
Qed.

Lemma instant_lone {A} t (p : prog St A) : instant p → lone (λ e _, e = t) t p.
Proof.
  induction p as [a|X g k IH|c u k IH]; intros P; [done| |done]. destruct P as [Pg Pk]. intros s Hs.
  rewrite Pg. auto.
Qed.

Lemma instant_prompt {A} (Q : N → N → A → Prop) t (p : prog St A) :
  (∀ t' a, Q t' t' a) → instant p → prompt Q t p.
Proof.
  intros HQ. revert t. induction p as [a|X g k IH|c u k IH]; intros t P; [split; [intros t' _; apply HQ|done]| |done]. split.
  - intros t' Lt. eapply lone_mono; [|by apply (instant_lone t' (Act g k))]. by intros e a ->.
  - destruct P as [_ Pk]. intros s Ls. by apply IH.
Qed.

Lemma prompt_ret {A} (Q : N → N → A → Prop) t a : (∀ t', (t ≤ t')%N → Q t' t' a) → prompt Q t (Ret a).
Proof. by split. Qed.

(** ** A loop that polls until [D], with a patience of [C] *)

Definition by_end {A} (C : N) (t e : N) (_ : A) : Prop := (t ≤ e ≤ t + C)%N.

Lemma by_end_refl {A} C t (a : A) : by_end C t t a.
Proof. unfold by_end. lia. Qed.

(** Within the patience, and then an instant part. *)
Lemma prompt_then {A B} C t (p : prog St A) (f : A → prog St B) :
  (∀ a, instant (f a)) → prompt (by_end C) t p → prompt (by_end C) t (bind p f).
Proof.
  intros F P. apply prompt_bind.
  - eapply prompt_mono; [|exact P]. intros t' e a _ L. eapply lone_mono; [|by apply instant_lone]. by intros e' b ->.
  - apply timed_true. intros t' a _. apply instant_prompt; [apply by_end_refl|apply F].
Qed.

Lemma lone_poll {A} (round : prog St (option A)) (D : N) fuel t :
  (∀ t, lone (λ e _, (t ≤ e ≤ N.max t D)%N) t round) →
  lone (λ e _, (t ≤ e ≤ N.max t D)%N) t (poll fuel round).
Proof.
  intros R. revert t. induction fuel as [|fuel IH]; intros t; cbn [poll]; [cbn; lia|].
  apply lone_bind. eapply lone_mono; [|apply R]. intros e [a|] L; cbn [lone]; [done|].
  eapply lone_mono; [|apply IH]. cbn. lia.
Qed.

Lemma prompt_poll {A} (round : prog St (option A)) (D C : N) fuel t :
  (∀ t, lone (λ e _, (t ≤ e ≤ N.max t D)%N) t round) →
  (∀ t', (t ≤ t')%N → prompt (by_end C) t' round) → (D ≤ t + C)%N →
  prompt (by_end C) t (poll fuel round).
Proof.
  intros R P L. revert t P L. induction fuel as [|fuel IH]; intros t P L; cbn [poll].
  { apply prompt_ret. unfold by_end. lia. }
  apply prompt_bind.
  - eapply prompt_mono; [|by apply P]. unfold by_end. intros t' e [a|] Lt Le; [done|].
    eapply lone_mono; [|by apply (lone_poll _ D)]. cbn. lia.
  - apply timed_true. intros t' [a|] Lt; [apply prompt_ret; unfold by_end; lia|].
    apply IH; [intros t2 L2; apply P; lia|lia].
Qed.

(** ** From every state, within its patience *)

Lemma lone_run {A} (Q : N → A → Prop) (p : prog St A) ps i s :
  lone Q (clock s) p → ps !! i = Some p →
  ∃ a s', rtc clocked_step (ps, s) (<[i := Ret a]> ps, s') ∧ Q (clock s') a.
Proof.
  revert ps s. induction p as [a|X f k IH|c u k IH]; intros ps s L Hp.
  - exists a, s. by rewrite list_insert_id.
  - destruct (L s eq_refl) as [E L']. rewrite <- E in L'.
    destruct (IH (f s).1 (<[i := k (f s).1]> ps) (f s).2 L') as (a & s' & R & HQ).
    { apply list_lookup_insert_eq. by eapply lookup_lt_Some. }
    rewrite list_insert_insert_eq in R. exists a, s'. split; [|done]. eapply rtc_l; [|exact R].
    apply (pool_at _ _ _ _ _ _ Hp); [apply step_act|]. unfold later. lia.
  - destruct L as [LT LF]. set (s1 := advance (N.max u (clock s)) s).
    assert (E1 : clock s1 = N.max (clock s) u) by (unfold s1; rewrite clock_advance; lia).
    assert (L1 : lone Q (clock s1) (k (c s1))) by (rewrite E1; destruct (c s1); [apply LT; lia|done]).
    destruct (IH (c s1) (<[i := k (c s1)]> ps) s1 L1) as (a & s' & R & HQ).
    { apply list_lookup_insert_eq. by eapply lookup_lt_Some. }
    rewrite list_insert_insert_eq in R. exists a, s'. split; [|done]. eapply (rtc_l _ _ (ps, s1)).
    { split; [apply pool_tick; lia|]. cbn. lia. }
    eapply rtc_l; [|exact R]. apply (pool_at _ _ _ _ _ _ Hp); [|apply reflexivity].
    destruct (c s1) eqn:Ec; [by apply step_settled|]. apply step_deadline; [done|]. lia.
Qed.

Lemma prompt_step {A} (Q : N → N → A → Prop) (p p' : prog St A) s s' :
  (clock s ≤ clock s')%N → prompt Q (clock s) p → thread_step p s p' s' → prompt Q (clock s') p'.
Proof.
  intros L P S. eapply prompt_later; [exact L|]. destruct S as [X f k s|c u k s E|c u k s E Lu], P as [_ P].
  - by apply P.
  - by apply P.
  - by apply P.
Qed.

(** Among any other threads: what the thread returns satisfies [P], and from every state it can
    return without their help, within [C] of that moment. *)
Lemma thread_returns_by {A} (P : A → Prop) (C : N) ps ps' s s' i p :
  timed (λ _, P) (clock s) p → prompt (by_end C) (clock s) p → ps !! i = Some p →
  rtc clocked_step (ps, s) (ps', s') →
  (∀ a, (ps' !! i ≫= outcome) = Some a → P a) ∧
  ∃ a s'', P a ∧ (clock s'' ≤ clock s' + C)%N ∧ rtc clocked_step (ps', s') (<[i := Ret a]> ps', s'').
Proof.
  intros T Pr Hp R.
  destruct (thread_kept (λ t q, prompt (by_end C) t q ∧ timed (λ _, P) t q) ps ps' s s' i p) as (q & Hq & Lq & Tq);
    [| |exact Hp|by split|exact R|].
  { intros t t' q' Lt [A1 A2]. split; [by eapply prompt_later|by eapply timed_later]. }
  { intros q1 q2 s1 s2 Lt [A1 A2] St1. split; [by eapply prompt_step|by eapply timed_step]. }
  split.
  - intros a O. rewrite Hq in O. destruct q; cbn in O; try done. by injection O as ->.
  - destruct (lone_run _ q ps' i s' (prompt_lone _ _ _ _ Lq (N.le_refl _)) Hq) as (a & s'' & F & [_ B]).
    exists a, s''. split_and!; [|done|done].
    destruct (thread_kept (timed (λ _, P)) ps' (<[i := Ret a]> ps') s' s'' i q) as (r & Hr & Tr);
      [apply timed_later|intros ?????? ?; by eapply timed_step|exact Hq|exact Tq|exact F|].
    rewrite list_lookup_insert_eq in Hr by by eapply lookup_lt_Some. by injection Hr as <-.
Qed.

(** A schedule that keeps the clock. *)
Fixpoint clock_kept {A} (sched : list nat) (c : list (prog St A) * St) : bool :=
  match sched with
  | [] => true
  | i :: sched =>
      match c.1 !! i with
      | Some p =>
          let '(p', s') := step_thread p c.2 in
          (clock c.2 <=? clock s')%N && clock_kept sched (<[i := p']> c.1, s')
      | None => clock_kept sched c
      end
  end.

Lemma exec_clocked {A} sched (ps : list (prog St A)) s :
  clock_kept sched (ps, s) = true → rtc clocked_step (ps, s) ((exec sched (ps, s)).1, (exec sched (ps, s)).2).
Proof.
  rewrite <- surjective_pairing. revert ps s. induction sched as [|i sched IH]; intros ps s; cbn; [done|].
  destruct (ps !! i) as [p|] eqn:Hp; [|apply IH].
  destruct (step_thread p s) as [p' s'] eqn:Es. intros [L K]%andb_true_iff. apply N.leb_le in L.
  specialize (IH _ _ K).
  assert (S : step_thread p s = (p, s) ∨ thread_step p s p' s').
  { destruct p as [a|X f k|c u k]; cbn in *; [by left| |].
    - right. pose proof (step_act f k s) as S. destruct (f s). by injection Es as <- <-.
    - destruct (c s) eqn:Hc; [injection Es as <- <-; right; by apply step_settled|].
      destruct (u <=? clock s)%N eqn:Hu; [|by left]. injection Es as <- <-.
      right. apply step_deadline; [done|]. by apply N.leb_le. }
  destruct S as [S|S]; [rewrite Es in S; injection S as -> ->; by rewrite list_insert_id in *|].
  eapply rtc_l; [|exact IH]. split; [|done].
  rewrite <- (take_drop_middle ps i p Hp) at 1. rewrite insert_take_drop by by eapply lookup_lt_Some.
  by constructor.
Qed.
End timed.
