(* ===== verification/Debts.v ===== *)
(** * Budgets held by threads

    A thread that charges a shared budget owes the charge until it gives it back. [owes l p]
    follows a program with the list [l] of the charges it holds, last one first: every action
    keeps an invariant of the state and changes the counters by no more than the charges, and
    the program ends without charges. In an interleaving of such programs a counter never exceeds
    what the threads hold; when all have returned it is back at zero. *)

From S2P Require Import Prelude Prog.

Section debts.
Context {St : Type} `{Clock St} {K : Type} `{EqDecision K}.
Context (counter : St → K → N) (I : St → Prop).
Hypothesis advance_keeps : ∀ n s, counter (advance n s) = counter s ∧ (I s → I (advance n s)).

Fixpoint total (l : list (K * N)) (k : K) : N :=
  match l with
  | [] => 0
  | e :: l => if decide (e.1 = k) then e.2 + total l k else total l k
  end.

(** The counters grow by what is newly held, and shrink at least by what is given back. *)
Definition moves (l l' : list (K * N)) (s s' : St) : Prop :=
  ∀ k T, (counter s k ≤ total l k + T → counter s' k ≤ total l' k + T)%N.

Fixpoint owes {A} (l : list (K * N)) (Q : A → list (K * N) → Prop) (p : prog St A) : Prop :=
  match p with
  | Ret a => Q a l
  | Act f k => ∀ s, (I s → I (f s).2) ∧ ∃ l', moves l l' s (f s).2 ∧ owes l' Q (k (f s).1)
  | Wait _ _ k => ∀ b, owes l Q (k b)
  end.

Lemma owes_bind {A B} l (Q : B → _ → Prop) (p : prog St A) (f : A → prog St B) :
  owes l (λ a l', owes l' Q (f a)) p → owes l Q (bind p f).
Proof.
  revert l. induction p as [a|X g k IH|c u k IH]; intros l P; [exact P| |].
  - intros s. destruct (P s) as (Hi & l' & M & O). split; [done|]. exists l'. split; [done|]. by apply IH.
  - intros b. apply IH, P.
Qed.

Lemma owes_mono {A} l (P Q : A → _ → Prop) (p : prog St A) :
  (∀ a l', P a l' → Q a l') → owes l P p → owes l Q p.
Proof.
  intros M. revert l. induction p as [a|X g k IH|c u k IH]; intros l; cbn; [apply M| |].
  - intros O s. destruct (O s) as (Hi & l' & Hm & O'). split; [done|]. exists l'. split; [done|]. by apply IH.
  - intros O b. by apply IH.
Qed.

(** Actions that keep the invariant and raise no counter. *)
Definition calmly (s s' : St) : Prop := (I s → I s') ∧ ∀ k, (counter s' k ≤ counter s k)%N.

#[export] Instance calmly_refl : Reflexive calmly.
Proof. by split. Qed.

Lemma owes_calm {A} l (Q : A → _ → Prop) (p : prog St A) :
  always calmly p → (∀ a, Q a l) → owes l Q p.
Proof.
  intros P F. induction p as [a|X g k IH|c u k IH]; [apply F| |]; destruct P as [Pg Pk].
  - intros s. destruct (Pg s) as [Hi Hc]. split; [done|]. exists l. split; [|by apply IH].
    intros k' T L. specialize (Hc k'). lia.
  - intros b. by apply IH.
Qed.

(** The usual shape: a part that leaves the debt alone, then the rest. *)
Lemma owes_seq {A B} l (Q : B → _ → Prop) (p : prog St A) (f : A → prog St B) :
  owes l (λ _ l', l' = l) p → (∀ a, owes l Q (f a)) → owes l Q (bind p f).
Proof.
  intros P F. apply owes_bind. eapply owes_mono; [|exact P]. by intros a l' ->.
Qed.

Lemma owes_seq_calm {A B} l (Q : B → _ → Prop) (p : prog St A) (f : A → prog St B) :
  always calmly p → (∀ a, owes l Q (f a)) → owes l Q (bind p f).
Proof. intros P F. apply owes_seq; [|done]. by apply owes_calm. Qed.

Lemma owes_for_each {A} l (xs : list A) f :
  (∀ x, owes l (λ _ l', l' = l) (f x)) → owes l (λ _ l', l' = l) (Prog.for_each xs f).
Proof. intros F. induction xs as [|x xs IH]; [done|]. cbn. apply owes_seq; [apply F|done]. Qed.

Lemma owes_for_fold {A B} l (xs : list A) (b : B) f :
  (∀ b x, owes l (λ _ l', l' = l) (f b x)) → owes l (λ _ l', l' = l) (for_fold xs b f).
Proof. intros F. revert b. induction xs as [|x xs IH]; intros b; [done|]. cbn. apply owes_seq; [apply F|apply IH]. Qed.

(** ** Interleavings *)

Definition settled {A} : list (K * N) → prog St A → Prop := λ l p, owes l (λ _ l', l' = []) p.

Definition balance {A} (c : list (prog St A) * St) : Prop :=
  ∃ ls : list (list (K * N)), Forall2 settled ls c.1 ∧ I c.2 ∧ ∀ k, (counter c.2 k ≤ total (concat ls) k)%N.

Lemma debts_app l l' k : total (l ++ l') k = (total l k + total l' k)%N.
Proof. induction l as [|e l IH]; cbn; [done|]. rewrite IH. case_decide; lia. Qed.

Lemma balance_thread {A} pre (p p' : prog St A) post s s' :
  thread_step p s p' s' → balance (pre ++ p :: post, s) → balance (pre ++ p' :: post, s').
Proof.
  intros T (ls & F & Hi & C). cbn in *. apply Forall2_app_inv_r in F as (l1 & l2' & F1 & F2 & ->).
  inversion F2 as [|l q l2 qs Fl Fl2]; subst. clear F2.
  destruct T as [X f k s|c u k s E|c u k s E L].
  - destruct (Fl s) as (Hi' & l' & M & O). exists (l1 ++ l' :: l2). cbn. split_and!; [|auto|].
    { by apply Forall2_app; [|constructor]. }
    intros k'. specialize (C k'). rewrite concat_app, debts_app in *. cbn in *. rewrite debts_app in *.
    specialize (M k' (total (concat l1) k' + total (concat l2) k')%N ltac:(lia)). lia.
  - exists (l1 ++ l :: l2). cbn. split_and!; [|done..]. apply Forall2_app; [done|]. constructor; [apply Fl|done].
  - exists (l1 ++ l :: l2). cbn. split_and!; [|done..]. apply Forall2_app; [done|]. constructor; [apply Fl|done].
Qed.

Lemma balance_pool {A} (ps ps' : list (prog St A)) s s' :
  rtc pool_step (ps, s) (ps', s') → balance (ps, s) → balance (ps', s').
Proof.
  intros R. remember (ps, s) as c eqn:E1. remember (ps', s') as c' eqn:E2. clear E1 E2 ps ps' s s'.
  induction R as [c|c1 c2 c3 S _ IH]; [done|]. intros L. apply IH.
  destruct S as [pre p p' post s s' T|ps s n _]; [by eapply balance_thread|].
  destruct L as (ls & F & Hi & C). destruct (advance_keeps n s) as [E G].
  exists ls. cbn in *. split_and!; [done|auto|]. intros k. by rewrite E.
Qed.

Lemma balance_start {A} (ps : list (prog St A)) s :
  Forall (settled []) ps → I s → (∀ k, counter s k = 0%N) → balance (ps, s).
Proof.
  intros F Hi C. exists (replicate (length ps) []). cbn. split_and!; [|done|].
  - clear -F. induction F; cbn; constructor; auto.
  - intros k. rewrite C. lia.
Qed.

(** When every thread has returned, every counter is back at zero. *)
Lemma balance_end {A} (ps : list (prog St A)) s :
  balance (ps, s) → Forall (λ p, is_Some (outcome p)) ps → ∀ k, counter s k = 0%N.
Proof.
  intros (ls & F & Hi & C) D k. specialize (C k). cbn in *. enough (E : concat ls = []) by (rewrite E in C; cbn in C; lia).
  clear C Hi. induction F as [|l p ls ps Fl F IH]; [done|]. apply Forall_cons in D as [[a Ha] D].
  destruct p; cbn in Ha; [|done..]. cbn in Fl. subst. cbn. auto.
Qed.
End debts.
