(* ===== verification/KernelState.v ===== *)
(** * The kernel's state ([kernel.rs], its data types)

    [Kernel] with each mutex-protected field as a component of one record. The
    registered hook and event sink are the events they received so far ([None]
    when nothing is registered); a forwarder is only registered or not, what it
    answers is part of the environment. *)

From S2P Require Import Prelude RustStd Json Identity Contexts Resources Registry Bus Deps Calls.
From S2P Require Import Journal Manifest Prog.

(** ** Data *)

Record DepBinding : Type := mkDepBinding {
  db_id : string;
  db_consumer_logical : string;
  db_consumer_instance : InstanceId;
  db_consumer_generation : N;
  db_consumer_context : ContextId;
  db_interface : string;
  db_capability : string;
  db_provider_logical : string;
  db_provider_instance : InstanceId;
  db_provider_generation : N;
}.

Record DepUsage : Type := mkDepUsage { du_per_session : gmap string N; du_global : N }.

Record DepAdmit : Type := mkDepAdmit {
  da_parent : TicketId;
  da_binding : string;
  da_caller_logical : string;
  da_caller_instance : N;
  da_caller_generation : N;
  da_session : string;
  da_timeout_ms : N;
}.

Record DepDeny : Type := mkDepDeny { dd_code : string; dd_reason : string }.

Record RemoteProvider : Type := mkRemoteProvider {
  rp_logical : string;
  rp_instance : N;
  rp_generation : N;
  rp_peer : string;
}.

Record OpenCall : Type := mkOpenCall {
  oc_ticket : TicketId;
  oc_cap : string;
  oc_logical : string;
  oc_instance : InstanceId;
  oc_generation : N;
  oc_context : ContextId;
  oc_policy : CallPolicy;
  oc_cancel : N;
}.

Record Plugin : Type := mkPlugin {
  pl_id : string;
  pl_state : Fsm;
  pl_tier : string;
  pl_trust : string;
  pl_generation : N;
  pl_restart_policy : string;
  pl_caps : list string;
  pl_subs : list string;
  pl_requires : list Requirement;
  pl_bindings : list Binding;
  pl_calls : gmap string CallPolicy;
  pl_execution : ExecutionKind;
  pl_wait_cause : option string;
  pl_reducer : string;
  pl_init_state : Value;
  pl_json_state : Value;
  pl_panic_count : N;
  pl_restart_times : list Instant;
  pl_instance_id : N;
  pl_context_id : N;
  pl_epoch : N;
  pl_resources : list ResourceHandle;
}.

Inductive DisposeOutcome : Type :=
| OutDisposed
| OutAlreadyDisposed
| OutCleanupPending (reason : string).

#[export] Instance DisposeOutcome_eq_dec : EqDecision DisposeOutcome.
Proof. solve_decision. Defined.

Definition outcome_as_str (o : DisposeOutcome) : string :=
  match o with
  | OutDisposed => "Disposed"
  | OutAlreadyDisposed => "AlreadyDisposed"
  | OutCleanupPending _ => "CleanupPending"
  end.

Definition MAX_EXTERNAL_RESOURCES_PER_CONTEXT : nat := 64.
Definition INFLIGHT_CAUSE_PREFIX : string := "in-flight calls pending: ".

Record Kernel : Type := mkKernel {
  k_plugins : gmap string Plugin;
  k_caps : gmap string Entry;
  k_bus : gmap string (list Subscription);
  k_journal : Journal;
  k_dry_run : bool;
  k_contexts : ContextTable;
  k_resources : ResourceTable;
  k_definitions : gmap string StoredManifest;
  k_calls : CallsTable;
  k_forwarder : bool;
  k_remote_forwarder : bool;
  k_hook : option (list LifecycleEvent);
  k_dep_bindings : gmap string DepBinding;
  k_dep_seq : N;
  k_outbound_grants : gmap (string * string) N;
  k_remote_providers : gmap string RemoteProvider;
  k_grant_seq : N;
  k_dep_usage : DepUsage;
  k_event_sink : option (list (string * Value));
  k_now : N;
}.

(** [Kernel::new] on an opened journal; [epoch] is the boot entropy. *)
Definition kernel_new (epoch : N) (j : Journal) (dry_run : bool) : Kernel :=
  mkKernel ∅ ∅ ∅ j dry_run (context_table_new epoch) resource_table_new ∅ calls_new false false
    None ∅ 1 ∅ ∅ 1 (mkDepUsage ∅ 0) None 0.

(** ** Field updates *)

Definition set_plugins (v : gmap string Plugin) (k : Kernel) : Kernel :=
  mkKernel v (k_caps k) (k_bus k) (k_journal k) (k_dry_run k) (k_contexts k) (k_resources k)
    (k_definitions k) (k_calls k) (k_forwarder k) (k_remote_forwarder k) (k_hook k)
    (k_dep_bindings k) (k_dep_seq k) (k_outbound_grants k) (k_remote_providers k) (k_grant_seq k)
    (k_dep_usage k) (k_event_sink k) (k_now k).

Definition set_caps (v : gmap string Entry) (k : Kernel) : Kernel :=
  mkKernel (k_plugins k) v (k_bus k) (k_journal k) (k_dry_run k) (k_contexts k) (k_resources k)
    (k_definitions k) (k_calls k) (k_forwarder k) (k_remote_forwarder k) (k_hook k)
    (k_dep_bindings k) (k_dep_seq k) (k_outbound_grants k) (k_remote_providers k) (k_grant_seq k)
    (k_dep_usage k) (k_event_sink k) (k_now k).

Definition set_bus (v : gmap string (list Subscription)) (k : Kernel) : Kernel :=
  mkKernel (k_plugins k) (k_caps k) v (k_journal k) (k_dry_run k) (k_contexts k) (k_resources k)
    (k_definitions k) (k_calls k) (k_forwarder k) (k_remote_forwarder k) (k_hook k)
    (k_dep_bindings k) (k_dep_seq k) (k_outbound_grants k) (k_remote_providers k) (k_grant_seq k)
    (k_dep_usage k) (k_event_sink k) (k_now k).

Definition set_journal (v : Journal) (k : Kernel) : Kernel :=
  mkKernel (k_plugins k) (k_caps k) (k_bus k) v (k_dry_run k) (k_contexts k) (k_resources k)
    (k_definitions k) (k_calls k) (k_forwarder k) (k_remote_forwarder k) (k_hook k)
    (k_dep_bindings k) (k_dep_seq k) (k_outbound_grants k) (k_remote_providers k) (k_grant_seq k)
    (k_dep_usage k) (k_event_sink k) (k_now k).

Definition set_dry_run (v : bool) (k : Kernel) : Kernel :=
  mkKernel (k_plugins k) (k_caps k) (k_bus k) (k_journal k) v (k_contexts k) (k_resources k)
    (k_definitions k) (k_calls k) (k_forwarder k) (k_remote_forwarder k) (k_hook k)
    (k_dep_bindings k) (k_dep_seq k) (k_outbound_grants k) (k_remote_providers k) (k_grant_seq k)
    (k_dep_usage k) (k_event_sink k) (k_now k).

Definition set_contexts (v : ContextTable) (k : Kernel) : Kernel :=
  mkKernel (k_plugins k) (k_caps k) (k_bus k) (k_journal k) (k_dry_run k) v (k_resources k)
    (k_definitions k) (k_calls k) (k_forwarder k) (k_remote_forwarder k) (k_hook k)
    (k_dep_bindings k) (k_dep_seq k) (k_outbound_grants k) (k_remote_providers k) (k_grant_seq k)
    (k_dep_usage k) (k_event_sink k) (k_now k).

Definition set_resources (v : ResourceTable) (k : Kernel) : Kernel :=
  mkKernel (k_plugins k) (k_caps k) (k_bus k) (k_journal k) (k_dry_run k) (k_contexts k) v
    (k_definitions k) (k_calls k) (k_forwarder k) (k_remote_forwarder k) (k_hook k)
    (k_dep_bindings k) (k_dep_seq k) (k_outbound_grants k) (k_remote_providers k) (k_grant_seq k)
    (k_dep_usage k) (k_event_sink k) (k_now k).

Definition set_definitions (v : gmap string StoredManifest) (k : Kernel) : Kernel :=
  mkKernel (k_plugins k) (k_caps k) (k_bus k) (k_journal k) (k_dry_run k) (k_contexts k)
    (k_resources k) v (k_calls k) (k_forwarder k) (k_remote_forwarder k) (k_hook k)
    (k_dep_bindings k) (k_dep_seq k) (k_outbound_grants k) (k_remote_providers k) (k_grant_seq k)
    (k_dep_usage k) (k_event_sink k) (k_now k).

Definition set_calls (v : CallsTable) (k : Kernel) : Kernel :=
  mkKernel (k_plugins k) (k_caps k) (k_bus k) (k_journal k) (k_dry_run k) (k_contexts k)
    (k_resources k) (k_definitions k) v (k_forwarder k) (k_remote_forwarder k) (k_hook k)
    (k_dep_bindings k) (k_dep_seq k) (k_outbound_grants k) (k_remote_providers k) (k_grant_seq k)
    (k_dep_usage k) (k_event_sink k) (k_now k).

Definition set_forwarder (v : bool) (k : Kernel) : Kernel :=
  mkKernel (k_plugins k) (k_caps k) (k_bus k) (k_journal k) (k_dry_run k) (k_contexts k)
    (k_resources k) (k_definitions k) (k_calls k) v (k_remote_forwarder k) (k_hook k)
    (k_dep_bindings k) (k_dep_seq k) (k_outbound_grants k) (k_remote_providers k) (k_grant_seq k)
    (k_dep_usage k) (k_event_sink k) (k_now k).

Definition set_remote_forwarder (v : bool) (k : Kernel) : Kernel :=
  mkKernel (k_plugins k) (k_caps k) (k_bus k) (k_journal k) (k_dry_run k) (k_contexts k)
    (k_resources k) (k_definitions k) (k_calls k) (k_forwarder k) v (k_hook k) (k_dep_bindings k)
    (k_dep_seq k) (k_outbound_grants k) (k_remote_providers k) (k_grant_seq k) (k_dep_usage k)
    (k_event_sink k) (k_now k).

Definition set_hook (v : option (list LifecycleEvent)) (k : Kernel) : Kernel :=
  mkKernel (k_plugins k) (k_caps k) (k_bus k) (k_journal k) (k_dry_run k) (k_contexts k)
    (k_resources k) (k_definitions k) (k_calls k) (k_forwarder k) (k_remote_forwarder k) v
    (k_dep_bindings k) (k_dep_seq k) (k_outbound_grants k) (k_remote_providers k) (k_grant_seq k)
    (k_dep_usage k) (k_event_sink k) (k_now k).

Definition set_dep_bindings (v : gmap string DepBinding) (k : Kernel) : Kernel :=
  mkKernel (k_plugins k) (k_caps k) (k_bus k) (k_journal k) (k_dry_run k) (k_contexts k)
    (k_resources k) (k_definitions k) (k_calls k) (k_forwarder k) (k_remote_forwarder k)
    (k_hook k) v (k_dep_seq k) (k_outbound_grants k) (k_remote_providers k) (k_grant_seq k)
    (k_dep_usage k) (k_event_sink k) (k_now k).

Definition set_dep_seq (v : N) (k : Kernel) : Kernel :=
  mkKernel (k_plugins k) (k_caps k) (k_bus k) (k_journal k) (k_dry_run k) (k_contexts k)
    (k_resources k) (k_definitions k) (k_calls k) (k_forwarder k) (k_remote_forwarder k)
    (k_hook k) (k_dep_bindings k) v (k_outbound_grants k) (k_remote_providers k) (k_grant_seq k)
    (k_dep_usage k) (k_event_sink k) (k_now k).

Definition set_outbound_grants (v : gmap (string * string) N) (k : Kernel) : Kernel :=
  mkKernel (k_plugins k) (k_caps k) (k_bus k) (k_journal k) (k_dry_run k) (k_contexts k)
    (k_resources k) (k_definitions k) (k_calls k) (k_forwarder k) (k_remote_forwarder k)
    (k_hook k) (k_dep_bindings k) (k_dep_seq k) v (k_remote_providers k) (k_grant_seq k)
    (k_dep_usage k) (k_event_sink k) (k_now k).

Definition set_remote_providers (v : gmap string RemoteProvider) (k : Kernel) : Kernel :=
  mkKernel (k_plugins k) (k_caps k) (k_bus k) (k_journal k) (k_dry_run k) (k_contexts k)
    (k_resources k) (k_definitions k) (k_calls k) (k_forwarder k) (k_remote_forwarder k)
    (k_hook k) (k_dep_bindings k) (k_dep_seq k) (k_outbound_grants k) v (k_grant_seq k)
    (k_dep_usage k) (k_event_sink k) (k_now k).

Definition set_grant_seq (v : N) (k : Kernel) : Kernel :=
  mkKernel (k_plugins k) (k_caps k) (k_bus k) (k_journal k) (k_dry_run k) (k_contexts k)
    (k_resources k) (k_definitions k) (k_calls k) (k_forwarder k) (k_remote_forwarder k)
    (k_hook k) (k_dep_bindings k) (k_dep_seq k) (k_outbound_grants k) (k_remote_providers k) v
    (k_dep_usage k) (k_event_sink k) (k_now k).

Definition set_dep_usage (v : DepUsage) (k : Kernel) : Kernel :=
  mkKernel (k_plugins k) (k_caps k) (k_bus k) (k_journal k) (k_dry_run k) (k_contexts k)
    (k_resources k) (k_definitions k) (k_calls k) (k_forwarder k) (k_remote_forwarder k)
    (k_hook k) (k_dep_bindings k) (k_dep_seq k) (k_outbound_grants k) (k_remote_providers k)
    (k_grant_seq k) v (k_event_sink k) (k_now k).

Definition set_event_sink (v : option (list (string * Value))) (k : Kernel) : Kernel :=
  mkKernel (k_plugins k) (k_caps k) (k_bus k) (k_journal k) (k_dry_run k) (k_contexts k)
    (k_resources k) (k_definitions k) (k_calls k) (k_forwarder k) (k_remote_forwarder k)
    (k_hook k) (k_dep_bindings k) (k_dep_seq k) (k_outbound_grants k) (k_remote_providers k)
    (k_grant_seq k) (k_dep_usage k) v (k_now k).

Definition set_now (v : N) (k : Kernel) : Kernel :=
  mkKernel (k_plugins k) (k_caps k) (k_bus k) (k_journal k) (k_dry_run k) (k_contexts k)
    (k_resources k) (k_definitions k) (k_calls k) (k_forwarder k) (k_remote_forwarder k)
    (k_hook k) (k_dep_bindings k) (k_dep_seq k) (k_outbound_grants k) (k_remote_providers k)
    (k_grant_seq k) (k_dep_usage k) (k_event_sink k) v.

Definition plg_state (v : Fsm) (p : Plugin) : Plugin :=
  mkPlugin (pl_id p) v (pl_tier p) (pl_trust p) (pl_generation p) (pl_restart_policy p)
    (pl_caps p) (pl_subs p) (pl_requires p) (pl_bindings p) (pl_calls p) (pl_execution p)
    (pl_wait_cause p) (pl_reducer p) (pl_init_state p) (pl_json_state p) (pl_panic_count p)
    (pl_restart_times p) (pl_instance_id p) (pl_context_id p) (pl_epoch p) (pl_resources p).

Definition plg_bindings (v : list Binding) (p : Plugin) : Plugin :=
  mkPlugin (pl_id p) (pl_state p) (pl_tier p) (pl_trust p) (pl_generation p) (pl_restart_policy p)
    (pl_caps p) (pl_subs p) (pl_requires p) v (pl_calls p) (pl_execution p) (pl_wait_cause p)
    (pl_reducer p) (pl_init_state p) (pl_json_state p) (pl_panic_count p) (pl_restart_times p)
    (pl_instance_id p) (pl_context_id p) (pl_epoch p) (pl_resources p).

Definition plg_wait_cause (v : option string) (p : Plugin) : Plugin :=
  mkPlugin (pl_id p) (pl_state p) (pl_tier p) (pl_trust p) (pl_generation p) (pl_restart_policy p)
    (pl_caps p) (pl_subs p) (pl_requires p) (pl_bindings p) (pl_calls p) (pl_execution p) v
    (pl_reducer p) (pl_init_state p) (pl_json_state p) (pl_panic_count p) (pl_restart_times p)
    (pl_instance_id p) (pl_context_id p) (pl_epoch p) (pl_resources p).

Definition plg_json_state (v : Value) (p : Plugin) : Plugin :=
  mkPlugin (pl_id p) (pl_state p) (pl_tier p) (pl_trust p) (pl_generation p) (pl_restart_policy p)
    (pl_caps p) (pl_subs p) (pl_requires p) (pl_bindings p) (pl_calls p) (pl_execution p)
    (pl_wait_cause p) (pl_reducer p) (pl_init_state p) v (pl_panic_count p) (pl_restart_times p)
    (pl_instance_id p) (pl_context_id p) (pl_epoch p) (pl_resources p).

Definition plg_panic_count (v : N) (p : Plugin) : Plugin :=
  mkPlugin (pl_id p) (pl_state p) (pl_tier p) (pl_trust p) (pl_generation p) (pl_restart_policy p)
    (pl_caps p) (pl_subs p) (pl_requires p) (pl_bindings p) (pl_calls p) (pl_execution p)
    (pl_wait_cause p) (pl_reducer p) (pl_init_state p) (pl_json_state p) v (pl_restart_times p)
    (pl_instance_id p) (pl_context_id p) (pl_epoch p) (pl_resources p).

Definition plg_restart_times (v : list Instant) (p : Plugin) : Plugin :=
  mkPlugin (pl_id p) (pl_state p) (pl_tier p) (pl_trust p) (pl_generation p) (pl_restart_policy p)
    (pl_caps p) (pl_subs p) (pl_requires p) (pl_bindings p) (pl_calls p) (pl_execution p)
    (pl_wait_cause p) (pl_reducer p) (pl_init_state p) (pl_json_state p) (pl_panic_count p) v
    (pl_instance_id p) (pl_context_id p) (pl_epoch p) (pl_resources p).

Definition plg_resources (v : list ResourceHandle) (p : Plugin) : Plugin :=
  mkPlugin (pl_id p) (pl_state p) (pl_tier p) (pl_trust p) (pl_generation p) (pl_restart_policy p)
    (pl_caps p) (pl_subs p) (pl_requires p) (pl_bindings p) (pl_calls p) (pl_execution p)
    (pl_wait_cause p) (pl_reducer p) (pl_init_state p) (pl_json_state p) (pl_panic_count p)
    (pl_restart_times p) (pl_instance_id p) (pl_context_id p) (pl_epoch p) v.

#[export] Instance kernel_clock : Clock Kernel := {
  clock := k_now;
  advance n k := set_now (N.max n (k_now k)) k;
}.

Notation kprog := (prog Kernel).

(** ** The environment

    What the kernel asks of the world outside it: whether the OS starts a
    thread, what the registered forwarder answers, the rendering of the wall
    clock, and the manifest files. [env_nesting] bounds how deep reconciliations
    nest in an execution; every theorem holds for every bound. *)

Class Env : Type := {
  env_spawn : ResourceHandle → option string;
  env_forward : ForwardRequest → ForwardOutcome;
  env_ts : Instant → string;
  env_wall_ms : Instant → N;
  env_read : string → result Value string;   (* read_to_string, then from_str *)
  env_dir : option (list string);            (* the *.json files of plugins_dir *)
  env_in_dir : string → bool;                (* src.starts_with(&dir) *)
  env_debug : string → string;               (* the Debug rendering of a string *)
  env_nesting : nat;
}.

(** ** One lock, one action *)

Definition on_contexts {X} (f : ContextTable → X * ContextTable) : kprog X :=
  act (λ k, let '(x, t) := f (k_contexts k) in (x, set_contexts t k)).
Definition on_resources {X} (f : ResourceTable → X * ResourceTable) : kprog X :=
  act (λ k, let '(x, t) := f (k_resources k) in (x, set_resources t k)).
Definition on_calls {X} (f : CallsTable → X * CallsTable) : kprog X :=
  act (λ k, let '(x, t) := f (k_calls k) in (x, set_calls t k)).
Definition on_caps {X} (f : gmap string Entry → X * gmap string Entry) : kprog X :=
  act (λ k, let '(x, t) := f (k_caps k) in (x, set_caps t k)).
Definition on_bus {X} (f : gmap string (list Subscription) → X * gmap string (list Subscription))
    : kprog X :=
  act (λ k, let '(x, t) := f (k_bus k) in (x, set_bus t k)).
Definition on_plugins {X} (f : gmap string Plugin → X * gmap string Plugin) : kprog X :=
  act (λ k, let '(x, t) := f (k_plugins k) in (x, set_plugins t k)).
Definition on_dep_bindings {X} (f : gmap string DepBinding → X * gmap string DepBinding)
    : kprog X :=
  act (λ k, let '(x, t) := f (k_dep_bindings k) in (x, set_dep_bindings t k)).

(** Updates without a result. *)
Definition upd {T} (f : T → T) (t : T) : unit * T := (tt, f t).

(** [if let Some(p) = ps.get_mut(logical) { *p = f(p) }]. *)
Definition update_plugin (logical : string) (f : Plugin → Plugin) : kprog unit :=
  on_plugins (upd (alter f logical)).

(** The same, guarded by [p.instance_id == inst]. *)
Definition update_plugin_of (logical : string) (inst : InstanceId) (f : Plugin → Plugin)
    : kprog unit :=
  update_plugin logical (λ p, if (pl_instance_id p =? inst)%N then f p else p).

Section env.
Context {E : Env}.

(** [self.journal.append(fiber, kind, args, Value::Null)]. *)
Definition journal (fiber kind : string) (args : Value) : kprog N :=
  act (λ k, let '(n, j) := append fiber kind args JNull (env_ts (k_now k)) true (k_journal k) in
            (n, set_journal j k)).

(** [register]: the ownership record under one lock, the live thread under
    another. *)
Definition register_resource (ctx : ContextId) (inst : InstanceId) (logical : string)
    (generation : N) (kind : ResourceKind) : kprog (result ResourceHandle AcquireError) :=
  match validate_kind kind with
  | Err e => Ret (Err e)
  | Ok _ =>
      let! h := on_resources (register_record ctx inst logical generation kind) in
      on_resources (register_attach kind h ctx (env_spawn h))
  end.

(** [begin_release]: the upfront read, then the claim under the lock. *)
Definition begin_release_prog (h : ResourceHandle) : kprog (result ReleaseClaim ReleaseError) :=
  let?! _ := on_resources (begin_release_check h) in
  on_resources (begin_release_claim h).

(** Removes the publication of a resource that is going away. *)
Definition unpublish (kind : ResourceKind) (inst : InstanceId) : kprog unit :=
  match kind with
  | Cap name => do! on_caps (revoke_cap_if_owned name inst); Ret tt
  | Sub topic => do! on_bus (unsubscribe_topic_if_owned inst topic); Ret tt
  | _ => Ret tt
  end.

(** Makes a registered resource visible. *)
Definition publish_resource (kind : ResourceKind) (r : InstanceRef) : kprog unit :=
  match kind with
  | Cap name => on_caps (upd (provide_instance name r))
  | Sub topic => on_bus (upd (subscribe_instance (ref_logical r) (ref_instance r) topic))
  | _ => Ret tt
  end.

(** [emit_hook]. *)
Definition emit_hook (ev : LifecycleEvent) : kprog unit :=
  modify (λ k, match k_hook k with
               | Some l => set_hook (Some (l ++ [ev])) k
               | None => k
               end).
End env.
