(* ===== verification/KernelCalls.v ===== *)
(** * Calls: admission, dependency children, mediated commits ([kernel.rs])

    The methods of [Kernel] on tickets, grants, opaque bindings and quotas.
    [maybe_finalize] ends in [reconcile]; since reconciliation itself disposes
    instances, the methods that can reach it take the reconciliation program
    [rc] as an argument, and [KernelLifecycle] ties the knot. *)

From S2P Require Import Prelude RustStd Json Identity Contexts Resources Registry Bus Deps Calls.
From S2P Require Import Journal Manifest Prog KernelState.

Section env.
Context {E : Env}.

(** ** Small readers *)

Definition epoch : kprog N := read (λ k, ct_epoch (k_contexts k)).

Definition current_of (logical : string) : kprog (option ContextRecord) :=
  read (λ k, current logical (k_contexts k)).

Definition policy_for (logical cap : string) : kprog CallPolicy :=
  read (λ k, default policy_default (and_then (k_plugins k !! logical) (λ p, pl_calls p !! cap))).

Definition definition_is_remote (logical : string) : kprog bool :=
  read (λ k, is_some_and sm_remote (k_definitions k !! logical)).

Definition outbound_policy_of (logical : string) : kprog (option OutboundPolicy) :=
  read (λ k, and_then (k_definitions k !! logical) sm_outbound).

Definition grant_of (consumer cap : string) : kprog (option N) :=
  read (λ k, k_outbound_grants k !! (consumer, cap)).

Definition ctx_active (r : ContextRecord) : bool := bool_decide (canonical (cr_state r) = Active).

(** ** The merged view of activations *)

(** The synthetic record of a registered remote provider; its context id is
    [u64::MAX]. *)
Definition remote_state (logical : string) : kprog (option ContextRecord) :=
  let! reg := read (λ k, k_remote_providers k !! logical) in
  match reg with
  | None => Ret None
  | Some reg =>
      let! defined := read (λ k, is_some (k_definitions k !! logical)) in
      if negb defined then Ret None
      else
        let! e := epoch in
        Ret (Some (mkContextRecord u64_max (rp_instance reg) (rp_logical reg)
                     (rp_generation reg) e Active None None))
  end.

Definition current_all_merged : kprog (gmap string ContextRecord) :=
  let! states := read (λ k, current_all (k_contexts k)) in
  let! regs := read (λ k, keys (k_remote_providers k)) in
  for_fold regs states (λ states logical,
    let! rec := remote_state logical in
    Ret (match rec with Some r => <[logical := r]> states | None => states end)).

(** The stored binding still designates the provider's active activation. *)
Definition binding_live (states : gmap string ContextRecord) (b : Binding) : bool :=
  match states !! bd_provider_logical b with
  | Some st =>
      ctx_active st && (cr_instance st =? bd_provider_instance b)%N
      && (cr_generation st =? bd_provider_generation b)%N
  | None => false
  end.

Definition bindings_stale (logical : string) (states : gmap string ContextRecord)
    : kprog bool :=
  let! bindings := read (λ k, default [] (option_map pl_bindings (k_plugins k !! logical))) in
  Ret (negb (forallb (binding_live states) bindings)).

(** ** Admission *)

(** The error for a capability nobody publishes: the definition that declares
    it, if any, tells why. *)
Definition admission_missing (cap : string) : kprog Value :=
  let! owner := read (λ k,
    option_map fst (List.find (λ kv, existsb (λ c, bool_decide (c = cap)) (sm_caps kv.2))
              (map_to_list (k_definitions k)))) in
  let missing :=
    obj [("error", JString "no such capability"); ("code", JString "no-such-capability")] in
  match owner with
  | None => Ret missing
  | Some o =>
      let! st := current_of o in
      match st with
      | None => Ret missing
      | Some st =>
          match canonical (cr_state st) with
          | Waiting | Preparing | Registered =>
              Ret (obj [("error", JString (default "dependency unavailable" (cr_cause st)));
                        ("code", JString "dependency-unavailable"); ("logical", JString o)])
          | Quiescing | CleanupPending | Disposed | Failed =>
              Ret (obj [("error", JString "plugin not available");
                        ("code", JString "context-not-active"); ("logical", JString o)])
          | _ => Ret missing
          end
      end
  end.

Definition stale_generation_of (ctx : ContextRecord) : Value :=
  obj [("error", JString "stale generation"); ("code", JString "stale-generation");
       ("logical", JString (cr_logical ctx)); ("generation", j_u64 (cr_generation ctx))].

(** The checks on an instance that resolved: active, current, and with valid
    bindings. *)
Definition admission_of_instance (inst : InstanceId)
    : kprog (result (string * ContextRecord) Value) :=
  let! active := read (λ k, require_active inst (k_contexts k)) in
  match active with
  | Ok ctx =>
      let! cur := current_of (cr_logical ctx) in
      if is_some_and (λ c, negb (cr_instance c =? inst)%N) cur then
        Ret (Err (stale_generation_of ctx))
      else
        let fiber := cr_logical ctx in
        let! fresh := current_all_merged in
        let! plugin_active := read (λ k,
          is_some_and (λ p, bool_decide (canonical (pl_state p) = Active))
            (k_plugins k !! fiber)) in
        if negb plugin_active then
          Ret (Err (obj [("error", JString "plugin not available");
                         ("code", JString "context-not-active")]))
        else
          let! stale := bindings_stale fiber fresh in
          if stale then
            Ret (Err (obj [("error", JString "dependency-unavailable: binding obsoleto");
                           ("code", JString "dependency-unavailable");
                           ("logical", JString fiber)]))
          else Ret (Ok (fiber, ctx))
  | Err (NotActive logical state) =>
      Ret (Err (obj [("error", JString "context not active");
                     ("code", JString "context-not-active"); ("logical", JString logical);
                     ("state", JString state)]))
  | Err (StaleGeneration logical expected got) =>
      Ret (Err (obj [("error", JString "stale generation"); ("code", JString "stale-generation");
                     ("logical", JString logical); ("expected", j_u64 expected);
                     ("got", j_u64 got)]))
  | Err _ =>
      Ret (Err (obj [("error", JString "stale generation");
                     ("code", JString "stale-generation")]))
  end.

Definition admission_record (cap : string) : kprog (result (string * ContextRecord) Value) :=
  let! r := read (λ k, resolve_ref cap (k_caps k)) in
  match r with
  | None => let! e := admission_missing cap in Ret (Err e)
  | Some r =>
      if (ref_instance r =? 0)%N then
        let! cur := current_of (ref_logical r) in
        match cur with
        | Some c => admission_of_instance (cr_instance c)
        | None =>
            Ret (Err (obj [("error", JString "plugin not available");
                           ("code", JString "plugin-not-loaded")]))
        end
      else admission_of_instance (ref_instance r)
  end.

(** ** Quotas and descendants *)

Definition release_usage (session : string) (u : DepUsage) : DepUsage :=
  let per :=
    match du_per_session u !! session with
    | Some c =>
        let c := saturating_sub c 1 in
        if (c =? 0)%N then delete session (du_per_session u)
        else <[session := c]> (du_per_session u)
    | None => du_per_session u
    end in
  mkDepUsage per (saturating_sub (du_global u) 1).

Definition dep_release (session : string) : kprog unit :=
  modify (λ k, set_dep_usage (release_usage session (k_dep_usage k)) k).

Definition journal_cancelled (reason : string) (t : TicketRecord) : kprog unit :=
  do! journal (tk_logical t) "call.cancelled"
        (obj [("ticket", j_u64 (tk_id t)); ("reason", JString reason)]);
  Ret tt.

Definition revoke_ticket_descendants (parent : TicketId) (reason : string) : kprog unit :=
  let! ts := on_calls (revoke_descendants parent reason) in
  for_each ts (journal_cancelled reason).

(** ** Grants *)

Definition grant_outbound (consumer cap : string) : kprog (N * list TicketRecord) :=
  let! rev := act (λ k, (k_grant_seq k, set_grant_seq (k_grant_seq k + 1) k)) in
  do! modify (λ k, set_outbound_grants (<[(consumer, cap) := rev]> (k_outbound_grants k)) k);
  let! revoked := on_calls (revoke_grant_children consumer cap (Some rev) "grant-superseded") in
  do! for_each revoked (journal_cancelled "grant-superseded");
  Ret (rev, revoked).

Definition revoke_outbound (consumer cap : string) : kprog (list TicketRecord) :=
  do! modify (λ k, set_outbound_grants (delete (consumer, cap) (k_outbound_grants k)) k);
  let! revoked := on_calls (revoke_grant_children consumer cap None "grant-revoked") in
  do! for_each revoked (journal_cancelled "grant-revoked");
  Ret revoked.

(** ** Opaque bindings *)

Definition dependency_bindings_of (logical : string) : kprog (list DepBinding) :=
  let! cur := current_of logical in
  match cur with
  | None => Ret []
  | Some cur =>
      read (λ k, values_where
        (λ b, bool_decide (db_consumer_logical b = logical)
              && (db_consumer_instance b =? cr_instance cur)%N
              && (db_consumer_generation b =? cr_generation cur)%N) (k_dep_bindings k))
  end.

(** The capability of the provider's definition that serves a binding. *)
Definition binding_capability (defs : gmap string StoredManifest) (b : Binding)
    : option string :=
  d ← defs !! bd_provider_logical b;
  let '(base, major) := split_cap (bd_interface b) in
  let req := mkRequirement (bd_interface b) base major (Some (bd_provider_logical b)) in
  List.find (λ c, cap_satisfies c req) (sm_caps d).

(** One iteration of the loop of [issue_dep_bindings]: the sequence counter and
    the map of handles. *)
Definition issue_one (defs : gmap string StoredManifest) (logical : string) (inst : InstanceId)
    (generation : N) (ctx : ContextId) (st : N * gmap string DepBinding) (b : Binding)
    : N * gmap string DepBinding :=
  match binding_capability defs b with
  | None => st
  | Some capability =>
      let '(n, out) := st in
      let remote := is_some_and sm_remote (defs !! bd_provider_logical b) in
      let id := (if remote then "rb-" else "bind-") +:+ display n in
      ((n + 1)%N,
       <[id := mkDepBinding id logical inst generation ctx (bd_interface b) capability
                 (bd_provider_logical b) (bd_provider_instance b)
                 (bd_provider_generation b)]> out)
  end.

Definition issue_dep_bindings (logical : string) (inst : InstanceId) (generation : N)
    (bindings : list Binding) : kprog unit :=
  let! cur := read (λ k, get_by_instance inst (k_contexts k)) in
  match cur with
  | None => Ret tt
  | Some cur =>
      if negb (bool_decide (cr_logical cur = logical))
         || negb (cr_generation cur =? generation)%N then Ret tt
      else
        let! defs := read k_definitions in
        modify (λ k,
          let out := retain (λ _ b, negb (db_consumer_instance b =? inst)%N) (k_dep_bindings k) in
          let '(n, out) :=
            foldl (issue_one defs logical inst generation (cr_context cur)) (k_dep_seq k, out)
              bindings in
          set_dep_seq n (set_dep_bindings out k))
  end.

Definition prune_dep_bindings (inst : InstanceId) : kprog unit :=
  let! remote := read (λ k, dom (k_remote_providers k)) in
  on_dep_bindings (upd (retain (λ _ b,
    negb (db_consumer_instance b =? inst)%N
    && (bool_decide (db_provider_logical b ∈ remote)
        || negb (db_provider_instance b =? inst)%N)))).

(** ** Child admission *)

Definition deny {A} (code reason : string) : result A DepDeny := Err (mkDepDeny code reason).

(** The parent ticket: it exists, is open, and runs as exactly the caller. *)
Definition admit_parent (req : DepAdmit) : kprog (result TicketRecord DepDeny) :=
  let! parent := read (λ k, get_ticket (da_parent req) (k_calls k)) in
  match parent with
  | None => Ret (deny "invalid-parent" ("unknown parent tkt-" +:+ display (da_parent req)))
  | Some parent =>
      if negb (is_open parent) then
        Ret (deny "invalid-parent"
               ("parent " +:+ display (da_parent req) +:+ " is "
                +:+ ticket_state_as_str (tk_state parent)))
      else if negb (bool_decide (tk_logical parent = da_caller_logical req))
           || negb (tk_instance parent =? da_caller_instance req)%N
           || negb (tk_generation parent =? da_caller_generation req)%N then
        Ret (deny "invalid-parent" "parent owned by another activation")
      else Ret (Ok parent)
  end.

(** The opaque binding: it exists and belongs to the caller's activation. *)
Definition admit_binding (req : DepAdmit) : kprog (result DepBinding DepDeny) :=
  let! b := read (λ k, k_dep_bindings k !! da_binding req) in
  match b with
  | None => Ret (deny "dependency-unavailable" "unknown binding")
  | Some b =>
      if negb (bool_decide (db_consumer_logical b = da_caller_logical req))
         || negb (db_consumer_instance b =? da_caller_instance req)%N
         || negb (db_consumer_generation b =? da_caller_generation req)%N then
        Ret (deny "invalid-parent" "binding of another activation")
      else Ret (Ok b)
  end.

Definition admit_consumer (req : DepAdmit) : kprog (result ContextRecord DepDeny) :=
  let! ccur := current_of (da_caller_logical req) in
  match ccur with
  | None => Ret (deny "plugin-not-loaded" ("consumer " +:+ da_caller_logical req +:+ " gone"))
  | Some ccur =>
      if negb (cr_instance ccur =? da_caller_instance req)%N || negb (ctx_active ccur) then
        Ret (deny "context-not-active" "consumer not active")
      else if negb (cr_generation ccur =? da_caller_generation req)%N then
        Ret (deny "stale-generation" "consumer superseded")
      else Ret (Ok ccur)
  end.

(** The provider side: the local activation, or an attested remote one. *)
Definition admit_provider (b : DepBinding) (ccur : ContextRecord)
    : kprog (result (ContextId * option string) DepDeny) :=
  let! pcur := current_of (db_provider_logical b) in
  match pcur with
  | Some pcur =>
      if negb (cr_instance pcur =? db_provider_instance b)%N
         || negb (cr_generation pcur =? db_provider_generation b)%N
         || negb (ctx_active pcur) then
        Ret (deny "dependency-unavailable" "provider reintroduced; binding stale")
      else Ret (Ok (cr_context pcur, None))
  | None =>
      let! reg := read (λ k, k_remote_providers k !! db_provider_logical b) in
      match reg with
      | None =>
          Ret (deny "dependency-unavailable"
                 ("provider " +:+ db_provider_logical b +:+ " gone"))
      | Some reg =>
          if negb (rp_instance reg =? db_provider_instance b)%N
             || negb (rp_generation reg =? db_provider_generation b)%N then
            Ret (deny "dependency-unavailable" "provider reintroduced; binding stale")
          else
            let! remote := definition_is_remote (db_provider_logical b) in
            if negb remote then
              Ret (deny "dependency-unavailable" "remote definition withdrawn")
            else Ret (Ok (cr_context ccur, Some (rp_peer reg)))
      end
  end.

(** The session and global quotas and the reservation, one critical section on
    [dep_usage] (inside which the in-flight count is read). *)
Definition reserve_usage (session : string) (limits : OutboundLimits) (k : Kernel)
    : result unit DepDeny * Kernel :=
  let u := k_dep_usage k in
  let used := default 0%N (du_per_session u !! session) in
  if (max_calls_per_session limits <=? used)%N then
    (deny "resource-exhausted" "too many dependency calls in session", k)
  else if (max_calls_global limits <=? du_global u)%N then
    (deny "resource-exhausted" "too many dependency calls", k)
  else if MAX_INFLIGHT_CALLS <=? inflight_count (k_calls k) then
    (deny "resource-exhausted" "too many in-flight calls", k)
  else
    (Ok tt,
     set_dep_usage
       (mkDepUsage (<[session := (used + 1)%N]> (du_per_session u)) (du_global u + 1)%N) k).

(** The deadline of a child: the smallest of the policy's, the request's and the
    parent's. *)
Definition child_deadline (now : Instant) (limits : OutboundLimits) (timeout_ms : N)
    (parent : TicketRecord) : Instant :=
  let d := N.min (now + max_deadline_ms limits) (now + timeout_ms) in
  match tk_drain_until parent with Some u => N.min d u | None => d end.

(** Whether the provider still is what the binding says, after registration. *)
Definition provider_live (b : DepBinding) (remote_peer : option string) : kprog bool :=
  match remote_peer with
  | None =>
      let! c := current_of (db_provider_logical b) in
      Ret (is_some_and
             (λ c, (cr_instance c =? db_provider_instance b)%N && ctx_active c) c)
  | Some _ =>
      let! r := read (λ k, k_remote_providers k !! db_provider_logical b) in
      if is_some_and (λ r, (rp_instance r =? db_provider_instance b)%N
                           && (rp_generation r =? db_provider_generation b)%N) r
      then definition_is_remote (db_provider_logical b)
      else Ret false
  end.

(** The post-registration revalidation; the tests after the first that fails
    are not made, except [provider_live], which is computed first. *)
Definition child_still_valid (req : DepAdmit) (b : DepBinding) (remote_peer : option string)
    (rev : N) : kprog bool :=
  let! live := provider_live b remote_peer in
  let! parent := read (λ k, get_ticket (da_parent req) (k_calls k)) in
  if negb (is_some_and is_open parent) then Ret false
  else
    let! c := current_of (da_caller_logical req) in
    if negb (is_some_and
               (λ c, (cr_instance c =? da_caller_instance req)%N && ctx_active c) c)
    then Ret false
    else if negb live then Ret false
    else
      let! g := grant_of (da_caller_logical req) (db_capability b) in
      Ret (bool_decide (g = Some rev)).

(** [self.calls.alloc(...)]. *)
Definition alloc_ticket (cap logical : string) (instance : InstanceId) (generation : N)
    (context : ContextId) (epoch : N) (policy : CallPolicy) (pins : list ResourceHandle)
    (cancel : N) : kprog TicketId :=
  act (λ k, let '(id, t) :=
    alloc cap logical instance generation context epoch policy pins cancel (k_now k) (k_calls k) in
    (id, set_calls t k)).

(** Registration: the ticket of the provider with its deadline and its child
    metadata; then the revalidation, and the rollback when it fails. *)
Definition admit_register (req : DepAdmit) (b : DepBinding) (parent : TicketRecord)
    (limits : OutboundLimits) (ticket_ctx : ContextId) (remote_peer : option string)
    (rev depth : N) : kprog (result TicketId DepDeny) :=
  let! now := read k_now in
  let deadline := child_deadline now limits (da_timeout_ms req) parent in
  let! cancel := on_calls new_flag in
  let! e := epoch in
  let! id := alloc_ticket (db_capability b) (db_provider_logical b) (db_provider_instance b)
    (db_provider_generation b) ticket_ctx e policy_default [] cancel in
  do! on_calls (set_drain_until id deadline);
  let! attached := on_calls (set_dep_meta id
    (mkDepChild (da_parent req) (db_id b) (da_caller_instance req) (da_session req)
       (da_caller_logical req) (db_capability b) rev depth remote_peer)) in
  if negb attached then
    do! on_calls (remove id);
    do! dep_release (da_session req);
    Ret (deny "internal" "ticket vanished during admission")
  else
    let! valid := child_still_valid req b remote_peer rev in
    if negb valid then
      do! on_calls (remove id);
      do! dep_release (da_session req);
      do! journal (da_caller_logical req) "dependency.rejected"
            (obj [("binding", JString (db_id b));
                  ("reason", JString "revoked-during-admission")]);
      Ret (deny "dependency-unavailable" "revoked during admission")
    else
      do! journal (da_caller_logical req) "dependency.admitted"
            (obj [("ticket", j_u64 id); ("parent", j_u64 (da_parent req));
                  ("binding", JString (db_id b)); ("capability", JString (db_capability b));
                  ("provider", JString (db_provider_logical b)); ("depth", j_u64 depth);
                  ("grant_rev", j_u64 rev); ("remote", JBool (is_some remote_peer));
                  ("peer", JString (default "" remote_peer))]);
      Ret (Ok id).

Definition dependency_admit (req : DepAdmit) : kprog (result TicketId DepDeny) :=
  if (da_timeout_ms req =? 0)%N then
    Ret (deny "invalid-message" "timeout must be positive")
  else if str_is_empty (da_session req) || str_is_empty (da_binding req) then
    Ret (deny "invalid-message" "session and binding required")
  else
    let?! parent := admit_parent req in
    let?! b := admit_binding req in
    let?! ccur := admit_consumer req in
    let?! provider := admit_provider b ccur in
    let! policy := outbound_policy_of (da_caller_logical req) in
    match policy with
    | None => Ret (deny "permission-denied" "no outbound policy")
    | Some policy =>
        let limits := ob_limits policy in
        let depth := match tk_dep parent with Some d => (dc_depth d + 1)%N | None => 1%N end in
        if (max_depth limits <? depth)%N then
          Ret (deny "resource-exhausted" "max depth exceeded")
        else
          let! rev := grant_of (da_caller_logical req) (db_capability b) in
          match rev with
          | None =>
              Ret (deny "permission-denied"
                     ("no operator grant for " +:+ da_caller_logical req +:+ " on "
                      +:+ db_capability b))
          | Some rev =>
              let! children := read (λ k, length (open_children_of (da_parent req) (k_calls k))) in
              if (max_children_per_parent limits <=? N.of_nat children)%N then
                Ret (deny "resource-exhausted" "too many children of parent")
              else
                let?! _ := act (reserve_usage (da_session req) limits) in
                admit_register req b parent limits provider.1 provider.2 rev depth
          end
    end.

(** ** The boundary checks *)

Definition chain_rejected (t : TicketRecord) (kind reason error code : string)
    : kprog (result unit Value) :=
  do! journal (tk_logical t) "call.rejected"
        (obj [("ticket", j_u64 (tk_id t)); ("reason", JString reason); ("kind", JString kind)]);
  Ret (Err (obj [("error", JString error); ("code", JString code); ("ticket", j_u64 (tk_id t))])).

Definition dep_chain_check (t : TicketRecord) (kind : string) : kprog (result unit Value) :=
  match tk_dep t with
  | None => Ret (Ok tt)
  | Some dep =>
      let! now := read k_now in
      if is_some_and (λ u, (u <=? now)%N) (tk_drain_until t) then
        do! on_calls (Calls.set_state (tk_id t) TkExpired);
        do! journal (tk_logical t) "call.expired"
              (obj [("ticket", j_u64 (tk_id t)); ("reason", JString "deadline-exceeded")]);
        Ret (Err (obj [("error", JString "dependency deadline exceeded");
                       ("code", JString "deadline-exceeded"); ("ticket", j_u64 (tk_id t))]))
      else
        let! parent := read (λ k, get_ticket (dc_parent dep) (k_calls k)) in
        if negb (is_some_and is_open parent) then
          chain_rejected t kind "parent-revoked" "parent revoked" "cancelled"
        else
          let! c := read (λ k, get_by_instance (dc_consumer dep) (k_contexts k)) in
          let! consumer_ok :=
            match c with
            | Some c =>
                if ctx_active c then
                  let! cur := current_of (cr_logical c) in
                  Ret (is_some_and (λ cur, (cr_instance cur =? dc_consumer dep)%N) cur)
                else Ret false
            | None => Ret false
            end in
          if negb consumer_ok then
            chain_rejected t kind "consumer-withdrawn" "consumer withdrawn" "stale-generation"
          else
            let! g := grant_of (dc_grant_consumer dep) (dc_grant_cap dep) in
            if negb (bool_decide (g = Some (dc_grant_rev dep))) then
              chain_rejected t kind "grant-revoked" "operator grant revoked" "permission-denied"
            else Ret (Ok tt)
  end.

Definition dependency_accept (child : TicketId) : kprog (result unit DepDeny) :=
  let! t := read (λ k, get_ticket child (k_calls k)) in
  match t with
  | None => Ret (deny "internal" ("unknown child tkt-" +:+ display child))
  | Some t =>
      let! checked := dep_chain_check t "result" in
      match checked with
      | Err e =>
          let code := default "internal" (get_str "code" e) in
          let reason := default "chain rejected" (get_str "error" e) in
          let code :=
            if bool_decide (code ∈ ["cancelled"; "deadline-exceeded"; "permission-denied";
                                    "stale-generation"; "context-not-active"])
            then code else "internal" in
          Ret (deny code reason)
      | Ok _ =>
          let! marked := on_calls (mark_committed_if_admitted child) in
          if negb marked then
            Ret (deny "cancelled" ("child tkt-" +:+ display child +:+ " revoked during accept"))
          else Ret (Ok tt)
      end
  end.

Definition dependency_timeout (child : TicketId) : kprog bool :=
  let! marked := on_calls (expire_ticket child) in
  if negb marked then Ret false
  else
    let! logical := read (λ k, default "?" (option_map tk_logical (get_ticket child (k_calls k)))) in
    do! journal logical "call.expired"
          (obj [("ticket", j_u64 child); ("reason", JString "deadline-exceeded")]);
    do! revoke_ticket_descendants child "parent-expired";
    Ret true.

(** The match on the ticket's state at the head of [commit_effect]. *)
Definition commit_state_check (t : TicketRecord) (kind : string) : kprog (result unit Value) :=
  match tk_state t with
  | TkCommitted =>
      Ret (Err (obj [("error", JString "already committed"); ("code", JString "already-committed");
                     ("ticket", j_u64 (tk_id t))]))
  | TkCancelled => chain_rejected t kind "cancelled" "ticket cancelled" "cancelled"
  | TkExpired =>
      chain_rejected t kind "drain-exceeded" "drain deadline exceeded" "deadline-exceeded"
  | TkAdmitted => Ret (Ok tt)
  end.

Definition stale_commit (t : TicketRecord) : result unit Value :=
  Err (obj [("error", JString "stale generation"); ("code", JString "stale-generation");
            ("logical", JString (tk_logical t))]).

(** The attested registration of a remote leg. *)
Definition commit_remote_check (t : TicketRecord) (kind : string) : kprog (result unit Value) :=
  let! r := read (λ k, k_remote_providers k !! tk_logical t) in
  let! live :=
    if is_some_and (λ r, (rp_instance r =? tk_instance t)%N
                         && (rp_generation r =? tk_generation t)%N) r
    then definition_is_remote (tk_logical t) else Ret false in
  if negb live then
    do! journal (tk_logical t) "call.rejected"
          (obj [("ticket", j_u64 (tk_id t)); ("reason", JString "remote-withdrawn");
                ("kind", JString kind)]);
    Ret (Err (obj [("error", JString "remote provider withdrawn");
                   ("code", JString "stale-generation"); ("logical", JString (tk_logical t))]))
  else Ret (Ok tt).

(** The owning activation of a local leg: same epoch, same instance and generation, still
    the current one, and active or draining within its deadline. *)
Definition commit_owner_check (t : TicketRecord) (kind : string) : kprog (result unit Value) :=
  let! e := epoch in
  if negb (tk_epoch t =? e)%N then Ret (stale_commit t)
  else
    let! owner := read (λ k, get_by_instance (tk_instance t) (k_contexts k)) in
    match owner with
    | None => Ret (stale_commit t)
    | Some owner =>
        if negb (bool_decide (cr_logical owner = tk_logical t))
           || negb (cr_generation owner =? tk_generation t)%N then Ret (stale_commit t)
        else
          let! cur := current_of (tk_logical t) in
          if is_some_and (λ c, negb (cr_instance c =? tk_instance t)%N) cur then
            do! journal (tk_logical t) "call.rejected"
                  (obj [("ticket", j_u64 (tk_id t)); ("reason", JString "stale-generation");
                        ("kind", JString kind)]);
            Ret (stale_commit t)
          else
            match canonical (cr_state owner) with
            | Active => Ret (Ok tt)
            | Quiescing =>
                let! now := read k_now in
                let within :=
                  bool_decide (on_withdraw (tk_policy t) = PolicyDrain)
                  && is_some_and (λ u, (now <=? u)%N) (tk_drain_until t) in
                if negb within then
                  chain_rejected t kind "revoked" "ticket revoked" "cancelled"
                else Ret (Ok tt)
            | _ =>
                do! journal (tk_logical t) "call.rejected"
                      (obj [("ticket", j_u64 (tk_id t)); ("reason", JString "context-not-active");
                            ("kind", JString kind)]);
                Ret (Err (obj [("error", JString "context not active");
                               ("code", JString "context-not-active");
                               ("logical", JString (tk_logical t))]))
            end
    end.

(** Everything [commit_effect] checks before it applies the effect. *)
Definition commit_check (t : TicketRecord) (kind : string) : kprog (result unit Value) :=
  let?! _ := commit_state_check t kind in
  let?! _ := dep_chain_check t kind in
  if is_some (and_then (tk_dep t) dc_remote_peer) then commit_remote_check t kind
  else commit_owner_check t kind.

Definition commit_effect (ticket : TicketId) (kind : string) (payload : Value)
    : kprog (result N Value) :=
  let! t := read (λ k, get_ticket ticket (k_calls k)) in
  match t with
  | None =>
      Ret (Err (obj [("error", JString ("unknown ticket tkt-" +:+ display ticket));
                     ("code", JString "unknown-ticket")]))
  | Some t =>
      let?! _ := commit_check t kind in
      let! e := act (λ k, let '(e, c) :=
          push_effect ticket (tk_logical t) (tk_instance t) (tk_generation t) kind payload
            (env_wall_ms (k_now k)) (k_calls k) in (e, set_calls c k)) in
      do! on_calls (Calls.set_state ticket TkCommitted);
      do! journal (tk_logical t) "call.committed"
            (obj [("ticket", j_u64 ticket); ("effect", j_u64 (ef_seq e)); ("kind", JString kind);
                  ("instance", j_u64 (tk_instance t)); ("generation", j_u64 (tk_generation t))]);
      Ret (Ok (ef_seq e))
  end.

Definition call_cancel (ticket : TicketId) (reason : string) : kprog bool :=
  let! r := read (λ k, get_ticket ticket (k_calls k)) in
  match r with
  | None => Ret false
  | Some r =>
      let! ok := on_calls (cancel ticket reason) in
      if ok then
        do! journal (tk_logical r) "call.cancelled"
              (obj [("ticket", j_u64 ticket); ("reason", JString reason)]);
        do! revoke_ticket_descendants ticket "parent-cancelled";
        Ret true
      else Ret false
  end.

(** ** Ends of tickets and finalization *)

(** Releases the resources of a context, last acquired first; the messages of
    the resources that refused. *)
Definition release_one (rec : ContextRecord) (failures : list string) (h : ResourceHandle)
    : kprog (list string) :=
  let! rr := read (λ k, res_record h (k_resources k)) in
  match rr with
  | None => Ret failures
  | Some rr =>
      if negb (rr_is_active rr) then Ret failures
      else if negb (rr_owner_context rr =? cr_context rec)%N then Ret failures
      else
        let! claim := begin_release_prog h in
        match claim with
        | Ok claim =>
            do! unpublish (rc_kind claim) (cr_instance rec);
            do! on_resources (upd (finish_release claim));
            Ret failures
        | Err (AlreadyReleased _) => Ret failures
        | Err (UnknownHandle _) => Ret failures
        | Err (CleanupFailed _ reason) => Ret (failures ++ [reason])
        end
  end.

Definition release_context_resources (rec : ContextRecord) : kprog (list string) :=
  let! handles := read (λ k, handles_for (cr_context rec) (k_resources k)) in
  for_fold (reverse handles) [] (release_one rec).

Definition refresh_cleanup_cause (inst : InstanceId) : kprog unit :=
  let! r := read (λ k, get_by_instance inst (k_contexts k)) in
  match r with
  | None => Ret tt
  | Some r =>
      if negb (bool_decide (canonical (cr_state r) = CleanupPending)) then Ret tt
      else if negb (is_some_and (starts_with INFLIGHT_CAUSE_PREFIX) (cr_cause r)) then Ret tt
      else
        let! pending := read (λ k, map tk_id (pending_for inst (k_calls k))) in
        on_contexts (upd (mark_cleanup_pending inst
          (INFLIGHT_CAUSE_PREFIX +:+ debug_vec (sort_by_key id pending))))
  end.

Definition maybe_finalize (rc : kprog unit) (inst : InstanceId) : kprog unit :=
  let! rec := read (λ k, get_by_instance inst (k_contexts k)) in
  match rec with
  | None => Ret tt
  | Some rec =>
      if negb (bool_decide (canonical (cr_state rec) = CleanupPending)) then Ret tt
      else
        let! pending := read (λ k, pending_count inst (k_calls k)) in
        if 0 <? pending then refresh_cleanup_cause inst
        else
          let! claimed := on_calls (try_claim_cleanup inst) in
          if negb claimed then Ret tt
          else
            let! failures := release_context_resources rec in
            if bool_decide (failures = []) then
              do! on_contexts (upd (mark_disposed inst));
              do! update_plugin_of (cr_logical rec) inst (plg_state Disposed);
              do! journal (cr_logical rec) "plugin.unloaded"
                    (obj [("id", JString (cr_logical rec)); ("instance", j_u64 inst);
                          ("context", j_u64 (cr_context rec));
                          ("generation", j_u64 (cr_generation rec));
                          ("after", JString "cleanup-settled")]);
              do! on_calls (upd (release_cleanup_claim inst));
              rc
            else
              do! on_contexts (upd (mark_cleanup_pending inst (join "; " failures)));
              on_calls (upd (release_cleanup_claim inst))
  end.

Definition release_child_quota (r : TicketRecord) : kprog unit :=
  match tk_dep r with
  | Some dep => dep_release (dc_session dep)
  | None => Ret tt
  end.

Definition call_close (rc : kprog unit) (ticket : TicketId) : kprog bool :=
  let! r := on_calls (remove ticket) in
  match r with
  | None => Ret false
  | Some r =>
      do! journal (tk_logical r) "call.closed"
            (obj [("ticket", j_u64 ticket);
                  ("state", JString (ticket_state_as_str (tk_state r)))]);
      do! revoke_ticket_descendants ticket "parent-ended";
      do! release_child_quota r;
      do! maybe_finalize rc (tk_instance r);
      Ret true
  end.

Definition settle_ticket (rc : kprog unit) (ticket : TicketId) : kprog (option TicketRecord) :=
  let! r := on_calls (remove ticket) in
  match r with
  | None => Ret None
  | Some r =>
      do! revoke_ticket_descendants ticket "parent-ended";
      do! release_child_quota r;
      do! maybe_finalize rc (tk_instance r);
      Ret (Some r)
  end.

Definition call_reap (rc : kprog unit) (ticket : TicketId) (reason : string) : kprog bool :=
  let! r := read (λ k, get_ticket ticket (k_calls k)) in
  match r with
  | None => Ret false
  | Some r =>
      if is_open r then Ret false
      else
        let! settled := settle_ticket rc ticket in
        match settled with
        | None => Ret false
        | Some r =>
            do! journal (tk_logical r) "call.reaped"
                  (obj [("ticket", j_u64 ticket);
                        ("state", JString (ticket_state_as_str (tk_state r)));
                        ("reason", JString reason)]);
            Ret true
        end
  end.

(** ** Opening a call *)

(** The loop over the pins: the first invalid one. *)
Fixpoint check_pins (pins : list ResourceHandle) (ctx : ContextRecord)
    : kprog (result unit Value) :=
  match pins with
  | [] => Ret (Ok tt)
  | h :: pins =>
      let! v := read (λ k, res_validate h (cr_instance ctx) (cr_generation ctx)
                             (k_resources k)) in
      match v with
      | Ok _ => check_pins pins ctx
      | Err _ =>
          Ret (Err (obj [("error", JString ("invalid pin res-" +:+ display h));
                         ("code", JString "invalid-pin")]))
      end
  end.

Definition too_many_inflight : Value :=
  obj [("error", JString "too many in-flight calls"); ("code", JString "resource-exhausted")].

Definition alloc_call (cap logical : string) (ctx : ContextRecord) (policy : CallPolicy)
    (pins : list ResourceHandle) (cancel : N) : kprog TicketId :=
  alloc_ticket cap logical (cr_instance ctx) (cr_generation ctx) (cr_context ctx) (cr_epoch ctx)
    policy pins cancel.

Definition stale_logical (logical : string) : Value :=
  obj [("error", JString "stale generation"); ("code", JString "stale-generation");
       ("logical", JString logical)].

Definition call_open (rc : kprog unit) (cap : string) (input : Value)
    (policy_override : option CallPolicy) (pins : list ResourceHandle)
    : kprog (result OpenCall Value) :=
  let! n := read (λ k, inflight_count (k_calls k)) in
  if MAX_INFLIGHT_CALLS <=? n then Ret (Err too_many_inflight)
  else
    let?! admitted := admission_record cap in
    let '(logical, ctx) := admitted in
    let?! _ := check_pins pins ctx in
    let! policy :=
      match policy_override with Some p => Ret p | None => policy_for logical cap end in
    let! cancel := on_calls new_flag in
    let! id := alloc_call cap logical ctx policy pins cancel in
    do! journal logical "call.open"
          (obj [("ticket", j_u64 id); ("cap", JString cap); ("input", input);
                ("instance", j_u64 (cr_instance ctx)); ("generation", j_u64 (cr_generation ctx));
                ("policy", JString (policy_as_str (on_withdraw policy)));
                ("drain_ms", j_u64 (drain_ms policy))]);
    let! again := admission_record cap in
    match again with
    | Ok (_, fresh) =>
        if (cr_instance fresh =? cr_instance ctx)%N
           && (cr_generation fresh =? cr_generation ctx)%N then
          Ret (Ok (mkOpenCall id cap logical (cr_instance ctx) (cr_generation ctx)
                     (cr_context ctx) policy cancel))
        else
          do! settle_ticket rc id;
          do! journal logical "call.cancelled"
                (obj [("ticket", j_u64 id); ("reason", JString "admission-race: superseded")]);
          Ret (Err (stale_logical logical))
    | Err v =>
        do! settle_ticket rc id;
        do! journal logical "call.cancelled"
              (obj [("ticket", j_u64 id); ("reason", JString "admission-race")]);
        Ret (Err v)
    end.

Definition call_open_ephemeral (rc : kprog unit) (cap : string)
    : kprog (result OpenCall Value) :=
  let! n := read (λ k, inflight_count (k_calls k)) in
  if MAX_INFLIGHT_CALLS <=? n then Ret (Err too_many_inflight)
  else
    let?! admitted := admission_record cap in
    let '(logical, ctx) := admitted in
    let! policy := policy_for logical cap in
    let! cancel := on_calls new_flag in
    let! id := alloc_call cap logical ctx policy [] cancel in
    let! again := admission_record cap in
    match again with
    | Ok (_, fresh) =>
        if (cr_instance fresh =? cr_instance ctx)%N
           && (cr_generation fresh =? cr_generation ctx)%N then
          Ret (Ok (mkOpenCall id cap logical (cr_instance ctx) (cr_generation ctx)
                     (cr_context ctx) policy cancel))
        else
          do! settle_ticket rc id;
          Ret (Err (stale_logical logical))
    | Err v =>
        do! settle_ticket rc id;
        Ret (Err v)
    end.

Definition pending_calls : kprog (list TicketRecord) := read (λ k, calls_snapshot (k_calls k)).

Definition committed_effects (logical : option string) : kprog (list CommittedEffect) :=
  read (λ k, effects_for logical (k_calls k)).
End env.
