(* ===== verification/KernelLifecycle.v ===== *)
(** * Resources, reconciliation and lifecycle ([kernel.rs])

    Acquisition and release, requirement resolution, activation, withdrawal and
    disposal of instances, the reconciler, manifests. [dispose_instance_inner]
    can finalize, finalization reconciles, and reconciliation disposes: the
    recursion carries a fuel, any positive number ([env_nesting]); executed alone,
    a disposal never reaches the nested reconciliation, so every fuel gives the
    same run ([reconcile_fuel_irrelevant]). *)

From S2P Require Import Prelude RustStd Json Identity Contexts Resources Registry Bus Deps Calls.
From S2P Require Import Journal Manifest Prog KernelState KernelCalls.

Section env.
Context {E : Env}.

Definition msg_display (m : Msg) : string :=
  match m with
  | Text s => s
  | TextDebug before arg after => before +:+ env_debug arg +:+ after
  end.

(** ** Acquisition and release *)

Definition acquire_context_error (e : ContextError) : string :=
  match e with
  | NotActive _ _ => "context-not-active"
  | StaleGeneration _ _ _ => "stale-generation"
  | _ => "plugin-not-loaded"
  end.

Definition push_handle (logical : string) (ctx : ContextRecord) (h : ResourceHandle)
    : kprog unit :=
  update_plugin logical (λ p,
    if (pl_instance_id p =? cr_instance ctx)%N && (pl_generation p =? cr_generation ctx)%N
    then plg_resources (pl_resources p ++ [h]) p else p).

Definition journal_acquire_race (logical : string) (ctx : ContextRecord) (h : ResourceHandle)
    (kind : ResourceKind) : kprog N :=
  journal logical "resource.rejected"
    (obj [("handle", j_u64 h); ("kind", JString (kind_name kind));
          ("label", JString (kind_label kind)); ("instance", j_u64 (cr_instance ctx));
          ("generation", j_u64 (cr_generation ctx)); ("reason", JString "acquire-race")]).

(** Why the activation a resource was acquired for is no longer the one to
    publish for. *)
Definition acquire_stale (ctx : ContextRecord) (cur : option ContextRecord) : option string :=
  match cur with
  | Some cur =>
      if (cr_instance cur =? cr_instance ctx)%N && (cr_generation cur =? cr_generation ctx)%N
      then if ctx_active cur then None else Some "context-not-active"
      else Some "stale-generation"
  | None => Some "plugin-not-loaded"
  end.

Definition acquire (logical : string) (kind : ResourceKind)
    : kprog (result ResourceHandle string) :=
  let! cur := current_of logical in
  match cur with
  | None => Ret (Err "plugin-not-loaded")
  | Some ctx =>
      let! active := read (λ k, require_active (cr_instance ctx) (k_contexts k)) in
      match active with
      | Err e => Ret (Err (acquire_context_error e))
      | Ok _ =>
          let! registered :=
            register_resource (cr_context ctx) (cr_instance ctx) (cr_logical ctx)
              (cr_generation ctx) kind in
          match registered with
          | Err e => Ret (Err (acquire_error_display e))
          | Ok h =>
              do! publish_resource kind (reference ctx);
              do! push_handle logical ctx h;
              let! fresh := current_of logical in
              match acquire_stale ctx fresh with
              | Some err =>
                  do! unpublish kind (cr_instance ctx);
                  do! on_resources (upd (rollback_register h));
                  do! update_plugin logical (λ p,
                        plg_resources (filter (λ h', h' ≠ h) (pl_resources p)) p);
                  do! journal_acquire_race logical ctx h kind;
                  Ret (Err err)
              | None =>
                  do! journal logical "resource.acquired"
                        (obj [("handle", j_u64 h); ("kind", JString (kind_name kind));
                              ("label", JString (kind_label kind));
                              ("instance", j_u64 (cr_instance ctx));
                              ("context", j_u64 (cr_context ctx));
                              ("generation", j_u64 (cr_generation ctx))]);
                  Ret (Ok h)
              end
          end
      end
  end.

Definition acquire_external (logical : string) (kind : ResourceKind)
    (caller_instance : InstanceId) (caller_generation : N)
    : kprog (result ResourceHandle string) :=
  let! cur := current_of logical in
  match cur with
  | None => Ret (Err "plugin-not-loaded")
  | Some cur =>
      if negb (cr_instance cur =? caller_instance)%N
         || negb (cr_generation cur =? caller_generation)%N then Ret (Err "stale-generation")
      else
        let! active := read (λ k, require_active (cr_instance cur) (k_contexts k)) in
        match active with
        | Err e => Ret (Err (acquire_context_error e))
        | Ok _ =>
            let! registered :=
              register_resource (cr_context cur) (cr_instance cur) (cr_logical cur)
                (cr_generation cur) kind in
            match registered with
            | Err e => Ret (Err (acquire_error_display e))
            | Ok h =>
                let! used := read (λ k, active_for (cr_context cur) (k_resources k)) in
                if MAX_EXTERNAL_RESOURCES_PER_CONTEXT <? used then
                  do! on_resources (upd (rollback_register h));
                  Ret (Err "resource-exhausted")
                else
                  do! publish_resource kind (reference cur);
                  let! fresh := current_of logical in
                  if negb (is_some_and (λ c, (cr_instance c =? cr_instance cur)%N
                                             && (cr_generation c =? cr_generation cur)%N
                                             && ctx_active c) fresh) then
                    do! unpublish kind (cr_instance cur);
                    do! on_resources (upd (rollback_register h));
                    do! journal_acquire_race logical cur h kind;
                    Ret (Err "stale-generation")
                  else
                    do! push_handle logical cur h;
                    do! journal logical "resource.acquired"
                          (obj [("handle", j_u64 h); ("kind", JString (kind_name kind));
                                ("label", JString (kind_label kind));
                                ("instance", j_u64 (cr_instance cur));
                                ("context", j_u64 (cr_context cur));
                                ("generation", j_u64 (cr_generation cur));
                                ("external", JBool true)]);
                    Ret (Ok h)
            end
        end
  end.

Definition release_error_code (e : ReleaseError) : string :=
  match e with
  | AlreadyReleased _ => "already-released"
  | UnknownHandle _ => "unknown-handle"
  | CleanupFailed _ reason => reason
  end.

Definition release (h : ResourceHandle) : kprog (result unit string) :=
  let! rec := read (λ k, res_record h (k_resources k)) in
  match rec with
  | None => Ret (Err "unknown-handle")
  | Some rec =>
      let! pinned :=
        if rr_is_active rec then
          read (λ k, existsb (λ t, bool_decide (h ∈ tk_pins t))
                       (pending_for (rr_owner_instance rec) (k_calls k)))
        else Ret false in
      if pinned then Ret (Err "resource-pinned")
      else
        let! claim := begin_release_prog h in
        match claim with
        | Err e => Ret (Err (release_error_code e))
        | Ok claim =>
            do! unpublish (rc_kind claim) (rr_owner_instance rec);
            do! on_resources (upd (finish_release claim));
            do! journal (rr_owner_logical rec) "resource.released"
                  (obj [("handle", j_u64 h); ("instance", j_u64 (rr_owner_instance rec));
                        ("generation", j_u64 (rr_generation rec))]);
            Ret (Ok tt)
        end
  end.

(** [acquire_batch]; [out] holds the handles acquired so far. *)
Fixpoint acquire_batch_from (logical : string) (kinds : list ResourceKind)
    (out : list ResourceHandle) : kprog (result (list ResourceHandle) string) :=
  match kinds with
  | [] => Ret (Ok out)
  | kd :: kinds =>
      let! r := acquire logical kd in
      match r with
      | Ok h => acquire_batch_from logical kinds (out ++ [h])
      | Err e =>
          do! for_each (reverse out) (λ h, do! release h; Ret tt);
          Ret (Err e)
      end
  end.

Definition acquire_batch (logical : string) (kinds : list ResourceKind)
    : kprog (result (list ResourceHandle) string) :=
  acquire_batch_from logical kinds [].

Definition validate_handle (h : ResourceHandle) (logical : string)
    : kprog (result unit string) :=
  let! cur := current_of logical in
  match cur with
  | None => Ret (Err "plugin-not-loaded")
  | Some cur =>
      let! v := read (λ k, res_validate h (cr_instance cur) (cr_generation cur)
                             (k_resources k)) in
      Ret (match v with
           | Ok _ => Ok tt
           | Err (AlreadyReleased _) => Err "stale-handle"
           | Err (UnknownHandle _) => Err "unknown-handle"
           | Err (CleanupFailed _ reason) => Err reason
           end)
  end.

(** ** Requirement resolution *)

(** The binding to a chosen provider, if its activation is [Active]. *)
Definition bind_provider (states : gmap string ContextRecord) (req : Requirement)
    (provider : string) : result Binding ResolveError :=
  match states !! provider with
  | None => Err (ProviderNotActive (rq_interface req) provider "unknown")
  | Some st =>
      if negb (ctx_active st) then
        let s := fsm_as_str (cr_state st) in
        let s := match cr_cause st with Some c => s +:+ " (" +:+ c +:+ ")" | None => s end in
        Err (ProviderNotActive (rq_interface req) provider s)
      else Ok (mkBinding (rq_interface req) provider (cr_instance st) (cr_generation st))
  end.

(** One iteration of the loop of [resolve_for]. *)
Definition resolve_requirement (defs : gmap string StoredManifest)
    (states : gmap string ContextRecord) (req : Requirement) : result Binding ResolveError :=
  match rq_provider req with
  | Some want =>
      let? pdef := ok_or (defs !! want) (UnknownProvider (rq_interface req) want) in
      if negb (existsb (λ c, cap_satisfies c req) (sm_caps pdef)) then
        Err (VersionMismatch (rq_interface req) want
               (want +:+ " provides [" +:+ join ", " (sm_caps pdef) +:+ "]"))
      else bind_provider states req want
  | None =>
      match provider_candidates req (provides_of defs) with
      | [] => Err (Missing (rq_interface req))
      | [pname] => bind_provider states req pname
      | cands => Err (Ambiguous (rq_interface req) (sort_strings cands))
      end
  end.

Definition resolve_for (logical : string) (defs : gmap string StoredManifest)
    (states : gmap string ContextRecord) (cycle_members : gset string)
    (cycle_path : list string) : result (list Binding) ResolveError :=
  if bool_decide (logical ∈ cycle_members) then Err (Cycle cycle_path)
  else
    let? def := ok_or (defs !! logical) (Missing logical) in
    collect_result (resolve_requirement defs states) (sm_requires def).

(** ** Instances *)

Definition initial_json_state (reducer : string) (init_state : Value) : Value :=
  if bool_decide (reducer = "counter") then obj [("state", j_u64 0)]
  else if bool_decide (reducer = "clock") then obj [("count", j_u64 0)]
  else init_state.

(** The plugin entry built from a definition for an activation. *)
Definition plugin_of (def : StoredManifest) (state : Fsm) (ctx : ContextRecord)
    (bindings : list Binding) (wait_cause : option string) (json_state : Value)
    (resources : list ResourceHandle) : Plugin :=
  mkPlugin (sm_id def) state (sm_tier def) (sm_trust def) (cr_generation ctx) (sm_restart def)
    (sm_caps def) (sm_subs def) (sm_requires def) bindings (sm_calls def) (sm_execution def)
    wait_cause (sm_reducer def) (sm_init_state def) json_state 0 [] (cr_instance ctx)
    (cr_context ctx) (cr_epoch ctx) resources.

Definition waiting_plugin (def : StoredManifest) (ctx : ContextRecord) (reason : string)
    : Plugin :=
  plugin_of def Waiting ctx [] (Some reason)
    (initial_json_state (sm_reducer def) (sm_init_state def)) [].

Definition create_waiting_instance (def : StoredManifest) (reason : string)
    : kprog ContextRecord :=
  let! ctx := on_contexts (create_waiting (sm_id def) reason) in
  do! on_plugins (upd (insert (sm_id def) (waiting_plugin def ctx reason)));
  do! journal (sm_id def) "plugin.waiting"
        (obj [("id", JString (sm_id def)); ("instance", j_u64 (cr_instance ctx));
              ("context", j_u64 (cr_context ctx)); ("generation", j_u64 (cr_generation ctx));
              ("reason", JString reason);
              ("requires", j_strs (map rq_interface (sm_requires def)))]);
  Ret ctx.

(** The locked block that synchronises the plugin entry: whether it diverged. *)
Definition sync_waiting (logical reason : string) (ps : gmap string Plugin)
    : bool * gmap string Plugin :=
  match ps !! logical with
  | Some p =>
      if negb (bool_decide (canonical (pl_state p) = Waiting))
         || negb (bool_decide (pl_wait_cause p = Some reason))
      then (true, <[logical := plg_wait_cause (Some reason) (plg_state Waiting p)]> ps)
      else (false, ps)
  | None => (true, ps)
  end.

Definition ensure_waiting (logical : string) (defs : gmap string StoredManifest)
    (reason : string) : kprog bool :=
  match defs !! logical with
  | None => Ret false
  | Some def =>
      let! cur := current_of logical in
      match cur with
      | None => do! create_waiting_instance def reason; Ret true
      | Some st =>
          match canonical (cr_state st) with
          | Waiting | Preparing | Registered =>
              if bool_decide (cr_cause st = Some reason) then
                let! changed := on_plugins (sync_waiting logical reason) in
                if changed then
                  do! on_plugins (upd (insert logical (waiting_plugin def st reason)));
                  Ret true
                else Ret false
              else
                do! on_contexts (mark_waiting (cr_instance st) reason);
                do! update_plugin logical (λ p, plg_wait_cause (Some reason) (plg_state Waiting p));
                do! journal logical "plugin.waiting"
                      (obj [("id", JString logical); ("instance", j_u64 (cr_instance st));
                            ("generation", j_u64 (cr_generation st)); ("reason", JString reason)]);
                Ret true
          | Disposed => do! create_waiting_instance def reason; Ret true
          | _ => Ret false
          end
      end
  end.

(** ** Disposal *)

(** Revokes the publications of the context without touching its ownership
    records. *)
Definition revoke_publication (rec : ContextRecord) (inst : InstanceId) (h : ResourceHandle)
    : kprog unit :=
  let! rr := read (λ k, res_record h (k_resources k)) in
  match rr with
  | None => Ret tt
  | Some rr =>
      if negb (rr_owner_context rr =? cr_context rec)%N then Ret tt
      else unpublish (rr_kind rr) inst
  end.

Definition revoke_publications (rec : ContextRecord) (inst : InstanceId) : kprog unit :=
  let! handles := read (λ k, handles_for (cr_context rec) (k_resources k)) in
  for_each handles (revoke_publication rec inst).

(** What withdrawal does to one in-flight ticket: cancel it or start its drain.
    Returns the latest drain deadline so far. *)
Definition withdraw_ticket (rec : ContextRecord) (now : Instant) (drain : option Instant)
    (t : TicketRecord) : kprog (option Instant) :=
  match on_withdraw (tk_policy t) with
  | PolicyCancel =>
      let! ok := on_calls (cancel (tk_id t) "withdraw") in
      if ok then
        do! journal (cr_logical rec) "call.cancelled"
              (obj [("ticket", j_u64 (tk_id t)); ("reason", JString "withdraw")]);
        Ret drain
      else Ret drain
  | PolicyDrain =>
      let until := (now + drain_ms (tk_policy t))%N in
      do! on_calls (set_drain_until (tk_id t) until);
      do! journal (cr_logical rec) "call.draining"
            (obj [("ticket", j_u64 (tk_id t)); ("drain_ms", j_u64 (drain_ms (tk_policy t)))]);
      Ret (Some (match drain with Some u => N.max u until | None => until end))
  end.

(** The bounded drain: waits on the condition variable until the instance has no
    ticket or the deadline passed. *)
Definition drain_wait (inst : InstanceId) (drain : option Instant) : kprog unit :=
  match drain with
  | None => Ret tt
  | Some until =>
      let! now := read k_now in
      if (now <? until)%N then
        do! Wait (λ k, pending_count inst (k_calls k) =? 0) until Ret;
        Ret tt
      else Ret tt
  end.

Definition expire_drains (rec : ContextRecord) : kprog unit :=
  let! now := read k_now in
  let! ids := on_calls (expire_overdue now) in
  for_each ids (λ id,
    do! journal (cr_logical rec) "call.expired"
          (obj [("ticket", j_u64 id); ("reason", JString "drain-exceeded")]);
    revoke_ticket_descendants id "parent-expired").

Definition journal_cleanup_pending (rec : ContextRecord) (inst : InstanceId) (reason : string)
    : kprog N :=
  journal (cr_logical rec) "plugin.cleanup_pending"
    (obj [("id", JString (cr_logical rec)); ("instance", j_u64 inst);
          ("generation", j_u64 (cr_generation rec)); ("reason", JString reason)]).

(** Work that is still in flight pins [CleanupPending]. *)
Definition dispose_pending (rc : kprog unit) (rec : ContextRecord) (inst : InstanceId)
    : kprog DisposeOutcome :=
  let! pending := read (λ k, map tk_id (pending_for inst (k_calls k))) in
  let reason := INFLIGHT_CAUSE_PREFIX +:+ debug_vec pending in
  do! on_contexts (upd (mark_cleanup_pending inst reason));
  do! update_plugin_of (cr_logical rec) inst (plg_state CleanupPending);
  do! journal_cleanup_pending rec inst reason;
  let! n := read (λ k, pending_count inst (k_calls k)) in
  do! (if n =? 0 then maybe_finalize rc inst else Ret tt);
  let! now := read (λ k, get_by_instance inst (k_contexts k)) in
  if is_some_and (λ r, bool_decide (canonical (cr_state r) = Disposed)) now then Ret OutDisposed
  else
    let! r := read (λ k, get_by_instance inst (k_contexts k)) in
    Ret (OutCleanupPending (default reason (and_then r cr_cause))).

(** Nothing in flight: the resources are released and the instance is
    [Disposed], or [CleanupPending] when some refused. *)
Definition dispose_release (rec : ContextRecord) (inst : InstanceId) : kprog DisposeOutcome :=
  let! failures := release_context_resources rec in
  if bool_decide (failures = []) then
    do! on_contexts (upd (mark_disposed inst));
    do! update_plugin_of (cr_logical rec) inst (plg_state Disposed);
    do! journal (cr_logical rec) "plugin.unloaded"
          (obj [("id", JString (cr_logical rec)); ("instance", j_u64 inst);
                ("context", j_u64 (cr_context rec)); ("generation", j_u64 (cr_generation rec))]);
    Ret OutDisposed
  else
    let reason := join "; " failures in
    do! on_contexts (upd (mark_cleanup_pending inst reason));
    do! update_plugin_of (cr_logical rec) inst (plg_state CleanupPending);
    do! journal_cleanup_pending rec inst reason;
    Ret (OutCleanupPending reason).

(** After the claim: from [Quiescing] to the outcome. *)
Definition dispose_claimed (rc : kprog unit) (rec : ContextRecord) (inst : InstanceId)
    : kprog DisposeOutcome :=
  do! update_plugin_of (cr_logical rec) inst (plg_state Quiescing);
  do! prune_dep_bindings inst;
  do! emit_hook (LcWithdrawn (cr_logical rec) inst (cr_generation rec));
  do! revoke_publications rec inst;
  let! now := read k_now in
  let! pending := read (λ k, pending_for inst (k_calls k)) in
  let! drain := for_fold pending None (withdraw_ticket rec now) in
  do! drain_wait inst drain;
  let! children := on_calls (revoke_children_of_consumer inst "consumer-withdraw") in
  do! for_each children (journal_cancelled "consumer-withdraw");
  do! expire_drains rec;
  let! n := read (λ k, pending_count inst (k_calls k)) in
  if 0 <? n then dispose_pending rc rec inst else dispose_release rec inst.

Definition dispose_instance_inner (rc : kprog unit) (inst : InstanceId) : kprog DisposeOutcome :=
  let! rec := read (λ k, get_by_instance inst (k_contexts k)) in
  match rec with
  | None => Ret OutAlreadyDisposed
  | Some rec =>
      match canonical (cr_state rec) with
      | Disposed | Failed => Ret OutAlreadyDisposed
      | CleanupPending => Ret (OutCleanupPending (default "cleanup pending" (cr_cause rec)))
      | _ =>
          let! claim := on_contexts (claim_dispose inst) in
          match claim with
          | Ok (Fresh r) => dispose_claimed rc r inst
          | Ok (InFlight _) => Ret (OutCleanupPending "dispose in progress")
          | Err _ => Ret OutAlreadyDisposed
          end
      end
  end.

Definition withdraw_to_waiting (rc : kprog unit) (logical : string)
    (defs : gmap string StoredManifest) (reason : string) : kprog bool :=
  match defs !! logical with
  | None => Ret false
  | Some def =>
      let! cur := current_of logical in
      match cur with
      | None => do! create_waiting_instance def reason; Ret true
      | Some st =>
          match canonical (cr_state st) with
          | Active | Preparing | Registered =>
              do! dispose_instance_inner rc (cr_instance st);
              do! create_waiting_instance def reason;
              Ret true
          | Waiting => ensure_waiting logical defs reason
          | Disposed => do! create_waiting_instance def reason; Ret true
          | _ => Ret false
          end
      end
  end.

(** ** Activation *)

Definition rollback_acquired (inst : InstanceId) (acquired : list ResourceHandle) : kprog unit :=
  for_each (reverse acquired) (λ h,
    let! claim := begin_release_prog h in
    match claim with
    | Ok claim =>
        do! unpublish (rc_kind claim) inst;
        on_resources (upd (finish_release claim))
    | Err _ => Ret tt
    end).

(** The resources a definition declares: capabilities first, then topics. *)
Definition definition_kinds (def : StoredManifest) : list ResourceKind :=
  map Cap (sm_caps def) ++ map Sub (sm_subs def).

(** Both loops of [acquire_definition_resources]: register, publish, and roll
    everything back at the first failure. *)
Fixpoint acquire_kinds (ctx : ContextRecord) (id : string) (kinds : list ResourceKind)
    (acquired : list ResourceHandle) : kprog (result (list ResourceHandle) string) :=
  match kinds with
  | [] => Ret (Ok acquired)
  | kd :: kinds =>
      let! r := register_resource (cr_context ctx) (cr_instance ctx) id (cr_generation ctx) kd in
      match r with
      | Ok h =>
          do! match kd with
              | Cap name => on_caps (upd (provide_instance name (reference ctx)))
              | Sub topic => on_bus (upd (subscribe_instance id (cr_instance ctx) topic))
              | _ => Ret tt
              end;
          acquire_kinds ctx id kinds (acquired ++ [h])
      | Err e =>
          do! rollback_acquired (cr_instance ctx) acquired;
          Ret (Err (acquire_error_display e))
      end
  end.

Definition acquire_definition_resources (ctx : ContextRecord) (def : StoredManifest)
    : kprog (result (list ResourceHandle) string) :=
  acquire_kinds ctx (sm_id def) (definition_kinds def) [].

Definition emit_activated (logical : string) (instance generation : N) : kprog unit :=
  let! def := read (λ k, k_definitions k !! logical) in
  match def with
  | None => Ret tt
  | Some def =>
      match sm_execution def with
      | External entrypoint args timeout_ms =>
          emit_hook (LcActivated logical instance generation entrypoint args timeout_ms)
      | InProcess => Ret tt
      end
  end.

Definition journal_active (id : string) (ctx : ContextRecord) (bindings : list Binding)
    : kprog N :=
  journal id "plugin.active"
    (obj [("id", JString id); ("instance", j_u64 (cr_instance ctx));
          ("generation", j_u64 (cr_generation ctx));
          ("bindings", JArray (map (λ b,
             obj [("interface", JString (bd_interface b));
                  ("provider", JString (bd_provider_logical b));
                  ("instance", j_u64 (bd_provider_instance b));
                  ("generation", j_u64 (bd_provider_generation b))]) bindings))]).

(** The locked block of [promote_waiting]: the entry still belongs to the
    instance, and becomes [Active]. *)
Definition promote_entry (logical : string) (inst : InstanceId) (bindings : list Binding)
    (acquired : list ResourceHandle) (ps : gmap string Plugin) : bool * gmap string Plugin :=
  match ps !! logical with
  | Some p =>
      if negb (pl_instance_id p =? inst)%N then (false, ps)
      else
        (true, <[logical := plg_resources acquired (plg_wait_cause None
                   (plg_bindings bindings (plg_state Active p)))]> ps)
  | None => (false, ps)
  end.

Definition promote_waiting (logical : string) (def : StoredManifest) : kprog bool :=
  let! cur := current_of logical in
  match cur with
  | None => Ret false
  | Some st =>
      if negb (bool_decide (canonical (cr_state st) ∈ [Waiting; Preparing; Registered])) then
        Ret false
      else
        let! fresh := current_all_merged in
        let! defs := read k_definitions in
        match resolve_for logical defs fresh ∅ [] with
        | Ok bindings =>
            let! acquired := acquire_definition_resources st def in
            match acquired with
            | Ok acquired =>
                let! mine := on_plugins (promote_entry logical (cr_instance st) bindings acquired) in
                if negb mine then
                  do! rollback_acquired (cr_instance st) acquired;
                  Ret false
                else
                  let! marked := on_contexts (mark_active (cr_instance st)) in
                  if negb marked then Ret false
                  else
                    do! journal_active logical st bindings;
                    do! emit_activated logical (cr_instance st) (cr_generation st);
                    do! issue_dep_bindings logical (cr_instance st) (cr_generation st) bindings;
                    Ret true
            | Err e =>
                do! ensure_waiting logical defs ("acquire failed: " +:+ e);
                Ret false
            end
        | Err e =>
            do! ensure_waiting logical defs (resolve_error_display e);
            Ret false
        end
  end.

Definition create_active (rc : kprog unit) (def : StoredManifest) (bindings : list Binding)
    (json_state : Value) : kprog bool :=
  let! ctx := on_contexts (create (sm_id def)) in
  let! acquired := acquire_definition_resources ctx def in
  match acquired with
  | Ok acquired =>
      do! on_plugins (upd (insert (sm_id def)
            (plugin_of def Active ctx bindings None json_state acquired)));
      do! journal_active (sm_id def) ctx bindings;
      do! emit_activated (sm_id def) (cr_instance ctx) (cr_generation ctx);
      do! issue_dep_bindings (sm_id def) (cr_instance ctx) (cr_generation ctx) bindings;
      Ret true
  | Err e =>
      do! dispose_instance_inner rc (cr_instance ctx);
      let! defs := read k_definitions in
      do! ensure_waiting (sm_id def) defs ("acquire failed: " +:+ e);
      Ret false
  end.

(** [(“counter”, s) if s.get("state").is_some()], [(“clock”, s) if ...count...]. *)
Definition keeps_state (reducer : string) (s : Value) : bool :=
  (bool_decide (reducer = "counter") && is_some (get "state" s))
  || (bool_decide (reducer = "clock") && is_some (get "count" s)).

Definition preserved_json_state (logical : string) (def : StoredManifest) (fresh : Value)
    : kprog Value :=
  let! old := read (λ k, option_map pl_json_state (k_plugins k !! logical)) in
  Ret (match old with
       | Some s => if keeps_state (sm_reducer def) s then s else fresh
       | None => fresh
       end).

(** ** The reconciler *)

(** Registrations without a live remote definition. *)
Definition drop_remote (logical : string) (args : Value) : kprog unit :=
  do! on_dep_bindings (upd (retain (λ _ b, negb (bool_decide (db_provider_logical b = logical)))));
  do! journal logical "remote.unregistered" args;
  Ret tt.

Definition drop_stale_remote (logical : string) : kprog unit :=
  do! modify (λ k, set_remote_providers (delete logical (k_remote_providers k)) k);
  drop_remote logical (obj [("reason", JString "definition-gone")]).

(** Members of a cycle stay [Waiting] with the path as the reason. *)
Definition reconcile_cycle (rc : kprog unit) (defs : gmap string StoredManifest)
    (path : list string) : kprog bool :=
  for_fold (sort_strings (elements (list_to_set path : gset string))) false (λ changed m,
    match defs !! m with
    | None => Ret changed
    | Some _ =>
        let reason := resolve_error_display (Cycle path) in
        let! cur := current_of m in
        match option_map (λ r, canonical (cr_state r)) cur with
        | Some Active | Some Preparing | Some Registered | None | Some Disposed =>
            let! b := withdraw_to_waiting rc m defs reason in
            Ret (b || changed)
        | Some Waiting =>
            let! b := ensure_waiting m defs reason in
            Ret (b || changed)
        | _ => Ret changed
        end
    end).

Definition stale_binding_reason : string := "stale-binding: provider replaced; rebinding".

(** Withdrawal: consumers before providers. *)
Definition reconcile_withdraw (rc : kprog unit) (defs : gmap string StoredManifest)
    (states : gmap string ContextRecord) (order : list string) : kprog bool :=
  for_fold (reverse order) false (λ withdrew logical,
    match defs !! logical, states !! logical with
    | Some _, Some st =>
        if negb (ctx_active st) then Ret withdrew
        else
          let! stale := bindings_stale logical states in
          let resolved := resolve_for logical defs states ∅ [] in
          if negb (is_ok resolved) || stale then
            let reason :=
              match resolved with
              | Err e => resolve_error_display e
              | Ok _ => stale_binding_reason
              end in
            let! b := withdraw_to_waiting rc logical defs reason in
            Ret (b || withdrew)
          else Ret withdrew
    | _, _ => Ret withdrew
    end).

(** What the activation pass does to one definition; [true] ends the step. *)
Definition reconcile_one (rc : kprog unit) (defs : gmap string StoredManifest)
    (states : gmap string ContextRecord) (logical : string) (def : StoredManifest)
    : kprog bool :=
  if sm_remote def then Ret false
  else
    match option_map (λ r, canonical (cr_state r)) (states !! logical) with
    | Some Active =>
        let! stale := bindings_stale logical states in
        if stale then withdraw_to_waiting rc logical defs stale_binding_reason else Ret false
    | Some Failed | Some CleanupPending | Some Quiescing => Ret false
    | cur_state =>
        match resolve_for logical defs states ∅ [] with
        | Ok bindings =>
            if bool_decide (cur_state ∈ [Some Waiting; Some Preparing; Some Registered]) then
              promote_waiting logical def
            else
              let! js := preserved_json_state logical def
                           (initial_json_state (sm_reducer def) (sm_init_state def)) in
              create_active rc def bindings js
        | Err e => ensure_waiting logical defs (resolve_error_display e)
        end
    end.

(** Activation: providers before consumers, until something changed. *)
Fixpoint reconcile_activate (rc : kprog unit) (defs : gmap string StoredManifest)
    (states : gmap string ContextRecord) (order : list string) : kprog bool :=
  match order with
  | [] => Ret false
  | logical :: order =>
      match defs !! logical with
      | None => reconcile_activate rc defs states order
      | Some def =>
          let! changed := reconcile_one rc defs states logical def in
          if changed then Ret true else reconcile_activate rc defs states order
      end
  end.

(** The order of the passes: topological, or alphabetical when empty. *)
Definition reconcile_order (defs : gmap string StoredManifest) : list string :=
  let edges := graph_edges (requires_of defs) (provides_of defs) in
  match default [] (topo_order edges) with
  | [] => sort_strings (keys defs)
  | order => order
  end.

Definition reconcile_step (rc : kprog unit) : kprog bool :=
  let! defs := read k_definitions in
  if bool_decide (defs = ∅) then Ret false
  else
    let! stale := read (λ k,
      filter (λ l, is_some_and sm_remote (defs !! l) = false) (keys (k_remote_providers k))) in
    if negb (bool_decide (stale = [])) then
      do! for_each stale drop_stale_remote;
      Ret true
    else
      let edges := graph_edges (requires_of defs) (provides_of defs) in
      match find_cycle edges with
      | Some path => reconcile_cycle rc defs path
      | None =>
          let order := reconcile_order defs in
          let! states := current_all_merged in
          let! withdrew := reconcile_withdraw rc defs states order in
          if withdrew then Ret true
          else
            let! states := current_all_merged in
            reconcile_activate rc defs states order
      end.

(** [for _ in 0..max { if !self.reconcile_step() { break } }]. *)
Fixpoint reconcile_loop (step : kprog bool) (n : nat) : kprog unit :=
  match n with
  | O => Ret tt
  | S n => let! changed := step in if changed then reconcile_loop step n else Ret tt
  end.

Definition reconcile_body (step : kprog bool) : kprog unit :=
  let! n := read (λ k, size (k_definitions k)) in
  reconcile_loop step (n * 2 + 4).

(** [fuel] bounds the nesting of reconciliations, not their length. *)
Fixpoint reconcile_fuel (fuel : nat) : kprog unit :=
  match fuel with
  | O => Ret tt
  | S fuel => reconcile_body (reconcile_step (reconcile_fuel fuel))
  end.

Definition reconcile : kprog unit := reconcile_fuel (S env_nesting).

(** ** Manifests and removal *)

Definition install_remote_definition (def : StoredManifest) : kprog unit :=
  let id := sm_id def in
  do! modify (λ k, set_definitions (<[id := def]> (k_definitions k)) k);
  let! had := act (λ k, (is_some (k_remote_providers k !! id),
                         set_remote_providers (delete id (k_remote_providers k)) k)) in
  do! (if had then drop_remote id (obj [("reason", JString "definition-reprovisioned")])
       else Ret tt);
  reconcile.

Definition register_remote_provider (logical : string) (instance generation : N)
    (peer : string) : kprog (result unit string) :=
  let! remote := definition_is_remote logical in
  if negb remote then Ret (Err "not a remote definition")
  else if str_is_empty peer || (128 <? String.length peer) then Ret (Err "invalid peer")
  else
    do! modify (λ k, set_remote_providers
          (<[logical := mkRemoteProvider logical instance generation peer]>
             (k_remote_providers k)) k);
    do! journal logical "remote.registered"
          (obj [("instance", j_u64 instance); ("generation", j_u64 generation);
                ("peer", JString peer)]);
    do! reconcile;
    Ret (Ok tt).

Definition unregister_remote_provider (logical : string) : kprog bool :=
  let! removed := act (λ k, (is_some (k_remote_providers k !! logical),
                             set_remote_providers (delete logical (k_remote_providers k)) k)) in
  if removed then
    do! drop_remote logical (obj []);
    do! reconcile;
    Ret true
  else Ret false.

(** Withdraws the previous generation of a definition being loaded. *)
Definition load_withdraw (id : string) : kprog unit :=
  let! cur := current_of id in
  match cur with
  | None => Ret tt
  | Some cur =>
      match canonical (cr_state cur) with
      | Disposed | Failed | CleanupPending => Ret tt
      | _ => do! dispose_instance_inner reconcile (cr_instance cur); Ret tt
      end
  end.

(** The [Waiting] substitute of an instance that stopped with work in flight. *)
Definition load_substitute (id : string) : kprog unit :=
  let! cur := current_of id in
  if is_some_and (λ r, bool_decide (canonical (cr_state r) = CleanupPending)) cur then
    let! def := read (λ k, k_definitions k !! id) in
    match def with
    | Some def => do! create_waiting_instance def "reload: awaiting activation"; Ret tt
    | None => Ret tt
    end
  else Ret tt.

Definition load_restore (id : string) (def : StoredManifest) (old : option (string * Value))
    : kprog unit :=
  match old with
  | Some (old_reducer, old_json) =>
      if bool_decide (old_reducer = sm_reducer def) && keeps_state (sm_reducer def) old_json
      then update_plugin id (plg_json_state old_json)
      else Ret tt
  | None => Ret tt
  end.

Definition with_source (path : string) (d : StoredManifest) : StoredManifest :=
  mkStoredManifest (sm_id d) (sm_caps d) (sm_requires d) (sm_subs d) (sm_calls d) (sm_reducer d)
    (sm_init_state d) (sm_tier d) (sm_trust d) (sm_restart d) (Some path) (sm_execution d)
    (sm_remote d) (sm_outbound d).

Definition load_manifest (path : string) : kprog (result string string) :=
  match env_read path with
  | Err e => Ret (Err e)
  | Ok v =>
      match parse_manifest_value v with
      | Err e => Ret (Err (msg_display e))
      | Ok def =>
          let def := with_source path def in
          let id := sm_id def in
          let! old := read (λ k, option_map (λ p, (pl_reducer p, pl_json_state p))
                                   (k_plugins k !! id)) in
          do! modify (λ k, set_definitions (<[id := def]> (k_definitions k)) k);
          do! load_withdraw id;
          do! load_substitute id;
          do! reconcile;
          do! load_restore id def old;
          let! cur := current_of id in
          do! match cur with
              | Some cur =>
                  do! journal id "plugin.loaded"
                        (obj [("id", JString id); ("instance", j_u64 (cr_instance cur));
                              ("context", j_u64 (cr_context cur));
                              ("generation", j_u64 (cr_generation cur));
                              ("epoch", j_u64 (cr_epoch cur));
                              ("state", JString (fsm_as_str (cr_state cur)))]);
                  Ret tt
              | None => Ret tt
              end;
          Ret (Ok id)
      end
  end.

Definition transitive_dependents (logical : string) : kprog (list string) :=
  read (λ k,
    let defs := k_definitions k in
    filter (λ l, is_Some (defs !! l))
      (transitive_consumers logical (graph_edges (requires_of defs) (provides_of defs)))).

Definition dispose_plugin (id : string) : kprog DisposeOutcome :=
  do! transitive_dependents id;
  let! had := act (λ k, (is_some (k_remote_providers k !! id),
                         set_remote_providers (delete id (k_remote_providers k)) k)) in
  do! (if had then drop_remote id (obj [("reason", JString "definition-disposed")])
       else Ret tt);
  do! modify (λ k, set_definitions (delete id (k_definitions k)) k);
  do! emit_hook (LcRemoved id);
  let! cur := current_of id in
  let! out :=
    match cur with
    | Some cur => dispose_instance_inner reconcile (cr_instance cur)
    | None => Ret OutAlreadyDisposed
    end in
  do! reconcile;
  Ret out.

Definition dispose_instance (inst : InstanceId) : kprog DisposeOutcome :=
  let! out := dispose_instance_inner reconcile inst in
  do! reconcile;
  Ret out.

(** ** Reload *)

(** Phase 1: the candidates that parse, and the failures. *)
Fixpoint reload_candidates (files : list string)
    : list (string * StoredManifest) * list string :=
  match files with
  | [] => ([], [])
  | p :: files =>
      let '(cands, failed) := reload_candidates files in
      match env_read p with
      | Err e => (cands, (p +:+ ": " +:+ e) :: failed)
      | Ok v =>
          match parse_manifest_value v with
          | Ok def => ((p, with_source p def) :: cands, failed)
          | Err e => (cands, (p +:+ ": " +:+ msg_display e) :: failed)
          end
      end
  end.

(** Phase 2: definitions whose file vanished or now declares another id. *)
Definition reload_stale (files : list string) (cands : list (string * StoredManifest))
    (defs : gmap string StoredManifest) : list string :=
  let path_to_id : gmap string string :=
    foldl (λ m c, <[c.1 := sm_id c.2]> m) ∅ cands in
  sort_strings
    (List.filter
       (λ id, match and_then (defs !! id) sm_source with
              | Some src =>
                  env_in_dir src
                  && (negb (bool_decide (src ∈ files))
                      || is_some_and (λ parsed, negb (bool_decide (parsed = id)))
                           (path_to_id !! src))
              | None => false
              end) (keys defs)).

(** Phase 3: publishes one candidate. *)
Definition reload_publish (acc : N * list string) (c : string * StoredManifest)
    : kprog (N * list string) :=
  let! r := load_manifest c.1 in
  Ret (match r with
       | Ok _ => ((acc.1 + 1)%N, acc.2)
       | Err _ => (acc.1, acc.2 ++ [c.1 +:+ ": activation failed"])
       end).

Definition reload : kprog (result N string) :=
  match env_dir with
  | None => Ret (Ok 0%N)
  | Some entries =>
      let files := sort_strings entries in
      let '(cands, failed) := reload_candidates files in
      let! stale := read (λ k, reload_stale files cands (k_definitions k)) in
      do! for_each stale (λ id, do! dispose_plugin id; Ret tt);
      let! res := for_fold cands (0%N, failed) reload_publish in
      do! journal "sys" "sys.reload"
            (obj [("reloaded", j_u64 res.1); ("removed", j_u64 (N.of_nat (length stale)));
                  ("failed", j_strs res.2)]);
      Ret (Ok res.1)
  end.
End env.
