(* ===== verification/KernelDispatch.v ===== *)
(** * Dispatch ([kernel.rs]): invocation, events, replay, reset *)

From S2P Require Import Prelude RustStd Json Identity Contexts Resources Registry Bus Deps Calls.
From S2P Require Import Journal Manifest Prog KernelState KernelCalls KernelLifecycle.

Section env.
Context {E : Env}.

(** [i64] addition; it wraps around in the release profile. *)
Definition wrap_i64 (z : Z) : Z := ((z + 2 ^ 63) mod 2 ^ 64 - 2 ^ 63)%Z.

(** [s.get(key).and_then(|x| x.as_i64()).unwrap_or(0)]. *)
Definition counter_value (key : string) (s : Value) : Z := default 0%Z (get_i64 key s).

(** [json!({key: n + 1})]. *)
Definition counter_next (key : string) (s : Value) : Value :=
  obj [(key, j_i64 (wrap_i64 (counter_value key s + 1)))].

(** ** Faults *)

(** The locked block of [fault]: the restart window and its budget. *)
Definition record_fault (fiber : string) (now : Instant) (ps : gmap string Plugin)
    : bool * gmap string Plugin :=
  match ps !! fiber with
  | None => (false, ps)
  | Some p =>
      let times := List.filter (λ t, (saturating_sub now t / 1000 <? 10)%N) (pl_restart_times p)
                   ++ [now] in
      let p := plg_panic_count (pl_panic_count p + 1)%N (plg_restart_times times p) in
      let failed := 5 <? length times in
      (failed, <[fiber := if failed then plg_state Failed p else p]> ps)
  end.

Definition fault (fiber mode : string) : kprog Value :=
  let! now := read k_now in
  let! failed := on_plugins (record_fault fiber now) in
  do! (if failed then
         let! cur := current_of fiber in
         match cur with
         | Some cur =>
             do! on_contexts (upd (mark_failed (cr_instance cur)
                   ("fault budget exceeded (" +:+ mode +:+ ")")));
             update_plugin fiber (plg_state Failed)
         | None => Ret tt
         end
       else Ret tt);
  do! journal fiber "sys.fault"
        (obj [("mode", JString mode); ("contained", JBool true); ("failed", JBool failed)]);
  Ret (obj [("contained", JBool true); ("mode", JString mode); ("failed", JBool failed)]).

(** ** Reducers *)

Definition dispatch (reducer fiber : string) (input : Value) : kprog (option Value) :=
  if bool_decide (reducer = "echo") then Ret (Some (obj [("echo", input)]))
  else if bool_decide (reducer = "ancient") then Ret (Some (obj [("out", j_u64 42)]))
  else if bool_decide (reducer = "counter") then
    read (λ k, option_map (λ p, obj [("state", j_i64 (counter_value "state" (pl_json_state p)))])
                 (k_plugins k !! fiber))
  else if bool_decide (reducer = "clock") then
    read (λ k, option_map (λ p, obj [("count", j_i64 (counter_value "count" (pl_json_state p)))])
                 (k_plugins k !! fiber))
  else if bool_decide (reducer = "model") then
    Ret (Some (obj [("text", JString "canned-response"); ("in", input)]))
  else if bool_decide (reducer = "noop") then Ret (Some (obj [("ok", JBool true)]))
  else Ret None.

(** ** Invocation *)

Definition settle (ticket : TicketId) : kprog unit :=
  do! settle_ticket reconcile ticket; Ret tt.

Definition journal_invoke (fiber cap : string) (input : Value) : kprog unit :=
  let! dry := read k_dry_run in
  if dry then Ret tt
  else
    do! journal fiber "cap.invoke" (obj [("cap", JString cap); ("input", input)]);
    Ret tt.

Definition journal_revoked (fiber cap reason : string) (ticket : TicketId) : kprog unit :=
  do! journal fiber "call.rejected"
        (obj [("ticket", j_u64 ticket); ("reason", JString reason); ("cap", JString cap)]);
  Ret tt.

Definition ticket_revoked : Value :=
  obj [("error", JString "ticket revoked"); ("code", JString "cancelled")].

Definition forward_error_debug (e : ForwardError) : string :=
  match e with
  | FwCancelled => "Cancelled"
  | FwTimeout => "Timeout"
  | FwGone s => "Gone(" +:+ env_debug s +:+ ")"
  | FwProtocol s => "Protocol(" +:+ env_debug s +:+ ")"
  end.

Definition is_admitted (ticket : TicketId) : kprog bool :=
  read (λ k, is_some_and is_open (get_ticket ticket (k_calls k))).

(** External execution: the forwarder's answer counts only while the ticket is
    still admitted. *)
Definition invoke_external (open : OpenCall) (cap : string) (input : Value) (timeout_ms : N)
    : kprog (Value * bool) :=
  let fiber := oc_logical open in
  let ticket := oc_ticket open in
  let! fwd := read k_forwarder in
  if negb fwd then
    do! settle ticket;
    Ret (obj [("error", JString "external plugin without host"); ("code", JString "internal")],
         false)
  else
    let out := env_forward (mkForwardRequest ticket cap input fiber (oc_instance open)
                              (oc_generation open) timeout_ms (oc_cancel open)) in
    let! admitted := is_admitted ticket in
    do! settle ticket;
    match out with
    | FwOk value =>
        if admitted then
          do! journal_invoke fiber cap input;
          Ret (value, true)
        else
          do! journal_revoked fiber cap "revoked-during-forward" ticket;
          Ret (ticket_revoked, false)
    | FwErr code message =>
        if admitted then
          Ret (obj [("error", JString message); ("code", JString code)], false)
        else
          do! journal_revoked fiber cap "revoked-during-forward" ticket;
          Ret (obj [("error", JString message); ("code", JString "cancelled")], false)
    | FwFailed e =>
        do! settle ticket;
        Ret (obj [("error", JString ("forward failed: " +:+ forward_error_debug e));
                  ("code", JString (forward_error_code e))], false)
    end.

(** In-process execution by the reducer of the definition. *)
Definition invoke_reducer (open : OpenCall) (cap : string) (input : Value) (reducer : string)
    : kprog (Value * bool) :=
  let fiber := oc_logical open in
  let ticket := oc_ticket open in
  if bool_decide (reducer = "crasher") then
    do! settle ticket;
    let mode := default "panic" (get_str "mode" input) in
    let! info := fault fiber mode in
    Ret (obj [("error", JString "injected fault"); ("code", JString "plugin-panicked");
              ("fault", info)], false)
  else
    let! entry := dispatch reducer fiber input in
    match entry with
    | None =>
        do! settle ticket;
        Ret (obj [("error", JString "unknown reducer"); ("code", JString "reducer-missing")],
             false)
    | Some entry =>
        let! admitted := is_admitted ticket in
        do! settle ticket;
        if admitted then
          do! journal_invoke fiber cap input;
          Ret (entry, true)
        else
          do! journal_revoked fiber cap "revoked-during-dispatch" ticket;
          Ret (ticket_revoked, false)
    end.

(** The entry of the activation the ticket was opened for. *)
Definition invoke_target (open : OpenCall) : kprog (option (string * ExecutionKind)) :=
  read (λ k,
    match k_plugins k !! oc_logical open with
    | Some p =>
        if bool_decide (canonical (pl_state p) = Active)
           && (pl_instance_id p =? oc_instance open)%N
           && (pl_generation p =? oc_generation open)%N
        then Some (pl_reducer p, pl_execution p) else None
    | None => None
    end).

Definition unavailable_code (p : option Plugin) : string :=
  match option_map (λ p, canonical (pl_state p)) p with
  | Some Failed | Some Disposed => "plugin-not-active"
  | Some Quiescing | Some CleanupPending => "context-not-active"
  | Some Waiting | Some Preparing | Some Registered => "dependency-unavailable"
  | _ => "plugin-not-loaded"
  end.

Definition invoke_bound (cap : string) (input : Value) (expected : option InstanceRef)
    : kprog (Value * bool) :=
  let! opened := call_open_ephemeral reconcile cap in
  match opened with
  | Err v => Ret (v, false)
  | Ok open =>
      let fiber := oc_logical open in
      let ticket := oc_ticket open in
      let! e := epoch in
      if is_some_and (λ r,
           negb (ref_epoch r =? e)%N || negb (ref_instance r =? oc_instance open)%N
           || negb (ref_context r =? oc_context open)%N
           || negb (ref_generation r =? oc_generation open)%N
           || negb (bool_decide (ref_logical r = fiber))) expected then
        do! settle ticket;
        Ret (obj [("code", JString "stale-generation")], false)
      else
        let! target := invoke_target open in
        match target with
        | None =>
            do! settle ticket;
            let! p := read (λ k, k_plugins k !! fiber) in
            Ret (obj [("error", JString "plugin not available");
                      ("code", JString (unavailable_code p))], false)
        | Some (reducer, External _ _ timeout_ms) => invoke_external open cap input timeout_ms
        | Some (reducer, InProcess) => invoke_reducer open cap input reducer
        end
  end.

Definition invoke (cap : string) (input : Value) : kprog (Value * bool) :=
  invoke_bound cap input None.

Definition invoke_for_ref (expected : InstanceRef) (cap : string) (input : Value)
    : kprog (Value * bool) :=
  invoke_bound cap input (Some expected).

(** ** Events *)

(** What an event does to an entry: counters and clocks tick. *)
Definition tick_plugin (topic : string) (p : Plugin) : Plugin :=
  if bool_decide (pl_reducer p = "counter") && bool_decide (topic = "sys.tick") then
    plg_json_state (counter_next "state" (pl_json_state p)) p
  else if bool_decide (pl_reducer p = "clock") && bool_decide (topic = "sys.tick") then
    plg_json_state (counter_next "count" (pl_json_state p)) p
  else p.

Definition deliver_to_instance (topic : string) (inst : InstanceId) : kprog unit :=
  let! active := read (λ k, require_active inst (k_contexts k)) in
  if negb (is_ok active) then Ret tt
  else
    let! logical := read (λ k, default "" (option_map cr_logical
                                             (get_by_instance inst (k_contexts k)))) in
    if str_is_empty logical then Ret tt
    else
      let! cur := current_of logical in
      if is_some_and (λ c, negb (cr_instance c =? inst)%N) cur then Ret tt
      else
        update_plugin logical (λ p,
          if bool_decide (canonical (pl_state p) = Active) then tick_plugin topic p else p).

Definition deliver_to_legacy (topic fiber : string) : kprog unit :=
  update_plugin fiber (λ p,
    if negb (pl_instance_id p =? 0)%N then p
    else if bool_decide (canonical (pl_state p) = Active) then tick_plugin topic p else p).

Definition deliver_evt (topic : string) : kprog unit :=
  let! targets := read (λ k, subscriber_instances topic (k_bus k)) in
  let! legacy := read (λ k, subscribers topic (k_bus k)) in
  do! for_each targets (deliver_to_instance topic);
  for_each legacy (deliver_to_legacy topic).

Definition emit (topic : string) (payload : Value) : kprog N :=
  let! seq := journal "cli" "evt.emit" (obj [("topic", JString topic); ("payload", payload)]) in
  do! deliver_evt topic;
  do! modify (λ k, match k_event_sink k with
                   | Some l => set_event_sink (Some (l ++ [(topic, payload)])) k
                   | None => k
                   end);
  Ret seq.

(** ** Replay and reset *)

(** One journal entry of the fold: how many counters it advanced. *)
Definition replay_entry (applied : nat) (e : JournalEntry) : kprog nat :=
  if bool_decide (je_kind e = "evt.emit")
     && bool_decide (default "" (get_str "topic" (je_args e)) = "sys.tick") then
    on_plugins (λ ps,
      match ps !! "counter" with
      | Some p =>
          if bool_decide (canonical (pl_state p) = Active) then
            (S applied, <["counter" := plg_json_state (counter_next "state" (pl_json_state p)) p]> ps)
          else (applied, ps)
      | None => (applied, ps)
      end)
  else Ret applied.

Definition replay : kprog (nat * nat) :=
  let! entries := read (λ k, read_all (jr_file (k_journal k))) in
  let! applied := for_fold entries 0 replay_entry in
  Ret (applied, length entries).

Definition reset_plugin (p : Plugin) : Plugin :=
  if negb (bool_decide (canonical (pl_state p) = Active)) then p
  else
    let p := plg_restart_times [] (plg_panic_count 0%N p) in
    if bool_decide (pl_reducer p = "counter") then plg_json_state (obj [("state", j_u64 0)]) p
    else if bool_decide (pl_reducer p = "clock") then plg_json_state (obj [("count", j_u64 0)]) p
    else if negb (bool_decide (pl_reducer p = "crasher")) then
      plg_json_state (pl_init_state p) p
    else p.

Definition reset_bench : kprog unit :=
  do! modify (λ k, set_journal (journal_reset (k_journal k)) k);
  let! ids := read (λ k, keys (k_plugins k)) in
  do! for_each ids (λ id,
        if starts_with "gen" id then
          do! modify (λ k, set_definitions (delete id (k_definitions k)) k);
          let! cur := current_of id in
          match cur with
          | Some cur => do! dispose_instance_inner reconcile (cr_instance cur); Ret tt
          | None => Ret tt
          end
        else Ret tt);
  let! inv := read (λ k, res_inventory (k_resources k)) in
  do! for_each inv (λ r,
        match rr_kind r with
        | Timer _ _ | Task _ => do! release (rr_handle r); Ret tt
        | _ => Ret tt
        end);
  do! on_plugins (upd (fmap reset_plugin));
  let! snap := read (λ k, ctx_snapshot (k_contexts k)) in
  do! for_each snap (λ c,
        if ctx_active c then on_contexts (upd (Contexts.set_state (cr_instance c) Active))
        else Ret tt);
  reconcile.

(** ** Registration of the host's forwarders and observers *)

Definition set_forwarder_op : kprog unit := modify (set_forwarder true).
Definition set_remote_forwarder_op : kprog unit := modify (set_remote_forwarder true).
Definition clear_remote_forwarder : kprog unit := modify (set_remote_forwarder false).
Definition set_hook_op : kprog unit := modify (set_hook (Some [])).
Definition set_event_sink_op (on : bool) : kprog unit :=
  modify (set_event_sink (if on then Some [] else None)).

(** [Kernel::provide], the adapter for capabilities without an instance. *)
Definition kernel_provide (cap fiber : string) : kprog unit := on_caps (upd (provide cap fiber)).

Definition active_resources_for (logical : string) : kprog nat :=
  let! c := current_of logical in
  match c with
  | Some c => read (λ k, active_for (cr_context c) (k_resources k))
  | None => Ret 0
  end.
End env.
