(* ===== verification/KernelResolve.v ===== *)
(** * What requirement resolution binds *)

From S2P Require Import Prelude RustStd Json Identity Contexts Resources Registry Bus Deps Calls.
From S2P Require Import Journal Manifest Prog KernelState KernelCalls KernelLifecycle.

(** The definition [p] offers a capability that satisfies the requirement. *)
Definition offers (defs : gmap string StoredManifest) (req : Requirement) (p : string) : Prop :=
  ∃ d c, defs !! p = Some d ∧ c ∈ sm_caps d ∧ cap_satisfies c req = true.

(** The provider a requirement designates: the one it names, or the only one. *)
Definition designates (defs : gmap string StoredManifest) (req : Requirement) (p : string) : Prop :=
  offers defs req p ∧
  match rq_provider req with
  | Some want => want = p
  | None => ∀ q, offers defs req q → q = p
  end.

(** The binding is to the current activation of the designated provider. *)
Definition bound (defs : gmap string StoredManifest) (states : gmap string ContextRecord)
    (req : Requirement) (b : Binding) : Prop :=
  ∃ p st, designates defs req p ∧ states !! p = Some st ∧ canonical (cr_state st) = Active ∧
    b = mkBinding (rq_interface req) p (cr_instance st) (cr_generation st).

Lemma elem_of_candidates req defs p :
  p ∈ provider_candidates req (provides_of defs) ↔ offers defs req p.
Proof.
  unfold provider_candidates. rewrite sort_strings_perm, list_elem_of_fmap. unfold offers. split.
  - intros ([q caps] & -> & H). apply list_elem_of_In, filter_In in H as [H C].
    apply list_elem_of_In, elem_of_map_to_list in H. unfold provides_of in H.
    apply lookup_fmap_Some in H as (d & <- & Hd). apply existsb_exists in C as (c & Hc & C).
    exists d, c. split_and!; [done|by apply list_elem_of_In|done].
  - intros (d & c & Hd & Hc & C). exists (p, sm_caps d). split; [done|].
    apply list_elem_of_In, filter_In. split.
    + apply list_elem_of_In, elem_of_map_to_list. unfold provides_of. by rewrite lookup_fmap, Hd.
    + apply existsb_exists. exists c. by rewrite <- list_elem_of_In.
Qed.

Lemma candidates_nodup req defs : NoDup (provider_candidates req (provides_of defs)).
Proof.
  unfold provider_candidates. rewrite sort_strings_perm.
  pose proof (NoDup_fst_map_to_list (provides_of defs)) as N.
  induction (map_to_list (provides_of defs)) as [|[q caps] l IH]; cbn in *; [constructor|].
  apply NoDup_cons in N as [N1 N2]. destruct (existsb _ _); [|by apply IH]. cbn.
  apply NoDup_cons. split; [|by apply IH]. intros (x & -> & H)%list_elem_of_fmap. apply N1.
  apply list_elem_of_In, filter_In in H as [H _]. apply list_elem_of_fmap. exists x.
  split; [done|by apply list_elem_of_In].
Qed.

Lemma bind_provider_ok states req p b :
  bind_provider states req p = Ok b ↔
  ∃ st, states !! p = Some st ∧ canonical (cr_state st) = Active ∧
    b = mkBinding (rq_interface req) p (cr_instance st) (cr_generation st).
Proof.
  unfold bind_provider, ctx_active. destruct (states !! p) as [st|]; [|naive_solver].
  case_bool_decide; cbn; naive_solver.
Qed.

Lemma resolve_requirement_ok defs states req b :
  resolve_requirement defs states req = Ok b ↔ bound defs states req b.
Proof.
  unfold resolve_requirement, bound, designates. destruct (rq_provider req) as [want|].
  - split.
    + destruct (defs !! want) as [d|] eqn:Hd; cbn; [|done].
      destruct (existsb _ _) eqn:C; cbn; [|done]. apply existsb_exists in C as (c & Hc & C).
      intros (st & H)%bind_provider_ok. exists want, st. split; [|done]. split; [|done].
      exists d, c. by rewrite list_elem_of_In.
    + intros (p & st & [(d & c & Hd & Hc & C) ->] & H). rewrite Hd. cbn.
      replace (existsb _ _) with true; [cbn; apply bind_provider_ok; eauto|].
      symmetry. apply existsb_exists. exists c. by rewrite <- list_elem_of_In.
  - pose proof (candidates_nodup req defs) as N. pose proof (elem_of_candidates req defs) as M.
    destruct (provider_candidates req (provides_of defs)) as [|p [|q l]].
    + split; [done|]. intros (p & st & [O _] & _). apply M in O. set_solver.
    + rewrite bind_provider_ok. split.
      * intros (st & H). exists p, st. split; [|done]. split; [apply M; set_solver|].
        intros q O. apply M in O. set_solver.
      * intros (p' & st & [O _] & H). apply M, list_elem_of_singleton in O as ->. eauto.
    + split; [done|]. intros (p' & st & [_ U] & _). exfalso.
      apply NoDup_cons in N as [N _]. apply N.
      rewrite (U p), (U q) by (apply M; set_solver). left.
Qed.

Lemma collect_result_complete {A B E} (f : A → result B E) l bs :
  Forall2 (λ a b, f a = Ok b) l bs → collect_result f l = Ok bs.
Proof. induction 1 as [|a b l bs Ha _ IH]; simpl; [done|]. by rewrite Ha, IH. Qed.

(** C30: resolution binds exactly what the requirements designate. It succeeds if
    and only if the consumer is defined and not on a cycle, and every requirement
    designates a provider (the one it names, which must offer a satisfying
    capability, or the only definition that offers one) whose current activation
    is active; the bindings are then, in the order of the requirements, to the
    instances and generations of those activations. *)
Theorem resolve_for_exact (logical : string) (defs : gmap string StoredManifest)
    (states : gmap string ContextRecord) (members : gset string) (path : list string)
    (bs : list Binding) :
  resolve_for logical defs states members path = Ok bs ↔
  logical ∉ members ∧ ∃ def, defs !! logical = Some def ∧
    Forall2 (bound defs states) (sm_requires def) bs.
Proof.
  unfold resolve_for. case_bool_decide; [naive_solver|].
  destruct (defs !! logical) as [def|]; cbn; [|naive_solver].
  trans (Forall2 (bound defs states) (sm_requires def) bs); [|naive_solver].
  split; [intros F%collect_result_ok|intros F; apply collect_result_complete];
    (eapply Forall2_impl; [exact F|]); intros req b; apply resolve_requirement_ok.
Qed.
