(* ===== verification/KernelActions.v ===== *)
(** * The atomic actions of the kernel's methods

    The public methods as data ([KernelOp]), and the state updates their actions
    make ([KAct]), each tagged with the kind of method allowed to make it. One
    lemma per method shows that each of its actions is a read or one of its
    updates; whatever holds of the updates then holds of every step of every
    interleaving of methods. *)

From S2P Require Import Prelude RustStd Json Identity Contexts Resources Registry Bus Deps Calls.
From S2P Require Import Journal Manifest Prog KernelState KernelCalls KernelLifecycle KernelDispatch.

(** ** The public methods as data

    Every public method of [Kernel] that changes its state. [invoke] and [invoke_for_ref] are
    [KInvoke]; [dispose_plugin_legacy] and [dispose_plugin_unchecked] are [KDisposePlugin] without
    its answer. [KRunThread] is the scheduler giving the thread of a timer or task one
    step. *)

Inductive KernelOp : Type :=
| KLoad (path : string)
| KReload
| KInstallRemote (def : StoredManifest)
| KRegisterRemote (logical : string) (instance generation : N) (peer : string)
| KUnregisterRemote (logical : string)
| KDisposePlugin (id : string)
| KDisposeInstance (inst : N)
| KReconcile
| KAcquire (logical : string) (kind : ResourceKind)
| KAcquireExternal (logical : string) (kind : ResourceKind) (inst generation : N)
| KAcquireBatch (logical : string) (kinds : list ResourceKind)
| KRelease (h : N)
| KGrant (consumer cap : string)
| KRevoke (consumer cap : string)
| KAdmit (req : DepAdmit)
| KAccept (child : N)
| KTimeout (child : N)
| KOpen (cap : string) (input : Value) (policy : option CallPolicy) (pins : list N)
| KCommit (ticket : N) (kind : string) (payload : Value)
| KCancel (ticket : N) (reason : string)
| KClose (ticket : N)
| KReap (ticket : N) (reason : string)
| KInvoke (cap : string) (input : Value) (expected : option InstanceRef)
| KDeliver (topic : string)
| KEmit (topic : string) (payload : Value)
| KReplay
| KResetBench
| KProvide (cap fiber : string)
| KSetForwarder
| KSetRemoteForwarder
| KClearRemoteForwarder
| KSetHook
| KSetEventSink (on : bool)
| KRunThread (h : N).

Section env.
Context {E : Env}.

Definition ignore {A} (p : kprog A) : kprog unit := do! p; Ret tt.

Definition kop_prog (o : KernelOp) : kprog unit :=
  match o with
  | KLoad path => ignore (load_manifest path)
  | KReload => ignore reload
  | KInstallRemote def => install_remote_definition def
  | KRegisterRemote l i g p => ignore (register_remote_provider l i g p)
  | KUnregisterRemote l => ignore (unregister_remote_provider l)
  | KDisposePlugin id => ignore (dispose_plugin id)
  | KDisposeInstance i => ignore (dispose_instance i)
  | KReconcile => reconcile
  | KAcquire l kd => ignore (acquire l kd)
  | KAcquireExternal l kd i g => ignore (acquire_external l kd i g)
  | KAcquireBatch l kds => ignore (acquire_batch l kds)
  | KRelease h => ignore (release h)
  | KGrant c cap => ignore (grant_outbound c cap)
  | KRevoke c cap => ignore (revoke_outbound c cap)
  | KAdmit req => ignore (dependency_admit req)
  | KAccept c => ignore (dependency_accept c)
  | KTimeout c => ignore (dependency_timeout c)
  | KOpen cap i p pins => ignore (call_open reconcile cap i p pins)
  | KCommit t kd p => ignore (commit_effect t kd p)
  | KCancel t r => ignore (call_cancel t r)
  | KClose t => ignore (call_close reconcile t)
  | KReap t r => ignore (call_reap reconcile t r)
  | KInvoke cap i e => ignore (invoke_bound cap i e)
  | KDeliver t => deliver_evt t
  | KEmit t p => ignore (emit t p)
  | KReplay => ignore replay
  | KResetBench => reset_bench
  | KProvide cap fiber => kernel_provide cap fiber
  | KSetForwarder => set_forwarder_op
  | KSetRemoteForwarder => set_remote_forwarder_op
  | KClearRemoteForwarder => clear_remote_forwarder
  | KSetHook => set_hook_op
  | KSetEventSink on => set_event_sink_op on
  | KRunThread h => on_resources (upd (run_thread h))
  end.

(** Sequential execution of a list of methods. *)
Definition kernel_run (ops : list KernelOp) (k : Kernel) : Kernel :=
  foldl (λ k o, (run (kop_prog o) k).2) k ops.
End env.

(** ** State updates *)

(** On the resource table. *)
Inductive ResAct : Type :=
| RRecord (ctx inst : N) (logical : string) (generation : N) (kind : ResourceKind)
| RAttach (kind : ResourceKind) (h ctx : N) (spawn : option string)
| RCheck (h : N)
| RClaim (h : N)
| RFinish (c : ReleaseClaim)
| RRollback (h : N)
| RRun (h : N).

Definition res_act (a : ResAct) (t : ResourceTable) : ResourceTable :=
  match a with
  | RRecord c i l g kd => (register_record c i l g kd t).2
  | RAttach kd h c s => (register_attach kd h c s t).2
  | RCheck h => (begin_release_check h t).2
  | RClaim h => (begin_release_claim h t).2
  | RFinish c => finish_release c t
  | RRollback h => rollback_register h t
  | RRun h => run_thread h t
  end.

(** On the call table. *)
Inductive CallAct : Type :=
| CNewFlag
| CAlloc (cap logical : string) (instance generation context epoch : N) (policy : CallPolicy)
    (pins : list N) (cancel now : N)
| CSetDep (id : N) (meta : DepChild)
| CCancelWhere (mine : TicketRecord → bool) (reason : string)
| CMarkCommitted (id : N)
| CExpire (id : N)
| CSetExpired (id : N)
| CSetCommitted (id : N)
| CSetDrain (id until : N)
| CCancel (id : N) (reason : string)
| CExpireOverdue (now : N)
| CRemove (id : N)
| CPush (id : N) (logical : string) (instance generation : N) (kind : string) (payload : Value)
    (at_ms : N)
| CTryClaim (inst : N)
| CReleaseClaim (inst : N).

Definition call_act (a : CallAct) (t : CallsTable) : CallsTable :=
  match a with
  | CNewFlag => (new_flag t).2
  | CAlloc cap l i g c e p pins f now => (alloc cap l i g c e p pins f now t).2
  | CSetDep id m => (set_dep_meta id m t).2
  | CCancelWhere mine r => (cancel_where mine r t).2
  | CMarkCommitted id => (mark_committed_if_admitted id t).2
  | CExpire id => (expire_ticket id t).2
  | CSetExpired id => (Calls.set_state id TkExpired t).2
  | CSetCommitted id => (Calls.set_state id TkCommitted t).2
  | CSetDrain id u => (set_drain_until id u t).2
  | CCancel id r => (cancel id r t).2
  | CExpireOverdue now => (expire_overdue now t).2
  | CRemove id => (remove id t).2
  | CPush id l i g kd p a => (push_effect id l i g kd p a t).2
  | CTryClaim i => (try_claim_cleanup i t).2
  | CReleaseClaim i => release_cleanup_claim i t
  end.

(** [issue_dep_bindings] on the counter and the handles. *)
Definition issue (defs : gmap string StoredManifest) (logical : string) (inst : InstanceId)
    (generation : N) (ctx : ContextId) (bindings : list Binding) (k : Kernel) : Kernel :=
  let out := retain (λ _ b, negb (db_consumer_instance b =? inst)%N) (k_dep_bindings k) in
  let '(n, out) :=
    foldl (issue_one defs logical inst generation ctx) (k_dep_seq k, out) bindings in
  set_dep_seq n (set_dep_bindings out k).

(** The reservation of [reserve_usage]. *)
Definition reserved (session : string) (u : DepUsage) : DepUsage :=
  mkDepUsage (<[session := (default 0 (du_per_session u !! session) + 1)%N]> (du_per_session u))
    (du_global u + 1)%N.

Inductive KAct : Type :=
| ACtx (o : CtxOp)
| ACtxSet (inst : N) (s : Fsm)
| ARes (a : ResAct)
| ACall (a : CallAct)
| ACaps (m : gmap string Entry)
| ABus (m : gmap string (list Subscription))
| APlugins (m : gmap string Plugin)
| ARetain (f : string → DepBinding → bool)
| AIssue (defs : gmap string StoredManifest) (logical : string) (inst generation ctx : N)
    (bindings : list Binding)
| ADefs (m : gmap string StoredManifest)
| ADropRemote (logical : string)
| ARegister (logical : string) (r : RemoteProvider)
| AGrants (m : gmap (string * string) N)
| AGrantSeq (n : N)
| AReserve (session : string)
| ARelease (session : string)
| AHook (l : option (list LifecycleEvent))
| ASink (l : option (list (string * Value)))
| AForwarder (on : bool)
| ARemoteForwarder (on : bool)
| AAppend (fiber kind : string) (args : Value) (ts : string)
| AJournalReset
| ANow (n : N).

Definition kact (a : KAct) (k : Kernel) : Kernel :=
  match a with
  | ACtx o => set_contexts (ctx_apply o (k_contexts k)) k
  | ACtxSet i s => set_contexts (Contexts.set_state i s (k_contexts k)) k
  | ARes a => set_resources (res_act a (k_resources k)) k
  | ACall a => set_calls (call_act a (k_calls k)) k
  | ACaps m => set_caps m k
  | ABus m => set_bus m k
  | APlugins m => set_plugins m k
  | ARetain f => set_dep_bindings (retain f (k_dep_bindings k)) k
  | AIssue defs l i g c bs => issue defs l i g c bs k
  | ADefs m => set_definitions m k
  | ADropRemote l => set_remote_providers (delete l (k_remote_providers k)) k
  | ARegister l r => set_remote_providers (<[l := r]> (k_remote_providers k)) k
  | AGrants m => set_outbound_grants m k
  | AGrantSeq n => set_grant_seq n k
  | AReserve s => set_dep_usage (reserved s (k_dep_usage k)) k
  | ARelease s => set_dep_usage (release_usage s (k_dep_usage k)) k
  | AHook l => set_hook l k
  | ASink l => set_event_sink l k
  | AForwarder on => set_forwarder on k
  | ARemoteForwarder on => set_remote_forwarder on k
  | AAppend f kd a ts => set_journal (append f kd a JNull ts true (k_journal k)).2 k
  | AJournalReset => set_journal (journal_reset (k_journal k)) k
  | ANow n => advance n k
  end.

(** Who makes an update: every method, the openings of tickets, their ends, the admission of
    dependency children, commits, the operator's grants, the reset, the registration of remote
    providers. *)
Inductive KTag : Type := TBase | TOpen | TSettle | TChild | TCommit | TGrant | TReset | TRemote.

#[export] Instance KTag_eq_dec : EqDecision KTag.
Proof. solve_decision. Defined.

Definition tag (a : KAct) : KTag :=
  match a with
  | ACall (CAlloc _ _ _ _ _ _ _ _ _ _) => TOpen
  | ACall (CRemove _) | ARelease _ => TSettle
  | ACall (CSetDep _ _) | AReserve _ => TChild
  | ACall (CSetCommitted _) | ACall (CPush _ _ _ _ _ _ _) => TCommit
  | AGrants _ | AGrantSeq _ => TGrant
  | ACtxSet _ _ | AJournalReset => TReset
  | ARegister _ _ => TRemote
  | _ => TBase
  end.

(** What a method may do beyond [TBase]. *)
Definition op_tags (o : KernelOp) : list KTag :=
  match o with
  | KGrant _ _ | KRevoke _ _ => [TBase; TGrant]
  | KAdmit _ => [TBase; TOpen; TSettle; TChild]
  | KOpen _ _ _ _ | KInvoke _ _ _ => [TBase; TOpen; TSettle]
  | KClose _ | KReap _ _ => [TBase; TSettle]
  | KCommit _ _ _ => [TBase; TCommit]
  | KResetBench => [TBase; TReset]
  | KRegisterRemote _ _ _ _ => [TBase; TRemote]
  | _ => [TBase]
  end.

(** A step that makes at most one update of [P]. *)
Definition step (P : KAct → Prop) (k k' : Kernel) : Prop := k' = k ∨ ∃ a, P a ∧ k' = kact a k.

#[export] Instance step_refl P : Reflexive (step P).
Proof. by left. Qed.

(** Walks through a program: sequencing, loops, branches; what remains is one
    goal per action that is not in the hint database. *)
Ltac always_step :=
  match goal with
  | |- always _ (bind _ _) => apply always_bind; [|intros]
  | |- always _ (Ret _) => exact I
  | |- always _ (for_each _ _) => apply always_for_each; intros
  | |- always _ (for_fold _ _ _) => apply always_for_fold; intros
  | |- always _ (match ?x with _ => _ end) => destruct x
  | |- always _ (ignore _) => unfold ignore
  end.

Ltac always_tac := repeat first [solve [eauto 6 with matrix] | always_step].

Section acts.
Context {E : Env} (P : KAct → Prop).
Context (Pbase : ∀ a, tag a = TBase → P a) (Popen : ∀ a, tag a = TOpen → P a) (Pset : ∀ a, tag a = TSettle → P a)
  (Pchild : ∀ a, tag a = TChild → P a) (Pcommit : ∀ a, tag a = TCommit → P a)
  (Pgrant : ∀ a, tag a = TGrant → P a) (Preset : ∀ a, tag a = TReset → P a)
  (Premote : ∀ a, tag a = TRemote → P a).

Notation acts := (always (step P)).

(** ** One action *)

Lemma acts_one {X} (f : Kernel → X * Kernel) :
  (∀ k, (f k).2 = k ∨ ∃ a, P a ∧ (f k).2 = kact a k) → acts (act f).
Proof. intros H. by apply always_one. Qed.

Lemma acts_read {X} (f : Kernel → X) : acts (read f).
Proof. apply always_read, _. Qed.

Lemma acts_modify f : (∀ k, f k = k ∨ ∃ a, P a ∧ f k = kact a k) → acts (modify f).
Proof. intros H. by apply always_modify. Qed.

Lemma acts_contexts {X} (f : ContextTable → X * ContextTable) o :
  (∀ t, (f t).2 = ctx_apply o t) → acts (on_contexts f).
Proof.
  intros H. apply acts_one. intros k. right. exists (ACtx o). split; [by apply Pbase|].
  cbn. rewrite <- H. by destruct (f _).
Qed.

Lemma acts_resources {X} (f : ResourceTable → X * ResourceTable) a :
  (∀ t, (f t).2 = res_act a t) → acts (on_resources f).
Proof.
  intros H. apply acts_one. intros k. right. exists (ARes a). split; [by apply Pbase|].
  cbn. rewrite <- H. by destruct (f _).
Qed.

Lemma acts_calls {X} (f : CallsTable → X * CallsTable) a :
  P (ACall a) → (∀ t, (f t).2 = call_act a t) → acts (on_calls f).
Proof.
  intros Ha H. apply acts_one. intros k. right. exists (ACall a). split; [done|].
  cbn. rewrite <- H. by destruct (f _).
Qed.

Lemma acts_caps {X} (f : gmap string Entry → X * gmap string Entry) : acts (on_caps f).
Proof.
  apply acts_one. intros k. right. exists (ACaps (f (k_caps k)).2). split; [by apply Pbase|].
  cbn. by destruct (f _).
Qed.

Lemma acts_bus {X} (f : gmap string (list Subscription) → X * gmap string (list Subscription)) :
  acts (on_bus f).
Proof.
  apply acts_one. intros k. right. exists (ABus (f (k_bus k)).2). split; [by apply Pbase|].
  cbn. by destruct (f _).
Qed.

Lemma acts_plugins {X} (f : gmap string Plugin → X * gmap string Plugin) : acts (on_plugins f).
Proof.
  apply acts_one. intros k. right. exists (APlugins (f (k_plugins k)).2). split; [by apply Pbase|].
  cbn. by destruct (f _).
Qed.

Lemma acts_retain_bindings f : acts (on_dep_bindings (upd (retain f))).
Proof. apply acts_one. intros k. right. exists (ARetain f). split; [by apply Pbase|done]. Qed.

Lemma acts_journal f kd a : acts (journal f kd a).
Proof.
  apply acts_one. intros k. right. exists (AAppend f kd a (env_ts (k_now k))).
  split; [by apply Pbase|]. unfold kact. by destruct (append f kd a JNull _ true _).
Qed.

Hint Resolve acts_read acts_caps acts_bus acts_plugins acts_retain_bindings acts_journal : matrix.

Ltac ctx_act o := apply (acts_contexts _ o); done.
Ltac res_act_tac a := apply (acts_resources _ a); done.
Ltac call_act_tac H a := apply (acts_calls _ a); [by apply H|done].

(** A [modify] or [act] that makes the update [a]. *)
Ltac acts_upd H a :=
  first [apply acts_modify | apply acts_one]; intros k; right; exists (a k); split; [by apply H|done].

(** On contexts. *)

Lemma ctx_claim_acts i : acts (on_contexts (claim_dispose i)).
Proof. ctx_act (OpClaimDispose i). Qed.

Lemma ctx_disposed_acts i : acts (on_contexts (upd (mark_disposed i))).
Proof. ctx_act (OpMarkDisposed i). Qed.

Lemma ctx_pending_acts i c : acts (on_contexts (upd (mark_cleanup_pending i c))).
Proof. ctx_act (OpMarkCleanupPending i c). Qed.

Lemma ctx_failed_acts i c : acts (on_contexts (upd (mark_failed i c))).
Proof. ctx_act (OpMarkFailed i c). Qed.

Lemma ctx_active_acts i : acts (on_contexts (mark_active i)).
Proof. ctx_act (OpMarkActive i). Qed.

Lemma ctx_waiting_acts i c : acts (on_contexts (mark_waiting i c)).
Proof. ctx_act (OpMarkWaiting i c). Qed.

Lemma ctx_create_acts l : acts (on_contexts (create l)).
Proof. ctx_act (OpCreateIn l Active None). Qed.

Lemma ctx_create_waiting_acts l c : acts (on_contexts (create_waiting l c)).
Proof. ctx_act (OpCreateIn l Waiting (Some c)). Qed.

Lemma ctx_set_state_acts i s : acts (on_contexts (upd (Contexts.set_state i s))).
Proof. acts_upd Preset (λ _ : Kernel, ACtxSet i s). Qed.

(** On resources. *)

Lemma res_record_acts c i l g kd : acts (on_resources (register_record c i l g kd)).
Proof. res_act_tac (RRecord c i l g kd). Qed.

Lemma res_attach_acts kd h c s : acts (on_resources (register_attach kd h c s)).
Proof. res_act_tac (RAttach kd h c s). Qed.

Lemma res_check_acts h : acts (on_resources (begin_release_check h)).
Proof. res_act_tac (RCheck h). Qed.

Lemma res_claim_acts h : acts (on_resources (begin_release_claim h)).
Proof. res_act_tac (RClaim h). Qed.

Lemma finish_release_acts c : acts (on_resources (upd (finish_release c))).
Proof. res_act_tac (RFinish c). Qed.

Lemma rollback_acts h : acts (on_resources (upd (rollback_register h))).
Proof. res_act_tac (RRollback h). Qed.

Lemma run_thread_acts h : acts (on_resources (upd (run_thread h))).
Proof. res_act_tac (RRun h). Qed.

(** On calls. *)

Lemma new_flag_acts : acts (on_calls new_flag).
Proof. call_act_tac Pbase CNewFlag. Qed.

Lemma alloc_acts cap l i g c e p pins f : acts (alloc_ticket cap l i g c e p pins f).
Proof.
  acts_upd Popen (λ k, ACall (CAlloc cap l i g c e p pins f (k_now k))).
Qed.

Lemma set_dep_acts id m : acts (on_calls (set_dep_meta id m)).
Proof. call_act_tac Pchild (CSetDep id m). Qed.

Lemma revoke_descendants_acts p r : acts (on_calls (revoke_descendants p r)).
Proof. eapply acts_calls; [|by intros t; apply (eq_refl (call_act (CCancelWhere _ r) t))].
  by apply Pbase. Qed.

Lemma revoke_consumer_acts c r : acts (on_calls (revoke_children_of_consumer c r)).
Proof. eapply acts_calls; [|by intros t; apply (eq_refl (call_act (CCancelWhere _ r) t))].
  by apply Pbase. Qed.

Lemma revoke_grant_acts c cap kp r : acts (on_calls (revoke_grant_children c cap kp r)).
Proof. eapply acts_calls; [|by intros t; apply (eq_refl (call_act (CCancelWhere _ r) t))].
  by apply Pbase. Qed.

Lemma mark_committed_acts id : acts (on_calls (mark_committed_if_admitted id)).
Proof. call_act_tac Pbase (CMarkCommitted id). Qed.

Lemma expire_acts id : acts (on_calls (expire_ticket id)).
Proof. call_act_tac Pbase (CExpire id). Qed.

Lemma set_expired_acts id : acts (on_calls (Calls.set_state id TkExpired)).
Proof. call_act_tac Pbase (CSetExpired id). Qed.

Lemma set_committed_acts id : acts (on_calls (Calls.set_state id TkCommitted)).
Proof. call_act_tac Pcommit (CSetCommitted id). Qed.

Lemma set_drain_acts id u : acts (on_calls (set_drain_until id u)).
Proof. call_act_tac Pbase (CSetDrain id u). Qed.

Lemma cancel_ticket_acts id r : acts (on_calls (cancel id r)).
Proof. call_act_tac Pbase (CCancel id r). Qed.

Lemma expire_overdue_acts now : acts (on_calls (expire_overdue now)).
Proof. call_act_tac Pbase (CExpireOverdue now). Qed.

Lemma remove_acts id : acts (on_calls (remove id)).
Proof. call_act_tac Pset (CRemove id). Qed.

Lemma try_claim_acts i : acts (on_calls (try_claim_cleanup i)).
Proof. call_act_tac Pbase (CTryClaim i). Qed.

Lemma release_claim_acts i : acts (on_calls (upd (release_cleanup_claim i))).
Proof. call_act_tac Pbase (CReleaseClaim i). Qed.

Hint Resolve ctx_claim_acts ctx_disposed_acts ctx_pending_acts ctx_failed_acts
  ctx_active_acts ctx_waiting_acts ctx_create_acts ctx_create_waiting_acts
  ctx_set_state_acts res_record_acts res_attach_acts res_check_acts res_claim_acts
  finish_release_acts rollback_acts run_thread_acts new_flag_acts alloc_acts set_dep_acts
  revoke_descendants_acts revoke_consumer_acts revoke_grant_acts mark_committed_acts expire_acts
  set_expired_acts set_committed_acts set_drain_acts cancel_ticket_acts expire_overdue_acts
  remove_acts try_claim_acts release_claim_acts : matrix.

(** ** The methods *)

Section methods.
Context (rc : kprog unit) (Hrc : acts rc).

Lemma journal_cancelled_acts r t : acts (journal_cancelled r t).
Proof. unfold journal_cancelled. always_tac. Qed.

Lemma current_of_acts l : acts (current_of l).
Proof. apply acts_read. Qed.

Lemma epoch_acts : acts epoch.
Proof. apply acts_read. Qed.

Lemma definition_is_remote_acts l : acts (definition_is_remote l).
Proof. apply acts_read. Qed.

Lemma grant_of_acts c cap : acts (grant_of c cap).
Proof. apply acts_read. Qed.

Lemma policy_for_acts l c : acts (policy_for l c).
Proof. apply acts_read. Qed.

Lemma outbound_policy_acts l : acts (outbound_policy_of l).
Proof. apply acts_read. Qed.

Hint Resolve journal_cancelled_acts current_of_acts epoch_acts definition_is_remote_acts
  grant_of_acts policy_for_acts outbound_policy_acts : matrix.

Lemma merged_acts : acts current_all_merged.
Proof. unfold current_all_merged, remote_state. always_tac. Qed.

Lemma bindings_stale_acts l st : acts (bindings_stale l st).
Proof. unfold bindings_stale. always_tac. Qed.

Hint Resolve merged_acts bindings_stale_acts : matrix.

Lemma admission_acts cap : acts (admission_record cap).
Proof. unfold admission_record, admission_missing, admission_of_instance. always_tac. Qed.

Lemma revoke_ticket_descendants_acts p r : acts (revoke_ticket_descendants p r).
Proof. unfold revoke_ticket_descendants. always_tac. Qed.

Lemma dep_release_acts s : acts (dep_release s).
Proof. acts_upd Pset (λ _ : Kernel, ARelease s). Qed.

Hint Resolve admission_acts revoke_ticket_descendants_acts dep_release_acts : matrix.

Lemma grant_acts c cap : acts (grant_outbound c cap).
Proof.
  unfold grant_outbound. always_tac.
  - acts_upd Pgrant (λ k, AGrantSeq (k_grant_seq k + 1)).
  - acts_upd Pgrant (λ k, AGrants (<[(c, cap) := a]> (k_outbound_grants k))).
Qed.

Lemma revoke_outbound_acts c cap : acts (revoke_outbound c cap).
Proof.
  unfold revoke_outbound. always_tac.
  acts_upd Pgrant (λ k, AGrants (delete (c, cap) (k_outbound_grants k))).
Qed.

Lemma issue_acts l i g bs : acts (issue_dep_bindings l i g bs).
Proof.
  unfold issue_dep_bindings. always_tac.
  acts_upd Pbase (λ _ : Kernel, AIssue a l i g (cr_context c) bs).
Qed.

Lemma prune_acts i : acts (prune_dep_bindings i).
Proof. unfold prune_dep_bindings. always_tac. Qed.

Hint Resolve grant_acts revoke_outbound_acts issue_acts prune_acts : matrix.

Lemma reserve_acts s l : acts (act (reserve_usage s l)).
Proof.
  apply acts_one. intros k. unfold reserve_usage. repeat (case_match; [by left|]). right.
  exists (AReserve s). split; [by apply Pchild|done].
Qed.

Hint Resolve reserve_acts : matrix.

Lemma admit_acts req : acts (dependency_admit req).
Proof.
  unfold dependency_admit, admit_parent, admit_binding, admit_consumer, admit_provider,
    admit_register, child_still_valid, provider_live. always_tac.
Qed.

Lemma chain_rejected_acts t kd r e c : acts (chain_rejected t kd r e c).
Proof. unfold chain_rejected. always_tac. Qed.

Hint Resolve chain_rejected_acts : matrix.

Lemma chain_check_acts t kd : acts (dep_chain_check t kd).
Proof. unfold dep_chain_check. always_tac. Qed.

Hint Resolve chain_check_acts : matrix.

Lemma accept_acts c : acts (dependency_accept c).
Proof. unfold dependency_accept. always_tac. Qed.

Lemma timeout_acts c : acts (dependency_timeout c).
Proof. unfold dependency_timeout. always_tac. Qed.

Lemma commit_acts t kd p : acts (commit_effect t kd p).
Proof.
  unfold commit_effect, commit_check, commit_state_check, commit_remote_check,
    commit_owner_check. always_tac.
  acts_upd Pcommit (λ k, ACall (CPush t (tk_logical t0) (tk_instance t0) (tk_generation t0) kd p
    (env_wall_ms (k_now k)))).
Qed.

Lemma cancel_acts t r : acts (call_cancel t r).
Proof. unfold call_cancel. always_tac. Qed.

Lemma begin_release_acts h : acts (begin_release_prog h).
Proof. unfold begin_release_prog. always_tac. Qed.

Lemma unpublish_acts kd i : acts (unpublish kd i).
Proof. unfold unpublish. always_tac. Qed.

Lemma publish_acts kd r : acts (publish_resource kd r).
Proof. unfold publish_resource. always_tac. Qed.

Lemma register_acts c i l g kd : acts (register_resource c i l g kd).
Proof. unfold register_resource. always_tac. Qed.

Lemma update_plugin_acts l f : acts (update_plugin l f).
Proof. apply acts_plugins. Qed.

Lemma update_plugin_of_acts l i f : acts (update_plugin_of l i f).
Proof. apply acts_plugins. Qed.

Lemma emit_hook_acts ev : acts (emit_hook ev).
Proof.
  apply acts_modify. intros k. destruct (k_hook k) as [l|]; [|by left]. right.
  exists (AHook (Some (l ++ [ev]))). split; [by apply Pbase|done].
Qed.

Hint Resolve admit_acts accept_acts timeout_acts commit_acts cancel_acts begin_release_acts
  unpublish_acts publish_acts register_acts
  update_plugin_acts update_plugin_of_acts emit_hook_acts : matrix.

Lemma release_resources_acts rec : acts (release_context_resources rec).
Proof. unfold release_context_resources, release_one. always_tac. Qed.

Hint Resolve release_resources_acts : matrix.

Lemma finalize_acts i : acts (maybe_finalize rc i).
Proof. unfold maybe_finalize, refresh_cleanup_cause. always_tac. Qed.

Hint Resolve finalize_acts : matrix.

Lemma settle_acts t : acts (settle_ticket rc t).
Proof. unfold settle_ticket, release_child_quota. always_tac. Qed.

Hint Resolve settle_acts : matrix.

Lemma close_acts t : acts (call_close rc t).
Proof. unfold call_close, release_child_quota. always_tac. Qed.

Lemma reap_acts t r : acts (call_reap rc t r).
Proof. unfold call_reap. always_tac. Qed.

Lemma check_pins_acts pins ctx : acts (check_pins pins ctx).
Proof. induction pins; cbn [check_pins]; always_tac. Qed.

Lemma alloc_call_acts cap l ctx p pins f : acts (alloc_call cap l ctx p pins f).
Proof. apply alloc_acts. Qed.

Hint Resolve check_pins_acts alloc_call_acts : matrix.

Lemma open_acts cap i p pins : acts (call_open rc cap i p pins).
Proof. unfold call_open. always_tac. Qed.

Lemma open_ephemeral_acts cap : acts (call_open_ephemeral rc cap).
Proof. unfold call_open_ephemeral. always_tac. Qed.

Hint Resolve open_acts open_ephemeral_acts close_acts reap_acts : matrix.

(** *** Lifecycle *)

Lemma acquire_acts l kd : acts (acquire l kd).
Proof. unfold acquire, push_handle, journal_acquire_race. always_tac. Qed.

Lemma acquire_external_acts l kd i g : acts (acquire_external l kd i g).
Proof. unfold acquire_external, push_handle, journal_acquire_race. always_tac. Qed.

Lemma release_acts h : acts (release h).
Proof. unfold release. always_tac. Qed.

Hint Resolve acquire_acts acquire_external_acts release_acts : matrix.

Lemma acquire_batch_acts l kds out : acts (acquire_batch_from l kds out).
Proof. revert out. induction kds; intros out; cbn [acquire_batch_from]; always_tac. Qed.

Lemma create_waiting_instance_acts d r : acts (create_waiting_instance d r).
Proof. unfold create_waiting_instance. always_tac. Qed.

Hint Resolve create_waiting_instance_acts : matrix.

Lemma ensure_waiting_acts l ds r : acts (ensure_waiting l ds r).
Proof. unfold ensure_waiting. always_tac. Qed.

Lemma drain_wait_acts i d : acts (drain_wait i d).
Proof.
  destruct d as [u|]; [|done]. unfold drain_wait. always_tac. split; [|done]. intros k. right.
  exists (ANow u). split; [by apply Pbase|done].
Qed.

Lemma expire_drains_acts rec : acts (expire_drains rec).
Proof. unfold expire_drains. always_tac. Qed.

Lemma revoke_publications_acts rec i : acts (revoke_publications rec i).
Proof. unfold revoke_publications, revoke_publication. always_tac. Qed.

Lemma withdraw_ticket_acts rec now d t : acts (withdraw_ticket rec now d t).
Proof. unfold withdraw_ticket. always_tac. Qed.

Lemma journal_pending_acts rec i r : acts (journal_cleanup_pending rec i r).
Proof. apply acts_journal. Qed.

Hint Resolve acquire_batch_acts ensure_waiting_acts drain_wait_acts expire_drains_acts
  revoke_publications_acts withdraw_ticket_acts journal_pending_acts : matrix.

Lemma dispose_acts i : acts (dispose_instance_inner rc i).
Proof.
  unfold dispose_instance_inner, dispose_claimed, dispose_pending, dispose_release. always_tac.
Qed.

Hint Resolve dispose_acts : matrix.

Lemma withdraw_to_waiting_acts l ds r : acts (withdraw_to_waiting rc l ds r).
Proof. unfold withdraw_to_waiting. always_tac. Qed.

Lemma rollback_acquired_acts i hs : acts (rollback_acquired i hs).
Proof. unfold rollback_acquired. always_tac. Qed.

Hint Resolve withdraw_to_waiting_acts rollback_acquired_acts : matrix.

Lemma acquire_kinds_acts ctx id kds acc : acts (acquire_kinds ctx id kds acc).
Proof. revert acc. induction kds; intros acc; cbn [acquire_kinds]; always_tac. Qed.

Lemma acquire_definition_acts ctx d : acts (acquire_definition_resources ctx d).
Proof. apply acquire_kinds_acts. Qed.

Lemma emit_activated_acts l i g : acts (emit_activated l i g).
Proof. unfold emit_activated. always_tac. Qed.

Lemma journal_active_acts id ctx bs : acts (journal_active id ctx bs).
Proof. apply acts_journal. Qed.

Hint Resolve acquire_definition_acts emit_activated_acts journal_active_acts : matrix.

Lemma promote_acts l d : acts (promote_waiting l d).
Proof. unfold promote_waiting. always_tac. Qed.

Lemma create_active_acts d bs js : acts (create_active rc d bs js).
Proof. unfold create_active. always_tac. Qed.

Lemma preserved_acts l d v : acts (preserved_json_state l d v).
Proof. unfold preserved_json_state. always_tac. Qed.

Lemma drop_remote_acts l a : acts (drop_remote l a).
Proof. unfold drop_remote. always_tac. Qed.

Hint Resolve promote_acts create_active_acts preserved_acts drop_remote_acts : matrix.

Lemma drop_stale_acts l : acts (drop_stale_remote l).
Proof.
  unfold drop_stale_remote. always_tac.
  acts_upd Pbase (λ _ : Kernel, ADropRemote l).
Qed.

Lemma reconcile_one_acts ds st l d : acts (reconcile_one rc ds st l d).
Proof. unfold reconcile_one. always_tac. Qed.

Hint Resolve drop_stale_acts reconcile_one_acts : matrix.

Lemma reconcile_activate_acts ds st order : acts (reconcile_activate rc ds st order).
Proof. induction order; cbn [reconcile_activate]; always_tac. Qed.

Hint Resolve reconcile_activate_acts : matrix.

Lemma reconcile_step_acts : acts (reconcile_step rc).
Proof. unfold reconcile_step, reconcile_cycle, reconcile_withdraw. always_tac. Qed.

Lemma reconcile_body_acts step : acts step → acts (reconcile_body step).
Proof.
  intros H. unfold reconcile_body. apply always_bind; [apply acts_read|]. intros n.
  induction (n * 2 + 4) as [|m IH]; cbn [reconcile_loop]; [done|]. always_tac.
Qed.
End methods.

Lemma reconcile_fuel_acts n : acts (reconcile_fuel n).
Proof.
  induction n as [|n IH]; [done|]. by apply reconcile_body_acts, reconcile_step_acts.
Qed.

Lemma reconcile_acts : acts reconcile.
Proof. apply reconcile_fuel_acts. Qed.

Hint Resolve reconcile_acts dispose_acts create_waiting_instance_acts drop_remote_acts
  emit_hook_acts settle_acts open_ephemeral_acts current_of_acts epoch_acts
  definition_is_remote_acts update_plugin_acts release_acts ctx_failed_acts
  ctx_set_state_acts : matrix.

Lemma install_remote_acts d : acts (install_remote_definition d).
Proof.
  unfold install_remote_definition. always_tac.
  - acts_upd Pbase (λ k, ADefs (<[sm_id d := d]> (k_definitions k))).
  - acts_upd Pbase (λ _ : Kernel, ADropRemote (sm_id d)).
Qed.

Lemma register_remote_acts l i g p : acts (register_remote_provider l i g p).
Proof.
  unfold register_remote_provider. always_tac.
  acts_upd Premote (λ _ : Kernel, ARegister l (mkRemoteProvider l i g p)).
Qed.

Lemma unregister_remote_acts l : acts (unregister_remote_provider l).
Proof.
  unfold unregister_remote_provider. always_tac.
  acts_upd Pbase (λ _ : Kernel, ADropRemote l).
Qed.

Lemma load_acts p : acts (load_manifest p).
Proof.
  unfold load_manifest, load_withdraw, load_substitute, load_restore. always_tac.
  acts_upd Pbase (λ k, ADefs (<[sm_id (with_source p a0) := with_source p a0]> (k_definitions k))).
Qed.

Lemma dispose_plugin_acts id : acts (dispose_plugin id).
Proof.
  unfold dispose_plugin, transitive_dependents. always_tac.
  - acts_upd Pbase (λ _ : Kernel, ADropRemote id).
  - acts_upd Pbase (λ k, ADefs (delete id (k_definitions k))).
Qed.

Hint Resolve load_acts dispose_plugin_acts : matrix.

Lemma reload_acts : acts reload.
Proof. unfold reload, reload_publish. always_tac. Qed.

Lemma fault_acts f m : acts (fault f m).
Proof. unfold fault. always_tac. Qed.

Lemma dispatch_acts r f i : acts (dispatch r f i).
Proof. unfold dispatch. always_tac. Qed.

Lemma journal_invoke_acts f c i : acts (journal_invoke f c i).
Proof. unfold journal_invoke. always_tac. Qed.

Lemma journal_revoked_acts f c r t : acts (journal_revoked f c r t).
Proof. unfold journal_revoked. always_tac. Qed.

Lemma settle_top_acts t : acts (settle t).
Proof. unfold settle. always_tac. Qed.

Lemma is_admitted_acts t : acts (is_admitted t).
Proof. apply acts_read. Qed.

Hint Resolve fault_acts dispatch_acts journal_invoke_acts journal_revoked_acts
  settle_top_acts is_admitted_acts : matrix.

Lemma invoke_acts cap i e : acts (invoke_bound cap i e).
Proof. unfold invoke_bound, invoke_external, invoke_reducer, invoke_target. always_tac. Qed.

Lemma deliver_acts t : acts (deliver_evt t).
Proof. unfold deliver_evt, deliver_to_instance, deliver_to_legacy. always_tac. Qed.

Hint Resolve deliver_acts : matrix.

Lemma emit_acts t p : acts (emit t p).
Proof.
  unfold emit. always_tac.
  apply acts_modify. intros k. destruct (k_event_sink k) as [l|]; [|by left]. right.
  exists (ASink (Some (l ++ [(t, p)]))). split; [by apply Pbase|done].
Qed.

Lemma replay_acts : acts replay.
Proof. unfold replay, replay_entry. always_tac. Qed.

Lemma reset_acts : acts reset_bench.
Proof.
  unfold reset_bench. always_tac.
  - acts_upd Preset (λ _ : Kernel, AJournalReset).
  - acts_upd Pbase (λ k, ADefs (delete x (k_definitions k))).
Qed.

Lemma provide_acts cap fiber : acts (kernel_provide cap fiber).
Proof. apply acts_caps. Qed.

Lemma set_forwarder_acts : acts set_forwarder_op.
Proof. acts_upd Pbase (λ _ : Kernel, AForwarder true). Qed.

Lemma set_remote_forwarder_acts : acts set_remote_forwarder_op.
Proof. acts_upd Pbase (λ _ : Kernel, ARemoteForwarder true). Qed.

Lemma clear_remote_forwarder_acts : acts clear_remote_forwarder.
Proof. acts_upd Pbase (λ _ : Kernel, ARemoteForwarder false). Qed.

Lemma set_hook_acts : acts set_hook_op.
Proof. acts_upd Pbase (λ _ : Kernel, AHook (Some [])). Qed.

Lemma set_event_sink_acts on : acts (set_event_sink_op on).
Proof. acts_upd Pbase (λ _ : Kernel, ASink (if on then Some [] else None)). Qed.

End acts.

(** ** Every method keeps to its tags *)

Ltac in_tags := intros ? ->; cbn; set_solver.

Lemma kop_acts `{Env} o : always (step (λ a, tag a ∈ op_tags o)) (kop_prog o).
Proof.
  destruct o; cbn [kop_prog]; unfold ignore, acquire_batch, dispose_instance;
    repeat (apply always_bind; [|done]);
    first
      [ apply load_acts | apply reload_acts | apply install_remote_acts | apply register_remote_acts
      | apply unregister_remote_acts | apply dispose_plugin_acts | apply reconcile_acts
      | apply acquire_acts | apply acquire_external_acts | apply acquire_batch_acts
      | apply release_acts | apply grant_acts | apply revoke_outbound_acts | apply admit_acts
      | apply accept_acts | apply timeout_acts | apply open_acts | apply commit_acts
      | apply cancel_acts | apply close_acts | apply reap_acts | apply invoke_acts
      | apply emit_acts | apply replay_acts | apply reset_acts | apply run_thread_acts
      | apply deliver_acts | apply provide_acts | apply set_forwarder_acts
      | apply set_remote_forwarder_acts | apply clear_remote_forwarder_acts | apply set_hook_acts
      | apply set_event_sink_acts
      | idtac ];
    try apply reconcile_acts; try in_tags.
  apply always_bind; [|intros; apply always_bind; [|done]].
  - apply dispose_acts; try apply reconcile_acts; in_tags.
  - apply reconcile_acts; in_tags.
Qed.

(** A relation respected by the updates of a method's tags is respected by each of
    its actions. *)
Lemma kop_always `{Env} (R : Kernel → Kernel → Prop) o :
  Reflexive R → (∀ a k, tag a ∈ op_tags o → R k (kact a k)) → always R (kop_prog o).
Proof.
  intros Hr H'. eapply always_impl; [|apply kop_acts].
  intros k k' [->|(a & Ha & ->)]; [reflexivity|by apply H'].
Qed.
