(* ===== verification/KernelInv.v ===== *)
(** * Invariants of the kernel under every interleaving

    Each method of the kernel is a program of atomic actions. This file shows
    that every action of every method preserves the structural invariants of
    the context, resource and call tables, for arbitrary arguments, so that they
    hold in every state of every interleaving of any number of methods. *)

From S2P Require Import Prelude RustStd Json Identity Contexts Resources Registry Bus Deps Calls.
From S2P Require Import Journal Manifest Prog KernelState KernelCalls KernelLifecycle KernelDispatch.
From S2P Require Import KernelActions.

(** ** Ownership in the resource table

    What every critical section on the table keeps. The live map of a timer or a
    task is filled by a second critical section, after a concurrent disposal may
    have released the record, so nothing is said of it here. *)

Record res_core (t : ResourceTable) : Prop := mkResCore {
  rs_fresh : ∀ h r, records t !! h = Some r → rr_handle r = h ∧ (h < next_handle t)%N;
  rs_below : ∀ c h, h ∈ handles_for c t → (h < next_handle t)%N;
  rs_owner : ∀ h r, records t !! h = Some r → ∀ c, h ∈ handles_for c t ↔ rr_owner_context r = c;
  rs_sorted : ∀ c, StronglySorted N.lt (handles_for c t);
}.

Lemma res_core_new : res_core resource_table_new.
Proof.
  split; unfold handles_for; cbn; intros; rewrite ?lookup_empty in *; try done; [|constructor].
  by destruct (not_elem_of_nil h).
Qed.

(** Only the records, the owners' lists and the handle counter matter; a record
    may change its state. *)
Lemma res_core_ext t t' :
  (∀ h r, records t' !! h = Some r → ∃ r0, records t !! h = Some r0 ∧
     rr_handle r = rr_handle r0 ∧ rr_owner_context r = rr_owner_context r0) →
  by_owner t' = by_owner t → next_handle t' = next_handle t → res_core t → res_core t'.
Proof.
  intros R O H [F B W S]. split; unfold handles_for; rewrite ?O, ?H; try done.
  - intros h r (r0 & H0 & -> & _)%R. eauto.
  - intros h r (r0 & H0 & _ & ->)%R. by apply W.
Qed.

Lemma register_record_core c i l g k t : res_core t → res_core (register_record c i l g k t).2.
Proof.
  intros [F B O S]. split.
  - cbn. intros h r [[<- <-]|[N H]]%lookup_insert_Some; cbn; [split; [done|lia]|].
    destruct (F _ _ H). split; [done|lia].
  - intros c' h. rewrite handles_register_record. cbn. destruct (decide (c = c')).
    + rewrite elem_of_app, list_elem_of_singleton. intros [?%B| ->]; lia.
    + intros ?%B. lia.
  - intros h r Hr c'. rewrite handles_register_record.
    cbn in Hr. apply lookup_insert_Some in Hr as [[<- <-]|[N H]]; cbn.
    + destruct (decide (c = c')); [|split; [intros ?%B; lia|done]].
      rewrite elem_of_app, list_elem_of_singleton. by split; [|right].
    + destruct (decide (c = c')) as [->|]; [|by apply O].
      rewrite elem_of_app, list_elem_of_singleton, (O _ _ H). naive_solver.
  - intros c'. rewrite handles_register_record. destruct (decide (c = c')) as [->|]; [|done].
    apply StronglySorted_snoc; [done|]. by apply B.
Qed.

Lemma drop_record_core h c t : res_core t → res_core (drop_record h c t).
Proof.
  intros [F B O S].
  assert (M : ∀ c' h', h' ∈ handles_for c' (drop_record h c t) ↔
    h' ∈ handles_for c' t ∧ (c = c' → h' ≠ h)).
  { intros c' h'. rewrite handles_drop_record. destruct (decide (c = c')) as [->|].
    - rewrite list_elem_of_filter. naive_solver.
    - naive_solver. }
  split.
  - cbn. intros h' r [N H]%lookup_delete_Some. by apply F.
  - intros c' h' [H _]%M. by apply B in H.
  - cbn. intros h' r [N H]%lookup_delete_Some c'. rewrite M, (O _ _ H). naive_solver.
  - intros c'. rewrite handles_drop_record. destruct (decide (c = c')); [|done].
    by apply StronglySorted_filter.
Qed.

Lemma register_attach_core k h c s t : res_core t → res_core (register_attach k h c s t).2.
Proof.
  intros W. destruct k, s; cbn; try done; try by apply drop_record_core.
  all: eapply res_core_ext; [..|exact W]; cbn; eauto.
Qed.

Lemma begin_release_check_core h t : res_core t → res_core (begin_release_check h t).2.
Proof.
  intros W. unfold begin_release_check. destruct (records t !! h); [|done].
  case_bool_decide; [|by destruct (rr_kind _)]. eapply res_core_ext; [..|exact W]; cbn; eauto.
Qed.

Lemma begin_release_claim_core h t : res_core t → res_core (begin_release_claim h t).2.
Proof.
  intros W. unfold begin_release_claim. destruct (records t !! h) as [r|] eqn:Hr; [|done].
  case_bool_decide; (eapply res_core_ext; [..|exact W]; cbn; eauto).
  intros h' r' [[<- <-]|[_ H']]%lookup_insert_Some; [|by eauto]. by exists r.
Qed.

Lemma stop_live_core o t : res_core t → res_core (stop_live o t).
Proof. intros W. destruct o; [|done]. eapply res_core_ext; [..|exact W]; cbn; eauto. Qed.

Lemma finish_release_core c t : res_core t → res_core (finish_release c t).
Proof. intros W. unfold finish_release. by do 2 apply stop_live_core. Qed.

Lemma rollback_core h t : res_core t → res_core (rollback_register h t).
Proof.
  intros W. unfold rollback_register. destruct (records t !! h) as [r|]; [|done].
  case_bool_decide; [|done]. do 2 apply stop_live_core.
  eapply res_core_ext; [..|exact (drop_record_core h (rr_owner_context r) t W)]; cbn; eauto.
Qed.

Lemma run_thread_core h t : res_core t → res_core (run_thread h t).
Proof. intros W. eapply res_core_ext; [..|exact W]; cbn; eauto. Qed.

(** ** The call table up to its cells *)

Record calls_core (t : CallsTable) : Prop := {
  cc_id : ∀ id r, tickets t !! id = Some r → tk_id r = id ∧ (id < next_ticket t)%N;
  cc_ring : ring_ok (next_effect t) (effects t);
}.

(** An update of the tickets that keeps their keys. *)
Lemma calls_core_tickets m fl t :
  calls_core t →
  (∀ id r', m !! id = Some r' → ∃ r, tickets t !! id = Some r ∧ tk_id r' = tk_id r) →
  calls_core (with_tickets m fl t).
Proof.
  intros [I R] H. split; [|done]. cbn. intros id r' (r & Hr & ->)%H. by apply I.
Qed.

Lemma calls_core_insert id r r' fl t :
  calls_core t → tickets t !! id = Some r → tk_id r' = tk_id r →
  calls_core (with_tickets (<[id := r']> (tickets t)) fl t).
Proof.
  intros C Hr E. apply calls_core_tickets; [done|].
  intros id' r0 [[<- <-]|[N H]]%lookup_insert_Some; eauto.
Qed.

Lemma cancel_where_core mine reason t : calls_core t → calls_core (cancel_where mine reason t).2.
Proof.
  intros C. apply calls_core_tickets; [done|]. intros id r'. rewrite lookup_fmap.
  intros (r & Hr & ->)%fmap_Some_1. exists r. split; [done|]. by destruct (_ && _).
Qed.

Lemma expire_overdue_core now t : calls_core t → calls_core (expire_overdue now t).2.
Proof.
  intros C. apply calls_core_tickets; [done|]. intros id r'. rewrite lookup_fmap.
  intros (r & Hr & ->)%fmap_Some_1. exists r. split; [done|]. by destruct (overdue _ _).
Qed.

Lemma remove_core id t : calls_core t → calls_core (remove id t).2.
Proof.
  intros C. apply calls_core_tickets; [done|]. intros id' r [_ Hr]%lookup_delete_Some. eauto.
Qed.

Lemma alloc_core cap l i g c e p pins f now t :
  calls_core t → calls_core (alloc cap l i g c e p pins f now t).2.
Proof.
  intros [I R]. split; [|done]. cbn. intros id r [[<- <-]|[N H]]%lookup_insert_Some.
  - split; [done|lia].
  - destruct (I _ _ H). split; [done|lia].
Qed.

Lemma push_effect_core id l i g kd p a t :
  calls_core t → calls_core (push_effect id l i g kd p a t).2.
Proof. intros [I R]. split; [done|]. cbn. by apply ring_push. Qed.

Ltac ticket_case t id :=
  let r := fresh "r" in let H := fresh "Hr" in
  destruct (tickets t !! id) as [r|] eqn:H; cbn [snd]; [|assumption].

Lemma set_dep_meta_core id m t : calls_core t → calls_core (set_dep_meta id m t).2.
Proof. intros C. unfold set_dep_meta. ticket_case t id. by eapply calls_core_insert. Qed.

Lemma mark_committed_core id t : calls_core t → calls_core (mark_committed_if_admitted id t).2.
Proof.
  intros C. unfold mark_committed_if_admitted. ticket_case t id.
  destruct (is_open r); [|done]. by eapply calls_core_insert.
Qed.

Lemma expire_ticket_core id t : calls_core t → calls_core (expire_ticket id t).2.
Proof.
  intros C. unfold expire_ticket. ticket_case t id.
  destruct (is_open r); [|done]. by eapply calls_core_insert.
Qed.

Lemma cancel_core id reason t : calls_core t → calls_core (cancel id reason t).2.
Proof.
  intros C. unfold cancel. ticket_case t id.
  destruct (is_open r); [|done]. by eapply calls_core_insert.
Qed.

Lemma set_drain_core id u t : calls_core t → calls_core (set_drain_until id u t).2.
Proof.
  intros C. unfold set_drain_until. ticket_case t id.
  destruct (is_open r); [|done]. by eapply calls_core_insert.
Qed.

Lemma ticket_set_state_core id st t : calls_core t → calls_core (Calls.set_state id st t).2.
Proof. intros C. unfold Calls.set_state. ticket_case t id. by eapply calls_core_insert. Qed.

Lemma new_flag_core t : calls_core t → calls_core (new_flag t).2.
Proof. by intros [I R]. Qed.

Lemma try_claim_core i t : calls_core t → calls_core (try_claim_cleanup i t).2.
Proof. by intros [I R]. Qed.

Lemma release_claim_core i t : calls_core t → calls_core (release_cleanup_claim i t).
Proof. by intros [I R]. Qed.

#[export] Hint Resolve cancel_where_core expire_overdue_core remove_core alloc_core
  push_effect_core set_dep_meta_core mark_committed_core expire_ticket_core cancel_core
  set_drain_core ticket_set_state_core new_flag_core try_claim_core release_claim_core
  register_record_core register_attach_core run_thread_core begin_release_check_core begin_release_claim_core finish_release_core
  rollback_core : matrix.

(** ** The kernel invariant *)

Record kernel_inv (k : Kernel) : Prop := {
  ki_ctx : ctx_wf (k_contexts k);
  ki_res : res_core (k_resources k);
  ki_calls : calls_core (k_calls k);
  ki_bindings : ∀ id b, k_dep_bindings k !! id = Some b → db_id b = id;
}.

Lemma kernel_inv_new e j d : kernel_inv (kernel_new e j d).
Proof.
  split; cbn; [apply context_table_new_wf|apply res_core_new| |done].
  destruct calls_wf_new. by split.
Qed.

Lemma issue_one_ids defs l i g c bs : ∀ st,
  (∀ id b, st.2 !! id = Some b → db_id b = id) →
  ∀ id b, (foldl (issue_one defs l i g c) st bs).2 !! id = Some b → db_id b = id.
Proof.
  induction bs as [|b0 bs IH]; intros [n out] H; cbn [foldl]; [done|]. apply IH.
  unfold issue_one. destruct (binding_capability defs b0); [|done]. cbn.
  intros id b [[<- <-]|[_ Hb]]%lookup_insert_Some; [done|by apply H].
Qed.

Lemma res_act_core a t : res_core t → res_core (res_act a t).
Proof. destruct a; cbn [res_act]; auto with matrix. Qed.

Lemma call_act_core a t : calls_core t → calls_core (call_act a t).
Proof. destruct a; cbn [call_act]; auto with matrix. Qed.

Lemma issue_inv defs l i g c bs k : kernel_inv k → kernel_inv (issue defs l i g c bs k).
Proof.
  intros [A B C D]. unfold issue. destruct (foldl _ _ _) as [n out] eqn:F. split; cbn; try done.
  intros id b Hb. apply (f_equal snd) in F. cbn in F. subst out.
  eapply issue_one_ids; [|exact Hb]. cbn. intros id' b' [Hb' _]%lookup_retain_Some. by apply D.
Qed.

(** Every update keeps the invariant. *)
Lemma kact_inv a k : kernel_inv k → kernel_inv (kact a k).
Proof.
  intros I. pose proof I as [A B C D].
  destruct a; cbn [kact]; try (split; cbn; assumption).
  - split; cbn; try done. by apply ctx_apply_wf.
  - split; cbn; try done. by apply set_state_wf.
  - split; cbn; try done. by apply res_act_core.
  - split; cbn; try done. by apply call_act_core.
  - split; cbn; try done. intros id b [Hb _]%lookup_retain_Some. by apply D.
  - by apply issue_inv.
Qed.

Section env.
Context {E : Env}.

Lemma kop_keeps o : always (preserves kernel_inv) (kop_prog o).
Proof. apply kop_always; [apply _|]. intros a k _ I. by apply kact_inv. Qed.

Lemma kernel_inv_advance (n : N) (k : Kernel) : kernel_inv k → kernel_inv (advance n k).
Proof. by intros [A B C D]; split. Qed.

Lemma kernel_run_inv ops k : kernel_inv k → kernel_inv (kernel_run ops k).
Proof.
  revert k. induction ops as [|o ops IH]; intros k I; [done|]. apply IH.
  refine (always_run (preserves kernel_inv) (kop_prog o) k _ _ (kop_keeps o) I); apply _.
Qed.

(** ** Properties *)

(** C1: the tables stay consistent under concurrency. Start any number of threads
    on a fresh kernel, each running any public method that changes the kernel with any
    arguments, the registration of forwarders and observers included, and
    interleave their critical sections in any order, the clock moving freely. In
    every state reached: a logical id has at most one admissible activation, its
    current one, which holds its highest generation; a resource record is listed
    for its owning context and for no other, and every context lists its handles
    once each, in acquisition order; tickets are keyed by the id they carry; the
    effect ring holds at most [MAX_EFFECTS] effects; opaque bindings are keyed by
    the id they carry. *)
Theorem interleavings_keep_tables (ops : list KernelOp) (e : N) (j : Journal) (dry : bool)
    (ps : list (kprog unit)) (k : Kernel) :
  rtc pool_step (kop_prog <$> ops, kernel_new e j dry) (ps, k) →
  (∀ i i' r r', require_active i (k_contexts k) = Ok r → require_active i' (k_contexts k) = Ok r' →
     cr_logical r = cr_logical r' → i = i') ∧
  (∀ i r, require_active i (k_contexts k) = Ok r →
     cr_generation r = generation_of (cr_logical r) (k_contexts k)) ∧
  (∀ h r, res_record h (k_resources k) = Some r →
     ∀ c, h ∈ handles_for c (k_resources k) ↔ rr_owner_context r = c) ∧
  (∀ c, StronglySorted N.lt (handles_for c (k_resources k))) ∧
  (∀ id t, get_ticket id (k_calls k) = Some t → tk_id t = id) ∧
  effects_len (k_calls k) ≤ MAX_EFFECTS ∧
  (∀ id b, k_dep_bindings k !! id = Some b → db_id b = id).
Proof.
  intros R.
  assert (F : Forall (always (preserves kernel_inv)) (kop_prog <$> ops)).
  { apply Forall_forall. intros p (o & -> & _)%list_elem_of_fmap. apply kop_keeps. }
  destruct (always_pool kernel_inv _ _ _ _ kernel_inv_advance F (kernel_inv_new e j dry) R)
    as [[W Wr [Cid (first & _ & _ & Cl & _)] Wb] _].
  split_and!.
  - intros i i' r r' (H1 & _ & C1)%require_active_ok (H2 & _ & C2)%require_active_ok El.
    pose proof (wf_has_current _ W _ _ H1) as [c Hc].
    rewrite El in *. rewrite Hc in *. destruct C1, C2; congruence.
  - intros i r (H1 & _ & C1)%require_active_ok.
    destruct C1 as [C1|C1]; [|by destruct (wf_has_current _ W _ _ H1); congruence].
    destruct (wf_current _ W _ _ C1) as (r' & H' & _ & <-). congruence.
  - exact (rs_owner _ Wr).
  - exact (rs_sorted _ Wr).
  - intros id t H. by apply Cid in H as [? _].
  - done.
  - exact Wb.
Qed.

End env.

(** ** A concurrent deployment

    [work] runs in a process, [app] in the kernel. The forwarder and the hook are registered while
    the manifests load; then a call to [work] is forwarded while a call to [app] opens and commits,
    [app] acquires a timer that ticks, and an event is emitted. *)
Definition mixed_env : Env := {|
  env_spawn _ := None;
  env_forward r := FwOk (JString ("done " +:+ fr_cap r));
  env_ts _ := "";
  env_wall_ms n := n;
  env_read p :=
    if bool_decide (p = "work.json") then
      Ok (JObject [("id", JString "work"); ("provides", JArray [JString "work.run@1"]);
                   ("execution", JObject [("kind", JString "process"); ("entrypoint", JString "/bin/work")])])
    else if bool_decide (p = "app.json") then
      Ok (JObject [("id", JString "app"); ("provides", JArray [JString "app.run@1"]);
                   ("reducer", JString "counter")])
    else Err "no such file";
  env_dir := None;
  env_in_dir _ := true;
  env_debug s := s;
  env_nesting := 2;
|}.

Definition mixed_ops : list KernelOp :=
  [KSetForwarder; KSetHook; KLoad "work.json"; KLoad "app.json"; KInvoke "work.run@1" JNull None;
   KOpen "app.run@1" JNull None []; KAcquire "app" (Timer "t" 5); KEmit "sys.tick" JNull; KRunThread 3;
   KCommit 1 "write" JNull; KCommit 2 "write" JNull].

Definition mixed_schedule : list nat :=
  concat (repeat [0; 1; 2; 3] 200) ++ concat (repeat [4; 5; 6; 7] 100) ++ concat (repeat [8; 9; 10] 40).

Definition mixed_start : Kernel := kernel_new 7 (journal_open [] false) false.

Definition mixed_end : list (kprog unit) * Kernel :=
  exec mixed_schedule (kop_prog (E := mixed_env) <$> mixed_ops, mixed_start).

(** Both manifests load at once, so each is activated twice; the call to [work] was forwarded, the
    call to [app] committed, and its timer is there. *)
Lemma mixed_facts :
  Forall (λ p, outcome p = Some tt) mixed_end.1 ∧
  ("work", "cap.invoke") ∈ ((λ e, (je_fiber e, je_kind e)) <$> read_all (jr_file (k_journal mixed_end.2))) ∧
  effects_len (k_calls mixed_end.2) = 1 ∧ handles_for 2 (k_resources mixed_end.2) = [2; 5]%N.
Proof.
  split_and!; [vm_compute; by repeat constructor| |by vm_compute..].
  eapply bool_decide_eq_true_1. by vm_compute.
Qed.

Lemma interleavings_keep_tables_witness :
  ∃ r, require_active 2 (k_contexts mixed_end.2) = Ok r ∧
    cr_generation r = generation_of (cr_logical r) (k_contexts mixed_end.2) ∧ cr_generation r = 2%N ∧
    StronglySorted N.lt (handles_for 2 (k_resources mixed_end.2)) ∧
    effects_len (k_calls mixed_end.2) ≤ MAX_EFFECTS.
Proof.
  destruct (interleavings_keep_tables (E := mixed_env) mixed_ops 7 (journal_open [] false) false mixed_end.1
    mixed_end.2 (exec_rtc _ _ _)) as (_ & G & _ & S & _ & L & _).
  destruct (require_active 2 (k_contexts mixed_end.2)) as [r|e] eqn:R; [|by vm_compute in R].
  exists r. split_and!; [done|by apply (G 2%N)| |apply S|done]. rewrite (G 2%N r R).
  apply (f_equal (λ x, match x with Ok r => Some (cr_logical r) | Err _ => None end)) in R.
  assert (L' : cr_logical r = "app") by (cut (Some "app" = Some (cr_logical r)); [by intros [= <-]|rewrite <- R; by vm_compute]).
  rewrite L'. by vm_compute.
Defined.
