(* ===== verification/KernelDemo.v ===== *)
(** * A small deployment

    A provider [store], a consumer [app] that requires it and may call it, the
    operator's grant, and the states the kernel goes through as a call to [app]
    opens a child call to [store]. The concrete inputs of the witnesses. *)

From S2P Require Import Prelude RustStd Json Identity Contexts Resources Registry Bus Deps Calls.
From S2P Require Import Journal Manifest Prog KernelState KernelCalls KernelLifecycle KernelDispatch.
From S2P Require Import KernelActions KernelInv.

Definition store_json : Value :=
  JObject [("id", JString "store"); ("provides", JArray [JString "store.kv@1"]);
           ("reducer", JString "echo")].

Definition demo_limits : Value :=
  JObject [("max_depth", j_u64 2); ("max_children_per_parent", j_u64 2);
           ("max_calls_per_session", j_u64 4); ("max_calls_global", j_u64 8);
           ("max_seen_requests", j_u64 16); ("max_queued_bytes", j_u64 4096);
           ("max_deadline_ms", j_u64 1000)].

Definition app_json : Value :=
  JObject [("id", JString "app"); ("provides", JArray [JString "app.run@1"]);
           ("requires", JArray [JString "store.kv@1"]); ("reducer", JString "counter");
           ("outbound", JObject [("request", JArray [JString "store.kv@1"]);
                                 ("limits", demo_limits)])].

#[export] Instance demo_env : Env := {|
  env_spawn _ := None;
  env_forward _ := FwOk JNull;
  env_ts _ := "";
  env_wall_ms n := n;
  env_read p :=
    if bool_decide (p = "store.json") then Ok store_json
    else if bool_decide (p = "app.json") then Ok app_json
    else Err "no such file";
  env_dir := Some ["store.json"; "app.json"];
  env_in_dir _ := true;
  env_debug s := s;
  env_nesting := 3;
|}.

Definition demo_fresh : Kernel := kernel_new 7 (journal_open [] false) false.

(** [app] is loaded first and waits; [store] activates and then [app]. *)
Definition demo_loaded : Kernel := kernel_run [KLoad "app.json"; KLoad "store.json"] demo_fresh.

Definition demo_granted : Kernel := kernel_run [KGrant "app" "store.kv@1"] demo_loaded.

(** Ticket 1: a call to [app]. *)
Definition demo_called : Kernel := kernel_run [KOpen "app.run@1" JNull None []] demo_granted.

Definition demo_request : DepAdmit := mkDepAdmit 1 "bind-1" "app" 1 1 "s" 500.

(** Ticket 2: its child call to [store]. *)
Definition demo_child : Kernel := kernel_run [KAdmit demo_request] demo_called.

(** The child was cancelled. *)
Definition demo_child_ended : Kernel := kernel_run [KCancel 2 "operator"] demo_child.

(** The provider was disposed of; [app] waits again. *)
Definition demo_disposed : Kernel := kernel_run [KDisposePlugin "store"] demo_loaded.

(** Every state reached by methods from a fresh kernel satisfies the invariant. *)
Ltac demo_inv := repeat apply kernel_run_inv; apply kernel_inv_new.

Lemma run_result {A} (p : kprog A) k x : (run p k).1 = x → run p k = (x, (run p k).2).
Proof. intros <-. by destruct (run p k). Qed.
