(* ===== verification/KernelCallProps.v ===== *)
(** * Calls of the kernel, executed alone: admission, commits, dependency children

    What the methods of [KernelCalls] do when no other thread interferes: which
    activation a ticket is opened for, when an effect is confirmed, what a
    dependency child needs, and that a refusal leaves nothing behind. *)

From S2P Require Import Prelude RustStd Json Identity Contexts Resources Registry Bus Deps Calls.
From S2P Require Import Journal Manifest Prog KernelState KernelCalls KernelLifecycle KernelDispatch.
From S2P Require Import KernelActions KernelInv KernelDemo.

(** ** Executing one action *)

Lemma run_seq {A B} (p : kprog A) (f : A → kprog B) k :
  run (bind p f) k = run (f (run p k).1) (run p k).2.
Proof. rewrite run_bind. by destruct (run p k). Qed.

Lemma run_on_contexts {X} (f : ContextTable → X * ContextTable) k :
  run (on_contexts f) k = ((f (k_contexts k)).1, set_contexts (f (k_contexts k)).2 k).
Proof. unfold on_contexts. rewrite run_act. by destruct (f _). Qed.

Lemma run_on_resources {X} (f : ResourceTable → X * ResourceTable) k :
  run (on_resources f) k = ((f (k_resources k)).1, set_resources (f (k_resources k)).2 k).
Proof. unfold on_resources. rewrite run_act. by destruct (f _). Qed.

Lemma run_on_calls {X} (f : CallsTable → X * CallsTable) k :
  run (on_calls f) k = ((f (k_calls k)).1, set_calls (f (k_calls k)).2 k).
Proof. unfold on_calls. rewrite run_act. by destruct (f _). Qed.

Lemma run_on_caps {X} (f : gmap string Entry → X * gmap string Entry) k :
  run (on_caps f) k = ((f (k_caps k)).1, set_caps (f (k_caps k)).2 k).
Proof. unfold on_caps. rewrite run_act. by destruct (f _). Qed.

Lemma run_on_bus {X} (f : gmap string (list Subscription) → X * gmap string (list Subscription)) k :
  run (on_bus f) k = ((f (k_bus k)).1, set_bus (f (k_bus k)).2 k).
Proof. unfold on_bus. rewrite run_act. by destruct (f _). Qed.

Lemma run_on_plugins {X} (f : gmap string Plugin → X * gmap string Plugin) k :
  run (on_plugins f) k = ((f (k_plugins k)).1, set_plugins (f (k_plugins k)).2 k).
Proof. unfold on_plugins. rewrite run_act. by destruct (f _). Qed.

(** The journal after one entry. *)
Definition journalled `{Env} (f kd : string) (a : Value) (k : Kernel) : Kernel :=
  set_journal (append f kd a JNull (env_ts (k_now k)) true (k_journal k)).2 k.

Lemma run_journal `{Env} f kd a k :
  run (journal f kd a) k
  = ((append f kd a JNull (env_ts (k_now k)) true (k_journal k)).1, journalled f kd a k).
Proof. unfold journal, journalled. rewrite run_act. by destruct (append _ _ _ _ _ _ _). Qed.

Lemma run_alloc_ticket cap l i g c e p pins f k :
  run (alloc_ticket cap l i g c e p pins f) k
  = (next_ticket (k_calls k),
     set_calls (alloc cap l i g c e p pins f (k_now k) (k_calls k)).2 k).
Proof. done. Qed.

Lemma set_calls_twice c c' k : set_calls c (set_calls c' k) = set_calls c k.
Proof. done. Qed.

Ltac run_simpl :=
  repeat first
    [ rewrite run_seq | rewrite run_ret | rewrite run_read | rewrite run_on_contexts
    | rewrite run_on_resources | rewrite run_on_calls | rewrite run_on_caps | rewrite run_on_bus
    | rewrite run_on_plugins | rewrite run_journal | rewrite run_alloc_ticket | rewrite run_act | rewrite run_modify
    | progress cbn [fst snd] ].

Ltac run_simpl_in H :=
  repeat first
    [ rewrite run_seq in H | rewrite run_ret in H | rewrite run_read in H
    | rewrite run_on_contexts in H | rewrite run_on_resources in H | rewrite run_on_calls in H
    | rewrite run_on_caps in H | rewrite run_on_bus in H | rewrite run_on_plugins in H
    | rewrite run_journal in H | rewrite run_alloc_ticket in H | rewrite run_act in H | rewrite run_modify in H
    | progress cbn [fst snd] in H ].

Ltac reads_tac :=
  repeat match goal with
  | |- always eq (bind _ _) => apply always_bind; [|intros]
  | |- always eq (Ret _) => exact I
  | |- always eq (read _) => by apply always_read
  | |- always eq (for_fold _ _ _) => apply always_for_fold; intros
  | |- always eq (match ?x with _ => _ end) => destruct x
  end.

Ltac commutes_tac :=
  repeat match goal with
  | |- commutes _ (bind _ _) => apply commutes_bind; [|intros]
  | |- commutes _ (Ret _) => exact I
  | |- commutes _ (read _) => apply commutes_read; by intros []
  | |- commutes _ (for_fold _ _ _) => apply commutes_for_fold; intros
  | |- commutes _ (match ?x with _ => _ end) => destruct x
  end.

Section env.
Context {E : Env}.

(** ** Admission *)

(** What [admission_record] answers in a state. *)
Definition admission (cap : string) (k : Kernel) : result (string * ContextRecord) Value :=
  (run (admission_record cap) k).1.

(** The merged view of the activations in a state. *)
Definition merged (k : Kernel) : gmap string ContextRecord := (run current_all_merged k).1.

Lemma merged_reads : always eq current_all_merged.
Proof. unfold current_all_merged, remote_state, epoch. reads_tac. Qed.

Lemma admission_reads cap : always eq (admission_record cap).
Proof.
  unfold admission_record, admission_missing, admission_of_instance, bindings_stale, current_of.
  reads_tac; apply merged_reads.
Qed.

Lemma admission_run cap k : run (admission_record cap) k = (admission cap k, k).
Proof. apply reads_run, admission_reads. Qed.

Lemma merged_run k : run current_all_merged k = (merged k, k).
Proof. apply reads_run, merged_reads. Qed.

(** Admission does not look at the tickets or the journal. *)
Lemma merged_commutes c : commutes (set_calls c) current_all_merged.
Proof. unfold current_all_merged, remote_state, epoch. commutes_tac. Qed.

Lemma merged_commutes_journal j : commutes (set_journal j) current_all_merged.
Proof. unfold current_all_merged, remote_state, epoch. commutes_tac. Qed.

Lemma admission_calls cap c k : admission cap (set_calls c k) = admission cap k.
Proof.
  unfold admission. rewrite commutes_run; [done|].
  unfold admission_record, admission_missing, admission_of_instance, bindings_stale, current_of.
  commutes_tac; apply merged_commutes.
Qed.

Lemma admission_journal cap j k : admission cap (set_journal j k) = admission cap k.
Proof.
  unfold admission. rewrite commutes_run; [done|].
  unfold admission_record, admission_missing, admission_of_instance, bindings_stale, current_of.
  commutes_tac; apply merged_commutes_journal.
Qed.

(** An admitted call goes to an active, current activation, whose entry is active
    and whose bindings all designate active providers. *)
Record admissible (logical : string) (ctx : ContextRecord) (k : Kernel) : Prop := {
  ad_logical : logical = cr_logical ctx;
  ad_active : require_active (cr_instance ctx) (k_contexts k) = Ok ctx;
  ad_current : current logical (k_contexts k) = Some ctx;
  ad_plugin : ∃ p, k_plugins k !! logical = Some p ∧ canonical (pl_state p) = Active ∧
    ∀ b, b ∈ pl_bindings p → binding_live (merged k) b = true;
}.

Lemma require_active_instance i t r :
  ctx_wf t → require_active i t = Ok r → cr_instance r = i.
Proof. intros W (H & _ & _)%require_active_ok. by apply (wf_inst_key _ W) in H. Qed.

Lemma require_active_current i t r :
  ctx_wf t → require_active i t = Ok r → current (cr_logical r) t = Some r.
Proof.
  intros W (H & _ & [C|C])%require_active_ok.
  - unfold current. rewrite C. done.
  - destruct (wf_has_current _ W _ _ H). congruence.
Qed.

Lemma admission_of_instance_ok i k l ctx :
  ctx_wf (k_contexts k) →
  (run (admission_of_instance i) k).1 = Ok (l, ctx) → admissible l ctx k ∧ cr_instance ctx = i.
Proof.
  intros W. unfold admission_of_instance, bindings_stale, current_of. run_simpl.
  destruct (require_active i (k_contexts k)) as [r|e] eqn:Hr; cbn;
    [|destruct e; rewrite run_ret; done].
  pose proof (require_active_instance _ _ _ W Hr) as Hi.
  run_simpl. destruct (is_some_and _ (current _ _)) eqn:Hc; rewrite ?run_ret; [done|].
  run_simpl. rewrite merged_run. run_simpl.
  destruct (is_some_and _ (k_plugins k !! cr_logical r)) eqn:Hp; cbn; [|by rewrite run_ret].
  run_simpl. destruct (negb _) eqn:Hs; rewrite run_ret; cbn; [done|].
  intros [= <- <-]. split; [|done].
  split; [done|by rewrite Hi|by eapply require_active_current|].
  destruct (k_plugins k !! cr_logical r) as [p|]; [|done]. exists p. cbn in *.
  apply bool_decide_eq_true in Hp. split_and!; [done..|]. intros b Hb.
  apply negb_false_iff in Hs. rewrite forallb_forall in Hs. apply Hs. by apply list_elem_of_In.
Qed.

Lemma admission_ok cap k l ctx :
  ctx_wf (k_contexts k) → admission cap k = Ok (l, ctx) → admissible l ctx k.
Proof.
  intros W. unfold admission, admission_record, current_of. run_simpl.
  destruct (resolve_ref cap (k_caps k)) as [r|].
  - destruct (ref_instance r =? 0)%N.
    + run_simpl. destruct (current (ref_logical r) (k_contexts k)); [|by rewrite run_ret].
      intros H. by apply admission_of_instance_ok in H as [? _].
    + intros H. by apply admission_of_instance_ok in H as [? _].
  - run_simpl. by destruct (run (admission_missing cap) k).
Qed.

(** ** Opening a call *)

Lemma check_pins_run pins ctx k :
  ∃ v, run (check_pins pins ctx) k = (v, k) ∧
    (v = Ok tt → ∀ h, h ∈ pins →
       ∃ r, res_validate h (cr_instance ctx) (cr_generation ctx) (k_resources k) = Ok r).
Proof.
  induction pins as [|h pins IH]; cbn [check_pins].
  - exists (Ok tt). split; [done|]. intros _ h Hh. by apply not_elem_of_nil in Hh.
  - run_simpl. destruct (res_validate h _ _ _) as [r|e] eqn:Hv.
    + destruct IH as (v & Hrun & Hok). exists v. split; [done|].
      intros Hv' h' [->|Hh']%elem_of_cons; eauto.
    + eexists. rewrite run_ret. split; [done|]. discriminate.
Qed.

Lemma policy_for_run l c k :
  run (policy_for l c) k
  = (default policy_default (and_then (k_plugins k !! l) (λ p, pl_calls p !! c)), k).
Proof. done. Qed.

(** The policy of a call: the override, or the manifest's. *)
Definition policy_of (pol : option CallPolicy) (l c : string) (k : Kernel) : CallPolicy :=
  default (default policy_default (and_then (k_plugins k !! l) (λ p, pl_calls p !! c))) pol.

(** The call table with a fresh ticket for [ctx] and its fresh cancel cell. *)
Definition opened (cap l : string) (ctx : ContextRecord) (pol : CallPolicy) (pins : list N)
    (k : Kernel) : CallsTable :=
  (alloc cap l (cr_instance ctx) (cr_generation ctx) (cr_context ctx) (cr_epoch ctx) pol pins
     (next_flag (k_calls k)) (k_now k) (new_flag (k_calls k)).2).2.

Lemma call_open_run rc cap input pol pins k :
  run (call_open rc cap input pol pins) k =
    if MAX_INFLIGHT_CALLS <=? inflight_count (k_calls k) then (Err too_many_inflight, k)
    else
      match admission cap k with
      | Err e => (Err e, k)
      | Ok (l, ctx) =>
          match (run (check_pins pins ctx) k).1 with
          | Err e => (Err e, k)
          | Ok _ =>
              let p := policy_of pol l cap k in
              let id := next_ticket (k_calls k) in
              let c := opened cap l ctx p pins k in
              (Ok (mkOpenCall id cap l (cr_instance ctx) (cr_generation ctx) (cr_context ctx) p
                     (next_flag (k_calls k))),
               journalled l "call.open"
                 (obj [("ticket", j_u64 id); ("cap", JString cap); ("input", input);
                       ("instance", j_u64 (cr_instance ctx));
                       ("generation", j_u64 (cr_generation ctx));
                       ("policy", JString (policy_as_str (on_withdraw p)));
                       ("drain_ms", j_u64 (drain_ms p))]) (set_calls c k))
          end
      end.
Proof.
  unfold call_open. run_simpl. destruct (_ <=? _); [done|]. run_simpl. rewrite admission_run.
  destruct (admission cap k) as [[l ctx]|e] eqn:Ha; [|done]. run_simpl.
  destruct (check_pins_run pins ctx k) as (v & -> & _). cbn [fst].
  destruct v; [|done]. run_simpl.
  replace (run (match pol with Some p => Ret p | None => policy_for l cap end) k)
    with (policy_of pol l cap k, k) by (by destruct pol).
  unfold alloc_call. run_simpl. rewrite admission_run. run_simpl.
  unfold journalled at 1 2. rewrite admission_journal, !admission_calls, Ha. run_simpl.
  rewrite !N.eqb_refl. done.
Qed.

(** Only the call table and the journal differ. *)
Definition only_calls (k k' : Kernel) : Prop :=
  k' = set_journal (k_journal k') (set_calls (k_calls k') k).

Lemma only_calls_intro c f kd a k : only_calls k (journalled f kd a (set_calls c k)).
Proof. done. Qed.

Lemma calls_core_fresh c : calls_core c → tickets c !! next_ticket c = None.
Proof.
  intros [I _]. destruct (tickets c !! next_ticket c) eqn:H; [|done]. apply I in H as [_ ?]. lia.
Qed.

(** C23: opening a call admits it to the right activation. When [call_open] returns
    a ticket, the capability resolved to an activation that is active, is the
    current one of its logical id, whose entry is active and whose dependency
    bindings all designate active providers; fewer than [MAX_INFLIGHT_CALLS] calls
    were in flight; every pin is an active resource of that activation. The ticket
    is new, admitted, bound to exactly that activation, with the requested or
    declared policy and an unset cancel flag; all other tickets, the effects and
    the rest of the kernel are untouched. *)
Theorem call_open_admits (rc : kprog unit) (cap : string) (input : Value)
    (pol : option CallPolicy) (pins : list N) (k k' : Kernel) (oc : OpenCall) :
  kernel_inv k →
  run (call_open rc cap input pol pins) k = (Ok oc, k') →
  ∃ ctx t,
    admissible (oc_logical oc) ctx k ∧
    oc_instance oc = cr_instance ctx ∧ oc_generation oc = cr_generation ctx ∧
    inflight_count (k_calls k) < MAX_INFLIGHT_CALLS ∧
    (∀ h, h ∈ pins → ∃ r,
       res_validate h (cr_instance ctx) (cr_generation ctx) (k_resources k) = Ok r) ∧
    get_ticket (oc_ticket oc) (k_calls k) = None ∧
    get_ticket (oc_ticket oc) (k_calls k') = Some t ∧
    tk_state t = TkAdmitted ∧ tk_cap t = cap ∧ tk_logical t = oc_logical oc ∧
    tk_instance t = cr_instance ctx ∧ tk_generation t = cr_generation ctx ∧
    tk_context t = cr_context ctx ∧ tk_pins t = pins ∧ tk_dep t = None ∧
    tk_policy t = policy_of pol (oc_logical oc) cap k ∧
    flag_value (tk_cancel t) (k_calls k') = false ∧
    (∀ id, id ≠ oc_ticket oc → get_ticket id (k_calls k') = get_ticket id (k_calls k)) ∧
    effects (k_calls k') = effects (k_calls k) ∧ only_calls k k'.
Proof.
  intros I. rewrite call_open_run. destruct (_ <=? _) eqn:L; [done|].
  apply Nat.leb_gt in L. destruct (admission cap k) as [[l ctx]|e] eqn:Ha; [|done].
  apply (admission_ok _ _ _ _ (ki_ctx _ I)) in Ha.
  destruct (check_pins_run pins ctx k) as (v & -> & Hv). cbn [fst].
  destruct v as [[]|]; [|done]. intros [= <- <-].
  pose proof (calls_core_fresh _ (ki_calls _ I)) as Hf.
  exists ctx, (mkTicketRecord (next_ticket (k_calls k)) cap l (cr_instance ctx)
    (cr_generation ctx) (cr_context ctx) (cr_epoch ctx) (policy_of pol l cap k) TkAdmitted
    (next_flag (k_calls k)) pins (k_now k) None None None).
  cbn. split_and!; try done; auto.
  - apply lookup_insert_eq.
  - unfold flag_value. cbn. by rewrite lookup_insert_eq.
  - intros id N. apply lookup_insert_ne. done.
Qed.

(** a refused call leaves no trace. When [call_open] returns an error, the
    kernel is unchanged, to the last journal entry, and the error is one of
    three: too many calls in flight, the capability not admissible, or a pin
    that is not an active resource of the activation. *)
Theorem call_open_refuses (rc : kprog unit) (cap : string) (input : Value)
    (pol : option CallPolicy) (pins : list N) (k k' : Kernel) (e : Value) :
  run (call_open rc cap input pol pins) k = (Err e, k') →
  k' = k ∧
  (e = too_many_inflight ∧ MAX_INFLIGHT_CALLS ≤ inflight_count (k_calls k) ∨
   admission cap k = Err e ∨
   ∃ l ctx, admission cap k = Ok (l, ctx) ∧ (run (check_pins pins ctx) k).1 = Err e).
Proof.
  rewrite call_open_run. destruct (_ <=? _) eqn:L.
  - apply Nat.leb_le in L. intros [= <- <-]. auto.
  - destruct (admission cap k) as [[l ctx]|e'] eqn:Ha; [|intros [= <- <-]; auto].
    destruct (run (check_pins pins ctx) k).1 eqn:Hp; [done|]. intros [= <- <-].
    split; [done|]. right; right. eauto.
Qed.

(** ** Mediated commits *)

(** The chain of a dependency child still holds: deadline, parent, consumer and
    grant. *)
Definition chain_holds (t : TicketRecord) (k : Kernel) : Prop :=
  match tk_dep t with
  | None => True
  | Some d =>
      (∀ u, tk_drain_until t = Some u → (k_now k < u)%N) ∧
      (∃ p, get_ticket (dc_parent d) (k_calls k) = Some p ∧ tk_state p = TkAdmitted) ∧
      (∃ c cur, get_by_instance (dc_consumer d) (k_contexts k) = Some c ∧
         canonical (cr_state c) = Active ∧
         current (cr_logical c) (k_contexts k) = Some cur ∧ cr_instance cur = dc_consumer d) ∧
      k_outbound_grants k !! (dc_grant_consumer d, dc_grant_cap d) = Some (dc_grant_rev d)
  end.

(** The registration a remote leg was admitted for is still there. *)
Definition remote_holds (t : TicketRecord) (k : Kernel) : Prop :=
  ∃ r d, k_remote_providers k !! tk_logical t = Some r ∧ rp_instance r = tk_instance t ∧
    rp_generation r = tk_generation t ∧ k_definitions k !! tk_logical t = Some d ∧
    sm_remote d = true.

(** The activation that owns a local ticket still is the current one and is active,
    or is draining this ticket within its deadline. *)
Definition owner_holds (t : TicketRecord) (k : Kernel) : Prop :=
  tk_epoch t = ct_epoch (k_contexts k) ∧
  ∃ o, get_by_instance (tk_instance t) (k_contexts k) = Some o ∧
    cr_logical o = tk_logical t ∧ cr_generation o = tk_generation t ∧
    (∀ c, current (tk_logical t) (k_contexts k) = Some c → cr_instance c = tk_instance t) ∧
    (canonical (cr_state o) = Active ∨
     canonical (cr_state o) = Quiescing ∧ on_withdraw (tk_policy t) = PolicyDrain ∧
     ∃ u, tk_drain_until t = Some u ∧ (k_now k ≤ u)%N).

Record committable (t : TicketRecord) (k : Kernel) : Prop := {
  cm_state : tk_state t = TkAdmitted;
  cm_chain : chain_holds t k;
  cm_owner : match and_then (tk_dep t) dc_remote_peer with
             | Some _ => remote_holds t k
             | None => owner_holds t k
             end;
}.

Lemma chain_rejected_run t kd r e c k :
  ∃ v j, run (chain_rejected t kd r e c) k = (Err v, set_journal j k).
Proof. unfold chain_rejected. run_simpl. eexists _, _. reflexivity. Qed.

Ltac chain_no H :=
  exfalso; revert H; unfold chain_rejected; run_simpl; discriminate.

Lemma dep_chain_ok t kd k k' :
  run (dep_chain_check t kd) k = (Ok tt, k') → k' = k ∧ chain_holds t k.
Proof.
  unfold dep_chain_check, chain_holds. destruct (tk_dep t) as [d|]; [|by intros [= <-]].
  run_simpl. destruct (is_some_and _ (tk_drain_until t)) eqn:Hd; [intros H; chain_no H|].
  run_simpl. destruct (get_ticket (dc_parent d) (k_calls k)) as [p|] eqn:Hp;
    [|intros H; chain_no H].
  cbn [is_some_and]. destruct (is_open p) eqn:Ho; [|intros H; chain_no H]. cbn [negb].
  run_simpl. destruct (get_by_instance (dc_consumer d) (k_contexts k)) as [c|] eqn:Hc; cycle 1.
  { run_simpl. cbn [negb]. intros H; chain_no H. }
  destruct (ctx_active c) eqn:Ha; cycle 1.
  { run_simpl. cbn [negb]. intros H; chain_no H. }
  unfold current_of, grant_of. run_simpl.
  destruct (current (cr_logical c) (k_contexts k)) as [cur|] eqn:Hcur; cycle 1.
  { cbn [is_some_and negb]. intros H; chain_no H. }
  cbn [is_some_and]. destruct (cr_instance cur =? dc_consumer d)%N eqn:Hi; cycle 1.
  { cbn [negb]. intros H; chain_no H. }
  cbn [negb]. run_simpl. case_bool_decide as Hg; cycle 1.
  { cbn [negb]. intros H; chain_no H. }
  cbn [negb]. rewrite run_ret. intros [= <-]. split; [done|].
  apply N.eqb_eq in Hi. apply is_open_spec in Ho. apply bool_decide_eq_true in Ha.
  split_and!; [|by eauto|by exists c, cur|done].
  intros u Hu. rewrite Hu in Hd. cbn in Hd. apply N.leb_gt in Hd. done.
Qed.

Lemma commit_remote_ok t kd k k' :
  run (commit_remote_check t kd) k = (Ok tt, k') → k' = k ∧ remote_holds t k.
Proof.
  unfold commit_remote_check, definition_is_remote. run_simpl.
  destruct (k_remote_providers k !! tk_logical t) as [r|] eqn:Hr; cbn [is_some_and]; cycle 1.
  { run_simpl. cbn [negb]. run_simpl. discriminate. }
  destruct (_ && _) eqn:Hi; run_simpl; cycle 1.
  { cbn [negb]. run_simpl. discriminate. }
  destruct (k_definitions k !! tk_logical t) as [d|] eqn:Hd; cbn [is_some_and]; cycle 1.
  { cbn [negb]. run_simpl. discriminate. }
  destruct (sm_remote d) eqn:Hm; cbn [negb]; run_simpl; [|discriminate].
  intros [= <-]. split; [done|]. apply andb_true_iff in Hi as [H1%N.eqb_eq H2%N.eqb_eq].
  by exists r, d.
Qed.

Lemma commit_owner_ok t kd k k' :
  run (commit_owner_check t kd) k = (Ok tt, k') → k' = k ∧ owner_holds t k.
Proof.
  unfold commit_owner_check, owner_holds, epoch, current_of, stale_commit. run_simpl.
  destruct (tk_epoch t =? _)%N eqn:He; cbn [negb]; [|run_simpl; discriminate]. run_simpl.
  destruct (get_by_instance _ _) as [o|] eqn:Ho; [|run_simpl; discriminate].
  case_bool_decide as Hl; cbn [negb orb]; [|run_simpl; discriminate].
  destruct (cr_generation o =? _)%N eqn:Hg; cbn [negb]; [|run_simpl; discriminate].
  run_simpl. destruct (is_some_and _ (current _ _)) eqn:Hc; [run_simpl; discriminate|].
  apply N.eqb_eq in He, Hg. intros H.
  assert (S : k' = k ∧ (canonical (cr_state o) = Active ∨
    canonical (cr_state o) = Quiescing ∧ on_withdraw (tk_policy t) = PolicyDrain ∧
    ∃ u, tk_drain_until t = Some u ∧ (k_now k ≤ u)%N)).
  { revert H. destruct (canonical (cr_state o)); run_simpl; try discriminate;
      [by intros [= <-]; auto|].
    case_bool_decide as Hp; cbn [andb negb]; [|intros H; chain_no H].
    destruct (tk_drain_until t) as [u|]; cbn [is_some_and negb]; [|intros H; chain_no H].
    destruct (k_now k <=? u)%N eqn:Hu; cbn [negb]; [|intros H; chain_no H].
    rewrite run_ret. intros [= <-]. apply N.leb_le in Hu. split; [done|]. right. eauto. }
  destruct S as [-> S]. split; [done|]. split; [done|]. exists o. split_and!; try done.
  intros c Hcur. rewrite Hcur in Hc. cbn in Hc. by apply negb_false_iff, N.eqb_eq in Hc.
Qed.

Lemma commit_check_ok t kd k u k' :
  run (commit_check t kd) k = (Ok u, k') → k' = k ∧ committable t k.
Proof.
  destruct u. unfold commit_check. run_simpl.
  destruct (run (commit_state_check t kd) k) as [[[]|e] k1] eqn:H1; cbn [fst snd];
    [|by rewrite run_ret].
  assert (k1 = k ∧ tk_state t = TkAdmitted) as [-> A].
  { revert H1. unfold commit_state_check. destruct (tk_state t); run_simpl; try discriminate.
    by intros [= <-]. }
  run_simpl. destruct (run (dep_chain_check t kd) k) as [[[]|e] k2] eqn:H2; cbn [fst snd];
    [|by rewrite run_ret].
  apply dep_chain_ok in H2 as [-> C]. intros H3.
  destruct (and_then (tk_dep t) dc_remote_peer) eqn:Hp; cbn [is_some] in H3.
  - apply commit_remote_ok in H3 as [-> R]. split; [done|]. split; [done..|]. by rewrite Hp.
  - apply commit_owner_ok in H3 as [-> R]. split; [done|]. split; [done..|]. by rewrite Hp.
Qed.

(** No effect is confirmed and no ticket becomes committed. *)
Definition no_commit (k k' : Kernel) : Prop :=
  effects (k_calls k') = effects (k_calls k) ∧
  ∀ id r, tickets (k_calls k') !! id = Some r → tk_state r = TkCommitted →
    tickets (k_calls k) !! id = Some r.

#[local] Instance no_commit_refl : Reflexive no_commit.
Proof. by split. Qed.

#[local] Instance no_commit_trans : Transitive no_commit.
Proof. intros k1 k2 k3 [E1 H1] [E2 H2]. split; [congruence|]. eauto. Qed.

Lemma journal_no_commit f kd a : always no_commit (journal f kd a).
Proof. by apply always_one. Qed.

Lemma expire_no_commit id : always no_commit (on_calls (Calls.set_state id TkExpired)).
Proof.
  apply always_one. intros k. unfold Calls.set_state.
  destruct (tickets (k_calls k) !! id) as [r|]; [|done]. split; [done|]. cbn.
  intros id' r' [[_ <-]|[_ H]]%lookup_insert_Some; done.
Qed.

Lemma commit_check_no_commit t kd : always no_commit (commit_check t kd).
Proof.
  unfold commit_check, commit_state_check, dep_chain_check, commit_remote_check,
    commit_owner_check, chain_rejected, current_of, grant_of, epoch, definition_is_remote.
  repeat match goal with
  | |- always _ (journal _ _ _) => apply journal_no_commit
  | |- always _ (on_calls _) => apply expire_no_commit
  | |- always _ (read _) => apply always_read, _
  | _ => always_step
  end.
Qed.

Definition already_committed (id : N) : Value :=
  obj [("error", JString "already committed"); ("code", JString "already-committed");
       ("ticket", j_u64 id)].

Lemma commit_run_ok id kd p k seq k' :
  run (commit_effect id kd p) k = (Ok seq, k') →
  ∃ t, get_ticket id (k_calls k) = Some t ∧ committable t k ∧
    seq = next_effect (k_calls k) ∧
    k_calls k' = (Calls.set_state id TkCommitted
      (push_effect id (tk_logical t) (tk_instance t) (tk_generation t) kd p
         (env_wall_ms (k_now k)) (k_calls k)).2).2 ∧
    only_calls k k'.
Proof.
  unfold commit_effect. run_simpl. destruct (get_ticket id (k_calls k)) as [t|] eqn:Ht;
    [|by rewrite run_ret].
  run_simpl. destruct (run (commit_check t kd) k) as [[u|e] k1] eqn:Hc; cbn [fst snd];
    [|by rewrite run_ret].
  apply commit_check_ok in Hc as [-> C]. run_simpl. unfold push_effect. cbn [fst snd].
  intros [= <- <-]. by exists t.
Qed.

(** an effect is confirmed only with authority. When [commit_effect] succeeds,
    the ticket existed and was admitted; a dependency child was within its
    deadline, its parent still admitted, its consumer still the active current
    activation, its grant still at the captured revision; a local ticket's owner
    was of this boot, the very activation the ticket was issued for, still the
    current one, and active or draining this ticket within its deadline; a remote
    leg's registration was unchanged. *)
Theorem commit_needs_authority (id : N) (kd : string) (p : Value) (k k' : Kernel) (seq : N) :
  run (commit_effect id kd p) k = (Ok seq, k') →
  ∃ t, get_ticket id (k_calls k) = Some t ∧ tk_state t = TkAdmitted ∧ chain_holds t k ∧
    match and_then (tk_dep t) dc_remote_peer with
    | Some _ => remote_holds t k
    | None => owner_holds t k
    end.
Proof. intros (t & Ht & [S C O] & _)%commit_run_ok. eauto. Qed.

(** an effect is confirmed exactly once. When [commit_effect] succeeds, the
    ring gains one effect, the ticket's, with the next sequence number; the ticket
    is committed and nothing else changes; every later commit of the ticket is
    refused as already committed, and changes nothing. *)
Theorem commit_exactly_once (id : N) (kd : string) (p : Value) (k k' : Kernel) (seq : N) :
  kernel_inv k →
  run (commit_effect id kd p) k = (Ok seq, k') →
  (∃ t e, get_ticket id (k_calls k) = Some t ∧
     e = mkCommittedEffect (next_effect (k_calls k)) id (tk_logical t) (tk_instance t)
           (tk_generation t) kd p (env_wall_ms (k_now k)) ∧
     seq = ef_seq e ∧
     effects (k_calls k') =
       drop (S (effects_len (k_calls k)) - MAX_EFFECTS) (effects (k_calls k) ++ [e]) ∧
     tickets (k_calls k') = <[id := tk_set_state TkCommitted t]> (tickets (k_calls k)) ∧
     only_calls k k') ∧
  ∀ kd' p', run (commit_effect id kd' p') k' = (Err (already_committed id), k').
Proof.
  intros I (t & Ht & _ & -> & Hk & O)%commit_run_ok.
  pose proof (cc_id _ (ki_calls _ I) _ _ Ht) as [Hid _]. unfold get_ticket in Ht.
  unfold Calls.set_state, push_effect in Hk. cbn in Hk. rewrite Ht in Hk. cbn in Hk. split.
  - eexists t, _. unfold get_ticket, effects_len. rewrite Hk. cbn.
    rewrite length_app, Nat.add_1_r. done.
  - intros kd' p'. unfold commit_effect. run_simpl. unfold get_ticket. rewrite Hk. cbn.
    rewrite lookup_insert_eq. unfold commit_check, commit_state_check. cbn. run_simpl.
    unfold already_committed. rewrite Hid. done.
Qed.

(** a refused commit confirms nothing. When [commit_effect] fails, the effects
    are unchanged and no ticket has become committed. *)
Theorem commit_refused_no_effect (id : N) (kd : string) (p : Value) (k k' : Kernel) (e : Value) :
  run (commit_effect id kd p) k = (Err e, k') →
  effects (k_calls k') = effects (k_calls k) ∧
  ∀ id' r, get_ticket id' (k_calls k') = Some r → tk_state r = TkCommitted →
    get_ticket id' (k_calls k) = Some r.
Proof.
  unfold commit_effect. run_simpl. destruct (get_ticket id (k_calls k)) as [t|] eqn:Ht;
    [|rewrite run_ret; by intros [= _ <-]].
  run_simpl. pose proof (always_run no_commit (commit_check t kd) k _ _
    (commit_check_no_commit t kd)) as N.
  destruct (run (commit_check t kd) k) as [[u|e'] k1] eqn:Hc; cbn [fst snd]; run_simpl;
    [discriminate|].
  intros [= _ <-]. exact N.
Qed.
End env.

(** ** Witnesses *)

Lemma call_open_admits_witness :
  ∃ t, get_ticket 1 (k_calls (run (call_open reconcile "app.run@1" JNull None []) demo_granted).2)
       = Some t ∧ tk_state t = TkAdmitted ∧ tk_logical t = "app".
Proof.
  set (k' := (run (call_open reconcile "app.run@1" JNull None []) demo_granted).2).
  destruct (call_open_admits reconcile "app.run@1" JNull None [] demo_granted k'
    (mkOpenCall 1 "app.run@1" "app" 1 1 1 policy_default 0))
    as (ctx & t & _ & _ & _ & _ & _ & _ & Ht & Hs & _ & Hl & _).
  - demo_inv.
  - unfold k'. apply run_result. vm_compute. reflexivity.
  - exists t. split; [exact Ht|]. split; [exact Hs|exact Hl].
Defined.

Lemma call_open_refuses_witness :
  (run (call_open reconcile "app.run@1" JNull None []) demo_fresh).2 = demo_fresh.
Proof.
  eapply (call_open_refuses reconcile "app.run@1" JNull None []).
  apply run_result. vm_compute. reflexivity.
Defined.

Lemma commit_needs_authority_witness :
  ∃ t, get_ticket 2 (k_calls demo_child) = Some t ∧ chain_holds t demo_child.
Proof.
  set (k' := (run (commit_effect 2 "put" JNull) demo_child).2).
  destruct (commit_needs_authority 2 "put" JNull demo_child k' 1) as (t & Ht & _ & C & _).
  - unfold k'. apply run_result. vm_compute. reflexivity.
  - exists t. split; [exact Ht|exact C].
Defined.

Lemma commit_exactly_once_witness :
  let k := (run (commit_effect 2 "put" JNull) demo_child).2 in
  run (commit_effect 2 "put" JNull) k = (Err (already_committed 2), k).
Proof.
  intros k. eapply (commit_exactly_once 2 "put" JNull demo_child k 1).
  - demo_inv.
  - unfold k. apply run_result. vm_compute. reflexivity.
Defined.

Lemma commit_refused_no_effect_witness :
  effects (k_calls (run (commit_effect 9 "put" JNull) demo_child).2) = effects (k_calls demo_child).
Proof.
  eapply (commit_refused_no_effect 9 "put" JNull demo_child).
  apply run_result. vm_compute. reflexivity.
Defined.
