(* ===== verification/KernelDepProps.v ===== *)
(** * Dependency children, executed alone: admission, quotas, grants

    What [dependency_admit] requires before it issues a child ticket, what the
    child is bound to, that a denial leaves nothing behind, and that revoking a
    grant stops the children that hold it. *)

From S2P Require Import Prelude RustStd Json Identity Contexts Resources Registry Bus Deps Calls.
From S2P Require Import Journal Manifest Prog KernelState KernelCalls KernelLifecycle KernelDispatch.
From S2P Require Import KernelActions KernelInv KernelDemo KernelCallProps.

Section env.
Context {E : Env}.

(** ** The conditions of an admission *)

(** The caller executes the parent, an admitted ticket. *)
Definition parent_holds (req : DepAdmit) (p : TicketRecord) (k : Kernel) : Prop :=
  get_ticket (da_parent req) (k_calls k) = Some p ∧ tk_state p = TkAdmitted ∧
  tk_logical p = da_caller_logical req ∧ tk_instance p = da_caller_instance req ∧
  tk_generation p = da_caller_generation req.

(** The opaque binding was issued to the caller. *)
Definition binding_holds (req : DepAdmit) (b : DepBinding) (k : Kernel) : Prop :=
  k_dep_bindings k !! da_binding req = Some b ∧ db_consumer_logical b = da_caller_logical req ∧
  db_consumer_instance b = da_caller_instance req ∧
  db_consumer_generation b = da_caller_generation req.

(** The caller is the active current activation of its logical id. *)
Definition consumer_holds (req : DepAdmit) (c : ContextRecord) (k : Kernel) : Prop :=
  current (da_caller_logical req) (k_contexts k) = Some c ∧
  cr_instance c = da_caller_instance req ∧ cr_generation c = da_caller_generation req ∧
  canonical (cr_state c) = Active.

(** The provider is the activation the binding was issued for: a local one, active
    and current, or, where there is none, the attested remote one. *)
Definition provider_holds (b : DepBinding) (peer : option string) (k : Kernel) : Prop :=
  match peer with
  | None => ∃ p, current (db_provider_logical b) (k_contexts k) = Some p ∧
      cr_instance p = db_provider_instance b ∧ cr_generation p = db_provider_generation b ∧
      canonical (cr_state p) = Active
  | Some peer => current (db_provider_logical b) (k_contexts k) = None ∧
      ∃ r d, k_remote_providers k !! db_provider_logical b = Some r ∧ rp_peer r = peer ∧
        rp_instance r = db_provider_instance b ∧ rp_generation r = db_provider_generation b ∧
        k_definitions k !! db_provider_logical b = Some d ∧ sm_remote d = true
  end.

Lemma admit_parent_run req k :
  ∃ v, run (admit_parent req) k = (v, k) ∧ ∀ p, v = Ok p → parent_holds req p k.
Proof.
  unfold admit_parent, parent_holds. run_simpl.
  destruct (get_ticket (da_parent req) (k_calls k)) as [p|]; [|by eexists].
  destruct (is_open p) eqn:Ho; cbn [negb]; [|by eexists].
  destruct (_ || _) eqn:Hc; [by eexists|]. exists (Ok p). split; [done|]. intros ? [= <-].
  apply orb_false_iff in Hc as [[H1 H2]%orb_false_iff H3].
  apply negb_false_iff in H1, H2, H3. apply bool_decide_eq_true in H1. apply N.eqb_eq in H2, H3.
  apply is_open_spec in Ho. done.
Qed.

Lemma admit_binding_run req k :
  ∃ v, run (admit_binding req) k = (v, k) ∧ ∀ b, v = Ok b → binding_holds req b k.
Proof.
  unfold admit_binding, binding_holds. run_simpl.
  destruct (k_dep_bindings k !! da_binding req) as [b|]; [|by eexists].
  destruct (_ || _) eqn:Hc; [by eexists|]. exists (Ok b). split; [done|]. intros ? [= <-].
  apply orb_false_iff in Hc as [[H1 H2]%orb_false_iff H3].
  apply negb_false_iff in H1, H2, H3. apply bool_decide_eq_true in H1. apply N.eqb_eq in H2, H3.
  done.
Qed.

Lemma admit_consumer_run req k :
  ∃ v, run (admit_consumer req) k = (v, k) ∧ ∀ c, v = Ok c → consumer_holds req c k.
Proof.
  unfold admit_consumer, consumer_holds, current_of. run_simpl.
  destruct (current _ _) as [c|]; [|by eexists].
  destruct (_ || _) eqn:Hc; [by eexists|].
  destruct (cr_generation c =? _)%N eqn:Hg; cbn [negb]; [|by eexists].
  exists (Ok c). split; [done|]. intros ? [= <-]. apply orb_false_iff in Hc as [H1 H2].
  apply negb_false_iff in H1, H2. apply bool_decide_eq_true in H2. apply N.eqb_eq in H1, Hg. done.
Qed.

Lemma admit_provider_run b c k :
  ∃ v, run (admit_provider b c) k = (v, k) ∧
    ∀ ctx peer, v = Ok (ctx, peer) → provider_holds b peer k.
Proof.
  unfold admit_provider, provider_holds, current_of, definition_is_remote. run_simpl.
  destruct (current _ _) as [p|] eqn:Hp.
  - destruct (_ || _) eqn:Hc; [by eexists|]. exists (Ok (cr_context p, None)). split; [done|].
    intros ? ? [= <- <-]. apply orb_false_iff in Hc as [[H1 H2]%orb_false_iff H3].
    apply negb_false_iff in H1, H2, H3. apply bool_decide_eq_true in H3.
    apply N.eqb_eq in H1, H2. eauto.
  - run_simpl. destruct (k_remote_providers k !! _) as [r|]; [|by eexists].
    destruct (_ || _) eqn:Hc; [by eexists|]. run_simpl.
    destruct (k_definitions k !! _) as [d|]; [|by eexists]. cbn [is_some_and].
    destruct (sm_remote d) eqn:Hd; cbn [negb]; [|by eexists].
    eexists. split; [done|]. intros ? ? [= <- <-].
    apply orb_false_iff in Hc as [H1 H2]. apply negb_false_iff in H1, H2.
    apply N.eqb_eq in H1, H2. split; [done|]. by exists r, d.
Qed.

(** ** The child ticket *)

(** The ticket issued to a child, and the call table that holds it. *)
Definition child_ticket (req : DepAdmit) (b : DepBinding) (deadline : Instant) (ctx : ContextId)
    (peer : option string) (rev depth : N) (k : Kernel) : TicketRecord :=
  mkTicketRecord (next_ticket (k_calls k)) (db_capability b) (db_provider_logical b)
    (db_provider_instance b) (db_provider_generation b) ctx (ct_epoch (k_contexts k))
    policy_default TkAdmitted (next_flag (k_calls k)) [] (k_now k) (Some deadline) None
    (Some (mkDepChild (da_parent req) (db_id b) (da_caller_instance req) (da_session req)
             (da_caller_logical req) (db_capability b) rev depth peer)).

Definition with_child (t : TicketRecord) (c : CallsTable) : CallsTable :=
  mkCallsTable (next_ticket c + 1) (next_effect c) (<[next_ticket c := t]> (tickets c)) (effects c)
    (cleanup_claims c) (next_flag c + 1) (<[next_flag c := false]> (flags c)).

Lemma register_child cap l i g ctx e now dl meta c :
  let id := next_ticket c in
  let c1 := (alloc cap l i g ctx e policy_default [] (next_flag c) now (new_flag c).2).2 in
  set_dep_meta id meta (set_drain_until id dl c1).2
  = (true, with_child (mkTicketRecord id cap l i g ctx e policy_default TkAdmitted (next_flag c) []
                         now (Some dl) None (Some meta)) c).
Proof.
  unfold set_drain_until, set_dep_meta, alloc, new_flag. cbn. rewrite lookup_insert_eq. cbn.
  change (is_open _) with true. cbn.
  rewrite lookup_insert_eq. cbn. unfold with_tickets, with_child, tk_with. cbn.
  by rewrite !insert_insert_eq.
Qed.

(** Executed alone, the revalidation finds what the checks found. *)
Lemma still_valid_run req b peer rev p c k t :
  calls_core (k_calls k) → parent_holds req p k → consumer_holds req c k →
  provider_holds b peer k →
  k_outbound_grants k !! (da_caller_logical req, db_capability b) = Some rev →
  run (child_still_valid req b peer rev) (set_calls (with_child t (k_calls k)) k)
  = (true, set_calls (with_child t (k_calls k)) k).
Proof.
  intros CC (Hp & Ho & _) (Hc & Hi & _ & Ha) HP Hg. set (k' := set_calls _ _).
  assert (Hlive : run (provider_live b peer) k' = (true, k')).
  { unfold provider_live, current_of, definition_is_remote. destruct peer as [peer|].
    - destruct HP as (_ & r & d & Hr & _ & H1 & H2 & Hd & Hm). run_simpl. cbn. rewrite Hr. cbn.
      rewrite H1, H2, !N.eqb_refl. cbn. run_simpl. cbn. by rewrite Hd, <- Hm.
    - destruct HP as (q & Hq & H1 & _ & Hs). run_simpl. cbn. rewrite Hq. cbn.
      rewrite H1, N.eqb_refl. unfold ctx_active. by rewrite Hs. }
  unfold child_still_valid, current_of, grant_of. run_simpl. rewrite Hlive. run_simpl.
  assert (Hpar : get_ticket (da_parent req) (k_calls k') = Some p).
  { unfold get_ticket in *. cbn. apply (cc_id _ CC) in Hp as L. rewrite lookup_insert_ne; [done|].
    lia. }
  rewrite Hpar. cbn [is_some_and]. apply is_open_spec in Ho. rewrite Ho. cbn [negb]. run_simpl.
  cbn [k_contexts set_calls k']. rewrite Hc. cbn [is_some_and]. rewrite Hi, N.eqb_refl.
  unfold ctx_active. rewrite Ha, bool_decide_eq_true_2 by done. cbn [negb andb]. run_simpl.
  cbn [k_outbound_grants set_calls k']. by rewrite Hg, bool_decide_eq_true_2.
Qed.

Lemma admit_register_run req b p limits ctx peer rev depth c k :
  calls_core (k_calls k) → parent_holds req p k → consumer_holds req c k →
  provider_holds b peer k →
  k_outbound_grants k !! (da_caller_logical req, db_capability b) = Some rev →
  let t := child_ticket req b (child_deadline (k_now k) limits (da_timeout_ms req) p) ctx peer rev
             depth k in
  ∃ k', run (admit_register req b p limits ctx peer rev depth) k = (Ok (next_ticket (k_calls k)), k')
    ∧ k_calls k' = with_child t (k_calls k) ∧ only_calls k k'.
Proof.
  intros CC HP HC HPr Hg t. unfold admit_register, epoch. run_simpl.
  cbn [k_calls k_now k_contexts set_calls new_flag fst snd next_ticket].
  set (dl := child_deadline _ _ _ _) in *.
  set (meta := mkDepChild _ _ _ _ _ _ _ _ _).
  pose proof (register_child (db_capability b) (db_provider_logical b) (db_provider_instance b)
    (db_provider_generation b) ctx (ct_epoch (k_contexts k)) (k_now k) dl meta (k_calls k)) as R.
  cbn [new_flag fst snd] in R. cbv zeta in R. rewrite !R. cbn [fst snd negb].
  rewrite !set_calls_twice. run_simpl.
  rewrite (still_valid_run req b peer rev p c k) by done. run_simpl.
  eexists. split; [reflexivity|]. done.
Qed.

(** ** Admission and denial *)

Definition child_depth (p : TicketRecord) : N :=
  match tk_dep p with Some d => (dc_depth d + 1)%N | None => 1%N end.

(** Everything an admission checks. *)
Record child_admissible (req : DepAdmit) (p : TicketRecord) (b : DepBinding)
    (pol : OutboundPolicy) (peer : option string) (rev : N) (k : Kernel) : Prop := {
  ca_parent : parent_holds req p k;
  ca_binding : binding_holds req b k;
  ca_consumer : ∃ c, consumer_holds req c k;
  ca_provider : provider_holds b peer k;
  ca_policy : ∃ d, k_definitions k !! da_caller_logical req = Some d ∧ sm_outbound d = Some pol;
  ca_grant : k_outbound_grants k !! (da_caller_logical req, db_capability b) = Some rev;
  ca_depth : (child_depth p ≤ max_depth (ob_limits pol))%N;
  ca_children : (N.of_nat (length (open_children_of (da_parent req) (k_calls k)))
                 < max_children_per_parent (ob_limits pol))%N;
  ca_session : (default 0 (du_per_session (k_dep_usage k) !! da_session req)
                < max_calls_per_session (ob_limits pol))%N;
  ca_global : (du_global (k_dep_usage k) < max_calls_global (ob_limits pol))%N;
  ca_inflight : inflight_count (k_calls k) < MAX_INFLIGHT_CALLS;
}.

Lemma reserve_usage_run s l k :
  (∃ d, reserve_usage s l k = (Err d, k)) ∨
  (reserve_usage s l k = (Ok tt, set_dep_usage (reserved s (k_dep_usage k)) k) ∧
   (default 0 (du_per_session (k_dep_usage k) !! s) < max_calls_per_session l)%N ∧
   (du_global (k_dep_usage k) < max_calls_global l)%N ∧
   inflight_count (k_calls k) < MAX_INFLIGHT_CALLS).
Proof.
  unfold reserve_usage. destruct (_ <=? _)%N eqn:H1; [left; by eexists|].
  destruct (max_calls_global l <=? _)%N eqn:H2; [left; by eexists|].
  destruct (_ <=? _) eqn:H3; [left; by eexists|]. right.
  apply N.leb_gt in H1, H2. apply Nat.leb_gt in H3. done.
Qed.

(** The two ways [dependency_admit] ends. *)
Lemma dependency_admit_run req k :
  kernel_inv k →
  (∃ d, run (dependency_admit req) k = (Err d, k)) ∨
  (∃ p b pol ctx peer rev k',
     child_admissible req p b pol peer rev k ∧ (0 < da_timeout_ms req)%N ∧
     run (dependency_admit req) k = (Ok (next_ticket (k_calls k)), k') ∧
     k_calls k' = with_child
       (child_ticket req b (child_deadline (k_now k) (ob_limits pol) (da_timeout_ms req) p) ctx
          peer rev (child_depth p) k) (k_calls k) ∧
     only_calls (set_dep_usage (reserved (da_session req) (k_dep_usage k)) k) k').
Proof.
  intros I. unfold dependency_admit. destruct (_ =? 0)%N eqn:Ht; [left; by eexists|].
  apply N.eqb_neq in Ht. destruct (_ || _); [left; by eexists|].
  rewrite run_seq. destruct (admit_parent_run req k) as ([p|d] & -> & Hp); cbn [fst snd];
    [|left; by eexists].
  rewrite run_seq. destruct (admit_binding_run req k) as ([b|d] & -> & Hb); cbn [fst snd];
    [|left; by eexists].
  rewrite run_seq. destruct (admit_consumer_run req k) as ([c|d] & -> & Hc); cbn [fst snd];
    [|left; by eexists].
  rewrite run_seq. destruct (admit_provider_run b c k) as ([[ctx peer]|d] & -> & Hv);
    cbn [fst snd]; [|left; by eexists].
  unfold outbound_policy_of, grant_of. run_simpl.
  destruct (and_then _ sm_outbound) as [pol|] eqn:Hpol; [|left; by eexists].
  fold (child_depth p). destruct (_ <? _)%N eqn:Hd; [left; by eexists|]. apply N.ltb_ge in Hd.
  run_simpl. destruct (k_outbound_grants k !! _) as [rev|] eqn:Hg; [|left; by eexists].
  run_simpl. destruct (_ <=? _)%N eqn:Hch; [left; by eexists|]. apply N.leb_gt in Hch.
  run_simpl. destruct (reserve_usage_run (da_session req) (ob_limits pol) k)
    as [[d ->]|(-> & Hs & Hgl & Hin)]; cbn [fst snd]; [left; by eexists|]. right.
  specialize (Hp p eq_refl). specialize (Hb b eq_refl). specialize (Hc c eq_refl).
  specialize (Hv ctx peer eq_refl).
  destruct (admit_register_run req b p (ob_limits pol) ctx peer rev (child_depth p) c
    (set_dep_usage (reserved (da_session req) (k_dep_usage k)) k) (ki_calls _ I) Hp Hc Hv Hg)
    as (k' & Hrun & Hcalls & Honly).
  exists p, b, pol, ctx, peer, rev, k'. split_and!; [|lia|exact Hrun|exact Hcalls|exact Honly].
  split; try done; [by eexists|].
  destruct (k_definitions k !! da_caller_logical req) as [d|]; [|done]. by exists d.
Qed.

Lemma child_deadline_le now limits timeout p :
  let d := child_deadline now limits timeout p in
  (d ≤ now + timeout)%N ∧ (d ≤ now + max_deadline_ms limits)%N ∧
  ∀ u, tk_drain_until p = Some u → (d ≤ u)%N.
Proof.
  unfold child_deadline. destruct (tk_drain_until p) as [u|]; split_and!; try lia;
    intros u' [= <-]; lia.
Qed.

(** C24: a dependency child is admitted only with full authority and within every
    limit. When [dependency_admit] issues a child: the caller executes the admitted
    parent, owns the opaque binding and is the active current activation of its
    id; the provider is the activation the binding was issued for, active and
    current, or the attested remote one; the operator granted the capability; and
    the depth, the children of the parent, the calls of the session, the
    dependency calls and the calls in flight are all below their limits. The
    child is bound to that provider, carries the parent, the consumer, the grant
    revision and the depth, and expires no later than the request, the policy and
    the parent allow; the quota is charged exactly once; nothing else changes. *)
Theorem dependency_admit_sound (req : DepAdmit) (k k' : Kernel) (id : N) :
  kernel_inv k →
  run (dependency_admit req) k = (Ok id, k') →
  ∃ p b pol peer rev t d u,
    child_admissible req p b pol peer rev k ∧
    get_ticket id (k_calls k) = None ∧ get_ticket id (k_calls k') = Some t ∧
    tk_state t = TkAdmitted ∧ tk_instance t = db_provider_instance b ∧
    tk_generation t = db_provider_generation b ∧ tk_cap t = db_capability b ∧
    tk_dep t = Some d ∧ dc_parent d = da_parent req ∧ dc_consumer d = da_caller_instance req ∧
    dc_grant_rev d = rev ∧ dc_remote_peer d = peer ∧
    (0 < dc_depth d ≤ max_depth (ob_limits pol))%N ∧
    tk_drain_until t = Some u ∧ (u ≤ k_now k + da_timeout_ms req)%N ∧
    (u ≤ k_now k + max_deadline_ms (ob_limits pol))%N ∧
    (∀ v, tk_drain_until p = Some v → (u ≤ v)%N) ∧
    k_dep_usage k' = reserved (da_session req) (k_dep_usage k) ∧
    (∀ id', id' ≠ id → get_ticket id' (k_calls k') = get_ticket id' (k_calls k)) ∧
    effects (k_calls k') = effects (k_calls k) ∧ k_contexts k' = k_contexts k.
Proof.
  intros I H. destruct (dependency_admit_run req k I)
    as [[d E']|(p & b & pol & ctx & peer & rev & k1 & A & _ & E' & Hc & O)];
    rewrite H in E'; [done|]. injection E' as -> <-.
  pose proof (calls_core_fresh _ (ki_calls _ I)) as Hf.
  pose proof (child_deadline_le (k_now k) (ob_limits pol) (da_timeout_ms req) p) as (D1 & D2 & D3).
  pose proof (ca_depth _ _ _ _ _ _ _ A) as Hd.
  eexists p, b, pol, peer, rev,
    (child_ticket req b (child_deadline (k_now k) (ob_limits pol) (da_timeout_ms req) p) ctx peer rev
       (child_depth p) k), _, _.
  split; [exact A|]. rewrite O. unfold get_ticket. rewrite Hc. cbn.
  rewrite lookup_insert_eq. split_and!; try done.
  - unfold child_depth in *. destruct (tk_dep p); cbn; lia.
  - intros id' N. by apply lookup_insert_ne.
Qed.

(** a denied child leaves nothing behind. When [dependency_admit] denies, the
    kernel is unchanged: no ticket, no quota, no journal entry. *)
Theorem dependency_admit_denied (req : DepAdmit) (k k' : Kernel) (d : DepDeny) :
  kernel_inv k → run (dependency_admit req) k = (Err d, k') → k' = k.
Proof.
  intros I H. destruct (dependency_admit_run req k I)
    as [[d' E']|(p & b & pol & ctx & peer & rev & k1 & _ & _ & E' & _)];
    rewrite H in E'; [|done]. by injection E' as _ ->.
Qed.

(** ** Grants *)

Lemma journal_each_frame l r k :
  ∃ j, (run (for_each l (journal_cancelled r)) k).2 = set_journal j k.
Proof.
  revert k. induction l as [|t l IH]; intros k; cbn [for_each].
  - exists (k_journal k). by destruct k.
  - run_simpl. unfold journal_cancelled at 2. run_simpl. destruct (IH (journalled (tk_logical t)
      "call.cancelled" (obj [("ticket", j_u64 (tk_id t)); ("reason", JString r)]) k)) as [j ->].
    by exists j.
Qed.

(** The child holds a grant of [cap] to [consumer]. *)
Definition holds_grant (consumer cap : string) (t : TicketRecord) : Prop :=
  ∃ d, tk_dep t = Some d ∧ dc_grant_consumer d = consumer ∧ dc_grant_cap d = cap.

(** What [revoke_outbound] leaves. *)
Lemma revoke_outbound_run c cap k :
  ∃ j, (run (revoke_outbound c cap) k).2 =
    set_journal j (set_calls (revoke_grant_children c cap None "grant-revoked" (k_calls k)).2
      (set_outbound_grants (delete (c, cap) (k_outbound_grants k)) k)).
Proof.
  unfold revoke_outbound. run_simpl. cbn [k_calls set_outbound_grants].
  destruct (journal_each_frame (revoke_grant_children c cap None "grant-revoked" (k_calls k)).1
    "grant-revoked" (set_calls (revoke_grant_children c cap None "grant-revoked" (k_calls k)).2
      (set_outbound_grants (delete (c, cap) (k_outbound_grants k)) k))) as [j ->].
  by exists j.
Qed.

Lemma chain_needs_grant c cap t k :
  holds_grant c cap t → k_outbound_grants k !! (c, cap) = None → ¬ chain_holds t k.
Proof.
  intros (d & Hd & <- & <-) Hg C. unfold chain_holds in C. rewrite Hd in C.
  destruct C as (_ & _ & _ & Hg'). congruence.
Qed.

Lemma accept_needs_chain id t k :
  get_ticket id (k_calls k) = Some t → ¬ chain_holds t k →
  is_ok (run (dependency_accept id) k).1 = false.
Proof.
  intros Ht N. unfold dependency_accept. run_simpl. rewrite Ht. run_simpl.
  destruct (run (dep_chain_check t "result") k) as [[[]|e] k1] eqn:Hc; cbn [fst snd].
  - by apply dep_chain_ok in Hc as [_ ?].
  - done.
Qed.

(** revoking a grant stops every child that holds it. After [revoke_outbound],
    each child admitted under that grant is no longer open, and its result and its
    effects are refused; the tickets that do not hold the grant are untouched. *)
Theorem revoke_stops_children (c cap : string) (k k' : Kernel) (ts : list TicketRecord) :
  run (revoke_outbound c cap) k = (ts, k') →
  (∀ id t, get_ticket id (k_calls k') = Some t → holds_grant c cap t →
     tk_state t ≠ TkAdmitted ∧ is_ok (run (dependency_accept id) k').1 = false ∧
     ∀ kd p, is_ok (run (commit_effect id kd p) k').1 = false) ∧
  (∀ id t, get_ticket id (k_calls k) = Some t → ¬ holds_grant c cap t →
     get_ticket id (k_calls k') = Some t).
Proof.
  intros H. destruct (revoke_outbound_run c cap k) as [j Hk]. rewrite H in Hk. cbn in Hk. subst k'.
  set (k' := set_journal _ _).
  assert (Hg : k_outbound_grants k' !! (c, cap) = None) by (cbn; apply lookup_delete_eq).
  split.
  - intros id t Ht HG. pose proof (chain_needs_grant c cap t k' HG Hg) as NC. split_and!.
    + revert Ht. unfold get_ticket. cbn. rewrite lookup_fmap. intros (r & Hr & ->)%fmap_Some_1.
      destruct HG as (d & Hd & <- & <-). destruct (_ && _) eqn:Hs; [done|]. cbn in Hd.
      rewrite Hd in Hs. cbn in Hs. rewrite !bool_decide_eq_true_2 in Hs by done. cbn in Hs.
      intros Ho%is_open_spec. by rewrite Ho in Hs.
    + by eapply accept_needs_chain.
    + intros kd p. destruct (run (commit_effect id kd p) k') as [[seq|e] k1] eqn:Hc; [|done].
      apply commit_run_ok in Hc as (t' & Ht' & [_ C _] & _). congruence.
  - intros id t Ht NG. unfold get_ticket in *. cbn. rewrite lookup_fmap, Ht. cbn.
    destruct (_ && _) eqn:Hs; [|done]. exfalso. apply NG.
    apply andb_true_iff in Hs as [Hs _]. destruct (tk_dep t) as [d|] eqn:Hd; [|done]. cbn in Hs.
    apply andb_true_iff in Hs as [[H1%bool_decide_eq_true H2%bool_decide_eq_true]%andb_true_iff _].
    by exists d.
Qed.
End env.

(** ** Witnesses *)

Lemma dependency_admit_sound_witness :
  ∃ t, get_ticket 2 (k_calls (run (dependency_admit demo_request) demo_called).2) = Some t ∧
    tk_state t = TkAdmitted.
Proof.
  set (k' := (run (dependency_admit demo_request) demo_called).2).
  destruct (dependency_admit_sound demo_request demo_called k' 2)
    as (p & b & pol & peer & rev & t & d & u & _ & _ & Ht & Hs & _).
  - demo_inv.
  - unfold k'. apply run_result. vm_compute. reflexivity.
  - exists t. split; [exact Ht|exact Hs].
Defined.

(** Without a grant. *)
Lemma dependency_admit_denied_witness :
  let k := kernel_run [KOpen "app.run@1" JNull None []] demo_loaded in
  (run (dependency_admit demo_request) k).2 = k.
Proof.
  intros k. eapply (dependency_admit_denied demo_request k).
  - demo_inv.
  - unfold k. apply run_result. vm_compute. reflexivity.
Defined.

Lemma revoke_stops_children_witness :
  let k' := (run (revoke_outbound "app" "store.kv@1") demo_child).2 in
  is_ok (run (commit_effect 2 "put" JNull) k').1 = false.
Proof.
  intros k'. destruct (revoke_stops_children "app" "store.kv@1" demo_child k'
    (run (revoke_outbound "app" "store.kv@1") demo_child).1) as [H _].
  - unfold k'. apply surjective_pairing.
  - eapply H; [vm_compute; reflexivity|]. eexists. split; [reflexivity|]. split; reflexivity.
Defined.
