(* ===== verification/KernelConc.v ===== *)
(** * What no interleaving can undo

    Any number of threads run public methods on a shared kernel, their critical
    sections interleaved in any order. Tickets that ended stay ended, withdrawn
    activations are never admitted again, confirmed effects and journal lines are
    never rewritten, released resources stay released, and grants change only by
    the operator's methods. *)

From S2P Require Import Prelude RustStd Json Identity Contexts Resources Registry Bus Deps Calls.
From S2P Require Import Journal Manifest Prog KernelState KernelCalls KernelLifecycle KernelDispatch.
From S2P Require Import KernelActions KernelInv KernelDemo.

(** An invariant of the updates the methods may make is an invariant of every
    interleaving. *)
Lemma pool_invariant `{Env} (I : Kernel → Prop) ops k ps k' :
  (∀ a k, tag a = TBase ∨ (∃ o, o ∈ ops ∧ tag a ∈ op_tags o) → I k → I (kact a k)) →
  rtc pool_step (kop_prog <$> ops, k) (ps, k') → I k → I k'.
Proof.
  intros HI R Hk.
  assert (F : Forall (always (preserves I)) (kop_prog <$> ops)).
  { apply Forall_forall. intros p (o & -> & Ho)%list_elem_of_fmap.
    apply kop_always; [apply _|]. intros a s Ha Hs. apply HI; eauto. }
  apply (always_pool I _ _ _ _ (λ n s, HI (ANow n) s (or_introl eq_refl)) F Hk R).
Qed.

(** ** The updates *)

Lemma settled_insert id id' r r' fl t :
  tickets t !! id' = Some r → (tk_state r' = TkAdmitted → tk_state r = TkAdmitted) →
  settled id t → settled id (with_tickets (<[id' := r']> (tickets t)) fl t).
Proof.
  intros Hr Hs [L S]. split; [done|]. cbn.
  intros r0 [[<- <-]|[_ H]]%lookup_insert_Some; [|by apply S]. intros ?%Hs. by eapply S.
Qed.

Lemma settled_fmap id f fl t :
  (∀ r, tk_state (f r) = TkAdmitted → tk_state r = TkAdmitted) →
  settled id t → settled id (with_tickets (f <$> tickets t) fl t).
Proof.
  intros Hf [L S]. split; [done|]. cbn. intros r0. rewrite lookup_fmap.
  intros (r & Hr & ->)%fmap_Some_1 H%Hf. by eapply S.
Qed.

Lemma call_act_settled a id t : settled id t → settled id (call_act a t).
Proof.
  intros S. destruct a; cbn [call_act].
  all: try (unfold set_dep_meta, mark_committed_if_admitted, expire_ticket, Calls.set_state,
    set_drain_until, cancel, stop_ticket; destruct (tickets t !! _) as [r|] eqn:Hr; [|done];
    try destruct (is_open r); try done; by eapply settled_insert).
  - done.
  - destruct S as [L S]. split; cbn; [lia|].
    intros r [[<- <-]|[_ H]]%lookup_insert_Some; [lia|by apply S].
  - apply settled_fmap; [|done]. intros r. by destruct (_ && _).
  - apply settled_fmap; [|done]. intros r. by destruct (overdue _ _).
  - destruct S as [L S]. split; [done|]. cbn. intros r [_ H]%lookup_delete_Some. by apply S.
  - done.
  - done.
  - done.
Qed.

Lemma kact_settled a id k : settled id (k_calls k) → settled id (k_calls (kact a k)).
Proof.
  intros S. destruct a; cbn [kact]; try done; [by apply call_act_settled|].
  unfold issue. by destruct (foldl _ _ _).
Qed.

(** The kernel is well formed and the instance has left [Active] for good. *)
Definition withdrawn (i : N) (k : Kernel) : Prop :=
  ∃ r, get_by_instance i (k_contexts k) = Some r ∧ left_active (cr_state r) = true.

Lemma kact_withdrawn a i k :
  tag a ≠ TReset → kernel_inv k → withdrawn i k → withdrawn i (kact a k).
Proof.
  intros T I (r & Hr & L).
  destruct a; cbn [kact]; try done; try by exists r.
  - by apply (ctx_apply_left_active o (k_contexts k) i r (ki_ctx _ I)).
  - unfold issue. destruct (foldl _ _ _). by exists r.
Qed.

(** The effects of [k'] older than [k] are effects of [k]. *)
Definition effects_extend (k k' : Kernel) : Prop :=
  (next_effect (k_calls k) ≤ next_effect (k_calls k'))%N ∧
  ∀ e, e ∈ effects (k_calls k') → (ef_seq e < next_effect (k_calls k))%N →
    e ∈ effects (k_calls k).

Lemma call_act_effects a t :
  (next_effect (call_act a t) = next_effect t ∧ effects (call_act a t) = effects t) ∨
  ∃ id l i g kd p at_ms, a = CPush id l i g kd p at_ms.
Proof.
  destruct a; cbn [call_act];
    try (right; by eauto 10); left;
    unfold set_dep_meta, mark_committed_if_admitted, expire_ticket, Calls.set_state,
      set_drain_until, Calls.cancel, stop_ticket;
    repeat (case_match; try done); done.
Qed.

Lemma kact_effects a k :
  (next_effect (k_calls (kact a k)) = next_effect (k_calls k) ∧
   effects (k_calls (kact a k)) = effects (k_calls k)) ∨
  ∃ id l i g kd p at_ms, a = ACall (CPush id l i g kd p at_ms).
Proof.
  destruct a; cbn [kact]; try (by left).
  - destruct (call_act_effects a (k_calls k)) as [H|(id & l & i & g & kd & p & m & ->)];
      [by left|right]. by eauto 10.
  - left. unfold issue. by destruct (foldl _ _ _).
Qed.

Lemma kact_effects_extend a k0 k : effects_extend k0 k → effects_extend k0 (kact a k).
Proof.
  intros [L S]. destruct (kact_effects a k) as [[N E]|(id & l & i & g & kd & p & m & ->)].
  - split; [by rewrite N|]. by rewrite E.
  - split; cbn; [lia|]. intros e He%subseteq_drop Hs.
    apply elem_of_app in He as [He|He]; [by apply S|].
    apply list_elem_of_singleton in He as ->. cbn in Hs. lia.
Qed.

Lemma kact_grants a k : tag a ≠ TGrant → k_outbound_grants (kact a k) = k_outbound_grants k.
Proof. intros T. destruct a; try done. cbn. unfold issue. by destruct (foldl _ _ _). Qed.

Lemma kact_journal a k :
  tag a ≠ TReset → jr_file (k_journal k) `prefix_of` jr_file (k_journal (kact a k)).
Proof.
  intros T. destruct a; try done; [|by eexists].
  cbn. unfold issue. by destruct (foldl _ _ _).
Qed.

(** [h] was issued, and its record is gone or released. *)
Definition retired (h : N) (t : ResourceTable) : Prop :=
  (h < next_handle t)%N ∧ ∀ r, res_record h t = Some r → rr_state r = Released.

Lemma res_act_retired a h t : retired h t → retired h (res_act a t).
Proof.
  unfold retired, res_record. intros [L S].
  assert (D : ∀ h' c, retired h (drop_record h' c t)).
  { intros h' c. split; [done|]. unfold res_record. cbn. intros r [_ H]%lookup_delete_Some. by apply S. }
  destruct a; cbn [res_act].
  - cbn. split; [lia|]. intros r [[<- <-]|[_ H]]%lookup_insert_Some; [lia|by apply S].
  - destruct kind, spawn; cbn; try done; exact (D h0 ctx).
  - unfold begin_release_check. repeat (case_match; try done).
  - unfold begin_release_claim. destruct (records t !! h0) as [r|] eqn:Hr; [|done].
    case_bool_decide; [done|]. split; [done|]. cbn.
    intros r' [[<- <-]|[_ H']]%lookup_insert_Some; [done|by apply S].
  - unfold finish_release, stop_live. by destruct (rc_timer c), (rc_task c).
  - unfold rollback_register. destruct (records t !! h0) as [r|]; [|done].
    case_bool_decide; [|done]. specialize (D h0 (rr_owner_context r)).
    unfold stop_live. by destruct (timers t !! h0), (tasks t !! h0).
  - done.
Qed.

Lemma kact_retired a h k : retired h (k_resources k) → retired h (k_resources (kact a k)).
Proof.
  intros S. destruct a; cbn [kact]; try done; [by apply res_act_retired|].
  unfold issue. by destruct (foldl _ _ _).
Qed.

(** ** Properties *)

Section env.
Context {E : Env}.

(** a ticket ends once. In every interleaving of any public methods, from any
    state, a ticket that was committed, cancelled, expired or closed is never
    admitted again, nor is its id issued again. *)
Theorem ended_tickets_stay_ended (ops : list KernelOp) (k k' : Kernel) (ps : list (kprog unit))
    (id : N) :
  rtc pool_step (kop_prog <$> ops, k) (ps, k') →
  settled id (k_calls k) → settled id (k_calls k').
Proof.
  apply (pool_invariant (λ k, settled id (k_calls k))). intros a k0 _. apply kact_settled.
Qed.

(** C29: a withdrawn activation is never admitted again. Once the context of an
    instance is quiescing, cleaning up, disposed or failed, no interleaving of
    public methods other than the bench reset makes [require_active] accept it, or
    lets a second disposer claim it. *)
Theorem withdrawn_never_readmitted (ops : list KernelOp) (k k' : Kernel)
    (ps : list (kprog unit)) (i : N) :
  KResetBench ∉ ops → kernel_inv k →
  rtc pool_step (kop_prog <$> ops, k) (ps, k') →
  withdrawn i k →
  (∀ r, require_active i (k_contexts k') ≠ Ok r) ∧
  ∀ r t, claim_dispose i (k_contexts k') ≠ (Ok (Fresh r), t).
Proof.
  intros Hops I R W.
  assert (W' : kernel_inv k' ∧ withdrawn i k').
  { refine (pool_invariant (λ k, kernel_inv k ∧ withdrawn i k) ops k ps k' _ R (conj I W)).
    intros a k0 Ha [I0 W0]. split; [by apply kact_inv|]. apply kact_withdrawn; [|done..].
    intros T. destruct Ha as [Ha|(o & Ho & Ha)]; [congruence|]. rewrite T in Ha.
    destruct o; cbn in Ha; set_solver. }
  destruct W' as [_ (r & Hr & L)]. split.
  - intros r' (Hr' & Hs & _)%require_active_ok. unfold get_by_instance in Hr.
    rewrite Hr in Hr'. injection Hr' as ->. by rewrite Hs in L.
  - by eapply claim_dispose_not_fresh.
Qed.

(** confirmed effects are never rewritten. In every interleaving of any public
    methods, an effect in the ring that is older than the start is one of the
    effects of the start; and without a commit among the methods the ring does
    not change at all. *)
Theorem effects_append_only (ops : list KernelOp) (k k' : Kernel) (ps : list (kprog unit)) :
  rtc pool_step (kop_prog <$> ops, k) (ps, k') →
  effects_extend k k' ∧
  ((∀ t kd p, KCommit t kd p ∉ ops) → effects (k_calls k') = effects (k_calls k)).
Proof.
  intros R. split.
  - refine (pool_invariant (effects_extend k) ops k ps k' _ R _).
    + intros a k0 _. apply kact_effects_extend.
    + split; [done|]. by intros e He.
  - intros Hops. refine (pool_invariant (λ k', effects (k_calls k') = effects (k_calls k)) ops k ps
      k' _ R eq_refl).
    intros a k0 Ha H0. rewrite <- H0.
    destruct (kact_effects a k0) as [[_ ?]|(id & l & i & g & kd & p & m & ->)]; [done|].
    destruct Ha as [Ha|(o & Ho & Ha)]; [done|]. destruct o; cbn in Ha; set_solver.
Qed.

(** the journal is append-only, the operator alone grants. In every
    interleaving of public methods other than the bench reset, every journal line
    stays in its place; and without a grant or a revocation among the methods the
    outbound grants do not change. *)
Theorem journal_and_grants_frame (ops : list KernelOp) (k k' : Kernel)
    (ps : list (kprog unit)) :
  rtc pool_step (kop_prog <$> ops, k) (ps, k') →
  (KResetBench ∉ ops → jr_file (k_journal k) `prefix_of` jr_file (k_journal k')) ∧
  ((∀ c cap, KGrant c cap ∉ ops ∧ KRevoke c cap ∉ ops) →
   k_outbound_grants k' = k_outbound_grants k).
Proof.
  intros R. split.
  - intros Hops. refine (pool_invariant (λ k', jr_file (k_journal k) `prefix_of`
      jr_file (k_journal k')) ops k ps k' _ R _); [|done].
    intros a k0 Ha H0. etrans; [exact H0|]. apply kact_journal. intros T.
    destruct Ha as [Ha|(o & Ho & Ha)]; [congruence|]. rewrite T in Ha.
    destruct o; cbn in Ha; set_solver.
  - intros Hops. refine (pool_invariant (λ k', k_outbound_grants k' = k_outbound_grants k) ops k ps
      k' _ R eq_refl).
    intros a k0 Ha <-. apply kact_grants. intros T.
    destruct Ha as [Ha|(o & Ho & Ha)]; [congruence|]. rewrite T in Ha.
    destruct o; cbn in Ha; set_solver.
Qed.

(** a released resource stays released. In every interleaving of any public
    methods, from any state, a handle whose record was released or dropped is
    never active again, nor issued again: no [begin_release] claims it twice. *)
Theorem released_stay_released (ops : list KernelOp) (k k' : Kernel) (ps : list (kprog unit))
    (h : N) :
  rtc pool_step (kop_prog <$> ops, k) (ps, k') →
  retired h (k_resources k) →
  retired h (k_resources k') ∧ ∀ c t, begin_release_claim h (k_resources k') ≠ (Ok c, t).
Proof.
  intros R Hh. assert (H' : retired h (k_resources k')).
  { refine (pool_invariant (λ k, retired h (k_resources k)) ops k ps k' _ R Hh).
    intros a k0 _. apply kact_retired. }
  split; [done|]. intros c t. unfold begin_release_claim.
  destruct (records (k_resources k') !! h) as [r|] eqn:Hr; [|done].
  destruct H' as [_ S]. by rewrite (S r Hr).
Qed.
End env.

(** ** Witnesses *)

(** Two threads on the small deployment: one closes the call, the other disposes of
    the provider; the schedule alternates between them. *)
Definition demo_ops : list KernelOp := [KClose 1; KDisposeInstance 2].

Definition demo_schedule : list nat := concat (repeat [0; 1; 1; 0; 1] 60).

(** The state that schedule reaches. *)
Definition demo_after (k : Kernel) : Kernel :=
  (exec demo_schedule (kop_prog <$> demo_ops, k)).2.

Lemma ended_tickets_stay_ended_witness :
  settled 2 (k_calls demo_child_ended) ∧
  settled 2 (k_calls (demo_after demo_child_ended)).
Proof.
  assert (H : settled 2 (k_calls demo_child_ended)).
  { vm_compute. split; [reflexivity|]. intros r [= <-]. discriminate. }
  split; [exact H|].
  exact (ended_tickets_stay_ended demo_ops demo_child_ended _ _ 2
    (exec_rtc demo_schedule (kop_prog <$> demo_ops) demo_child_ended) H).
Defined.

Lemma withdrawn_never_readmitted_witness :
  withdrawn 2 demo_disposed ∧
  ∀ r, require_active 2 (k_contexts (demo_after demo_disposed)) ≠ Ok r.
Proof.
  assert (W : withdrawn 2 demo_disposed).
  { eexists. split; [vm_compute; reflexivity|reflexivity]. }
  split; [exact W|].
  eapply (withdrawn_never_readmitted demo_ops demo_disposed).
  - unfold demo_ops. set_solver.
  - demo_inv.
  - exact (exec_rtc demo_schedule (kop_prog <$> demo_ops) demo_disposed).
  - exact W.
Defined.

Lemma effects_append_only_witness :
  effects (k_calls (demo_after demo_child)) = effects (k_calls demo_child).
Proof.
  eapply (effects_append_only demo_ops demo_child).
  - exact (exec_rtc demo_schedule (kop_prog <$> demo_ops) demo_child).
  - unfold demo_ops. set_solver.
Defined.

Lemma journal_and_grants_frame_witness :
  k_outbound_grants (demo_after demo_child) = k_outbound_grants demo_child.
Proof.
  eapply (journal_and_grants_frame demo_ops demo_child).
  - exact (exec_rtc demo_schedule (kop_prog <$> demo_ops) demo_child).
  - unfold demo_ops. set_solver.
Defined.

Lemma released_stay_released_witness :
  retired 2 (k_resources (demo_after demo_disposed)).
Proof.
  eapply (released_stay_released demo_ops demo_disposed).
  - exact (exec_rtc demo_schedule (kop_prog <$> demo_ops) demo_disposed).
  - split; [vm_compute; reflexivity|]. vm_compute. intros r [= <-]. reflexivity.
Defined.
