(* ===== verification/KernelLifeProps.v ===== *)
(** * Resolution, disposal and reconciliation, executed alone

    A disposal executed alone never reaches the nested reconciliation, so the fuel
    of [reconcile] bounds nothing but concurrent executions. What resolution binds,
    what disposal releases and whom it spares, what acquisition leaves behind. *)

From S2P Require Import Prelude RustStd Json Identity Contexts Resources Registry Bus Deps Calls.
From S2P Require Import Journal Manifest Prog KernelState KernelCalls KernelLifecycle KernelDispatch.
From S2P Require Import KernelActions KernelInv KernelDemo KernelCallProps.

(** Walks through two programs that differ in the nested reconciliation. *)
Ltac equiv_step :=
  match goal with
  | |- bind _ _ ≡ bind _ _ => apply bind_equiv; [|intros]
  | |- for_fold _ _ _ ≡ for_fold _ _ _ => apply for_fold_equiv; intros
  | |- match ?x with _ => _ end ≡ _ => destruct x
  | |- ?p ≡ ?p => reflexivity
  end.

Section env.
Context {E : Env}.

(** ** The nested reconciliation is not reached *)

Lemma dispose_pending_rc rc rc' rec i k :
  pending_count i (k_calls k) ≠ 0 →
  run (dispose_pending rc rec i) k = run (dispose_pending rc' rec i) k.
Proof.
  intros N. unfold dispose_pending, journal_cleanup_pending, update_plugin_of, update_plugin.
  run_simpl. cbn [k_calls journalled set_journal set_plugins set_contexts].
  destruct (pending_count i (k_calls k)); [done|]. cbn [Nat.eqb]. done.
Qed.

Lemma dispose_tail_rc rc rc' rec i :
  (let! n := read (λ k, pending_count i (k_calls k)) in
   if 0 <? n then dispose_pending rc rec i else dispose_release rec i)
  ≡ (let! n := read (λ k, pending_count i (k_calls k)) in
     if 0 <? n then dispose_pending rc' rec i else dispose_release rec i).
Proof.
  intros k. run_simpl. destruct (0 <? _) eqn:L; [|done]. apply dispose_pending_rc.
  apply Nat.ltb_lt in L. lia.
Qed.

Lemma dispose_rc rc rc' i : dispose_instance_inner rc i ≡ dispose_instance_inner rc' i.
Proof.
  unfold dispose_instance_inner, dispose_claimed.
  repeat first [apply dispose_tail_rc | equiv_step].
Qed.

Lemma withdraw_rc rc rc' l defs r :
  withdraw_to_waiting rc l defs r ≡ withdraw_to_waiting rc' l defs r.
Proof. unfold withdraw_to_waiting. repeat first [apply dispose_rc | equiv_step]. Qed.

Lemma create_active_rc rc rc' d bs js : create_active rc d bs js ≡ create_active rc' d bs js.
Proof. unfold create_active. repeat first [apply dispose_rc | equiv_step]. Qed.

Lemma reconcile_one_rc rc rc' defs st l d :
  reconcile_one rc defs st l d ≡ reconcile_one rc' defs st l d.
Proof.
  unfold reconcile_one. repeat first [apply withdraw_rc | apply create_active_rc | equiv_step].
Qed.

Lemma reconcile_activate_rc rc rc' defs st order :
  reconcile_activate rc defs st order ≡ reconcile_activate rc' defs st order.
Proof.
  induction order as [|l order IH]; cbn [reconcile_activate]; [done|].
  repeat first [apply IH | apply reconcile_one_rc | equiv_step].
Qed.

Lemma reconcile_step_rc rc rc' : reconcile_step rc ≡ reconcile_step rc'.
Proof.
  unfold reconcile_step, reconcile_cycle, reconcile_withdraw.
  repeat first [apply reconcile_activate_rc | apply withdraw_rc | equiv_step].
Qed.

Lemma reconcile_body_equiv p q : p ≡ q → reconcile_body p ≡ reconcile_body q.
Proof.
  intros H. unfold reconcile_body. apply bind_equiv; [done|]. intros n.
  induction (n * 2 + 4) as [|m IH]; cbn [reconcile_loop]; [done|].
  apply bind_equiv; [done|]. intros []; [apply IH|done].
Qed.

(** the fuel of the reconciliation is irrelevant. A reconciliation executed
    alone never starts a nested one: with any positive fuel it does exactly what
    it does with any other. *)
Theorem reconcile_fuel_irrelevant (n m : nat) : reconcile_fuel (S n) ≡ reconcile_fuel (S m).
Proof. apply reconcile_body_equiv, reconcile_step_rc. Qed.

(** ** Whom a disposal spares *)

(** The other instances, the resources of the other contexts, and what the other
    instances publish are the same in [k'] as in [k]. *)
Record spares (i c : N) (k k' : Kernel) : Prop := {
  sp_contexts : ∀ j, j ≠ i →
    get_by_instance j (k_contexts k') = get_by_instance j (k_contexts k);
  sp_records : ∀ h r, res_record h (k_resources k) = Some r → rr_owner_context r ≠ c →
    res_record h (k_resources k') = Some r;
  sp_caps : ∀ cap e, k_caps k !! cap = Some e → en_instance e ≠ i → en_instance e ≠ 0%N →
    k_caps k' !! cap = Some e;
  sp_subs : ∀ topic s, s ∈ subs_of topic (k_bus k) → sub_instance s ≠ i → sub_instance s ≠ 0%N →
    s ∈ subs_of topic (k_bus k');
}.

#[local] Instance spares_refl i c : Reflexive (spares i c).
Proof. by split. Qed.

#[local] Instance spares_trans i c : Transitive (spares i c).
Proof.
  intros k1 k2 k3 [A1 B1 C1 D1] [A2 B2 C2 D2]. split; eauto.
  intros j N. by rewrite A2, A1.
Qed.

(** A program that, executed alone, respects a relation. *)
Definition frames (R : Kernel → Kernel → Prop) {A} (p : kprog A) : Prop :=
  ∀ k, R k (run p k).2.

Section frames.
Context (R : Kernel → Kernel → Prop) `{!Reflexive R, !Transitive R}.

Lemma frames_bind {A B} (p : kprog A) (f : A → kprog B) :
  frames R p → (∀ a, frames R (f a)) → frames R (bind p f).
Proof. intros P F k. rewrite run_seq. etrans; [apply P|apply F]. Qed.

Lemma frames_ret {A} (a : A) : frames R (Ret a).
Proof. by intros k. Qed.

Lemma frames_read {X} (f : Kernel → X) : frames R (read f).
Proof. by intros k. Qed.

Lemma frames_for_each {A} (l : list A) f : (∀ x, frames R (f x)) → frames R (for_each l f).
Proof. intros F. induction l; cbn; [apply frames_ret|]. by apply frames_bind. Qed.

Lemma frames_for_fold {A B} (l : list A) (b : B) f :
  (∀ b x, frames R (f b x)) → frames R (for_fold l b f).
Proof.
  intros F. revert b. induction l; intros b; cbn; [apply frames_ret|]. by apply frames_bind.
Qed.
End frames.

Ltac frames_step :=
  match goal with
  | |- frames _ (bind _ _) => apply frames_bind; [apply _| |intros]
  | |- frames _ (Ret _) => apply frames_ret, _
  | |- frames _ (read _) => apply frames_read, _
  | |- frames _ (for_each _ _) => apply frames_for_each; [apply _|apply _|intros]
  | |- frames _ (for_fold _ _ _) => apply frames_for_fold; [apply _|apply _|intros]
  | |- frames _ (match ?x with _ => _ end) => destruct x
  end.

Section spares.
Context (i c : N).

Lemma spares_same k k' :
  k_contexts k' = k_contexts k → k_resources k' = k_resources k → k_caps k' = k_caps k →
  k_bus k' = k_bus k → spares i c k k'.
Proof. intros A B C D. split; rewrite ?A, ?B, ?C, ?D; done. Qed.

Lemma journal_spares f kd a : frames (spares i c) (journal f kd a).
Proof. intros k. rewrite run_journal. by apply spares_same. Qed.

Lemma plugins_spares {X} (f : gmap string Plugin → X * gmap string Plugin) :
  frames (spares i c) (on_plugins f).
Proof. intros k. rewrite run_on_plugins. by apply spares_same. Qed.

Lemma calls_spares {X} (f : CallsTable → X * CallsTable) : frames (spares i c) (on_calls f).
Proof. intros k. rewrite run_on_calls. by apply spares_same. Qed.

Lemma bindings_spares {X} (f : gmap string DepBinding → X * gmap string DepBinding) :
  frames (spares i c) (on_dep_bindings f).
Proof.
  intros k. unfold on_dep_bindings. rewrite run_act. destruct (f _). by apply spares_same.
Qed.

Lemma hook_spares ev : frames (spares i c) (emit_hook ev).
Proof.
  intros k. unfold emit_hook. rewrite run_modify. cbn. destruct (k_hook k); [|done].
  by apply spares_same.
Qed.

Lemma unpublish_spares kd : frames (spares i c) (unpublish kd i).
Proof.
  intros k. destruct kd; cbn [unpublish]; run_simpl; try done.
  - split; cbn; try done. intros cap e He Ni N0. rewrite revoke_cap_lookup.
    destruct (decide (name = cap)) as [->|]; [|done]. rewrite He. cbn.
    by rewrite (proj2 (N.eqb_neq _ _) Ni), (proj2 (N.eqb_neq _ _) N0).
  - split; cbn; try done. intros t s Hs Ni N0. unfold unsubscribe_topic_if_owned, subs_of in *.
    destruct (k_bus k !! topic) as [v|] eqn:Hv; [|done]. cbn. rewrite lookup_insert.
    destruct (decide (topic = t)) as [<-|]; [|done]. rewrite Hv in Hs. cbn in *.
    apply list_elem_of_filter. split; [|done]. naive_solver.
Qed.

Lemma context_spares {X} (f : ContextTable → X * ContextTable) :
  (∀ t j, j ≠ i → by_instance (f t).2 !! j = by_instance t !! j) →
  frames (spares i c) (on_contexts f).
Proof. intros H k. rewrite run_on_contexts. split; cbn; try done. intros j N. by apply H. Qed.

Lemma update_record_other f t j :
  j ≠ i → by_instance (update_record i f t) !! j = by_instance t !! j.
Proof. intros N. cbn. by apply lookup_alter_ne. Qed.

Lemma claim_dispose_other t j :
  j ≠ i → by_instance (claim_dispose i t).2 !! j = by_instance t !! j.
Proof.
  intros N. unfold claim_dispose. destruct (by_instance t !! i) as [r|]; [|done].
  destruct (canonical (cr_state r)); try done; cbn; by apply lookup_insert_ne.
Qed.

(** The record of [h] is the only one [begin_release] touches. *)
Lemma begin_release_other h h' t :
  h' ≠ h → records (begin_release h t).2 !! h' = records t !! h'.
Proof.
  intros N. unfold begin_release, begin_release_check, begin_release_claim.
  destruct (records t !! h) as [r|] eqn:Hr; [|done].
  repeat (case_match; simplify_eq; cbn); rewrite ?Hr in *; simplify_eq; cbn;
    rewrite ?lookup_insert_ne; done.
Qed.

Lemma run_begin_release h k :
  run (begin_release_prog h) k
  = ((begin_release h (k_resources k)).1, set_resources (begin_release h (k_resources k)).2 k).
Proof.
  unfold begin_release_prog, begin_release. run_simpl.
  destruct (begin_release_check h (k_resources k)) as [[u|e] t]; cbn [fst snd]; run_simpl; done.
Qed.

Lemma finish_release_records cl t : records (finish_release cl t) = records t.
Proof. unfold finish_release, stop_live. by destruct (rc_timer cl), (rc_task cl). Qed.

Lemma release_one_spares rec fs h :
  cr_instance rec = i → cr_context rec = c → frames (spares i c) (release_one rec fs h).
Proof.
  intros Hi Hc k. unfold release_one. run_simpl.
  destruct (res_record h (k_resources k)) as [r|] eqn:Hr; [|done].
  destruct (rr_is_active r); [|done]. cbn [negb].
  destruct (rr_owner_context r =? cr_context rec)%N eqn:Ho; cbn [negb]; [|done].
  apply N.eqb_eq in Ho. rewrite run_seq, run_begin_release. cbn [fst snd].
  set (k1 := set_resources _ k).
  assert (S1 : spares i c k k1).
  { split; cbn; try done. intros h' r' Hr' N. unfold res_record in *.
    rewrite begin_release_other; [done|]. intros ->. congruence. }
  destruct (begin_release h (k_resources k)).1 as [cl|[]]; cbn; try done.
  rewrite run_seq. etrans; [exact S1|]. rewrite Hi. etrans; [apply unpublish_spares|].
  run_simpl. split; cbn; try done. intros h' r'. unfold res_record.
  by rewrite finish_release_records.
Qed.

Hint Resolve journal_spares plugins_spares calls_spares bindings_spares hook_spares
  unpublish_spares : matrix.

Ltac frames_tac := repeat first [solve [eauto 2 with matrix] | frames_step].

Lemma context_update_spares f : frames (spares i c) (on_contexts (upd (update_record i f))).
Proof. apply context_spares. intros t j N. by apply update_record_other. Qed.

Lemma release_resources_spares rec :
  cr_instance rec = i → cr_context rec = c → frames (spares i c) (release_context_resources rec).
Proof.
  intros Hi Hc. unfold release_context_resources. frames_tac. by apply release_one_spares.
Qed.

Lemma dispose_release_spares rec :
  cr_instance rec = i → cr_context rec = c → frames (spares i c) (dispose_release rec i).
Proof.
  intros Hi Hc. unfold dispose_release, update_plugin_of, update_plugin, journal_cleanup_pending.
  frames_tac; try by apply release_resources_spares; try apply context_update_spares.
  all: apply context_update_spares.
Qed.

Lemma dispose_pending_spares rec k :
  pending_count i (k_calls k) ≠ 0 → spares i c k (run (dispose_pending (Ret tt) rec i) k).2.
Proof.
  intros N. unfold dispose_pending, journal_cleanup_pending, update_plugin_of, update_plugin.
  run_simpl. cbn [k_calls journalled set_journal set_plugins set_contexts].
  destruct (pending_count i (k_calls k)); [done|]. cbn [Nat.eqb]. run_simpl.
  set (k1 := journalled _ _ _ _). assert (S : spares i c k k1).
  { split; cbn; try done. intros j Nj. by apply lookup_alter_ne. }
  destruct (is_some_and _ _); run_simpl; exact S.
Qed.

Lemma drain_wait_spares d : frames (spares i c) (drain_wait i d).
Proof.
  destruct d as [u|]; [|by intros k]. unfold drain_wait. frames_tac.
  intros k. unfold run. destruct (_ =? 0); [done|]. destruct (_ <? _)%N; [|done].
  by apply spares_same.
Qed.

Lemma dispose_tail_spares rec :
  cr_instance rec = i → cr_context rec = c →
  frames (spares i c) (let! n := read (λ k, pending_count i (k_calls k)) in
    if 0 <? n then dispose_pending (Ret tt) rec i else dispose_release rec i).
Proof.
  intros Hi Hc k. run_simpl. destruct (0 <? _) eqn:L; [|by apply dispose_release_spares].
  apply dispose_pending_spares. apply Nat.ltb_lt in L. lia.
Qed.

Lemma dispose_claimed_spares rec :
  cr_instance rec = i → cr_context rec = c →
  frames (spares i c) (dispose_claimed (Ret tt) rec i).
Proof.
  intros Hi Hc. unfold dispose_claimed, update_plugin_of, update_plugin, prune_dep_bindings,
    revoke_publications, revoke_publication, withdraw_ticket, expire_drains, revoke_ticket_descendants,
    journal_cancelled.
  repeat first [solve [eauto 2 with matrix] | apply drain_wait_spares
               | by apply dispose_tail_spares | frames_step].
Qed.
End spares.

Lemma claim_fresh_record i t rec :
  (claim_dispose i t).1 = Ok (Fresh rec) →
  ∃ r, by_instance t !! i = Some r ∧ rec = with_state_cause Quiescing None r.
Proof.
  unfold claim_dispose. destruct (by_instance t !! i) as [r|]; [|done].
  destruct (canonical (cr_state r)); cbn; try done; intros [= <-]; eauto.
Qed.

Lemma claim_dispose_fresh_state i t t' rec :
  claim_dispose i t = (Ok (Fresh rec), t') → get_by_instance i t' = Some rec.
Proof.
  unfold claim_dispose. destruct (by_instance t !! i) as [r|]; [|done].
  destruct (canonical (cr_state r)); try done; intros [= <- <-];
    unfold get_by_instance; cbn; apply lookup_insert_eq.
Qed.

(** a disposal touches nobody else. Disposing of an instance, whatever its
    outcome, leaves every other instance's context, every resource of every other
    context, and the capabilities and subscriptions of every other instance
    exactly as they were. *)
Theorem dispose_spares_others (rc : kprog unit) (i : N) (k : Kernel) (r : ContextRecord) :
  kernel_inv k → get_by_instance i (k_contexts k) = Some r →
  spares i (cr_context r) k (run (dispose_instance_inner rc i) k).2.
Proof.
  intros I Hr. rewrite (dispose_rc rc (Ret tt) i k). unfold dispose_instance_inner. run_simpl.
  rewrite Hr. pose proof (wf_inst_key _ (ki_ctx _ I) _ _ Hr) as Hi.
  destruct (canonical (cr_state r)); try done.
  all: run_simpl.
  all: set (k1 := set_contexts _ k).
  all: assert (S : spares i (cr_context r) k k1) by
    (split; cbn; try done; intros j N; by apply claim_dispose_other).
  all: destruct (claim_dispose i (k_contexts k)).1 as [[rec|l]|e] eqn:Hc; try done.
  all: apply claim_fresh_record in Hc as (r' & Hr' & ->).
  all: unfold get_by_instance in Hr; rewrite Hr in Hr'; injection Hr' as <-.
  all: etrans; [exact S|by apply dispose_claimed_spares].
Qed.

(** ** What a completed disposal released *)

(** Records keep their owner, and released ones stay released; publications only
    disappear. *)
Record shrinks (k k' : Kernel) : Prop := {
  sh_records : ∀ h r', res_record h (k_resources k') = Some r' →
    ∃ r, res_record h (k_resources k) = Some r ∧ rr_owner_context r' = rr_owner_context r ∧
      rr_kind r' = rr_kind r ∧ (rr_state r = Released → rr_state r' = Released);
  sh_caps : k_caps k' ⊆ k_caps k;
}.

#[local] Instance shrinks_refl : Reflexive shrinks.
Proof. intros k. split; [|done]. eauto. Qed.

#[local] Instance shrinks_trans : Transitive shrinks.
Proof.
  intros k1 k2 k3 [A1 B1] [A2 B2]. split; [|by etrans].
  intros h r3 (r2 & (r1 & H1 & O1 & K1 & S1)%A1 & O2 & K2 & S2)%A2. exists r1.
  split_and!; [done|congruence|congruence|auto].
Qed.

Lemma shrinks_same k k' :
  k_resources k' = k_resources k → k_caps k' = k_caps k → shrinks k k'.
Proof. intros A B. split; rewrite ?A, ?B; [|done]. eauto. Qed.

Lemma revoke_cap_subseteq cap i m : (revoke_cap_if_owned cap i m).2 ⊆ m.
Proof.
  unfold revoke_cap_if_owned. destruct (m !! cap); [|done].
  repeat case_match; cbn; try done; apply delete_subseteq.
Qed.

Lemma unpublish_shrinks kd i : frames shrinks (unpublish kd i).
Proof.
  intros k. destruct kd; cbn [unpublish]; run_simpl; try done.
  - split; cbn; [eauto|apply revoke_cap_subseteq].
  - by apply shrinks_same.
Qed.

Lemma begin_release_shrinks h : frames shrinks (begin_release_prog h).
Proof.
  intros k. rewrite run_begin_release. split; cbn; [|done]. unfold res_record. intros h' r'.
  destruct (decide (h' = h)) as [->|N]; [|rewrite begin_release_other by done; eauto].
  unfold begin_release, begin_release_check, begin_release_claim.
  destruct (records (k_resources k) !! h) as [r|] eqn:Hr; cbn; [|by rewrite Hr].
  repeat (case_match; simplify_eq; cbn); rewrite ?Hr, ?lookup_insert_eq in *; simplify_eq; cbn;
    intros; simplify_eq; eauto 10.
Qed.

Lemma finish_release_shrinks cl : frames shrinks (on_resources (upd (finish_release cl))).
Proof.
  intros k. rewrite run_on_resources. split; cbn; [|done]. unfold res_record. intros h r'.
  rewrite finish_release_records. eauto.
Qed.

Lemma release_one_shrinks rec fs h : frames shrinks (release_one rec fs h).
Proof.
  unfold release_one. repeat first [apply unpublish_shrinks | apply begin_release_shrinks
    | apply finish_release_shrinks | frames_step].
Qed.

(** [h] is not an active resource of the context. *)
Definition gone (c h : N) (k : Kernel) : Prop :=
  ∀ r, res_record h (k_resources k) = Some r → rr_owner_context r = c → rr_state r = Released.

Lemma shrinks_gone c h k k' : shrinks k k' → gone c h k → gone c h k'.
Proof.
  intros [S _] G r' (r & Hr & O & _ & St)%S Ho. apply St, G; [done|congruence].
Qed.

Lemma release_one_result rec fs h k :
  ∃ fs', (run (release_one rec fs h) k).1 = fs ++ fs' ∧
    (fs' = [] → gone (cr_context rec) h (run (release_one rec fs h) k).2).
Proof.
  assert (Done : (∀ r, res_record h (k_resources k) = Some r → rr_is_active r = true →
      rr_owner_context r ≠ cr_context rec) → gone (cr_context rec) h k).
  { intros D r Hr Ho. destruct (rr_state_dec r) as [A|A]; [|done].
    exfalso. apply (D r Hr); [|done]. unfold rr_is_active. by rewrite A. }
  unfold release_one. run_simpl. destruct (res_record h (k_resources k)) as [r|] eqn:Hr; cycle 1.
  { exists []. rewrite app_nil_r. split; [done|]. intros _. apply Done. congruence. }
  destruct (rr_is_active r) eqn:Ha; cbn [negb]; cycle 1.
  { exists []. rewrite app_nil_r. split; [done|]. intros _. apply Done. congruence. }
  destruct (rr_owner_context r =? cr_context rec)%N eqn:Ho; cbn [negb]; cycle 1.
  { exists []. rewrite app_nil_r. split; [done|]. intros _. apply Done. intros r' [= <-] _.
    by apply N.eqb_neq. }
  rewrite run_seq, run_begin_release. cbn [fst snd].
  unfold res_record in Hr. unfold rr_is_active in Ha. apply bool_decide_eq_true in Ha.
  assert (B : begin_release h (k_resources k) =
    match rr_kind r with
    | FailRelease label =>
        (Err (CleanupFailed h ("resource '" +:+ label +:+ "' refused release")), k_resources k)
    | _ => begin_release_claim h (k_resources k)
    end).
  { unfold begin_release, begin_release_check. rewrite Hr, Ha. by destruct (rr_kind r). }
  assert (C : ∃ cl t, begin_release_claim h (k_resources k) = (Ok cl, t) ∧
    records t !! h = Some (rr_release r)).
  { unfold begin_release_claim. rewrite Hr, Ha. cbn. eexists _, _. split; [reflexivity|].
    apply lookup_insert_eq. }
  destruct C as (cl & t & C & Ht). rewrite B, C.
  assert (G : ∃ fs', (run (do! unpublish (rc_kind cl) (cr_instance rec);
      do! on_resources (upd (finish_release cl)); Ret fs) (set_resources t k)).1 = fs ++ fs' ∧
    (fs' = [] → gone (cr_context rec) h (run (do! unpublish (rc_kind cl) (cr_instance rec);
      do! on_resources (upd (finish_release cl)); Ret fs) (set_resources t k)).2)).
  { exists []. rewrite app_nil_r. run_simpl. split; [done|]. intros _.
    assert (G0 : gone (cr_context rec) h (set_resources t k)).
    { intros r' Hr' _. cbn in Hr'. unfold res_record in Hr'. rewrite Ht in Hr'.
      by injection Hr' as <-. }
    pose proof (unpublish_shrinks (rc_kind cl) (cr_instance rec) (set_resources t k)) as S.
    pose proof (finish_release_shrinks cl (run (unpublish (rc_kind cl) (cr_instance rec))
      (set_resources t k)).2) as S'. rewrite run_on_resources in S'.
    eapply shrinks_gone; [exact S'|]. eapply shrinks_gone; [exact S|done]. }
  destruct (rr_kind r); try exact G.
  run_simpl. by eexists [_].
Qed.

Lemma release_all_result rec l fs k :
  ∃ fs', (run (for_fold l fs (release_one rec)) k).1 = fs ++ fs' ∧
    shrinks k (run (for_fold l fs (release_one rec)) k).2 ∧
    (fs' = [] → ∀ h, h ∈ l → gone (cr_context rec) h (run (for_fold l fs (release_one rec)) k).2).
Proof.
  revert fs k. induction l as [|h l IH]; intros fs k; cbn [for_fold].
  { exists []. rewrite app_nil_r. split_and!; [done..|]. intros _ h H%not_elem_of_nil. done. }
  rewrite run_seq. destruct (release_one_result rec fs h k) as (f1 & E1 & G1).
  pose proof (release_one_shrinks rec fs h k) as S1. rewrite E1.
  destruct (IH (fs ++ f1) (run (release_one rec fs h) k).2) as (f2 & E2 & S2 & G2).
  exists (f1 ++ f2). rewrite E2, app_assoc. split_and!; [done|by etrans|].
  intros [-> ->]%app_nil h' [->|H]%elem_of_cons; [|by apply G2].
  eapply shrinks_gone; [exact S2|]. by apply G1.
Qed.

Lemma release_resources_all rec k :
  res_core (k_resources k) → (run (release_context_resources rec) k).1 = [] →
  ∀ h, gone (cr_context rec) h (run (release_context_resources rec) k).2.
Proof.
  intros W. unfold release_context_resources. run_simpl. intros H h.
  destruct (release_all_result rec (reverse (handles_for (cr_context rec) (k_resources k))) [] k)
    as (f & E1 & S & G).
  rewrite E1 in H. cbn in H. specialize (G H). intros r Hr Ho.
  destruct (sh_records _ _ S _ _ Hr) as (r0 & Hr0 & O0 & _).
  apply (G h); [|done..]. apply elem_of_reverse. apply (rs_owner _ W h r0 Hr0). congruence.
Qed.

(** Contexts and resources stay, publications only disappear. *)
Definition quiet (k k' : Kernel) : Prop :=
  k_contexts k' = k_contexts k ∧ k_resources k' = k_resources k ∧ k_caps k' ⊆ k_caps k.

#[local] Instance quiet_refl : Reflexive quiet.
Proof. by intros k. Qed.

#[local] Instance quiet_trans : Transitive quiet.
Proof.
  intros k1 k2 k3 (A1 & B1 & C1) (A2 & B2 & C2). split_and!; [congruence..|]. by etrans.
Qed.

Lemma journal_quiet f kd a : frames quiet (journal f kd a).
Proof. intros k. by rewrite run_journal. Qed.

Lemma plugins_quiet {X} (f : gmap string Plugin → X * gmap string Plugin) :
  frames quiet (on_plugins f).
Proof. intros k. by rewrite run_on_plugins. Qed.

Lemma calls_quiet {X} (f : CallsTable → X * CallsTable) : frames quiet (on_calls f).
Proof. intros k. by rewrite run_on_calls. Qed.

Lemma bindings_quiet {X} (f : gmap string DepBinding → X * gmap string DepBinding) :
  frames quiet (on_dep_bindings f).
Proof. intros k. unfold on_dep_bindings. rewrite run_act. by destruct (f _). Qed.

Lemma hook_quiet ev : frames quiet (emit_hook ev).
Proof. intros k. unfold emit_hook. rewrite run_modify. cbn. by destruct (k_hook k). Qed.

Lemma unpublish_quiet kd i : frames quiet (unpublish kd i).
Proof.
  intros k. destruct kd; cbn [unpublish]; run_simpl; try done.
  split_and!; try done. apply revoke_cap_subseteq.
Qed.

Hint Resolve journal_quiet plugins_quiet calls_quiet bindings_quiet hook_quiet unpublish_quiet
  : matrix.

Ltac quiet_tac := repeat first [solve [eauto 2 with matrix] | frames_step].

(** The unpublication of one resource of the context. *)
Lemma unpublish_cap cap i k :
  ∀ e, k_caps (run (unpublish (Cap cap) i) k).2 !! cap = Some e → en_instance e ≠ i.
Proof.
  intros e. cbn [unpublish]. run_simpl. cbn. rewrite revoke_cap_lookup, decide_True by done.
  destruct (k_caps k !! cap) as [e'|]; [|done]. cbn.
  destruct (en_instance e' =? i)%N eqn:H; cbn; [done|]. apply N.eqb_neq in H.
  destruct (en_instance e' =? 0)%N; [done|]. by intros [= <-].
Qed.

(** No capability of a resource in [l] resolves to the instance. *)
Definition unpublished (i : N) (rec : ContextRecord) (l : list N) (k k' : Kernel) : Prop :=
  ∀ h r cap, h ∈ l → res_record h (k_resources k) = Some r →
    rr_owner_context r = cr_context rec → rr_kind r = Cap cap →
    ∀ e, k_caps k' !! cap = Some e → en_instance e ≠ i.

Lemma unpublished_quiet i rec l k k' k'' :
  unpublished i rec l k k' → k_caps k'' ⊆ k_caps k' → unpublished i rec l k k''.
Proof. intros U S h r cap H1 H2 H3 H4 e He. eapply U; eauto. by eapply lookup_weaken. Qed.

Lemma revoke_publication_quiet rec i h : frames quiet (revoke_publication rec i h).
Proof. unfold revoke_publication. quiet_tac. Qed.

Lemma revoke_each i rec l k :
  let k' := (run (for_each l (revoke_publication rec i)) k).2 in
  quiet k k' ∧ unpublished i rec l k k'.
Proof.
  revert k. induction l as [|h l IH]; intros k.
  { split; [done|]. by intros h r cap H%not_elem_of_nil. }
  cbn [for_each]. rewrite run_seq. set (k1 := (run (revoke_publication rec i h) k).2) in *.
  pose proof (revoke_publication_quiet rec i h k) as Q.
  destruct (IH k1) as [Q' U]. split; [by etrans|].
  intros h' r cap [->|Hh]%elem_of_cons Hr Ho Hk.
  - apply (unpublished_quiet i rec [h] k k1) with (h := h) (r := r); [|apply Q'|left|done..].
    clear IH Q' U. intros h' r' cap' ->%list_elem_of_singleton Hr' Ho' Hk' e.
    unfold k1, revoke_publication. run_simpl. rewrite Hr', Ho', N.eqb_refl, Hk'. cbn [negb]. apply unpublish_cap.
  - apply (U h' r cap Hh); [|done..]. destruct Q as (_ & Q & _). unfold k1. by rewrite Q.
Qed.

(** Releasing resources leaves tickets and contexts alone. *)
Definition same_calls (k k' : Kernel) : Prop :=
  k_calls k' = k_calls k ∧ k_contexts k' = k_contexts k.

#[local] Instance same_calls_refl : Reflexive same_calls.
Proof. by intros k. Qed.

#[local] Instance same_calls_trans : Transitive same_calls.
Proof. intros k1 k2 k3 [] []. split; congruence. Qed.

Lemma release_resources_same rec : frames same_calls (release_context_resources rec).
Proof.
  unfold release_context_resources, release_one. repeat frames_step.
  - intros k. by rewrite run_begin_release.
  - intros k. unfold unpublish. by destruct (rc_kind _); run_simpl.
  - intros k. by rewrite run_on_resources.
Qed.

Lemma release_resources_shrinks rec : frames shrinks (release_context_resources rec).
Proof.
  unfold release_context_resources. repeat frames_step. apply release_one_shrinks.
Qed.

Lemma dispose_pending_not_disposed rc rec i k k' :
  pending_count i (k_calls k) ≠ 0 → run (dispose_pending rc rec i) k ≠ (OutDisposed, k').
Proof.
  intros N. unfold dispose_pending, journal_cleanup_pending, update_plugin_of, update_plugin.
  run_simpl. cbn [k_calls journalled set_journal set_plugins set_contexts].
  destruct (pending_count i (k_calls k)); [done|]. cbn [Nat.eqb]. run_simpl. cbn.
  unfold get_by_instance. cbn. rewrite lookup_alter, decide_True by done.
  destruct (by_instance (k_contexts k) !! i); cbn; run_simpl; done.
Qed.

Lemma dispose_tail_disposed rc rec i k k' r :
  res_core (k_resources k) → get_by_instance i (k_contexts k) = Some r →
  run (let! n := read (λ k, pending_count i (k_calls k)) in
       if 0 <? n then dispose_pending rc rec i else dispose_release rec i) k = (OutDisposed, k') →
  pending_count i (k_calls k') = 0 ∧ shrinks k k' ∧ (∀ h, gone (cr_context rec) h k') ∧
  get_by_instance i (k_contexts k') = Some (with_state_cause Disposed None r).
Proof.
  intros W Hr. run_simpl. destruct (0 <? _) eqn:L.
  { intros H. exfalso. eapply dispose_pending_not_disposed; [|exact H]. apply Nat.ltb_lt in L. lia. }
  apply Nat.ltb_ge in L. unfold dispose_release, update_plugin_of, update_plugin,
    journal_cleanup_pending. rewrite run_seq.
  pose proof (release_resources_same rec k) as [C X].
  pose proof (release_resources_all rec k W) as G.
  pose proof (release_resources_shrinks rec k) as S.
  destruct (run (release_context_resources rec) k) as [fs k1]. cbn [fst snd] in *.
  case_bool_decide as Hf; run_simpl; [|done]. intros [= <-].
  specialize (G Hf). split_and!.
  - cbn. rewrite C. lia.
  - destruct S. by split.
  - exact G.
  - cbn. unfold get_by_instance in *. cbn. rewrite lookup_alter, decide_True, X, Hr by done. done.
Qed.

(** The guarantees of a program that reports [Disposed] from a state where the
    record of the instance is [r]. *)
Definition disposes (rec : ContextRecord) (i : N) (r : ContextRecord)
    (p : kprog DisposeOutcome) : Prop :=
  ∀ k k', res_core (k_resources k) → get_by_instance i (k_contexts k) = Some r →
    run p k = (OutDisposed, k') →
    pending_count i (k_calls k') = 0 ∧ shrinks k k' ∧ (∀ h, gone (cr_context rec) h k') ∧
    get_by_instance i (k_contexts k') = Some (with_state_cause Disposed None r).

Lemma quiet_shrinks k k' : quiet k k' → shrinks k k'.
Proof. intros (_ & R & C). split; [|done]. rewrite R. eauto. Qed.

Lemma disposes_bind {A} rec i r (p : kprog A) f :
  frames quiet p → (∀ a, disposes rec i r (f a)) → disposes rec i r (bind p f).
Proof.
  intros P F k k' W Hr. rewrite run_seq. destruct (P k) as (C & R & S). intros H.
  apply F in H as (H1 & H2 & H3 & H4); [|by rewrite R|by rewrite C].
  split_and!; try done. etrans; [|exact H2]. by apply quiet_shrinks.
Qed.

Lemma drain_wait_quiet i d : frames quiet (drain_wait i d).
Proof.
  destruct d as [u|]; [|by intros k]. unfold drain_wait. quiet_tac.
  intros k. unfold run. destruct (_ =? 0); [done|]. by destruct (_ <? _)%N.
Qed.

Lemma prune_quiet i : frames quiet (prune_dep_bindings i).
Proof. unfold prune_dep_bindings. quiet_tac. Qed.

(** From the withdrawal of the tickets to the outcome. *)
Lemma dispose_drained_disposed rec i r :
  disposes rec i r (
    let! now := read k_now in
    let! pending := read (λ k, pending_for i (k_calls k)) in
    let! drain := for_fold pending None (withdraw_ticket rec now) in
    do! drain_wait i drain;
    let! children := on_calls (revoke_children_of_consumer i "consumer-withdraw") in
    do! for_each children (journal_cancelled "consumer-withdraw");
    do! expire_drains rec;
    let! n := read (λ k, pending_count i (k_calls k)) in
    if 0 <? n then dispose_pending (Ret tt) rec i else dispose_release rec i).
Proof.
  unfold withdraw_ticket, expire_drains, revoke_ticket_descendants, journal_cancelled.
  repeat first [intros k k' W Hr H; by eapply dispose_tail_disposed | apply drain_wait_quiet
    | solve [eauto 2 with matrix] | frames_step
    | match goal with |- disposes _ _ _ _ => apply disposes_bind; [|intros] end].
Qed.

(** Everything between the claim and the outcome. *)
Lemma dispose_claimed_disposed rec i k k' r :
  res_core (k_resources k) → get_by_instance i (k_contexts k) = Some r →
  run (dispose_claimed (Ret tt) rec i) k = (OutDisposed, k') →
  pending_count i (k_calls k') = 0 ∧ (∀ h, gone (cr_context rec) h k') ∧
  unpublished i rec (handles_for (cr_context rec) (k_resources k)) k k' ∧
  get_by_instance i (k_contexts k') = Some (with_state_cause Disposed None r).
Proof.
  intros W Hr. unfold dispose_claimed. do 3 rewrite run_seq.
  set (k1 := (run (update_plugin_of _ _ _) k).2). set (k2 := (run (prune_dep_bindings i) k1).2).
  set (k3 := (run (emit_hook _) k2).2).
  assert (Q3 : quiet k k3).
  { trans k1; [refine (plugins_quiet _ k)|]. trans k2; [apply prune_quiet|apply hook_quiet]. }
  clearbody k3. clear k1 k2. destruct Q3 as (C3 & R3 & S3).
  rewrite run_seq. unfold revoke_publications. run_simpl. rewrite R3.
  destruct (revoke_each i rec (handles_for (cr_context rec) (k_resources k)) k3) as [Q4 U4].
  set (k4 := (run (for_each _ _) k3).2) in *. clearbody k4. destruct Q4 as (C4 & R4 & S4).
  intros H. destruct (dispose_drained_disposed rec i r k4 k') as (H1 & H2 & H3 & H4).
  - by rewrite R4, R3.
  - by rewrite C4, C3.
  - run_simpl. exact H.
  - split_and!; try done. apply (unpublished_quiet i rec _ k k4); [|by destruct H2].
    intros h r' cap Hh Hr'. apply (U4 h r' cap Hh). by rewrite R3.
Qed.

(** C27: a disposal that reports [Disposed] is complete. No ticket of the instance
    is in flight, its context is [Disposed], every resource of its context is
    released, and no capability it had registered resolves to it. *)
Theorem dispose_complete (rc : kprog unit) (i : N) (k k' : Kernel) (r : ContextRecord) :
  kernel_inv k → get_by_instance i (k_contexts k) = Some r →
  run (dispose_instance_inner rc i) k = (OutDisposed, k') →
  pending_count i (k_calls k') = 0 ∧
  get_by_instance i (k_contexts k') = Some (with_state_cause Disposed None r) ∧
  (∀ h res, res_record h (k_resources k') = Some res → rr_owner_context res = cr_context r →
    rr_state res = Released) ∧
  (∀ h res cap e, res_record h (k_resources k) = Some res → rr_owner_context res = cr_context r →
    rr_kind res = Cap cap → k_caps k' !! cap = Some e → en_instance e ≠ i).
Proof.
  intros I Hr. rewrite (dispose_rc rc (Ret tt) i k). unfold dispose_instance_inner. run_simpl.
  rewrite Hr. destruct (canonical (cr_state r)); try done.
  all: run_simpl.
  all: destruct (claim_dispose i (k_contexts k)) as [[[rec|l]|e] t] eqn:Hc; try done.
  all: cbn [fst snd]; intros H.
  all: pose proof (claim_dispose_fresh_state i _ _ _ Hc) as Ht.
  all: apply (f_equal fst), claim_fresh_record in Hc as (r' & Hr' & ->).
  all: unfold get_by_instance in Hr; rewrite Hr in Hr'; injection Hr' as <-.
  all: apply (dispose_claimed_disposed _ _ _ _ (with_state_cause Quiescing None r)) in H
    as (P & G & U & X); [|apply (ki_res _ I)|exact Ht].
  all: split_and!; [exact P|exact X|intros; by eapply G|].
  all: intros h res cap e Hres Ho Hk; apply (U h res cap); [|done..].
  all: apply (rs_owner _ (ki_res _ I) h res Hres); by rewrite Ho.
Qed.
(** ** When a disposal succeeds *)

(** Resources that refuse their release stay as they are. *)
Definition stubborn (k k' : Kernel) : Prop :=
  ∀ h r l, res_record h (k_resources k) = Some r → rr_kind r = FailRelease l →
    res_record h (k_resources k') = Some r.

#[local] Instance stubborn_refl : Reflexive stubborn.
Proof. by intros k h r l. Qed.

#[local] Instance stubborn_trans : Transitive stubborn.
Proof. intros k1 k2 k3 A B h r l Hr Hl. eauto. Qed.

Lemma begin_release_stubborn h : frames stubborn (begin_release_prog h).
Proof.
  intros k h' r l Hr Hl. rewrite run_begin_release. cbn. unfold res_record in *.
  destruct (decide (h' = h)) as [->|N]; [|by rewrite begin_release_other].
  unfold begin_release, begin_release_check. rewrite Hr, Hl.
  by destruct (rr_state r).
Qed.

Lemma finish_release_stubborn cl : frames stubborn (on_resources (upd (finish_release cl))).
Proof.
  intros k h r l Hr _. rewrite run_on_resources. cbn. unfold res_record in *.
  by rewrite finish_release_records.
Qed.

Lemma unpublish_stubborn kd i : frames stubborn (unpublish kd i).
Proof.
  intros k h r l Hr _. destruct (unpublish_quiet kd i k) as (_ & -> & _). exact Hr.
Qed.

Lemma release_resources_stubborn rec : frames stubborn (release_context_resources rec).
Proof.
  unfold release_context_resources, release_one.
  repeat first [apply begin_release_stubborn | apply finish_release_stubborn
    | apply unpublish_stubborn | frames_step].
Qed.

(** No unreleased resource of the context refuses its release. *)
Definition no_refusal (c : N) (k : Kernel) : Prop :=
  ∀ h r l, res_record h (k_resources k) = Some r → rr_owner_context r = c →
    rr_kind r = FailRelease l → rr_state r = Released.

Lemma shrinks_no_refusal c k k' : shrinks k k' → no_refusal c k → no_refusal c k'.
Proof.
  intros [S _] N h r' l (r & Hr & O & K & St)%S Ho Hk. apply St. apply (N h r l); congruence.
Qed.

Lemma begin_release_active h t r :
  records t !! h = Some r → rr_state r = ResActive → (∀ l, rr_kind r ≠ FailRelease l) →
  ∃ cl t', begin_release h t = (Ok cl, t').
Proof.
  intros Hr Ha N.
  assert (C : ∃ cl t', begin_release_claim h t = (Ok cl, t')).
  { unfold begin_release_claim. rewrite Hr, Ha. cbn. eauto. }
  destruct C as (cl & t' & C). exists cl, t'. rewrite <- C.
  unfold begin_release, begin_release_check. rewrite Hr, Ha.
  destruct (rr_kind r); try done. destruct (N _ eq_refl).
Qed.

Lemma release_one_no_refusal rec fs h k :
  no_refusal (cr_context rec) k → (run (release_one rec fs h) k).1 = fs.
Proof.
  intros N. unfold release_one. run_simpl.
  destruct (res_record h (k_resources k)) as [r|] eqn:Hr; [|done].
  destruct (rr_is_active r) eqn:Ha; cbn [negb]; [|done].
  destruct (rr_owner_context r =? cr_context rec)%N eqn:Ho; cbn [negb]; [|done].
  rewrite run_seq, run_begin_release. cbn [fst snd]. apply N.eqb_eq in Ho.
  unfold rr_is_active in Ha. apply bool_decide_eq_true in Ha. unfold res_record in Hr.
  destruct (begin_release_active h _ _ Hr Ha) as (cl & t & ->); [|by run_simpl].
  intros l Hk. rewrite (N h r l Hr Ho Hk) in Ha. done.
Qed.

Lemma release_resources_result rec k :
  res_core (k_resources k) →
  (run (release_context_resources rec) k).1 = [] ↔ no_refusal (cr_context rec) k.
Proof.
  intros W. split.
  - intros H h r l Hr Ho Hk.
    apply (release_resources_all rec k W H h r); [|done].
    by apply (release_resources_stubborn rec k h r l).
  - intros N. unfold release_context_resources. run_simpl.
    generalize (reverse (handles_for (cr_context rec) (k_resources k))). intros l.
    clear W. revert k N. induction l as [|h l IH]; intros k N; cbn [for_fold]; [done|].
    rewrite run_seq, release_one_no_refusal by done. apply IH.
    eapply shrinks_no_refusal; [apply release_one_shrinks|done].
Qed.

(** The tickets keep their instances: nothing is admitted, nothing removed. *)
Definition same_holders (k k' : Kernel) : Prop :=
  k_contexts k' = k_contexts k ∧ k_resources k' = k_resources k ∧
  tk_instance <$> tickets (k_calls k') = tk_instance <$> tickets (k_calls k).

#[local] Instance same_holders_refl : Reflexive same_holders.
Proof. by intros k. Qed.

#[local] Instance same_holders_trans : Transitive same_holders.
Proof. intros k1 k2 k3 (A1 & B1 & C1) (A2 & B2 & C2). split_and!; congruence. Qed.

Lemma length_filter_perm {A} (f : A → bool) l l' :
  l ≡ₚ l' → length (List.filter f l) = length (List.filter f l').
Proof. induction 1; cbn; repeat case_match; cbn; congruence. Qed.

Lemma pending_count_holders i t t' :
  tk_instance <$> tickets t' = tk_instance <$> tickets t → pending_count i t' = pending_count i t.
Proof.
  assert (E' : ∀ t, pending_count i t =
    length (List.filter (λ j, (j =? i)%N) (map_to_list (tk_instance <$> tickets t)).*2)).
  { intros u. unfold pending_count, values_where. generalize (tickets u). intros m.
    transitivity (length (List.filter (λ j, (j =? i)%N) (tk_instance <$> (map_to_list m).*2))).
    - induction (map_to_list m) as [|[id r] l IH]; cbn; [done|]. destruct (_ =? i)%N; cbn; auto.
    - apply length_filter_perm. by rewrite map_to_list_fmap, <- !list_fmap_compose. }
  intros H. by rewrite !E', H.
Qed.

Lemma holders_insert (m : gmap N TicketRecord) id r r' :
  m !! id = Some r → tk_instance r' = tk_instance r →
  tk_instance <$> <[id := r']> m = tk_instance <$> m.
Proof.
  intros Hr E'. apply map_eq. intros j. rewrite !lookup_fmap, lookup_insert.
  destruct (decide (id = j)) as [<-|]; [|done]. rewrite Hr. cbn. congruence.
Qed.

Lemma holders_stop (m : gmap N TicketRecord) (sel : TicketRecord → bool) st reason :
  tk_instance <$> ((λ r, if sel r then tk_stop st reason r else r) <$> m) = tk_instance <$> m.
Proof.
  rewrite <- map_fmap_compose. apply map_fmap_ext. intros j r _. cbn. by destruct (sel r).
Qed.

Lemma calls_holders {X} (f : CallsTable → X * CallsTable) :
  (∀ t, tk_instance <$> tickets (f t).2 = tk_instance <$> tickets t) →
  frames same_holders (on_calls f).
Proof. intros H k. rewrite run_on_calls. by split_and!; cbn. Qed.

Lemma cancel_holders id reason : frames same_holders (on_calls (cancel id reason)).
Proof.
  apply calls_holders. intros t. unfold cancel. destruct (tickets t !! id) as [r|] eqn:Hr; [|done].
  destruct (is_open r); [|done]. by apply (holders_insert _ _ _ _ Hr).
Qed.

Lemma drain_holders id u : frames same_holders (on_calls (set_drain_until id u)).
Proof.
  apply calls_holders. intros t. unfold set_drain_until.
  destruct (tickets t !! id) as [r|] eqn:Hr; [|done].
  destruct (is_open r); [|done]. by apply (holders_insert _ _ _ _ Hr).
Qed.

Lemma revoke_consumer_holders i reason :
  frames same_holders (on_calls (revoke_children_of_consumer i reason)).
Proof. apply calls_holders. intros t. apply holders_stop. Qed.

Lemma revoke_descendants_holders id reason :
  frames same_holders (on_calls (revoke_descendants id reason)).
Proof. apply calls_holders. intros t. apply holders_stop. Qed.

Lemma expire_holders now : frames same_holders (on_calls (expire_overdue now)).
Proof. apply calls_holders. intros t. apply holders_stop. Qed.

Lemma journal_holders f kd a : frames same_holders (journal f kd a).
Proof. intros k. by rewrite run_journal. Qed.

Lemma plugins_holders {X} (f : gmap string Plugin → X * gmap string Plugin) :
  frames same_holders (on_plugins f).
Proof. intros k. by rewrite run_on_plugins. Qed.

Lemma bindings_holders {X} (f : gmap string DepBinding → X * gmap string DepBinding) :
  frames same_holders (on_dep_bindings f).
Proof. intros k. unfold on_dep_bindings. rewrite run_act. by destruct (f _). Qed.

Lemma hook_holders ev : frames same_holders (emit_hook ev).
Proof. intros k. unfold emit_hook. rewrite run_modify. cbn. by destruct (k_hook k). Qed.

Lemma unpublish_holders kd i : frames same_holders (unpublish kd i).
Proof. intros k. destruct kd; cbn [unpublish]; run_simpl; done. Qed.

Lemma drain_wait_holders i d : frames same_holders (drain_wait i d).
Proof.
  destruct d as [u|]; [|by intros k]. unfold drain_wait. repeat frames_step.
  intros k. unfold run. destruct (_ =? 0); [done|]. by destruct (_ <? _)%N.
Qed.

Hint Resolve cancel_holders drain_holders revoke_consumer_holders revoke_descendants_holders
  expire_holders journal_holders plugins_holders bindings_holders hook_holders unpublish_holders
  drain_wait_holders : matrix.

(** The outcome is decided by the tickets and the resources the instance has when
    the disposal starts. *)
Definition decides (i : N) (rec : ContextRecord) (p : kprog DisposeOutcome) : Prop :=
  ∀ k, res_core (k_resources k) →
    (run p k).1 = OutDisposed ↔
      pending_count i (k_calls k) = 0 ∧ no_refusal (cr_context rec) k.

Lemma decides_bind {A} i rec (p : kprog A) f :
  frames same_holders p → (∀ a, decides i rec (f a)) → decides i rec (bind p f).
Proof.
  intros P F k W. rewrite run_seq. destruct (P k) as (_ & R & H).
  etrans; [apply F; by rewrite R|]. unfold no_refusal.
  by rewrite R, (pending_count_holders i _ _ H).
Qed.

Lemma dispose_tail_decides i rec :
  decides i rec (let! n := read (λ k, pending_count i (k_calls k)) in
    if 0 <? n then dispose_pending (Ret tt) rec i else dispose_release rec i).
Proof.
  intros k W. run_simpl. destruct (0 <? _) eqn:L.
  - apply Nat.ltb_lt in L. split; [|lia]. intros H. exfalso.
    eapply dispose_pending_not_disposed; [|apply run_result, H]. lia.
  - apply Nat.ltb_ge in L. unfold dispose_release, update_plugin_of, update_plugin. rewrite run_seq.
    rewrite <- (release_resources_result rec k W).
    destruct (run (release_context_resources rec) k) as [fs k1]. cbn [fst snd].
    case_bool_decide; run_simpl; [|naive_solver]. split; [|done]. intros _. split; [lia|done].
Qed.

Lemma dispose_claimed_decides i rec : decides i rec (dispose_claimed (Ret tt) rec i).
Proof.
  unfold dispose_claimed, update_plugin_of, update_plugin, prune_dep_bindings,
    revoke_publications, revoke_publication, withdraw_ticket, expire_drains,
    revoke_ticket_descendants, journal_cancelled.
  repeat first [apply dispose_tail_decides | solve [eauto 2 with matrix] | frames_step
    | match goal with |- decides _ _ (bind _ _) => apply decides_bind; [|intros] end].
Qed.

(** C28: when a disposal succeeds. Executed alone, the disposal of an instance
    reports [Disposed] exactly when the instance was live and no other disposal
    had claimed it, no ticket of the instance was in flight, and no unreleased
    resource of its context refuses its release. *)
Theorem dispose_succeeds_iff (rc : kprog unit) (i : N) (k : Kernel) (r : ContextRecord) :
  kernel_inv k → get_by_instance i (k_contexts k) = Some r →
  (run (dispose_instance_inner rc i) k).1 = OutDisposed ↔
  canonical (cr_state r) ∈ [Registered; Waiting; Preparing; Active] ∧
  pending_count i (k_calls k) = 0 ∧ no_refusal (cr_context r) k.
Proof.
  intros I Hr. rewrite (dispose_rc rc (Ret tt) i k). unfold dispose_instance_inner. run_simpl.
  rewrite Hr. unfold get_by_instance in Hr. unfold claim_dispose.
  destruct (cr_state r) eqn:C; cbn [canonical]; run_simpl; rewrite ?Hr, ?C; cbn [canonical fst snd].
  all: try (split; [done|]; intros [H _]; set_solver).
  all: etrans; [apply dispose_claimed_decides, (ki_res _ I)|].
  all: cbn; split; [intros H; split; [set_solver|exact H]|by intros [_ H]].
Qed.
End env.

(** Disposing of [store], the second instance, spares [app]. *)
Lemma dispose_spares_others_witness :
  ∃ r, get_by_instance 2 (k_contexts demo_loaded) = Some r ∧
    spares 2 (cr_context r) demo_loaded (run (dispose_instance_inner (Ret tt) 2) demo_loaded).2.
Proof.
  destruct (get_by_instance 2 (k_contexts demo_loaded)) as [r|] eqn:H;
    [|exfalso; revert H; vm_compute; congruence].
  exists r. split; [done|]. apply (dispose_spares_others (Ret tt) 2); [demo_inv|exact H].
Defined.

(** [store] is active, has no ticket and no resource that refuses its release. *)
Lemma dispose_succeeds_iff_witness :
  ∃ r, get_by_instance 2 (k_contexts demo_loaded) = Some r ∧
    no_refusal (cr_context r) demo_loaded.
Proof.
  destruct (get_by_instance 2 (k_contexts demo_loaded)) as [r|] eqn:H;
    [|exfalso; revert H; vm_compute; congruence].
  exists r. split; [done|]. apply (dispose_succeeds_iff (Ret tt) 2 demo_loaded r);
    [demo_inv|exact H|vm_compute; reflexivity].
Defined.

(** Disposing of [store] completes. *)
Lemma dispose_complete_witness :
  ∃ k', run (dispose_instance_inner (Ret tt) 2) demo_loaded = (OutDisposed, k') ∧
    pending_count 2 (k_calls k') = 0.
Proof.
  set (k' := (run (dispose_instance_inner (Ret tt) 2) demo_loaded).2).
  assert (D : run (dispose_instance_inner (Ret tt) 2) demo_loaded = (OutDisposed, k')).
  { unfold k'. apply run_result. vm_compute. reflexivity. }
  destruct (get_by_instance 2 (k_contexts demo_loaded)) as [r|] eqn:H;
    [|exfalso; revert H; vm_compute; congruence].
  exists k'. split; [done|].
  apply (dispose_complete (Ret tt) 2 demo_loaded k' r); [demo_inv|exact H|exact D].
Defined.

(** ** Interleavings that break what each method guarantees alone

    Concrete schedules of a few threads on the small deployment. *)

(** All threads returned. *)
Definition all_done (ps : list (kprog unit)) : Prop := ∀ p, p ∈ ps → is_Some (outcome p).

(** The threads [ops] on [k], under the schedule. *)
Definition race (sched : list nat) (ops : list KernelOp) (k : Kernel) : list (kprog unit) * Kernel :=
  exec sched (kop_prog <$> ops, k).

Lemma all_done_check ps : forallb (λ p, is_some (outcome p)) ps = true → all_done ps.
Proof.
  intros H p Hp. rewrite forallb_forall in H. apply list_elem_of_In in Hp. specialize (H p Hp).
  destruct (outcome p); [by eexists|done].
Qed.

(** The first thread runs [n] steps, then the second to its end, then the first. *)
Definition preempt (n : nat) : list nat := repeat 0 n ++ repeat 1 200 ++ repeat 0 50.

Lemma race_reachable sched ops k P :
  forallb (λ p, is_some (outcome p)) (race sched ops k).1 = true → P (race sched ops k).2 →
  ∃ ps k', rtc pool_step (kop_prog <$> ops, k) (ps, k') ∧ all_done ps ∧ P k'.
Proof.
  intros D H. exists (race sched ops k).1, (race sched ops k).2.
  split; [apply exec_rtc|]. split; [by apply all_done_check|done].
Qed.

(** two concurrent commits of one ticket can both be applied. [commit_effect]
    reads the ticket, checks it, appends the effect and marks the ticket in
    separate critical sections: with ticket 1 open and no effect recorded, two
    threads that commit it can both return with one effect each in the ledger. *)
Theorem commit_race_doubles :
  effects (k_calls demo_called) = [] ∧
  ∃ ps k', rtc pool_step (kop_prog <$> [KCommit 1 "w" JNull; KCommit 1 "w" JNull], demo_called)
             (ps, k') ∧
    all_done ps ∧ ef_ticket <$> effects (k_calls k') = [1%N; 1%N].
Proof.
  split; [vm_compute; reflexivity|].
  apply (race_reachable (preempt 1)); vm_compute; reflexivity.
Qed.

(** an acquisition that races with the disposal of its owner can leave a
    thread behind. [register] records the resource and attaches its thread in two
    critical sections; when the disposal releases the record between them, the
    rollback of the acquisition finds a released record and stops nothing: the
    context is [Disposed], the resource [Released], and its timer runs on. *)
Theorem acquire_race_leaks_timer :
  ∃ ps k', rtc pool_step
      (kop_prog <$> [KAcquire "app" (Timer "t" 5); KDisposeInstance 1], demo_loaded) (ps, k') ∧
    all_done ps ∧
    (cr_state <$> get_by_instance 1 (k_contexts k')) = Some Disposed ∧
    (rr_owner_instance <$> res_record 3 (k_resources k')) = Some 1%N ∧
    (rr_state <$> res_record 3 (k_resources k')) = Some Released ∧
    (th_cancel <$> threads (k_resources k') !! 3%N) = Some false ∧
    (th_done <$> threads (k_resources k') !! 3%N) = Some false.
Proof.
  apply (race_reachable (preempt 3)); vm_compute; [reflexivity|by split_and!].
Qed.

(** [reset_bench] can revive a disposed instance. It marks the contexts of a
    snapshot that were active as active again, without revalidation: when one of
    them is disposed of in between, its released context ends [Active]. *)
Theorem reset_bench_revives :
  ∃ ps k', rtc pool_step (kop_prog <$> [KResetBench; KDisposeInstance 1], demo_loaded) (ps, k') ∧
    all_done ps ∧
    (cr_state <$> get_by_instance 1 (k_contexts k')) = Some Active ∧
    (rr_owner_instance <$> res_record 2 (k_resources k')) = Some 1%N ∧
    (rr_state <$> res_record 2 (k_resources k')) = Some Released.
Proof.
  apply (race_reachable (preempt 5)); vm_compute; [reflexivity|by split_and!].
Qed.
