(* ===== verification/Utf8.v ===== *)
(** * UTF-8 ([std::str::from_utf8], [char])

    The validation of the standard library, with the position and length of the
    first error; the length of a character; the encoding of a code point. *)

From S2P Require Import Prelude RustStd.
From Stdlib Require Import Ascii.

Definition in_range (lo hi : N) (a : ascii) : bool :=
  let n := N_of_ascii a in (lo <=? n)%N && (n <=? hi)%N.

(** [b as i8 < -64]. *)
Definition is_cont : ascii → bool := in_range 128 191.

(** The second byte of a sequence of three or four is restricted by the first. *)
Definition second_ok (first second : ascii) : bool :=
  let n := N_of_ascii first in
  if (n =? 224)%N then in_range 160 191 second
  else if (n =? 237)%N then in_range 128 159 second
  else if (n =? 240)%N then in_range 144 191 second
  else if (n =? 244)%N then in_range 128 143 second
  else is_cont second.

(** [UTF8_CHAR_WIDTH]; [0] for a byte that starts no character. *)
Definition char_width (first : ascii) : nat :=
  if in_range 0 127 first then 1
  else if in_range 194 223 first then 2
  else if in_range 224 239 first then 3
  else if in_range 240 244 first then 4
  else 0.

(** The character at the head: its length, or the [error_len] of the failure
    ([None]: the input ends inside the character). *)
Definition utf8_head (l : bytes) : result nat (option nat) :=
  match l with
  | [] => Err None
  | a :: l =>
      match char_width a with
      | 0 => Err (Some 1)
      | 1 => Ok 1
      | 2 =>
          match l with
          | [] => Err None
          | b :: _ => if is_cont b then Ok 2 else Err (Some 1)
          end
      | w =>
          match l with
          | [] => Err None
          | b :: l =>
              if negb (second_ok a b) then Err (Some 1)
              else
                match l with
                | [] => Err None
                | c :: l =>
                    if negb (is_cont c) then Err (Some 2)
                    else if w =? 3 then Ok 3
                    else
                      match l with
                      | [] => Err None
                      | d :: _ => if is_cont d then Ok 4 else Err (Some 3)
                      end
                end
          end
      end
  end.

(** [from_utf8]: [valid_up_to] and [error_len] of the first error. *)
Fixpoint utf8_error (fuel at_ : nat) (l : bytes) : option (nat * option nat) :=
  match fuel, l with
  | O, _ | _, [] => None
  | S fuel, _ =>
      match utf8_head l with
      | Ok n => utf8_error fuel (at_ + n) (drop n l)
      | Err e => Some (at_, e)
      end
  end.

Definition from_utf8 (l : bytes) : result unit (nat * option nat) :=
  match utf8_error (length l) 0 l with None => Ok tt | Some e => Err e end.

(** [Display] of [Utf8Error]. *)
Definition utf8_error_display (e : nat * option nat) : string :=
  match e.2 with
  | Some n => "invalid utf-8 sequence of " +:+ display (N.of_nat n) +:+ " bytes from index "
              +:+ display (N.of_nat e.1)
  | None => "incomplete utf-8 byte sequence from index " +:+ display (N.of_nat e.1)
  end.

(** [char::from_u32]: surrogates and numbers past [10FFFF] are no characters. *)
Definition is_char (cp : N) : bool :=
  ((cp <? 55296) || (57343 <? cp))%N && (cp <=? 1114111)%N.

(** [String::push]: the encoding of a code point. *)
Definition encode_utf8 (cp : N) : bytes :=
  if (cp <? 128)%N then [byte cp]
  else if (cp <? 2048)%N then [byte (192 + cp / 64); byte (128 + cp mod 64)]%N
  else if (cp <? 65536)%N then
    [byte (224 + cp / 4096); byte (128 + cp / 64 mod 64); byte (128 + cp mod 64)]%N
  else
    [byte (240 + cp / 262144); byte (128 + cp / 4096 mod 64); byte (128 + cp / 64 mod 64);
     byte (128 + cp mod 64)]%N.

(** The digits of [u32::from_str_radix(_, 16)]. *)
Definition hex_value (a : ascii) : option N :=
  let n := N_of_ascii a in
  if in_range 48 57 a then Some (n - 48)%N
  else if in_range 97 102 a then Some (n - 87)%N
  else if in_range 65 70 a then Some (n - 55)%N
  else None.

Fixpoint hex_digits (acc : N) (l : bytes) : option N :=
  match l with
  | [] => Some acc
  | a :: l => d ← hex_value a; hex_digits (acc * 16 + d)%N l
  end.

(** [u32::from_str_radix(s, 16)] on at most eight digits: an optional [+] and at
    least one digit. *)
Definition parse_hex (l : bytes) : option N :=
  match l with
  | [] => None
  | a :: l' =>
      if bool_decide (a = "+"%char) then match l' with [] => None | _ => hex_digits 0 l' end
      else hex_digits 0 l
  end.

(** ** Lemmas *)

Lemma utf8_head_bound l n : utf8_head l = Ok n → 1 ≤ n ≤ length l.
Proof.
  unfold utf8_head. destruct l as [|a [|b [|c [|d l]]]]; try done.
  all: destruct (char_width a) as [|[|[|[|]]]]; try done.
  all: repeat (case_match; try done); intros [= <-]; cbn; lia.
Qed.

(** Valid UTF-8 as the sequence of its characters. *)
Inductive utf8 : bytes → Prop :=
| utf8_nil : utf8 []
| utf8_char c l : utf8_head (c ++ l) = Ok (length c) → utf8 l → utf8 (c ++ l).
