(* ===== verification/Wire.v ===== *)
(** * Wire errors ([matrix-proto/src/error.rs]) *)

From S2P Require Import Prelude Json.

Definition INVALID_MESSAGE : string := "invalid-message".
Definition UNSUPPORTED_VERSION : string := "unsupported-version".
Definition UNAUTHENTICATED : string := "unauthenticated".
Definition PERMISSION_DENIED : string := "permission-denied".
Definition DEPENDENCY_UNAVAILABLE : string := "dependency-unavailable".
Definition AMBIGUOUS_PROVIDER : string := "ambiguous-provider".
Definition STALE_GENERATION : string := "stale-generation".
Definition CONTEXT_NOT_ACTIVE : string := "context-not-active".
Definition RESOURCE_EXHAUSTED : string := "resource-exhausted".
Definition DEADLINE_EXCEEDED : string := "deadline-exceeded".
Definition CANCELLED : string := "cancelled".
Definition CLEANUP_PENDING : string := "cleanup-pending".
Definition OUTCOME_UNKNOWN : string := "outcome-unknown".
Definition INTERNAL : string := "internal".

(** The table of [kernel_code_to_wire]; the last arm of the source is its default. *)
Definition wire_codes : list (list string * string) :=
  [ (["invalid-message"; "invalid-pin"], INVALID_MESSAGE);
    (["unsupported-version"], UNSUPPORTED_VERSION);
    (["unauthenticated"], UNAUTHENTICATED);
    (["permission-denied"], PERMISSION_DENIED);
    (["dependency-unavailable"], DEPENDENCY_UNAVAILABLE);
    (["ambiguous-provider"], AMBIGUOUS_PROVIDER);
    (["stale-generation"; "stale-handle"], STALE_GENERATION);
    (["no-such-capability"], INVALID_MESSAGE);
    (["context-not-active"; "plugin-not-active"; "plugin-not-loaded"], CONTEXT_NOT_ACTIVE);
    (["resource-exhausted"], RESOURCE_EXHAUSTED);
    (["deadline-exceeded"], DEADLINE_EXCEEDED);
    (["cancelled"], CANCELLED);
    (["cleanup-pending"], CLEANUP_PENDING);
    (["outcome-unknown"], OUTCOME_UNKNOWN) ].

Fixpoint wire_code_in (code : string) (t : list (list string * string)) : string :=
  match t with
  | [] => INTERNAL
  | (codes, wire) :: t => if bool_decide (code ∈ codes) then wire else wire_code_in code t
  end.

Definition kernel_code_to_wire (code : string) : string := wire_code_in code wire_codes.

Record WireError : Type := mkWireError {
  we_code : string;
  we_request_id : option string;
  we_phase : string;
  we_details : Value;
}.

Definition wire_error (code phase : string) : WireError := mkWireError code None phase JNull.

Definition with_request (id : string) (e : WireError) : WireError :=
  mkWireError (we_code e) (Some id) (we_phase e) (we_details e).

Definition with_details (d : Value) (e : WireError) : WireError :=
  mkWireError (we_code e) (we_request_id e) (we_phase e) d.

Definition wire_to_value (e : WireError) : Value :=
  obj [("code", JString (we_code e)); ("request_id", j_opt (JString <$> we_request_id e));
       ("phase", JString (we_phase e)); ("details", we_details e)].

(** The codes a peer can see. *)
Definition stable_codes : list string :=
  [INVALID_MESSAGE; UNSUPPORTED_VERSION; UNAUTHENTICATED; PERMISSION_DENIED;
   DEPENDENCY_UNAVAILABLE; AMBIGUOUS_PROVIDER; STALE_GENERATION; CONTEXT_NOT_ACTIVE;
   RESOURCE_EXHAUSTED; DEADLINE_EXCEEDED; CANCELLED; CLEANUP_PENDING; OUTCOME_UNKNOWN; INTERNAL].

(** Every kernel code is mapped into the stable set, and stable codes other than
    [internal] to themselves. *)
Lemma kernel_code_stable code :
  kernel_code_to_wire code ∈ stable_codes ∧
  (code ∈ stable_codes → kernel_code_to_wire code = code).
Proof.
  split.
  - unfold kernel_code_to_wire. assert (F : Forall (λ p, p.2 ∈ stable_codes) wire_codes).
    { unfold wire_codes. repeat constructor; apply (bool_decide_unpack _); vm_compute; done. }
    induction F as [|[cs w] t H _ IH]; cbn [wire_code_in].
    + apply (bool_decide_unpack _). vm_compute. done.
    + case_bool_decide; [exact H|exact IH].
  - assert (F : Forall (λ c, kernel_code_to_wire c = c) stable_codes)
      by (repeat constructor; vm_compute; reflexivity).
    rewrite Forall_forall in F. apply F.
Qed.
