(* ===== verification/Frame.v ===== *)
(** * Framing ([matrix-proto/src/frame.rs])

    A frame is a big-endian [u32] length and that many bytes. A reader is the
    script of what its [read] calls return: chunks of bytes, the end of the
    stream or an I/O error, as the contract of [std::io::Read] allows; the shared
    socket writer of [write_frame_deadline] is the script of what the mutex, the
    clock, [poll] and [send] answer. Both scripts are arbitrary. *)

From S2P Require Import Prelude RustStd.
From Stdlib Require Import Ascii.

(** [len() as u64]. *)
Definition blen (l : bytes) : N := N.of_nat (length l).

Definition DEFAULT_MAX_FRAME : N := 1024 * 1024.
Definition LEN_PREFIX : nat := 4.

Inductive FrameError : Type :=
| TooLarge (declared max : N)
| Truncated (want got : N)
| FrameIo (e : string)
| FrameTimeout.

Definition frame_error_display (e : FrameError) : string :=
  match e with
  | TooLarge d m => "frame declares " +:+ display d +:+ " bytes, max is " +:+ display m
  | Truncated w g => "truncated frame: want " +:+ display w +:+ " bytes, got " +:+ display g
  | FrameIo e => "io: " +:+ e
  | FrameTimeout => "send budget exhausted"
  end.

(** [n as u32]. *)
Definition as_u32 (n : N) : N := (n mod 2 ^ 32)%N.

(** [u32::to_be_bytes]. *)
Definition to_be_bytes (n : N) : bytes :=
  [byte (n / 2 ^ 24 mod 256); byte (n / 2 ^ 16 mod 256); byte (n / 2 ^ 8 mod 256);
   byte (n mod 256)]%N.

(** [u32::from_be_bytes]. *)
Definition from_be_bytes (a b c d : ascii) : N :=
  (N_of_ascii a * 2 ^ 24 + N_of_ascii b * 2 ^ 16 + N_of_ascii c * 2 ^ 8 + N_of_ascii d)%N.

Definition encode (payload : bytes) (max_frame : N) : result bytes FrameError :=
  if (max_frame <? blen payload)%N then Err (TooLarge (blen payload) max_frame)
  else if (u32_max <? blen payload)%N then Err (TooLarge (blen payload) max_frame)
  else Ok (to_be_bytes (as_u32 (blen payload)) ++ payload).

(** [split_frame]: the next frame of a buffer and what follows it; [None] while
    the frame is incomplete. *)
Definition split_frame (buf : bytes) (max_frame : N) : result (option (bytes * bytes)) FrameError :=
  match buf with
  | a :: b :: c :: d :: rest =>
      let len := from_be_bytes a b c d in
      if (max_frame <? len)%N then Err (TooLarge len max_frame)
      else if (blen rest <? len)%N then Ok None
      else Ok (Some (take (N.to_nat len) rest, drop (N.to_nat len) rest))
  | _ => Ok None
  end.

(** ** Readers *)

(** What the remaining [read] calls return. *)
Definition Reader : Type := list (result bytes string).

(** [r.read(&mut buf[..m])]: at most [m] bytes of the next chunk; [Ok []] is the
    [Ok(0)] of the end of the stream. *)
Definition read (m : nat) (r : Reader) : result bytes string * Reader :=
  match r with
  | [] => (Ok [], [])
  | Ok chunk :: r =>
      if length chunk <=? m then (Ok chunk, r)
      else (Ok (take m chunk), Ok (drop m chunk) :: r)
  | Err e :: r => (Err e, r)
  end.

(** How a loop that fills a buffer ends. *)
Inductive Fill : Type :=
| Filled (b : bytes)
| FillEof (got : N)
| FillIo (e : string).

(** [while got < buf.len() { match r.read(&mut buf[got..]) ... }]. Every round
    that does not end the loop reads a byte, so [want] rounds are enough. *)
Fixpoint fill (fuel want : nat) (acc : bytes) (r : Reader) : Fill * Reader :=
  match fuel with
  | O => (Filled acc, r)
  | S fuel =>
      if want <=? length acc then (Filled acc, r)
      else
        match read (want - length acc) r with
        | (Ok [], r) => (FillEof (blen acc), r)
        | (Ok chunk, r) => fill fuel want (acc ++ chunk) r
        | (Err e, r) => (FillIo e, r)
        end
  end.

Definition read_len (r : Reader) : result (option N) FrameError * Reader :=
  match fill LEN_PREFIX LEN_PREFIX [] r with
  | (Filled [a; b; c; d], r) => (Ok (Some (from_be_bytes a b c d)), r)
  | (Filled _, r) => (Ok None, r)   (* not reached: four bytes were read *)
  | (FillEof got, r) =>
      if (got =? 0)%N then (Ok None, r) else (Err (Truncated (N.of_nat LEN_PREFIX) got), r)
  | (FillIo e, r) => (Err (FrameIo e), r)
  end.

Definition read_frame (max_frame : N) (r : Reader)
    : result (option bytes) FrameError * Reader :=
  match read_len r with
  | (Err e, r) => (Err e, r)
  | (Ok None, r) => (Ok None, r)
  | (Ok (Some len), r) =>
      if (max_frame <? len)%N then (Err (TooLarge len max_frame), r)
      else
        let n := N.to_nat len in
        match fill n n [] r with
        | (Filled buf, r) => (Ok (Some buf), r)
        | (FillEof got, r) => (Err (Truncated len got), r)
        | (FillIo e, r) => (Err (FrameIo e), r)
        end
  end.

(** [write_frame] on a writer whose [write_all] calls and [flush] succeed: the
    bytes it writes. The length is cast, not checked. *)
Definition write_frame (payload : bytes) : bytes :=
  to_be_bytes (as_u32 (blen payload)) ++ payload.

(** ** Lemmas *)

Lemma be_bytes_roundtrip n :
  (n ≤ u32_max)%N →
  match to_be_bytes n with [a; b; c; d] => from_be_bytes a b c d = n | _ => False end.
Proof.
  intros H. unfold to_be_bytes, from_be_bytes, byte.
  rewrite !N_ascii_embedding by (apply N.mod_lt; done).
  unfold u32_max in H.
  change (2 ^ 24)%N with (2 ^ 16 * 2 ^ 8)%N. change (2 ^ 16)%N with (2 ^ 8 * 2 ^ 8)%N.
  rewrite <- !N.Div0.div_div. change (2 ^ 8)%N with 256%N.
  pose proof (N.div_mod n 256). pose proof (N.div_mod (n / 256) 256).
  pose proof (N.div_mod (n / 256 / 256) 256).
  rewrite (N.mod_small (n / 256 / 256 / 256) 256); [lia|].
  rewrite !N.Div0.div_div. apply N.Div0.div_lt_upper_bound. lia.
Qed.

Lemma from_be_bytes_bound a b c d : (from_be_bytes a b c d ≤ u32_max)%N.
Proof.
  unfold from_be_bytes, u32_max.
  pose proof (N_ascii_bounded a). pose proof (N_ascii_bounded b).
  pose proof (N_ascii_bounded c). pose proof (N_ascii_bounded d). lia.
Qed.

Lemma be_bytes_from a b c d : to_be_bytes (from_be_bytes a b c d) = [a; b; c; d].
Proof.
  unfold to_be_bytes, from_be_bytes, byte.
  pose proof (N_ascii_bounded a) as A. pose proof (N_ascii_bounded b) as B.
  pose proof (N_ascii_bounded c) as C. pose proof (N_ascii_bounded d) as D.
  change (2 ^ 24)%N with 16777216%N. change (2 ^ 16)%N with 65536%N. change (2 ^ 8)%N with 256%N.
  assert (E : ∀ n x, n = N_of_ascii x → ascii_of_N n = x) by (intros n x ->; apply ascii_N_embedding).
  rewrite (E _ a), (E _ b), (E _ c), (E _ d). 1: done. all: clear E; zify; Z.to_euclidean_division_equations; lia.
Qed.

Lemma blen_app l k : blen (l ++ k) = (blen l + blen k)%N.
Proof. unfold blen. rewrite length_app. lia. Qed.

Lemma blen_to_nat l : N.to_nat (blen l) = length l.
Proof. unfold blen. lia. Qed.

Lemma as_u32_small n : (n ≤ u32_max)%N → as_u32 n = n.
Proof. unfold as_u32, u32_max. intros. apply N.mod_small. lia. Qed.

(** ** What a reader delivers, whatever its chunks *)

(** The bytes up to the end of the stream or the first error, and that error. *)
Fixpoint stream (r : Reader) : bytes * option string :=
  match r with
  | [] => ([], None)
  | Ok [] :: _ => ([], None)
  | Ok c :: r => (c ++ (stream r).1, (stream r).2)
  | Err e :: _ => ([], Some e)
  end.

Lemma stream_cons c r : c ≠ [] → stream (Ok c :: r) = (c ++ (stream r).1, (stream r).2).
Proof. by destruct c. Qed.

(** One [read] takes a prefix of the stream, or shows how it ends. *)
Lemma read_stream m r s e :
  0 < m → stream r = (s, e) →
  (s = [] ∧ ∃ r', read m r = (match e with None => Ok [] | Some e => Err e end, r')) ∨
  (∃ c s' r', c ≠ [] ∧ length c ≤ m ∧ s = c ++ s' ∧ read m r = (Ok c, r') ∧ stream r' = (s', e)).
Proof.
  intros Hm. destruct r as [|[[|a c]|x] r]; cbn [stream read].
  - intros [= <- <-]. left. eauto.
  - intros [= <- <-]. left. split; [done|]. destruct (0 <=? m) eqn:L; [eauto|].
    apply Nat.leb_gt in L. lia.
  - intros [= <- <-]. right. destruct (length (a :: c) <=? m) eqn:L.
    + apply Nat.leb_le in L. eexists (a :: c), _, r. split_and!; try done.
      by destruct (stream r).
    + apply Nat.leb_gt in L. eexists (take m (a :: c)), (drop m (a :: c) ++ (stream r).1), _.
      split_and!; try done.
      * destruct m; [lia|done].
      * rewrite length_take. lia.
      * by rewrite app_assoc, take_drop.
      * rewrite stream_cons; [done|]. intros H%(f_equal length). rewrite length_drop in H.
        cbn [length] in *. lia.
  - intros [= <- <-]. left. eauto.
Qed.

Lemma fill_stream fuel want acc r s e :
  want ≤ length acc + fuel → stream r = (s, e) →
  let need := want - length acc in
  if need <=? length s then
    ∃ r', fill fuel want acc r = (Filled (acc ++ take need s), r') ∧ stream r' = (drop need s, e)
  else ∃ r', fill fuel want acc r =
    (match e with None => FillEof (blen (acc ++ s)) | Some e => FillIo e end, r').
Proof.
  revert acc r s. induction fuel as [|fuel IH]; intros acc r s Hf Hs; cbn zeta.
  { replace (want - length acc) with 0 by lia. cbn. exists r. by rewrite app_nil_r. }
  cbn [fill]. destruct (want <=? length acc) eqn:L.
  { apply Nat.leb_le in L. replace (want - length acc) with 0 by lia. cbn. exists r.
    by rewrite app_nil_r. }
  apply Nat.leb_gt in L.
  destruct (read_stream (want - length acc) r s e) as [(-> & r' & ->)|H]; [lia|done| |].
  { cbn [length]. destruct (want - length acc) eqn:N; [lia|]. cbn [Nat.leb].
    exists r'. rewrite app_nil_r. by destruct e. }
  destruct H as (c & s' & r' & Hc & Hl & -> & -> & Hs').
  destruct c as [|a c]; [done|]. set (c' := a :: c) in *.
  specialize (IH (acc ++ c') r' s'). cbn zeta in IH.
  assert (1 ≤ length c') by (cbn; lia).
  rewrite length_app in IH. specialize (IH ltac:(lia) Hs').
  replace (want - (length acc + length c')) with (want - length acc - length c') in IH by lia.
  rewrite length_app.
  destruct (want - length acc <=? length c' + length s') eqn:L1.
  - apply Nat.leb_le in L1. rewrite (proj2 (Nat.leb_le _ _)) in IH by lia.
    destruct IH as (r'' & E1 & E2). exists r''. rewrite E1, E2.
    rewrite take_app_ge, drop_app_ge, app_assoc by lia. done.
  - apply Nat.leb_gt in L1. rewrite (proj2 (Nat.leb_gt _ _)) in IH by lia.
    destruct IH as (r'' & E1). exists r''. by rewrite E1, <- app_assoc.
Qed.

#[global] Arguments fill : simpl never.

(** The outcome of reading a frame off a byte stream with a known ending. *)
Definition frame_of_stream (max_frame : N) (s : bytes) (e : option string)
    : result (option (bytes * bytes)) FrameError :=
  match s with
  | a :: b :: c :: d :: rest =>
      let len := from_be_bytes a b c d in
      if (max_frame <? len)%N then Err (TooLarge len max_frame)
      else if (blen rest <? len)%N then
        Err (match e with None => Truncated len (blen rest) | Some e => FrameIo e end)
      else Ok (Some (take (N.to_nat len) rest, drop (N.to_nat len) rest))
  | _ =>
      match e with
      | Some e => Err (FrameIo e)
      | None => if bool_decide (s = []) then Ok None else Err (Truncated 4 (blen s))
      end
  end.

Lemma read_len_stream r s e :
  stream r = (s, e) →
  match s with
  | a :: b :: c :: d :: rest =>
      ∃ r', read_len r = (Ok (Some (from_be_bytes a b c d)), r') ∧ stream r' = (rest, e)
  | _ => ∃ r', read_len r =
      (match e with
       | Some e => Err (FrameIo e)
       | None => if bool_decide (s = []) then Ok None else Err (Truncated 4 (blen s))
       end, r')
  end.
Proof.
  intros Hs. pose proof (fill_stream 4 4 [] r s e ltac:(cbn; lia) Hs) as F. cbn zeta in F.
  unfold read_len, LEN_PREFIX. destruct s as [|a [|b [|c [|d rest]]]]; cbn in F.
  1-4: destruct F as (r' & ->); exists r'; by destruct e.
  destruct F as (r' & -> & H). exists r'. by rewrite drop_0 in H.
Qed.

(** reading a frame does not depend on how the bytes arrive. Whatever chunks
    the reader delivers, and however the stream ends, [read_frame] returns what
    the reference does on the concatenated bytes, and leaves the reader at what
    follows the frame. *)
Theorem read_frame_chunking (max_frame : N) (r : Reader) (s : bytes) (e : option string) :
  stream r = (s, e) →
  ∃ r', match frame_of_stream max_frame s e with
        | Ok (Some (p, rest)) => read_frame max_frame r = (Ok (Some p), r') ∧ stream r' = (rest, e)
        | Ok None => read_frame max_frame r = (Ok None, r')
        | Err x => read_frame max_frame r = (Err x, r')
        end.
Proof.
  intros Hs. pose proof (read_len_stream r s e Hs) as H. unfold read_frame, frame_of_stream.
  destruct s as [|a [|b [|c [|d rest]]]].
  1-4: destruct H as (r' & ->); exists r'; by destruct e; [|case_bool_decide].
  destruct H as (r1 & -> & H1). set (len := from_be_bytes a b c d).
  destruct (max_frame <? len)%N; [eauto|].
  pose proof (fill_stream (N.to_nat len) (N.to_nat len) [] r1 rest e ltac:(cbn; lia) H1) as F.
  cbn zeta in F. cbn [length app] in F. rewrite Nat.sub_0_r in F.
  destruct (blen rest <? len)%N eqn:L.
  - apply N.ltb_lt in L. rewrite (proj2 (Nat.leb_gt _ _)) in F by (unfold blen in L; lia).
    destruct F as (r2 & ->). exists r2. by destruct e.
  - apply N.ltb_ge in L. rewrite (proj2 (Nat.leb_le _ _)) in F by (unfold blen in L; lia).
    destruct F as (r2 & -> & H2). eauto.
Qed.

Lemma read_frame_chunking_witness :
  let r : Reader := [Ok ["000"; "000"; "000"]%char; Ok ["002"; "{"]%char; Ok ["}"; "x"]%char] in
  ∃ r', read_frame 1024 r = (Ok (Some ["{"; "}"]%char), r') ∧ stream r' = (["x"%char], None).
Proof.
  intros r. destruct (read_frame_chunking 1024 r (stream r).1 (stream r).2) as (r' & H);
    [by destruct (stream r)|]. exists r'. exact H.
Defined.

Lemma encode_ok p max f :
  encode p max = Ok f ↔
  (blen p ≤ max)%N ∧ (blen p ≤ u32_max)%N ∧ f = to_be_bytes (blen p) ++ p.
Proof.
  unfold encode. destruct (max <? blen p)%N eqn:A; nbool; [split; [done|lia]|].
  destruct (u32_max <? blen p)%N eqn:B; nbool; [split; [done|lia]|].
  rewrite as_u32_small by done. naive_solver.
Qed.

Lemma split_encoded p max rest :
  (blen p ≤ max)%N → (blen p ≤ u32_max)%N →
  split_frame (to_be_bytes (blen p) ++ p ++ rest) max = Ok (Some (p, rest)).
Proof.
  intros A B. pose proof (be_bytes_roundtrip (blen p) B) as R. unfold split_frame.
  destruct (to_be_bytes (blen p)) as [|a [|b [|c [|d [|]]]]]; try done. cbn [app]. rewrite R.
  rewrite (proj2 (N.ltb_ge _ _)) by done.
  rewrite (proj2 (N.ltb_ge _ _)) by (rewrite blen_app; lia).
  rewrite blen_to_nat, take_app_length, drop_app_length. done.
Qed.

Lemma ascii_bytes_inj a b c d n :
  from_be_bytes a b c d = n → to_be_bytes n = [a; b; c; d].
Proof.
  intros <-. unfold to_be_bytes, from_be_bytes, byte.
  pose proof (N_ascii_bounded a). pose proof (N_ascii_bounded b).
  pose proof (N_ascii_bounded c). pose proof (N_ascii_bounded d).
  set (x := N_of_ascii a) in *. set (y := N_of_ascii b) in *.
  set (z := N_of_ascii c) in *. set (w := N_of_ascii d) in *.
  assert (E1 : ((x * 2 ^ 24 + y * 2 ^ 16 + z * 2 ^ 8 + w) / 2 ^ 8 = x * 2 ^ 16 + y * 2 ^ 8 + z)%N)
    by (symmetry; apply (N.div_unique _ _ _ w); lia).
  assert (E2 : ((x * 2 ^ 24 + y * 2 ^ 16 + z * 2 ^ 8 + w) / 2 ^ 16 = x * 2 ^ 8 + y)%N)
    by (symmetry; apply (N.div_unique _ _ _ (z * 2 ^ 8 + w)); lia).
  assert (E3 : ((x * 2 ^ 24 + y * 2 ^ 16 + z * 2 ^ 8 + w) / 2 ^ 24 = x)%N)
    by (symmetry; apply (N.div_unique _ _ _ (y * 2 ^ 16 + z * 2 ^ 8 + w)); lia).
  rewrite E1, E2, E3.
  rewrite <- (N.mod_unique x 256 0 x), <- (N.mod_unique (x * 2 ^ 8 + y) 256 x y),
    <- (N.mod_unique (x * 2 ^ 16 + y * 2 ^ 8 + z) 256 (x * 2 ^ 8 + y) z),
    <- (N.mod_unique (x * 2 ^ 24 + y * 2 ^ 16 + z * 2 ^ 8 + w) 256
          (x * 2 ^ 16 + y * 2 ^ 8 + z) w) by lia.
  unfold x, y, z, w. by rewrite !ascii_N_embedding.
Qed.

(** framing round trips. An encoded frame followed by anything is split, and
    read off any chunking, into its payload and what follows; a proper prefix of
    it is incomplete, never an error; and whatever is split off a buffer is an
    encoded frame at its head. *)
Theorem frame_roundtrip (p f : bytes) (max_frame : N) :
  encode p max_frame = Ok f →
  (∀ rest, split_frame (f ++ rest) max_frame = Ok (Some (p, rest))) ∧
  (∀ r rest e, stream r = (f ++ rest, e) →
     ∃ r', read_frame max_frame r = (Ok (Some p), r') ∧ stream r' = (rest, e)) ∧
  (∀ n, n < length f → split_frame (take n f) max_frame = Ok None) ∧
  (∀ buf q rest, split_frame buf max_frame = Ok (Some (q, rest)) →
     ∃ g, encode q max_frame = Ok g ∧ buf = g ++ rest).
Proof.
  intros (A & B & ->)%encode_ok.
  pose proof (be_bytes_roundtrip (blen p) B) as R. split_and!.
  - intros rest. rewrite <- app_assoc. by apply split_encoded.
  - intros r rest e Hs. pose proof (read_len_stream r _ e Hs) as L.
    destruct (read_frame_chunking max_frame r _ e Hs) as (r' & H). exists r'.
    rewrite <- app_assoc in H. pose proof (split_encoded p max_frame rest A B) as S.
    unfold split_frame, frame_of_stream in *.
    destruct (to_be_bytes (blen p)) as [|a [|b [|c [|d [|]]]]]; try done. cbn [app] in *.
    rewrite R in *. destruct (max_frame <? blen p)%N; [done|].
    destruct (blen (p ++ rest) <? blen p)%N; [done|]. injection S as S1 S2.
    by rewrite S1, S2 in H.
  - intros n Hn. unfold split_frame.
    destruct (to_be_bytes (blen p)) as [|a [|b [|c [|d [|]]]]] eqn:E; try done.
    destruct n as [|[|[|[|n]]]]; try done. cbn [app take]. rewrite R.
    rewrite (proj2 (N.ltb_ge _ _)) by done. rewrite (proj2 (N.ltb_lt _ _)); [done|].
    unfold blen. rewrite length_take. cbn [app length] in Hn. lia.
  - intros buf q rest. unfold split_frame. destruct buf as [|a [|b [|c [|d buf]]]]; try done.
    destruct (max_frame <? _)%N eqn:M; [done|].
    destruct (blen buf <? _)%N eqn:L; [done|]. intros [= <- <-]. nbool.
    pose proof (from_be_bytes_bound a b c d) as U. set (n := from_be_bytes a b c d) in *.
    assert (Q : blen (take (N.to_nat n) buf) = n).
    { unfold blen in *. rewrite length_take. lia. }
    eexists. split; [apply encode_ok; split_and!; [lia|lia|reflexivity]|].
    rewrite Q, (ascii_bytes_inj a b c d n eq_refl). cbn. by rewrite take_drop.
Qed.

Lemma frame_roundtrip_witness :
  split_frame (["000"; "000"; "000"; "002"; "{"; "}"]%char ++ ["x"%char]) 1024
  = Ok (Some (["{"; "}"]%char, ["x"%char])).
Proof.
  apply (frame_roundtrip ["{"; "}"]%char ["000"; "000"; "000"; "002"; "{"; "}"]%char 1024).
  reflexivity.
Defined.
