(* ===== verification/FrameWriter.v ===== *)
(** * Writing a frame within an absolute budget ([matrix-proto/src/frame.rs])

    [write_frame_deadline] waits for the shared socket, then alternates [poll] and
    non-blocking [send]. What the mutex, the clock, [poll] and [send] answer is an
    arbitrary script; instants are nanoseconds of the monotonic clock. *)

From S2P Require Import Prelude RustStd Frame.
From Stdlib Require Import Ascii.

(** [writer.try_lock()], and the clock when it would block. *)
Inductive LockTry : Type :=
| LockOk
| LockWouldBlock (now : N)
| LockPoisoned.

(** [poll]: a positive answer with [revents], a timeout, or an error. *)
Inductive PollAnswer : Type :=
| PollReady (revents : N)
| PollTimeout
| PollError (errno : N) (text : string).

(** [send]: the bytes it took (as many as it likes of those offered), or an
    error. *)
Inductive SendAnswer : Type :=
| SendTook (n : nat)
| SendError (errno : N) (text : string).

(** One turn of the loop: the two readings of the clock, [poll] and [send]. *)
Record Round : Type := mkRound {
  rd_check : N;
  rd_now : N;
  rd_poll : PollAnswer;
  rd_send : SendAnswer;
}.

Record SendScript : Type := mkSendScript {
  ss_start : N;
  ss_locks : list LockTry;
  ss_rounds : list Round;
  ss_end : N;
}.

(** What the call does to the socket: the bytes out, whether it was shut down, and
    the [poll] timeouts with the instants they were computed at. *)
Record Sending : Type := mkSending {
  sd_written : nat;
  sd_poisoned : bool;
  sd_waits : list (N * N);
}.

Definition POLLOUT : N := 4.
Definition POLLERR : N := 8.
Definition POLLHUP : N := 16.
Definition POLLNVAL : N := 32.
Definition EAGAIN : N := 11.
Definition EINTR : N := 4.
Definition i32_max : N := 2147483647.

Definition poison (w : Sending) : Sending := mkSending (sd_written w) true (sd_waits w).

(** [if written > 0 { poison(&guard) }]. *)
Definition poison_started (w : Sending) : Sending :=
  if 0 <? sd_written w then poison w else w.

Definition took (n : nat) (w : Sending) : Sending :=
  mkSending (sd_written w + n) (sd_poisoned w) (sd_waits w).

Definition waited (now timeout : N) (w : Sending) : Sending :=
  mkSending (sd_written w) (sd_poisoned w) (sd_waits w ++ [(now, timeout)]).

(** [deadline.saturating_duration_since(now).as_millis().min(i32::MAX)]. *)
Definition remaining_ms (deadline now : N) : N :=
  N.min (saturating_sub deadline now / 1000000) i32_max.

Definition mid_frame_closed : FrameError := FrameIo "peer closed mid-frame".

(** [revents] shows a dead peer and no room to write. *)
Definition peer_gone (revents : N) : bool :=
  negb (N.land revents (N.lor POLLERR (N.lor POLLHUP POLLNVAL)) =? 0)%N
  && (N.land revents POLLOUT =? 0)%N.

(** The loop of [send]s; [None]: the script ended first. *)
Fixpoint send_rounds (deadline : N) (frame : bytes) (end_now : N) (rounds : list Round)
    (w : Sending) : option (result unit FrameError) * Sending :=
  if negb (sd_written w <? length frame) then
    if (deadline <=? end_now)%N then (Some (Err FrameTimeout), poison w) else (Some (Ok tt), w)
  else
    match rounds with
    | [] => (None, w)
    | rd :: rounds =>
        if (deadline <=? rd_check rd)%N then (Some (Err FrameTimeout), poison_started w)
        else
          let w := waited (rd_now rd) (remaining_ms deadline (rd_now rd)) w in
          match rd_poll rd with
          | PollTimeout => (Some (Err FrameTimeout), poison_started w)
          | PollError errno text =>
              if (errno =? EINTR)%N then send_rounds deadline frame end_now rounds w
              else (Some (Err (FrameIo text)), poison_started w)
          | PollReady revents =>
              if peer_gone revents then (Some (Err mid_frame_closed), poison w)
              else
                match rd_send rd with
                | SendTook O => (Some (Err mid_frame_closed), poison w)
                | SendTook n =>
                    send_rounds deadline frame end_now rounds
                      (took (min n (length frame - sd_written w)) w)
                | SendError errno text =>
                    if (errno =? EAGAIN)%N || (errno =? EINTR)%N then
                      send_rounds deadline frame end_now rounds w
                    else (Some (Err (FrameIo text)), poison w)
                end
          end
    end.

(** The loop of [try_lock]s. *)
Fixpoint lock_writer (deadline : N) (locks : list LockTry) : option (result unit FrameError) :=
  match locks with
  | [] => None
  | LockOk :: _ => Some (Ok tt)
  | LockWouldBlock now :: locks =>
      if (deadline <=? now)%N then Some (Err FrameTimeout) else lock_writer deadline locks
  | LockPoisoned :: _ => Some (Err (FrameIo "writer poisoned"))
  end.

Definition write_frame_deadline (frame : bytes) (budget : N) (s : SendScript)
    : option (result unit FrameError) * Sending :=
  let w := mkSending 0 false [] in
  let deadline := (ss_start s + budget)%N in
  match lock_writer deadline (ss_locks s) with
  | None => (None, w)
  | Some (Err e) => (Some (Err e), w)
  | Some (Ok _) =>
      if bool_decide (frame = []) then (Some (Ok tt), w)
      else send_rounds deadline frame (ss_end s) (ss_rounds s) w
  end.

(** ** Properties *)

(** What holds of a send that returned. *)
Record send_ok (deadline : N) (frame : bytes) (end_now : N)
    (res : result unit FrameError) (w : Sending) : Prop := {
  so_bound : sd_written w ≤ length frame;
  so_done : res = Ok tt → sd_written w = length frame ∧ sd_poisoned w = false ∧
    (frame = [] ∨ end_now < deadline)%N;
  so_torn : is_ok res = false → sd_written w = 0 ∨ sd_poisoned w = true;
  so_waits : Forall (λ nt, nt.2 = 0%N ∨ (nt.1 + nt.2 * 1000000 ≤ deadline)%N) (sd_waits w);
}.

(** What holds of a send under way. *)
Definition sending_ok (deadline : N) (frame : bytes) (w : Sending) : Prop :=
  sd_written w ≤ length frame ∧ sd_poisoned w = false ∧
  Forall (λ nt, nt.2 = 0%N ∨ (nt.1 + nt.2 * 1000000 ≤ deadline)%N) (sd_waits w).

Lemma remaining_bound deadline now :
  remaining_ms deadline now = 0%N ∨ (now + remaining_ms deadline now * 1000000 ≤ deadline)%N.
Proof.
  unfold remaining_ms. rewrite saturating_sub_spec.
  pose proof (N.Div0.mul_div_le (deadline - now) 1000000) as H.
  revert H. generalize ((deadline - now) / 1000000)%N as q. generalize i32_max as m. intros. lia.
Qed.

Lemma sending_ok_waited deadline frame w now :
  sending_ok deadline frame w →
  sending_ok deadline frame (waited now (remaining_ms deadline now) w).
Proof.
  intros (A & B & C). split_and!; [done..|]. cbn. apply Forall_app. split; [done|].
  apply Forall_singleton, remaining_bound.
Qed.

Lemma send_ok_failed deadline frame end_now e w :
  sending_ok deadline frame w → send_ok deadline frame end_now (Err e) (poison w).
Proof. intros (A & B & C). split; cbn; auto; discriminate. Qed.

Lemma send_ok_started deadline frame end_now e w :
  sending_ok deadline frame w → send_ok deadline frame end_now (Err e) (poison_started w).
Proof.
  intros S. unfold poison_started. destruct (0 <? sd_written w) eqn:L;
    [by apply send_ok_failed|]. apply Nat.ltb_ge in L. destruct S as (A & B & C).
  split; auto; [discriminate|]. intros _. left. lia.
Qed.

Hint Resolve send_ok_failed send_ok_started sending_ok_waited : matrix.

Lemma send_rounds_ok deadline frame end_now rounds w res w' :
  sending_ok deadline frame w →
  send_rounds deadline frame end_now rounds w = (Some res, w') →
  send_ok deadline frame end_now res w'.
Proof.
  revert w. induction rounds as [|rd rounds IH]; intros w S; cbn [send_rounds].
  all: destruct (sd_written w <? length frame) eqn:L; cbn [negb].
  2,4: apply Nat.ltb_ge in L; destruct (deadline <=? end_now)%N eqn:E; intros [= <- <-];
       [by apply send_ok_failed|]; nbool; destruct S as (A & B & C);
       split; auto; [intros _; split_and!; [lia|done|by right]|discriminate].
  { discriminate. }
  destruct (deadline <=? rd_check rd)%N; [intros [= <- <-]; auto with matrix|].
  set (w1 := waited _ _ w). assert (S1 : sending_ok deadline frame w1) by (by apply sending_ok_waited).
  destruct (rd_poll rd) as [rev| |errno text].
  - destruct (peer_gone rev); [intros [= <- <-]; auto with matrix|].
    destruct (rd_send rd) as [[|n]|errno text]; [intros [= <- <-]; auto with matrix| |].
    + apply IH. destruct S1 as (A & B & C). split_and!; [|done..]. unfold w1 in *. cbn [took waited sd_written] in *. lia.
    + destruct (_ || _); [by apply IH|]. intros [= <- <-]. auto with matrix.
  - intros [= <- <-]. auto with matrix.
  - destruct (errno =? EINTR)%N; [by apply IH|]. intros [= <- <-]. auto with matrix.
Qed.

(** The first round whose check sees the deadline ends the loop. *)
Lemma send_rounds_end deadline frame end_now rounds w :
  Exists (λ rd, deadline ≤ rd_check rd)%N rounds →
  is_Some (send_rounds deadline frame end_now rounds w).1.
Proof.
  intros H. revert w. induction H as [rd rounds H|rd rounds H IH]; intros w; cbn [send_rounds].
  - destruct (negb _); [by destruct (deadline <=? end_now)%N|].
    by rewrite (proj2 (N.leb_le _ _)).
  - destruct (negb _); [by destruct (deadline <=? end_now)%N|].
    repeat (case_match; try done; try apply IH).
Qed.

(** The mutex was acquired and a round checks the clock past the deadline, or it
    was still taken past the deadline. *)
Definition clock_passed (deadline : N) (s : SendScript) : Prop :=
  ∃ pre l post, ss_locks s = pre ++ l :: post ∧
    Forall (λ l, ∃ now, l = LockWouldBlock now) pre ∧
    (l = LockOk ∧ Exists (λ rd, deadline ≤ rd_check rd)%N (ss_rounds s) ∨
     ∃ now, l = LockWouldBlock now ∧ (deadline ≤ now)%N).

Lemma lock_writer_decides deadline pre l post :
  Forall (λ l, ∃ now, l = LockWouldBlock now) pre →
  (l = LockOk → lock_writer deadline (pre ++ l :: post) = Some (Err FrameTimeout) ∨
                lock_writer deadline (pre ++ l :: post) = Some (Ok tt)) ∧
  ((∃ now, l = LockWouldBlock now ∧ (deadline ≤ now)%N) →
   lock_writer deadline (pre ++ l :: post) = Some (Err FrameTimeout)).
Proof.
  intros F. induction F as [|l' pre (now & ->) _ [IH1 IH2]]; cbn.
  - split; [intros ->; auto|]. intros (now & -> & H). by rewrite (proj2 (N.leb_le _ _)).
  - destruct (deadline <=? now)%N; auto.
Qed.

(** a frame is written whole and in time, or the connection is unusable.
    Whatever the mutex, the clock and the socket do: the call never sends more
    than the frame; it returns [Ok] only when every byte went out before the
    deadline and the socket is still usable; when it fails, no byte went out or
    the socket was shut down, so nothing is ever appended to a torn frame; no
    [poll] may wait past the deadline; and once the clock has passed the deadline
    the call has returned. *)
Theorem deadline_write_sound (frame : bytes) (budget : N) (s : SendScript) :
  (∀ res w, write_frame_deadline frame budget s = (Some res, w) →
     send_ok (ss_start s + budget) frame (ss_end s) res w) ∧
  (clock_passed (ss_start s + budget) s → is_Some (write_frame_deadline frame budget s).1).
Proof.
  set (d := (ss_start s + budget)%N). split.
  - intros res w.
    assert (S0 : sending_ok d frame (mkSending 0 false [])) by (split_and!; [cbn; lia|done..]).
    unfold write_frame_deadline. fold d. destruct (lock_writer _ _) as [[u|e]|]; [| |discriminate].
    + case_bool_decide as F; [|by apply send_rounds_ok]. intros [= <- <-]. subst.
      split; cbn; auto; discriminate.
    + intros [= <- <-]. split; cbn; auto; [lia|discriminate].
  - intros (pre & l & post & E & F & H). unfold write_frame_deadline. fold d. rewrite E.
    destruct (lock_writer_decides d pre l post F) as [L1 L2]. destruct H as [[-> H]|H].
    + destruct (L1 eq_refl) as [->| ->]; [done|]. case_bool_decide; [done|].
      by apply send_rounds_end.
    + by rewrite (L2 H).
Qed.

Lemma deadline_write_sound_witness :
  let s := mkSendScript 0 [LockOk]
    [mkRound 1 1 (PollReady 4) (SendTook 2); mkRound 2 2 PollTimeout (SendTook 0)] 3 in
  ∃ w, write_frame_deadline ["a"; "b"; "c"]%char 500 s = (Some (Err FrameTimeout), w) ∧
    sd_written w = 2 ∧ sd_poisoned w = true.
Proof.
  intros s. exists (write_frame_deadline ["a"; "b"; "c"]%char 500 s).2.
  assert (E : write_frame_deadline ["a"; "b"; "c"]%char 500 s
    = (Some (Err FrameTimeout), (write_frame_deadline ["a"; "b"; "c"]%char 500 s).2))
    by reflexivity.
  split; [exact E|]. split; [reflexivity|].
  destruct (so_torn _ _ _ _ _ (proj1 (deadline_write_sound _ _ _) _ _ E) eq_refl); [|done].
  discriminate.
Defined.
