(* ===== verification/Assembler.v ===== *)
(** * Reassembling frames from decrypted bytes ([matrix-runtime/src/session.rs])

    [Assembler] consumes chunks of any size and hands out complete frames. It is
    proved to be [deframe], the parser of the whole byte sequence: how the bytes
    are cut into chunks does not matter. *)

From S2P Require Import Prelude RustStd Frame.
From Stdlib Require Import Ascii.

Record Assembler : Type := mkAssembler {
  as_header : bytes;          (* [[u8; 4]] *)
  as_got : nat;
  as_pending : option N;
  as_body : bytes;
}.

Definition assembler_default : Assembler :=
  mkAssembler [byte 0; byte 0; byte 0; byte 0] 0 None [].

Definition has_frame (a : Assembler) : bool :=
  is_some_and (λ n, (n <=? blen (as_body a))%N) (as_pending a).

Definition is_empty (a : Assembler) : bool :=
  (as_got a =? 0) && negb (is_some (as_pending a)) && bool_decide (as_body a = []).

(** [header[got..got + n].copy_from_slice(&rest[..n])]. *)
Definition copy_header (a : Assembler) (n : nat) (rest : bytes) : bytes :=
  take (as_got a) (as_header a) ++ take n rest ++ drop (as_got a + n) (as_header a).

(** [u32::from_be_bytes(self.header)]. *)
Definition header_len (h : bytes) : N :=
  match h with [a; b; c; d] => from_be_bytes a b c d | _ => 0%N end.

(** The loop of [feed]; every turn that goes on consumes a byte. *)
Fixpoint feed_loop (fuel : nat) (max_frame : N) (rest : bytes) (a : Assembler)
    : result bytes unit * Assembler :=
  match fuel, rest with
  | O, _ | _, [] => (Ok rest, a)
  | S fuel, _ =>
      match as_pending a with
      | None =>
          let n := min (4 - as_got a) (length rest) in
          let h := copy_header a n rest in
          let got := as_got a + n in
          let rest := drop n rest in
          if got =? 4 then
            let len := header_len h in
            if (len =? 0)%N || (max_frame <? len)%N then
              (Err tt, mkAssembler h got None (as_body a))
            else feed_loop fuel max_frame rest (mkAssembler h got (Some len) [])
          else feed_loop fuel max_frame rest (mkAssembler h got None (as_body a))
      | Some len =>
          if has_frame a then (Ok rest, a)
          else
            let want := saturating_sub len (blen (as_body a)) in
            if (want =? 0)%N then (Ok rest, a)
            else
              let n := min (N.to_nat want) (length rest) in
              feed_loop fuel max_frame (drop n rest)
                (mkAssembler (as_header a) (as_got a) (Some len) (as_body a ++ take n rest))
      end
  end.

Definition feed (max_frame : N) (rest : bytes) (a : Assembler) : result bytes unit * Assembler :=
  feed_loop (S (length rest)) max_frame rest a.

Definition take_frame (a : Assembler) : result (option bytes) string * Assembler :=
  if negb (has_frame a) then (Ok None, a)
  else
    let len := default 0%N (as_pending a) in
    let out := as_body a in
    let a := mkAssembler (as_header a) 0 None [] in
    if negb (blen out =? len)%N then (Err "assembler drift", a) else (Ok (Some out), a).

(** The inner loop of [pump_reads]: takes every complete frame. A frame is taken at
    most once before the assembler is empty, so two turns are enough. *)
Fixpoint take_frames (fuel : nat) (a : Assembler) : result (list bytes) string * Assembler :=
  match fuel with
  | O => (Ok [], a)
  | S fuel =>
      match take_frame a with
      | (Err e, a) => (Err e, a)
      | (Ok None, a) => (Ok [], a)
      | (Ok (Some raw), a) =>
          match take_frames fuel a with
          | (Ok raws, a) => (Ok (raw :: raws), a)
          | (Err e, a) => (Err e, a)
          end
      end
  end.

(** Feed and take in turns over one chunk. *)
Fixpoint pump_chunk (fuel : nat) (max_frame : N) (rest : bytes) (a : Assembler)
    : result (list bytes) string * Assembler :=
  match fuel with
  | O => (Ok [], a)
  | S fuel =>
      match feed max_frame rest a with
      | (Err _, a) => (Err "frame too large", a)
      | (Ok rest, a) =>
          match take_frames 2 a with
          | (Err e, a) => (Err e, a)
          | (Ok raws, a) =>
              if bool_decide (rest = []) then (Ok raws, a)
              else if bool_decide (raws = []) then (Err "assembler stall", a)
              else
                match pump_chunk fuel max_frame rest a with
                | (Ok more, a) => (Ok (raws ++ more), a)
                | (Err e, a) => (Err e, a)
                end
          end
      end
  end.

(** The chunks of one round, in order. *)
Fixpoint pump_chunks (max_frame : N) (chunks : list bytes) (a : Assembler)
    : result (list bytes) string * Assembler :=
  match chunks with
  | [] => (Ok [], a)
  | c :: chunks =>
      match pump_chunk (S (length c)) max_frame c a with
      | (Err e, a) => (Err e, a)
      | (Ok raws, a) =>
          match pump_chunks max_frame chunks a with
          | (Ok more, a) => (Ok (raws ++ more), a)
          | (Err e, a) => (Err e, a)
          end
      end
  end.

(** ** The reference: the frames of a byte sequence *)

(** The frames, and what is left: an incomplete frame, or an illegal length. *)
Fixpoint deframe_from (fuel : nat) (max_frame : N) (s : bytes) : list bytes * option bytes :=
  match fuel, s with
  | S fuel, a :: b :: c :: d :: rest =>
      let len := from_be_bytes a b c d in
      if (len =? 0)%N || (max_frame <? len)%N then ([], None)
      else if (blen rest <? len)%N then ([], Some s)
      else
        let '(fs, r) := deframe_from fuel max_frame (drop (N.to_nat len) rest) in
        (take (N.to_nat len) rest :: fs, r)
  | _, _ => ([], Some s)
  end.

Definition deframe (max_frame : N) (s : bytes) : list bytes * option bytes :=
  deframe_from (length s) max_frame s.

(** ** The first frame of a byte sequence *)

Inductive Head : Type :=
| HeadBad
| HeadMore
| HeadFrame (p rest : bytes).

Definition legal (max_frame len : N) : bool := negb ((len =? 0) || (max_frame <? len))%N.

Definition head (max_frame : N) (s : bytes) : Head :=
  match s with
  | a :: b :: c :: d :: rest =>
      let len := from_be_bytes a b c d in
      if negb (legal max_frame len) then HeadBad
      else if (blen rest <? len)%N then HeadMore
      else HeadFrame (take (N.to_nat len) rest) (drop (N.to_nat len) rest)
  | _ => HeadMore
  end.

Lemma deframe_from_fuel f1 f2 max s :
  length s ≤ f1 → length s ≤ f2 → deframe_from f1 max s = deframe_from f2 max s.
Proof.
  revert f2 s. induction f1 as [|f1 IH]; intros f2 s H1 H2.
  { destruct s; [|cbn in H1; lia]. by destruct f2. }
  destruct f2 as [|f2]; [destruct s; [done|cbn in H2; lia]|].
  destruct s as [|a [|b [|c [|d rest]]]]; cbn [deframe_from]; try done.
  destruct (_ || _); [done|]. destruct (_ <? _)%N; [done|].
  rewrite (IH f2); [done|..]; rewrite length_drop; cbn in *; lia.
Qed.

Lemma deframe_head max s :
  deframe max s =
  match head max s with
  | HeadBad => ([], None)
  | HeadMore => ([], Some s)
  | HeadFrame p rest => (p :: (deframe max rest).1, (deframe max rest).2)
  end.
Proof.
  unfold deframe, head, legal. destruct s as [|a [|b [|c [|d rest]]]]; try done.
  cbn [length]. assert (F : length rest ≤ S (S (S (length rest)))) by lia. revert F.
  generalize (S (S (S (length rest)))) as f. intros f F. cbn [deframe_from].
  destruct (_ || _); [done|]. cbn [negb]. destruct (blen rest <? _)%N; [done|].
  rewrite (deframe_from_fuel f (length (drop (N.to_nat (from_be_bytes a b c d)) rest)))
    by (rewrite ?length_drop; lia).
  by destruct (deframe_from _ _ _).
Qed.

Lemma head_app max s t p rest :
  head max s = HeadFrame p rest → head max (s ++ t) = HeadFrame p (rest ++ t).
Proof.
  unfold head. destruct s as [|a [|b [|c [|d s]]]]; try done. cbn [app].
  destruct (negb _); [done|]. destruct (blen s <? _)%N eqn:L; [done|]. intros [= <- <-].
  nbool. rewrite blen_app. rewrite (proj2 (N.ltb_ge _ _)) by lia. unfold blen in L.
  rewrite take_app_le, drop_app_le by lia. done.
Qed.

(** ** Invariant *)

(** The bytes of the incomplete frame the assembler holds. *)
Definition held (a : Assembler) : bytes :=
  match as_pending a with
  | None => take (as_got a) (as_header a)
  | Some _ => as_header a ++ as_body a
  end.

(** Between chunks: less than a header, or a legal header and less than a body. *)
Definition waiting (max_frame : N) (a : Assembler) : Prop :=
  length (as_header a) = 4 ∧
  match as_pending a with
  | None => as_got a < 4 ∧ as_body a = []
  | Some len => as_got a = 4 ∧ header_len (as_header a) = len ∧ legal max_frame len = true ∧
      (blen (as_body a) < len)%N
  end.

(** A complete frame waits to be taken. *)
Definition complete (p : bytes) (a : Assembler) : Prop :=
  length (as_header a) = 4 ∧ as_pending a = Some (blen p) ∧ as_body a = p.

Lemma waiting_default max : waiting max assembler_default.
Proof. split; [done|]. cbn. split; [lia|done]. Qed.

Lemma header_4 (h : bytes) : length h = 4 → ∃ a b c d, h = [a; b; c; d].
Proof. destruct h as [|a [|b [|c [|d [|]]]]]; try done. eauto 10. Qed.

(** The body phase of [feed]: one turn, and one to see that it is over. *)
Lemma feed_body fuel max rest h len body :
  length h = 4 → header_len h = len → legal max len = true → (blen body < len)%N →
  (rest ≠ [] → 2 ≤ fuel) →
  let a := mkAssembler h 4 (Some len) body in
  let s := h ++ body ++ rest in
  match head max s with
  | HeadBad => False
  | HeadMore => ∃ a', feed_loop fuel max rest a = (Ok [], a') ∧ waiting max a' ∧ held a' = s
  | HeadFrame p r => ∃ a', feed_loop fuel max rest a = (Ok r, a') ∧ complete p a'
  end.
Proof.
  intros Hh Hl Hg Hb Hf. destruct (header_4 h Hh) as (x & y & z & w & ->). cbn in Hl.
  cbn [app head]. rewrite Hl, Hg. cbn [negb].
  destruct rest as [|r0 rest0].
  { rewrite app_nil_r. rewrite (proj2 (N.ltb_lt _ _)) by done.
    exists (mkAssembler [x; y; z; w] 4 (Some len) body).
    split; [by destruct fuel|]. split; [|done]. by split_and!. }
  set (rest := r0 :: rest0) in *. destruct fuel as [|[|fuel]]; [exfalso; specialize (Hf ltac:(done)); lia..|].
  cbn [feed_loop as_pending has_frame as_body is_some_and as_header as_got].
  replace (len <=? blen body)%N with false by (symmetry; apply N.leb_gt; done).
  rewrite saturating_sub_spec. rewrite (proj2 (N.eqb_neq _ _)) by lia.
  change (match rest with [] => _ | _ :: _ => ?x end) with x.
  assert (Hr : 1 ≤ length rest) by (cbn; lia). clearbody rest.
  rewrite blen_app. destruct (blen body + blen rest <? len)%N eqn:L; nbool.
  - rewrite Nat.min_r by (unfold blen in *; lia). rewrite firstn_all, drop_all.
    eexists. split; [reflexivity|]. split; [|done].
    split; [done|]. cbn [as_pending as_body as_got as_header]. rewrite blen_app. by split_and!.
  - rewrite Nat.min_l by (unfold blen in *; lia).
    set (n := N.to_nat (len - blen body)).
    assert (B : blen (body ++ take n rest) = len).
    { rewrite blen_app. unfold blen in *. rewrite length_take. lia. }
    assert (T : take (N.to_nat len) (body ++ rest) = body ++ take n rest).
    { rewrite take_app_ge by (unfold blen in *; lia). do 2 f_equal. unfold blen in *. lia. }
    assert (D : drop (N.to_nat len) (body ++ rest) = drop n rest).
    { rewrite drop_app_ge by (unfold blen in *; lia). f_equal. unfold blen in *. lia. }
    rewrite T, D. exists (mkAssembler [x; y; z; w] 4 (Some len) (body ++ take n rest)).
    split; [|split_and!; cbn; [done|by rewrite B|done]].
    destruct (drop n rest) as [|d0 ds]; [done|].
    cbn [feed_loop as_pending has_frame as_body is_some_and]. rewrite B.
    by rewrite (proj2 (N.leb_le _ _)).
Qed.

Lemma feed_spec max rest a :
  waiting max a →
  match head max (held a ++ rest) with
  | HeadBad => (feed max rest a).1 = Err tt
  | HeadMore => ∃ a', feed max rest a = (Ok [], a') ∧ waiting max a' ∧ held a' = held a ++ rest
  | HeadFrame p r => ∃ a', feed max rest a = (Ok r, a') ∧ complete p a'
  end.
Proof.
  destruct a as [h got [len|] body]; intros [Hh Hw]; cbn in Hh, Hw; unfold feed.
  - destruct Hw as (-> & Hl & Hg & Hb). cbn [held as_pending as_header as_body].
    rewrite <- app_assoc. pose proof (feed_body (S (length rest)) max rest h len body Hh Hl Hg Hb)
      as F. cbn zeta in F. destruct (head _ _); [|apply F..].
    + exfalso. apply F. intros N. destruct rest; cbn; [done|lia].
    + intros N. destruct rest; cbn; [done|lia].
    + intros N. destruct rest; cbn; [done|lia].
  - destruct Hw as [Hg ->]. cbn [held as_pending as_header as_got].
    destruct rest as [|r0 rest0].
    { rewrite app_nil_r. replace (head max (take got h)) with HeadMore.
      - exists (mkAssembler h got None []). split_and!; [done|split; done|done].
      - destruct (header_4 h Hh) as (x & y & z & w & ->).
        by destruct got as [|[|[|[|]]]]; [..|lia]. }
    set (rest := r0 :: rest0) in *. assert (Hr : 1 ≤ length rest) by (cbn; lia).
    cbn [feed_loop as_pending as_got]. unfold copy_header. cbn [as_got as_header as_body].
    change (match rest with [] => _ | _ :: _ => ?x end) with x. clearbody rest.
    set (n := min (4 - got) (length rest)). destruct (got + n =? 4) eqn:E.
    + apply Nat.eqb_eq in E. rewrite E.
      replace (drop 4 h) with (@nil ascii) by (rewrite drop_ge; [done|lia]).
      rewrite app_nil_r. set (h' := take got h ++ take n rest).
      assert (Hh' : length h' = 4) by (unfold h'; rewrite length_app, !length_take; lia).
      assert (S : take got h ++ rest = h' ++ [] ++ drop n rest)
        by (unfold h'; cbn; by rewrite <- app_assoc, take_drop).
      rewrite S. fold (legal max (header_len h')) in *.
      destruct ((header_len h' =? 0) || (max <? header_len h'))%N eqn:B.
      * destruct (header_4 h' Hh') as (x & y & z & w & ->). cbn [app head header_len] in *.
        unfold legal. by rewrite B.
      * assert (G : legal max (header_len h') = true) by (unfold legal; by rewrite B).
        pose proof (feed_body (length rest) max (drop n rest) h' _ [] Hh' eq_refl G) as F.
        cbn zeta in F.
        assert (P : (blen [] < header_len h')%N).
        { apply orb_false_iff in B as [B _]. nbool. change (blen []) with 0%N. lia. }
        assert (Fu : drop n rest ≠ [] → 2 ≤ length rest).
        { intros N. destruct (drop n rest) eqn:D; [done|]. apply (f_equal length) in D. rewrite length_drop in D. cbn in D. lia. }
        specialize (F P Fu). destruct (head _ _); [done|apply F..].
    + apply Nat.eqb_neq in E. assert (N : n = length rest) by lia.
      rewrite N, drop_all, firstn_all. cbn [feed_loop].
      set (h' := take got h ++ rest ++ drop (got + length rest) h).
      assert (Hh' : length h' = 4)
        by (unfold h'; rewrite !length_app, length_take, length_drop; lia).
      assert (T : take (got + length rest) h' = take got h ++ rest).
      { unfold h'. rewrite app_assoc. apply take_app_length'. rewrite length_app, length_take. lia. }
      replace (head max (take got h ++ rest)) with HeadMore.
      * exists (mkAssembler h' (got + length rest) None []).
        split; [by destruct (length rest)|]. split; [|exact T].
        split; [done|]. cbn [as_pending as_got as_body]. split; [lia|done].
      * rewrite <- T. destruct (header_4 h' Hh') as (x & y & z & w & ->).
        assert (G4 : got + length rest < 4) by lia.
        by destruct (got + length rest) as [|[|[|[|]]]]; [..|lia].
Qed.

Lemma take_frame_waiting max a : waiting max a → take_frame a = (Ok None, a).
Proof.
  intros [_ W]. unfold take_frame, has_frame. destruct (as_pending a); cbn; [|done].
  by rewrite (proj2 (N.leb_gt _ _)) by apply W.
Qed.

Lemma take_frames_waiting max a : waiting max a → take_frames 2 a = (Ok [], a).
Proof. intros W. cbn. by rewrite (take_frame_waiting max). Qed.

Lemma take_frames_complete max p a :
  complete p a →
  ∃ a', take_frames 2 a = (Ok [p], a') ∧ waiting max a' ∧ held a' = [].
Proof.
  intros (Hh & Hp & Hb). exists (mkAssembler (as_header a) 0 None []).
  assert (E : take_frame a = (Ok (Some p), mkAssembler (as_header a) 0 None [])).
  { unfold take_frame, has_frame. rewrite Hp, Hb. cbn [is_some_and].
    rewrite N.leb_refl. cbn. by rewrite N.eqb_refl. }
  split; [|split; [split; [done|cbn; split; [lia|done]]|done]].
  cbn [take_frames]. by rewrite E.
Qed.

(** What is held is less than a frame. *)
Lemma waiting_short max a :
  waiting max a →
  match held a with
  | x :: y :: z :: w :: s => (blen s < from_be_bytes x y z w)%N ∧
      legal max (from_be_bytes x y z w) = true
  | _ => True
  end.
Proof.
  destruct a as [h got [len|] body]; intros [Hh Hw]; cbn in Hh, Hw; cbn [held as_pending].
  - destruct Hw as (-> & Hl & Hg & Hb). destruct (header_4 h Hh) as (x & y & z & w & ->).
    cbn in Hl. subst len. cbn. done.
  - destruct Hw as [Hg ->]. cbn. destruct (header_4 h Hh) as (x & y & z & w & ->).
    by destruct got as [|[|[|[|]]]]; [..|lia].
Qed.

Lemma waiting_head max a : waiting max a → head max (held a) = HeadMore.
Proof.
  intros W%waiting_short. unfold head. destruct (held a) as [|x [|y [|z [|w s]]]]; try done.
  destruct W as [W ->]. cbn [negb]. by rewrite (proj2 (N.ltb_lt _ _)).
Qed.

Lemma head_consumes max a c p r :
  waiting max a → head max (held a ++ c) = HeadFrame p r → length r < length c.
Proof.
  intros W H. destruct (decide (length r < length c)) as [|N]; [done|]. exfalso.
  apply waiting_short in W. unfold head in H.
  destruct (held a ++ c) as [|x [|y [|z [|w s]]]] eqn:S; try done.
  destruct (negb _); [done|]. destruct (blen s <? _)%N eqn:L; [done|]. injection H as _ <-.
  nbool. rewrite length_drop in N. pose proof (f_equal length S) as E.
  rewrite length_app in E. cbn [length] in E.
  destruct (held a) as [|x' [|y' [|z' [|w' s']]]]; cbn [length] in *; try (unfold blen in *; lia).
  injection S as -> -> -> -> <-. destruct W as [W _]. rewrite blen_app in L.
  unfold blen in *. rewrite length_app in N. lia.
Qed.

Lemma head_more_app max s t :
  head max s = HeadBad → head max (s ++ t) = HeadBad.
Proof. unfold head. destruct s as [|a [|b [|c [|d s]]]]; try done. cbn [app].
  destruct (negb _); [done|]. by destruct (_ <? _)%N.
Qed.

Lemma deframe_app max s t :
  deframe max (s ++ t) =
  match deframe max s with
  | (fs, Some r) => (fs ++ (deframe max (r ++ t)).1, (deframe max (r ++ t)).2)
  | (fs, None) => (fs, None)
  end.
Proof.
  remember (length s) as n eqn:Hn. revert s Hn.
  induction n as [n IH] using lt_wf_ind. intros s ->. rewrite (deframe_head max s).
  destruct (head max s) as [| |p r] eqn:H.
  - by rewrite deframe_head, (head_more_app _ _ _ H).
  - cbn. by destruct (deframe max (s ++ t)).
  - rewrite deframe_head, (head_app _ _ _ _ _ H).
    assert (L : length r < length s).
    { unfold head in H. destruct s as [|x [|y [|z [|w s]]]]; try done.
      destruct (negb _); [done|]. destruct (_ <? _)%N; [done|]. injection H as _ <-.
      rewrite length_drop. cbn. lia. }
    rewrite (IH _ L r eq_refl). by destruct (deframe max r) as [fs [r'|]].
Qed.

Lemma pump_chunk_spec fuel max c a :
  waiting max a → length c < fuel →
  match deframe max (held a ++ c) with
  | (fs, Some s) => ∃ a', pump_chunk fuel max c a = (Ok fs, a') ∧ waiting max a' ∧ held a' = s
  | (_, None) => (pump_chunk fuel max c a).1 = Err "frame too large"
  end.
Proof.
  revert c a. induction fuel as [|fuel IH]; intros c a W L; [lia|].
  pose proof (feed_spec max c a W) as F. cbn [pump_chunk]. rewrite deframe_head.
  destruct (head max (held a ++ c)) as [| |p r] eqn:H.
  - destruct (feed max c a) as [[|] ?]; [done|]. done.
  - destruct F as (a' & -> & W' & H'). rewrite (take_frames_waiting max) by done. cbn. eauto.
  - destruct F as (a' & -> & C). destruct (take_frames_complete max p a' C) as (a2 & -> & W2 & H2).
    assert (R : length r < length c) by exact (head_consumes max a c p r W H).
    specialize (IH r a2 W2 ltac:(lia)).
    assert (D : deframe max r = deframe max (held a2 ++ r)) by (by rewrite H2). rewrite D.
    case_bool_decide as E; [subst r; rewrite app_nil_r, H2; cbn; eauto|].
    rewrite bool_decide_eq_false_2 by done. destruct (deframe max (held a2 ++ r)) as [fs [s|]]; cbn [fst snd].
    + destruct IH as (a3 & -> & W3 & H3). eauto.
    + destruct (pump_chunk fuel max r a2) as [[] ?]; [done|]. cbn in *. by injection IH as ->.
Qed.

(** C26: reassembly refines the parser of the whole stream. However the bytes are
    cut into chunks, and over however many rounds, the assembler hands out exactly
    the frames of the byte sequence, in order, and holds exactly the incomplete
    frame that is left; the first illegal length ends it, and its internal error
    cases are never reached. *)
Theorem assembler_refines (max_frame : N) (chunks : list bytes) (a : Assembler) :
  waiting max_frame a →
  match deframe max_frame (held a ++ concat chunks) with
  | (fs, Some s) => ∃ a', pump_chunks max_frame chunks a = (Ok fs, a') ∧
      waiting max_frame a' ∧ held a' = s
  | (_, None) => (pump_chunks max_frame chunks a).1 = Err "frame too large"
  end.
Proof.
  revert a. induction chunks as [|c chunks IH]; intros a W; cbn [concat pump_chunks].
  { rewrite app_nil_r, deframe_head, (waiting_head _ _ W). eauto. }
  pose proof (pump_chunk_spec (S (length c)) max_frame c a W ltac:(lia)) as P.
  rewrite app_assoc, deframe_app.
  destruct (deframe max_frame (held a ++ c)) as [fs [s|]]; cbn [fst snd].
  - destruct P as (a1 & -> & W1 & <-). specialize (IH a1 W1).
    destruct (deframe max_frame (held a1 ++ concat chunks)) as [fs' [s'|]]; cbn [fst snd].
    + destruct IH as (a2 & -> & W2 & H2). eauto.
    + destruct (pump_chunks max_frame chunks a1) as [[] ?]; [done|]. cbn in *.
      by injection IH as ->.
  - destruct (pump_chunk _ _ _ _) as [[] ?]; [done|]. cbn in *. by injection P as ->.
Qed.

Lemma assembler_refines_witness :
  let c1 := ["000"; "000"; "000"; "001"; "a"; "000"; "000"]%char in
  let c2 := ["000"; "002"; "b"; "c"; "000"]%char in
  ∃ a', pump_chunks 16 [c1; c2] assembler_default = (Ok [["a"]; ["b"; "c"]]%char, a') ∧
    held a' = ["000"%char].
Proof.
  intros c1 c2. destruct (assembler_refines 16 [c1; c2] assembler_default) as (a' & H & _ & H').
  - split; [done|]. cbn. split; [lia|done].
  - eauto.
Defined.
