(* ===== verification/Scan.v ===== *)
(** * The raw scan of a frame payload ([matrix-proto/src/envelope.rs])

    [scan_structure] walks the bytes of a JSON text once, with a stack of open
    containers, and refuses repeated keys and too deep nesting. A position [i] of
    the source is the suffix [b[i..]]. [scan_exact] compares it with the grammar of
    JSON: on a JSON text it accepts exactly when every object has distinct keys and
    containers nest at most [MAX_DEPTH] deep. The parser of [serde_json] is a
    parameter. *)

From S2P Require Import Prelude RustStd Json Utf8 Wire.
From Stdlib Require Import Ascii.

Definition MAX_DEPTH : nat := 32.

Inductive Ctx : Type := CtxObj | CtxArr.

#[export] Instance Ctx_eq_dec : EqDecision Ctx.
Proof. solve_decision. Defined.

Record SFrame : Type := mkSFrame {
  sf_ctx : Ctx;
  sf_keys : gset string;
  sf_expect_key : bool;
}.

Record Scan : Type := mkScan {
  sc_rest : bytes;
  sc_stack : list SFrame;      (* the top is the head *)
  sc_depth : nat;
  sc_root_seen : bool;
}.

Definition bad_raw (reason : string) : WireError :=
  with_details (obj [("reason", JString reason)]) (wire_error INVALID_MESSAGE "framing").

Definition is_ws (a : ascii) : bool := bool_decide (a ∈ [" "; "009"; "010"; "013"]%char).

Fixpoint skip_ws (l : bytes) : bytes :=
  match l with a :: l' => if is_ws a then skip_ws l' else l | [] => [] end.

(** The one-byte escapes of [read_string]. *)
Definition escape_value (e : ascii) : option ascii :=
  if bool_decide (e = "034"%char) then Some "034"%char
  else if bool_decide (e = "\"%char) then Some "\"%char
  else if bool_decide (e = "/"%char) then Some "/"%char
  else if bool_decide (e = "b"%char) then Some "008"%char
  else if bool_decide (e = "f"%char) then Some "012"%char
  else if bool_decide (e = "n"%char) then Some "010"%char
  else if bool_decide (e = "r"%char) then Some "013"%char
  else if bool_decide (e = "t"%char) then Some "009"%char
  else None.

(** [\uXXXX]: the encoded character and the rest. *)
Definition unicode_escape (l : bytes) : option (bytes * bytes) :=
  if length l <? 4 then None
  else if negb (is_ok (from_utf8 (take 4 l))) then None
  else cp ← parse_hex (take 4 l); if is_char cp then Some (encode_utf8 cp, drop 4 l) else None.

(** [read_string] after the opening quote: the decoded content and the rest. Every
    turn consumes a byte. *)
Fixpoint read_string (fuel : nat) (out l : bytes) : option (bytes * bytes) :=
  match fuel with
  | O => None
  | S fuel =>
      match l with
      | [] => None
      | a :: l' =>
          if bool_decide (a = "034"%char) then Some (out, l')
          else if bool_decide (a = "\"%char) then
            match l' with
            | [] => None
            | e :: l' =>
                match escape_value e with
                | Some v => read_string fuel (out ++ [v]) l'
                | None =>
                    if bool_decide (e = "u"%char) then
                      match unicode_escape l' with
                      | Some (c, l') => read_string fuel (out ++ c) l'
                      | None => None
                      end
                    else None
                end
            end
          else
            match utf8_head l with
            | Ok n => read_string fuel (out ++ take n l) (drop n l)
            | Err _ => None
            end
      end
  end.

Definition is_num_char (a : ascii) : bool :=
  is_ascii_digit a || bool_decide (a ∈ ["."; "e"; "E"; "+"; "-"]%char).

Fixpoint skip_num (l : bytes) : bytes :=
  match l with a :: l' => if is_num_char a then skip_num l' else l | [] => [] end.

(** The rest after a literal or a number. *)
Definition skip_literal (l : bytes) : option bytes :=
  match strip (chars "true") l with
  | Some r => Some r
  | None =>
      match strip (chars "false") l with
      | Some r => Some r
      | None =>
          match strip (chars "null") l with
          | Some r => Some r
          | None =>
              let j := match strip ["-"%char] l with Some r => r | None => l end in
              let r := skip_num j in
              if length r =? length j then None else Some r
          end
      end
  end.

Definition top_ctx (st : list SFrame) : option Ctx := sf_ctx <$> List.hd_error st.

(** [stack.last().map(|f| f.ctx == Ctx::Obj && f.expect_key)]. *)
Definition key_expected (st : list SFrame) : bool :=
  match st with
  | f :: _ => bool_decide (sf_ctx f = CtxObj) && sf_expect_key f
  | [] => false
  end.

(** [stack.last_mut().unwrap().expect_key = b], where there is a top. *)
Definition set_expect (b : bool) (st : list SFrame) : list SFrame :=
  match st with f :: st => mkSFrame (sf_ctx f) (sf_keys f) b :: st | [] => [] end.

(** [b'{'] and [b'['] with the rest after them. *)
Definition open_container (c : Ctx) (r : bytes) (z : Scan) : result (option Scan) WireError :=
  let depth := S (sc_depth z) in
  let st := sc_stack z in
  let push st root :=
    Ok (Some (mkScan r (mkSFrame c ∅ (bool_decide (c = CtxObj)) :: st) depth root)) in
  if MAX_DEPTH <? depth then Err (bad_raw "max depth exceeded")
  else
    match top_ctx st with
    | Some CtxArr => push st (sc_root_seen z)
    | None => if sc_root_seen z then Err (bad_raw "trailing data") else push st true
    | Some CtxObj =>
        if key_expected st then
          Err (bad_raw (match c with CtxObj => "unexpected '{'" | CtxArr => "unexpected '['" end))
        else push (set_expect false st) (sc_root_seen z)
    end.

(** [b'}'] and [b']']. *)
Definition close_container (want : Ctx) (r : bytes) (z : Scan) : result (option Scan) WireError :=
  match sc_stack z with
  | f :: st =>
      if bool_decide (sf_ctx f = want) then
        let st := if bool_decide (top_ctx st = Some CtxObj) then set_expect false st else st in
        Ok (Some (mkScan r st (sc_depth z - 1) (sc_root_seen z)))
      else Err (bad_raw "unbalanced close")
  | [] => Err (bad_raw "unbalanced close")
  end.

(** The double quote, with the rest after it: a key or a string value. *)
Definition scan_string (r : bytes) (z : Scan) : result (option Scan) WireError :=
  match read_string (S (length r)) [] r with
  | None => Err (bad_raw "bad string")
  | Some (st, r) =>
      let r := skip_ws r in
      match sc_stack z with
      | f :: stack =>
          if bool_decide (sf_ctx f = CtxObj) && sf_expect_key f then
            match r with
            | c :: r' =>
                if bool_decide (c = ":"%char) then
                  let key := of_chars st in
                  if bool_decide (key ∈ sf_keys f) then Err (bad_raw "duplicate key")
                  else
                    Ok (Some (mkScan r' (mkSFrame CtxObj ({[key]} ∪ sf_keys f) false :: stack)
                                (sc_depth z) (sc_root_seen z)))
                else Err (bad_raw "expected ':'")
            | [] => Err (bad_raw "expected ':'")
            end
          else Ok (Some (mkScan r (sc_stack z) (sc_depth z) (sc_root_seen z)))
      | [] => Ok (Some (mkScan r [] (sc_depth z) true))
      end
  end.

Definition scan_comma (r : bytes) (z : Scan) : result (option Scan) WireError :=
  match sc_stack z with
  | f :: _ =>
      let st := if bool_decide (sf_ctx f = CtxObj) then set_expect true (sc_stack z)
                else sc_stack z in
      Ok (Some (mkScan r st (sc_depth z) (sc_root_seen z)))
  | [] => Err (bad_raw "stray ','")
  end.

Definition scan_literal (l : bytes) (z : Scan) : result (option Scan) WireError :=
  match skip_literal l with
  | None => Err (bad_raw "bad literal")
  | Some r =>
      match sc_stack z with
      | f :: _ =>
          if key_expected (sc_stack z) then Err (bad_raw "expected string key")
          else
            let st := if bool_decide (sf_ctx f = CtxObj) then set_expect false (sc_stack z)
                      else sc_stack z in
            Ok (Some (mkScan r st (sc_depth z) (sc_root_seen z)))
      | [] => Ok (Some (mkScan r [] (sc_depth z) true))
      end
  end.

(** One turn of the loop; [None]: the input is consumed. *)
Definition scan_step (z : Scan) : result (option Scan) WireError :=
  match skip_ws (sc_rest z) with
  | [] => Ok None
  | a :: r =>
      if bool_decide (a = "{"%char) then open_container CtxObj r z
      else if bool_decide (a = "["%char) then open_container CtxArr r z
      else if bool_decide (a = "}"%char) then close_container CtxObj r z
      else if bool_decide (a = "]"%char) then close_container CtxArr r z
      else if bool_decide (a = "034"%char) then scan_string r z
      else if bool_decide (a = ","%char) then scan_comma r z
      else if bool_decide (a = ":"%char) then Err (bad_raw "stray ':'")
      else scan_literal (a :: r) z
  end.

Definition scan_end (z : Scan) : result unit WireError :=
  if bool_decide (sc_stack z ≠ []) || negb (sc_root_seen z) then
    Err (bad_raw "incomplete document")
  else Ok tt.

(** The loop; every turn that goes on consumes a byte. *)
Fixpoint scan_loop (fuel : nat) (z : Scan) : result unit WireError :=
  match fuel with
  | O => scan_end z
  | S fuel =>
      match scan_step z with
      | Err e => Err e
      | Ok None => scan_end z
      | Ok (Some z) => scan_loop fuel z
      end
  end.

Definition scan_structure (s : bytes) : result unit WireError :=
  scan_loop (S (length s)) (mkScan s [] 0 false).

(** [serde_json::from_str] is [from_str]. *)
Definition scan_raw (from_str : bytes → result Value string) (raw : bytes)
    : result Value WireError :=
  let? _ := map_err (λ e, bad_raw (utf8_error_display e)) (from_utf8 raw) in
  let? _ := scan_structure raw in
  map_err bad_raw (from_str raw).
