(* ===== verification/ScanExact.v ===== *)
(** * The raw scan accepts exactly the admissible JSON texts

    The grammar of JSON as a relation between trees and texts, with white space
    wherever it is allowed; which trees are admissible; and the proof, by mutual
    induction on the grammar, that [scan_structure] accepts a text exactly when its
    tree is admissible. The grammar has every JSON text; beyond JSON it has unescaped control
    characters and loose numbers, which the parser that runs after the scan refuses. The scanner
    decodes every escape by itself, so a tree with an escaped surrogate is not admissible, alone
    or as half of a pair, although an escaped pair is a character of a JSON text. *)

From S2P Require Import Prelude RustStd Json Utf8 Wire Scan.
From Stdlib Require Import Ascii.

(** ** The grammar *)

Inductive Tree : Type :=
| TLit
| TStr (content : option bytes)
| TArr (l : list Tree)
| TObj (m : list (option bytes * Tree)).

Definition ws (w : bytes) : Prop := Forall (λ a, is_ws a = true) w.

(** The characters of a string literal: content and text. The content is [None] when the text
    escapes a surrogate: four hexadecimal digits that are no character on their own. *)
Inductive str_text : option bytes → bytes → Prop :=
| st_nil : str_text (Some []) []
| st_char c content text :
    utf8_head c = Ok (length c) → List.hd_error c ≠ Some "034"%char →
    List.hd_error c ≠ Some "\"%char → str_text content text →
    str_text (app c <$> content) (c ++ text)
| st_escape e v content text :
    escape_value e = Some v → str_text content text →
    str_text (cons v <$> content) ("\"%char :: e :: text)
| st_unicode h cp content text :
    length h = 4 → hex_digits 0 h = Some cp → is_char cp = true → str_text content text →
    str_text (app (encode_utf8 cp) <$> content) ("\"%char :: "u"%char :: h ++ text)
| st_surrogate h cp content text :
    length h = 4 → hex_digits 0 h = Some cp → is_char cp = false → str_text content text →
    str_text None ("\"%char :: "u"%char :: h ++ text).

(** A literal name or a number. *)
Definition literal (raw : bytes) : Prop :=
  raw ∈ [chars "true"; chars "false"; chars "null"] ∨
  ∃ sign body, raw = sign ++ body ∧ (sign = [] ∨ sign = ["-"%char]) ∧
    (∃ d ds, body = d :: ds ∧ is_ascii_digit d = true) ∧ Forall (λ a, is_num_char a = true) body.

Definition quoted (text : bytes) : bytes := "034"%char :: text ++ ["034"%char].

Inductive renders : Tree → bytes → Prop :=
| rd_lit raw : literal raw → renders TLit raw
| rd_str content text : str_text content text → renders (TStr content) (quoted text)
| rd_arr_nil w : ws w → renders (TArr []) ("["%char :: w ++ ["]"%char])
| rd_arr l body : elements l body → renders (TArr l) ("["%char :: body ++ ["]"%char])
| rd_obj_nil w : ws w → renders (TObj []) ("{"%char :: w ++ ["}"%char])
| rd_obj m body : members m body → renders (TObj m) ("{"%char :: body ++ ["}"%char])
with elements : list Tree → bytes → Prop :=
| el_one t w1 raw w2 : ws w1 → ws w2 → renders t raw → elements [t] (w1 ++ raw ++ w2)
| el_cons t w1 raw w2 l body :
    ws w1 → ws w2 → renders t raw → elements l body →
    elements (t :: l) (w1 ++ raw ++ w2 ++ ","%char :: body)
with members : list (option bytes * Tree) → bytes → Prop :=
| mb_one k text t w1 w2 w3 raw w4 :
    ws w1 → ws w2 → ws w3 → ws w4 → str_text k text → renders t raw →
    members [(k, t)] (w1 ++ quoted text ++ w2 ++ ":"%char :: w3 ++ raw ++ w4)
| mb_cons k text t w1 w2 w3 raw w4 m body :
    ws w1 → ws w2 → ws w3 → ws w4 → str_text k text → renders t raw → members m body →
    members ((k, t) :: m) (w1 ++ quoted text ++ w2 ++ ":"%char :: w3 ++ raw ++ w4 ++ ","%char :: body).

Scheme renders_mut := Induction for renders Sort Prop
with elements_mut := Induction for elements Sort Prop
with members_mut := Induction for members Sort Prop.
Combined Scheme grammar_ind from renders_mut, elements_mut, members_mut.

(** ** Admissible trees *)

(** A key without surrogates that is new to [seen], as a string. *)
Definition fresh_key (seen : gset string) (k : option bytes) : bool :=
  is_some_and (λ k, negb (bool_decide (of_chars k ∈ seen))) k.

Definition with_key (seen : gset string) (k : option bytes) : gset string :=
  match k with Some k => {[of_chars k]} ∪ seen | None => seen end.

(** The keys are new to [seen] and distinct. *)
Fixpoint fresh_keys (seen : gset string) (ks : list (option bytes)) : bool :=
  match ks with
  | [] => true
  | k :: ks => fresh_key seen k && fresh_keys (with_key seen k) ks
  end.

(** Containers that start at depth [d] nest at most [MAX_DEPTH] deep, every object has distinct
    keys, and no string or key escapes a surrogate. *)
Fixpoint admissible_tree (d : nat) (t : Tree) : bool :=
  match t with
  | TLit => true
  | TStr content => is_some content
  | TArr l => (d <? MAX_DEPTH) && forallb (admissible_tree (S d)) l
  | TObj m =>
      (d <? MAX_DEPTH) && fresh_keys ∅ m.*1 && forallb (λ kt, admissible_tree (S d) kt.2) m
  end.

(** ** Lexing *)

Lemma skip_ws_app w l : ws w → skip_ws (w ++ l) = skip_ws l.
Proof. induction 1 as [|a w H _ IH]; cbn; [done|]. by rewrite H. Qed.

Lemma skip_ws_stop a l : is_ws a = false → skip_ws (a :: l) = a :: l.
Proof. intros H. cbn. by rewrite H. Qed.

(** The rest does not continue a number. *)
Definition delimited (l : bytes) : Prop :=
  match l with a :: _ => is_num_char a = false | [] => True end.

Lemma ws_delimited w l : ws w → delimited l → delimited (w ++ l).
Proof.
  intros [|a w' H _] D; [done|]. cbn. unfold is_ws in H. apply bool_decide_eq_true in H.
  rewrite !elem_of_cons in H. destruct H as [->|[->|[->|[->|H]]]]; [done..|].
  by apply not_elem_of_nil in H.
Qed.

Lemma skip_num_app body l :
  Forall (λ a, is_num_char a = true) body → delimited l → skip_num (body ++ l) = l.
Proof.
  intros H D. induction H as [|a body H _ IH]; cbn; [|by rewrite H].
  destruct l as [|b l]; [done|]. cbn in *. by rewrite D.
Qed.

(** A boolean property of bytes that holds of all of them, by evaluation. *)
Definition all_ascii : bytes := (λ n, ascii_of_nat n) <$> seq 0 256.

Lemma ascii_forall (P : ascii → bool) : forallb P all_ascii = true → ∀ a, P a = true.
Proof.
  intros H a. rewrite forallb_forall in H. apply H. apply list_elem_of_In, list_elem_of_fmap.
  exists (nat_of_ascii a). rewrite ascii_nat_embedding. split; [done|].
  apply elem_of_seq. pose proof (nat_ascii_bounded a). lia.
Qed.

Definition special : bytes := ["{"; "["; "}"; "]"; "034"; ","; ":"]%char.

(** The first byte of a literal, as the scanner distinguishes it. *)
Definition plain_head (a : ascii) : bool :=
  negb (is_ws a) && negb (bool_decide (a ∈ special)).

Lemma digit_plain a : is_ascii_digit a = true →
  plain_head a = true ∧ a ≠ "t"%char ∧ a ≠ "f"%char ∧ a ≠ "n"%char ∧ a ≠ "-"%char.
Proof.
  intros H.
  pose proof (ascii_forall (λ a, negb (is_ascii_digit a) ||
    plain_head a && bool_decide (a ∉ ["t"; "f"; "n"; "-"]%char)) ltac:(vm_cast_no_check (eq_refl true)) a) as F.
  cbn beta in F. rewrite H in F. cbn [negb orb] in F. apply andb_true_iff in F as [F1 F2].
  split; [done|]. apply bool_decide_eq_true in F2. rewrite !not_elem_of_cons in F2. naive_solver.
Qed.

Lemma strip_head_ne p a l b : a ≠ b → strip (b :: p) (a :: l) = None.
Proof. intros H. cbn. by rewrite bool_decide_eq_false_2 by congruence. Qed.

Lemma skip_literal_spec raw l :
  literal raw → delimited l → skip_literal (raw ++ l) = Some l.
Proof.
  intros [H|(sign & body & -> & S & (d & ds & -> & Hd) & F)] D.
  - rewrite !elem_of_cons in H. unfold skip_literal.
    destruct H as [->|[->|[->|H]]]; [| | |by apply not_elem_of_nil in H].
    all: cbn; done.
  - pose proof (digit_plain d Hd) as (_ & Ht & Hf & Hn & Hm).
    assert (L : ∀ p, p ∈ [chars "true"; chars "false"; chars "null"] →
      strip p ((sign ++ d :: ds) ++ l) = None).
    { intros p Hp. rewrite !elem_of_cons in Hp. destruct S as [-> | ->]; cbn [app].
      all: destruct Hp as [->|[->|[->|Hp]]]; [| | |by apply not_elem_of_nil in Hp].
      all: cbn; by rewrite bool_decide_eq_false_2 by congruence. }
    unfold skip_literal. rewrite !L by (rewrite !elem_of_cons; tauto).
    assert (J : match strip ["-"%char] ((sign ++ d :: ds) ++ l) with
                | Some r => r | None => (sign ++ d :: ds) ++ l end = (d :: ds) ++ l).
    { destruct S as [-> | ->]; cbn; [|done]. by rewrite bool_decide_eq_false_2 by congruence. }
    rewrite J, skip_num_app by done.
    replace (length l =? length ((d :: ds) ++ l)) with false; [done|].
    symmetry. apply Nat.eqb_neq. rewrite length_app. cbn. lia.
Qed.

(** ** Strings *)

Lemma utf8_head_app c l n : utf8_head c = Ok n → utf8_head (c ++ l) = Ok n.
Proof.
  unfold utf8_head. destruct c as [|a [|b [|c [|d c']]]]; cbn [app]; try done.
  all: destruct (char_width a) as [|[|[|[|w]]]]; try done.
  all: destruct (second_ok a b) || idtac; cbn [negb]; try done.
  all: destruct (is_cont c) || idtac; cbn [negb Nat.eqb]; done.
Qed.

Lemma hex_value_ascii a d : hex_value a = Some d →
  char_width a = 1 ∧ a ≠ "+"%char.
Proof.
  intros H.
  pose proof (ascii_forall (λ a, negb (is_some (hex_value a)) ||
    (char_width a =? 1) && negb (bool_decide (a = "+"%char))) ltac:(vm_cast_no_check (eq_refl true)) a) as F.
  cbn beta in F. rewrite H in F. cbn [is_some negb orb] in F. nbool. by apply Nat.eqb_eq in H0.
Qed.

Lemma hex_digits_ascii l acc cp :
  hex_digits acc l = Some cp → Forall (λ a, char_width a = 1 ∧ a ≠ "+"%char) l.
Proof.
  revert acc. induction l as [|a l IH]; intros acc; cbn; [by constructor|].
  destruct (hex_value a) eqn:E; [|done]. intros H. constructor; [by eapply hex_value_ascii|eauto].
Qed.

Lemma ascii_utf8 l : Forall (λ a, char_width a = 1) l → from_utf8 l = Ok tt.
Proof.
  intros H. unfold from_utf8. enough (∀ n, utf8_error (length l) n l = None) as ->; [done|].
  induction H as [|a l E _ IH]; intros n; [done|]. cbn [length utf8_error utf8_head].
  rewrite E. apply IH.
Qed.

Lemma unicode_escape_spec h cp l :
  length h = 4 → hex_digits 0 h = Some cp →
  unicode_escape (h ++ l) = if is_char cp then Some (encode_utf8 cp, l) else None.
Proof.
  intros L H. unfold unicode_escape.
  replace (length (h ++ l) <? 4) with false
    by (symmetry; apply Nat.ltb_ge; rewrite length_app; lia).
  rewrite take_app_length', drop_app_length' by done.
  pose proof (hex_digits_ascii _ _ _ H) as F.
  rewrite ascii_utf8 by (eapply Forall_impl; [exact F|by intros ? []]). cbn [is_ok negb].
  assert (parse_hex h = Some cp) as ->; [|done].
  destruct h as [|a h]; [done|]. apply Forall_cons_1 in F as [[_ Hp] _]. cbn [parse_hex].
  by rewrite bool_decide_eq_false_2 by done.
Qed.

Lemma read_string_spec content text : str_text content text → ∀ fuel out rest,
  length text < fuel →
  read_string fuel out (text ++ "034"%char :: rest) = (λ c, (out ++ c, rest)) <$> content.
Proof.
  induction 1 as [|c content text U Q B _ IH|e v content text V _ IH|h cp content text L H C _ IH
    |h cp content text L H C _ IH];
    intros fuel out rest F; (destruct fuel as [|fuel]; [lia|]).
  - cbn. by rewrite app_nil_r.
  - pose proof (utf8_head_bound _ _ U) as B'. destruct c as [|a c]; [cbn in B'; lia|].
    cbn in Q, B. rewrite length_app in F. cbn [length] in F.
    cbn [app read_string]. rewrite !bool_decide_eq_false_2 by congruence.
    rewrite <- app_assoc. change (a :: c ++ ?l) with ((a :: c) ++ l).
    rewrite (utf8_head_app _ _ _ U), take_app_length, drop_app_length, IH by lia.
    destruct content; cbn; [|done]. by rewrite <- app_assoc.
  - cbn [length] in F. cbn [app read_string]. rewrite V, bool_decide_eq_false_2, bool_decide_eq_true_2 by done.
    rewrite IH by lia. destruct content; cbn; [|done]. by rewrite <- app_assoc.
  - cbn [length] in F. rewrite length_app in F. cbn [app read_string].
    rewrite bool_decide_eq_false_2, bool_decide_eq_true_2 by done.
    change (escape_value "u") with (@None ascii). rewrite bool_decide_eq_true_2 by done.
    rewrite <- app_assoc, (unicode_escape_spec h cp), C, IH by (done || lia).
    destruct content; cbn; [|done]. by rewrite <- app_assoc.
  - cbn [app read_string]. rewrite bool_decide_eq_false_2, bool_decide_eq_true_2 by done.
    change (escape_value "u") with (@None ascii). rewrite bool_decide_eq_true_2 by done.
    by rewrite <- app_assoc, (unicode_escape_spec h cp), C by done.
Qed.

(** ** Runs of the scanner *)

(** States up to the white space they are about to skip. *)
Definition norm (z : Scan) : Scan :=
  mkScan (skip_ws (sc_rest z)) (sc_stack z) (sc_depth z) (sc_root_seen z).

Definition at_ (rest : bytes) (st : list SFrame) (d : nat) (root : bool) : Scan :=
  norm (mkScan rest st d root).

Lemma skip_ws_idem l : skip_ws (skip_ws l) = skip_ws l.
Proof. induction l as [|a l IH]; cbn; [done|]. destruct (is_ws a) eqn:E; cbn; by rewrite ?E. Qed.

Lemma scan_step_norm z : scan_step (norm z) = scan_step z.
Proof. unfold scan_step, norm. cbn [sc_rest]. by rewrite skip_ws_idem. Qed.

Lemma at_ws w rest st d root : ws w → at_ (w ++ rest) st d root = at_ rest st d root.
Proof. intros W. unfold at_, norm. cbn [sc_rest]. by rewrite skip_ws_app. Qed.

Definition turn (z z' : Scan) : Prop := ∃ y, scan_step z = Ok (Some y) ∧ z' = norm y.
Definition fails (z : Scan) : Prop := ∃ y e, rtc turn z y ∧ scan_step y = Err e.

(** The scanner comes from [z] to [z'] or fails, as [b] says. *)
Definition goes (b : bool) (z z' : Scan) : Prop := if b then rtc turn z z' else fails z.

Lemma goes_trans b1 b2 z1 z2 z3 : goes b1 z1 z2 → goes b2 z2 z3 → goes (b1 && b2) z1 z3.
Proof.
  destruct b1; cbn; [|done]. intros H. destruct b2; cbn; [by etrans|].
  intros (y & e & R & E). exists y, e. split; [by etrans|done].
Qed.

Lemma goes_step z y b z' : scan_step z = Ok (Some y) → goes b (norm y) z' → goes b z z'.
Proof. intros E H. apply (goes_trans true b z (norm y)); [|done]. apply rtc_once. by exists y. Qed.

Lemma goes_err z e z' : scan_step z = Err e → goes false z z'.
Proof. intros E. exists z, e. by split. Qed.

Lemma goes_one z y b : scan_step z = Ok (Some y) → b = true → goes b z (norm y).
Proof. intros E ->. eapply goes_step; [done|]. apply rtc_refl. Qed.

(** A position where a value may stand, and [root_seen] after it. *)
Definition value_pos (st : list SFrame) (root : bool) : Prop :=
  match st with
  | [] => root = false
  | f :: _ => sf_ctx f = CtxArr ∨ (sf_ctx f = CtxObj ∧ sf_expect_key f = false)
  end.
Definition root_after (st : list SFrame) (root : bool) : bool :=
  match st with [] => true | _ => root end.

Lemma value_pos_expect st root : value_pos st root →
  key_expected st = false ∧ (top_ctx st = Some CtxObj → set_expect false st = st).
Proof.
  destruct st as [|[c k x] st]; cbn; [done|].
  intros [->|[-> ->]]; cbn; (split; [done|]); congruence.
Qed.

(** ** One turn each *)

Lemma step_open c a rest st d root :
  (c, a) = (CtxObj, "{"%char) ∨ (c, a) = (CtxArr, "["%char) → value_pos st root →
  scan_step (at_ (a :: rest) st d root) =
  if d <? MAX_DEPTH then
    Ok (Some (mkScan rest (mkSFrame c ∅ (bool_decide (c = CtxObj)) :: st) (S d) (root_after st root)))
  else Err (bad_raw "max depth exceeded").
Proof.
  intros C V. unfold at_. rewrite scan_step_norm. pose proof (value_pos_expect _ _ V) as [K X].
  assert (E : scan_step (mkScan (a :: rest) st d root) = open_container c rest (mkScan (a :: rest) st d root)).
  { by destruct C as [[= -> ->]|[= -> ->]]. }
  rewrite E. unfold open_container. cbn [sc_depth sc_stack sc_root_seen]. rewrite K.
  replace (MAX_DEPTH <? S d) with (negb (d <? MAX_DEPTH))
    by (destruct (Nat.ltb_spec d MAX_DEPTH), (Nat.ltb_spec MAX_DEPTH (S d)); cbn; lia).
  destruct (d <? MAX_DEPTH); cbn [negb]; [|done].
  destruct st as [|f st]; cbn in V |- *; [by subst|].
  destruct (sf_ctx f) eqn:F; [|done]. cbn in X. rewrite F in X. by rewrite X.
Qed.

Lemma step_close c a rest K x st d root :
  (c, a) = (CtxObj, "}"%char) ∨ (c, a) = (CtxArr, "]"%char) → (∃ r, value_pos st r) →
  scan_step (at_ (a :: rest) (mkSFrame c K x :: st) (S d) root) = Ok (Some (mkScan rest st d root)).
Proof.
  intros C [r V]. unfold at_. rewrite scan_step_norm. pose proof (value_pos_expect _ _ V) as [_ X].
  set (z := mkScan _ _ _ _).
  assert (E : scan_step z = close_container c rest z) by by destruct C as [[= -> ->]|[= -> ->]].
  rewrite E. unfold close_container. subst z. cbn [sc_depth sc_stack sc_root_seen sf_ctx].
  rewrite bool_decide_eq_true_2 by done. rewrite Nat.sub_succ, Nat.sub_0_r.
  case_bool_decide; [|done]. by rewrite X.
Qed.

Lemma step_comma_arr rest K x st d root :
  scan_step (at_ (","%char :: rest) (mkSFrame CtxArr K x :: st) d root) =
  Ok (Some (mkScan rest (mkSFrame CtxArr K x :: st) d root)).
Proof. reflexivity. Qed.

Lemma step_comma_obj rest K x st d root :
  scan_step (at_ (","%char :: rest) (mkSFrame CtxObj K x :: st) d root) =
  Ok (Some (mkScan rest (mkSFrame CtxObj K true :: st) d root)).
Proof. reflexivity. Qed.

Lemma scan_string_at text rest st d root :
  scan_step (at_ (quoted text ++ rest) st d root) =
  scan_string (text ++ "034"%char :: rest) (mkScan (quoted text ++ rest) st d root).
Proof. unfold at_. rewrite scan_step_norm. unfold quoted. cbn [app]. rewrite <- app_assoc. reflexivity. Qed.

Lemma read_quoted content text rest : str_text content text →
  read_string (S (length (text ++ "034"%char :: rest))) [] (text ++ "034"%char :: rest)
  = (λ c, (c, rest)) <$> content.
Proof. intros T. by rewrite (read_string_spec content) by (try done; rewrite length_app; cbn; lia). Qed.

Lemma step_string content text rest st d root :
  str_text content text → value_pos st root →
  scan_step (at_ (quoted text ++ rest) st d root) =
  if is_some content then Ok (Some (mkScan (skip_ws rest) st d (root_after st root)))
  else Err (bad_raw "bad string").
Proof.
  intros T V. rewrite scan_string_at. unfold scan_string. rewrite (read_quoted content) by done.
  destruct content as [content|]; [|done]. cbn [fmap option_fmap option_map is_some].
  cbn [sc_stack sc_depth sc_root_seen]. destruct st as [|f st]; [done|].
  apply value_pos_expect in V as [V _]. cbn in V. by rewrite V.
Qed.

Lemma step_key content text w rest K st d root :
  str_text content text → ws w →
  scan_step (at_ (quoted text ++ w ++ ":"%char :: rest) (mkSFrame CtxObj K true :: st) d root) =
  match content with
  | Some content =>
      if bool_decide (of_chars content ∈ K) then Err (bad_raw "duplicate key")
      else Ok (Some (mkScan rest (mkSFrame CtxObj ({[of_chars content]} ∪ K) false :: st) d root))
  | None => Err (bad_raw "bad string")
  end.
Proof.
  intros T W. rewrite scan_string_at. unfold scan_string. rewrite (read_quoted content) by done.
  destruct content as [content|]; [|done]. cbn [fmap option_fmap option_map].
  rewrite skip_ws_app by done. reflexivity.
Qed.

Lemma literal_head raw : literal raw → ∃ a l, raw = a :: l ∧ plain_head a = true.
Proof.
  intros [H|(sign & body & -> & S & (d & ds & -> & Hd) & F)].
  - rewrite !elem_of_cons in H.
    destruct H as [->|[->|[->|H]]]; [| | |by apply not_elem_of_nil in H].
    all: by eexists _, _; split; [reflexivity|vm_compute].
  - apply digit_plain in Hd as [Hd _]. destruct S as [-> | ->]; cbn; by eexists _, _.
Qed.

Lemma step_plain a rest st d root : plain_head a = true →
  scan_step (at_ (a :: rest) st d root) = scan_literal (a :: rest) (mkScan (a :: rest) st d root).
Proof.
  intros P. unfold at_. rewrite scan_step_norm. unfold plain_head, special in P. nbool.
  unfold scan_step. cbn [sc_rest]. rewrite skip_ws_stop by done.
  rewrite !not_elem_of_cons in H0. destruct H0 as (? & ? & ? & ? & ? & ? & ? & _).
  by rewrite !bool_decide_eq_false_2 by done.
Qed.

Lemma step_literal raw rest st d root :
  literal raw → delimited rest → value_pos st root →
  scan_step (at_ (raw ++ rest) st d root) = Ok (Some (mkScan rest st d (root_after st root))).
Proof.
  intros L D V. pose proof (skip_literal_spec raw rest L D) as S.
  apply literal_head in L as (a & l & -> & P). cbn [app] in *. rewrite step_plain by done.
  unfold scan_literal. rewrite S. cbn [sc_stack sc_depth sc_root_seen].
  destruct st as [|f st]; [done|]. apply value_pos_expect in V as [V X]. rewrite V.
  case_bool_decide as F; [|done]. rewrite X; [done|]. cbn. by rewrite F.
Qed.

(** ** The scanner on the grammar *)

Definition brackets (c : Ctx) : ascii * ascii :=
  match c with CtxObj => ("{", "}")%char | CtxArr => ("[", "]")%char end.

Definition arr : SFrame := mkSFrame CtxArr ∅ false.
Definition in_obj (K : gset string) (expect_key : bool) : SFrame := mkSFrame CtxObj K expect_key.

Lemma goes_container c body rest st d root b K x :
  value_pos st root →
  goes b (at_ (body ++ (brackets c).2 :: rest) (mkSFrame c ∅ (bool_decide (c = CtxObj)) :: st)
             (S d) (root_after st root))
         (at_ ((brackets c).2 :: rest) (mkSFrame c K x :: st) (S d) (root_after st root)) →
  goes ((d <? MAX_DEPTH) && b) (at_ (((brackets c).1 :: body ++ [(brackets c).2]) ++ rest) st d root)
       (at_ rest st d (root_after st root)).
Proof.
  intros V H. cbn [app]. rewrite <- app_assoc. cbn [app].
  assert (O := step_open c (brackets c).1 (body ++ (brackets c).2 :: rest) st d root).
  assert (C := step_close c (brackets c).2 rest K x st d (root_after st root)).
  specialize (O ltac:(destruct c; tauto) V).
  specialize (C ltac:(destruct c; tauto) ltac:(by exists root)).
  destruct (d <? MAX_DEPTH); cbn [andb]; [|by eapply goes_err].
  eapply goes_step; [done|]. rewrite <- (andb_true_r b).
  eapply goes_trans; [exact H|]. by apply (goes_one _ _ true C).
Qed.

Definition keys_after (K : gset string) (ks : list (option bytes)) : gset string := foldl with_key K ks.

(** A key with its colon, then the value. *)
Lemma goes_member k text w1 w2 w3 raw t rest K st d root :
  ws w1 → ws w2 → ws w3 → str_text k text →
  goes (admissible_tree d t) (at_ (raw ++ rest) (in_obj (with_key K k) false :: st) d root)
       (at_ rest (in_obj (with_key K k) false :: st) d root) →
  goes (fresh_key K k && admissible_tree d t)
       (at_ (w1 ++ quoted text ++ w2 ++ ":"%char :: w3 ++ raw ++ rest) (in_obj K true :: st) d root)
       (at_ rest (in_obj (with_key K k) false :: st) d root).
Proof.
  intros W1 W2 W3 T H. rewrite at_ws by done.
  pose proof (step_key k text w2 (w3 ++ raw ++ rest) K st d root T W2) as S.
  destruct k as [k|]; [|by eapply goes_err]. unfold fresh_key. cbn [is_some_and with_key] in *.
  case_bool_decide; cbn [negb andb]; [by eapply goes_err|].
  eapply goes_step; [done|]. change (norm (mkScan ?r ?s ?d ?o)) with (at_ r s d o).
  by rewrite at_ws.
Qed.

Lemma scan_grammar :
  (∀ t raw, renders t raw → ∀ rest st d root, delimited rest → value_pos st root →
     goes (admissible_tree d t) (at_ (raw ++ rest) st d root) (at_ rest st d (root_after st root))) ∧
  (∀ l body, elements l body → ∀ rest st d root,
     goes (forallb (admissible_tree d) l) (at_ (body ++ "]"%char :: rest) (arr :: st) d root)
          (at_ ("]"%char :: rest) (arr :: st) d root)) ∧
  (∀ m body, members m body → ∀ rest K st d root,
     goes (fresh_keys K m.*1 && forallb (λ kt, admissible_tree d kt.2) m)
          (at_ (body ++ "}"%char :: rest) (in_obj K true :: st) d root)
          (at_ ("}"%char :: rest) (in_obj (keys_after K m.*1) false :: st) d root)).
Proof.
  apply grammar_ind.
  - intros raw L rest st d root D V. eapply goes_one; [by apply step_literal|done].
  - intros content text T rest st d root D V.
    replace (at_ rest st d (root_after st root))
      with (norm (mkScan (skip_ws rest) st d (root_after st root)))
      by (unfold at_, norm; cbn [sc_rest]; by rewrite skip_ws_idem).
    pose proof (step_string content text rest st d root T V) as S. cbn [admissible_tree].
    destruct (is_some content); [|by eapply goes_err].
    by eapply (goes_one _ (mkScan (skip_ws rest) st d _)).
  - intros w W rest st d root D V.
    apply (goes_container CtxArr w rest st d root true ∅ false); [done|].
    rewrite at_ws by done. apply rtc_refl.
  - intros l body _ IH rest st d root D V.
    apply (goes_container CtxArr body rest st d root _ ∅ false); [done|]. apply IH.
  - intros w W rest st d root D V. cbn [admissible_tree]. rewrite <- andb_assoc.
    apply (goes_container CtxObj w rest st d root true ∅ true); [done|].
    rewrite at_ws by done. apply rtc_refl.
  - intros m body _ IH rest st d root D V. cbn [admissible_tree]. rewrite <- andb_assoc.
    apply (goes_container CtxObj body rest st d root _ (keys_after ∅ m.*1) false); [done|]. apply IH.
  - intros t w1 raw w2 W1 W2 _ IH rest st d root. cbn [forallb]. rewrite andb_true_r, <- !app_assoc.
    rewrite at_ws, <- (at_ws w2 ("]"%char :: rest)) by done. apply IH; [by apply ws_delimited|by left].
  - intros t w1 raw w2 l body W1 W2 _ IH _ IHl rest st d root. cbn [forallb].
    rewrite <- !app_assoc. cbn [app]. rewrite at_ws by done.
    eapply goes_trans; [apply IH; [by apply ws_delimited|by left]|]. cbn [root_after].
    rewrite at_ws by done. eapply goes_step; [apply step_comma_arr|]. apply IHl.
  - intros k text t w1 w2 w3 raw w4 W1 W2 W3 W4 T _ IH rest K st d root.
    cbn [fmap list_fmap fresh_keys forallb fst snd keys_after foldl]. rewrite !andb_true_r.
    rewrite <- !app_assoc. cbn [app]. rewrite <- !app_assoc.
    rewrite <- (at_ws w4 ("}"%char :: rest)) by done. apply goes_member; [done..|].
    apply IH; [by apply ws_delimited|by right].
  - intros k text t w1 w2 w3 raw w4 m body W1 W2 W3 W4 T _ IH _ IHm rest K st d root.
    cbn [fmap list_fmap fresh_keys forallb fst snd keys_after foldl].
    match goal with |- goes ?b _ _ => replace b with
      ((fresh_key K k && admissible_tree d t) &&
       (fresh_keys (with_key K k) m.*1 && forallb (λ kt, admissible_tree d kt.2) m)) end.
    2:{ rewrite <- !andb_assoc. f_equal. rewrite !andb_assoc. f_equal. apply andb_comm. }
    rewrite <- !app_assoc. cbn [app]. rewrite <- !app_assoc. cbn [app].
    eapply goes_trans; [apply goes_member; [done..|]; apply IH; [by apply ws_delimited|by right]|].
    rewrite at_ws by done. eapply goes_step; [apply step_comma_obj|]. apply IHm.
Qed.

(** ** The fuel of the loop *)

Lemma skip_ws_length l : length (skip_ws l) ≤ length l.
Proof. induction l as [|a l IH]; cbn; [lia|]. destruct (is_ws a); cbn; lia. Qed.

Lemma skip_num_length l : length (skip_num l) ≤ length l.
Proof. induction l as [|a l IH]; cbn; [lia|]. destruct (is_num_char a); cbn; lia. Qed.

Lemma strip_length p l r : strip p l = Some r → length l = length p + length r.
Proof.
  revert l. induction p as [|a p IH]; intros [|b l]; cbn; try by intros [= <-].
  case_bool_decide; [|done]. intros H1%IH. lia.
Qed.

Lemma unicode_escape_length l c r : unicode_escape l = Some (c, r) → length r ≤ length l.
Proof.
  unfold unicode_escape. repeat (case_match; try done).
  destruct (parse_hex (take 4 l)) as [cp|]; cbn; [|done]. case_match; [|done].
  intros [= _ <-]. rewrite length_drop. lia.
Qed.

Lemma read_string_length fuel out l o r :
  read_string fuel out l = Some (o, r) → length r < length l.
Proof.
  revert out l. induction fuel as [|fuel IH]; intros out l; cbn [read_string]; [done|].
  destruct l as [|a l]; [done|]. case_bool_decide; [by intros [= _ <-]; cbn; lia|].
  case_bool_decide.
  - destruct l as [|e l]; [done|]. destruct (escape_value e); [intros H'%IH; cbn; lia|].
    case_bool_decide; [|done]. destruct (unicode_escape l) as [[c l']|] eqn:U; [|done].
    intros H'%IH. apply unicode_escape_length in U. cbn. lia.
  - destruct (utf8_head (a :: l)) as [n|] eqn:U; [|done]. intros H'%IH.
    apply utf8_head_bound in U. rewrite length_drop in H'. lia.
Qed.

Lemma skip_literal_length l r : skip_literal l = Some r → length r < length l.
Proof.
  unfold skip_literal.
  destruct (strip (chars "true") l) eqn:E1; [apply strip_length in E1; intros [= <-]; cbn in E1; lia|].
  destruct (strip (chars "false") l) eqn:E2; [apply strip_length in E2; intros [= <-]; cbn in E2; lia|].
  destruct (strip (chars "null") l) eqn:E3; [apply strip_length in E3; intros [= <-]; cbn in E3; lia|].
  set (j := match strip _ l with Some r => r | None => l end).
  assert (J : length j ≤ length l).
  { subst j. destruct (strip ["-"%char] l) eqn:E; [|done]. apply strip_length in E. lia. }
  destruct (Nat.eqb_spec (length (skip_num j)) (length j)); [done|]. intros [= <-].
  pose proof (skip_num_length j). lia.
Qed.

Lemma scan_step_shrinks z y : scan_step z = Ok (Some y) → length (sc_rest y) < length (sc_rest z).
Proof.
  unfold scan_step. pose proof (skip_ws_length (sc_rest z)) as L.
  destruct (skip_ws (sc_rest z)) as [|a r]; [done|]. cbn [length] in L.
  assert (Hc : ∀ c, open_container c r z = Ok (Some y) → length (sc_rest y) = length r).
  { intros c. unfold open_container. repeat case_match; by intros [= <-]. }
  assert (Hd : ∀ c, close_container c r z = Ok (Some y) → length (sc_rest y) = length r).
  { intros c. unfold close_container. repeat case_match; by intros [= <-]. }
  repeat case_bool_decide; try (intros H'; first [apply Hc in H'|apply Hd in H'|done]; lia).
  - unfold scan_string. destruct (read_string _ _ r) as [[o r']|] eqn:E; [|done].
    apply read_string_length in E. pose proof (skip_ws_length r') as L'.
    repeat case_match; intros [= <-]; simplify_eq/=; lia.
  - unfold scan_comma. repeat case_match; intros [= <-]; cbn; lia.
  - unfold scan_literal. destruct (skip_literal (a :: r)) as [r'|] eqn:E; [|done].
    apply skip_literal_length in E. cbn [length] in E.
    repeat case_match; intros [= <-]; simplify_eq/=; lia.
Qed.

Lemma scan_loop_norm fuel z : scan_loop fuel (norm z) = scan_loop fuel z.
Proof. destruct fuel as [|fuel]; [done|]. cbn [scan_loop]. by rewrite scan_step_norm. Qed.

(** Along a run the loop keeps more fuel than bytes. *)
Lemma scan_loop_run z z' : rtc turn z z' → ∀ fuel, length (sc_rest z) < fuel →
  ∃ fuel', length (sc_rest z') < fuel' ∧ scan_loop fuel z = scan_loop fuel' z'.
Proof.
  induction 1 as [z|z y' z' (y & E & ->) _ IH]; intros fuel F; [by exists fuel|].
  destruct fuel as [|fuel]; [lia|]. pose proof (scan_step_shrinks _ _ E) as L.
  destruct (IH fuel) as (f' & L' & E').
  { cbn [norm sc_rest]. pose proof (skip_ws_length (sc_rest y)). lia. }
  exists f'. split; [done|]. cbn [scan_loop]. rewrite E, <- (scan_loop_norm fuel y). done.
Qed.

(** C25: On every JSON text, with white space wherever the grammar allows it,
    [scan_structure] accepts exactly when the tree of the text is admissible: in
    every object the decoded keys are distinct (an escape does not hide a
    repetition), containers nest at most [MAX_DEPTH] deep, and no string or key
    escapes a surrogate. Escaped surrogate pairs, which are characters of JSON, are refused. *)
Theorem scan_exact t w1 raw w2 :
  ws w1 → ws w2 → renders t raw →
  is_ok (scan_structure (w1 ++ raw ++ w2)) = admissible_tree 0 t.
Proof.
  intros W1 W2 R. unfold scan_structure. rewrite <- scan_loop_norm.
  fold (at_ (w1 ++ raw ++ w2) [] 0 false). rewrite at_ws by done.
  assert (D : delimited w2) by (rewrite <- (app_nil_r w2); by apply ws_delimited).
  pose proof (proj1 scan_grammar t raw R w2 [] 0 false D eq_refl) as G.
  assert (F : length (sc_rest (at_ (raw ++ w2) [] 0 false)) < S (length (w1 ++ raw ++ w2))).
  { cbn. pose proof (skip_ws_length (raw ++ w2)). rewrite (length_app w1). lia. }
  destruct (admissible_tree 0 t).
  - destruct (scan_loop_run _ _ G _ F) as (f & Hf & ->). destruct f as [|f]; [lia|].
    rewrite <- (app_nil_r w2), at_ws by done. reflexivity.
  - destruct G as (y & e & G & E). destruct (scan_loop_run _ _ G _ F) as (f & Hf & ->).
    destruct f as [|f]; [lia|]. cbn [scan_loop]. by rewrite E.
Qed.

(** The text [{"a":-1,"\u0061":true}] repeats a key behind an escape. *)
Definition repeated_key : Tree := TObj [(Some (chars "a"), TLit); (Some (chars "a"), TLit)].
Definition repeated_key_text : bytes :=
  "{"%char :: ([] ++ quoted (chars "a") ++ [] ++ ":"%char :: [] ++ chars "-1" ++ [] ++ ","%char ::
  [] ++ quoted (chars "\u0061") ++ [] ++ ":"%char :: [" "%char] ++ chars "true" ++ []) ++ ["}"%char].

Lemma repeated_key_renders : renders repeated_key repeated_key_text.
Proof.
  apply rd_obj. apply mb_cons; [by repeat constructor..| | |].
  - apply (st_char (chars "a") (Some []) []); [done..|constructor].
  - constructor. right. exists ["-"%char], ["1"%char]. split; [done|]. split; [by right|].
    split; [by eexists _, _|]. by repeat constructor.
  - apply mb_one; [by repeat constructor..| |].
    + apply (st_unicode (chars "0061") 97%N (Some []) []); [by vm_compute..|constructor].
    + constructor. left. constructor.
Qed.

(** The text ["\ud83d\ude00"] is a JSON string of one character. *)
Definition escaped_pair_text : bytes := quoted (chars "\ud83d\ude00").

Lemma escaped_pair_renders : renders (TStr None) escaped_pair_text.
Proof.
  constructor. apply (st_surrogate (chars "d83d") 55357 None); [by vm_compute..|].
  apply (st_surrogate (chars "de00") 56832 (Some [])); [by vm_compute..|constructor].
Qed.

Lemma scan_exact_witness :
  renders repeated_key repeated_key_text ∧
  is_ok (scan_structure ([" "%char] ++ repeated_key_text ++ [])) = false ∧
  renders (TStr None) escaped_pair_text ∧
  is_ok (scan_structure ([] ++ escaped_pair_text ++ [])) = false.
Proof.
  split_and!; [apply repeated_key_renders| |apply escaped_pair_renders|].
  - rewrite (scan_exact repeated_key); [by vm_compute| | |apply repeated_key_renders].
    all: by repeat constructor.
  - rewrite (scan_exact (TStr None)); [by vm_compute|by apply Forall_nil_2..|apply escaped_pair_renders].
Defined.
