(* ===== verification/Envelope.v ===== *)
(** * Envelopes of [matrix.component] ([matrix-proto/src/envelope.rs])

    The schemas of the message types and the validation of an envelope. [well_formed]
    says what an accepted envelope is; [envelope_exact] shows that the validation
    accepts exactly those. *)

From S2P Require Import Prelude RustStd Json Utf8 Wire Scan.

Definition PROTOCOL_ID : string := "matrix.component".
Definition PROTOCOL_VERSION : string := "0.1".

Definition TYPES : list string :=
  [ "hello"; "welcome"; "reject";
    "component.register"; "registered";
    "lifecycle.prepare"; "lifecycle.activate"; "lifecycle.quiesce"; "lifecycle.dispose";
    "lifecycle.result"; "capability.changed";
    "resource.acquire"; "resource.release"; "resource.result";
    "call.open"; "call.accepted"; "call.result"; "call.error";
    "call.cancel"; "call.cancel.result";
    "stream.data"; "stream.credit"; "stream.end";
    "session.heartbeat"; "session.renew"; "session.close";
    "inspect.request"; "inspect.result";
    "dependency.open"; "dependency.accepted"; "dependency.result";
    "dependency.cancel"; "dependency.cancel.result";
    "event.deliver" ].

Definition call_fields : list string :=
  ["message_id"; "session_id"; "instance_id"; "generation"; "request_id"; "body"].

(** The arms of [required_top]: the fields and whether the body is optional. *)
Definition top_arms : list (list string * (list string * bool)) :=
  [ (["hello"], (["message_id"; "body"], false));
    (["welcome"], (["message_id"; "session_id"; "body"], false));
    (["reject"], (["message_id"; "body"], false));
    (["component.register"], (["message_id"; "session_id"; "body"], false));
    (["registered"], (["message_id"; "session_id"; "instance_id"; "generation"; "body"], false));
    (["lifecycle.prepare"; "lifecycle.activate"; "lifecycle.quiesce"; "lifecycle.dispose"],
      (call_fields, false));
    (["lifecycle.result"], (call_fields, false));
    (["capability.changed"], (["message_id"; "session_id"; "body"], false));
    (["resource.acquire"; "resource.release"], (call_fields, false));
    (["resource.result"], (call_fields, false));
    (["call.open"], (call_fields, false));
    (["call.accepted"; "call.result"; "call.error"], (call_fields, false));
    (["call.cancel"; "call.cancel.result"], (call_fields, false));
    (["dependency.open"; "dependency.accepted"; "dependency.result"; "dependency.cancel";
      "dependency.cancel.result"], (call_fields, false));
    (["stream.data"; "stream.credit"; "stream.end"],
      (["message_id"; "session_id"; "instance_id"; "generation"; "body"], false));
    (["session.heartbeat"; "session.renew"; "session.close"],
      (["message_id"; "session_id"], true));
    (["inspect.request"], (["message_id"; "body"], false));
    (["inspect.result"], (["message_id"; "body"], false));
    (["event.deliver"],
      (["message_id"; "session_id"; "instance_id"; "generation"; "body"], false)) ].

Definition required_top (ty : string) : option (list string * bool) := arm ty top_arms.

Definition body_arms : list (list string * list string) :=
  [ (["hello"], ["versions"; "max_frame"; "client"]);
    (["welcome"], ["version"; "max_frame"; "limits"]);
    (["reject"], ["code"; "reason"]);
    (["component.register"], ["manifest"]);
    (["registered"], ["logical"]);
    (["lifecycle.prepare"; "lifecycle.activate"], ["operation_id"; "manifest"; "bindings"]);
    (["lifecycle.quiesce"; "lifecycle.dispose"], ["operation_id"; "deadline_ms"]);
    (["lifecycle.result"], ["operation_id"; "status"]);
    (["capability.changed"], ["revision"; "change"]);
    (["resource.acquire"], ["operation_id"; "kind"; "label"]);
    (["resource.release"], ["operation_id"; "handle"]);
    (["resource.result"], ["operation_id"; "status"]);
    (["call.open"], ["ticket"; "capability"; "input"]);
    (["call.accepted"], ["ticket"]);
    (["call.result"], ["ticket"; "status"]);
    (["call.error"], ["ticket"; "error"]);
    (["call.cancel"], ["ticket"; "reason"]);
    (["call.cancel.result"], ["ticket"; "status"]);
    (["dependency.open"], ["parent_ticket"; "binding_id"; "timeout_ms"; "input"]);
    (["dependency.accepted"], ["child_ticket"]);
    (["dependency.result"], ["status"]);
    (["dependency.cancel"], ["target_request_id"]);
    (["dependency.cancel.result"], ["target_request_id"; "state"]);
    (["stream.data"], ["stream_id"; "seq"; "payload"]);
    (["stream.credit"], ["stream_id"; "bytes"]);
    (["stream.end"], ["stream_id"; "status"]);
    (["inspect.request"], ["query"]);
    (["inspect.result"], ["result"]);
    (["event.deliver"], ["topic"; "payload"]) ].

Definition required_body (ty : string) : list string := default [] (arm ty body_arms).

#[global] Arguments required_top : simpl never.
#[global] Arguments required_body : simpl never.

Record Envelope : Type := mkEnvelope {
  env_ty : string;
  env_message_id : string;
  env_session_id : option string;
  env_instance_id : option string;
  env_generation : option N;
  env_request_id : option string;
  env_body : Value;
}.

Definition envelope_error (details : list (string * Value)) : WireError :=
  with_details (obj details) (wire_error INVALID_MESSAGE "envelope").

Definition envelope_reason (reason : string) : WireError :=
  envelope_error [("reason", JString reason)].

Definition decimal_u64 (v : Value) (field : string) : result N WireError :=
  let bad := envelope_error [("field", JString field); ("reason", JString "decimal string expected")] in
  match v with
  | JString s => ok_or (parse_u64 (chars s)) bad
  | _ => Err bad
  end.

(** The closure [get]. *)
Definition get_field (m : list (string * Value)) (f : string) : result Value WireError :=
  ok_or (assoc f m) (envelope_error [("missing", JString f)]).

(** [opt.map(f).transpose()]. *)
Definition transpose {A B E} (f : A → result B E) (o : option A) : result (option B) E :=
  match o with
  | None => Ok None
  | Some a => let? b := f a in Ok (Some b)
  end.

(** The last part of [validate_envelope]: the body of a type. *)
Definition check_body (ty : string) (body_optional : bool) (m : list (string * Value))
    : result Value WireError :=
  let? body := if body_optional then Ok (default JNull (assoc "body" m)) else get_field m "body" in
  let? _ :=
    if body_optional then Ok tt
    else
      let? bobj := ok_or (as_object body) (envelope_reason "body must be object") in
      for_each (λ f, ensure (is_some (assoc f bobj))
        (envelope_error [("type", JString ty); ("missing_body", JString f)])) (required_body ty) in
  Ok body.

Definition validate_envelope (v : Value) : result Envelope WireError :=
  let? m := ok_or (as_object v) (envelope_reason "object expected") in
  let? protocol := get_field m "protocol" in
  let? _ := ensure (bool_decide (as_str protocol = Some PROTOCOL_ID))
              (envelope_reason "unknown protocol") in
  let? version := get_field m "version" in
  let? version := ok_or (as_str version) (envelope_reason "version must be string") in
  let? _ := ensure (bool_decide (version = PROTOCOL_VERSION))
              (with_details (obj [("got", JString version); ("want", JString PROTOCOL_VERSION)])
                 (wire_error UNSUPPORTED_VERSION "handshake")) in
  let? ty := get_field m "type" in
  let? ty := ok_or (as_str ty) (envelope_reason "type must be string") in
  let? req := ok_or (required_top ty) (envelope_error [("unknown_type", JString ty)]) in
  let? _ := for_each (λ f, let? _ := get_field m f in Ok tt) req.1 in
  let? message_id := get_field m "message_id" in
  let? message_id := ok_or (as_str message_id) (envelope_reason "message_id must be string") in
  let? _ := ensure (negb (str_is_empty message_id)) (envelope_reason "empty message_id") in
  let? generation := transpose (λ v, decimal_u64 v "generation") (assoc "generation" m) in
  let? _ := transpose (λ v, decimal_u64 v "instance_id") (assoc "instance_id" m) in
  let? body := check_body ty req.2 m in
  Ok (mkEnvelope ty message_id (obj_str "session_id" m) (obj_str "instance_id" m) generation
        (obj_str "request_id" m) body).

Definition parse_frame_payload (from_str : bytes → result Value string) (raw : bytes)
    : result Envelope WireError :=
  let? v := scan_raw from_str raw in validate_envelope v.

(** ** What an accepted envelope is *)

(** [v] is a string that holds the decimal number [n]. *)
Definition decimal (v : Value) (n : N) : Prop :=
  ∃ s, v = JString s ∧ parse_u64 (chars s) = Some n.

Record well_formed (m : list (string * Value)) (e : Envelope) : Prop := {
  wf_protocol : assoc "protocol" m = Some (JString PROTOCOL_ID);
  wf_version : assoc "version" m = Some (JString PROTOCOL_VERSION);
  wf_type : assoc "type" m = Some (JString (env_ty e)) ∧ env_ty e ∈ TYPES;
  wf_message_id : assoc "message_id" m = Some (JString (env_message_id e)) ∧ env_message_id e ≠ "";
  wf_top fields opt f : required_top (env_ty e) = Some (fields, opt) → f ∈ fields →
    is_Some (assoc f m);
  wf_generation : match assoc "generation" m with
                  | None => env_generation e = None
                  | Some v => ∃ n, decimal v n ∧ env_generation e = Some n
                  end;
  wf_instance v : assoc "instance_id" m = Some v → ∃ n, decimal v n;
  wf_ids : env_session_id e = obj_str "session_id" m ∧ env_instance_id e = obj_str "instance_id" m ∧
    env_request_id e = obj_str "request_id" m;
  wf_body fields opt : required_top (env_ty e) = Some (fields, opt) →
    if opt then env_body e = default JNull (assoc "body" m)
    else ∃ b, assoc "body" m = Some (JObject b) ∧ env_body e = JObject b ∧
         ∀ f, f ∈ required_body (env_ty e) → is_Some (assoc f b);
}.

(** The schemas cover exactly the types of the protocol. *)
Lemma required_top_types ty : is_Some (required_top ty) ↔ ty ∈ TYPES.
Proof.
  unfold required_top. rewrite arm_elem.
  assert (P : concat top_arms.*1 ≡ₚ TYPES) by (apply (bool_decide_unpack _); vm_compute; exact I).
  by rewrite P.
Qed.

Lemma decimal_u64_ok v f n : decimal_u64 v f = Ok n ↔ decimal v n.
Proof.
  unfold decimal_u64, decimal. split.
  - destruct v; try done. intros H. mx_ok. eauto.
  - intros (s & -> & ->). done.
Qed.

Lemma get_field_ok m f v : get_field m f = Ok v ↔ assoc f m = Some v.
Proof. unfold get_field. destruct (assoc f m); cbn; [|done]. split; congruence. Qed.

Lemma transpose_ok {A B E} (f : A → result B E) o b :
  transpose f o = Ok b ↔
  match o with None => b = None | Some a => ∃ c, f a = Ok c ∧ b = Some c end.
Proof.
  destruct o as [a|]; cbn; [|split; congruence]. destruct (f a) as [c|]; [|by split; [|intros (?&?&_)]].
  split; [intros [= <-]; eauto|by intros (c' & [= <-] & ->)].
Qed.

Lemma as_str_Some v s : as_str v = Some s ↔ v = JString s.
Proof. destruct v; cbn; split; congruence. Qed.

Lemma as_object_Some v m : as_object v = Some m ↔ v = JObject m.
Proof. destruct v; cbn; split; congruence. Qed.

Lemma check_body_ok ty opt m body :
  check_body ty opt m = Ok body ↔
  if opt then body = default JNull (assoc "body" m)
  else ∃ b, assoc "body" m = Some (JObject b) ∧ body = JObject b ∧
       ∀ f, f ∈ required_body ty → is_Some (assoc f b).
Proof.
  unfold check_body. destruct opt; [split; congruence|]. split.
  - intros H. mx_ok. apply get_field_ok in E. apply as_object_Some in E2 as ->.
    apply for_each_ok in E0. rewrite Forall_forall in E0. eexists. split; [done|]. split; [done|].
    intros f Hf. apply E0, ensure_ok in Hf. destruct (assoc f a1); [eauto|done].
  - intros (b & E & -> & F). rewrite (proj2 (get_field_ok _ _ _) E). cbn.
    rewrite (proj2 (for_each_ok _ _)); [done|]. apply Forall_forall. intros f Hf.
    apply ensure_ok. by destruct (F f Hf) as [? ->].
Qed.

Lemma validate_sound v e : validate_envelope v = Ok e → ∃ m, v = JObject m ∧ well_formed m e.
Proof.
  intros H. unfold validate_envelope in H. mx_ok. apply as_object_Some in E3 as ->. nbool.
  rewrite ?get_field_ok, ?as_str_Some in *. subst.
  destruct a7 as [fields opt]. cbn [fst snd] in *. apply for_each_ok in E8.
  rewrite Forall_forall in E8. apply transpose_ok in E12, E13. apply check_body_ok in E14.
  exists a. split; [done|]. split; cbn; try done.
  - split; [done|]. apply required_top_types. by rewrite E10.
  - split; [done|]. unfold str_is_empty in H0. by apply bool_decide_eq_false in H0.
  - intros fields' opt' f H Hf. rewrite E10 in H. injection H as <- <-. specialize (E8 f Hf).
    destruct (get_field a f) eqn:E; [|done]. apply get_field_ok in E. eauto.
  - destruct (assoc "generation" a); [|done]. destruct E12 as (n & D & ->).
    apply decimal_u64_ok in D. eauto.
  - intros v E. rewrite E in E13. destruct E13 as (n & D & _). apply decimal_u64_ok in D. eauto.
  - intros fields' opt' H. rewrite E10 in H. by injection H as <- <-.
Qed.

Lemma validate_complete v e : (∃ m, v = JObject m ∧ well_formed m e) → validate_envelope v = Ok e.
Proof.
  intros (m & -> & [Hp Hv [Ht Hty] [Hm Hm'] Htop Hg Hi (Hs & Hi' & Hr) Hb]). destruct e as [ty mid ses ins gen req body].
  cbn [env_ty env_message_id env_generation env_session_id env_instance_id env_request_id env_body] in *.
  apply required_top_types in Hty as [[fields opt] Hreq].
  unfold validate_envelope. cbn [as_object ok_or].
  rewrite (proj2 (get_field_ok m _ _) Hp), (proj2 (get_field_ok m _ _) Hv),
    (proj2 (get_field_ok m _ _) Ht), (proj2 (get_field_ok m _ _) Hm).
  cbn [as_str ok_or]. rewrite !bool_decide_eq_true_2 by done. cbn [ensure]. rewrite Hreq. cbn [ok_or fst snd].
  rewrite (proj2 (for_each_ok _ _)).
  2:{ apply Forall_forall. intros f Hf. destruct (Htop _ _ f Hreq Hf) as [x Hx].
      by rewrite (proj2 (get_field_ok m _ _) Hx). }
  unfold str_is_empty. rewrite bool_decide_eq_false_2 by done. cbn [negb ensure].
  rewrite (proj2 (transpose_ok _ _ gen)).
  2:{ destruct (assoc "generation" m); [|done]. destruct Hg as (n & D & ->). exists n.
      by rewrite decimal_u64_ok. }
  assert (∃ o, transpose (λ v, decimal_u64 v "instance_id") (assoc "instance_id" m) = Ok o) as [o ->].
  { destruct (assoc "instance_id" m) as [v|] eqn:E; [|by eexists].
    destruct (Hi v eq_refl) as [n D]. exists (Some n). apply transpose_ok. exists n. by rewrite decimal_u64_ok. }
  rewrite (proj2 (check_body_ok ty opt m body) (Hb _ _ Hreq)). by subst.
Qed.

