(* ===== verification/Dependency.v ===== *)
(** * The extension [dependency-calls/1] ([matrix-proto/src/dependency.rs])

    The semantic validation of the bodies of dependency messages, and the features of
    a [hello]. *)

From S2P Require Import Prelude RustStd Json Wire.

Definition DEPENDENCY_CALLS_1 : string := "dependency-calls/1".

Definition MAX_ID_LEN : nat := 256.

Definition FORBIDDEN_OPEN_FIELDS : list string :=
  ["provider"; "grant"; "grants"; "principal"; "executable"; "entrypoint"; "path"].

Definition bad (reason : string) : WireError :=
  with_details (obj [("reason", JString reason)]) (wire_error INVALID_MESSAGE "dependency").

Definition bad_field (field reason : string) : WireError :=
  with_details (obj [("field", JString field); ("reason", JString reason)])
    (wire_error INVALID_MESSAGE "dependency").

(** [!s.is_empty() && s.len() <= max]. *)
Definition bounded_str (max : nat) (s : string) : bool :=
  negb (str_is_empty s) && (String.length s <=? max).

Definition check_id (body : Value) (field : string) : result string WireError :=
  match get_str field body with
  | Some s => if bounded_str MAX_ID_LEN s then Ok s else Err (bad_field field "empty or oversize id")
  | None => Err (bad_field field "missing id")
  end.

(** [Some(n) if n > 0]. *)
Definition positive_u64 (body : Value) (field : string) : bool :=
  is_some_and (λ n, (0 <? n)%N) (get_u64 field body).

Definition str_in (field : string) (l : list string) (body : Value) : bool :=
  is_some_and (λ s, bool_decide (s ∈ l)) (get_str field body).

(** The error object of a failed result. *)
Definition check_error (bad_field : string → string → WireError) (reason : string) (body : Value)
    : result unit WireError :=
  let? err := ok_or (get "error" body ≫= as_object)
                (bad_field "error" "error requires {code, message}") in
  match obj_str "code" err, obj_str "message" err with
  | Some c, Some _ => ensure (negb (str_is_empty c)) (bad_field "error" reason)
  | _, _ => Err (bad_field "error" reason)
  end.

Definition validate_open (body : Value) : result unit WireError :=
  let? _ := check_id body "parent_ticket" in
  let? _ := check_id body "binding_id" in
  let? _ := ensure (positive_u64 body "timeout_ms") (bad_field "timeout_ms" "positive integer required") in
  let? _ := ensure (is_some (get "input" body)) (bad_field "input" "missing input") in
  for_each (λ f, ensure (negb (is_some (get f body)))
    (bad_field f "authority must not come from payload")) FORBIDDEN_OPEN_FIELDS.

Definition validate_result (body : Value) : result unit WireError :=
  if str_in "status" ["ok"] body then
    ensure (is_some (get "output" body)) (bad_field "output" "ok requires output")
  else if str_in "status" ["error"] body then
    check_error bad_field "error requires non-empty code and message" body
  else Err (bad_field "status" "must be ok or error").

Definition validate_body (ty : string) (body : Value) : result unit WireError :=
  if bool_decide (ty = "dependency.open") then validate_open body
  else if bool_decide (ty = "dependency.accepted") then
    let? _ := check_id body "child_ticket" in Ok tt
  else if bool_decide (ty = "dependency.result") then validate_result body
  else if bool_decide (ty = "dependency.cancel") then
    let? _ := check_id body "target_request_id" in Ok tt
  else if bool_decide (ty = "dependency.cancel.result") then
    let? _ := check_id body "target_request_id" in
    ensure (str_in "state" ["revoked"; "terminal"] body) (bad_field "state" "must be revoked or terminal")
  else Err (bad "unknown dependency message").

Definition hello_features (body : Value) : result (list string) WireError :=
  match get "features" body with
  | None => Ok []
  | Some v =>
      let? arr := ok_or (as_array v) (bad_field "features" "array of strings required") in
      if 64 <? length arr then Err (bad_field "features" "too many entries")
      else
        collect_result (λ e,
          match as_str e with
          | Some s => if bounded_str 128 s then Ok s
                      else Err (bad_field "features" "entries must be non-empty strings")
          | None => Err (bad_field "features" "entries must be non-empty strings")
          end) arr
  end.

Definition intersect (supported offered : list string) : list string :=
  List.filter (λ s, existsb (λ o, bool_decide (o = s)) offered) supported.

(** ** Lemmas *)

Lemma bounded_str_spec max s : bounded_str max s = true ↔ s ≠ "" ∧ String.length s ≤ max.
Proof.
  unfold bounded_str, str_is_empty. rewrite andb_true_iff, negb_true_iff, bool_decide_eq_false, Nat.leb_le.
  done.
Qed.

Lemma check_id_ok body field s :
  check_id body field = Ok s → get_str field body = Some s ∧ s ≠ "" ∧ String.length s ≤ MAX_ID_LEN.
Proof.
  unfold check_id. destruct (get_str field body) as [s'|]; [|done].
  destruct (bounded_str MAX_ID_LEN s') eqn:B; [|done]. intros [= ->].
  by apply bounded_str_spec in B.
Qed.

Lemma elem_of_intersect x supported offered :
  x ∈ intersect supported offered ↔ x ∈ supported ∧ x ∈ offered.
Proof.
  unfold intersect. rewrite elem_of_filter_list. f_equiv. rewrite existsb_exists. split.
  - intros (o & Ho & E). nbool. subst. by apply list_elem_of_In.
  - intros H. exists x. split; [by apply list_elem_of_In|]. by apply bool_decide_eq_true.
Qed.
