(* ===== verification/Handshake.v ===== *)
(** * Handshake and replay window ([matrix-proto/src/handshake.rs])

    Version and feature negotiation; the bounded window of seen ids. The window
    refines an abstract log of admitted messages of which only the last [cap] are
    remembered ([id_window_refines]). *)

From S2P Require Import Prelude RustStd Json Wire Frame Scan Envelope Dependency.

Definition SUPPORTED_VERSIONS : list string := [PROTOCOL_VERSION].
Definition SUPPORTED_FEATURES : list string := [DEPENDENCY_CALLS_1].

Record Limits : Type := mkLimits {
  lim_max_frame : N;
  lim_max_calls : N;
  lim_max_queue_bytes : N;
  lim_max_streams : N;
}.

Definition default_limits : Limits := mkLimits DEFAULT_MAX_FRAME 64 (4 * 1024 * 1024) 16.

Record Welcome : Type := mkWelcome {
  wl_version : string;
  wl_session_id : string;
  wl_max_frame : N;
  wl_limits : Limits;
  wl_features : list string;
}.

Definition negotiate (offered offered_features : list string) (want_frame : N) (session_id : string)
    : result Welcome WireError :=
  let? version := ok_or (List.find (λ v, existsb (λ o, bool_decide (o = v)) offered) SUPPORTED_VERSIONS)
    (with_details (obj [("offered", j_strs offered); ("supported", j_strs SUPPORTED_VERSIONS)])
       (wire_error UNSUPPORTED_VERSION "handshake")) in
  let max_frame := N.max (N.min want_frame DEFAULT_MAX_FRAME) 1024 in
  Ok (mkWelcome version session_id max_frame
        (mkLimits max_frame (lim_max_calls default_limits) (lim_max_queue_bytes default_limits)
           (lim_max_streams default_limits))
        (intersect SUPPORTED_FEATURES offered_features)).

Definition handshake_error (reason : string) : WireError :=
  with_details (obj [("reason", JString reason)]) (wire_error INVALID_MESSAGE "handshake").

Definition hello_offer (env : Envelope) : result (list string * N * list string) WireError :=
  if bool_decide (env_ty env ≠ "hello") then Err (handshake_error "not a hello")
  else
    let? versions := ok_or (get_array "versions" (env_body env))
                       (handshake_error "versions must be array") in
    let versions := omap as_str versions in
    if bool_decide (versions = []) then Err (handshake_error "empty versions")
    else
      let max_frame := default 1024%N (get_u64 "max_frame" (env_body env)) in
      let? features := hello_features (env_body env) in
      Ok (versions, max_frame, features).

Record IdWindow : Type := mkIdWindow {
  iw_cap : nat;
  iw_seen : gmap string N;
  iw_order : list string;
}.

Inductive IdVerdict : Type := New | DuplicateSame | DuplicateDivergent.

Definition id_window_new (cap : nat) : IdWindow := mkIdWindow (Nat.max cap 1) ∅ [].

(** FNV-1a with 64-bit wrap-around. *)
Definition fnv_step (h : N) (b : Ascii.ascii) : N :=
  (N.lxor h (Ascii.N_of_ascii b) * 1099511628211) mod 2 ^ 64.

Definition hash_content (canonical : string) : N :=
  foldl fnv_step 14695981039346656037%N (chars canonical).

Definition check (id content_canonical : string) (w : IdWindow) : IdVerdict * IdWindow :=
  let h := hash_content content_canonical in
  match iw_seen w !! id with
  | None =>
      let '(seen, order) :=
        if iw_cap w <=? length (iw_order w) then
          match iw_order w with
          | old :: order => (delete old (iw_seen w), order)
          | [] => (iw_seen w, [])
          end
        else (iw_seen w, iw_order w) in
      (New, mkIdWindow (iw_cap w) (<[id := h]> seen) (order ++ [id]))
  | Some prev => (if (prev =? h)%N then DuplicateSame else DuplicateDivergent, w)
  end.

Definition id_window_len (w : IdWindow) : nat := size (iw_seen w).

Definition shrink_timeout_ms (remaining_ms elapsed_ms : N) : N := saturating_sub remaining_ms elapsed_ms.

(** ** Negotiation *)

(** Negotiation succeeds exactly when a version is common to both sides, and then
    the session speaks such a version, carries frames of at least 1 KiB and at most
    [DEFAULT_MAX_FRAME] whatever the peer asks for, and enables exactly the supported
    features the peer offered. *)
Theorem negotiate_bounds offered feats want sid :
  match negotiate offered feats want sid with
  | Ok w => wl_version w ∈ SUPPORTED_VERSIONS ∧ wl_version w ∈ offered ∧
      (1024 ≤ wl_max_frame w ≤ DEFAULT_MAX_FRAME)%N ∧ lim_max_frame (wl_limits w) = wl_max_frame w ∧
      (1024 ≤ want → wl_max_frame w ≤ want)%N ∧
      wl_session_id w = sid ∧ ∀ f, f ∈ wl_features w ↔ f ∈ SUPPORTED_FEATURES ∧ f ∈ feats
  | Err e => we_code e = UNSUPPORTED_VERSION ∧ ∀ v, v ∈ SUPPORTED_VERSIONS → v ∉ offered
  end.
Proof.
  unfold negotiate. destruct (List.find _ SUPPORTED_VERSIONS) as [v|] eqn:F; cbn [ok_or].
  - apply List.find_some in F as [Hv He]. apply existsb_exists in He as (o & Ho & E). nbool. subst o.
    cbn [wl_version wl_max_frame wl_limits lim_max_frame wl_session_id wl_features].
    split; [by apply list_elem_of_In|]. split; [by apply list_elem_of_In|].
    unfold DEFAULT_MAX_FRAME. split; [lia|]. split; [done|]. split; [lia|]. split; [done|].
    intros f. apply elem_of_intersect.
  - split; [done|]. intros v Hv Ho. apply list_elem_of_In in Hv.
    pose proof (List.find_none _ _ F v Hv) as N. cbn beta in N.
    rewrite (proj2 (existsb_exists _ _)) in N; [done|]. exists v.
    split; [by apply list_elem_of_In|]. by apply bool_decide_eq_true.
Qed.

(** ** The replay window

    The abstract state is the log of the messages that were new, oldest first; the
    messages remembered are its last [cap]. *)

Definition remembered (cap : nat) (log : list (string * string)) : list (string * string) :=
  drop (length log - cap) log.

Definition spec_check (cap : nat) (id content : string) (log : list (string * string))
    : IdVerdict * list (string * string) :=
  match assoc id (remembered cap log) with
  | None => (New, log ++ [(id, content)])
  | Some first =>
      (if (hash_content first =? hash_content content)%N then DuplicateSame else DuplicateDivergent, log)
  end.

(** The verdicts of a sequence of messages. *)
Fixpoint verdicts {S} (step : string → string → S → IdVerdict * S) (l : list (string * string)) (s : S)
    : list IdVerdict * S :=
  match l with
  | [] => ([], s)
  | (id, c) :: l =>
      let '(v, s) := step id c s in
      let '(vs, s) := verdicts step l s in (v :: vs, s)
  end.

Record window_rel (cap : nat) (w : IdWindow) (log : list (string * string)) : Prop := {
  wr_cap : iw_cap w = cap ∧ 1 ≤ cap;
  wr_order : iw_order w = (remembered cap log).*1;
  wr_nodup : NoDup (iw_order w);
  wr_seen id : iw_seen w !! id = hash_content <$> assoc id (remembered cap log);
}.

Lemma remembered_length cap log : length (remembered cap log) = Nat.min cap (length log).
Proof. unfold remembered. rewrite length_drop. lia. Qed.

Lemma remembered_snoc cap log x : 1 ≤ cap →
  remembered cap (log ++ [x]) =
  (if cap <=? length (remembered cap log) then drop 1 (remembered cap log) else remembered cap log) ++ [x].
Proof.
  intros C. rewrite remembered_length. unfold remembered. rewrite length_app. cbn [length].
  destruct (Nat.leb_spec cap (Nat.min cap (length log))).
  - rewrite drop_drop, drop_app_le by lia. do 2 f_equal. lia.
  - rewrite drop_app_le by lia. do 2 f_equal. lia.
Qed.

Lemma assoc_app {A} k (l1 l2 : list (string * A)) :
  assoc k (l1 ++ l2) = match assoc k l1 with Some v => Some v | None => assoc k l2 end.
Proof. induction l1 as [|[k' v] l1 IH]; cbn; [done|]. by case_bool_decide. Qed.

Lemma assoc_None {A} k (l : list (string * A)) : assoc k l = None ↔ k ∉ l.*1.
Proof.
  induction l as [|[k' v] l IH]; cbn; [split; [set_solver|done]|].
  rewrite not_elem_of_cons. case_bool_decide; subst; [naive_solver|]. rewrite IH. naive_solver.
Qed.

(** Dropping the oldest entry forgets exactly its id. *)
Lemma assoc_tail {A} k k' (v : A) l : NoDup (k' :: l.*1) →
  assoc k l = if bool_decide (k = k') then None else assoc k ((k', v) :: l).
Proof.
  intros N. apply NoDup_cons in N as [N _]. cbn. repeat case_bool_decide; try congruence.
  subst. by apply assoc_None.
Qed.

Lemma check_simulation cap id c w log : window_rel cap w log →
  (check id c w).1 = (spec_check cap id c log).1 ∧
  window_rel cap (check id c w).2 (spec_check cap id c log).2.
Proof.
  intros R. pose proof R as [[<- C] O N S]. unfold check, spec_check. rewrite S.
  destruct (assoc id (remembered _ log)) as [c'|] eqn:A; cbn [fmap option_fmap option_map]; [done|].
  apply assoc_None in A. rewrite <- O in A.
  set (old := if _ <=? _ then _ else _).
  assert (H : old.2 = (if iw_cap w <=? length (remembered (iw_cap w) log)
                       then drop 1 (remembered (iw_cap w) log) else remembered (iw_cap w) log).*1 ∧
    NoDup old.2 ∧ id ∉ old.2 ∧
    ∀ k, old.1 !! k = hash_content <$> assoc k (if iw_cap w <=? length (remembered (iw_cap w) log)
      then drop 1 (remembered (iw_cap w) log) else remembered (iw_cap w) log)).
  { subst old. rewrite O, length_fmap. destruct (_ <=? _); [|by rewrite <- O].
    destruct (remembered (iw_cap w) log) as [|[k0 c0] r]; cbn [fmap list_fmap fst snd drop];
      [split_and!; [done|constructor|set_solver|done]|]. rewrite O in N, A. cbn in N, A. pose proof N as [_ N']%NoDup_cons.
    apply not_elem_of_cons in A as [A1 A2]. do 3 (split; [done|]). intros k.
    rewrite (assoc_tail k k0 c0) by done. rewrite lookup_delete. case_bool_decide.
    - subst. by rewrite decide_True.
    - rewrite decide_False by done. apply S. }
  destruct old as [seen order]. cbn [fst snd] in *. destruct H as (H1 & H2 & H3 & H4).
  split; [done|]. split; cbn [iw_cap iw_seen iw_order].
  - done.
  - rewrite remembered_snoc by done. by rewrite fmap_app, <- H1.
  - apply NoDup_app. split; [done|]. split; [set_solver|apply NoDup_singleton].
  - intros k. rewrite remembered_snoc, assoc_app by done. rewrite lookup_insert, H4. case_decide as E.
    + subst k. rewrite H1 in H3. apply assoc_None in H3. rewrite H3. cbn.
      by rewrite bool_decide_eq_true_2.
    + destruct (assoc k _); [done|]. cbn. by rewrite bool_decide_eq_false_2.
Qed.

Lemma verdicts_simulation cap l w log : window_rel cap w log →
  (verdicts check l w).1 = (verdicts (spec_check cap) l log).1 ∧
  window_rel cap (verdicts check l w).2 (verdicts (spec_check cap) l log).2.
Proof.
  revert w log. induction l as [|[id c] l IH]; intros w log R; cbn [verdicts]; [done|].
  pose proof (check_simulation cap id c w log R) as [V R'].
  destruct (check id c w) as [v w'], (spec_check cap id c log) as [v' log']. cbn [fst snd] in *.
  specialize (IH _ _ R'). destruct (verdicts check l w'), (verdicts (spec_check cap) l log').
  cbn in *. destruct IH as [-> IH]. by rewrite V.
Qed.

(** C40: On every sequence of messages a window of capacity [cap] gives the verdicts of
    the abstract log: a message is new exactly when its id is not among the last [cap]
    (at least one) new ones, otherwise it is compared by hash with the content first
    seen under the id; and the window never holds more than [cap] ids. *)
Theorem id_window_refines cap l :
  (verdicts check l (id_window_new cap)).1 = (verdicts (spec_check (Nat.max cap 1)) l []).1 ∧
  id_window_len (verdicts check l (id_window_new cap)).2 ≤ Nat.max cap 1.
Proof.
  assert (R : window_rel (Nat.max cap 1) (id_window_new cap) []).
  { split; cbn; [lia|by rewrite drop_nil|constructor|by rewrite drop_nil]. }
  apply (verdicts_simulation _ l) in R as [V R]. split; [done|].
  destruct R as [_ O N S]. unfold id_window_len. set (w := (verdicts check l _).2) in *.
  rewrite <- (size_dom (D := gset string)). transitivity (size (list_to_set (iw_order w) : gset string)).
  - apply subseteq_size. intros k Hk. apply elem_of_dom in Hk as [h Hk]. rewrite S in Hk.
    apply elem_of_list_to_set. rewrite O. destruct (decide (k ∈ (remembered (Nat.max cap 1)
      (verdicts (spec_check (Nat.max cap 1)) l []).2).*1)) as [|E]; [done|].
    apply assoc_None in E. by rewrite E in Hk.
  - rewrite size_list_to_set, O, length_fmap, remembered_length by done. lia.
Qed.
