(* ===== verification/Classify.v ===== *)
(** * Legacy and new peers ([matrix-proto/src/classify.rs])

    [serde_json::from_slice] is the parameter [from_slice]. *)

From S2P Require Import Prelude RustStd Json Wire Frame Scan Envelope.
From Stdlib Require Import Ascii.

Inductive WireKind : Type := MatrixFrame | LegacyLine | Unknown.

Section classify.
Context (from_slice : bytes → option Value).

Definition classify_new (buf : bytes) (max_frame : N) : option WireKind :=
  match buf with
  | b0 :: b1 :: b2 :: b3 :: rest =>
      let len := from_be_bytes b0 b1 b2 b3 in
      if (len =? 0)%N || (max_frame <? len)%N || (blen rest <? len)%N then None
      else
        v ← from_slice (take (N.to_nat len) rest);
        if bool_decide (get_str "protocol" v = Some PROTOCOL_ID) then Some MatrixFrame else None
  | _ => None
  end.

(** [buf[..nl]] for the first newline. *)
Fixpoint first_line (buf : bytes) : option bytes :=
  match buf with
  | [] => None
  | a :: buf => if bool_decide (a = "010"%char) then Some [] else cons a <$> first_line buf
  end.

Definition classify_legacy (buf : bytes) : bool :=
  match first_line buf with
  | None => false
  | Some line =>
      match from_slice line with
      | None => false
      | Some v => is_some (get_str "verb" v)
      end
  end.

Definition classify (buf : bytes) (max_frame : N) : WireKind :=
  match classify_new buf max_frame with
  | Some kind => kind
  | None => if classify_legacy buf then LegacyLine else Unknown
  end.

(** A buffer is taken for a new peer exactly when it starts with a frame, complete,
    non-empty and within the limit, whose JSON carries the marker of the protocol:
    what follows the frame does not matter. *)
Lemma classify_matrix buf max_frame :
  classify buf max_frame = MatrixFrame ↔
  ∃ payload rest v,
    buf = to_be_bytes (blen payload) ++ payload ++ rest ∧ payload ≠ [] ∧
    (blen payload ≤ max_frame)%N ∧ (blen payload ≤ u32_max)%N ∧
    from_slice payload = Some v ∧ get_str "protocol" v = Some PROTOCOL_ID.
Proof.
  assert (C : classify buf max_frame = MatrixFrame ↔ classify_new buf max_frame = Some MatrixFrame).
  { unfold classify. destruct (classify_new _ _) as [k|]; [by split; [intros ->|intros [= ->]]|].
    by destruct (classify_legacy buf). }
  rewrite C. clear C. unfold classify_new. split.
  - destruct buf as [|b0 [|b1 [|b2 [|b3 rest]]]]; try done.
    set (len := from_be_bytes b0 b1 b2 b3).
    destruct ((len =? 0)%N || (max_frame <? len)%N || (blen rest <? len)%N) eqn:B; [done|].
    nbool. intros Hf. destruct (from_slice _) as [v|] eqn:F; cbn in Hf; [|done].
    case_bool_decide; [|done]. exists (take (N.to_nat len) rest), (drop (N.to_nat len) rest), v.
    assert (L : blen (take (N.to_nat len) rest) = len).
    { unfold blen in *. rewrite length_take. lia. }
    rewrite L, take_drop. subst len. rewrite be_bytes_from. repeat split; try done.
    + intros E. rewrite E in L. by apply H.
    + apply from_be_bytes_bound.
  - intros (payload & rest & v & -> & NE & M & L & F & P).
    pose proof (be_bytes_roundtrip _ L) as R.
    destruct (to_be_bytes (blen payload)) as [|a [|b [|c [|d [|]]]]]; try done. cbn [app]. rewrite R.
    assert (0 < blen payload)%N by (destruct payload; [done|]; unfold blen; cbn; lia).
    replace (blen payload =? 0)%N with false by (symmetry; apply N.eqb_neq; lia).
    replace (max_frame <? blen payload)%N with false by (symmetry; apply N.ltb_ge; lia).
    rewrite blen_app. replace (_ <? _)%N with false by (symmetry; apply N.ltb_ge; lia). cbn [orb].
    rewrite blen_to_nat, take_app_length, F. cbn. by rewrite bool_decide_eq_true_2.
Qed.
End classify.
