(* ===== verification/Remote.v ===== *)
(** * The profile [matrix.remote/0.1] ([matrix-proto/src/remote.rs])

    The semantic validation of remote messages. [remote_open_sound] says what an
    accepted [call.open] carries and what it cannot carry. *)

From S2P Require Import Prelude RustStd Json Wire Dependency.
From Stdlib Require Import Ascii.

Definition REMOTE_PROTOCOL_ID : string := "matrix.remote".
Definition REMOTE_PROTOCOL_VERSION : string := "0.1".

Definition TYPES : list string :=
  [ "session.hello"; "session.welcome"; "session.close"; "heartbeat"; "lease.renew";
    "lease.renewed"; "call.open"; "call.accepted"; "call.result"; "call.cancel"; "stream.open";
    "stream.data"; "stream.credit"; "stream.complete"; "stream.cancel"; "event.deliver";
    "event.subscribe"; "event.subscribed"; "op.query"; "op.result"; "inventory.reconcile";
    "inventory.result"; "revoke.notice" ].

Definition MAX_TRANSPORT_MS : N := 35000.
Definition MAX_FRAME : N := 1024 * 1024.
Definition MAX_ID_LEN : nat := 128.

Definition FORBIDDEN_CALL_FIELDS : list string :=
  ["provider"; "grant"; "grants"; "principal"; "executable"; "entrypoint"; "path"; "ancestor";
   "ancestors"].

Definition bad (reason : string) : WireError :=
  with_details (obj [("reason", JString reason)]) (wire_error INVALID_MESSAGE "remote").

Definition bad_field (field reason : string) : WireError :=
  with_details (obj [("field", JString field); ("reason", JString reason)])
    (wire_error INVALID_MESSAGE "remote").

Definition check_id (body : Value) (field : string) : result string WireError :=
  match get_str field body with
  | Some s => if bounded_str MAX_ID_LEN s then Ok s else Err (bad_field field "empty or oversize id")
  | None => Err (bad_field field "missing id")
  end.

Definition all_digits (s : string) : bool := forallb is_ascii_digit (chars s).

Definition check_decimal (body : Value) (field : string) : result N WireError :=
  let? s := ok_or (get_str field body) (bad_field field "decimal string required") in
  if str_is_empty s || (20 <? String.length s) || negb (all_digits s) then
    Err (bad_field field "decimal string required")
  else ok_or (parse_u64 (chars s)) (bad_field field "out of range").

Definition check_budget_ms (body : Value) (field : string) : result N WireError :=
  let bad := bad_field field "positive integer within transport budget required" in
  match get_u64 field body with
  | Some n => if (0 <? n)%N && (n <=? MAX_TRANSPORT_MS)%N then Ok n else Err bad
  | None => Err bad
  end.

Definition is_ascii_alphanumeric (a : ascii) : bool :=
  let n := N_of_ascii a in
  is_ascii_digit a || ((65 <=? n) && (n <=? 90))%N || ((97 <=? n) && (n <=? 122))%N.

Definition domain_char (a : ascii) : bool :=
  is_ascii_alphanumeric a || bool_decide (a = "-"%char) || bool_decide (a = "_"%char).

Definition check_domain (s : string) : result unit WireError :=
  ensure (negb (str_is_empty s || (64 <? String.length s) || negb (forallb domain_char (chars s))))
    (bad_field "domain" "1..64 of [A-Za-z0-9_-] required").

Definition check_member (o : list (string * Value)) (f : string) : result unit WireError :=
  let? s := ok_or (obj_str f o)
              (bad_field "activation" "logical/instance/generation strings required") in
  let? _ := ensure (bounded_str MAX_ID_LEN s) (bad_field "activation" "empty or oversize member") in
  if bool_decide (f ≠ "logical") then
    ensure (all_digits s && is_some (parse_u64 (chars s)))
      (bad_field "activation" "instance/generation must be decimal")
  else Ok tt.

Definition check_activation (v : Value) : result unit WireError :=
  let? o := ok_or (as_object v) (bad_field "activation" "object required") in
  for_each (check_member o) ["logical"; "instance"; "generation"].

Definition request_fields : list string :=
  ["message_id"; "session_id"; "instance_id"; "generation"; "request_id"; "body"].

Definition top_arms : list (list string * list string) :=
  [ (["session.hello"], ["message_id"; "body"]);
    (["session.welcome"], ["message_id"; "session_id"; "body"]);
    (["session.close"], ["message_id"; "session_id"; "body"]);
    (["heartbeat"], ["message_id"; "session_id"; "body"]);
    (["lease.renew"; "lease.renewed"], ["message_id"; "session_id"; "body"]);
    (["call.open"], request_fields);
    (["call.accepted"; "call.result"; "call.cancel"],
      ["message_id"; "session_id"; "request_id"; "body"]);
    (["stream.open"], request_fields);
    (["stream.data"; "stream.credit"; "stream.complete"; "stream.cancel"],
      ["message_id"; "session_id"; "body"]);
    (["event.deliver"], ["message_id"; "session_id"; "instance_id"; "generation"; "body"]);
    (["event.subscribe"], ["message_id"; "session_id"; "request_id"; "body"]);
    (["event.subscribed"], ["message_id"; "session_id"; "request_id"; "body"]);
    (["op.query"; "op.result"], ["message_id"; "session_id"; "body"]);
    (["inventory.reconcile"; "inventory.result"], ["message_id"; "session_id"; "body"]);
    (["revoke.notice"], ["message_id"; "session_id"; "body"]) ].

Definition required_top (ty : string) : option (list string) := arm ty top_arms.
#[global] Arguments required_top : simpl never.

Definition base64_char (a : ascii) : bool :=
  is_ascii_alphanumeric a || bool_decide (a ∈ ["+"; "/"; "="; "010"; "013"]%char).

Definition check_base64 (s : string) : bool :=
  let len := N.of_nat (String.length s) in
  if (4 * (MAX_FRAME / 3 + 1) <? len)%N then false
  else forallb base64_char (chars s) && (len mod 4 =? 0)%N.

(** [match body.get(f).and_then(|v| v.as_u64()) { Some(_) => {}, None => return Err(..) }]. *)
Definition need_u64 (body : Value) (f reason : string) : result unit WireError :=
  ensure (is_some (get_u64 f body)) (bad_field f reason).

Definition need_bool (body : Value) (f : string) : result unit WireError :=
  ensure (is_some (get f body ≫= as_bool)) (bad_field f "boolean required").

Definition need_str_in (body : Value) (f : string) (l : list string) (reason : string)
    : result unit WireError :=
  ensure (str_in f l body) (bad_field f reason).

Definition need_array (body : Value) (f : string) : result unit WireError :=
  ensure (is_some (get_array f body)) (bad_field f "array required").

(** Entries that are non-empty strings of at most [max] bytes. *)
Definition need_strings (max : nat) (f : string) (l : list Value) : result unit WireError :=
  for_each (λ v, ensure (is_some_and (bounded_str max) (as_str v))
    (bad_field f "entries must be non-empty strings")) l.

Definition need_domain (field reason : string) (v : Value) : result unit WireError :=
  let? s := ok_or (get_str "domain" v) (bad_field field reason) in check_domain s.

Definition need_activation (field reason : string) (v : Value) : result unit WireError :=
  let? a := ok_or (get "activation" v) (bad_field field reason) in check_activation a.

(** ** The arms of [validate_body] *)

Definition check_hello (body : Value) : result unit WireError :=
  let? versions := ok_or (get_array "versions" body)
                     (bad_field "versions" "array of version strings required") in
  let? _ := ensure (negb (bool_decide (versions = []) || (8 <? length versions)))
              (bad_field "versions" "1..8 entries required") in
  let? _ := need_strings 32 "versions" versions in
  let? _ := need_domain "domain" "missing domain" body in
  let? _ := check_id body "authority" in
  let? _ := check_decimal body "controller_epoch" in
  Ok tt.

Definition check_welcome (body : Value) : result unit WireError :=
  let? _ := check_id body "version" in
  let? _ := check_decimal body "executor_epoch" in
  match get "features" body with
  | None => Ok tt
  | Some feats =>
      let? arr := ok_or (as_array feats) (bad_field "features" "array of strings required") in
      let? _ := ensure (length arr <=? 16) (bad_field "features" "too many entries") in
      need_strings 64 "features" arr
  end.

Definition check_renew (body : Value) : result unit WireError :=
  let? _ := check_id body "token" in
  let? _ := check_decimal body "fence" in
  let? _ := need_u64 body "seq" "monotonic sequence required" in
  let? _ := check_budget_ms body "ttl_ms" in
  Ok tt.

Definition check_renewed (body : Value) : result unit WireError :=
  let? _ := need_str_in body "status" ["ok"; "stale"; "retired"] "must be ok, stale or retired" in
  let? _ := check_id body "token" in
  need_u64 body "seq" "monotonic sequence required".

Definition check_open (body : Value) : result unit WireError :=
  let? parent := ok_or (get "parent" body) (bad_field "parent" "object required") in
  let? _ := need_activation "parent" "parent.activation required" parent in
  let? _ := check_id parent "ticket" in
  let? _ := need_domain "parent" "parent.domain required" parent in
  let? binding := check_id body "binding_id" in
  let? _ := ensure (starts_with "rb-" binding) (bad_field "binding_id" "remote bindings are rb-<n>") in
  let? _ := need_activation "activation" "consumer activation required" body in
  let? _ := check_id body "cap" in
  let? _ := ensure (is_some (get "input" body)) (bad_field "input" "missing input") in
  let? _ := check_budget_ms body "timeout_ms" in
  let? _ := check_budget_ms body "budget_ms" in
  let? _ := check_id body "lease" in
  let? _ := check_decimal body "grant_rev" in
  let? _ := check_id body "operation_id" in
  for_each (λ f, ensure (negb (is_some (get f body)))
    (bad_field f "authority must not come from payload")) FORBIDDEN_CALL_FIELDS.

Definition check_result (body : Value) : result unit WireError :=
  let? _ :=
    if str_in "status" ["ok"] body then
      ensure (is_some (get "output" body)) (bad_field "output" "ok requires output")
    else if str_in "status" ["error"] body then
      check_error bad_field "non-empty code and message required" body
    else Err (bad_field "status" "must be ok or error") in
  need_bool body "terminal".

Definition check_stream_open (body : Value) : result unit WireError :=
  let? _ := check_id body "stream_id" in
  let? _ := check_id body "operation_id" in
  let? _ := need_str_in body "direction" ["up"; "down"; "bidi"] "must be up, down or bidi" in
  let? _ := for_each (λ f, need_u64 body f "non-negative integer required") ["max_bytes"; "credit"] in
  need_activation "activation" "owner activation required" body.

Definition check_stream_data (body : Value) : result unit WireError :=
  let? _ := check_id body "stream_id" in
  let? _ := need_u64 body "seq" "non-negative integer required" in
  let? s := ok_or (get_str "bytes" body) (bad_field "bytes" "base64 string required") in
  let? _ := ensure (check_base64 s) (bad_field "bytes" "invalid base64 payload") in
  need_u64 body "credit" "remaining-credit report required".

Definition check_topics (body : Value) : result unit WireError :=
  let? topics := ok_or (get_array "topics" body)
                   (bad_field "topics" "array of topic strings required") in
  let? _ := ensure (length topics <=? 128) (bad_field "topics" "at most 128 entries") in
  need_strings MAX_ID_LEN "topics" topics.

Definition check_inventory (body : Value) : result unit WireError :=
  let? _ := for_each (need_array body) ["revoked"; "unknown"] in
  match get "activations" body with
  | None => Ok tt
  | Some acts =>
      let? arr := ok_or (as_array acts) (bad_field "activations" "array required") in
      let? _ := ensure (length arr <=? 256) (bad_field "activations" "at most 256 entries") in
      for_each (λ a, let? _ := check_id a "logical" in let? _ := check_decimal a "instance" in
                     let? _ := check_decimal a "generation" in Ok tt) arr
  end.

Definition check_close (body : Value) : result unit WireError :=
  let? _ := check_id body "reason" in Ok tt.

Definition check_accepted (body : Value) : result unit WireError :=
  let? _ := need_str_in body "status" ["admitted"] "must be admitted" in
  need_bool body "persisted".

Definition check_cancel (body : Value) : result unit WireError :=
  let? _ := check_id body "reason" in let? _ := check_id body "operation_id" in Ok tt.

Definition check_credit (body : Value) : result unit WireError :=
  let? _ := check_id body "stream_id" in
  need_u64 body "credit" "non-negative integer required".

Definition check_stream_end (body : Value) : result unit WireError :=
  let? _ := check_id body "stream_id" in
  need_str_in body "status" ["ok"; "error"; "cancelled"] "must be ok, error or cancelled".

Definition check_event (body : Value) : result unit WireError :=
  let? _ := check_id body "topic" in
  let? _ := ensure (is_some (get "payload" body)) (bad_field "payload" "missing payload") in
  need_u64 body "seq" "non-negative integer required".

Definition check_op_query (body : Value) : result unit WireError :=
  let? _ := check_id body "principal" in let? _ := check_id body "operation_id" in Ok tt.

Definition check_op_result (body : Value) : result unit WireError :=
  need_str_in body "state" ["admitted"; "completed"; "unknown"] "must be admitted, completed or unknown".

Definition check_reconcile (body : Value) : result unit WireError :=
  for_each (need_array body) ["activations"; "leases"; "operations"; "resources"].

Definition check_revoke (body : Value) : result unit WireError :=
  let? _ := check_id body "target" in let? _ := check_decimal body "fence" in Ok tt.

Definition body_arms : list (list string * (Value → result unit WireError)) :=
  [ (["session.hello"], check_hello);
    (["session.welcome"], check_welcome);
    (["session.close"], check_close);
    (["heartbeat"], λ _, Ok tt);
    (["lease.renew"], check_renew);
    (["lease.renewed"], check_renewed);
    (["call.open"], check_open);
    (["call.accepted"], check_accepted);
    (["call.result"], check_result);
    (["call.cancel"], check_cancel);
    (["stream.open"], check_stream_open);
    (["stream.data"], check_stream_data);
    (["stream.credit"], check_credit);
    (["stream.complete"; "stream.cancel"], check_stream_end);
    (["event.deliver"], check_event);
    (["event.subscribe"; "event.subscribed"], check_topics);
    (["op.query"], check_op_query);
    (["op.result"], check_op_result);
    (["inventory.reconcile"], check_reconcile);
    (["inventory.result"], check_inventory);
    (["revoke.notice"], check_revoke) ].

Definition validate_body (ty : string) (body : Value) : result unit WireError :=
  match arm ty body_arms with
  | Some f => f body
  | None => Err (bad "unknown remote message")
  end.
#[global] Arguments validate_body : simpl never.

Definition is_answer_type (ty : string) : bool :=
  bool_decide (ty ∈ ["call.accepted"; "call.result"; "op.result"; "inventory.result";
                     "lease.renewed"; "event.subscribed"]).

Definition check_top (o : list (string * Value)) (f : string) : result unit WireError :=
  let bad := bad_field f "missing or oversize field" in
  match assoc f o with
  | Some (JString s) => ensure (bounded_str MAX_ID_LEN s) bad
  | Some (JObject _) => ensure (bool_decide (f = "body")) bad
  | _ => Err bad
  end.

Definition check_identity (o : list (string * Value)) (f : string) : result unit WireError :=
  match assoc f o with
  | None => Ok tt
  | Some x =>
      ensure (is_some_and (λ s, negb (str_is_empty s) && all_digits s && is_some (parse_u64 (chars s)))
                (as_str x))
        (bad_field f "decimal string required")
  end.

Definition validate_envelope (v : Value) : result unit WireError :=
  let? o := ok_or (as_object v) (bad "envelope must be an object") in
  let? _ := ensure (bool_decide (obj_str "protocol" o = Some REMOTE_PROTOCOL_ID))
              (bad "protocol must be matrix.remote") in
  let? _ := ensure (bool_decide (obj_str "version" o = Some REMOTE_PROTOCOL_VERSION))
              (bad "version must be 0.1") in
  let? ty := ok_or (obj_str "type" o) (bad "missing type") in
  let? fields := ok_or (required_top ty) (bad "unknown remote message") in
  let? _ := for_each (check_top o) fields in
  let? _ := for_each (check_identity o) ["instance_id"; "generation"] in
  let? body := ok_or (assoc "body" o) (bad "missing body") in
  validate_body ty body.

(** ** What an accepted [call.open] is *)

(** Both tables cover exactly the types of the profile, and the answer types are
    among them. *)
Lemma remote_types ty :
  (is_Some (required_top ty) ↔ ty ∈ TYPES) ∧ (is_Some (arm ty body_arms) ↔ ty ∈ TYPES) ∧
  (is_answer_type ty = true → ty ∈ TYPES).
Proof.
  unfold required_top. rewrite !arm_elem.
  assert (P1 : concat top_arms.*1 ≡ₚ TYPES) by (apply (bool_decide_unpack _); vm_compute; exact I).
  assert (P2 : concat body_arms.*1 = TYPES) by reflexivity.
  rewrite P1, P2. split; [done|]. split; [done|]. unfold is_answer_type. intros H. nbool.
  assert (S : Forall (.∈ TYPES) ["call.accepted"; "call.result"; "op.result"; "inventory.result";
    "lease.renewed"; "event.subscribed"]) by (apply (bool_decide_unpack _); vm_compute; exact I).
  rewrite Forall_forall in S. auto.
Qed.

(** A non-empty string of at most [MAX_ID_LEN] bytes. *)
Definition is_id (v : option Value) : Prop :=
  ∃ s, v = Some (JString s) ∧ s ≠ "" ∧ String.length s ≤ MAX_ID_LEN.

Definition is_decimal (v : option Value) : Prop :=
  ∃ s n, v = Some (JString s) ∧ Forall (λ a, is_ascii_digit a = true) (chars s) ∧
         parse_u64 (chars s) = Some n ∧ (n ≤ u64_max)%N.

Definition is_budget (v : option Value) : Prop :=
  ∃ n, v = Some (j_u64 n) ∧ (0 < n ≤ MAX_TRANSPORT_MS)%N.

Definition is_activation (v : option Value) : Prop :=
  ∃ o, v = Some (JObject o) ∧ is_id (assoc "logical" o) ∧
       is_decimal (assoc "instance" o) ∧ is_decimal (assoc "generation" o).

Lemma get_str_Some f v s : get_str f v = Some s ↔ get f v = Some (JString s).
Proof. unfold get_str. destruct (get f v) as [[]|]; cbn; split; congruence. Qed.

Lemma obj_str_Some f o s : obj_str f o = Some s ↔ assoc f o = Some (JString s).
Proof. unfold obj_str. destruct (assoc f o) as [[]|]; cbn; split; congruence. Qed.

Lemma check_id_sound body f s : check_id body f = Ok s →
  get f body = Some (JString s) ∧ s ≠ "" ∧ String.length s ≤ MAX_ID_LEN.
Proof.
  unfold check_id. destruct (get_str f body) as [s'|] eqn:E; [|done].
  destruct (bounded_str MAX_ID_LEN s') eqn:B; [|done]. intros [= ->].
  apply bounded_str_spec in B. by apply get_str_Some in E.
Qed.

Lemma all_digits_spec s : all_digits s = true ↔ Forall (λ a, is_ascii_digit a = true) (chars s).
Proof. unfold all_digits. rewrite forallb_forall, Forall_forall. by setoid_rewrite list_elem_of_In. Qed.

Lemma check_decimal_sound body f n : check_decimal body f = Ok n → is_decimal (get f body).
Proof.
  unfold check_decimal. destruct (get_str f body) as [s|] eqn:E; cbn [ok_or]; [|done].
  destruct (_ || _ || _) eqn:B; [done|]. nbool. intros H'. mx_ok. apply get_str_Some in E.
  rename select (all_digits s = true) into D. apply all_digits_spec in D.
  exists s, n. split_and!; [done..|by eapply parse_u64_bound].
Qed.

Lemma check_budget_sound body f n : check_budget_ms body f = Ok n → is_budget (get f body).
Proof.
  unfold check_budget_ms, get_u64. destruct (get f body) as [[| |[]| | |]|]; try done. cbn.
  case_match; [|done]. nbool. intros [= ->]. by exists n.
Qed.

Lemma check_activation_sound v : check_activation v = Ok tt → is_activation (Some v).
Proof.
  unfold check_activation. intros H. mx_ok. apply for_each_ok in H. rewrite !Forall_cons in H.
  destruct H as (H1 & H2 & H3 & _). destruct v; try done. rename select (as_object _ = _) into E.
  injection E as ->. exists a. split; [done|].
  assert (M : ∀ f, check_member a f = Ok tt → is_id (assoc f a) ∧
    (f ≠ "logical" → is_decimal (assoc f a))).
  { intros f. unfold check_member. intros H. destruct (obj_str f a) as [s|] eqn:E; cbn [ok_or] in H; [|done].
    apply obj_str_Some in E. destruct (bounded_str MAX_ID_LEN s) eqn:B; cbn [ensure] in H; [|done].
    apply bounded_str_spec in B. split; [by exists s|]. intros N. rewrite bool_decide_eq_true_2 in H by done.
    apply ensure_ok in H. nbool. rename select (all_digits s = true) into D.
    apply all_digits_spec in D. destruct (parse_u64 (chars s)) as [n|] eqn:P; [|done].
    exists s, n. split_and!; [done..|by eapply parse_u64_bound]. }
  split_and!; [by apply M|by apply M..].
Qed.

(** The fields of an accepted [call.open] body. *)
Record open_body (body : Value) : Prop := {
  ob_binding : ∃ s, get "binding_id" body = Some (JString ("rb-" +:+ s));
  ob_activation : is_activation (get "activation" body);
  ob_ids f : f ∈ ["binding_id"; "cap"; "lease"; "operation_id"] → is_id (get f body);
  ob_budgets f : f ∈ ["timeout_ms"; "budget_ms"] → is_budget (get f body);
  ob_grant : is_decimal (get "grant_rev" body);
  ob_parent : ∃ parent, get "parent" body = Some parent ∧ is_id (get "ticket" parent) ∧
    is_activation (get "activation" parent);
  ob_input : is_Some (get "input" body);
  ob_authority f : f ∈ FORBIDDEN_CALL_FIELDS → get f body = None;
}.

Lemma prefix_split p s : starts_with p s = true → ∃ r, s = p +:+ r.
Proof.
  unfold starts_with. revert s. induction p as [|a p IH]; intros s; [by exists s|].
  destruct s as [|b s]; [done|]. cbn. destruct (Ascii.ascii_dec a b) as [->|]; [|done].
  intros [r ->]%IH. by exists r.
Qed.

Lemma check_open_sound body : check_open body = Ok tt → open_body body.
Proof.
  unfold check_open, need_activation, need_domain. intros H. mx_ok.
  repeat match goal with
  | H : check_id _ _ = Ok _ |- _ => apply check_id_sound in H as (? & ? & ?)
  | H : check_budget_ms _ _ = Ok _ |- _ => apply check_budget_sound in H
  | H : check_decimal _ _ = Ok _ |- _ => apply check_decimal_sound in H
  | H : check_activation _ = Ok _ |- _ => apply check_activation_sound in H
  | H : starts_with _ _ = true |- _ => apply prefix_split in H as [? ->]
  | H : get "activation" _ = Some _ |- _ => rewrite <- H in *; clear H
  end.
  split; try done; eauto.
  - intros f. rewrite !elem_of_cons. intros [->|[->|[->|[->|E%not_elem_of_nil]]]]; [..|done].
    all: unfold is_id; eauto.
  - intros f. rewrite !elem_of_cons. intros [->|[->|E%not_elem_of_nil]]; done.
  - eexists. split; [done|]. split; [unfold is_id; eauto|done].
  - destruct (get "input" body); [eauto|done].
  - intros f Hf. apply for_each_ok in H. rewrite Forall_forall in H. apply H, ensure_ok in Hf.
    by destruct (get f body).
Qed.

(** An accepted remote [call.open] is attributable and bounded: message, session
    and request ids are non-empty strings of at most 128 bytes, the identity of the
    caller is two 64-bit decimals, the binding is a remote one, both budgets lie
    between 1 ms and the transport budget, the activations name a logical component
    with decimal instance and generation, and no field of the payload can claim a
    provider, grant, principal, executable or ancestor. *)
Theorem remote_open_sound v :
  validate_envelope v = Ok tt → get_str "type" v = Some "call.open" →
  ∃ body, get "body" v = Some body ∧ open_body body ∧
    (∀ f, f ∈ ["message_id"; "session_id"; "request_id"; "instance_id"; "generation"] → is_id (get f v)) ∧
    is_decimal (get "instance_id" v) ∧ is_decimal (get "generation" v).
Proof.
  unfold validate_envelope. intros H T. mx_ok. destruct v; try done.
  rename select (as_object _ = _) into E. injection E as ->.
  rename select (obj_str "type" a = Some _) into E. change (obj_str "type" a = Some "call.open") in T.
  rewrite T in E. injection E as <-.
  rename select (required_top _ = _) into R. injection R as <-.
  rename select (assoc "body" a = _) into B. rename select (for_each (check_top a) _ = _) into F1.
  rename select (for_each (check_identity a) _ = _) into F2. apply for_each_ok in F1, F2.
  rewrite Forall_forall in F1. rewrite !Forall_cons in F2. destruct F2 as (I1 & I2 & _).
  assert (Ids : ∀ f, f ∈ request_fields → f ≠ "body" → is_id (assoc f a)).
  { intros f Hf Nb. apply F1 in Hf. unfold check_top in Hf. destruct (assoc f a) as [[]|]; try done.
    - apply ensure_ok, bounded_str_spec in Hf. eexists. done.
    - by rewrite bool_decide_eq_false_2 in Hf. }
  assert (Dec : ∀ f, f ∈ request_fields → f ≠ "body" → check_identity a f = Ok tt → is_decimal (assoc f a)).
  { intros f Hf Nb D. destruct (Ids f Hf Nb) as (s & E & _). unfold check_identity in D. rewrite E in D |- *.
    apply ensure_ok in D. cbn in D. nbool. destruct (parse_u64 (chars s)) as [n|] eqn:P; [|done].
    exists s, n. split_and!; [done|by apply all_digits_spec|done|by eapply parse_u64_bound]. }
  eexists. split; [done|]. split; [by apply check_open_sound|].
  split; [|split; apply Dec; (done || unfold request_fields; set_solver)].
  intros f Hf. apply Ids; unfold request_fields; set_solver.
Qed.

(** A complete envelope. *)
Definition demo_activation : Value :=
  obj [("logical", JString "app"); ("instance", JString "7"); ("generation", JString "2")].
Definition demo_open : Value :=
  obj [("protocol", JString "matrix.remote"); ("version", JString "0.1"); ("type", JString "call.open");
       ("message_id", JString "m1"); ("session_id", JString "s1"); ("request_id", JString "r1");
       ("instance_id", JString "7"); ("generation", JString "2");
       ("body", obj [("parent", obj [("activation", demo_activation); ("ticket", JString "17");
                                     ("domain", JString "edge-1")]);
          ("binding_id", JString "rb-3"); ("activation", demo_activation); ("cap", JString "kv.get@1");
          ("input", JNull); ("timeout_ms", j_u64 1500); ("budget_ms", j_u64 35000);
          ("lease", JString "l1"); ("grant_rev", JString "4"); ("operation_id", JString "op-1")])].

Lemma remote_open_sound_witness :
  ∃ body, get "body" demo_open = Some body ∧ is_budget (get "budget_ms" body) ∧
          get "grants" body = None.
Proof.
  destruct (remote_open_sound demo_open) as (body & B & O & _); [by vm_compute..|].
  exists body. split; [done|]. destruct O as [_ _ _ Hb _ _ _ Ha].
  split; [apply Hb|apply Ha]; apply (bool_decide_unpack _); vm_compute; exact I.
Defined.
