(* ===== verification/Guard.v ===== *)
(** * Execution policy ([matrix-guard/src/lib.rs])

    Launch tokens, the sandbox and the command that enters it, the system call
    filter, and the restart budget. The file system, the constants of [libc] and the
    machine of the kernel that runs the filter are parameters. *)

From S2P Require Import Prelude RustStd.
From Stdlib Require Import Ascii.

(** ** Tokens *)

Definition hex_digit (n : N) : ascii := byte (if (n <? 10)%N then 48 + n else 87 + n)%N.

(** [format!("{v:02x}")] of the bytes of [/dev/urandom]. *)
Definition hex (l : bytes) : bytes :=
  concat ((λ a, [hex_digit (N_of_ascii a / 16); hex_digit (N_of_ascii a mod 16)]) <$> l).

(** [urandom] is the answer of the device for [n] bytes. *)
Definition random_token (urandom : nat → result bytes string) : result string string :=
  let? b := urandom 32 in Ok (of_chars (hex b)).

(** The comparison looks at every byte whatever the first difference is. *)
Definition token_eq (a b : string) : bool :=
  if negb (String.length a =? String.length b) then false
  else
    (foldl (λ n xy, N.lor n (N.lxor (N_of_ascii xy.1) (N_of_ascii xy.2))) 0
       (zip (chars a) (chars b)) =? 0)%N.

(** ** The sandbox *)

Record Sandbox : Type := mkSandbox {
  sb_workspace : string;
  sb_read_only : list string;
  sb_memory_bytes : N;
  sb_cpu_seconds : N;
  sb_file_bytes : N;
  sb_open_files : N;
}.

(** What the launcher asks the file system. *)
Record Fs : Type := mkFs {
  fs_is_dir : string → bool;
  fs_exists : string → bool;
  fs_canonicalize : string → result string string;
}.

(** [Path::is_absolute]. *)
Definition is_absolute (p : string) : bool := starts_with "/" p.

Definition sandbox_validate (fs : Fs) (s : Sandbox) : result unit string :=
  let? _ := ensure (negb ((sb_memory_bytes s <? 64 * 1024 * 1024)%N || (sb_cpu_seconds s =? 0)%N ||
                          (sb_file_bytes s =? 0)%N || (sb_open_files s <? 16)%N))
              "invalid finite sandbox limits" in
  let? _ := ensure (is_absolute (sb_workspace s) && fs_is_dir fs (sb_workspace s))
              "workspace must be an existing absolute private directory" in
  for_each (λ p, ensure (is_absolute p && fs_exists fs p) "invalid read-only mount") (sb_read_only s).

(** [Path::components] of an absolute path, less the root. *)
Definition components (p : string) : list (list ascii) :=
  List.filter (λ c, negb (bool_decide (c = [])) && negb (bool_decide (c = ["."%char])))
    (split_on "/" (chars p)).

(** [Path::starts_with] of absolute paths. *)
Definition path_starts_with (base p : string) : bool :=
  bool_decide (components base `prefix_of` components p).

(** A command before it is spawned: program, arguments, environment, and the limits
    set between [fork] and [exec]. *)
Record Launch : Type := mkLaunch {
  ln_program : string;
  ln_args : list string;
  ln_env : option (list (string * string));   (* [None]: cleared by the sandbox *)
  ln_limits : list (string * N);
}.

Definition bwrap_base : list string :=
  [ "--unshare-all"; "--die-with-parent"; "--new-session"; "--cap-drop"; "ALL"; "--clearenv";
    "--ro-bind"; "/usr"; "/usr"; "--symlink"; "usr/bin"; "/bin"; "--symlink"; "usr/lib"; "/lib";
    "--symlink"; "usr/lib"; "/lib64"; "--proc"; "/proc"; "--dev"; "/dev"; "--tmpfs"; "/tmp" ].

(** The options of [bwrap], up to the separator. *)
Definition bwrap_options (s : Sandbox) (sock executable token : string) (filter_fd : N) : list string :=
  bwrap_base ++ ["--bind"; sb_workspace s; "/workspace"] ++ ["--ro-bind"; sock; sock] ++
  (if path_starts_with "/usr" executable then [] else ["--ro-bind"; executable; executable]) ++
  concat ((λ p, ["--ro-bind"; p; p]) <$> sb_read_only s) ++
  ["--chdir"; "/workspace"; "--setenv"; "PATH"; "/usr/bin"; "--setenv"; "HOME"; "/workspace";
   "--setenv"; "MATRIX_LAUNCH_TOKEN"; token] ++
  ["--seccomp"; display filter_fd].

Definition sandbox_limits (s : Sandbox) : list (string * N) :=
  [ ("RLIMIT_AS", sb_memory_bytes s); ("RLIMIT_CPU", sb_cpu_seconds s);
    ("RLIMIT_FSIZE", sb_file_bytes s); ("RLIMIT_NOFILE", sb_open_files s); ("RLIMIT_CORE", 0%N) ].

(** [spawn] up to the system call; [filter_fd] is the answer of [filter()]. *)
Definition spawn_command (fs : Fs) (filter_fd : result N string) (entrypoint : string)
    (args : list string) (token sock : string) (sandbox : option Sandbox) : result Launch string :=
  match sandbox with
  | Some s =>
      let? _ := sandbox_validate fs s in
      let? executable := fs_canonicalize fs entrypoint in
      let? fd := filter_fd in
      Ok (mkLaunch "/usr/bin/bwrap"
            (bwrap_options s sock executable token fd ++ ["--"; executable] ++ args)
            None (sandbox_limits s))
  | None =>
      Ok (mkLaunch entrypoint args
            (Some [("PATH", "/usr/bin:/bin"); ("MATRIX_LAUNCH_TOKEN", token)]) [])
  end.

(** [kill_group]: [kill] answers with its error, [wait] likewise. *)
Definition kill_group (esrch : N) (kill : option N) (wait : option string) : result unit string :=
  match kill with
  | Some errno => if (errno =? esrch)%N
                  then match wait with Some e => Err e | None => Ok tt end
                  else Err ("os error " +:+ display errno)
  | None => match wait with Some e => Err e | None => Ok tt end
  end.

(** ** The system call filter *)

(** [libc::sock_filter]. *)
Record SockFilter : Type := mkSF { sf_code : N; sf_jt : nat; sf_jf : nat; sf_k : N }.

(** The constants of [libc] the filter uses. *)
Record Libc : Type := mkLibc {
  EPERM : N; ENOSYS : N;
  SYS_fork : N; SYS_vfork : N; SYS_unshare : N; SYS_setns : N; SYS_ptrace : N; SYS_mount : N;
  SYS_bpf : N; SYS_keyctl : N; SYS_clone3 : N; SYS_clone : N; CLONE_THREAD : N;
}.

Section filter.
Context (c : Libc).

Definition stmt (code k : N) : SockFilter := mkSF code 0 0 k.
Definition jump (k : N) (jt jf : nat) : SockFilter := mkSF 21 jt jf k.          (* 0x15 *)
Definition deny : SockFilter := stmt 6 (N.lor 327680 (EPERM c)).                 (* 0x06, 0x00050000 *)

Definition denied_calls : list N :=
  [SYS_fork c; SYS_vfork c; SYS_unshare c; SYS_setns c; SYS_ptrace c; SYS_mount c; SYS_bpf c;
   SYS_keyctl c].

Definition filter_program : list SockFilter :=
  [ stmt 32 4; jump 3221225534 1 0; stmt 6 2147483648; stmt 32 0 ] ++             (* 0xc000003e *)
  [ mkSF 69 0 1 1073741824; deny ] ++                                             (* 0x45, 0x40000000 *)
  concat ((λ nr, [jump nr 0 1; deny]) <$> denied_calls) ++
  [ jump (SYS_clone3 c) 0 1; stmt 6 (N.lor 327680 (ENOSYS c)) ] ++
  [ jump (SYS_clone c) 0 3; stmt 32 16; mkSF 69 1 0 (CLONE_THREAD c); deny; stmt 6 2147418112 ].
End filter.

(** ** Restarts *)

Record RestartPolicy : Type := mkRestartPolicy {
  rp_max_restarts : nat;
  rp_window_ms : N;
  rp_backoff_ms : N;
}.

Definition default_policy : RestartPolicy := mkRestartPolicy 5 10000 100.

Record RestartBudget : Type := mkRestartBudget {
  rb_attempts : list Instant;      (* oldest first *)
  rb_next : option Instant;
}.

Definition saturating_mul (a b : N) : N := N.min (a * b) u64_max.

(** The [while] loop: forgets the attempts that left the window. *)
Fixpoint purge (now window : N) (l : list Instant) : list Instant :=
  match l with
  | t :: l' => if (window <=? saturating_sub now t)%N then purge now window l' else l
  | [] => []
  end.

Definition reserve (now : Instant) (p : RestartPolicy) (b : RestartBudget)
    : option Instant * RestartBudget :=
  if (rp_window_ms p =? 0)%N || (rp_backoff_ms p =? 0)%N || (100 <? rp_max_restarts p) then (None, b)
  else
    let attempts := purge now (rp_window_ms p) (rb_attempts b) in
    if rp_max_restarts p <=? length attempts then (None, mkRestartBudget attempts (rb_next b))
    else
      let exp := (2 ^ N.of_nat (Nat.min (length attempts) 10))%N in
      let jitter := ((N.of_nat (length attempts) * 37) mod rp_backoff_ms p)%N in
      let next := (now + N.min (saturating_add (saturating_mul (rp_backoff_ms p) exp) jitter) 60000)%N in
      (Some next, mkRestartBudget (attempts ++ [now]) (Some next)).

(** ** Token comparison *)

Lemma lor_fold_zero (l : list (ascii * ascii)) n :
  foldl (λ n xy, N.lor n (N.lxor (N_of_ascii xy.1) (N_of_ascii xy.2))) n l = 0%N ↔
  n = 0%N ∧ Forall (λ xy, xy.1 = xy.2) l.
Proof.
  revert n. induction l as [|[x y] l IH]; intros n; cbn [foldl fst snd];
    [by split; [intros ->|intros []]|].
  rewrite IH. cbn [fst snd]. rewrite N.lor_eq_0_iff, N.lxor_eq_0_iff, Forall_cons.
  enough (N_of_ascii x = N_of_ascii y ↔ x = y) as -> by (cbn; tauto).
  split; [|by intros ->]. intros E. by rewrite <- (ascii_N_embedding x), E, ascii_N_embedding.
Qed.

Lemma chars_length s : length (chars s) = String.length s.
Proof. induction s; cbn; congruence. Qed.

Lemma zip_equal {A} (l k : list A) :
  length l = length k → Forall (λ xy, xy.1 = xy.2) (zip l k) → l = k.
Proof.
  revert k. induction l as [|x l IH]; intros [|y k]; cbn; try done.
  intros [= L] [E F]%Forall_cons_1. cbn in E. subst. f_equal. auto.
Qed.

(** The comparison that runs over all bytes decides equality of tokens. *)
Theorem token_eq_exact a b : token_eq a b = bool_decide (a = b).
Proof.
  unfold token_eq. destruct (Nat.eqb_spec (String.length a) (String.length b)) as [L|L]; cbn [negb].
  - apply Bool.eq_iff_eq_true. rewrite N.eqb_eq, bool_decide_eq_true, lor_fold_zero. split.
    + intros [_ F]. rewrite <- (of_chars_chars a), <- (of_chars_chars b). f_equal.
      apply zip_equal; [by rewrite !chars_length|done].
    + intros ->. split; [done|]. induction (chars b); constructor; done.
  - symmetry. apply bool_decide_eq_false. congruence.
Qed.

(** ** The filter enforces its policy *)

(** The part of the machine of classic BPF that the filter uses: a program runs on
    the words of the system call ([word 0] is its number, [word 4] the architecture,
    [word 16] the low half of its first argument) with an accumulator. *)
Class BpfMachine := {
  bpf : list SockFilter → (N → N) → N → option N;
  bpf_load jt jf k p word a : bpf (mkSF 32 jt jf k :: p) word a = bpf p word (word k);
  bpf_jeq jt jf k p word a :
    bpf (mkSF 21 jt jf k :: p) word a = bpf (drop (if (a =? k)%N then jt else jf) p) word a;
  bpf_jset jt jf k p word a :
    bpf (mkSF 69 jt jf k :: p) word a = bpf (drop (if (N.land a k =? 0)%N then jf else jt) p) word a;
  bpf_ret jt jf k p word a : bpf (mkSF 6 jt jf k :: p) word a = Some k;
}.

Definition KILL : N := 2147483648.
Definition ALLOW : N := 2147418112.
Definition ERRNO (e : N) : N := N.lor 327680 e.

(** The intended verdict for a system call. *)
Definition policy (c : Libc) (word : N → N) : N :=
  if negb (word 4 =? 3221225534)%N then KILL
  else if negb (N.land (word 0) 1073741824 =? 0)%N then ERRNO (EPERM c)
  else if bool_decide (word 0%N ∈ denied_calls c) then ERRNO (EPERM c)
  else if (word 0 =? SYS_clone3 c)%N then ERRNO (ENOSYS c)
  else if (word 0 =? SYS_clone c)%N && (N.land (word 16) (CLONE_THREAD c) =? 0)%N then ERRNO (EPERM c)
  else ALLOW.

Lemma bpf_denied `{BpfMachine} c (nrs : list N) p word :
  bpf (concat ((λ nr, [jump nr 0 1; deny c]) <$> nrs) ++ p) word (word 0%N) =
  if bool_decide (word 0%N ∈ nrs) then Some (ERRNO (EPERM c)) else bpf p word (word 0%N).
Proof.
  induction nrs as [|nr nrs IH]; cbn [fmap list_fmap concat app]; [done|]. unfold jump at 1.
  rewrite bpf_jeq. destruct (N.eqb_spec (word 0%N) nr) as [->|E]; cbn [drop].
  - rewrite bool_decide_eq_true_2 by apply list_elem_of_here. unfold deny, stmt. by rewrite bpf_ret.
  - rewrite drop_0, IH, (bool_decide_ext (word 0%N ∈ nr :: nrs) (word 0%N ∈ nrs)) by set_solver. done.
Qed.

(** C31: On every machine of classic BPF the filter gives every system call the verdict
    of the policy: other architectures are killed, the x32 ABI and every call that
    creates processes or enters namespaces is refused, [clone3] is reported as
    missing, [clone] is allowed only for threads, and the rest is allowed. *)
Theorem filter_enforces_policy `{BpfMachine} c word a :
  bpf (filter_program c) word a = Some (policy c word).
Proof.
  unfold filter_program, policy. cbn [app]. unfold stmt at 1, jump at 1. rewrite bpf_load, bpf_jeq.
  destruct (_ =? 3221225534)%N; cbn [drop negb]; rewrite ?drop_0; unfold stmt at 1; [|by rewrite bpf_ret].
  rewrite bpf_load, bpf_jset. destruct (_ =? 0)%N; cbn [drop negb]; rewrite ?drop_0.
  2:{ unfold deny, stmt. by rewrite bpf_ret. }
  rewrite bpf_denied. case_bool_decide; [done|]. unfold jump, deny, stmt. rewrite bpf_jeq.
  destruct (_ =? SYS_clone3 c)%N; cbn [drop]; [by rewrite bpf_ret|]. rewrite bpf_jeq.
  destruct (_ =? SYS_clone c)%N; cbn [drop andb]; [|by rewrite bpf_ret].
  rewrite bpf_load, bpf_jset. destruct (_ =? 0)%N; cbn [drop]; by rewrite bpf_ret.
Qed.

(** A machine, for concrete runs: [skip] instructions are jumped over. *)
Fixpoint bpf_run (skip : nat) (p : list SockFilter) (word : N → N) (a : N) : option N :=
  match p with
  | [] => None
  | mkSF code jt jf k :: p =>
      match skip with
      | S skip => bpf_run skip p word a
      | O =>
          if (code =? 32)%N then bpf_run 0 p word (word k)
          else if (code =? 21)%N then bpf_run (if (a =? k)%N then jt else jf) p word a
          else if (code =? 69)%N then bpf_run (if (N.land a k =? 0)%N then jf else jt) p word a
          else if (code =? 6)%N then Some k
          else None
      end
  end.

Lemma bpf_run_skip n p word a : bpf_run n p word a = bpf_run 0 (drop n p) word a.
Proof.
  revert n. induction p as [|[code jt jf k] p IH]; intros [|n]; cbn [drop]; try done. apply IH.
Qed.

Definition demo_machine : BpfMachine.
Proof.
  refine {| bpf := bpf_run 0 |}; intros; cbn; try done; apply bpf_run_skip.
Defined.

(** The constants of Linux on x86_64. *)
Definition linux : Libc := mkLibc 1 38 57 58 272 308 101 165 321 250 435 56 65536.

Lemma filter_enforces_policy_witness :
  @bpf demo_machine (filter_program linux) (λ o, if (o =? 4)%N then 3221225534 else if (o =? 0)%N then 56 else 17)%N 0
  = Some (ERRNO 1).
Proof. rewrite (@filter_enforces_policy demo_machine linux). reflexivity. Defined.

(** ** The restart budget *)

(** The instants at which a restart was granted, over a sequence of failures. *)
Fixpoint granted (p : RestartPolicy) (nows : list Instant) (b : RestartBudget) : list Instant :=
  match nows with
  | [] => []
  | now :: nows =>
      match reserve now p b with
      | (Some _, b) => now :: granted p nows b
      | (None, b) => granted p nows b
      end
  end.

(** How many instants of [l] lie in the window of [w] that starts at [t]. *)
Definition in_window (w t : N) (l : list Instant) : nat :=
  length (List.filter (λ x, (t <=? x)%N && (x <? t + w)%N) l).

Lemma in_window_app w t l k : in_window w t (l ++ k) = in_window w t l + in_window w t k.
Proof. unfold in_window. by rewrite List.filter_app, length_app. Qed.

Lemma in_window_le w t l : in_window w t l ≤ length l.
Proof. unfold in_window. induction l as [|x l IH]; cbn; [lia|]. case_match; cbn; lia. Qed.

Lemma in_window_past w t now l :
  Forall (λ x, x + w ≤ now)%N l → (now < t + w)%N → in_window w t l = 0.
Proof.
  intros F L. unfold in_window. induction F as [|x l H _ IH]; [done|]. cbn.
  replace (t <=? x)%N with false by (symmetry; apply N.leb_gt; lia). done.
Qed.

Lemma purge_split now w l : (0 < w)%N →
  ∃ d, l = d ++ purge now w l ∧ Forall (λ x, x + w ≤ now)%N d.
Proof.
  intros W. induction l as [|t l (d & E & F)]; [by exists []|]. cbn.
  destruct (w <=? saturating_sub now t)%N eqn:B; [|by exists []]. nbool.
  rewrite saturating_sub_spec in B. exists (t :: d). split; [cbn; by f_equal|].
  constructor; [lia|done].
Qed.

(** The log [g] of grants: what the budget forgot left the window by [now], and no
    window holds more than [max] of them. *)
Record budget_inv (p : RestartPolicy) (now : Instant) (g : list Instant) (b : RestartBudget) : Prop := {
  bi_split : ∃ d, g = d ++ rb_attempts b ∧ Forall (λ x, x + rp_window_ms p ≤ now)%N d;
  bi_count t : in_window (rp_window_ms p) t g ≤ rp_max_restarts p;
}.

Lemma reserve_inv p now0 now g b : budget_inv p now0 g b → (now0 ≤ now)%N →
  match reserve now p b with
  | (Some _, b') => budget_inv p now (g ++ [now]) b'
  | (None, b') => budget_inv p now g b'
  end.
Proof.
  intros [(d & E & F) C] L. unfold reserve.
  assert (F' : Forall (λ x, x + rp_window_ms p ≤ now)%N d)
    by (eapply Forall_impl; [exact F|]; cbn; lia).
  destruct (_ || _ || _) eqn:B; [by split; [exists d|]|]. nbool.
  destruct (purge_split now (rp_window_ms p) (rb_attempts b)) as (d' & E' & Fd); [lia|].
  set (at' := purge _ _ _) in *.
  assert (S : g = (d ++ d') ++ at') by (rewrite <- app_assoc, <- E'; done).
  assert (Fa : Forall (λ x, x + rp_window_ms p ≤ now)%N (d ++ d')) by by apply Forall_app.
  destruct (Nat.leb_spec (rp_max_restarts p) (length at')) as [M|M]; [by split; [exists (d ++ d')|]|].
  split; cbn [rb_attempts].
  - exists (d ++ d'). split; [by rewrite S, <- !app_assoc|done].
  - intros t. rewrite in_window_app. unfold in_window at 2. cbn [List.filter].
    destruct ((t <=? now)%N && (now <? t + rp_window_ms p)%N) eqn:W; cbn [length];
      [|specialize (C t); lia]. nbool.
    rewrite S, in_window_app, (in_window_past _ t now (d ++ d')) by (done || lia).
    pose proof (in_window_le (rp_window_ms p) t at'). lia.
Qed.

Lemma granted_inv p nows : ∀ now0 g b, budget_inv p now0 g b → StronglySorted N.le (now0 :: nows) →
  ∀ t, in_window (rp_window_ms p) t (g ++ granted p nows b) ≤ rp_max_restarts p.
Proof.
  induction nows as [|now nows IH]; intros now0 g b I S t; cbn [granted].
  { rewrite app_nil_r. apply I. }
  apply StronglySorted_inv in S as [S F]. pose proof (Forall_inv F) as L.
  pose proof (reserve_inv p now0 now g b I L) as I'. destruct (reserve now p b) as [[n|] b'].
  - specialize (IH now _ _ I' S t). by rewrite <- app_assoc in IH.
  - exact (IH now _ _ I' S t).
Qed.

(** Whatever the sequence of failures, in every window of [window_ms] milliseconds
    at most [max_restarts] restarts are granted. *)
Theorem restarts_bounded p nows t :
  StronglySorted N.le nows →
  in_window (rp_window_ms p) t (granted p nows (mkRestartBudget [] None)) ≤ rp_max_restarts p.
Proof.
  intros S. apply (granted_inv p nows 0%N []).
  - split; [by exists []|cbn; lia].
  - constructor; [done|]. apply Forall_forall. intros. lia.
Qed.

Lemma restarts_bounded_witness :
  granted default_policy [0; 1; 2; 3; 4; 5; 10000]%N (mkRestartBudget [] None) = [0; 1; 2; 3; 4; 10000]%N ∧
  in_window 10000 1 (granted default_policy [0; 1; 2; 3; 4; 5; 10000]%N (mkRestartBudget [] None)) ≤ 5.
Proof.
  split; [reflexivity|]. apply (restarts_bounded default_policy [0; 1; 2; 3; 4; 5; 10000]%N 1).
  repeat constructor; lia.
Defined.

(** A granted restart waits for a positive time, the base delay at least, and never
    more than a minute. *)
Lemma reserve_delay p now b next b' : reserve now p b = (Some next, b') →
  (now + N.min (rp_backoff_ms p) 60000 ≤ next ≤ now + 60000)%N ∧ (now < next)%N.
Proof.
  unfold reserve. destruct (_ || _ || _) eqn:B; [done|]. nbool. case_match; [done|]. intros [= <- _].
  set (k := length _). assert (1 ≤ 2 ^ N.of_nat (Nat.min k 10))%N.
  { apply N.neq_0_le_1, N.pow_nonzero. lia. }
  unfold saturating_add, saturating_mul, u64_max. set (e := (2 ^ N.of_nat (Nat.min k 10))%N) in *.
  assert (rp_backoff_ms p ≤ rp_backoff_ms p * e)%N by nia.
  generalize dependent (rp_backoff_ms p * e)%N. intros x Hx.
  generalize ((N.of_nat k * 37) mod rp_backoff_ms p)%N. intros j. lia.
Qed.
