(* ===== verification/Store.v ===== *)
(** * The durable store ([matrix-runtime/src/store.rs])

    The tables of the database are maps; a method is one transaction. [serde_json]'s
    [to_string] and [from_str] are parameters. SQLite can refuse any transaction: every
    writing method takes [fault], the error of the database, which rolls it back; reads
    succeed. [store_step]
    gathers the methods, the reopening of the store after a stop or a crash included,
    and [store_run] runs any sequence of them. *)

From S2P Require Import Prelude RustStd Json.

Definition MAX_OPS : N := 100000.
Definition MAX_EVENTS : N := 10000.
Definition MAX_BODY : N := 1024 * 1024.

Inductive OpState : Type := OpAdmitted | OpCompleted | OpUnknown.

#[export] Instance OpState_eq_dec : EqDecision OpState.
Proof. solve_decision. Defined.

Definition op_state_text (s : OpState) : string :=
  match s with OpAdmitted => "admitted" | OpCompleted => "completed" | OpUnknown => "unknown" end.

(** A row of [operations]. *)
Record OpRow : Type := mkOpRow {
  or_request : string;
  or_state : OpState;
  or_result : option string;
}.

Record EventRow : Type := mkEventRow { ev_seq : N; ev_kind : string; ev_body : string }.

(** The file: [user_version], the row [epoch] of [meta], the tables, and the counter
    of [AUTOINCREMENT]. *)
Record Db : Type := mkDb {
  db_version : N;
  db_epoch : option N;
  db_desired : gmap string string;
  db_operations : gmap (string * string) OpRow;
  db_events : list EventRow;
  db_seq : N;
  db_fences : gmap string N;
  db_revoked : gset string;
  db_effects : gmap (string * string) string;
}.

Definition empty_db : Db := mkDb 0 None ∅ ∅ [] 0 ∅ ∅ ∅.

Definition set_operations (o : gmap (string * string) OpRow) (d : Db) : Db :=
  mkDb (db_version d) (db_epoch d) (db_desired d) o (db_events d) (db_seq d) (db_fences d)
    (db_revoked d) (db_effects d).
Definition set_fences (f : gmap string N) (d : Db) : Db :=
  mkDb (db_version d) (db_epoch d) (db_desired d) (db_operations d) (db_events d) (db_seq d) f
    (db_revoked d) (db_effects d).
Definition set_desired_table (t : gmap string string) (d : Db) : Db :=
  mkDb (db_version d) (db_epoch d) t (db_operations d) (db_events d) (db_seq d) (db_fences d)
    (db_revoked d) (db_effects d).
Definition set_revoked_table (t : gset string) (d : Db) : Db :=
  mkDb (db_version d) (db_epoch d) (db_desired d) (db_operations d) (db_events d) (db_seq d)
    (db_fences d) t (db_effects d).
Definition set_effects (t : gmap (string * string) string) (d : Db) : Db :=
  mkDb (db_version d) (db_epoch d) (db_desired d) (db_operations d) (db_events d) (db_seq d)
    (db_fences d) (db_revoked d) t.
Definition set_events (l : list EventRow) (seq : N) (d : Db) : Db :=
  mkDb (db_version d) (db_epoch d) (db_desired d) (db_operations d) l seq (db_fences d)
    (db_revoked d) (db_effects d).
Definition set_epoch (v : N) (e : option N) (d : Db) : Db :=
  mkDb v e (db_desired d) (db_operations d) (db_events d) (db_seq d) (db_fences d)
    (db_revoked d) (db_effects d).

Inductive Admission : Type := New | Completed (v : Value) | Unknown.

(** [UPDATE operations SET state='unknown' WHERE state='admitted']. *)
Definition forget_admitted (o : gmap (string * string) OpRow) : gmap (string * string) OpRow :=
  (λ r, if bool_decide (or_state r = OpAdmitted) then mkOpRow (or_request r) OpUnknown (or_result r)
        else r) <$> o.

(** [Store::open] once the file is there: [locked], whether another runtime holds the
    lock; [integrity], the answer of [integrity_check]. The schema statements commit
    on their own; the epoch and the recovery are one transaction. *)
Definition store_open (fault : option string) (locked : bool) (integrity : string) (d : Db)
    : result N string * Db :=
  if locked then (Err "store already owned by another runtime", d)
  else if (1 <? db_version d)%N then (Err "unsupported store schema; refusing downgrade", d)
  else
    let epoch := default 0%N (db_epoch d) in
    let d := set_epoch 1 (Some epoch) d in
    if bool_decide (integrity ≠ "ok") then (Err ("store corrupt: " +:+ integrity), d)
    else
      match fault with
      | Some e => (Err e, d)
      | None =>
          if (epoch <? i64_max)%N then
            (Ok (epoch + 1)%N,
             set_operations (forget_admitted (db_operations d)) (set_epoch 1 (Some (epoch + 1)%N) d))
          else (Err "epoch exhausted", d)
      end.

Definition set_revoked (fault : option string) (principal : string) (revoked : bool) (d : Db)
    : result unit string * Db :=
  match fault with
  | Some e => (Err e, d)
  | None =>
      (Ok tt, set_revoked_table
                (if revoked then {[principal]} ∪ db_revoked d else db_revoked d ∖ {[principal]}) d)
  end.

Definition revoked (d : Db) : gset string := db_revoked d.

(** [i64::try_from(epoch)] and the text of its error. *)
Definition try_i64 (n : N) : result N string :=
  if (n <=? i64_max)%N then Ok n else Err "out of range integral type conversion attempted".

Section store.
Context (to_string : Value → string) (from_str : string → result Value string).

Definition set_desired (fault : option string) (id : string) (body : Value) (d : Db)
    : result unit string * Db :=
  let b := to_string body in
  if (MAX_BODY <? str_len b)%N then (Err "resource-exhausted", d)
  else
    match fault with
    | Some e => (Err e, d)
    | None => (Ok tt, set_desired_table (<[id := b]> (db_desired d)) d)
    end.

Definition remove_desired (fault : option string) (id : string) (d : Db) : result unit string * Db :=
  match fault with
  | Some e => (Err e, d)
  | None => (Ok tt, set_desired_table (delete id (db_desired d)) d)
  end.

(** [ORDER BY id]. *)
Definition desired (d : Db) : result (list (string * Value)) string :=
  collect_result (λ id,
    match db_desired d !! id with
    | Some b => let? v := from_str b in Ok (id, v)
    | None => Err "no such row"
    end) (sort_strings (keys (db_desired d))).

(** What a known operation answers. *)
Definition replay_result (r : OpRow) : result Value string :=
  let? text := ok_or (or_result r) "missing result" in from_str text.

Definition store_admit (fault : option string) (principal id : string) (request : Value) (d : Db)
    : result Admission string * Db :=
  if str_is_empty id || (128 <? str_len id)%N || (256 <? str_len principal)%N then
    (Err "invalid operation identity", d)
  else
    let request := to_string request in
    if (MAX_BODY <? str_len request)%N then (Err "resource-exhausted", d)
    else
      match fault with
      | Some e => (Err e, d)
      | None =>
          match db_operations d !! (principal, id) with
          | Some r =>
              if bool_decide (or_request r ≠ request) then (Err "operation-id-conflict", d)
              else if bool_decide (or_state r = OpCompleted) then
                (let? v := replay_result r in Ok (Completed v), d)
              else (Ok Unknown, d)
          | None =>
              if (MAX_OPS <=? N.of_nat (size (db_operations d)))%N then
                (Err "resource-exhausted: durable dedup ledger full; archive/rotate explicitly", d)
              else
                (Ok New, set_operations
                           (<[(principal, id) := mkOpRow request OpAdmitted None]> (db_operations d)) d)
          end
      end.

Definition finish (fault : option string) (principal id : string) (res : Value) (unknown : bool) (d : Db)
    : result unit string * Db :=
  let body := to_string res in
  if (MAX_BODY <? str_len body)%N then (Err "result too large; operation remains unknown", d)
  else
    match fault with
    | Some e => (Err e, d)
    | None =>
        match db_operations d !! (principal, id) with
        | Some r =>
            if bool_decide (or_state r = OpAdmitted) then
              (Ok tt, set_operations (<[(principal, id) :=
                 mkOpRow (or_request r) (if unknown then OpUnknown else OpCompleted) (Some body)]>
                 (db_operations d)) d)
            else (Err "operation not admitted", d)
        | None => (Err "operation not admitted", d)
        end
    end.

Definition operation (principal id : string) (d : Db) : result Value string :=
  match db_operations d !! (principal, id) with
  | None => Err "no-such-operation"
  | Some r =>
      let? res := match or_result r with
                  | None => Ok None
                  | Some s => let? v := from_str s in Ok (Some v)
                  end in
      Ok (obj [("state", JString (op_state_text (or_state r))); ("result", j_opt res)])
  end.

Definition event (fault : option string) (kind : string) (body : Value) (d : Db)
    : result N string * Db :=
  let body := to_string body in
  if (MAX_BODY <? str_len body)%N then (Err "event too large", d)
  else
    match fault with
    | Some e => (Err e, d)
    | None =>
        let seq := (db_seq d + 1)%N in
        (Ok seq, set_events
           (List.filter (λ r, (seq <? ev_seq r + MAX_EVENTS)%N)
              (db_events d ++ [mkEventRow seq kind body])) seq d)
    end.

Definition commit_effect (fault : option string) (principal id resource : string) (epoch : N)
    (key : string) (value : Value) (d : Db) : result Value string * Db :=
  let request := to_string (obj [("resource", JString resource); ("key", JString key); ("value", value)]) in
  if str_is_empty id || (128 <? str_len id)%N || (256 <? str_len key)%N || (MAX_BODY <? str_len request)%N
  then (Err "resource-exhausted", d)
  else
    match fault with
    | Some e => (Err e, d)
    | None =>
        match try_i64 epoch with
        | Err e => (Err e, d)
        | Ok epoch =>
            if bool_decide (db_fences d !! resource ≠ Some epoch) then (Err "stale-generation", d)
            else
              match db_operations d !! (principal, id) with
              | Some r =>
                  if bool_decide (or_request r ≠ request) then (Err "operation-id-conflict", d)
                  else if bool_decide (or_state r ≠ OpCompleted) then (Err "outcome-unknown", d)
                  else (replay_result r, d)
              | None =>
                  if (MAX_OPS <=? N.of_nat (size (db_operations d)))%N then (Err "resource-exhausted", d)
                  else
                    let res := obj [("committed", JBool true); ("fence", JString (display epoch))] in
                    (Ok res,
                     set_operations
                       (<[(principal, id) := mkOpRow request OpCompleted (Some (to_string res))]>
                          (db_operations d))
                       (set_effects (<[(resource, key) := to_string value]> (db_effects d)) d))
              end
        end
    end.

Definition effect (resource key : string) (d : Db) : result (option Value) string :=
  match db_effects d !! (resource, key) with
  | None => Ok None
  | Some s => let? v := from_str s in Ok (Some v)
  end.

Definition next_fence (fault : option string) (resource : string) (d : Db) : result N string * Db :=
  match fault with
  | Some e => (Err e, d)
  | None =>
      match db_fences d !! resource with
      | None => (Ok 1%N, set_fences (<[resource := 1%N]> (db_fences d)) d)
      | Some n =>
          if (n <? i64_max)%N then
            (Ok (n + 1)%N, set_fences (<[resource := (n + 1)%N]> (db_fences d)) d)
          else (Err "fence exhausted", d)
      end
  end.

Definition fence (fault : option string) (resource : string) (epoch : N) (d : Db)
    : result unit string * Db :=
  match try_i64 epoch with
  | Err e => (Err e, d)
  | Ok epoch =>
      match fault with
      | Some e => (Err e, d)
      | None =>
          match db_fences d !! resource with
          | Some n =>
              if (n <=? epoch)%N then (Ok tt, set_fences (<[resource := epoch]> (db_fences d)) d)
              else (Err "stale-generation", d)
          | None => (Ok tt, set_fences (<[resource := epoch]> (db_fences d)) d)
          end
      end
  end.
End store.

(** ** Offline images

    [OfflineBackup::open]: [is_file], whether the image is there; [locked], whether a
    runtime owns it. The image is read and never written. *)
Definition SUPPORTED_SCHEMA : N := 1.

Definition offline_open (is_file locked : bool) (integrity : string) (d : Db) : result N string :=
  let? _ := ensure is_file "no store image at path" in
  let? _ := ensure (negb locked)
              "store owned by a live runtime; stop the service or snapshot it online" in
  let? _ := ensure (db_version d =? SUPPORTED_SCHEMA)%N
              ("unsupported store schema " +:+ display (db_version d) +:+ "; refusing version change") in
  let? _ := ensure (bool_decide (integrity = "ok")) ("store corrupt: " +:+ integrity) in
  ok_or (db_epoch d) "store image without epoch".

Definition operation_states (d : Db) (s : OpState) : N :=
  N.of_nat (length (List.filter (λ r, bool_decide (or_state r = s)) (map_to_list (db_operations d)).*2)).
