(* ===== verification/StoreProps.v ===== *)
(** * Guarantees of the durable store

    Over every sequence of method calls, with restarts and database errors anywhere:
    an operation is admitted at most once, the ledger only moves forward, fences and
    epochs only grow, and a writer with an old fence commits nothing. *)

From S2P Require Import Prelude RustStd Json Store.

Inductive StoreOp : Type :=
| SOpen (locked : bool) (integrity : string)
| SSetRevoked (principal : string) (revoked : bool)
| SSetDesired (id : string) (body : Value)
| SRemoveDesired (id : string)
| SAdmit (principal id : string) (request : Value)
| SFinish (principal id : string) (res : Value) (unknown : bool)
| SEvent (kind : string) (body : Value)
| SCommitEffect (principal id resource : string) (epoch : N) (key : string) (value : Value)
| SNextFence (resource : string)
| SFence (resource : string) (epoch : N).

Inductive StoreAnswer : Type :=
| AUnit (r : result unit string)
| ANum (r : result N string)
| AAdmit (r : result Admission string)
| AValue (r : result Value string).

Section props.
Context (to_string : Value → string) (from_str : string → result Value string).

Definition store_step (call : StoreOp * option string) (d : Db) : StoreAnswer * Db :=
  let fault := call.2 in
  match call.1 with
  | SOpen locked integrity => let '(r, d) := store_open fault locked integrity d in (ANum r, d)
  | SSetRevoked p b => let '(r, d) := set_revoked fault p b d in (AUnit r, d)
  | SSetDesired id b => let '(r, d) := set_desired to_string fault id b d in (AUnit r, d)
  | SRemoveDesired id => let '(r, d) := remove_desired fault id d in (AUnit r, d)
  | SAdmit p id q => let '(r, d) := store_admit to_string from_str fault p id q d in (AAdmit r, d)
  | SFinish p id v u => let '(r, d) := finish to_string fault p id v u d in (AUnit r, d)
  | SEvent k b => let '(r, d) := event to_string fault k b d in (ANum r, d)
  | SCommitEffect p id res e k v =>
      let '(r, d) := commit_effect to_string from_str fault p id res e k v d in (AValue r, d)
  | SNextFence res => let '(r, d) := next_fence fault res d in (ANum r, d)
  | SFence res e => let '(r, d) := fence fault res e d in (AUnit r, d)
  end.

(** The answers of a sequence of calls. *)
Fixpoint store_run (calls : list (StoreOp * option string)) (d : Db)
    : list ((StoreOp * option string) * StoreAnswer) * Db :=
  match calls with
  | [] => ([], d)
  | c :: calls =>
      let '(a, d) := store_step c d in
      let '(t, d) := store_run calls d in ((c, a) :: t, d)
  end.

(** ** The ledger moves forward *)

Definition state_le (s s' : OpState) : Prop := s = s' ∨ s = OpAdmitted.

(** A later row keeps the request; once it has left [OpAdmitted] nothing changes. *)
Definition row_le (r r' : OpRow) : Prop :=
  or_request r = or_request r' ∧ (r = r' ∨ or_state r = OpAdmitted).

Record db_le (d d' : Db) : Prop := {
  le_rows k r : db_operations d !! k = Some r → ∃ r', db_operations d' !! k = Some r' ∧ row_le r r';
  le_fences k n : db_fences d !! k = Some n → ∃ n', db_fences d' !! k = Some n' ∧ (n ≤ n')%N;
  le_epoch e : db_epoch d = Some e → ∃ e', db_epoch d' = Some e' ∧ (e ≤ e')%N;
  le_seq : (db_seq d ≤ db_seq d')%N;
}.

#[export] Instance row_le_refl : Reflexive row_le.
Proof. intros r. split; auto. Qed.

#[export] Instance row_le_trans : Transitive row_le.
Proof. intros r1 r2 r3 [E1 H1] [E2 H2]. split; [congruence|]. destruct H1; subst; auto. Qed.

(** Updates of the other tables. *)
Lemma db_le_same d d' :
  db_operations d' = db_operations d → db_fences d' = db_fences d → db_epoch d' = db_epoch d →
  (db_seq d ≤ db_seq d')%N → db_le d d'.
Proof.
  intros E1 E2 E3 L. split; rewrite ?E1, ?E2, ?E3; try done.
  - intros k r E. by exists r.
  - intros k n E. by exists n.
  - intros e E. by exists e.
Qed.

#[export] Instance db_le_refl : Reflexive db_le.
Proof. intros d. by apply db_le_same. Qed.

#[export] Instance db_le_trans : Transitive db_le.
Proof.
  intros d1 d2 d3 [R1 F1 E1 S1] [R2 F2 E2 S2]. split; [| | |lia].
  - intros k r (r' & H & L)%R1. apply R2 in H as (r'' & H & L'). exists r''. split; [done|by etrans].
  - intros k n (n' & H & L)%F1. apply F2 in H as (n'' & H & L'). exists n''. split; [done|lia].
  - intros e (e' & H & L)%E1. apply E2 in H as (e'' & H & L'). exists e''. split; [done|lia].
Qed.

(** An update of one row, of one fence. *)
Lemma db_le_row k r d eff :
  (∀ r0, db_operations d !! k = Some r0 → row_le r0 r) →
  db_le d (set_operations (<[k := r]> (db_operations d)) (set_effects eff d)).
Proof.
  intros H. split; cbn; [|naive_solver lia..]. intros k' r' E. destruct (decide (k' = k)) as [->|N].
  - exists r. rewrite lookup_insert_eq. auto.
  - exists r'. by rewrite lookup_insert_ne.
Qed.

Lemma db_le_row' k r d :
  (∀ r0, db_operations d !! k = Some r0 → row_le r0 r) →
  db_le d (set_operations (<[k := r]> (db_operations d)) d).
Proof. intros H. apply (db_le_row k r d (db_effects d)) in H. by destruct d. Qed.

Lemma db_le_fence k n d :
  (∀ n0, db_fences d !! k = Some n0 → (n0 ≤ n)%N) →
  db_le d (set_fences (<[k := n]> (db_fences d)) d).
Proof.
  intros H. split; cbn; [naive_solver| |naive_solver lia..]. intros k' n' E. destruct (decide (k' = k)) as [->|N].
  - exists n. rewrite lookup_insert_eq. auto.
  - exists n'. rewrite lookup_insert_ne by done. split; [done|lia].
Qed.

Lemma db_le_open d e : default 0%N (db_epoch d) = e →
  db_le d (set_epoch 1 (Some e) d) ∧
  db_le d (set_operations (forget_admitted (db_operations d)) (set_epoch 1 (Some (e + 1)%N) d)).
Proof.
  intros <-. split; (split; cbn; [|naive_solver lia| |lia]).
  - naive_solver.
  - intros e ->. cbn. naive_solver lia.
  - intros k r E. unfold forget_admitted. rewrite lookup_fmap, E. cbn. eexists. split; [done|].
    case_bool_decide; [|done]. split; auto.
  - intros e ->. cbn. eexists. split; [done|lia].
Qed.

Lemma store_step_le c d : db_le d (store_step c d).2.
Proof.
  destruct c as [op fault]. destruct op; unfold store_step; cbn [fst snd].
  - unfold store_open. destruct (db_le_open d _ eq_refl) as [L1 L2].
    repeat case_match; simplify_eq/=; done || apply L1 || apply L2.
  - unfold set_revoked. repeat case_match; simplify_eq/=; try done; by apply db_le_same.
  - unfold set_desired. repeat case_match; simplify_eq/=; try done; by apply db_le_same.
  - unfold remove_desired. repeat case_match; simplify_eq/=; try done; by apply db_le_same.
  - unfold store_admit. repeat case_match; simplify_eq/=; try done. apply db_le_row'. congruence.
  - unfold finish. repeat case_match; simplify_eq/=; try done.
    all: apply db_le_row'; intros r0 E; nbool; simplify_eq; split; auto.
  - unfold event. repeat case_match; simplify_eq/=; try done. apply db_le_same; cbn; done || lia.
  - unfold commit_effect. repeat case_match; simplify_eq/=; try done. apply db_le_row. congruence.
  - unfold next_fence. repeat case_match; simplify_eq/=; try done; apply db_le_fence; intros; simplify_eq; lia.
  - unfold fence. repeat case_match; simplify_eq/=; try done; apply db_le_fence; intros; nbool; simplify_eq; lia.
Qed.

Lemma store_run_le calls d : db_le d (store_run calls d).2.
Proof.
  revert d. induction calls as [|c calls IH]; intros d; cbn [store_run]; [done|].
  pose proof (store_step_le c d) as L. destruct (store_step c d) as [a d1].
  specialize (IH d1). destruct (store_run calls d1) as [t d2]. cbn in *. by etrans.
Qed.

(** ** Admission at most once *)

(** The operation a call would start. *)
Definition claims (c : StoreOp * option string) : option (string * string) :=
  match c.1 with
  | SAdmit p id _ | SCommitEffect p id _ _ _ _ => Some (p, id)
  | _ => None
  end.

Definition has_row (k : string * string) (d : Db) : bool := is_some (db_operations d !! k).

(** The call starts the operation [k]: its row appears. *)
Definition starts (k : string * string) (c : StoreOp * option string) (d : Db) : bool :=
  bool_decide (claims c = Some k) && negb (has_row k d) && has_row k (store_step c d).2.

(** How often a sequence of calls starts the operation. *)
Fixpoint count_starts (k : string * string) (calls : list (StoreOp * option string)) (d : Db) : nat :=
  match calls with
  | [] => 0
  | c :: calls => (if starts k c d then 1 else 0) + count_starts k calls (store_step c d).2
  end.

Lemma has_row_le k d d' : db_le d d' → has_row k d = true → has_row k d' = true.
Proof.
  unfold has_row. intros L. destruct (db_operations d !! k) as [r|] eqn:E; [|done].
  apply L in E as (r' & -> & _). done.
Qed.

Lemma count_starts_known k calls d : has_row k d = true → count_starts k calls d = 0.
Proof.
  revert d. induction calls as [|c calls IH]; intros d H; cbn; [done|]. unfold starts. rewrite H, andb_false_r.
  cbn. apply IH. eapply has_row_le; [apply store_step_le|done].
Qed.

(** C3: Over every sequence of calls on every database, with restarts and database
    errors anywhere in it, an operation is started at most once; and a call that
    answers [New], or that changes the committed effects, has started its operation:
    so neither an admitted call nor a fenced effect is ever executed twice. *)
Theorem operation_starts_once k calls c d :
  count_starts k calls d ≤ 1 ∧
  ((store_step c d).1 = AAdmit (Ok New) ∨ db_effects (store_step c d).2 ≠ db_effects d →
   ∃ k, claims c = Some k ∧ starts k c d = true).
Proof.
  split.
  - revert d. induction calls as [|c' calls IH]; intros d; cbn; [lia|].
    destruct (starts k c' d) eqn:S; [|apply IH]. unfold starts in S. nbool.
    rewrite count_starts_known by done. lia.
  - destruct c as [op fault]. unfold starts, has_row.
    destruct op; unfold store_step; cbn [fst snd claims]; intros H.
    all: try (exfalso; unfold store_open, set_revoked, set_desired, remove_desired, finish, event,
      next_fence, fence in H; repeat case_match; simplify_eq/=; naive_solver).
    + exists (principal, id). split; [done|]. rewrite bool_decide_eq_true_2 by done. unfold store_admit in *.
      repeat case_match; simplify_eq/=; try (exfalso; naive_solver). by rewrite lookup_insert_eq.
    + exists (principal, id). split; [done|]. rewrite bool_decide_eq_true_2 by done. unfold commit_effect in *.
      repeat case_match; simplify_eq/=; try (exfalso; naive_solver). by rewrite lookup_insert_eq.
Qed.

(** ** Results are final *)

Lemma final_row calls d k r :
  db_operations d !! k = Some r → or_state r ≠ OpAdmitted →
  db_operations (store_run calls d).2 !! k = Some r.
Proof.
  intros E N. pose proof (store_run_le calls d) as L. apply L in E as (r' & E & [_ [->|A]]); done.
Qed.

Lemma same_request calls d k r :
  db_operations d !! k = Some r →
  ∃ r', db_operations (store_run calls d).2 !! k = Some r' ∧ or_request r' = or_request r.
Proof.
  intros E. pose proof (store_run_le calls d) as L. apply L in E as (r' & E & [Q _]). eauto.
Qed.

Definition valid_admission (p id : string) (q : Value) : bool :=
  negb (str_is_empty id || (128 <? str_len id)%N || (256 <? str_len p)%N) &&
  negb (MAX_BODY <? str_len (to_string q))%N.

Lemma admit_new f p id q d d' : store_admit to_string from_str f p id q d = (Ok New, d') →
  f = None ∧ valid_admission p id q = true ∧
  db_operations d' !! (p, id) = Some (mkOpRow (to_string q) OpAdmitted None).
Proof.
  unfold store_admit, valid_admission. intros A. repeat case_match; simplify_eq/=; try done.
  by rewrite lookup_insert_eq.
Qed.

Lemma admit_known p id q d r : valid_admission p id q = true →
  db_operations d !! (p, id) = Some r → or_request r = to_string q →
  store_admit to_string from_str None p id q d =
  (if bool_decide (or_state r = OpCompleted)
   then let? v := replay_result from_str r in Ok (Completed v) else Ok Unknown, d).
Proof.
  unfold store_admit, valid_admission. intros V E Q. apply andb_true_iff in V as [V1%negb_true_iff V2%negb_true_iff].
  rewrite V1, V2, E, bool_decide_eq_false_2 by naive_solver. by case_bool_decide.
Qed.

(** A completed operation is replayed forever: once [admit] has answered [New] and
    [finish] has recorded a result, every later admission of the same request, after
    any calls, restarts and database errors, answers with that result and changes
    nothing. The JSON of the result must read back. *)
Theorem completed_replayed f p id q calls v g calls' d0 d1 d2 d3 d4 :
  store_admit to_string from_str f p id q d0 = (Ok New, d1) → d2 = (store_run calls d1).2 →
  finish to_string g p id v false d2 = (Ok tt, d3) → d4 = (store_run calls' d3).2 →
  from_str (to_string v) = Ok v →
  store_admit to_string from_str None p id q d4 = (Ok (Completed v), d4).
Proof.
  intros A E2 F E4 R. apply admit_new in A as (_ & V & A).
  destruct (same_request calls _ _ _ A) as (r & E & Q). rewrite <- E2 in E.
  assert (R4 : db_operations d4 !! (p, id) = Some (mkOpRow (to_string q) OpCompleted (Some (to_string v)))).
  { subst d4. apply final_row; [|done]. unfold finish in F. repeat case_match; simplify_eq/=.
    rewrite lookup_insert_eq. by rewrite Q. }
  rewrite (admit_known p id q d4 _ V R4) by done. cbn. unfold replay_result. cbn. by rewrite R.
Qed.

(** An operation whose outcome was lost is never run again: if the store is
    reopened between the admission and the result, every later admission of the
    request answers [Unknown], and a late [finish] is refused. *)
Theorem lost_outcome_unknown f p id q g w calls d0 d1 d2 d3 e :
  store_admit to_string from_str f p id q d0 = (Ok New, d1) →
  store_open g false w d1 = (Ok e, d2) → d3 = (store_run calls d2).2 →
  store_admit to_string from_str None p id q d3 = (Ok Unknown, d3) ∧
  ∀ h v u, ∃ e, finish to_string h p id v u d3 = (Err e, d3).
Proof.
  intros A O E3. apply admit_new in A as (_ & V & A).
  assert (R : db_operations d3 !! (p, id) = Some (mkOpRow (to_string q) OpUnknown None)).
  { subst d3. apply final_row; [|done]. unfold store_open in O. repeat case_match; simplify_eq/=.
    unfold forget_admitted. by rewrite lookup_fmap, A. }
  split; [by rewrite (admit_known p id q d3 _ V R) by done|]. intros h v u. unfold finish. rewrite R.
  cbn [or_state]. rewrite bool_decide_eq_false_2 by done. repeat case_match; eauto.
Qed.

(** ** Fences and epochs *)

(** A fence shuts out every older writer for good: once [next_fence] has issued
    [e], a commit under an older fence is refused after any calls, restarts and
    database errors, and changes nothing; and the next fence issued is greater. *)
Theorem stale_writer_refused f res e calls d0 d1 d2 :
  next_fence f res d0 = (Ok e, d1) → d2 = (store_run calls d1).2 →
  (∀ g p id e' key v, (e' < e)%N →
     ∃ err, commit_effect to_string from_str g p id res e' key v d2 = (Err err, d2)) ∧
  ∀ g e' d3, next_fence g res d2 = (Ok e', d3) → (e < e')%N.
Proof.
  intros F E2.
  assert (R : db_fences d1 !! res = Some e).
  { unfold next_fence in F. repeat case_match; simplify_eq/=; by rewrite lookup_insert_eq. }
  pose proof (store_run_le calls d1) as L. rewrite <- E2 in L. apply L in R as (n & R & Le).
  split.
  - intros g p id e' key v Lt. unfold commit_effect. destruct (_ || _ || _ || _); [eauto|].
    destruct g; [eauto|]. unfold try_i64. destruct (e' <=? i64_max)%N; [|eauto].
    rewrite R, bool_decide_eq_true_2 by (intros [= ->]; lia). eauto.
  - intros g e' d3 N. unfold next_fence in N. rewrite R in N. repeat case_match; simplify_eq/=. lia.
Qed.

Lemma forget_admitted_done o k r :
  forget_admitted o !! k = Some r → or_state r ≠ OpAdmitted.
Proof.
  unfold forget_admitted. rewrite lookup_fmap.
  destruct (o !! k) as [r'|]; cbn [fmap option_fmap option_map]; [|done]. intros [= <-].
  case_bool_decide as B; [done|exact B].
Qed.

(** Every successful opening of the store gets an epoch greater than all before it
    and finds no operation in progress. *)
Theorem epochs_increase f w calls g w' d0 d1 d2 d3 e e' :
  store_open f false w d0 = (Ok e, d1) → d2 = (store_run calls d1).2 →
  store_open g false w' d2 = (Ok e', d3) →
  (e < e')%N ∧ ∀ k r, db_operations d3 !! k = Some r → or_state r ≠ OpAdmitted.
Proof.
  intros O1 E2 O2.
  assert (R : db_epoch d1 = Some e) by (unfold store_open in O1; repeat case_match; by simplify_eq/=).
  pose proof (store_run_le calls d1) as L. rewrite <- E2 in L. apply L in R as (n & R & Le).
  unfold store_open in O2. rewrite R in O2. cbn in O2. repeat case_match; simplify_eq/=.
  split; [lia|]. apply forget_admitted_done.
Qed.

(** ** The invariant of the tables *)

Record store_ok (d : Db) : Prop := {
  so_completed k r : db_operations d !! k = Some r → or_state r = OpCompleted → is_Some (or_result r);
  so_ledger : (N.of_nat (size (db_operations d)) ≤ MAX_OPS)%N;
  so_events : StronglySorted (λ a b, (ev_seq a < ev_seq b)%N) (db_events d) ∧
    Forall (λ r, (ev_seq r ≤ db_seq d < ev_seq r + MAX_EVENTS)%N) (db_events d);
  so_fences k n : db_fences d !! k = Some n → (n ≤ i64_max)%N;
  so_epoch e : db_epoch d = Some e → (e ≤ i64_max)%N;
}.

Lemma store_ok_insert k r d eff :
  store_ok d → (or_state r = OpCompleted → is_Some (or_result r)) →
  (db_operations d !! k = None → (N.of_nat (size (db_operations d)) < MAX_OPS)%N) →
  store_ok (set_operations (<[k := r]> (db_operations d)) (set_effects eff d)).
Proof.
  intros [C L E F P] R S. split; cbn; try done.
  - intros k' r'. rewrite lookup_insert. case_decide; [by intros [= <-]|apply C].
  - rewrite map_size_insert. destruct (db_operations d !! k); [done|]. specialize (S eq_refl). lia.
Qed.

Lemma store_ok_insert' k r d :
  store_ok d → (or_state r = OpCompleted → is_Some (or_result r)) →
  (db_operations d !! k = None → (N.of_nat (size (db_operations d)) < MAX_OPS)%N) →
  store_ok (set_operations (<[k := r]> (db_operations d)) d).
Proof. intros O R S. pose proof (store_ok_insert k r d (db_effects d) O R S) as H. by destruct d. Qed.

Lemma store_ok_fence k n d : store_ok d → (n ≤ i64_max)%N →
  store_ok (set_fences (<[k := n]> (db_fences d)) d).
Proof.
  intros [C L E F P] B. split; cbn; try done.
  intros k' n'. rewrite lookup_insert. case_decide; [by intros [= <-]|apply F].
Qed.

Lemma store_ok_open d e : store_ok d → (e ≤ i64_max)%N →
  store_ok (set_epoch 1 (Some e) d) ∧
  store_ok (set_operations (forget_admitted (db_operations d)) (set_epoch 1 (Some e) d)).
Proof.
  intros [C L E F P] B. split; (split; cbn; try done).
  - by intros e' [= <-].
  - intros k r. unfold forget_admitted. rewrite lookup_fmap.
    destruct (db_operations d !! k) as [r'|] eqn:Ek; cbn [fmap option_fmap option_map]; [|done].
    intros [= <-]. case_bool_decide; [done|]. by eapply C.
  - unfold forget_admitted. by rewrite map_size_fmap.
  - by intros e' [= <-].
Qed.

Lemma store_ok_event kind b d : store_ok d →
  store_ok (set_events (List.filter (λ r, (db_seq d + 1 <? ev_seq r + MAX_EVENTS)%N)
    (db_events d ++ [mkEventRow (db_seq d + 1) kind b])) (db_seq d + 1)%N d).
Proof.
  intros [C L [Es Ef] F P]. split; cbn [db_operations db_events db_seq db_fences db_epoch set_events]; try done.
  assert (Sn : StronglySorted (λ a b, (ev_seq a < ev_seq b)%N) (db_events d ++ [mkEventRow (db_seq d + 1) kind b])).
  { clear -Es Ef. induction Es as [|x l S IH H]; cbn [app]; [by repeat constructor|].
    apply Forall_cons in Ef as [Hx Ef]. constructor; [by apply IH|]. apply Forall_app. split; [done|].
    constructor; [cbn; lia|constructor]. }
  assert (Fn : Forall (λ r, (ev_seq r ≤ db_seq d + 1)%N) (db_events d ++ [mkEventRow (db_seq d + 1) kind b])).
  { apply Forall_app. split; [|constructor; [cbn; lia|constructor]].
    eapply Forall_impl; [exact Ef|]. cbn. lia. }
  revert Sn Fn. generalize (db_events d ++ [mkEventRow (db_seq d + 1) kind b]). clear.
  induction l as [|x l IH]; intros S H; [done|]. apply StronglySorted_inv in S as [S Hx].
  apply Forall_cons in H as [H1 H2]. specialize (IH S H2) as [I1 I2]. cbn [List.filter].
  destruct (_ <? _)%N eqn:B; [|done]. nbool. split; constructor; try done.
  apply Forall_forall. intros y [Hy _]%elem_of_filter_list. rewrite Forall_forall in Hx. auto.
Qed.

(** Strictly increasing numbers within a window of [MAX_EVENTS]. *)
Lemma window_length l seq :
  StronglySorted (λ a b, (ev_seq a < ev_seq b)%N) l →
  Forall (λ r, (ev_seq r ≤ seq < ev_seq r + MAX_EVENTS)%N) l →
  (N.of_nat (length l) ≤ MAX_EVENTS)%N.
Proof.
  intros S F. destruct S as [|x l S H]; [cbn; unfold MAX_EVENTS; lia|].
  assert (G : ∀ y, (ev_seq y ≤ seq)%N → StronglySorted (λ a b, (ev_seq a < ev_seq b)%N) l →
    Forall (λ r, (ev_seq r ≤ seq)%N) l → Forall (λ b, (ev_seq y < ev_seq b)%N) l →
    (ev_seq y + N.of_nat (length l) ≤ seq)%N).
  { clear. induction l as [|x l IH]; intros y B S F H; [cbn; lia|].
    apply StronglySorted_inv in S as [S Hx]. apply Forall_cons in F as [F1 F2].
    apply Forall_cons in H as [H1 H2]. specialize (IH x F1 S F2 Hx). cbn [length]. lia. }
  apply Forall_cons in F as [F1 F2]. specialize (G x (proj1 F1) S).
  assert (F3 : Forall (λ r, (ev_seq r ≤ seq)%N) l) by (eapply Forall_impl; [exact F2|]; cbn; lia).
  specialize (G F3 H). cbn [length]. lia.
Qed.

Lemma store_step_ok c d : store_ok d → store_ok (store_step c d).2.
Proof.
  intros O. destruct c as [op fault]. destruct op; unfold store_step; cbn [fst snd].
  - unfold store_open. destruct locked; [done|]. destruct (1 <? _)%N; [done|].
    assert (B : (default 0%N (db_epoch d) ≤ i64_max)%N).
    { destruct (db_epoch d) eqn:E; cbn; [by apply O|unfold i64_max; lia]. }
    repeat case_match; simplify_eq/=; try (by apply store_ok_open). nbool.
    destruct (store_ok_open d (default 0 (db_epoch d) + 1)%N) as [_ H3]; [done|lia|]. exact H3.
  - unfold set_revoked. repeat case_match; simplify_eq/=; try done; destruct O; by constructor.
  - unfold set_desired. repeat case_match; simplify_eq/=; try done; destruct O; by constructor.
  - unfold remove_desired. repeat case_match; simplify_eq/=; try done; destruct O; by constructor.
  - unfold store_admit. repeat case_match; simplify_eq/=; try done. apply store_ok_insert'; try done.
    intros _. nbool. lia.
  - unfold finish. repeat case_match; simplify_eq/=; try done.
    all: apply store_ok_insert'; cbn; try done; congruence.
  - unfold event. repeat case_match; simplify_eq/=; try done. by apply store_ok_event.
  - unfold commit_effect. repeat case_match; simplify_eq/=; try done. apply store_ok_insert; cbn; try done.
    intros _. nbool. lia.
  - unfold next_fence. repeat case_match; simplify_eq/=; try done; apply store_ok_fence; try done; nbool; lia.
  - unfold fence, try_i64. repeat case_match; simplify_eq/=; try done; apply store_ok_fence; try done; nbool; lia.
Qed.

(** From an empty file every sequence of calls keeps the tables sound: the ledger
    stays within its bound and holds a result for every completed operation, the
    events are strictly increasing and at most the last [MAX_EVENTS] of them are
    kept, and fences and epochs fit their 64-bit columns. *)
Theorem store_invariant calls :
  store_ok (store_run calls empty_db).2 ∧
  (N.of_nat (length (db_events (store_run calls empty_db).2)) ≤ MAX_EVENTS)%N.
Proof.
  assert (O : store_ok (store_run calls empty_db).2).
  { assert (O : store_ok empty_db).
    { split; cbn; try done; try (unfold MAX_OPS; rewrite map_size_empty; lia). split; constructor. }
    revert O. generalize empty_db. induction calls as [|c calls IH]; intros d O; cbn [store_run]; [done|].
    pose proof (store_step_ok c d O) as O1. destruct (store_step c d) as [a d1].
    specialize (IH d1 O1). by destruct (store_run calls d1). }
  split; [done|]. destruct O as [_ _ [S F] _ _]. revert S F.
  generalize (db_events (store_run calls empty_db).2) (db_seq (store_run calls empty_db).2).
  intros l seq S F. by apply (window_length l seq).
Qed.
End props.

(** ** Concrete runs

    A toy JSON of strings only. *)

Definition toy_to_string (v : Value) : string := match v with JString s => s | _ => "null" end.
Definition toy_from_str (s : string) : result Value string := Ok (JString s).

Definition demo_opened : Db := (store_open None false "ok" empty_db).2.
Definition demo_admitted : Db := (store_admit toy_to_string toy_from_str None "ann" "op-1" (JString "q") demo_opened).2.
Definition demo_finished : Db := (finish toy_to_string None "ann" "op-1" (JString "done") false demo_admitted).2.
(** A restart, a failing call and an event. *)
Definition demo_calls : list (StoreOp * option string) :=
  [(SOpen false "ok", None); (SFence "disk" 9, Some "disk full"); (SEvent "boot" JNull, None)].
Definition demo_later : Db := (store_run toy_to_string toy_from_str demo_calls demo_finished).2.

Lemma completed_replayed_witness :
  store_admit toy_to_string toy_from_str None "ann" "op-1" (JString "q") demo_later =
  (Ok (Completed (JString "done")), demo_later).
Proof.
  eapply (completed_replayed toy_to_string toy_from_str None "ann" "op-1" (JString "q") []
    (JString "done") None demo_calls demo_opened demo_admitted demo_admitted demo_finished demo_later);
    by vm_compute.
Defined.

Lemma lost_outcome_unknown_witness :
  store_admit toy_to_string toy_from_str None "ann" "op-1" (JString "q")
    (store_open None false "ok" demo_admitted).2 =
  (Ok Unknown, (store_open None false "ok" demo_admitted).2).
Proof.
  apply (lost_outcome_unknown toy_to_string toy_from_str None "ann" "op-1" (JString "q") None "ok" []
    demo_opened demo_admitted (store_open None false "ok" demo_admitted).2
    (store_open None false "ok" demo_admitted).2 2); by vm_compute.
Defined.

Lemma stale_writer_refused_witness :
  ∃ err d, commit_effect toy_to_string toy_from_str None "ann" "op-2" "disk" 1 "k" JNull
    (next_fence None "disk" (next_fence None "disk" demo_opened).2).2 = (Err err, d).
Proof.
  destruct (stale_writer_refused toy_to_string toy_from_str None "disk" 2 []
    (next_fence None "disk" demo_opened).2 (next_fence None "disk" (next_fence None "disk" demo_opened).2).2
    (next_fence None "disk" (next_fence None "disk" demo_opened).2).2) as [H _]; [by vm_compute..|].
  destruct (H None "ann" "op-2" 1%N "k" JNull) as [err E]; [lia|]. eauto.
Defined.

Lemma epochs_increase_witness : (1 < 3)%N ∧ demo_opened = (store_open None false "ok" empty_db).2.
Proof.
  split; [|reflexivity].
  apply (epochs_increase toy_to_string toy_from_str None "ok" demo_calls None "ok" empty_db
    demo_opened (store_run toy_to_string toy_from_str demo_calls demo_opened).2
    (store_open None false "ok" (store_run toy_to_string toy_from_str demo_calls demo_opened).2).2 1 3);
    by vm_compute.
Defined.
