(* ===== verification/Session.v ===== *)
(** * Multiplexed remote sessions ([matrix-runtime/src/session.rs])

    The shared part of a session ([Inner]) and its engine thread in one state. Every
    method of the engine and every critical section of the callers is an operation
    on it; what the clock, the TLS connection and the socket answer is an argument.
    A channel is a number; what is sent on channels, given to the service handler and
    written to the connection is recorded. [engine_turn] is one turn of [Engine::run]. *)

From S2P Require Import Prelude RustStd Json Utf8 Wire Frame Assembler Scan Dependency Remote.
From Stdlib Require Import Ascii.

Record SessionLimits : Type := mkSessionLimits {
  sl_max_frame : N;
  sl_control_queue : nat;
  sl_data_queue : nat;
  sl_commands : nat;
  sl_max_pending : nat;
  sl_frame_budget : N;
  sl_handshake_budget : N;
  sl_heartbeat_interval : N;
  sl_suspect_after : N;
  sl_detach_after : N;
}.

Definition default_session_limits : SessionLimits :=
  mkSessionLimits DEFAULT_MAX_FRAME 128 64 256 256 5000 10000 1000 5000 15000.

Inductive SessionState : Type := Connected | Suspect | Detached.

#[export] Instance SessionState_eq_dec : EqDecision SessionState.
Proof. solve_decision. Defined.

Definition session_state_debug (s : SessionState) : string :=
  match s with Connected => "Connected" | Suspect => "Suspect" | Detached => "Detached" end.

Inductive Command : Type :=
| CControl (frame : bytes)
| CData (frame : bytes)
| CRequest (request_id : string) (frame : bytes) (timeout : N).

Record StateInfo : Type := mkStateInfo {
  si_state : SessionState;
  si_last_inbound : Instant;
  si_dropped_malformed : N;
  si_dropped_late : N;
  si_refused_control : N;
  si_refused_data : N;
}.

Record QueuedFrame : Type := mkQueuedFrame { qf_bytes : bytes; qf_deadline : Instant }.

(** [ReplyTx] with its deadline: the channel and the instant. *)
Notation Slot := (N * Instant)%type (only parsing).

(** [Inner]; the sender of commands with the commands in the channel, and whether
    the engine still holds the receiver. *)
Record Shared : Type := mkShared {
  sh_commands : list Command;
  sh_receiver : bool;
  sh_replies : gmap string Slot;
  sh_multi : gmap string N;
  sh_handler : bool;
  sh_info : StateInfo;
  sh_shutdown : bool;
}.

(** The fields of [Engine] and of its [TlsIo] that outlive a call. *)
Record Engine : Type := mkEngine {
  en_control_q : list QueuedFrame;
  en_data_q : list QueuedFrame;
  en_pending : gmap string Slot;
  en_last_heartbeat : Instant;
  en_assembler : Assembler;
  en_tcp_eof : bool;
}.

(** What the session has done: answers on single-shot channels, on multi-answer
    channels, messages for the handler, bytes fed to the connection, and whether the
    socket was shut down. *)
Record Trace : Type := mkTrace {
  tr_answers : list (N * result Value string);
  tr_multi : list (N * Value);
  tr_handled : list Value;
  tr_wire : bytes;
  tr_poisoned : bool;
}.

Record Sess : Type := mkSess {
  se_id : string;
  se_peer : string;
  se_limits : SessionLimits;
  se_shared : Shared;
  se_engine : Engine;
  se_trace : Trace;
}.

Definition on_shared (f : Shared → Shared) (s : Sess) : Sess :=
  mkSess (se_id s) (se_peer s) (se_limits s) (f (se_shared s)) (se_engine s) (se_trace s).
Definition on_engine (f : Engine → Engine) (s : Sess) : Sess :=
  mkSess (se_id s) (se_peer s) (se_limits s) (se_shared s) (f (se_engine s)) (se_trace s).
Definition on_trace (f : Trace → Trace) (s : Sess) : Sess :=
  mkSess (se_id s) (se_peer s) (se_limits s) (se_shared s) (se_engine s) (f (se_trace s)).

Definition on_info (f : StateInfo → StateInfo) : Sess → Sess := on_shared (λ h,
  mkShared (sh_commands h) (sh_receiver h) (sh_replies h) (sh_multi h) (sh_handler h)
    (f (sh_info h)) (sh_shutdown h)).
Definition set_commands (l : list Command) : Sess → Sess := on_shared (λ h,
  mkShared l (sh_receiver h) (sh_replies h) (sh_multi h) (sh_handler h) (sh_info h) (sh_shutdown h)).
Definition on_replies (f : gmap string Slot → gmap string Slot) : Sess → Sess := on_shared (λ h,
  mkShared (sh_commands h) (sh_receiver h) (f (sh_replies h)) (sh_multi h) (sh_handler h)
    (sh_info h) (sh_shutdown h)).
Definition on_multi (f : gmap string N → gmap string N) : Sess → Sess := on_shared (λ h,
  mkShared (sh_commands h) (sh_receiver h) (sh_replies h) (f (sh_multi h)) (sh_handler h)
    (sh_info h) (sh_shutdown h)).
Definition drop_receiver : Sess → Sess := on_shared (λ h,
  mkShared (sh_commands h) false (sh_replies h) (sh_multi h) (sh_handler h) (sh_info h) (sh_shutdown h)).

Definition set_control_q (q : list QueuedFrame) : Sess → Sess := on_engine (λ e,
  mkEngine q (en_data_q e) (en_pending e) (en_last_heartbeat e) (en_assembler e) (en_tcp_eof e)).
Definition set_data_q (q : list QueuedFrame) : Sess → Sess := on_engine (λ e,
  mkEngine (en_control_q e) q (en_pending e) (en_last_heartbeat e) (en_assembler e) (en_tcp_eof e)).
Definition set_pending (p : gmap string Slot) : Sess → Sess := on_engine (λ e,
  mkEngine (en_control_q e) (en_data_q e) p (en_last_heartbeat e) (en_assembler e) (en_tcp_eof e)).
Definition set_heartbeat (t : Instant) : Sess → Sess := on_engine (λ e,
  mkEngine (en_control_q e) (en_data_q e) (en_pending e) t (en_assembler e) (en_tcp_eof e)).
Definition set_reading (a : Assembler) (eof : bool) : Sess → Sess := on_engine (λ e,
  mkEngine (en_control_q e) (en_data_q e) (en_pending e) (en_last_heartbeat e) a eof).

(** [tx.send(r)] on single-shot channels. *)
Definition send_answers (l : list (N * result Value string)) : Sess → Sess := on_trace (λ t,
  mkTrace (tr_answers t ++ l) (tr_multi t) (tr_handled t) (tr_wire t) (tr_poisoned t)).
Definition send_multi (c : N) (v : Value) : Sess → Sess := on_trace (λ t,
  mkTrace (tr_answers t) (tr_multi t ++ [(c, v)]) (tr_handled t) (tr_wire t) (tr_poisoned t)).
Definition handle (v : Value) : Sess → Sess := on_trace (λ t,
  mkTrace (tr_answers t) (tr_multi t) (tr_handled t ++ [v]) (tr_wire t) (tr_poisoned t)).
Definition feed_wire (b : bytes) : Sess → Sess := on_trace (λ t,
  mkTrace (tr_answers t) (tr_multi t) (tr_handled t) (tr_wire t ++ b) (tr_poisoned t)).
Definition poison : Sess → Sess := on_trace (λ t,
  mkTrace (tr_answers t) (tr_multi t) (tr_handled t) (tr_wire t) true).

(** Counters. *)
Definition count_malformed (n : N) : Sess → Sess := on_info (λ i,
  mkStateInfo (si_state i) (si_last_inbound i) (si_dropped_malformed i + n) (si_dropped_late i)
    (si_refused_control i) (si_refused_data i)).
Definition count_late (n : N) : Sess → Sess := on_info (λ i,
  mkStateInfo (si_state i) (si_last_inbound i) (si_dropped_malformed i) (si_dropped_late i + n)
    (si_refused_control i) (si_refused_data i)).
Definition count_refused_control : Sess → Sess := on_info (λ i,
  mkStateInfo (si_state i) (si_last_inbound i) (si_dropped_malformed i) (si_dropped_late i)
    (si_refused_control i + 1) (si_refused_data i)).
Definition count_refused_data : Sess → Sess := on_info (λ i,
  mkStateInfo (si_state i) (si_last_inbound i) (si_dropped_malformed i) (si_dropped_late i)
    (si_refused_control i) (si_refused_data i + 1)).

Notation info s := (sh_info (se_shared s)).
Notation replies s := (sh_replies (se_shared s)).
Notation multi s := (sh_multi (se_shared s)).
Notation commands s := (sh_commands (se_shared s)).
Notation control_q s := (en_control_q (se_engine s)).
Notation data_q s := (en_data_q (se_engine s)).
Notation pending s := (en_pending (se_engine s)).

(** [Session::spawn]. *)
Definition spawn (limits : SessionLimits) (id peer : string) (now : Instant) : Sess :=
  mkSess id peer limits
    (mkShared [] true ∅ ∅ false (mkStateInfo Connected now 0 0 0 0) false)
    (mkEngine [] [] ∅ now assembler_default false)
    (mkTrace [] [] [] [] false).

Definition session_state (s : Sess) : SessionState := si_state (info s).

Definition admissible (s : Sess) : bool :=
  bool_decide (session_state s = Connected) && negb (sh_shutdown (se_shared s)).

Definition set_handler : Sess → Sess := on_shared (λ h,
  mkShared (sh_commands h) (sh_receiver h) (sh_replies h) (sh_multi h) true (sh_info h) (sh_shutdown h)).

Definition shutdown : Sess → Sess := on_shared (λ h,
  mkShared (sh_commands h) (sh_receiver h) (sh_replies h) (sh_multi h) (sh_handler h) (sh_info h) true).

(** The two steps of [send_cmd]: the check, and [try_send], which fails when the channel is full or
    its receiver is gone. *)
Definition send_closed (s : Sess) : bool :=
  sh_shutdown (se_shared s) || bool_decide (session_state s = Detached).

Definition try_send (cmd : Command) (refused : string) (s : Sess) : result unit string * Sess :=
  if negb (sh_receiver (se_shared s)) || (sl_commands (se_limits s) <=? length (commands s)) then
    (Err refused, s)
  else (Ok tt, set_commands (commands s ++ [cmd]) s).

(** Both, with nothing in between. *)
Definition send_cmd (cmd : Command) (refused : string) (s : Sess) : result unit string * Sess :=
  if send_closed s then (Err "session detached", s) else try_send cmd refused s.

Definition inspect (s : Sess) : Value :=
  let i := info s in
  obj [("session_id", JString (se_id s)); ("state", JString (session_state_debug (si_state i)));
       ("peer", JString (se_peer s)); ("dropped_malformed", j_u64 (si_dropped_malformed i));
       ("dropped_late", j_u64 (si_dropped_late i)); ("refused_control", j_u64 (si_refused_control i));
       ("refused_data", j_u64 (si_refused_data i))].

Section session.
(** [serde_json::to_vec] and [serde_json::from_str]. *)
Context (to_vec : Value → bytes) (from_str : bytes → result Value string).

Definition encode_frame (env : Value) (max_frame : N) : result bytes string :=
  map_err frame_error_display (encode (to_vec env) max_frame).

Definition send_control (env : Value) (s : Sess) : result unit string * Sess :=
  match encode_frame env DEFAULT_MAX_FRAME with
  | Err e => (Err e, s)
  | Ok frame =>
      match send_cmd (CControl frame) "resource-exhausted" s with
      | (Err e, s) =>
          (Err e, if bool_decide (e = "resource-exhausted") then count_refused_control s else s)
      | r => r
      end
  end.

Definition send_data (env : Value) (s : Sess) : result unit string * Sess :=
  match encode_frame env DEFAULT_MAX_FRAME with
  | Err e => (Err e, s)
  | Ok frame =>
      match send_cmd (CData frame) "resource-exhausted" s with
      | (Err e, s) =>
          (Err e, if bool_decide (e = "resource-exhausted") then count_refused_data s else s)
      | r => r
      end
  end.

(** [request] up to the insertion of its slot; [chan] is the new channel. *)
Definition request_register (chan : N) (request_id : string) (timeout : N) (now : Instant) (s : Sess)
    : result unit string * Sess :=
  if sl_max_pending (se_limits s) <=? size (replies s) then (Err "resource-exhausted", s)
  else if is_some (replies s !! request_id) then (Err "duplicate-request", s)
  else (Ok tt, on_replies (insert request_id (chan, now + timeout)%N) s).

(** [request] from there to its wait. *)
Definition request_submit (env : Value) (request_id : string) (timeout : N) (s : Sess)
    : result unit string * Sess :=
  match encode_frame env DEFAULT_MAX_FRAME with
  | Err e => (Err e, s)
  | Ok frame =>
      match send_cmd (CRequest request_id frame timeout) "resource-exhausted" s with
      | (Err _, s) => (Err "resource-exhausted", count_refused_control (on_replies (delete request_id) s))
      | r => r
      end
  end.

(** The wait ends by cancellation, timeout or disconnection: the slot is removed. *)
Definition request_abandon (request_id : string) : Sess → Sess := on_replies (delete request_id).

(** One turn of the wait loop of [request]: [cancelled], then [recv_timeout]. *)
Inductive Recv : Type := RecvAnswer (r : result Value string) | RecvTimeout | RecvDisconnected.

Fixpoint request_wait (timeout waited : N) (script : list (bool * Recv)) (request_id : string) (s : Sess)
    : option (result Value string) * Sess :=
  match script with
  | [] => (None, s)
  | (cancelled, r) :: script =>
      if cancelled then (Some (Err "cancelled"), request_abandon request_id s)
      else
        let quantum := N.min (timeout - waited) (N.min 5 timeout) in
        match r with
        | RecvAnswer r => (Some r, s)
        | RecvTimeout =>
            if (timeout <=? waited + quantum)%N then
              (Some (Err "outcome-unknown"), request_abandon request_id s)
            else request_wait timeout (waited + quantum) script request_id s
        | RecvDisconnected => (Some (Err "outcome-unknown"), request_abandon request_id s)
        end
  end.

Definition subscribe_answers (request_id : string) (chan : N) (s : Sess) : result unit string * Sess :=
  if sl_max_pending (se_limits s) <=? size (multi s) then (Err "resource-exhausted", s)
  else if is_some (multi s !! request_id) then (Err "duplicate-request", s)
  else (Ok tt, on_multi (insert request_id chan) s).

Definition unsubscribe_answers (request_id : string) : Sess → Sess := on_multi (delete request_id).

(** ** Handshake *)

(** [wire_err]; the details print as compact JSON. *)
Definition wire_err (e : WireError) : string := we_code e +:+ ":" +:+ of_chars (to_vec (we_details e)).

Definition hello_body (domain authority : string) (controller_epoch : N) : Value :=
  obj [("versions", j_strs [REMOTE_PROTOCOL_VERSION]);
       ("features", j_strs ["remote-calls/1"; "remote-streams/1"; "remote-events/1"; "remote-ops/1"]);
       ("domain", JString domain); ("authority", JString authority);
       ("controller_epoch", JString (display controller_epoch))].

Definition check_hello (hello : Value) : result unit string :=
  let? _ := map_err wire_err (validate_envelope hello) in
  ensure (bool_decide (get_str "type" hello = Some "session.hello")) "expected session.hello".

Definition check_welcome (welcome : Value) : result Value string :=
  let? _ := map_err wire_err (validate_envelope welcome) in
  let? _ := ensure (bool_decide (get_str "type" welcome = Some "session.welcome")) "expected session.welcome" in
  Ok (default JNull (get "body" welcome)).

(** What the connection answers during a handshake: the protocol agreed on, the
    fingerprint of the peer, the frame received and whether the frame went out. *)
Record HandshakeIo : Type := mkHandshakeIo {
  hs_tls : result unit string;
  hs_alpn : option string;
  hs_peer : result string string;
  hs_recv : result (option Value) string;
  hs_send : result unit string;
}.

Definition REMOTE_PROFILE : string := "matrix.remote/0.1".

Definition accept (io : HandshakeIo) (limits : SessionLimits) (authorize : string → bool)
    (welcome_body : Value → result Value string) (session_id message_id : string) (now : Instant)
    : result (Sess * Value) string :=
  let? _ := map_err (λ e, "tls-handshake:" +:+ e) (hs_tls io) in
  let? _ := ensure (bool_decide (hs_alpn io = Some REMOTE_PROFILE)) "unsupported profile" in
  let? peer := hs_peer io in
  let? _ := ensure (authorize peer) "permission-denied" in
  let? hello := map_err (λ e, "hello-recv:" +:+ e) (hs_recv io) in
  let? hello := ok_or hello "eof in handshake" in
  let? _ := check_hello hello in
  let hello_body := default JNull (get "body" hello) in
  let? body := welcome_body hello_body in
  let welcome := obj [("protocol", JString REMOTE_PROTOCOL_ID); ("version", JString REMOTE_PROTOCOL_VERSION);
    ("type", JString "session.welcome"); ("message_id", JString message_id);
    ("session_id", JString session_id); ("body", body)] in
  let? _ := map_err wire_err (validate_envelope welcome) in
  let? _ := map_err (λ e, "welcome-send:" +:+ e) (hs_send io) in
  Ok (spawn limits session_id peer now, hello_body).

Definition connect (io : HandshakeIo) (limits : SessionLimits) (hello : Value) (now : Instant)
    : result (Sess * Value) string :=
  let? _ := map_err (λ e, "tls-handshake:" +:+ e) (hs_tls io) in
  let? _ := ensure (bool_decide (hs_alpn io = Some REMOTE_PROFILE)) "unsupported profile" in
  let? _ := map_err wire_err (validate_body "session.hello" hello) in
  let? _ := map_err (λ e, "hello-send:" +:+ e) (hs_send io) in
  let? welcome := map_err (λ e, "welcome-recv:" +:+ e) (hs_recv io) in
  let? welcome := ok_or welcome "eof in handshake" in
  let? body := check_welcome welcome in
  let? session_id := ok_or (get_str "session_id" welcome) "welcome without session_id" in
  let? peer_fp := hs_peer io in
  Ok (spawn limits session_id peer_fp now, body).

(** ** The engine *)

Definition set_state (st : SessionState) : Sess → Sess := on_info (λ i,
  if bool_decide (si_state i = Detached) then i
  else mkStateInfo st (si_last_inbound i) (si_dropped_malformed i) (si_dropped_late i)
         (si_refused_control i) (si_refused_data i)).

Definition note_inbound (now : Instant) : Sess → Sess := on_info (λ i,
  mkStateInfo (if bool_decide (si_state i = Suspect) then Connected else si_state i) now
    (si_dropped_malformed i) (si_dropped_late i) (si_refused_control i) (si_refused_data i)).

(** The channels of a table, with one answer for all of them. *)
Definition answer_all (reason : string) (m : gmap string Slot) : list (N * result Value string) :=
  (λ slot, (slot.1, Err reason)) <$> (map_to_list m).*2.

Definition fail_all (reason : string) (s : Sess) : Sess :=
  let s := set_pending ∅ (send_answers (answer_all reason (pending s)) s) in
  on_replies (λ _, ∅) (send_answers (answer_all reason (replies s)) s).

Definition detach (reason : string) (s : Sess) : Sess :=
  let s := poison s in
  let s := on_info (λ i, mkStateInfo Detached (si_last_inbound i) (si_dropped_malformed i)
                           (si_dropped_late i) (si_refused_control i) (si_refused_data i)) s in
  fail_all reason s.

(** One command of [drain_commands]. *)
Definition drain_one (now : Instant) (cmd : Command) (s : Sess) : Sess :=
  let queued frame := mkQueuedFrame frame (now + sl_frame_budget (se_limits s))%N in
  match cmd with
  | CControl frame =>
      if sl_control_queue (se_limits s) <=? length (control_q s) then count_refused_control s
      else set_control_q (control_q s ++ [queued frame]) s
  | CData frame =>
      if sl_data_queue (se_limits s) <=? length (data_q s) then count_refused_data s
      else set_data_q (data_q s ++ [queued frame]) s
  | CRequest request_id frame timeout =>
      let reply := replies s !! request_id in
      let s := on_replies (delete request_id) s in
      match reply with
      | None => s
      | Some (tx, _) =>
          if sl_max_pending (se_limits s) <=? size (pending s) then
            send_answers [(tx, Err "resource-exhausted")] s
          else if sl_control_queue (se_limits s) <=? length (control_q s) then
            send_answers [(tx, Err "resource-exhausted")] (count_refused_control s)
          else
            let s := set_pending (<[request_id := (tx, now + timeout)%N]> (pending s)) s in
            set_control_q (control_q s ++ [queued frame]) s
      end
  end.

(** The commands in the channel, in order. *)
Definition drain_commands (now : Instant) (s : Sess) : Sess :=
  foldl (λ s cmd, drain_one now cmd s) (set_commands [] s) (commands s).

(** One turn of the feed loop of [flush_one]: the clock, [writer().write] (the bytes it
    took of those offered), [wants_write] after it, and whether [drive] succeeded. *)
Record FlushRound : Type := mkFlushRound {
  fl_now : Instant;
  fl_write : result nat unit;
  fl_wants_write : bool;
  fl_drive : bool;
}.

Inductive Flush : Type := FlushOk | FlushErr | FlushBlocked.

(** The loop: the bytes fed so far and how it ends; [FlushErr] comes with a poisoned
    channel; [FlushBlocked]: the script ended first. *)
Fixpoint flush_loop (frame : QueuedFrame) (end_now : Instant) (rounds : list FlushRound) (fed : nat)
    : nat * Flush :=
  match rounds with
  | [] => (fed, FlushBlocked)
  | r :: rounds =>
      if (qf_deadline frame <=? fl_now r)%N then (fed, FlushErr)
      else
        let len := length (qf_bytes frame) in
        let wrote :=
          if fed <? len then
            match fl_write r with
            | Ok O => if fl_wants_write r then Some fed else None
            | Ok n => Some (fed + Nat.min n (len - fed))
            | Err _ => None
            end
          else Some fed in
        match wrote with
        | None => (fed, FlushErr)
        | Some fed =>
            if (fed =? len) && negb (fl_wants_write r) then
              (fed, if (qf_deadline frame <=? end_now)%N then FlushErr else FlushOk)
            else if fl_drive r then flush_loop frame end_now rounds fed
            else (fed, FlushErr)
        end
  end.

(** [now]: the clock when the frame is taken from its queue. *)
Definition flush_one (now : Instant) (rounds : list FlushRound) (end_now : Instant) (s : Sess)
    : Flush * Sess :=
  let next_is_control := negb (bool_decide (control_q s = [])) in
  match (if next_is_control then control_q s else data_q s) with
  | [] => (FlushOk, s)
  | frame :: q =>
      let s := if next_is_control then set_control_q q s else set_data_q q s in
      if (qf_deadline frame <=? now)%N then (FlushOk, count_late 1 s)
      else
        let '(fed, r) := flush_loop frame end_now rounds 0 in
        let s := feed_wire (take fed (qf_bytes frame)) s in
        (r, match r with FlushErr => poison s | _ => s end)
  end.

Definition expired (now : Instant) (_ : string) (slot : Slot) : bool := (slot.2 <=? now)%N.

Definition expire_pending (now : Instant) (s : Sess) : Sess :=
  let late := retain (expired now) (pending s) in
  let s := send_answers (answer_all "outcome-unknown" late) s in
  let s := set_pending (retain (λ k v, negb (expired now k v)) (pending s)) s in
  let s := count_late (N.of_nat (size late)) s in
  on_replies (retain (λ k v, negb (expired now k v))) s.

(** The last part of [dispatch]: an inbound request or notice. *)
Definition serve (env : Value) (s : Sess) : Sess :=
  if negb (is_ok (validate_envelope env)) then count_malformed 1 s
  else if sh_handler (se_shared s) then handle env s
  else s.

Definition dispatch (now : Instant) (env : Value) (s : Sess) : Sess :=
  let s := note_inbound now s in
  let ty := default "" (get_str "type" env) in
  match get_str "request_id" env with
  | Some rid =>
      match pending s !! rid with
      | Some (tx, _) => send_answers [(tx, Ok env)] (set_pending (delete rid (pending s)) s)
      | None =>
          match multi s !! rid with
          | Some tx => send_multi tx env s
          | None => if is_answer_type ty then count_late 1 s else serve env s
          end
      end
  | None => serve env s
  end.

Definition notice (ty message_id session_id : string) (body : Value) : Value :=
  obj [("protocol", JString REMOTE_PROTOCOL_ID); ("version", JString REMOTE_PROTOCOL_VERSION);
       ("type", JString ty); ("message_id", JString message_id); ("session_id", JString session_id);
       ("body", body)].

Definition heartbeat_due (now : Instant) (message_id : string) (s : Sess) : Sess :=
  if (saturating_sub now (en_last_heartbeat (se_engine s)) <? sl_heartbeat_interval (se_limits s))%N then s
  else
    let s := set_heartbeat now s in
    match encode_frame (notice "heartbeat" message_id (se_id s) (obj [])) (sl_max_frame (se_limits s)) with
    | Ok frame =>
        if length (control_q s) <? sl_control_queue (se_limits s) then
          set_control_q (control_q s ++ [mkQueuedFrame frame (now + sl_frame_budget (se_limits s))%N]) s
        else s
    | Err _ => s
    end.

(** [false]: the session was detached. *)
Definition check_timers (now : Instant) (s : Sess) : bool * Sess :=
  let idle := saturating_sub now (si_last_inbound (info s)) in
  if (sl_detach_after (se_limits s) <=? idle)%N then (false, detach "session detached" s)
  else if (sl_suspect_after (se_limits s) <=? idle)%N then (true, set_state Suspect s)
  else (true, s).

Definition decode_frame (raw : bytes) : result Value string := map_err we_code (scan_raw from_str raw).

(** *** Reading *)

(** What [complete_io], [process_new_packets] and the reads of decrypted bytes answer;
    a read of nothing and [WouldBlock] end the round. *)
Inductive CompleteIo : Type := IoDone | IoEof | IoError (e : string).

Record PumpScript : Type := mkPumpScript {
  pu_complete : CompleteIo;
  pu_packets : option string;
  pu_reads : list bytes;
  pu_read_error : option string;
}.

(** Feed and take in turns over one chunk, with the frames taken so far. *)
Fixpoint take_chunk (fuel : nat) (max_frame : N) (rest : bytes) (a : Assembler) (raws : list bytes)
    : list bytes * result unit string * Assembler :=
  match fuel with
  | O => (raws, Ok tt, a)
  | S fuel =>
      match feed max_frame rest a with
      | (Err _, a) => (raws, Err "frame too large", a)
      | (Ok rest, a) =>
          match take_frames 2 a with
          | (Err e, a) => (raws, Err e, a)
          | (Ok taken, a) =>
              if bool_decide (rest = []) then (raws ++ taken, Ok tt, a)
              else if bool_decide (taken = []) then (raws, Err "assembler stall", a)
              else take_chunk fuel max_frame rest a (raws ++ taken)
          end
      end
  end.

(** The loop over reads, until the work of the round is bounded. *)
Fixpoint take_chunks (max_frame cap drained : N) (reads : list bytes) (read_error : option string)
    (a : Assembler) (raws : list bytes) : list bytes * result unit string * Assembler :=
  if (cap <=? drained)%N then (raws, Ok tt, a)
  else
    match reads with
    | [] => (raws, match read_error with Some e => Err e | None => Ok tt end, a)
    | c :: reads =>
        match take_chunk (S (length c)) max_frame c a raws with
        | (raws, Err e, a) => (raws, Err e, a)
        | (raws, Ok _, a) => take_chunks max_frame cap (drained + blen c) reads read_error a raws
        end
    end.

Definition drain_cap (max_frame : N) : N := N.max (N.min (max_frame * 4) u64_max) 1048576.

(** The decoded frames and the number of malformed ones. *)
Definition decode_all (raws : list bytes) : list Value * N :=
  (omap (λ r, match decode_frame r with Ok v => Some v | Err _ => None end) raws,
   N.of_nat (length (List.filter (λ r, negb (is_ok (decode_frame r))) raws))).

Definition pump_reads (p : PumpScript) (s : Sess) : result (list Value) string * Sess :=
  match pu_complete p with
  | IoError e => (Err e, s)
  | io =>
      let eof := match io with IoEof => true | _ => en_tcp_eof (se_engine s) end in
      let s := set_reading (en_assembler (se_engine s)) eof s in
      match pu_packets p with
      | Some e => (Err e, s)
      | None =>
          let max := sl_max_frame (se_limits s) in
          let '(raws, r, a) := take_chunks max (drain_cap max) 0 (pu_reads p) (pu_read_error p)
                                 (en_assembler (se_engine s)) [] in
          let '(out, malformed) := decode_all raws in
          let s := count_malformed malformed (set_reading a eof s) in
          match r with
          | Err e =>
              (Err e, if bool_decide (e ∈ ["frame too large"; "assembler stall"]) then poison s else s)
          | Ok _ =>
              if eof && bool_decide (out = []) then
                (Err (if Assembler.is_empty a then "clean-eof" else "truncated frame"), s)
              else (Ok out, s)
          end
      end
  end.

(** *** One turn of [run] *)

Record TurnScript : Type := mkTurnScript {
  tu_now : Instant;
  tu_message_id : string;
  tu_close_fed : nat;                 (* bytes of the close notice the writer takes *)
  tu_poll_error : bool;
  tu_pump : PumpScript;
  tu_read_now : Instant;
  tu_flush : list FlushRound;
  tu_flush_end : Instant;
}.

Inductive Turn : Type := Running | Stopped | Blocked.

(** The engine returns: the receiver of commands goes with it. *)
Definition stop (reason : string) (s : Sess) : Turn * Sess := (Stopped, drop_receiver (detach reason s)).

Definition engine_turn (t : TurnScript) (s : Sess) : Turn * Sess :=
  if sh_shutdown (se_shared s) then
    let close := notice "session.close" (tu_message_id t) (se_id s) (obj [("reason", JString "shutdown")]) in
    let s := match encode_frame close (sl_max_frame (se_limits s)) with
             | Ok frame => feed_wire (take (tu_close_fed t) frame) s
             | Err _ => s
             end in
    stop "session detached" s
  else
    let s := drain_commands (tu_now t) s in
    let s := expire_pending (tu_now t) s in
    let s := heartbeat_due (tu_now t) (tu_message_id t) s in
    let '(go, s) := check_timers (tu_now t) s in
    if negb go then (Stopped, drop_receiver s)
    else if tu_poll_error t then stop "transport error" s
    else
      match pump_reads (tu_pump t) s with
      | (Err e, s) =>
          stop (if bool_decide (e = "clean-eof") then "peer closed" else "transport error: " +:+ e) s
      | (Ok frames, s) =>
          let s := foldl (λ s f, dispatch (tu_read_now t) f s) s frames in
          let '(r, s) :=
            if bool_decide (control_q s = []) && bool_decide (data_q s = []) then (FlushOk, s)
            else flush_one (tu_read_now t) (tu_flush t) (tu_flush_end t) s in
          match r with
          | FlushErr => stop "frame deadline exceeded" s
          | FlushBlocked => (Blocked, s)
          | FlushOk => (Running, expire_pending (tu_flush_end t) s)
          end
      end.
End session.
