(* ===== verification/SessionProps.v ===== *)
(** * Guarantees of remote sessions

    [sess_step] interleaves the calls of any number of threads with the methods of the
    engine; [engine_turn] is a sequence of such steps. The invariant [session_ok] holds
    in every reachable state. *)

From S2P Require Import Prelude RustStd Json Utf8 Wire Frame Assembler Scan Dependency Remote Session.
From Stdlib Require Import Ascii.

Definition channels (m : gmap string (N * Instant)) : list N := ((map_to_list m).*2).*1.

(** The single-shot channels of the session: answered, in the engine, with callers. *)
Definition all_channels (s : Sess) : list N :=
  (tr_answers (se_trace s)).*1 ++ channels (pending s) ++ channels (replies s).

Definition running (s : Sess) : Prop :=
  sh_receiver (se_shared s) = true ∧ tr_poisoned (se_trace s) = false.

(** ** Channels of a table *)

Lemma NoDup_sub {A} (l k : list A) : l ⊆+ k → NoDup k → NoDup l.
Proof. intros (m & ->)%submseteq_Permutation N. by apply NoDup_app in N as (? & _). Qed.

Lemma channels_delete m k v : m !! k = Some v → channels m ≡ₚ v.1 :: channels (delete k m).
Proof. intros E. unfold channels. by rewrite <- (map_to_list_delete _ _ _ E). Qed.

Lemma channels_delete_sub m k : channels (delete k m) ⊆+ channels m.
Proof.
  destruct (m !! k) as [v|] eqn:E.
  - rewrite (channels_delete _ _ _ E). by apply submseteq_cons.
  - by rewrite delete_id.
Qed.

Lemma channels_insert_sub m k v : channels (<[k := v]> m) ⊆+ v.1 :: channels m.
Proof.
  assert (E : <[k := v]> m !! k = Some v) by by rewrite lookup_insert_eq.
  rewrite (channels_delete _ _ _ E), delete_insert_eq. apply submseteq_skip, channels_delete_sub.
Qed.

Lemma channels_retain (f : string → (N * Instant) → bool) m :
  channels (retain f m) ++ channels (retain (λ k v, negb (f k v)) m) ≡ₚ channels m.
Proof.
  unfold retain. induction m as [|k v m E IH] using map_ind; [done|].
  assert (I : ∀ m', m' !! k = None → channels (<[k := v]> m') ≡ₚ v.1 :: channels m').
  { intros m' N. unfold channels. by rewrite map_to_list_insert. }
  rewrite !map_filter_insert, (delete_id m), (I m E) by done. cbn [fst snd].
  destruct (f k v); cbn [negb].
  - rewrite decide_True, decide_False by done. rewrite (I (filter _ _)); [cbn; by rewrite IH|].
    apply map_lookup_filter_None. by left.
  - rewrite decide_False, decide_True by done. rewrite (I (filter _ _)); [|apply map_lookup_filter_None; by left].
    by rewrite <- Permutation_middle, IH.
Qed.

Lemma channels_retain_sub f m : channels (retain f m) ⊆+ channels m.
Proof. rewrite <- (channels_retain f m). by apply submseteq_inserts_r. Qed.

Lemma size_retain_le f (m : gmap string (N * Instant)) : size (retain f m) ≤ size m.
Proof.
  apply map_subseteq_size. apply map_subseteq_spec. intros k v. unfold retain.
  by intros [? _]%map_lookup_filter_Some.
Qed.

Lemma answer_all_channels reason m : (answer_all reason m).*1 = channels m.
Proof. unfold answer_all, channels. rewrite <- list_fmap_compose. done. Qed.

Section props.
Context (to_vec : Value → bytes) (from_str : bytes → result Value string).

(** The bytes of a command. *)
Definition command_frame (c : Command) : bytes :=
  match c with CControl f | CData f | CRequest _ f _ => f end.

(** A method of the engine that returns to the loop. *)
Inductive engine_step : Sess → Sess → Prop :=
| es_commands now cmd l s : commands s = cmd :: l → engine_step s (drain_one now cmd (set_commands l s))
| es_expire now s : engine_step s (expire_pending now s)
| es_heartbeat now id s : engine_step s (heartbeat_due to_vec now id s)
| es_timers now s s' : check_timers now s = (true, s') → engine_step s s'
| es_pump p s r s' : pump_reads from_str p s = (r, s') → engine_step s s'
| es_dispatch now env s : engine_step s (dispatch now env s)
| es_flush now rounds end_now s r s' :
    flush_one now rounds end_now s = (r, s') → r ≠ FlushBlocked → engine_step s s'
| es_close n env max frame s :
    encode_frame to_vec env max = Ok frame →
    engine_step s (poison (feed_wire (take n frame) s)).

(** A step of the engine or of a caller. A send is also there in its parts, [ss_try_send] after a
    check that was made at any time before, and then the count of a refusal. *)
Inductive sess_step : Sess → Sess → Prop :=
| ss_engine s s' : running s → engine_step s s' → sess_step s s'
| ss_stop reason s : sh_receiver (se_shared s) = true → sess_step s (drop_receiver (detach reason s))
| ss_register chan rid timeout now s :
    chan ∉ all_channels s → sess_step s (request_register chan rid timeout now s).2
| ss_submit env rid timeout s : sess_step s (request_submit to_vec env rid timeout s).2
| ss_abandon rid s : sess_step s (request_abandon rid s)
| ss_subscribe rid chan s : sess_step s (subscribe_answers rid chan s).2
| ss_unsubscribe rid s : sess_step s (unsubscribe_answers rid s)
| ss_control env s : sess_step s (send_control to_vec env s).2
| ss_data env s : sess_step s (send_data to_vec env s).2
| ss_try_send env max frame cmd refused s :
    encode_frame to_vec env max = Ok frame → command_frame cmd = frame → sess_step s (try_send cmd refused s).2
| ss_refused_control s : sess_step s (count_refused_control s)
| ss_refused_data s : sess_step s (count_refused_data s)
| ss_handler s : sess_step s (set_handler s)
| ss_shutdown s : sess_step s (shutdown s).

(** ** The invariant *)

Definition is_frame (b : bytes) : Prop := ∃ env max, encode_frame to_vec env max = Ok b.

(** Complete frames one after the other, and at most a truncated one at the end. *)
Definition wire_ok (wire : bytes) (poisoned : bool) : Prop :=
  ∃ frames partial f, wire = concat frames ++ partial ∧ Forall is_frame frames ∧
    partial `prefix_of` f ∧ (partial = [] ∨ is_frame f ∧ poisoned = true).

Record session_ok (s : Sess) : Prop := {
  ok_bounds : length (commands s) ≤ sl_commands (se_limits s) ∧
    length (control_q s) ≤ sl_control_queue (se_limits s) ∧
    length (data_q s) ≤ sl_data_queue (se_limits s) ∧
    size (pending s) ≤ sl_max_pending (se_limits s) ∧
    size (replies s) ≤ sl_max_pending (se_limits s) ∧
    size (multi s) ≤ sl_max_pending (se_limits s);
  ok_frames : Forall (λ c, is_frame (command_frame c)) (commands s) ∧
    Forall (λ q, is_frame (qf_bytes q)) (control_q s ++ data_q s);
  ok_wire : wire_ok (tr_wire (se_trace s)) (tr_poisoned (se_trace s));
  ok_once : NoDup (all_channels s);
  ok_stopped : sh_receiver (se_shared s) = false →
    session_state s = Detached ∧ tr_poisoned (se_trace s) = true ∧ pending s = ∅;
}.

(** ** Preservation by the parts of the state *)

Lemma ok_info f s : (∀ i, si_state i = Detached → si_state (f i) = Detached) →
  session_ok s → session_ok (on_info f s).
Proof. intros F [B Fr W O S]. split; try done. intros R. apply S in R as (E & R). split; [by apply F|done]. Qed.

Lemma ok_reading a eof s : session_ok s → session_ok (set_reading a eof s).
Proof. intros [B Fr W O S]. by split. Qed.

Lemma ok_heartbeat t s : session_ok s → session_ok (set_heartbeat t s).
Proof. intros [B Fr W O S]. by split. Qed.

Lemma wire_poison w b : wire_ok w b → wire_ok w true.
Proof. intros (fs & p & f & E & F & P & [->|[I _]]); exists fs; [exists [], []|exists p, f]; naive_solver. Qed.

Lemma ok_poison s : session_ok s → session_ok (poison s).
Proof.
  intros [B Fr W O S]. split; try done.
  - by eapply wire_poison.
  - intros R. by apply S in R as (? & _ & ?).
Qed.

Lemma ok_trace_other f s : (∀ t, tr_answers (f t) = tr_answers t ∧ tr_wire (f t) = tr_wire t ∧
    tr_poisoned (f t) = tr_poisoned t) →
  session_ok s → session_ok (on_trace f s).
Proof.
  intros F [B Fr W O S]. destruct (F (se_trace s)) as (E1 & E2 & E3). split; try done.
  - cbn. by rewrite E2, E3.
  - unfold all_channels. cbn. by rewrite E1.
  - intros R. apply S in R as (? & ? & ?). cbn. by rewrite E3.
Qed.

Lemma ok_commands l s : session_ok s → length l ≤ sl_commands (se_limits s) →
  Forall (λ c, is_frame (command_frame c)) l → session_ok (set_commands l s).
Proof. intros [B [Fr1 Fr2] W O S] L F. split; try done. cbn. by destruct B as [_ B]. Qed.

Lemma ok_control_q q s : session_ok s → length q ≤ sl_control_queue (se_limits s) →
  Forall (λ q, is_frame (qf_bytes q)) q → session_ok (set_control_q q s).
Proof.
  intros [B [Fr1 Fr2] W O S] L F. split; try done; cbn; [naive_solver|].
  split; [done|]. apply Forall_app in Fr2 as [_ ?]. by apply Forall_app.
Qed.

Lemma ok_data_q q s : session_ok s → length q ≤ sl_data_queue (se_limits s) →
  Forall (λ q, is_frame (qf_bytes q)) q → session_ok (set_data_q q s).
Proof.
  intros [B [Fr1 Fr2] W O S] L F. split; try done; cbn; [naive_solver|].
  split; [done|]. apply Forall_app in Fr2 as [? _]. by apply Forall_app.
Qed.

(** An update of the tables of waiting channels and of the answers. *)
Definition retable (p r : gmap string (N * Instant)) (l : list (N * result Value string)) (s : Sess) : Sess :=
  send_answers l (set_pending p (on_replies (λ _, r) s)).

Lemma ok_retable p r l s : session_ok s →
  size p ≤ sl_max_pending (se_limits s) → size r ≤ sl_max_pending (se_limits s) →
  l.*1 ++ channels p ++ channels r ⊆+ channels (pending s) ++ channels (replies s) →
  (sh_receiver (se_shared s) = false → p = ∅) →
  session_ok (retable p r l s).
Proof.
  intros [B Fr W O S] Lp Lr C E. split; try done; cbn.
  - naive_solver.
  - eapply NoDup_sub; [|exact O]. unfold all_channels. cbn. rewrite fmap_app, <- app_assoc.
    by apply submseteq_skips_l.
  - intros R. destruct (S R) as (? & ? & _). auto.
Qed.

Lemma ok_as_retable p r l s s' : s' = retable p r l s → session_ok s →
  size p ≤ sl_max_pending (se_limits s) → size r ≤ sl_max_pending (se_limits s) →
  l.*1 ++ channels p ++ channels r ⊆+ channels (pending s) ++ channels (replies s) →
  (sh_receiver (se_shared s) = false → p = ∅) →
  session_ok s'.
Proof. intros ->. apply ok_retable. Qed.

Ltac sess_eq s :=
  destruct s as [? ? ? [] [] []];
  unfold retable, send_answers, set_pending, on_replies, on_trace, on_engine, on_shared;
  cbn; rewrite ?app_nil_r; reflexivity.

Lemma size_delete_le k (m : gmap string (N * Instant)) : size (delete k m) ≤ size m.
Proof. apply map_subseteq_size, delete_subseteq. Qed.

Lemma ok_replies f s : session_ok s → channels (f (replies s)) ⊆+ channels (replies s) →
  size (f (replies s)) ≤ size (replies s) → session_ok (on_replies f s).
Proof.
  intros H C L. apply (ok_as_retable (pending s) (f (replies s)) [] s); try done.
  - sess_eq s.
  - apply H.
  - etrans; [exact L|apply H].
  - cbn. by apply submseteq_skips_l.
  - intros R. by apply (ok_stopped _ H).
Qed.

Lemma ok_replies_delete k s : session_ok s → session_ok (on_replies (delete k) s).
Proof. intros H. apply ok_replies; [done|apply channels_delete_sub|apply size_delete_le]. Qed.

Lemma queue_room {A} (q : list A) x n : (n <=? length q) = false → length (q ++ [x]) ≤ n.
Proof. intros H%Nat.leb_gt. rewrite length_app. cbn. lia. Qed.

Lemma ok_push_control f d s : session_ok s → is_frame f →
  (sl_control_queue (se_limits s) <=? length (control_q s)) = false →
  session_ok (set_control_q (control_q s ++ [mkQueuedFrame f d]) s).
Proof.
  intros H F L. apply ok_control_q; [done|by apply queue_room|]. apply Forall_app. split.
  - destruct H as [_ [_ Q] _ _ _]. by apply Forall_app in Q as [Q _].
  - by constructor.
Qed.

Lemma ok_push_data f d s : session_ok s → is_frame f →
  (sl_data_queue (se_limits s) <=? length (data_q s)) = false →
  session_ok (set_data_q (data_q s ++ [mkQueuedFrame f d]) s).
Proof.
  intros H F L. apply ok_data_q; [done|by apply queue_room|]. apply Forall_app. split.
  - destruct H as [_ [_ Q] _ _ _]. by apply Forall_app in Q as [_ Q].
  - by constructor.
Qed.

(** A slot leaves the callers' table: answered, or taken over by the engine. *)
Lemma ok_answer_reply k tx t e s : session_ok s → replies s !! k = Some (tx, t) →
  session_ok (send_answers [(tx, e)] (on_replies (delete k) s)).
Proof.
  intros H E. apply (ok_as_retable (pending s) (delete k (replies s)) [(tx, e)] s); try done.
  - sess_eq s.
  - apply H.
  - etrans; [apply size_delete_le|apply H].
  - cbn. rewrite (channels_delete _ _ _ E). cbn. rewrite Permutation_middle. done.
  - intros R. by apply (ok_stopped _ H).
Qed.

Lemma ok_take_reply k tx t t' s : session_ok s → replies s !! k = Some (tx, t) →
  sh_receiver (se_shared s) = true → (sl_max_pending (se_limits s) <=? size (pending s)) = false →
  session_ok (set_pending (<[k := (tx, t')]> (pending s)) (on_replies (delete k) s)).
Proof.
  intros H E R L. apply (ok_as_retable (<[k := (tx, t')]> (pending s)) (delete k (replies s)) [] s); try done.
  - sess_eq s.
  - apply Nat.leb_gt in L. rewrite map_size_insert. destruct (pending s !! k); cbn; lia.
  - etrans; [apply size_delete_le|apply H].
  - cbn. rewrite (channels_delete _ _ _ E). cbn. rewrite <- Permutation_middle.
    apply (submseteq_app _ (tx :: channels (pending s)) _ _); [apply (channels_insert_sub _ _ (tx, t'))|done].
  - congruence.
Qed.

Lemma ok_drain_one now cmd s : session_ok s → sh_receiver (se_shared s) = true →
  is_frame (command_frame cmd) → session_ok (drain_one now cmd s).
Proof.
  intros H R F. destruct cmd as [f|f|rid f timeout]; cbn [drain_one command_frame] in *.
  - case_match; [by apply ok_info|by apply ok_push_control].
  - case_match; [by apply ok_info|by apply ok_push_data].
  - destruct (replies s !! rid) as [[tx t]|] eqn:E; [|by apply ok_replies_delete].
    cbn [se_limits se_engine on_replies on_shared]. destruct (_ <=? size (pending s)) eqn:L1.
    { by eapply ok_answer_reply. }
    destruct (_ <=? length (control_q s)) eqn:L2.
    { apply (ok_info _ (send_answers _ (on_replies _ s))); [done|]. by eapply ok_answer_reply. }
    apply (ok_push_control f _ (set_pending _ (on_replies _ s))); [|done|done].
    by eapply ok_take_reply.
Qed.

Lemma ok_expire now s : session_ok s → session_ok (expire_pending now s).
Proof.
  intros H. unfold expire_pending. apply ok_replies; [|apply channels_retain_sub|apply size_retain_le].
  apply ok_info; [done|].
  apply (ok_as_retable (retain (λ k v, negb (expired now k v)) (pending s)) (replies s)
    (answer_all "outcome-unknown" (retain (expired now) (pending s))) s); try done.
  - sess_eq s.
  - etrans; [apply size_retain_le|apply H].
  - apply H.
  - rewrite answer_all_channels, app_assoc. apply submseteq_skips_r. by rewrite channels_retain.
  - intros R. destruct (ok_stopped _ H R) as (_ & _ & ->). done.
Qed.

Lemma ok_heartbeat_due now id s : session_ok s → session_ok (heartbeat_due to_vec now id s).
Proof.
  intros H. unfold heartbeat_due. case_match; [done|].
  destruct (encode_frame to_vec _ _) as [f|] eqn:E; [|by apply ok_heartbeat].
  destruct (_ <? _) eqn:L; [|by apply ok_heartbeat].
  apply (ok_push_control f _ (set_heartbeat now s)); [by apply ok_heartbeat|by eexists _, _|].
  apply Nat.leb_gt. by apply Nat.ltb_lt in L.
Qed.

Lemma ok_set_state st s : session_ok s → session_ok (set_state st s).
Proof. apply ok_info. intros i E. by rewrite bool_decide_eq_true_2. Qed.

Lemma ok_note_inbound now s : session_ok s → session_ok (note_inbound now s).
Proof. apply ok_info. intros i E. cbn. by rewrite E. Qed.

Lemma ok_pump p s : session_ok s → session_ok (pump_reads from_str p s).2.
Proof.
  intros H. unfold pump_reads.
  assert (R : ∀ eof, session_ok (match pu_packets p with
    | Some e => (Err e, set_reading (en_assembler (se_engine s)) eof s)
    | None =>
        let '(raws, r, a) := take_chunks (sl_max_frame (se_limits s)) (drain_cap (sl_max_frame (se_limits s)))
           0 (pu_reads p) (pu_read_error p) (en_assembler (se_engine s)) [] in
        let '(out, malformed) := decode_all from_str raws in
        let s := count_malformed malformed (set_reading a eof (set_reading (en_assembler (se_engine s)) eof s)) in
        match r with
        | Err e => (Err e, if bool_decide (e ∈ ["frame too large"; "assembler stall"]) then poison s else s)
        | Ok _ => if eof && bool_decide (out = []) then
                    (Err (if is_empty a then "clean-eof" else "truncated frame"), s)
                  else (Ok out, s)
        end
    end).2).
  { intros eof. destruct (pu_packets p); [by apply ok_reading|].
    destruct (take_chunks _ _ _ _ _ _ _) as [[raws r] a]. destruct (decode_all from_str raws) as [out n].
    assert (K : session_ok (count_malformed n
      (set_reading a eof (set_reading (en_assembler (se_engine s)) eof s)))).
    { apply ok_info; [done|]. by apply ok_reading, ok_reading. }
    destruct r; cbn zeta; (case_match; cbn; [|done]); [done|by apply ok_poison]. }
  destruct (pu_complete p); [apply R|apply R|done].
Qed.

Lemma ok_serve env s : session_ok s → session_ok (serve env s).
Proof.
  intros H. unfold serve. case_match; [by apply ok_info|]. case_match; [|done].
  by apply ok_trace_other.
Qed.

Lemma ok_dispatch now env s : session_ok s → session_ok (dispatch now env s).
Proof.
  intros H. apply (ok_note_inbound now) in H. unfold dispatch. set (z := note_inbound now s) in *.
  destruct (get_str "request_id" env) as [rid|]; [|by apply ok_serve].
  destruct (pending z !! rid) as [[tx t]|] eqn:E.
  - apply (ok_as_retable (delete rid (pending z)) (replies z) [(tx, Ok env)] z); try done.
    + etrans; [apply size_delete_le|apply H].
    + apply H.
    + cbn [fmap list_fmap fst app]. by rewrite (channels_delete _ _ _ E).
    + intros R. destruct (ok_stopped _ H R) as (_ & _ & P). rewrite P in E. by rewrite lookup_empty in E.
  - destruct (multi z !! rid); [by apply ok_trace_other|].
    case_match; [by apply ok_info|by apply ok_serve].
Qed.

(** *** Writing *)

Lemma flush_loop_fed frame end_now rounds fed n r :
  fed ≤ length (qf_bytes frame) → flush_loop frame end_now rounds fed = (n, r) →
  n ≤ length (qf_bytes frame) ∧ (r = FlushOk → n = length (qf_bytes frame)).
Proof.
  revert fed. induction rounds as [|rd rounds IH]; intros fed L; cbn [flush_loop]; [by intros [= <- <-]|].
  destruct (_ <=? fl_now rd)%N; [by intros [= <- <-]|].
  set (wrote := if fed <? length (qf_bytes frame) then _ else _).
  assert (W : ∀ x, wrote = Some x → x ≤ length (qf_bytes frame)).
  { subst wrote. clear IH. intros x E. destruct (fed <? _) eqn:B; [|simplify_eq; lia].
    apply Nat.ltb_lt in B. destruct (fl_write rd) as [[|k]|]; [destruct (fl_wants_write rd)|..];
      simplify_eq; lia. }
  destruct wrote as [x|]; [|by intros [= <- <-]]. specialize (W x eq_refl).
  destruct (x =? _) eqn:X; cbn [andb].
  - apply Nat.eqb_eq in X. destruct (fl_wants_write rd); cbn [negb].
    + destruct (fl_drive rd); [by apply IH|by intros [= <- <-]].
    + by intros [= <- <-].
  - destruct (fl_drive rd); [by apply IH|by intros [= <- <-]].
Qed.

Lemma wire_frame w f : wire_ok w false → is_frame f → wire_ok (w ++ f) false.
Proof.
  intros (fs & p & g & -> & F & P & [->|[_ ?]]) I; [|done].
  exists (fs ++ [f]), [], []. rewrite concat_app. cbn. rewrite !app_nil_r.
  split_and!; [done|by apply Forall_app; split; [|constructor]|done|by left].
Qed.

Lemma wire_cut w f n : wire_ok w false → is_frame f → wire_ok (w ++ take n f) true.
Proof.
  intros (fs & p & g & -> & F & P & [->|[_ ?]]) I; [|done].
  exists fs, (take n f), f. rewrite app_nil_r. split_and!; [done..| |by right].
  apply prefix_take.
Qed.

(** Feeding a frame whole, or cutting it and shutting the socket down. *)
Lemma ok_feed f s : session_ok s → is_frame f → tr_poisoned (se_trace s) = false →
  session_ok (feed_wire f s).
Proof.
  intros [B Fr W O S] F P. split; try done; cbn.
  rewrite P in W |- *. by apply wire_frame.
Qed.

Lemma ok_cut f n s : session_ok s → is_frame f → tr_poisoned (se_trace s) = false →
  session_ok (poison (feed_wire (take n f) s)).
Proof.
  intros [B Fr W O S] F P. split; try done; cbn.
  - rewrite P in W. by apply wire_cut.
  - intros R. by apply S in R as (? & _ & ?).
Qed.

Lemma ok_flush now rounds end_now s r s' : session_ok s → tr_poisoned (se_trace s) = false →
  flush_one now rounds end_now s = (r, s') → r ≠ FlushBlocked → session_ok s'.
Proof.
  intros H P E N. unfold flush_one in E. pose proof (ok_frames _ H) as [_ Q].
  apply Forall_app in Q as [Q1 Q2].
  set (ctl := negb (bool_decide (control_q s = []))) in *.
  destruct (if ctl then control_q s else data_q s) as [|f q] eqn:Eq; [by simplify_eq|].
  assert (K : session_ok (if ctl then set_control_q q s else set_data_q q s) ∧ is_frame (qf_bytes f) ∧
    tr_poisoned (se_trace (if ctl then set_control_q q s else set_data_q q s)) = false).
  { pose proof (ok_bounds _ H) as (_ & L1 & L2 & _). destruct ctl; rewrite Eq in *; cbn [length] in *.
    - apply Forall_cons in Q1 as [? ?]. split; [apply ok_control_q; [done|lia|done]|done].
    - apply Forall_cons in Q2 as [? ?]. split; [apply ok_data_q; [done|lia|done]|done]. }
  destruct K as (K & F & P'). set (z := if ctl then _ else _) in *.
  destruct (_ <=? now)%N; [simplify_eq; by apply ok_info|].
  destruct (flush_loop f end_now rounds 0) as [fed r'] eqn:L.
  apply flush_loop_fed in L as [L1 L2]; [|lia]. injection E as <- <-. destruct r'; [|by apply ok_cut|done].
  rewrite L2, take_ge by done. by apply ok_feed.
Qed.

(** *** Detaching *)

Lemma detach_facts reason s :
  session_state (detach reason s) = Detached ∧ tr_poisoned (se_trace (detach reason s)) = true ∧
  pending (detach reason s) = ∅ ∧ replies (detach reason s) = ∅ ∧
  tr_wire (se_trace (detach reason s)) = tr_wire (se_trace s).
Proof. done. Qed.

Lemma ok_stop reason s : session_ok s → session_ok (drop_receiver (detach reason s)).
Proof.
  intros H. apply ok_poison in H.
  destruct H as [(B1 & B2 & B3 & B4 & B5 & B6) Fr W O S]. split; try done.
  - cbn. repeat split; try done; rewrite ?map_size_empty; lia.
  - unfold all_channels. cbn. rewrite !fmap_app, !answer_all_channels, <- !app_assoc.
    unfold channels at 3 4. rewrite map_to_list_empty. cbn. by rewrite app_nil_r.
Qed.

(** *** Callers *)

Lemma ok_try_send cmd refused s : session_ok s → is_frame (command_frame cmd) →
  session_ok (try_send cmd refused s).2.
Proof.
  intros H F. unfold try_send.
  destruct (negb _ || _) eqn:L; [done|]. apply orb_false_iff in L as [_ L]. cbn.
  apply ok_commands; [done|by apply queue_room|]. apply Forall_app. split; [apply H|by constructor].
Qed.

Lemma ok_send_cmd cmd refused s : session_ok s → is_frame (command_frame cmd) →
  session_ok (send_cmd cmd refused s).2.
Proof.
  intros H F. unfold send_cmd. destruct (send_closed s); [done|]. by apply ok_try_send.
Qed.

Lemma ok_register chan rid timeout now s : session_ok s → chan ∉ all_channels s →
  session_ok (request_register chan rid timeout now s).2.
Proof.
  intros H N. unfold request_register. destruct (_ <=? _) eqn:L; [done|].
  destruct (replies s !! rid) eqn:E; [done|]. cbn.
  destruct H as [(B1 & B2 & B3 & B4 & B5 & B6) Fr W O S]. split; try done; cbn.
  - repeat split; try done. rewrite map_size_insert_None by done. apply Nat.leb_gt in L. lia.
  - eapply NoDup_sub; [|apply NoDup_cons; split; [exact N|exact O]]. unfold all_channels. cbn.
    rewrite Permutation_middle. apply submseteq_skips_l. rewrite Permutation_middle.
    apply submseteq_skips_l. apply (channels_insert_sub _ _ (chan, now + timeout)%N).
Qed.

Lemma ok_subscribe rid chan s : session_ok s → session_ok (subscribe_answers rid chan s).2.
Proof.
  intros H. unfold subscribe_answers. destruct (_ <=? _) eqn:L; [done|].
  destruct (multi s !! rid) eqn:E; [done|]. cbn.
  destruct H as [(B1 & B2 & B3 & B4 & B5 & B6) Fr W O S]. split; try done; cbn.
  repeat split; try done. rewrite map_size_insert_None by done. apply Nat.leb_gt in L. lia.
Qed.

Lemma ok_unsubscribe rid s : session_ok s → session_ok (unsubscribe_answers rid s).
Proof.
  intros [(B1 & B2 & B3 & B4 & B5 & B6) Fr W O S]. split; try done; cbn. repeat split; try done.
  etrans; [apply map_subseteq_size, delete_subseteq|done].
Qed.

Lemma ok_submit env rid timeout s : session_ok s → session_ok (request_submit to_vec env rid timeout s).2.
Proof.
  intros H. unfold request_submit. destruct (encode_frame to_vec env _) as [f|] eqn:E; [|done].
  pose proof (ok_send_cmd (CRequest rid f timeout) "resource-exhausted" s H ltac:(by eexists _, _)) as K.
  destruct (send_cmd _ _ s) as [[]z]; cbn in *; [done|]. apply ok_info; [done|]. by apply ok_replies_delete.
Qed.

Lemma ok_control env s : session_ok s → session_ok (send_control to_vec env s).2.
Proof.
  intros H. unfold send_control. destruct (encode_frame to_vec env _) as [f|] eqn:E; [|done].
  pose proof (ok_send_cmd (CControl f) "resource-exhausted" s H ltac:(by eexists _, _)) as K.
  destruct (send_cmd _ _ s) as [[]z]; cbn in *; [done|]. case_match; [by apply ok_info|done].
Qed.

Lemma ok_data env s : session_ok s → session_ok (send_data to_vec env s).2.
Proof.
  intros H. unfold send_data. destruct (encode_frame to_vec env _) as [f|] eqn:E; [|done].
  pose proof (ok_send_cmd (CData f) "resource-exhausted" s H ltac:(by eexists _, _)) as K.
  destruct (send_cmd _ _ s) as [[]z]; cbn in *; [done|]. case_match; [by apply ok_info|done].
Qed.

Lemma ok_flags f s : (∀ h, sh_commands (f h) = sh_commands h ∧ sh_receiver (f h) = sh_receiver h ∧
    sh_replies (f h) = sh_replies h ∧ sh_multi (f h) = sh_multi h ∧ sh_info (f h) = sh_info h) →
  session_ok s → session_ok (on_shared f s).
Proof.
  intros F [B Fr W O S]. destruct (F (se_shared s)) as (E1 & E2 & E3 & E4 & E5).
  split; unfold all_channels, session_state; cbn; by rewrite ?E1, ?E2, ?E3, ?E4, ?E5.
Qed.

(** ** Every interleaving *)

Lemma engine_step_ok s s' : session_ok s → running s → engine_step s s' → session_ok s'.
Proof.
  intros H [R P]. destruct 1 as [now cmd l s E|now s|now id s|now s s' E|p s r s' E|now env s
    |now rounds end_now s r s' E N|n env max frame s E].
  - pose proof (ok_frames _ H) as [F _]. pose proof (ok_bounds _ H) as [L _].
    rewrite E in F, L. apply Forall_cons in F as [F1 F2]. cbn in L.
    apply ok_drain_one; [|done|done]. apply ok_commands; [done|lia|done].
  - by apply ok_expire.
  - by apply ok_heartbeat_due.
  - unfold check_timers in E. repeat case_match; simplify_eq; [by apply ok_set_state|done].
  - pose proof (ok_pump p s H) as K. by rewrite E in K.
  - by apply ok_dispatch.
  - by eapply ok_flush.
  - apply ok_cut; [done|by eexists _, _|done].
Qed.

Lemma sess_step_ok s s' : session_ok s → sess_step s s' → session_ok s'.
Proof.
  intros H. destruct 1; eauto using engine_step_ok, ok_stop, ok_register, ok_submit, ok_replies_delete,
    ok_subscribe, ok_unsubscribe, ok_control, ok_data, ok_info.
  - apply ok_try_send; [done|]. subst. by eexists _, _.
  - by apply ok_flags.
  - by apply ok_flags.
Qed.

Lemma spawn_ok limits id peer now : session_ok (spawn limits id peer now).
Proof.
  split; cbn.
  - rewrite !map_size_empty. lia.
  - by split.
  - exists [], [], []. by split_and!; [..|left].
  - unfold all_channels, channels. cbn. rewrite map_to_list_empty. constructor.
  - done.
Qed.

(** ** A turn of the engine is a sequence of steps *)

(** The operation leaves the socket and the receiver alone. *)
Definition keeps (s s' : Sess) : Prop :=
  sh_receiver (se_shared s') = sh_receiver (se_shared s) ∧
  tr_poisoned (se_trace s') = tr_poisoned (se_trace s).

Lemma keeps_running s s' : keeps s s' → running s → running s'.
Proof. intros [E1 E2] [R P]. split; congruence. Qed.

Lemma keeps_drain_one now cmd s : keeps s (drain_one now cmd s).
Proof. destruct cmd; cbn [drain_one]; repeat case_match; done. Qed.

Lemma keeps_heartbeat now id s : keeps s (heartbeat_due to_vec now id s).
Proof. unfold heartbeat_due. repeat case_match; done. Qed.

Lemma keeps_dispatch now env s : keeps s (dispatch now env s).
Proof. unfold dispatch, serve. repeat case_match; done. Qed.

Lemma keeps_timers now s s' : check_timers now s = (true, s') → keeps s s'.
Proof. unfold check_timers. intros E. repeat case_match; simplify_eq; done. Qed.

Lemma keeps_pump p s r s' : pump_reads from_str p s = (r, s') →
  sh_receiver (se_shared s') = sh_receiver (se_shared s) ∧ (is_ok r = true → keeps s s').
Proof.
  unfold pump_reads. intros E. destruct (pu_complete p); [..|by simplify_eq].
  all: destruct (pu_packets p); [by simplify_eq|].
  all: destruct (take_chunks _ _ _ _ _ _ _) as [[raws r'] a], (decode_all from_str raws) as [out n].
  all: destruct r'; [case_match; by simplify_eq|]; case_match; by simplify_eq.
Qed.

Lemma keeps_flush now rounds end_now s r s' : flush_one now rounds end_now s = (r, s') →
  sh_receiver (se_shared s') = sh_receiver (se_shared s) ∧ (r = FlushOk → keeps s s').
Proof.
  unfold flush_one. intros E. destruct (if negb _ then _ else _) as [|f q]; [by simplify_eq|].
  destruct (_ <=? now)%N; [simplify_eq; by case_match|]. destruct (flush_loop f end_now rounds 0) as [fed r'].
  destruct r'; simplify_eq; by case_match.
Qed.

Lemma set_commands_drain l now cmd s :
  set_commands l (drain_one now cmd s) = drain_one now cmd (set_commands l s).
Proof. destruct cmd; cbn; repeat case_match; done. Qed.

Lemma engine_ones s s' : running s → engine_step s s' → rtc sess_step s s'.
Proof. intros R E. apply rtc_once. by apply ss_engine. Qed.

Lemma drain_steps now l s : running s → commands s = l →
  rtc sess_step s (foldl (λ s cmd, drain_one now cmd s) (set_commands [] s) l) ∧
  running (foldl (λ s cmd, drain_one now cmd s) (set_commands [] s) l).
Proof.
  revert s. induction l as [|cmd l IH]; intros s R E; cbn [foldl].
  { replace (set_commands [] s) with s; [by split|]. rewrite <- E. by destruct s as [? ? ? []]. }
  assert (R' : running (drain_one now cmd (set_commands l s)))
    by (by eapply keeps_running; [apply keeps_drain_one|]).
  destruct (IH (drain_one now cmd (set_commands l s)) R') as [S Rn].
  { destruct cmd; cbn; repeat case_match; done. }
  rewrite set_commands_drain in S, Rn. split; [|exact Rn].
  etrans; [|exact S]. apply engine_ones; [done|]. by apply es_commands.
Qed.

Lemma dispatch_steps now frames s : running s →
  rtc sess_step s (foldl (λ s f, dispatch now f s) s frames) ∧
  running (foldl (λ s f, dispatch now f s) s frames).
Proof.
  revert s. induction frames as [|f frames IH]; intros s R; cbn [foldl]; [by split|].
  assert (R' : running (dispatch now f s)) by (by eapply keeps_running; [apply keeps_dispatch|]).
  destruct (IH _ R') as [S Rn]. split; [|done]. etrans; [|exact S]. apply engine_ones; [done|constructor].
Qed.

Lemma stop_step reason s : sh_receiver (se_shared s) = true →
  rtc sess_step s (drop_receiver (detach reason s)).
Proof. intros R. apply rtc_once. by constructor. Qed.

(** Reading, answering and writing, once the timers are checked. *)
Definition after_poll (t : TurnScript) (s : Sess) : Turn * Sess :=
  match pump_reads from_str (tu_pump t) s with
  | (Err e, s) =>
      stop (if bool_decide (e = "clean-eof") then "peer closed" else "transport error: " +:+ e) s
  | (Ok frames, s) =>
      let s := foldl (λ s f, dispatch (tu_read_now t) f s) s frames in
      let '(r, s) :=
        if bool_decide (control_q s = []) && bool_decide (data_q s = []) then (FlushOk, s)
        else flush_one (tu_read_now t) (tu_flush t) (tu_flush_end t) s in
      match r with
      | FlushErr => stop "frame deadline exceeded" s
      | FlushBlocked => (Blocked, s)
      | FlushOk => (Running, expire_pending (tu_flush_end t) s)
      end
  end.

Lemma after_poll_steps t s r s' : running s → after_poll t s = (r, s') → r ≠ Blocked →
  rtc sess_step s s'.
Proof.
  intros R E N. unfold after_poll in E. destruct (pump_reads from_str (tu_pump t) s) as [rp s1] eqn:Ep.
  pose proof (keeps_pump _ _ _ _ Ep) as [K1 K2].
  assert (S1 : rtc sess_step s s1) by (apply engine_ones; [done|by eapply es_pump]).
  destruct rp as [frames|e].
  2:{ unfold stop in E. simplify_eq. etrans; [exact S1|]. apply stop_step. rewrite K1. apply R. }
  assert (R1 : running s1) by (eapply keeps_running; [by apply K2|done]).
  destruct (dispatch_steps (tu_read_now t) frames s1 R1) as [S2 R2].
  set (s2 := foldl _ s1 frames) in *. etrans; [exact S1|]. etrans; [exact S2|]. clearbody s2.
  destruct (if _ && _ then _ else _) as [rf s3] eqn:Ef.
  assert (F : rf ≠ FlushBlocked → rtc sess_step s2 s3 ∧ sh_receiver (se_shared s3) = true ∧
    (rf = FlushOk → running s3)).
  { intros Nf. destruct (_ && _); [by simplify_eq; split_and!; [|apply R2|]|].
    pose proof (keeps_flush _ _ _ _ _ _ Ef) as [K3 K4]. split_and!.
    - apply engine_ones; [done|]. by eapply es_flush.
    - rewrite K3. apply R2.
    - intros ->. eapply keeps_running; [by apply K4|done]. }
  destruct rf; [|..].
  - destruct F as (S3 & _ & R3); [done|]. simplify_eq. etrans; [exact S3|].
    apply engine_ones; [auto|constructor].
  - destruct F as (S3 & R3 & _); [done|]. unfold stop in E. simplify_eq. etrans; [exact S3|]. by apply stop_step.
  - simplify_eq.
Qed.

Lemma engine_turn_steps t s r s' : running s → engine_turn to_vec from_str t s = (r, s') → r ≠ Blocked →
  rtc sess_step s s'.
Proof.
  intros R E N. unfold engine_turn in E. destruct (sh_shutdown (se_shared s)).
  { unfold stop in E. destruct (encode_frame to_vec _ _) as [f|] eqn:Ef; simplify_eq; [|by apply stop_step; apply R].
    etrans; [apply engine_ones; [done|exact (es_close (tu_close_fed t) _ _ f s Ef)]|].
    exact (stop_step "session detached" (poison (feed_wire (take (tu_close_fed t) f) s)) (proj1 R)). }
  destruct (drain_steps (tu_now t) _ s R eq_refl) as [S1 R1]. unfold drain_commands in E.
  set (s1 := foldl _ _ (commands s)) in *. etrans; [exact S1|]. clearbody s1.
  assert (R2 : running (expire_pending (tu_now t) s1)) by done.
  etrans; [apply engine_ones; [exact R1|apply (es_expire (tu_now t))]|].
  assert (R3 : running (heartbeat_due to_vec (tu_now t) (tu_message_id t) (expire_pending (tu_now t) s1)))
    by (eapply keeps_running; [apply keeps_heartbeat|exact R2]).
  etrans; [apply engine_ones; [exact R2|apply (es_heartbeat (tu_now t) (tu_message_id t))]|].
  set (s3 := heartbeat_due _ _ _ _) in *. clearbody s3.
  destruct (check_timers (tu_now t) s3) as [go s4] eqn:Et. destruct go; cbn [negb] in E.
  - etrans; [apply engine_ones; [exact R3|by eapply es_timers]|].
    assert (R4 : running s4) by (eapply keeps_running; [by eapply keeps_timers|done]).
    destruct (tu_poll_error t); [unfold stop in E; simplify_eq; apply stop_step; apply R4|].
    by eapply after_poll_steps.
  - unfold check_timers in Et. repeat case_match; simplify_eq. apply stop_step. apply R3.
Qed.

(** ** The theorems *)

(** C6: In every state reachable by any interleaving of callers and engine, every
    queue and table is within its limit; every single-shot channel is answered at
    most once; what was written to the connection is a sequence of complete frames,
    followed by a truncated one only if the socket was shut down; and a stopped
    engine has left no request behind. *)
Theorem session_invariant limits id peer now s :
  rtc sess_step (spawn limits id peer now) s → session_ok s.
Proof.
  intros R. remember (spawn limits id peer now) as s0 eqn:E.
  assert (H : session_ok s0) by (subst; apply spawn_ok). clear E.
  induction R as [s|s1 s2 s3 S _ IH]; [done|]. apply IH. by eapply sess_step_ok.
Qed.

Lemma step_final s s' : sess_step s s' →
  (tr_poisoned (se_trace s) = true →
     tr_poisoned (se_trace s') = true ∧ tr_wire (se_trace s') = tr_wire (se_trace s)) ∧
  (session_state s = Detached → session_state s' = Detached).
Proof.
  destruct 1 as [s s' [R P] E|reason s R|chan rid timeout now s|env rid timeout s|rid s|rid chan s|rid s
    |env s|env s|env max frame cmd refused s E1 E2|s|s|s|s].
  1:{ split; [congruence|]. intros D. destruct E as [now cmd l s E|now s|now id s|now s s' E|p s r s' E
        |now env s|now rounds end_now s r s' E _|n env max frame s E]; try done.
    - destruct cmd; cbn [drain_one]; repeat case_match; done.
    - unfold heartbeat_due. repeat case_match; done.
    - unfold check_timers in E. repeat case_match; simplify_eq; [|done]. unfold session_state in *. cbn.
      by rewrite D.
    - unfold pump_reads in E. destruct (pu_complete p); [..|by simplify_eq].
      all: destruct (pu_packets p); [by simplify_eq|].
      all: destruct (take_chunks _ _ _ _ _ _ _) as [[raws r'] a], (decode_all from_str raws) as [out k].
      all: destruct r'; [case_match; by simplify_eq|]; case_match; by simplify_eq.
    - unfold dispatch, serve, session_state in *. repeat case_match; cbn; by rewrite D.
    - unfold flush_one in E. destruct (if negb _ then _ else _) as [|f q]; [by simplify_eq|].
      destruct (_ <=? now)%N; [simplify_eq; by case_match|].
      destruct (flush_loop f end_now rounds 0) as [fed r']. destruct r'; simplify_eq; by case_match. }
  all: unfold request_register, request_submit, subscribe_answers, send_control, send_data, send_cmd, try_send;
    repeat case_match; simplify_eq/=; split; by try intros ->.
Qed.

(** Detachment is final: whatever callers and engine do afterwards, a detached
    session stays detached, and once the socket was shut down not another byte is
    written, so nothing is ever appended to a truncated frame. *)
Theorem detached_final s s' : rtc sess_step s s' →
  (tr_poisoned (se_trace s) = true →
     tr_poisoned (se_trace s') = true ∧ tr_wire (se_trace s') = tr_wire (se_trace s)) ∧
  (session_state s = Detached → session_state s' = Detached).
Proof.
  induction 1 as [s|s1 s2 s3 S _ [IH1 IH2]]; [done|]. apply step_final in S as [P D]. split; [|auto].
  intros [P' W]%P. apply IH1 in P' as [? W']. split; [done|congruence].
Qed.

(** No wait outlives its deadline: after the engine expires its requests, none
    that is due is left, in the engine or with a caller, every due request of the
    engine has been answered [outcome-unknown], and the others are untouched. *)
Theorem expire_complete now s k chan t :
  (pending (expire_pending now s) !! k = Some (chan, t) ↔ pending s !! k = Some (chan, t) ∧ (now < t)%N) ∧
  (replies (expire_pending now s) !! k = Some (chan, t) ↔ replies s !! k = Some (chan, t) ∧ (now < t)%N) ∧
  (pending s !! k = Some (chan, t) → (t ≤ now)%N →
   (chan, Err "outcome-unknown") ∈ tr_answers (se_trace (expire_pending now s))).
Proof.
  assert (X : ∀ m : gmap string (N * Instant),
    retain (λ k v, negb (expired now k v)) m !! k = Some (chan, t) ↔ m !! k = Some (chan, t) ∧ (now < t)%N).
  { intros m. rewrite lookup_retain_Some. unfold expired. cbn. by rewrite negb_true_iff, N.leb_gt. }
  split_and!; [apply X|apply X|]. intros E L. cbn. apply elem_of_app. right.
  unfold answer_all. apply list_elem_of_fmap. exists (chan, t). split; [done|].
  apply list_elem_of_fmap. exists (k, (chan, t)). split; [done|]. apply elem_of_map_to_list.
  apply lookup_retain_Some. split; [done|]. unfold expired. cbn. by apply N.leb_le.
Qed.

(** Queued data never delays queued control: as long as a control frame waits, the
    engine writes only the oldest control frame, within its deadline, and leaves the
    data queue as it is. *)
Theorem control_first now rounds end_now f q s r s' :
  control_q s = f :: q → flush_one now rounds end_now s = (r, s') →
  control_q s' = q ∧ data_q s' = data_q s ∧
  ∃ n, tr_wire (se_trace s') = tr_wire (se_trace s) ++ take n (qf_bytes f) ∧
    ((qf_deadline f ≤ now)%N → n = 0 ∧ r = FlushOk) ∧
    (r = FlushOk → (now < qf_deadline f)%N → n = length (qf_bytes f)).
Proof.
  intros C E. unfold flush_one in E. rewrite C in E. rewrite bool_decide_eq_false_2 in E by done.
  cbn [negb] in E. destruct (N.leb_spec (qf_deadline f) now) as [D|D].
  - simplify_eq. split; [done|]. split; [done|]. exists 0. rewrite take_0, app_nil_r.
    split_and!; [done|done|]. intros _ L. lia.
  - destruct (flush_loop f end_now rounds 0) as [fed r'] eqn:L.
    apply flush_loop_fed in L as [_ L]; [|lia].
    destruct r'; simplify_eq; (split; [done|]); (split; [done|]); exists fed; (split; [done|]);
      (split; [lia|]); by intros; auto.
Qed.
End props.

(** ** A wait that a late answer resolves *)

Definition toy_vec (v : Value) : bytes := chars "{}".
Definition toy_parse (b : bytes) : result Value string := Ok JNull.
Definition demo_limits : SessionLimits := mkSessionLimits 1024 4 4 4 4 100 100 100 100 100.
Definition demo_answer : Value := obj [("type", JString "call.result"); ("request_id", JString "r1")].

Definition demo_request (chan : N) (s : Sess) : Sess :=
  drain_commands 0 (request_submit toy_vec JNull "r1" 50 (request_register chan "r1" 50 0 s).2).2.
Definition demo_first : Sess := demo_request 1 (spawn demo_limits "s" "peer" 0).
Definition demo_second : Sess := demo_request 2 demo_first.

Lemma demo_request_steps chan s : running s → chan ∉ all_channels s →
  rtc (sess_step toy_vec toy_parse) s (demo_request chan s) ∧ running (demo_request chan s).
Proof.
  intros R F. unfold demo_request.
  set (s1 := (request_register chan "r1" 50 0 s).2).
  set (s2 := (request_submit toy_vec JNull "r1" 50 s1).2).
  assert (R1 : running s1) by (subst s1; unfold request_register; by repeat case_match).
  assert (R2 : running s2).
  { subst s2. unfold request_submit, send_cmd, try_send. by repeat case_match; simplify_eq/=. }
  destruct (drain_steps toy_vec toy_parse 0%N _ s2 R2 eq_refl) as [S Rn]. split; [|exact Rn].
  eapply rtc_l; [by apply (ss_register _ _ chan "r1" 50 0)|].
  eapply rtc_l; [by apply (ss_submit _ _ JNull "r1" 50)|]. exact S.
Qed.

(** The check for a duplicate request looks only at the slots the engine has not
    taken over. A second request with the id of one that is waiting for its answer is
    admitted, displaces it, and the answer to the first resolves the second; the
    first caller's channel is never answered. *)
Theorem duplicate_request_race :
  rtc (sess_step toy_vec toy_parse) (spawn demo_limits "s" "peer" 0) (dispatch 1 demo_answer demo_second) ∧
  pending demo_first !! "r1" = Some (1, 50)%N ∧
  (request_register 2 "r1" 50 0 demo_first).1 = Ok tt ∧
  tr_answers (se_trace (dispatch 1 demo_answer demo_second)) = [(2%N, Ok demo_answer)] ∧
  1%N ∉ all_channels (dispatch 1 demo_answer demo_second).
Proof.
  split_and!.
  - destruct (demo_request_steps 1 (spawn demo_limits "s" "peer" 0)) as [S1 R1];
      [done|apply (bool_decide_unpack _); by vm_compute|].
    destruct (demo_request_steps 2 demo_first) as [S2 R2]; [exact R1|apply (bool_decide_unpack _); by vm_compute|].
    etrans; [exact S1|]. etrans; [exact S2|]. apply engine_ones; [exact R2|apply es_dispatch].
  - by vm_compute.
  - by vm_compute.
  - by vm_compute.
  - apply (bool_decide_unpack _). by vm_compute.
Qed.

Lemma session_invariant_witness : session_ok toy_vec demo_first ∧ pending demo_first !! "r1" = Some (1, 50)%N.
Proof.
  split; [|by vm_compute]. apply (session_invariant toy_vec toy_parse demo_limits "s" "peer" 0).
  apply demo_request_steps; [done|apply (bool_decide_unpack _); by vm_compute].
Defined.

Definition demo_detached : Sess := drop_receiver (detach "peer closed" demo_first).

Lemma detached_final_witness :
  session_state (shutdown demo_detached) = Detached ∧
  tr_answers (se_trace demo_detached) = [(1%N, Err "peer closed")].
Proof.
  split; [|by vm_compute]. apply (detached_final toy_vec toy_parse demo_detached); [|by vm_compute].
  apply rtc_once, ss_shutdown.
Defined.

Definition demo_flush : Flush * Sess :=
  flush_one 0 [mkFlushRound 1 (Ok 4) true true; mkFlushRound 2 (Ok 9) false true] 3 demo_first.

Lemma control_first_witness :
  demo_flush.1 = FlushOk ∧ data_q demo_flush.2 = data_q demo_first ∧ control_q demo_flush.2 = [].
Proof.
  split; [by vm_compute|].
  destruct (control_first 0 [mkFlushRound 1 (Ok 4) true true; mkFlushRound 2 (Ok 9) false true] 3
    (mkQueuedFrame (write_frame (chars "{}")) 100) [] demo_first demo_flush.1 demo_flush.2)
    as (Q & D & _); [by vm_compute|by vm_compute|done].
Defined.
