(* ===== verification/TlsIo.v ===== *)
(** * Frames of the handshake over TLS ([TlsIo] of [matrix-runtime/src/session.rs])

    The socket does not block: every wait is a [poll] bounded by what is left until an absolute
    deadline. rustls, [poll] and the clock answer from scripts, one entry per turn of a loop, and the
    scripts are arbitrary; a script that ends leaves the call waiting ([None]). *)

From S2P Require Import Prelude RustStd Json Wire Frame Assembler Scan Envelope Remote Session.
From Stdlib Require Import Ascii.

(** [io_poisoned]: the socket was shut down. *)
Record TlsIo : Type := mkTlsIo {
  io_assembler : Assembler;
  io_stash : list Value;
  io_tcp_eof : bool;
  io_poisoned : bool;
}.

Definition tls_new : TlsIo := mkTlsIo assembler_default [] false false.

Definition set_io_assembler (a : Assembler) (io : TlsIo) : TlsIo :=
  mkTlsIo a (io_stash io) (io_tcp_eof io) (io_poisoned io).
Definition set_io_stash (l : list Value) (io : TlsIo) : TlsIo :=
  mkTlsIo (io_assembler io) l (io_tcp_eof io) (io_poisoned io).
Definition set_io_eof (b : bool) (io : TlsIo) : TlsIo := mkTlsIo (io_assembler io) (io_stash io) b (io_poisoned io).
Definition poison_tls (io : TlsIo) : TlsIo := mkTlsIo (io_assembler io) (io_stash io) (io_tcp_eof io) true.

(** ** Waiting *)

Inductive TlsPoll : Type :=
| PollNone                           (* 0: the time is over *)
| PollInterrupted
| PollError (e : string)
| PollReady (wanted failed : bool).  (* [revents] has one of the events; has one of the errors *)

Definition i32_max : N := 2147483647.

(** The timeout of a [poll], from the clock. *)
Definition poll_ms (deadline now : Instant) : N := N.min (saturating_sub deadline now) i32_max.

(** The clock and the answer of each turn. *)
Fixpoint poll_until (deadline : Instant) (s : list (Instant * TlsPoll)) : option (result bool string) :=
  match s with
  | [] => None
  | (now, a) :: s =>
      if (deadline <=? now)%N then Some (Ok false)
      else
        match a with
        | PollNone => Some (Ok false)
        | PollInterrupted => poll_until deadline s
        | PollError e => Some (Err e)
        | PollReady wanted failed => Some (if failed && negb wanted then Err "peer closed" else Ok true)
        end
  end.

(** One turn of [drive]: [done] before and after [complete_io], the clock, what rustls wants, and
    the wait. *)
Record DriveTurn : Type := mkDriveTurn {
  dt_done : bool;
  dt_now : Instant;
  dt_complete : option string;       (* an error other than [WouldBlock] *)
  dt_done_after : bool;
  dt_wants : bool;                   (* [wants_write] or [wants_read] *)
  dt_poll : list (Instant * TlsPoll);
}.

Fixpoint drive (deadline : Instant) (turns : list DriveTurn) : option (result unit string) :=
  match turns with
  | [] => None
  | t :: turns =>
      if dt_done t then Some (Ok tt)
      else if (deadline <=? dt_now t)%N then Some (Err "timeout")
      else
        match dt_complete t with
        | Some e => Some (Err e)
        | None =>
            if dt_done_after t then Some (Ok tt)
            else if negb (dt_wants t) then Some (Ok tt)
            else
              match poll_until deadline (dt_poll t) with
              | None => None
              | Some (Err e) => Some (Err e)
              | Some (Ok false) => Some (Err "timeout")
              | Some (Ok true) => drive deadline turns
              end
        end
  end.

(** [TlsIo::connect]: a handshake that fails shuts the socket down. *)
Definition tls_connect (now budget : Instant) (turns : list DriveTurn) : option (result unit string * TlsIo) :=
  match drive (now + budget) turns with
  | None => None
  | Some (Ok _) => Some (Ok tt, tls_new)
  | Some (Err e) => Some (Err e, poison_tls tls_new)
  end.

(** ** Sending *)

Section tls.
Context (to_vec : Value → bytes) (from_str : bytes → result Value string).

(** [written]: the error of the buffered write; [finished]: the clock after the flush. *)
Definition send_frame (env : Value) (max_frame now budget : N) (written : option string)
    (turns : list DriveTurn) (finished : Instant) (io : TlsIo) : option (result unit string * TlsIo) :=
  match encode (to_vec env) max_frame with
  | Err e => Some (Err (frame_error_display e), io)
  | Ok _ =>
      let deadline := (now + budget)%N in
      match written with
      | Some e => Some (Err e, io)
      | None =>
          match drive deadline turns with
          | None => None
          | Some (Ok _) => if (deadline <=? finished)%N then Some (Err "timeout", poison_tls io) else Some (Ok tt, io)
          | Some (Err e) => Some (Err e, poison_tls io)
          end
      end
  end.

(** ** Receiving *)

(** The complete frames of the assembler, decoded into the stash; whether any was taken. A frame is
    taken at most once before the assembler is empty, so two turns are enough. *)
Fixpoint stash_frames (fuel : nat) (took : bool) (io : TlsIo) : result bool string * TlsIo :=
  match fuel with
  | O => (Ok took, io)
  | S fuel =>
      match take_frame (io_assembler io) with
      | (Err e, a) => (Err e, poison_tls (set_io_assembler a io))
      | (Ok None, a) => (Ok took, set_io_assembler a io)
      | (Ok (Some raw), a) =>
          match decode_frame from_str raw with
          | Ok v => stash_frames fuel true (set_io_stash (io_stash io ++ [v]) (set_io_assembler a io))
          | Err e => (Err e, poison_tls (set_io_assembler a io))
          end
      end
  end.

(** Feed and take in turns over one chunk. *)
Fixpoint stash_chunk (fuel : nat) (max_frame : N) (rest : bytes) (io : TlsIo) : result unit string * TlsIo :=
  match fuel with
  | O => (Ok tt, io)
  | S fuel =>
      match feed max_frame rest (io_assembler io) with
      | (Err _, a) => (Err "frame too large", poison_tls (set_io_assembler a io))
      | (Ok rest, a) =>
          match stash_frames 2 false (set_io_assembler a io) with
          | (Err e, io) => (Err e, io)
          | (Ok took, io) =>
              if bool_decide (rest = []) then (Ok tt, io)
              else if negb took then (Err "assembler stall", poison_tls io)
              else stash_chunk fuel max_frame rest io
          end
      end
  end.

(** The reads of decrypted bytes of one turn. *)
Fixpoint stash_chunks (max_frame : N) (chunks : list bytes) (read_error : option string) (io : TlsIo)
    : result unit string * TlsIo :=
  match chunks with
  | [] => (match read_error with Some e => Err e | None => Ok tt end, io)
  | c :: chunks =>
      match stash_chunk (S (length c)) max_frame c io with
      | (Err e, io) => (Err e, io)
      | (Ok _, io) => stash_chunks max_frame chunks read_error io
      end
  end.

(** One turn: the clock, [complete_io], [process_new_packets], the reads, the wait. *)
Record RecvTurn : Type := mkRecvTurn {
  rv_now : Instant;
  rv_pump : PumpScript;
  rv_poll : list (Instant * TlsPoll);
}.

(** What one turn does before it waits: an answer, or what to do next. *)
Inductive RecvStep : Type := RvAnswer (r : result (option Value) string) | RvAgain | RvWait.

(** What is there already: the stash, then a complete frame, then the end of the stream. *)
Definition recv_ready (io : TlsIo) : option (result (option Value) string) * TlsIo :=
  match io_stash io with
  | v :: stash => (Some (Ok (Some v)), set_io_stash stash io)
  | [] =>
      match take_frame (io_assembler io) with
      | (Err e, a) => (Some (Err e), set_io_assembler a io)
      | (Ok (Some raw), a) =>
          (Some (let? v := decode_frame from_str raw in Ok (Some v)), set_io_assembler a io)
      | (Ok None, a) =>
          (if io_tcp_eof io then Some (Ok None) else None, set_io_assembler a io)
      end
  end.

Definition recv_read (max_frame : N) (p : PumpScript) (io : TlsIo) : RecvStep * TlsIo :=
  match pu_complete p with
  | IoError e => (RvAnswer (Err e), io)
  | c =>
      let io := match c with IoEof => set_io_eof true io | _ => io end in
      match pu_packets p with
      | Some e => (RvAnswer (Err e), io)
      | None =>
          match stash_chunks max_frame (pu_reads p) (pu_read_error p) io with
          | (Err e, io) => (RvAnswer (Err e), io)
          | (Ok _, io) =>
              if has_frame (io_assembler io) || negb (bool_decide (length (io_stash io) = 0)) then (RvAgain, io)
              else if io_tcp_eof io then
                (RvAnswer (if is_empty (io_assembler io) then Ok None else Err "truncated frame"), io)
              else (RvWait, io)
          end
      end
  end.

(** The answer and the turns that are left; [None], when the script ends. *)
Fixpoint recv_loop (max_frame deadline : N) (turns : list RecvTurn) (io : TlsIo)
    : option (result (option Value) string * TlsIo * list RecvTurn) :=
  match recv_ready io with
  | (Some r, io) => Some (r, io, turns)
  | (None, io) =>
      match turns with
      | [] => None
      | t :: turns =>
          if (deadline <=? rv_now t)%N then Some (Err "timeout", io, turns)
          else
            match recv_read max_frame (rv_pump t) io with
            | (RvAnswer r, io) => Some (r, io, turns)
            | (RvAgain, io) => recv_loop max_frame deadline turns io
            | (RvWait, io) =>
                match poll_until deadline (rv_poll t) with
                | None => None
                | Some (Err e) => Some (Err e, io, turns)
                | Some (Ok false) => Some (Err "timeout", io, turns)
                | Some (Ok true) => recv_loop max_frame deadline turns io
                end
            end
      end
  end.

Definition recv_frame (max_frame now budget : N) (turns : list RecvTurn) (io : TlsIo)
    : option (result (option Value) string * TlsIo * list RecvTurn) :=
  recv_loop max_frame (now + budget) turns io.
End tls.

(** ** What is received *)

Section props.
Context (from_str : bytes → result Value string) (max_frame : N).

Definition decoded (raw : bytes) : option Value :=
  match decode_frame from_str raw with Ok v => Some v | Err _ => None end.

Fixpoint decoded_all (raws : list bytes) : option (list Value) :=
  match raws with
  | [] => Some []
  | raw :: raws => v ← decoded raw; vs ← decoded_all raws; Some (v :: vs)
  end.

Lemma decoded_all_app l1 l2 :
  decoded_all (l1 ++ l2) = (v1 ← decoded_all l1; v2 ← decoded_all l2; Some (v1 ++ v2)).
Proof.
  induction l1 as [|r l1 IH]; cbn; [by destruct (decoded_all l2)|]. destruct (decoded r) as [v|]; cbn; [|done].
  rewrite IH. destruct (decoded_all l1) as [vs|]; cbn; [|done]. by destruct (decoded_all l2).
Qed.

Lemma set_assembler_same io : set_io_assembler (io_assembler io) io = io.
Proof. by destruct io. Qed.

Lemma stash_frames_waiting io took :
  waiting max_frame (io_assembler io) → stash_frames from_str 2 took io = (Ok took, io).
Proof. intros W. cbn. by rewrite (take_frame_waiting max_frame), set_assembler_same. Qed.

Lemma stash_frames_complete p io :
  complete p (io_assembler io) →
  match decoded p with
  | Some v => ∃ a', stash_frames from_str 2 false io =
      (Ok true, set_io_stash (io_stash io ++ [v]) (set_io_assembler a' io)) ∧ waiting max_frame a' ∧ held a' = []
  | None => is_ok (stash_frames from_str 2 false io).1 = false
  end.
Proof.
  intros (Hh & Hp & Hb). unfold decoded.
  assert (T : take_frame (io_assembler io) = (Ok (Some p), mkAssembler (as_header (io_assembler io)) 0 None [])).
  { unfold take_frame, has_frame. rewrite Hp, Hb. cbn [is_some_and]. rewrite N.leb_refl. cbn. by rewrite N.eqb_refl. }
  cbn [stash_frames]. rewrite T. destruct (decode_frame from_str p) as [v|e]; [|done].
  eexists. split; [reflexivity|]. split; [|done]. split; [done|]. cbn. split; [lia|done].
Qed.

(** One chunk: the frames it completes, in order, and what is left. *)
Lemma stash_chunk_spec fuel c io :
  waiting max_frame (io_assembler io) → length c < fuel →
  match deframe max_frame (held (io_assembler io) ++ c) with
  | (fs, Some s) =>
      match decoded_all fs with
      | Some vs => ∃ a', stash_chunk from_str fuel max_frame c io =
          (Ok tt, set_io_stash (io_stash io ++ vs) (set_io_assembler a' io)) ∧ waiting max_frame a' ∧ held a' = s
      | None => is_ok (stash_chunk from_str fuel max_frame c io).1 = false
      end
  | (_, None) => is_ok (stash_chunk from_str fuel max_frame c io).1 = false
  end.
Proof.
  revert c io. induction fuel as [|fuel IH]; intros c io W L; [lia|].
  pose proof (feed_spec max_frame c _ W) as F. cbn [stash_chunk]. rewrite deframe_head.
  destruct (head max_frame (held (io_assembler io) ++ c)) as [| |p r] eqn:H.
  - destruct (feed max_frame c (io_assembler io)) as [[|] ?]; done.
  - destruct F as (a' & -> & W' & H'). cbn [decoded_all]. rewrite stash_frames_waiting by done. cbn.
    exists a'. rewrite app_nil_r. by destruct io.
  - destruct F as (a' & -> & C). pose proof (stash_frames_complete p (set_io_assembler a' io) C) as S.
    assert (R : length r < length c) by exact (head_consumes max_frame _ c p r W H).
    cbn [decoded_all]. destruct (decoded p) as [v|]; cbn [mbind option_bind].
    + destruct S as (a2 & -> & W2 & H2). cbn [io_stash set_io_assembler io_assembler] in *.
      set (io2 := set_io_stash (io_stash io ++ [v]) (set_io_assembler a2 (set_io_assembler a' io))).
      assert (E2 : deframe max_frame r = deframe max_frame (held (io_assembler io2) ++ r)) by (cbn; by rewrite H2).
      specialize (IH r io2 W2 ltac:(lia)). rewrite <- E2 in IH.
      case_bool_decide as E.
      * subst r. cbn. exists a2. by destruct io.
      * cbn [negb]. destruct (deframe max_frame r) as [fs [s|]]; cbn [fst snd] in *; [|done].
        destruct (decoded_all fs) as [vs|]; cbn [mbind option_bind]; [|done]. destruct IH as (a3 & -> & W3 & H3). exists a3.
        cbn. rewrite <- app_assoc. by destruct io.
    + destruct (stash_frames from_str 2 false _) as [[|] io2]; [done|]. cbn in S |- *.
      destruct (deframe max_frame r) as [fs [s|]]; done.
Qed.

(** The stash and the assembler after the bytes [bs]: the frames they complete were added. *)
Definition absorbed (bs : bytes) (io io' : TlsIo) : Prop :=
  ∃ fs vs, deframe max_frame (held (io_assembler io) ++ bs) = (fs, Some (held (io_assembler io'))) ∧
    decoded_all fs = Some vs ∧ io_stash io' = io_stash io ++ vs ∧ waiting max_frame (io_assembler io').

Lemma absorbed_nil io io' :
  waiting max_frame (io_assembler io) → io_assembler io' = io_assembler io → io_stash io' = io_stash io →
  absorbed [] io io'.
Proof.
  intros W A S. exists [], []. rewrite !app_nil_r, A, S, deframe_head, (waiting_head _ _ W). done.
Qed.

Lemma absorbed_app b1 b2 io io1 io2 : absorbed b1 io io1 → absorbed b2 io1 io2 → absorbed (b1 ++ b2) io io2.
Proof.
  intros (fs & vs & D & V & S & _) (fs2 & vs2 & D2 & V2 & S2 & W2). exists (fs ++ fs2), (vs ++ vs2).
  rewrite app_assoc, deframe_app, D, D2. cbn. rewrite decoded_all_app, V, V2. cbn. split_and!; try done.
  by rewrite S2, S, app_assoc.
Qed.

Lemma stash_chunks_ok chunks err io io' :
  waiting max_frame (io_assembler io) → stash_chunks from_str max_frame chunks err io = (Ok tt, io') →
  absorbed (concat chunks) io io' ∧ io_tcp_eof io' = io_tcp_eof io.
Proof.
  revert io. induction chunks as [|c chunks IH]; intros io W; cbn [stash_chunks concat].
  { destruct err; [done|]. intros [= <-]. split; [by apply absorbed_nil|done]. }
  pose proof (stash_chunk_spec (S (length c)) c io W ltac:(lia)) as P.
  destruct (deframe max_frame (held (io_assembler io) ++ c)) as [fs [s|]] eqn:D;
    [|by destruct (stash_chunk _ _ _ _ _) as [[]]].
  destruct (decoded_all fs) as [vs|] eqn:V; [|by destruct (stash_chunk _ _ _ _ _) as [[]]].
  destruct P as (a' & -> & W' & H'). intros R. apply IH in R as [A Eo]; [|done]. split; [|done].
  eapply absorbed_app; [|exact A]. exists fs, vs. cbn. by rewrite H'.
Qed.

Lemma recv_ready_waiting io :
  waiting max_frame (io_assembler io) →
  recv_ready from_str io =
  match io_stash io with
  | v :: stash => (Some (Ok (Some v)), set_io_stash stash io)
  | [] => (if io_tcp_eof io then Some (Ok None) else None, io)
  end.
Proof.
  intros W. unfold recv_ready. destruct (io_stash io); [|done].
  by rewrite (take_frame_waiting max_frame), set_assembler_same.
Qed.

Definition turn_bytes (t : RecvTurn) : bytes := concat (pu_reads (rv_pump t)).

Lemma recv_read_ok p io r io' :
  waiting max_frame (io_assembler io) → recv_read from_str max_frame p io = (r, io') →
  match r with
  | RvAnswer (Err _) => True
  | RvAnswer (Ok (Some _)) => False
  | _ => absorbed (concat (pu_reads p)) io io'
  end.
Proof.
  intros W. unfold recv_read.
  assert (G : ∀ io1, io_assembler io1 = io_assembler io → io_stash io1 = io_stash io →
    ∀ io2, stash_chunks from_str max_frame (pu_reads p) (pu_read_error p) io1 = (Ok tt, io2) →
    absorbed (concat (pu_reads p)) io io2).
  { intros io1 A S io2 R. apply stash_chunks_ok in R as [R _]; [|by rewrite A].
    unfold absorbed in *. by rewrite A, S in R. }
  destruct (pu_complete p); [| |intros [= <- <-]; done]; (destruct (pu_packets p); [by intros [= <- <-]|]).
  all: destruct (stash_chunks _ _ _ _ _) as [[[]|e] io2] eqn:R; [|by intros [= <- <-]].
  all: apply G in R; [|done..]; destruct (_ || _); [by intros [= <- <-]|]; destruct (io_tcp_eof io2);
    [|by intros [= <- <-]]; intros [= <- <-]; by destruct (is_empty _).
Qed.

(** An end of the stream is answered with nothing in the stash. *)
Lemma recv_read_empty p io r io' :
  recv_read from_str max_frame p io = (RvAnswer (Ok r), io') → io_stash io' = [].
Proof.
  unfold recv_read. intros H.
  destruct (pu_complete p); [| |done]; (destruct (pu_packets p); [done|]);
    destruct (stash_chunks _ _ _ _ _) as [[[]|e] io2]; try done;
    destruct (has_frame _ || negb _) eqn:B; try done; apply orb_false_iff in B as [_ B];
    apply negb_false_iff, bool_decide_eq_true, nil_length_inv in B; destruct (io_tcp_eof io2); by simplify_eq.
Qed.

(** What a receive says of its bytes, after more bytes before them. *)
Definition received (bs : bytes) (io : TlsIo) (r : result (option Value) string) (io' : TlsIo) : Prop :=
  match r with
  | Ok (Some v) => ∃ io1, absorbed bs io io1 ∧ io_stash io1 = v :: io_stash io' ∧ io_assembler io' = io_assembler io1
  | Ok None => absorbed bs io io' ∧ io_stash io' = []
  | Err _ => True
  end.

Lemma received_after b1 b2 io io1 r io' : absorbed b1 io io1 → received b2 io1 r io' → received (b1 ++ b2) io r io'.
Proof.
  intros A. destruct r as [[v|]|e]; cbn; [| |done].
  - intros (io2 & B & C & D). exists io2. split_and!; [|done..]. by eapply absorbed_app.
  - intros [B C]. split; [by eapply absorbed_app|done].
Qed.

Lemma absorbed_waiting bs io io' : absorbed bs io io' → waiting max_frame (io_assembler io').
Proof. by intros (? & ? & _ & _ & _ & W). Qed.

Lemma received_here io r io' :
  waiting max_frame (io_assembler io) → recv_ready from_str io = (Some r, io') → received [] io r io'.
Proof.
  intros W. rewrite (recv_ready_waiting io W). destruct (io_stash io) as [|v st] eqn:S.
  - destruct (io_tcp_eof io); [|done]. intros [= <- <-]. split; [by apply absorbed_nil|done].
  - intros [= <- <-]. exists io. split_and!; [by apply absorbed_nil|done|done].
Qed.

Lemma recv_loop_exact deadline turns io r io' rest :
  waiting max_frame (io_assembler io) → recv_loop from_str max_frame deadline turns io = Some (r, io', rest) →
  ∃ used, turns = used ++ rest ∧ received (concat (turn_bytes <$> used)) io r io'.
Proof.
  revert io. induction turns as [|t turns IH]; intros io W; cbn [recv_loop].
  all: destruct (recv_ready from_str io) as [[r0|] io0] eqn:Rr;
    [intros [= <- <- <-]; exists []; split; [done|by apply received_here]|].
  { done. }
  assert (io0 = io) as ->.
  { rewrite (recv_ready_waiting io W) in Rr. destruct (io_stash io); [|done]. by destruct (io_tcp_eof io); simplify_eq. }
  destruct (deadline <=? rv_now t)%N; [intros [= <- <- <-]; by exists [t]|].
  destruct (recv_read from_str max_frame (rv_pump t) io) as [step io1] eqn:R.
  pose proof (recv_read_ok _ _ _ _ W R) as Rd.
  assert (Go : absorbed (turn_bytes t) io io1 → recv_loop from_str max_frame deadline turns io1 = Some (r, io', rest) →
    ∃ used, t :: turns = used ++ rest ∧ received (concat (turn_bytes <$> used)) io r io').
  { intros A H. apply IH in H as (used & -> & M); [|by eapply absorbed_waiting]. exists (t :: used).
    split; [done|]. cbn. by eapply received_after. }
  destruct step as [[[v|]|e]| |]; [done| | |by apply Go|].
  - intros [= <- <- <-]. exists [t]. split; [done|]. cbn. rewrite app_nil_r. split; [done|]. by eapply recv_read_empty.
  - intros [= <- <- <-]. by exists [t].
  - destruct (poll_until deadline (rv_poll t)) as [[[|]|e]|]; [by apply Go|intros [= <- <- <-]; by exists [t]..|done].
Qed.

(** Successive receives, each with its start and budget, that all give a value. *)
Fixpoint recv_all (calls : list (N * N)) (turns : list RecvTurn) (io : TlsIo) : option (list Value * TlsIo * list RecvTurn) :=
  match calls with
  | [] => Some ([], io, turns)
  | (now, budget) :: calls =>
      match recv_frame from_str max_frame now budget turns io with
      | Some (Ok (Some v), io, turns) =>
          '(vs, io, turns) ← recv_all calls turns io; Some (v :: vs, io, turns)
      | _ => None
      end
  end.

Lemma absorbed_behind v bs io1 io io2 :
  io_assembler io = io_assembler io1 → io_stash io1 = v :: io_stash io → absorbed bs io io2 →
  absorbed bs io1 (set_io_stash (v :: io_stash io2) io2).
Proof.
  intros A S (fs & vs & D & V & St & W). exists fs, vs. cbn. rewrite <- A, S, St. by split_and!.
Qed.

Lemma recv_all_absorbed calls turns io vs io' rest :
  waiting max_frame (io_assembler io) → recv_all calls turns io = Some (vs, io', rest) →
  ∃ used io1, turns = used ++ rest ∧ absorbed (concat (turn_bytes <$> used)) io io1 ∧
    io_stash io1 = vs ++ io_stash io' ∧ io_assembler io' = io_assembler io1.
Proof.
  revert turns io vs. induction calls as [|[now budget] calls IH]; intros turns io vs W; cbn [recv_all].
  { intros [= <- <- <-]. exists [], io. split_and!; [done| |done..]. by apply absorbed_nil. }
  destruct (recv_frame from_str max_frame now budget turns io) as [[[[[v|]|e] io1] turns1]|] eqn:R; try done.
  destruct (recv_all calls turns1 io1) as [[[vs1 io2] turns2]|] eqn:R2; [|done]. cbn. intros [= <- <- <-].
  apply recv_loop_exact in R as (used & -> & io3 & A & S & As); [|done].
  pose proof (absorbed_waiting _ _ _ A) as W3. rewrite <- As in W3.
  destruct (IH _ _ _ W3 R2) as (used2 & io4 & -> & A2 & S2 & As2).
  exists (used ++ used2), (set_io_stash (v :: io_stash io4) io4). rewrite app_assoc, fmap_app, concat_app.
  split_and!; [done| |cbn; by rewrite S2|done].
  eapply absorbed_app; [exact A|]. by apply (absorbed_behind _ _ _ io1).
Qed.

(** Frames of the handshake are received exactly. However TLS cuts the bytes, and over however
    many receives: the values received, followed by those read ahead, are the decoded frames of all
    the bytes read so far, each once and in order, and the assembler holds the incomplete frame that
    is left. Nothing read ahead in one receive is lost to the next. *)
Theorem recv_exact calls turns io vs io' rest :
  waiting max_frame (io_assembler io) → io_stash io = [] → recv_all calls turns io = Some (vs, io', rest) →
  ∃ used fs, turns = used ++ rest ∧
    deframe max_frame (held (io_assembler io) ++ concat (turn_bytes <$> used)) = (fs, Some (held (io_assembler io'))) ∧
    decoded_all fs = Some (vs ++ io_stash io').
Proof.
  intros W S R. destruct (recv_all_absorbed _ _ _ _ _ _ W R) as (used & io1 & -> & (fs & us & D & V & St & _) & S1 & A).
  exists used, fs. split_and!; [done|by rewrite A|]. rewrite V, <- S1, St, S. done.
Qed.

(** An end of the stream inside a frame is an error only in the receive that reads it: once the end is
    known and nothing is stashed, a receive answers a clean end, whatever the assembler holds. *)
Lemma known_end_is_clean now budget turns io :
  waiting max_frame (io_assembler io) → io_stash io = [] → io_tcp_eof io = true →
  recv_frame from_str max_frame now budget turns io = Some (Ok None, io, turns).
Proof.
  intros W S Eo. unfold recv_frame. destruct turns; cbn [recv_loop]; by rewrite (recv_ready_waiting io W), S, Eo.
Qed.
End props.

(** A send that succeeds ended before its deadline; one that fails after the bytes were handed to TLS
    leaves a socket that is shut down. *)
Lemma send_frame_bounded to_vec env max_frame now budget written turns finished io r io' :
  send_frame to_vec env max_frame now budget written turns finished io = Some (r, io') →
  match r with
  | Ok _ => (finished < now + budget)%N ∧ io' = io
  | Err _ => io_poisoned io' = true ∨ io' = io ∧ (is_ok (encode (to_vec env) max_frame) = false ∨ is_Some written)
  end.
Proof.
  unfold send_frame. destruct (encode (to_vec env) max_frame); [|intros [= <- <-]; auto].
  destruct written; [intros [= <- <-]; eauto|]. destruct (drive _ turns) as [[u|e]|]; [|intros [= <- <-]; by left|done].
  destruct (N.leb_spec (now + budget) finished); intros [= <- <-]; [by left|done].
Qed.

(** ** One read with a frame, a part of another, and the end of the stream *)

Definition one_frame : bytes := to_be_bytes 1 ++ chars "1".
Definition demo_decode (raw : bytes) : result Value string := Ok (JString (of_chars raw)).

Definition eof_turn : RecvTurn :=
  mkRecvTurn 5 (mkPumpScript IoEof None [one_frame ++ take 2 one_frame] None) [].

(** Half a header is left. *)
Definition dirty_io : TlsIo := mkTlsIo (mkAssembler ["000"; "000"; "000"; "001"]%char 2 None []) [] true false.

(** The peer died inside a frame. The first receive gives the frame before it; the second answers a
    clean end of the stream, not [truncated frame], although half a header is in the assembler. *)
Theorem truncation_reads_clean :
  recv_frame demo_decode 1024 0 100 [eof_turn] tls_new = Some (Ok (Some (JString "1")), dirty_io, []) ∧
  is_empty (io_assembler dirty_io) = false ∧ recv_frame demo_decode 1024 0 100 [] dirty_io = Some (Ok None, dirty_io, []).
Proof. split_and!; vm_compute; reflexivity. Qed.

Lemma recv_exact_witness :
  decoded_all demo_decode [chars "1"] = Some [JString "1"] ∧
  ∃ used fs, [eof_turn] = used ++ [] ∧ decoded_all demo_decode fs = Some [JString "1"] ∧
    deframe 1024 (concat (turn_bytes <$> used)) = (fs, Some (take 2 one_frame)).
Proof.
  split; [by vm_compute|].
  destruct (recv_exact demo_decode 1024 [(0, 100)%N] [eof_turn] tls_new [JString "1"]
dirty_io [])
    as (used & fs & U & D & V); [apply waiting_default|done|vm_compute; reflexivity|].
  exists used, fs. split_and!; [exact U|exact V|exact D].
Defined.
