(* ===== verification/Base64.v ===== *)
(** * Base64 of the stream relay ([matrix-runtime/src/route_controller.rs])

    [b64_encode] and [b64_decode] over the bytes of a chunk, with the shifts and masks of
    the source. *)

From S2P Require Import Prelude RustStd Json Wire Dependency Remote.
From Stdlib Require Import Ascii.

Definition ALPH : bytes :=
  chars "ABCDEFGHIJKLMNOPQRSTUVWXYZabcdefghijklmnopqrstuvwxyz0123456789+/".

(** [ALPH[n as usize] as char], for [n] below 64. *)
Definition alph (n : N) : ascii := default "="%char (ALPH !! N.to_nat n).

(** The four sextets of three bytes. *)
Definition sextets (b0 b1 b2 : N) : N * N * N * N :=
  (N.land (N.shiftr b0 2) 63, N.land (N.lor (N.shiftl b0 4) (N.shiftr b1 4)) 63,
   N.land (N.lor (N.shiftl b1 2) (N.shiftr b2 6)) 63, N.land b2 63)%N.

Fixpoint b64_encode (l : bytes) : bytes :=
  match l with
  | [] => []
  | [a] =>
      let '(s0, s1, _, _) := sextets (N_of_ascii a) 0 0 in [alph s0; alph s1; "="%char; "="%char]
  | [a; b] =>
      let '(s0, s1, s2, _) := sextets (N_of_ascii a) (N_of_ascii b) 0 in
      [alph s0; alph s1; alph s2; "="%char]
  | a :: b :: c :: l =>
      let '(s0, s1, s2, s3) := sextets (N_of_ascii a) (N_of_ascii b) (N_of_ascii c) in
      alph s0 :: alph s1 :: alph s2 :: alph s3 :: b64_encode l
  end.

(** The value of a character and whether it is padding. *)
Definition b64_value (a : ascii) : option (N * bool) :=
  let n := N_of_ascii a in
  if (65 <=? n)%N && (n <=? 90)%N then Some (n - 65, false)%N
  else if (97 <=? n)%N && (n <=? 122)%N then Some (n - 97 + 26, false)%N
  else if (48 <=? n)%N && (n <=? 57)%N then Some (n - 48 + 52, false)%N
  else if bool_decide (a = "+"%char) then Some (62, false)%N
  else if bool_decide (a = "/"%char) then Some (63, false)%N
  else if bool_decide (a = "="%char) then Some (0, true)%N
  else None.

Definition pad_count (ps : list bool) : nat := length (List.filter id ps).

(** The bytes of four values; a [u8] drops what is shifted out. *)
Definition join_values (v0 v1 v2 v3 : N) (pad : nat) : bytes :=
  byte (N.lor (N.shiftl v0 2 mod 256) (N.shiftr v1 4)) ::
  (if pad <? 2 then [byte (N.lor (N.shiftl v1 4 mod 256) (N.shiftr v2 2))] else []) ++
  (if pad <? 1 then [byte (N.lor (N.shiftl v2 6 mod 256) v3)] else []).

Fixpoint b64_groups (s : bytes) : option bytes :=
  match s with
  | [] => Some []
  | a :: b :: c :: d :: s =>
      '(v0, p0) ← b64_value a; '(v1, p1) ← b64_value b;
      '(v2, p2) ← b64_value c; '(v3, p3) ← b64_value d;
      let pad := pad_count [p0; p1; p2; p3] in
      if (0 <? pad) && negb (bool_decide (s = [])) then None
      else if 2 <? pad then None
      else out ← b64_groups s; Some (join_values v0 v1 v2 v3 pad ++ out)
  | _ => None
  end.

Definition b64_decode (s : bytes) : option bytes :=
  if negb (length s mod 4 =? 0) then None else b64_groups s.

(** ** Sextets *)

Lemma lor_add x y k : (y < 2 ^ k)%N → N.lor (N.shiftl x k) y = (x * 2 ^ k + y)%N.
Proof.
  intros H. assert (D : N.land (N.shiftl x k) y = 0%N).
  { apply N.bits_inj. intros i. rewrite N.land_spec, N.bits_0. destruct (N.ltb_spec i k).
    - by rewrite N.shiftl_spec_low.
    - rewrite andb_false_iff. right. destruct (N.eq_dec y 0%N) as [->|Z]; [by rewrite N.bits_0|].
      apply N.bits_above_log2. apply (N.lt_le_trans _ k); [|done]. by apply N.log2_lt_pow2; lia. }
  rewrite <- N.lxor_lor, <- N.add_nocarry_lxor, N.shiftl_mul_pow2 by done. done.
Qed.

Lemma sextets_arith b0 b1 b2 : (b0 < 256 → b1 < 256 → b2 < 256 →
  sextets b0 b1 b2 = (b0 / 4, 16 * (b0 mod 4) + b1 / 16, 4 * (b1 mod 16) + b2 / 64, b2 mod 64))%N.
Proof.
  intros H0 H1 H2. unfold sextets. change 63%N with (N.ones 6).
  rewrite !N.land_ones, !N.shiftr_div_pow2. change (2 ^ 2)%N with 4%N. change (2 ^ 4)%N with 16%N.
  change (2 ^ 6)%N with 64%N.
  rewrite !lor_add by (change (2 ^ 4)%N with 16%N; change (2 ^ 2)%N with 4%N; zify;
    Z.to_euclidean_division_equations; lia).
  change (2 ^ 4)%N with 16%N. change (2 ^ 2)%N with 4%N.
  repeat f_equal; zify; Z.to_euclidean_division_equations; lia.
Qed.

(** A byte put together from its high part, kept by the [u8], and its low part. *)
Lemma join_byte a v k q y : (N.shiftl v k mod 256 = q * 2 ^ k → y < 2 ^ k →
  N_of_ascii a = q * 2 ^ k + y)%N → (N.shiftl v k mod 256 = q * 2 ^ k)%N → (y < 2 ^ k)%N →
  byte (N.lor (N.shiftl v k mod 256) y) = a.
Proof.
  intros E H1 H2. rewrite H1, <- N.shiftl_mul_pow2, lor_add by done. unfold byte.
  rewrite <- E by done. apply ascii_N_embedding.
Qed.

Ltac sextet_arith :=
  rewrite ?N.shiftl_mul_pow2, ?N.shiftr_div_pow2;
  change (2 ^ 2)%N with 4%N; change (2 ^ 4)%N with 16%N; change (2 ^ 6)%N with 64%N;
  zify; Z.to_euclidean_division_equations; lia.

Lemma join_sextets a b c pad :
  let '(s0, s1, s2, s3) := sextets (N_of_ascii a) (N_of_ascii b) (N_of_ascii c) in
  join_values s0 s1 s2 s3 pad =
  a :: (if pad <? 2 then [b] else []) ++ (if pad <? 1 then [c] else []).
Proof.
  pose proof (N_ascii_bounded a) as A. pose proof (N_ascii_bounded b) as B.
  pose proof (N_ascii_bounded c) as C. rewrite sextets_arith by done. unfold join_values.
  assert (E0 : byte (N.lor (N.shiftl (N_of_ascii a / 4) 2 mod 256)
    (N.shiftr (16 * (N_of_ascii a mod 4) + N_of_ascii b / 16) 4)) = a).
  { apply (join_byte a _ 2 (N_of_ascii a / 4)%N); [intros _ _|..]; sextet_arith. }
  assert (E1 : byte (N.lor (N.shiftl (16 * (N_of_ascii a mod 4) + N_of_ascii b / 16) 4 mod 256)
    (N.shiftr (4 * (N_of_ascii b mod 16) + N_of_ascii c / 64) 2)) = b).
  { apply (join_byte b _ 4 (N_of_ascii b / 16)%N); [intros _ _|..]; sextet_arith. }
  assert (E2 : byte (N.lor (N.shiftl (4 * (N_of_ascii b mod 16) + N_of_ascii c / 64) 6 mod 256)
    (N_of_ascii c mod 64)) = c).
  { apply (join_byte c _ 6 (N_of_ascii c / 64)%N); [intros _ _|..]; sextet_arith. }
  by rewrite E0, E1, E2.
Qed.

Lemma alph_value n : (n < 64)%N → b64_value (alph n) = Some (n, false) ∧ base64_char (alph n) = true.
Proof.
  intros H.
  assert (F : Forall (λ n, b64_value (alph n) = Some (n, false) ∧ base64_char (alph n) = true)
    (N.of_nat <$> seq 0 64)) by (cbn [seq fmap list_fmap]; repeat constructor).
  rewrite Forall_forall in F. apply F. apply list_elem_of_fmap. exists (N.to_nat n).
  rewrite N2Nat.id. split; [done|]. apply elem_of_seq. lia.
Qed.

Lemma sextets_bound b0 b1 b2 :
  let '(s0, s1, s2, s3) := sextets b0 b1 b2 in (s0 < 64 ∧ s1 < 64 ∧ s2 < 64 ∧ s3 < 64)%N.
Proof.
  unfold sextets. change 63%N with (N.ones 6). rewrite !N.land_ones.
  repeat split; apply N.mod_lt; done.
Qed.

(** Induction on the groups of three bytes. *)
Lemma triples_ind (P : bytes → Prop) :
  P [] → (∀ a, P [a]) → (∀ a b, P [a; b]) → (∀ a b c l, P l → P (a :: b :: c :: l)) → ∀ l, P l.
Proof.
  intros H0 H1 H2 H3 l. enough (P l ∧ (∀ a, P (a :: l)) ∧ ∀ a b, P (a :: b :: l)) by tauto.
  induction l as [|c l (I1 & I2 & I3)]; [by split_and!|]. split_and!; auto.
Qed.

Lemma b64_groups_encode l : b64_groups (b64_encode l) = Some l.
Proof.
  induction l as [|a|a b|a b c l IH] using triples_ind; [done|..].
  - cbn [b64_encode]. pose proof (join_sextets a (byte 0) (byte 0) 2) as J.
    pose proof (sextets_bound (N_of_ascii a) 0 0) as B. change (N_of_ascii (byte 0)) with 0%N in J.
    destruct (sextets _ 0 0) as [[[s0 s1] s2] s3] eqn:E. destruct B as (B0 & B1 & _ & _).
    assert (s2 = 0 ∧ s3 = 0)%N as [-> ->] by (unfold sextets in E; by simplify_eq).
    cbn [b64_groups]. rewrite (proj1 (alph_value s0 B0)), (proj1 (alph_value s1 B1)). cbn [mbind option_bind].
    change (b64_value "=") with (Some (0%N, true)). cbn [mbind option_bind].
    rewrite bool_decide_eq_true_2 by done. cbn. f_equal. exact J.
  - cbn [b64_encode]. pose proof (join_sextets a b (byte 0) 1) as J.
    pose proof (sextets_bound (N_of_ascii a) (N_of_ascii b) 0) as B. change (N_of_ascii (byte 0)) with 0%N in J.
    destruct (sextets _ _ 0) as [[[s0 s1] s2] s3] eqn:E. destruct B as (B0 & B1 & B2 & _).
    assert (s3 = 0)%N as -> by (unfold sextets in E; by simplify_eq).
    cbn [b64_groups]. rewrite (proj1 (alph_value s0 B0)), (proj1 (alph_value s1 B1)), (proj1 (alph_value s2 B2)).
    cbn [mbind option_bind]. change (b64_value "=") with (Some (0%N, true)). cbn [mbind option_bind].
    rewrite bool_decide_eq_true_2 by done. cbn. f_equal. exact J.
  - cbn [b64_encode]. pose proof (join_sextets a b c 0) as J.
    pose proof (sextets_bound (N_of_ascii a) (N_of_ascii b) (N_of_ascii c)) as B.
    destruct (sextets _ _ _) as [[[s0 s1] s2] s3]. destruct B as (B0 & B1 & B2 & B3).
    cbn [b64_groups]. rewrite (proj1 (alph_value s0 B0)), (proj1 (alph_value s1 B1)),
      (proj1 (alph_value s2 B2)), (proj1 (alph_value s3 B3)).
    cbn [mbind option_bind]. rewrite IH. cbn. f_equal.
    change (join_values s0 s1 s2 s3 0 ++ l = a :: b :: c :: l). by rewrite J.
Qed.

Lemma b64_encode_length l : length (b64_encode l) = 4 * ((length l + 2) / 3).
Proof.
  induction l as [|a|a b|a b c l IH] using triples_ind; [done..|].
  cbn [b64_encode]. destruct (sextets _ _ _) as [[[s0 s1] s2] s3]. cbn [length]. rewrite IH.
  replace (S (S (S (length l))) + 2) with (length l + 2 + 1 * 3) by lia.
  rewrite Nat.div_add by lia. lia.
Qed.

Lemma b64_encode_chars l : Forall (λ a, base64_char a = true) (b64_encode l).
Proof.
  induction l as [|a|a b|a b c l IH] using triples_ind; [by constructor|..]; cbn [b64_encode];
    match goal with |- context [sextets ?x ?y ?z] => pose proof (sextets_bound x y z) as B end;
    destruct (sextets _ _ _) as [[[s0 s1] s2] s3]; destruct B as (B0 & B1 & B2 & B3);
    repeat constructor; try by apply alph_value. exact IH.
Qed.

(** What the relay encodes is decoded to the same bytes, and passes the check of the
    remote profile for stream payloads as long as it fits a frame. *)
Theorem b64_roundtrip l :
  b64_decode (b64_encode l) = Some l ∧
  ((N.of_nat (length l) ≤ MAX_FRAME)%N → check_base64 (of_chars (b64_encode l)) = true).
Proof.
  assert (M : length (b64_encode l) mod 4 = 0).
  { rewrite b64_encode_length, Nat.mul_comm. apply Nat.Div0.mod_mul. }
  split.
  - unfold b64_decode. rewrite M. apply b64_groups_encode.
  - intros L. unfold check_base64.
    assert (E : String.length (of_chars (b64_encode l)) = length (b64_encode l)).
    { rewrite <- (chars_of_chars (b64_encode l)) at 2.
      generalize (of_chars (b64_encode l)). intros s. induction s; cbn; congruence. }
    rewrite E. replace (_ <? _)%N with false.
    2:{ symmetry. apply N.ltb_ge. rewrite b64_encode_length. unfold MAX_FRAME in *.
        assert (B : 4 * ((length l + 2) / 3) ≤ N.to_nat (4 * (1024 * 1024 / 3 + 1))).
        { change (4 * (1024 * 1024 / 3 + 1))%N with (4 * 349526)%N. rewrite N2Nat.inj_mul.
          apply Nat.mul_le_mono_l, Nat.lt_succ_r, Nat.Div0.div_lt_upper_bound. lia. }
        lia. }
    apply andb_true_iff. split.
    + rewrite chars_of_chars, forallb_forall. intros x Hx. apply list_elem_of_In in Hx.
      pose proof (b64_encode_chars l) as F. rewrite Forall_forall in F. auto.
    + apply N.eqb_eq. change 4%N with (N.of_nat 4). rewrite <- Nat2N.inj_mod, M. done.
Qed.
