(* ===== verification/Inventory.v ===== *)
(** * The inventory report ([Kernel::inventory] of [matrix-core/src/kernel.rs])

    The report is built from one snapshot per table and, for every instance, one more look
    at the bindings and the resources: its parts are of different moments when other threads
    run. Routes send the active instances it lists to their peers. *)

From S2P Require Import Prelude RustStd Json Identity Contexts Resources Registry Deps Calls Manifest Prog.
From S2P Require Import KernelState KernelCalls KernelActions.

Definition j_opt_str (o : option string) : Value := j_opt (JString <$> o).

(** The text of a requirement. *)
Definition requirement_text (r : Requirement) : string :=
  match rq_provider r with
  | Some p => rq_interface r +:+ "@" +:+ p
  | None => rq_interface r
  end.

Definition binding_json (b : Binding) : Value :=
  obj [("interface", JString (bd_interface b)); ("provider", JString (bd_provider_logical b));
       ("instance", j_u64 (bd_provider_instance b)); ("generation", j_u64 (bd_provider_generation b))].

Definition dep_binding_json (b : DepBinding) : Value :=
  obj [("id", JString (db_id b)); ("interface", JString (db_interface b));
       ("capability", JString (db_capability b)); ("provider", JString (db_provider_logical b))].

(** The entry of one activation. *)
Definition instance_json (defs : gmap string StoredManifest) (bindings : gmap string (N * list Binding))
    (c : ContextRecord) : kprog Value :=
  let requires := default [] (option_map (λ d, List.map requirement_text (sm_requires d)) (defs !! cr_logical c)) in
  let bound := match bindings !! cr_logical c with
               | Some (inst, bs) => if (inst =? cr_instance c)%N then binding_json <$> bs else []
               | None => []
               end in
  let! deps := read (λ k, List.map dep_binding_json
                 (values_where (λ b, (db_consumer_instance b =? cr_instance c)%N) (k_dep_bindings k))) in
  let! active := read (λ k, active_for (cr_context c) (k_resources k)) in
  Ret (obj [("logical", JString (cr_logical c)); ("instance", j_u64 (cr_instance c));
            ("context", j_u64 (cr_context c)); ("generation", j_u64 (cr_generation c));
            ("epoch", j_u64 (cr_epoch c)); ("state", JString (fsm_as_str (cr_state c)));
            ("cause", j_opt_str (cr_cause c)); ("waiting_reason", j_opt_str (cr_cause c));
            ("requires", j_strs requires); ("bindings", JArray bound); ("dep_bindings", JArray deps);
            ("active_resources", j_u64 (N.of_nat active))]).

Definition resource_json (r : ResourceRecord) : Value :=
  obj [("handle", j_u64 (rr_handle r)); ("kind", JString (kind_name (rr_kind r)));
       ("label", JString (kind_label (rr_kind r))); ("owner", JString (rr_owner_logical r));
       ("instance", j_u64 (rr_owner_instance r)); ("context", j_u64 (rr_owner_context r));
       ("generation", j_u64 (rr_generation r));
       ("state", JString (match rr_state r with ResActive => "Active" | Released => "Released" end));
       ("seq", j_u64 (rr_seq r))].

Definition dep_child_json (d : DepChild) : Value :=
  obj [("parent", j_u64 (dc_parent d)); ("binding", JString (dc_binding d));
       ("consumer", j_u64 (dc_consumer d)); ("depth", j_u64 (dc_depth d));
       ("grant", obj [("consumer", JString (dc_grant_consumer d)); ("cap", JString (dc_grant_cap d));
                      ("rev", j_u64 (dc_grant_rev d))]);
       ("remote_peer", j_opt_str (dc_remote_peer d))].

Definition ticket_json (now : Instant) (t : TicketRecord) : Value :=
  obj [("ticket", j_u64 (tk_id t)); ("cap", JString (tk_cap t)); ("logical", JString (tk_logical t));
       ("instance", j_u64 (tk_instance t)); ("generation", j_u64 (tk_generation t));
       ("state", JString (ticket_state_as_str (tk_state t)));
       ("policy", JString (policy_as_str (on_withdraw (tk_policy t))));
       ("drain_ms", j_u64 (drain_ms (tk_policy t))); ("elapsed_ms", j_u64 (elapsed_ms now t));
       ("drain_left_ms", j_opt (j_u64 <$> drain_left_ms now t));
       ("pins", JArray (j_u64 <$> tk_pins t)); ("cancel_reason", j_opt_str (tk_cancel_reason t));
       ("dep", j_opt (dep_child_json <$> tk_dep t))].

Definition effect_json (e : CommittedEffect) : Value :=
  obj [("seq", j_u64 (ef_seq e)); ("ticket", j_u64 (ef_ticket e)); ("logical", JString (ef_logical e));
       ("instance", j_u64 (ef_instance e)); ("generation", j_u64 (ef_generation e));
       ("kind", JString (ef_kind e)); ("payload", ef_payload e)].

Definition definition_json (d : StoredManifest) : Value :=
  obj [("id", JString (sm_id d)); ("provides", j_strs (sm_caps d)); ("remote", JBool (sm_remote d));
       ("requires", JArray ((λ r, obj [("interface", JString (rq_interface r));
                                       ("provider", j_opt_str (rq_provider r))]) <$> sm_requires d))].

Definition remote_json (r : RemoteProvider) : Value :=
  obj [("logical", JString (rp_logical r)); ("instance", j_u64 (rp_instance r));
       ("generation", j_u64 (rp_generation r)); ("peer", JString (rp_peer r))].

Fixpoint map_prog {A B} (f : A → kprog B) (l : list A) : kprog (list B) :=
  match l with
  | [] => Ret []
  | x :: l => let! y := f x in let! ys := map_prog f l in Ret (y :: ys)
  end.

Definition inventory : kprog Value :=
  let! ctxs := read (λ k, ctx_snapshot (k_contexts k)) in
  let! res := read (λ k, res_inventory (k_resources k)) in
  let! defs := read k_definitions in
  let! bindings := read (λ k, fmap (M := gmap string) (λ p, (pl_instance_id p, pl_bindings p)) (k_plugins k)) in
  let! instances := map_prog (instance_json defs bindings) ctxs in
  let cycle := default [] (find_cycle (graph_edges (requires_of defs) (provides_of defs))) in
  let! calls := read (λ k, List.map (ticket_json (k_now k)) (calls_snapshot (k_calls k))) in
  let! effects := read (λ k, List.map effect_json (effects_for None (k_calls k))) in
  let definitions := List.map definition_json
    (merge_sort (λ a b, String.le (sm_id a) (sm_id b)) (map_to_list defs).*2) in
  let! remotes := read (λ k, List.map remote_json
    (merge_sort (λ a b, String.le (rp_logical a) (rp_logical b)) (map_to_list (k_remote_providers k)).*2)) in
  let! epoch := read (λ k, ct_epoch (k_contexts k)) in
  let! active := read (λ k, active_count (k_resources k)) in
  let! releases := read (λ k, total_releases (k_resources k)) in
  let! doubles := read (λ k, double_release_attempts (k_resources k)) in
  let! caps := read (λ k, reg_snapshot (k_caps k)) in
  Ret (obj [("epoch", j_u64 epoch); ("instances", JArray instances); ("definitions", JArray definitions);
            ("remotes", JArray remotes); ("cycle", j_strs cycle); ("calls", JArray calls);
            ("effects", JArray effects); ("resources", JArray (resource_json <$> res));
            ("active_resources", j_u64 (N.of_nat active)); ("total_releases", j_u64 releases);
            ("double_release_attempts", j_u64 doubles);
            ("capabilities", obj (List.map (λ kv, (kv.1, JString kv.2)) (map_to_list caps)))]).

(** ** The report *)

Lemma map_prog_reads {A B} (f : A → kprog B) l : (∀ x, always eq (f x)) → always eq (map_prog f l).
Proof.
  intros F. induction l as [|x l IH]; [done|]. cbn [map_prog]. apply always_bind; [apply F|]. intros y.
  apply always_bind; [apply IH|]. done.
Qed.

Lemma instance_json_reads defs bindings c : always eq (instance_json defs bindings c).
Proof. unfold instance_json. do 2 (apply always_bind; [by apply always_read|]; intros ?). done. Qed.

(** The report changes nothing, at any of its steps. *)
Lemma inventory_reads : always eq inventory.
Proof.
  unfold inventory. do 4 (apply always_bind; [by apply always_read|]; intros ?).
  apply always_bind; [apply map_prog_reads; intros c; apply instance_json_reads|]. intros ?.
  do 8 (apply always_bind; [by apply always_read|]; intros ?). done.
Qed.
