(* ===== verification/Service.v ===== *)
(** * The service: grants, leases and supervision ([matrix-runtime/src/service.rs])

    The state is the kernel, the store and what the lock [state] protects. A method that
    holds this lock is one action: the kernel's methods inside it run alone. [invoke] does
    not hold the lock across its call of the kernel and is a program of actions, in which
    the actions of the kernel are interleaved with those of other threads. [World] is what
    the outside answers to one call of a method: a fresh token, the errors of the database
    and of the file system, the processes and sessions of the host. *)

From S2P Require Import Prelude RustStd Json Identity Contexts Resources Deps Calls Journal Manifest Prog.
From S2P Require Import KernelState KernelCalls KernelLifecycle KernelDispatch KernelActions.
From S2P Require Import Dependency Remote Guard Store.
From Stdlib Require Import Ascii.

Record Grant : Type := mkGrant { g_components : gset string; g_capabilities : gset string }.

Record Lease : Type := mkLease {
  l_principal : string;
  l_logical : string;
  l_token : string;
  l_fence : N;
  l_deadline : Instant;
  l_owner : InstanceRef;
  l_external : bool;
  l_started : Instant;
  l_retry : option Instant;
  l_failed : bool;
  l_budget : RestartBudget;
  l_renew_seq : N;
}.

(** [Service]; [sv_ran] records the operations handed to the kernel, in order. *)
Record Svc : Type := mkSvc {
  sv_kernel : Kernel;
  sv_db : Db;
  sv_epoch : N;
  sv_home : string;
  sv_allowed : gset string;
  sv_leases : gmap string Lease;
  sv_grants : gmap string Grant;
  sv_revoked : gset string;
  sv_outbound : gset (string * string);
  sv_restart : gmap string RestartPolicy;
  sv_stopped : bool;
  sv_ran : list (string * string);
}.

Definition with_kernel (k : Kernel) (s : Svc) : Svc :=
  mkSvc k (sv_db s) (sv_epoch s) (sv_home s) (sv_allowed s) (sv_leases s) (sv_grants s) (sv_revoked s)
    (sv_outbound s) (sv_restart s) (sv_stopped s) (sv_ran s).
Definition with_db (d : Db) (s : Svc) : Svc :=
  mkSvc (sv_kernel s) d (sv_epoch s) (sv_home s) (sv_allowed s) (sv_leases s) (sv_grants s) (sv_revoked s)
    (sv_outbound s) (sv_restart s) (sv_stopped s) (sv_ran s).
Definition with_leases (l : gmap string Lease) (s : Svc) : Svc :=
  mkSvc (sv_kernel s) (sv_db s) (sv_epoch s) (sv_home s) (sv_allowed s) l (sv_grants s) (sv_revoked s)
    (sv_outbound s) (sv_restart s) (sv_stopped s) (sv_ran s).
Definition with_authority (g : gmap string Grant) (r : gset string) (s : Svc) : Svc :=
  mkSvc (sv_kernel s) (sv_db s) (sv_epoch s) (sv_home s) (sv_allowed s) (sv_leases s) g r
    (sv_outbound s) (sv_restart s) (sv_stopped s) (sv_ran s).
Definition with_outbound (o : gset (string * string)) (s : Svc) : Svc :=
  mkSvc (sv_kernel s) (sv_db s) (sv_epoch s) (sv_home s) (sv_allowed s) (sv_leases s) (sv_grants s)
    (sv_revoked s) o (sv_restart s) (sv_stopped s) (sv_ran s).
Definition with_stopped (s : Svc) : Svc :=
  mkSvc (sv_kernel s) (sv_db s) (sv_epoch s) (sv_home s) (sv_allowed s) (sv_leases s) (sv_grants s)
    (sv_revoked s) (sv_outbound s) (sv_restart s) true (sv_ran s).
Definition with_ran (l : list (string * string)) (s : Svc) : Svc :=
  mkSvc (sv_kernel s) (sv_db s) (sv_epoch s) (sv_home s) (sv_allowed s) (sv_leases s) (sv_grants s)
    (sv_revoked s) (sv_outbound s) (sv_restart s) (sv_stopped s) l.

#[export] Instance svc_clock : Clock Svc := {
  clock s := clock (sv_kernel s);
  advance n s := with_kernel (advance n (sv_kernel s)) s;
}.

Notation sprog := (prog Svc).

Record World : Type := mkWorld {
  w_token : result string string;            (* random_token *)
  w_db : string → string → option string;    (* the error of a transaction, by what and whom *)
  w_io : string → option string;             (* the error of writing a manifest file *)
  w_running : string → bool;                 (* Host::child_running *)
  w_session : string → N → bool;             (* Host::has_session *)
}.

(** A method's early return. *)
Notation "'do?' ( x , s ) ':=' e 'in' k" :=
  (match e with (Ok x, s) => k | (Err err, s) => (Err err, s) end)
  (at level 200, x pattern, s name, e at level 200, k at level 200, right associativity)
  : matrix_scope.

Definition now (s : Svc) : Instant := k_now (sv_kernel s).

(** [Kernel::instance_ref_of] and [Kernel::context_state_of]. *)
Definition instance_ref_of (logical : string) (k : Kernel) : option InstanceRef :=
  reference <$> current logical (k_contexts k).
Definition context_state_of (logical : string) (k : Kernel) : option string :=
  (λ r, fsm_as_str (cr_state r)) <$> current logical (k_contexts k).

(** [definitions.lock().get(logical).is_some_and(|d| d.caps.iter().any(|c| c == cap))] *)
Definition provides_cap (logical cap : string) (k : Kernel) : bool :=
  is_some_and (λ d, bool_decide (cap ∈ sm_caps d)) (k_definitions k !! logical).

(** A transaction of the store. *)
Definition on_db {A} (f : Db → result A string * Db) (s : Svc) : result A string * Svc :=
  let '(r, d) := f (sv_db s) in (r, with_db d s).

(** A method of the kernel, run alone. *)
Definition on_kernel {A} (p : kprog A) (s : Svc) : A * Svc :=
  let '(a, k) := run p (sv_kernel s) in (a, with_kernel k s).

(** The actions of a kernel program as actions of the service. *)
Fixpoint lift {A} (p : kprog A) : sprog A :=
  match p with
  | Ret a => Ret a
  | Act f k => Act (λ s, let '(x, k') := f (sv_kernel s) in (x, with_kernel k' s)) (λ x, lift (k x))
  | Wait c u k => Wait (λ s, c (sv_kernel s)) u (λ b, lift (k b))
  end.

Definition range_ttl (ttl_ms : N) : bool := (100 <=? ttl_ms)%N && (ttl_ms <=? 30000)%N.

Definition any_lease (f : Lease → bool) (s : Svc) : bool :=
  existsb (λ kl, f kl.2) (map_to_list (sv_leases s)).

Definition healthy (l : Lease) : bool := negb (l_failed l) && negb (is_some (l_retry l)).

(** ** Reading the state *)

Definition authorized (principal : string) (s : Svc) : bool :=
  is_some (sv_grants s !! principal) && negb (bool_decide (principal ∈ sv_revoked s)).

Definition validate (s : Svc) (principal token : string) (fence : N) : result Lease string :=
  if bool_decide (principal ∈ sv_revoked s) then Err "permission-denied"
  else
    let? l := ok_or (sv_leases s !! token) "stale-generation" in
    if negb (token_eq (l_principal l) principal) then Err "permission-denied"
    else if negb (l_fence l =? fence)%N || (l_deadline l <=? now s)%N then Err "stale-generation"
    else if l_failed l || is_some (l_retry l) then Err "context-not-active"
    else Ok l.

Definition ready (w : World) (l : Lease) (s : Svc) : bool :=
  bool_decide (context_state_of (l_logical l) (sv_kernel s) = Some "Active") &&
  (negb (l_external l) || w_session w (l_logical l) (ref_instance (l_owner l))).

Definition remaining_ms (l : Lease) (s : Svc) : Value := j_u64 (saturating_sub (l_deadline l) (now s)).

Definition lease_status_by_token (w : World) (principal token : string) (s : Svc) : result Value string :=
  let? l := ok_or (sv_leases s !! token) "stale-generation" in
  if bool_decide (l_principal l ≠ principal) then Err "permission-denied"
  else if (l_deadline l <=? now s)%N || l_failed l || is_some (l_retry l) then Err "stale-generation"
  else Ok (obj [("ready", JBool (ready w l s)); ("instance", JString (describe (l_owner l)));
                ("remaining_ms", remaining_ms l s); ("fence", JString (display (l_fence l)))]).

Definition lease_status (w : World) (principal token : string) (fence : N) (s : Svc)
    : result Value string :=
  let? l := validate s principal token fence in
  Ok (obj [("ready", JBool (ready w l s)); ("instance", JString (describe (l_owner l)));
           ("remaining_ms", remaining_ms l s)]).

Definition lease_snapshot_by_token (principal token : string) (s : Svc)
    : option (string * InstanceRef * N) :=
  if bool_decide (principal ∈ sv_revoked s) then None
  else
    l ← sv_leases s !! token;
    if bool_decide (l_principal l ≠ principal) then None
    else if (l_deadline l <=? now s)%N || l_failed l || is_some (l_retry l) then None
    else Some (l_logical l, l_owner l, l_fence l).

Definition lease_snapshot (principal token : string) (fence : N) (s : Svc)
    : option (string * InstanceRef) :=
  match validate s principal token fence with
  | Ok l => Some (l_logical l, l_owner l)
  | Err _ => None
  end.

(** One entry per logical, the first the iteration meets. *)
Definition live_provider_fences (principal : string) (s : Svc) : list (string * N) :=
  let out := foldl (λ out kl,
    let l := kl.2 in
    if bool_decide (l_principal l = principal) && (now s <? l_deadline l)%N && negb (l_failed l)
       && negb (is_some (l_retry l)) && negb (existsb (λ o, bool_decide (o.1 = l_logical l)) out)
    then out ++ [(l_logical l, l_fence l)] else out) [] (map_to_list (sv_leases s)) in
  merge_sort (λ a b, String.le a.1 b.1) out.

Definition live_lease_count (s : Svc) : nat := size (sv_leases s).

Definition grant_covers (principal cap : string) (s : Svc) : bool :=
  if bool_decide (principal ∈ sv_revoked s) then false
  else is_some_and (λ g, bool_decide (cap ∈ g_capabilities g)) (sv_grants s !! principal).

Definition lease_live (principal logical : string) (fence : N) (owner : InstanceRef) (s : Svc) : bool :=
  negb (bool_decide (principal ∈ sv_revoked s)) &&
  any_lease (λ l, bool_decide (l_principal l = principal) && bool_decide (l_logical l = logical)
    && (l_fence l =? fence)%N && bool_decide (l_owner l = owner) && (now s <? l_deadline l)%N
    && negb (l_failed l)) s.

Section service.
Context {E : Env} (to_string : Value → string) (from_str : string → result Value string).

(** ** Manifests *)

Definition valid_id (id : string) : bool :=
  negb (str_is_empty id) && negb (128 <? str_len id)%N &&
  forallb (λ a, is_ascii_alphanumeric a || bool_decide (a = "-"%char) || bool_decide (a = "_"%char))
    (chars id).

Definition body_id (body : Value) : result string string :=
  let? id := ok_or (get_str "id" body) "missing id" in
  if negb (valid_id id) then Err "invalid component id" else Ok id.

Definition provision (w : World) (body : Value) (s : Svc) : result unit string * Svc :=
  match (let? id := body_id body in
         let? parsed := map_err msg_display (parse_manifest_value body) in
         if is_external (sm_execution parsed) && negb (bool_decide (id ∈ sv_allowed s)) then
           Err "execution not operator-authorized"
         else if sm_remote parsed then
           Err "remote definitions are installed by the route manager"
         else Ok id) with
  | Err e => (Err e, s)
  | Ok id => on_db (set_desired to_string (w_db w "set_desired" id) id body) s
  end.

Definition provision_remote (body : Value) (s : Svc) : result unit string * Svc :=
  match (let? _ := body_id body in
         let? parsed := map_err msg_display (parse_manifest_value body) in
         if negb (sm_remote parsed) then Err "not a remote definition"
         else if bool_decide (sm_caps parsed = []) then Err "remote definition provides nothing"
         else if negb (bool_decide (sm_requires parsed = [])) then Err "remote definitions provide only"
         else Ok parsed) with
  | Err e => (Err e, s)
  | Ok parsed => let '(_, s) := on_kernel (install_remote_definition parsed) s in (Ok tt, s)
  end.

Definition plugin_path (logical : string) (s : Svc) : string :=
  sv_home s +:+ "/plugins/" +:+ logical +:+ ".json".

(** The path of the manifest and the text written there. *)
Definition materialize (w : World) (logical : string) (s : Svc) : result (string * string) string :=
  let? all := desired from_str (sv_db s) in
  let? body := ok_or (assoc logical all) "component not provisioned" in
  match w_io w logical with
  | Some e => Err e
  | None => Ok (plugin_path logical s, to_string body)
  end.

(** The environment of a kernel that reads this file. *)
Definition with_file (file : string * string) : Env := {|
  env_spawn := env_spawn; env_forward := env_forward; env_ts := env_ts; env_wall_ms := env_wall_ms;
  env_read p := if bool_decide (p = file.1) then from_str file.2 else env_read p;
  env_dir := env_dir; env_in_dir := env_in_dir; env_debug := env_debug; env_nesting := env_nesting;
|}.

Definition load_file (file : string * string) : kprog (result string string) :=
  @load_manifest (with_file file) file.1.

(** ** Leases *)

Definition activate (w : World) (principal logical : string) (ttl_ms : N) (s : Svc)
    : result Value string * Svc :=
  if negb (range_ttl ttl_ms) then (Err "invalid lease duration", s)
  else if bool_decide (principal ∈ sv_revoked s)
       || negb (is_some_and (λ g, bool_decide (logical ∈ g_components g)) (sv_grants s !! principal))
  then (Err "permission-denied", s)
  else if any_lease (λ l, bool_decide (l_logical l = logical)) s then (Err "component-already-leased", s)
  else if 128 <=? size (sv_leases s) then (Err "resource-exhausted", s)
  else
    match materialize w logical s with
    | Err e => (Err e, s)
    | Ok file =>
    match w_token w with
    | Err e => (Err e, s)
    | Ok token =>
        do? (fence, s) := on_db (next_fence (w_db w "next_fence" logical) logical) s in
        do? (_, s) := on_db (event to_string (w_db w "lease.created" logical) "lease.created"
                        (obj [("logical", JString logical); ("principal", JString principal);
                              ("fence", JString (display fence))])) s in
        match on_kernel (load_file file) s with
        | (Err e, s) => let '(_, s) := on_kernel (dispose_plugin logical) s in (Err e, s)
        | (Ok _, s) =>
            match instance_ref_of logical (sv_kernel s) with
            | None => (Err "activation failed", s)
            | Some owner =>
                let external := is_some_and (λ d, is_external (sm_execution d))
                                  (k_definitions (sv_kernel s) !! logical) in
                (Ok (obj [("lease", JString token); ("fence", JString (display fence));
                          ("ttl_ms", j_u64 ttl_ms); ("instance", JString (describe owner));
                          ("epoch", JString (display (sv_epoch s)))]),
                 with_leases (<[token := mkLease principal logical token fence (now s + ttl_ms) owner
                    external (now s) None false (mkRestartBudget [] None) 0]> (sv_leases s)) s)
            end
        end
    end
    end.

Definition rotate (new : string) (deadline : Instant) (seq : N) (l : Lease) : Lease :=
  mkLease (l_principal l) (l_logical l) new (l_fence l) deadline (l_owner l) (l_external l)
    (l_started l) (l_retry l) (l_failed l) (l_budget l) seq.

Definition renew (w : World) (principal token : string) (fence ttl_ms : N) (s : Svc)
    : result Value string * Svc :=
  if negb (range_ttl ttl_ms) then (Err "invalid lease duration", s)
  else
    match validate s principal token fence with
    | Err e => (Err e, s)
    | Ok l =>
        match w_token w with
        | Err e => (Err e, s)
        | Ok new =>
            (Ok (obj [("lease", JString new); ("fence", JString (display fence)); ("ttl_ms", j_u64 ttl_ms)]),
             with_leases (<[new := rotate new (now s + ttl_ms) (l_renew_seq l) l]>
                            (delete token (sv_leases s))) s)
        end
    end.

(** The lease of a repeated sequence number. *)
Definition renew_replay (principal token : string) (fence seq : N) (s : Svc) : option Lease :=
  l ← sv_leases s !! token;
  if bool_decide (l_principal l = principal) && (l_fence l =? fence)%N && (l_renew_seq l =? seq)%N
     && (now s <? l_deadline l)%N && healthy l
  then Some l else None.

Definition renew_seq (w : World) (principal token : string) (fence seq ttl_ms : N) (s : Svc)
    : result Value string * Svc :=
  if negb (range_ttl ttl_ms) then (Err "invalid lease duration", s)
  else if (seq =? 0)%N then (Err "invalid-message", s)
  else
    match renew_replay principal token fence seq s with
    | Some l =>
        (Ok (obj [("lease", JString (l_token l)); ("fence", JString (display fence));
                  ("ttl_ms", j_u64 ttl_ms); ("replay", JBool true)]), s)
    | None =>
        match validate s principal token fence with
        | Err e => (Err e, s)
        | Ok l =>
            if (seq <? l_renew_seq l)%N then (Err "stale-generation", s)
            else
              match w_token w with
              | Err e => (Err e, s)
              | Ok new =>
                  (Ok (obj [("lease", JString new); ("fence", JString (display fence));
                            ("ttl_ms", j_u64 ttl_ms)]),
                   with_leases (<[new := rotate new (now s + ttl_ms) seq l]>
                                  (delete token (sv_leases s))) s)
              end
        end
    end.

(** [retire] of a lease that is out of the table; [kill_child] is of the host. *)
Definition retire (w : World) (l : Lease) (s : Svc) : Value * Svc :=
  let '(out, s) := on_kernel (dispose_plugin (l_logical l)) s in
  let '(alive, s) := on_kernel (active_resources_for (l_logical l)) s in
  let clean := negb (bool_decide (outcome_as_str out = "CleanupPending"))
               && negb (w_running w (l_logical l)) && (alive =? 0) in
  let '(audit, s) := on_db (event to_string (w_db w "lease.retired" (l_logical l)) "lease.retired"
                        (obj [("logical", JString (l_logical l)); ("fence", JString (display (l_fence l)));
                              ("cleanup_confirmed", JBool clean)])) s in
  (obj [("state", JString (if clean then "Disposed" else "CleanupPending"));
        ("kernel", JString (outcome_as_str out)); ("audit_durable", JBool (is_ok audit))], s).

Definition release_lease (w : World) (principal token : string) (fence : N) (s : Svc)
    : result Value string * Svc :=
  match (let? l := ok_or (sv_leases s !! token) "stale-generation" in
         if bool_decide (l_principal l ≠ principal) then Err "permission-denied"
         else if negb (l_fence l =? fence)%N then Err "stale-generation" else Ok l) with
  | Err e => (Err e, s)
  | Ok l => let '(v, s) := retire w l (with_leases (delete token (sv_leases s)) s) in (Ok v, s)
  end.

(** [for k in keys { if let Some(l) = leases.remove(&k) { retire(l) } }]. *)
Fixpoint retire_all (w : World) (tokens : list string) (s : Svc) : Svc :=
  match tokens with
  | [] => s
  | t :: tokens =>
      retire_all w tokens
        (match sv_leases s !! t with
         | Some l => (retire w l (with_leases (delete t (sv_leases s)) s)).2
         | None => s
         end)
  end.

Definition tokens_where (f : Lease → bool) (s : Svc) : list string :=
  (List.filter (λ kl, f kl.2) (map_to_list (sv_leases s))).*1.

(** ** Authority *)

Definition lease_commit (w : World) (principal token : string) (fence : N) (operation key : string)
    (value : Value) (s : Svc) : result Value string * Svc :=
  match validate s principal token fence with
  | Err e => (Err e, s)
  | Ok l =>
      if negb (is_some_and (λ g, bool_decide ("matrix.effect.write" ∈ g_capabilities g))
                 (sv_grants s !! principal))
      then (Err "permission-denied", s)
      else on_db (commit_effect to_string from_str (w_db w "commit_effect" operation) principal operation
                    (l_logical l) fence key value) s
  end.

Definition grant (w : World) (principal : string) (g : Grant) (s : Svc) : result unit string * Svc :=
  do? (_, s) := on_db (set_revoked (w_db w "set_revoked" principal) principal false) s in
  (Ok tt, with_authority (<[principal := g]> (sv_grants s)) (sv_revoked s ∖ {[principal]}) s).

Definition revoke (w : World) (principal : string) (s : Svc) : result unit string * Svc :=
  let s := with_authority (sv_grants s) ({[principal]} ∪ sv_revoked s) s in
  let '(durable, s) := on_db (set_revoked (w_db w "set_revoked" principal) principal true) s in
  (durable, retire_all w (tokens_where (λ l, bool_decide (l_principal l = principal)) s) s).

(** [want]: consumer → capabilities. *)
Definition sync_outbound_grants (want : gmap string (list string)) (s : Svc) : Svc :=
  let want_set : gset (string * string) :=
    list_to_set (concat ((λ cc : string * list string, pair cc.1 <$> cc.2) <$> map_to_list want)) in
  let s := foldl (λ s cc, (on_kernel (revoke_outbound cc.1 cc.2) s).2) s
             (elements (sv_outbound s ∖ want_set)) in
  let s := foldl (λ s cc, (on_kernel (grant_outbound cc.1 cc.2) s).2) s
             (elements (want_set ∖ sv_outbound s)) in
  with_outbound want_set s.

(** ** Supervision *)

Definition supervised (owner : InstanceRef) (started : Instant) (retry : option Instant) (failed : bool)
    (b : RestartBudget) (l : Lease) : Lease :=
  mkLease (l_principal l) (l_logical l) (l_token l) (l_fence l) (l_deadline l) owner (l_external l)
    started retry failed b (l_renew_seq l).

(** One lease of the second loop of [tick]. *)
Definition supervise (w : World) (at_ : Instant) (l : Lease) (s : Svc) : Lease * Svc :=
  if negb (l_external l) || l_failed l then (l, s)
  else
    match l_retry l with
    | Some at' =>
        if (at_ <? at')%N then (l, s)
        else
          let '(r, s) := match materialize w (l_logical l) s with
                         | Err e => (Err e, s)
                         | Ok file => on_kernel (load_file file) s
                         end in
          let owner := if is_ok r then default (l_owner l) (instance_ref_of (l_logical l) (sv_kernel s))
                       else l_owner l in
          (supervised owner at_ None (l_failed l) (l_budget l) l, s)
    | None =>
        if w_running w (l_logical l) || (saturating_sub at_ (l_started l) <? 250)%N then (l, s)
        else
          let '(_, s) := on_kernel (dispose_plugin (l_logical l)) s in
          let '(retry, b) := match sv_restart s !! l_logical l with
                             | Some p => reserve at_ p (l_budget l)
                             | None => (None, l_budget l)
                             end in
          let l := supervised (l_owner l) (l_started l) retry (l_failed l || negb (is_some retry)) b l in
          let '(_, s) := on_db (event to_string (w_db w "supervision.failure" (l_logical l))
                            "supervision.failure"
                            (obj [("logical", JString (l_logical l)); ("failed", JBool (l_failed l));
                                  ("instance", JString (describe (l_owner l)))])) s in
          (l, s)
    end.

Fixpoint supervise_all (w : World) (at_ : Instant) (tokens : list string) (s : Svc) : Svc :=
  match tokens with
  | [] => s
  | t :: tokens =>
      supervise_all w at_ tokens
        (match sv_leases s !! t with
         | Some l => let '(l, s) := supervise w at_ l s in with_leases (<[t := l]> (sv_leases s)) s
         | None => s
         end)
  end.

Definition tick (w : World) (s : Svc) : Svc :=
  let at_ := now s in
  let s := retire_all w (tokens_where (λ l, (l_deadline l <=? at_)%N) s) s in
  supervise_all w at_ (tokens_where (λ _, true) s) s.

Definition shutdown (w : World) (s : Svc) : Svc :=
  let s := with_stopped s in retire_all w (tokens_where (λ _, true) s) s.

(** ** Calls *)

Definition invoke_check (principal token : string) (fence : N) (cap : string) (s : Svc)
    : result (string * InstanceRef) string :=
  let? l := validate s principal token fence in
  if negb (is_some_and (λ g, bool_decide (cap ∈ g_capabilities g)) (sv_grants s !! principal)) then
    Err "permission-denied"
  else if negb (provides_cap (l_logical l) cap (sv_kernel s)) then Err "permission-denied"
  else Ok (l_logical l, l_owner l).

Definition call_request (logical cap : string) (input : Value) : Value :=
  obj [("logical", JString logical); ("cap", JString cap); ("input", input)].

(** [value.get("code").and_then(Value::as_str).unwrap_or("")] *)
Definition code_of (v : Value) : string := default "" (get_str "code" v).

Definition lost_result : Value :=
  obj [("ok", JBool false); ("value", obj [("code", JString "outcome-unknown")]);
       ("durability", JString "durable")].

Definition durable_result (ok : bool) (v : Value) : Value :=
  obj [("ok", JBool ok); ("value", v); ("durability", JString "durable")].

(** The call of the kernel, with the operation recorded. *)
Definition execute (key : string * string) (p : kprog (Value * bool)) : sprog (Value * bool) :=
  do! modify (λ s, with_ran (sv_ran s ++ [key]) s); lift p.

Definition invoke (w : World) (principal token : string) (fence : N) (operation cap : string)
    (input : Value) : sprog (result Value string) :=
  let! checked := read (invoke_check principal token fence cap) in
  match checked with
  | Err e => Ret (Err e)
  | Ok (logical, owner) =>
      let! adm := act (on_db (store_admit to_string from_str (w_db w "store_admit" operation) principal
                                operation (call_request logical cap input))) in
      match adm with
      | Err e => Ret (Err e)
      | Ok (Completed v) => Ret (Ok v)
      | Ok Unknown => Ret (Err "outcome-unknown")
      | Ok New =>
          let! cur := read (λ s, instance_ref_of logical (sv_kernel s)) in
          if negb (bool_decide (cur = Some owner)) then Ret (Err "stale-generation")
          else
            let! vo := execute (principal, operation) (invoke_for_ref owner cap input) in
            let! live := read (lease_live principal logical fence owner) in
            let unknown := negb live ||
              bool_decide (code_of vo.1 ∈ ["outcome-unknown"; "deadline-exceeded"; "cancelled"]) in
            let res := if live then durable_result vo.2 vo.1 else lost_result in
            let! fin := act (on_db (finish to_string (w_db w "finish" operation) principal operation res
                                      unknown)) in
            match fin with
            | Err e => Ret (Err e)
            | Ok _ => Ret (Ok res)
            end
      end
  end.

(** [kernel_epoch], the boot entropy; [attach], [Host::attach_with_policy]. The threads
    it starts are separate. *)
Definition service_open (w : World) (secure locked : bool) (integrity home : string) (kernel_epoch : N)
    (j : Journal) (attach : Kernel → result Kernel string) (allowed : gset string)
    (grants : gmap string Grant) (restart : gmap string RestartPolicy) (d : Db) : result Svc string * Db :=
  if negb secure then (Err "managed runtime requires secure HostPolicy", d)
  else
    do? (epoch, d) := store_open (w_db w "open" home) locked integrity d in
    match attach (kernel_new kernel_epoch j false) with
    | Err e => (Err e, d)
    | Ok k => (Ok (mkSvc k d epoch home allowed ∅ grants (revoked d) ∅ restart false []), d)
    end.

(** [Service::inspect], without the kernel's report. *)
Definition inspect_leases (s : Svc) : Value :=
  JArray ((λ kl, let l := kl.2 in
    obj [("principal", JString (l_principal l)); ("logical", JString (l_logical l));
         ("fence", JString (display (l_fence l))); ("failed", JBool (l_failed l));
         ("restart_pending", JBool (is_some (l_retry l))); ("remaining_ms", remaining_ms l s)])
    <$> map_to_list (sv_leases s)).

(** ** The operations as data *)

Inductive SvcOp : Type :=
| SvProvision (body : Value)
| SvProvisionRemote (body : Value)
| SvActivate (principal logical : string) (ttl_ms : N)
| SvRenew (principal token : string) (fence ttl_ms : N)
| SvRenewSeq (principal token : string) (fence seq ttl_ms : N)
| SvRelease (principal token : string) (fence : N)
| SvCommit (principal token : string) (fence : N) (operation key : string) (value : Value)
| SvGrant (principal : string) (g : Grant)
| SvRevoke (principal : string)
| SvSyncOutbound (want : gmap string (list string))
| SvTick
| SvShutdown
| SvInvoke (principal token : string) (fence : N) (operation cap : string) (input : Value)
| SvKernel (op : KernelOp)
| SvElapse (ms : N).

(** The methods as programs: those under the lock are one action. *)
Definition svop_prog (w : World) (o : SvcOp) : sprog unit :=
  match o with
  | SvProvision b => do! act (provision w b); Ret tt
  | SvProvisionRemote b => do! act (provision_remote b); Ret tt
  | SvActivate p l t => do! act (activate w p l t); Ret tt
  | SvRenew p t f ttl => do! act (renew w p t f ttl); Ret tt
  | SvRenewSeq p t f q ttl => do! act (renew_seq w p t f q ttl); Ret tt
  | SvRelease p t f => do! act (release_lease w p t f); Ret tt
  | SvCommit p t f o k v => do! act (lease_commit w p t f o k v); Ret tt
  | SvGrant p g => do! act (grant w p g); Ret tt
  | SvRevoke p => do! act (revoke w p); Ret tt
  | SvSyncOutbound want => modify (sync_outbound_grants want)
  | SvTick => modify (tick w)
  | SvShutdown => modify (shutdown w)
  | SvInvoke p t f o c i => do! invoke w p t f o c i; Ret tt
  | SvKernel op => lift (kop_prog op)
  | SvElapse ms => modify (λ s, advance (now s + ms)%N s)
  end.
End service.
