(* ===== verification/ServiceProps.v ===== *)
(** * Leases under every interleaving

    The invariant of the leases and of the authority they rest on, over any number of
    threads running any methods of the service and of the kernel; what revocation, renewal
    and supervision guarantee. *)

From S2P Require Import Prelude RustStd Json Identity Contexts Resources Deps Calls Journal Manifest Prog.
From S2P Require Import KernelState KernelCalls KernelLifecycle KernelDispatch KernelActions.
From S2P Require Import KernelDemo Guard Store StoreProps Service.

(** ** What methods of the kernel and audit events leave alone *)

Definition core (s : Svc) :=
  (sv_leases s, sv_grants s, sv_revoked s, db_fences (sv_db s), db_revoked (sv_db s),
   db_operations (sv_db s), sv_ran s).

Definition quiet (s s' : Svc) : Prop := core s' = core s ∧ sv_restart s' = sv_restart s.

#[export] Instance quiet_refl : Reflexive quiet.
Proof. by split. Qed.
#[export] Instance quiet_trans : Transitive quiet.
Proof. intros s1 s2 s3 [A B] [C D]. split; congruence. Qed.

Lemma on_kernel_quiet {A} (p : kprog A) s : quiet s (on_kernel p s).2.
Proof. unfold on_kernel. by destruct (run p (sv_kernel s)). Qed.

Lemma on_event_quiet to_string f kind b s : quiet s (on_db (event to_string f kind b) s).2.
Proof.
  unfold on_db, event. destruct (MAX_BODY <? _)%N; [by split|]. by destruct f.
Qed.

(** The next call of the kernel or audit event. *)
Ltac quiet_step Q :=
  match goal with
  | |- context [on_kernel ?p ?s] =>
      pose proof (on_kernel_quiet p s) as Q; destruct (on_kernel p s); cbn [snd] in Q
  | |- context [on_db (event ?t ?f ?k ?b) ?s] =>
      pose proof (on_event_quiet t f k b s) as Q; destruct (on_db (event t f k b) s); cbn [snd] in Q
  end.

Lemma retire_quiet to_string `{Env} w l s : quiet s (retire to_string w l s).2.
Proof.
  unfold retire. quiet_step Q1. quiet_step Q2. quiet_step Q3. cbn. by etrans; [|etrans].
Qed.

(** The part of the state that methods change on purpose. *)
Definition rest (s : Svc) :=
  (sv_grants s, sv_revoked s, db_fences (sv_db s), db_revoked (sv_db s), db_operations (sv_db s), sv_ran s,
   sv_restart s).

Lemma quiet_rest s s' : quiet s s' → sv_leases s' = sv_leases s ∧ rest s' = rest s.
Proof. intros [E R]. unfold core in E. injection E as E1 E2 E3 E4 E5 E6 E7.
  unfold rest. split; [done|]. congruence.
Qed.

Lemma rest_authority s s' : rest s' = rest s →
  sv_revoked s' = sv_revoked s ∧ db_fences (sv_db s') = db_fences (sv_db s) ∧
  db_revoked (sv_db s') = db_revoked (sv_db s).
Proof. unfold rest. intros R. by injection R as ? ? ? ? ? ? ?. Qed.

Lemma retire_all_spec to_string `{Env} w ts s :
  (∀ t, sv_leases (retire_all to_string w ts s) !! t =
        if bool_decide (t ∈ ts) then None else sv_leases s !! t) ∧
  rest (retire_all to_string w ts s) = rest s.
Proof.
  revert s. induction ts as [|t0 ts IH]; intros s; cbn [retire_all].
  { split; [|done]. intros t. by rewrite bool_decide_eq_false_2 by set_solver. }
  destruct (IH (match sv_leases s !! t0 with
         | Some l => (retire to_string w l (with_leases (delete t0 (sv_leases s)) s)).2
         | None => s end)) as [L R]. clear IH.
  destruct (sv_leases s !! t0) as [l|] eqn:E.
  - destruct (quiet_rest _ _ (retire_quiet to_string w l (with_leases (delete t0 (sv_leases s)) s)))
      as [Q1 Q2].
    split; [|by rewrite R, Q2]. intros t. rewrite L, Q1. cbn. destruct (decide (t = t0)) as [->|N].
    + rewrite lookup_delete_eq. rewrite (bool_decide_eq_true_2 (t0 ∈ t0 :: ts)) by set_solver. by case_match.
    + rewrite lookup_delete_ne by done. by rewrite (bool_decide_ext (t ∈ t0 :: ts) (t ∈ ts)) by set_solver.
  - split; [|done]. intros t. rewrite L. destruct (decide (t = t0)) as [->|N].
    + rewrite E. by repeat case_match.
    + by rewrite (bool_decide_ext (t ∈ t0 :: ts) (t ∈ ts)) by set_solver.
Qed.

Lemma tokens_where_spec f s t :
  t ∈ tokens_where f s ↔ ∃ l, sv_leases s !! t = Some l ∧ f l = true.
Proof.
  unfold tokens_where. rewrite list_elem_of_fmap. split.
  - intros ([t' l] & -> & [H1 H2]%list_elem_of_In%filter_In). exists l. split; [|done].
    by apply elem_of_map_to_list, list_elem_of_In.
  - intros (l & H1 & H2). exists (t, l). split; [done|]. apply list_elem_of_In, filter_In. split; [|done].
    by apply list_elem_of_In, elem_of_map_to_list.
Qed.

(** Supervision changes the owner and the health of a lease, never what it stands for. *)
Definition same_lease (l l' : Lease) : Prop :=
  l_principal l' = l_principal l ∧ l_logical l' = l_logical l ∧ l_token l' = l_token l ∧
  l_fence l' = l_fence l ∧ l_deadline l' = l_deadline l ∧ l_renew_seq l' = l_renew_seq l ∧
  (l_failed l = true → l_failed l' = true).

#[export] Instance same_lease_refl : Reflexive same_lease.
Proof. by intros l. Qed.
#[export] Instance same_lease_trans : Transitive same_lease.
Proof. unfold same_lease. intros l1 l2 l3 A B. destruct_and!. split_and!; try congruence. auto. Qed.

Lemma supervise_spec `{Env} to_string from_str w at_ l s :
  same_lease l (supervise to_string from_str w at_ l s).1 ∧
  quiet s (supervise to_string from_str w at_ l s).2.
Proof.
  unfold supervise. destruct (_ || _) eqn:F; [done|]. nbool. destruct (l_retry l) as [a|].
  - destruct (at_ <? a)%N; [done|].
    destruct (materialize to_string from_str w (l_logical l) s) as [file|e]; [|by cbn].
    quiet_step Q. by cbn.
  - destruct (_ || _); [done|]. quiet_step Q1.
    destruct (match sv_restart _ !! _ with Some p => reserve at_ p _ | None => _ end) as [retry b].
    quiet_step Q2. cbn. split; [|by etrans]. repeat split. intros ->. done.
Qed.

Lemma supervise_all_spec `{Env} to_string from_str w at_ ts s :
  (∀ t, option_Forall2 same_lease (sv_leases s !! t)
          (sv_leases (supervise_all to_string from_str w at_ ts s) !! t)) ∧
  rest (supervise_all to_string from_str w at_ ts s) = rest s.
Proof.
  revert s. induction ts as [|t0 ts IH]; intros s; cbn [supervise_all].
  { split; [|done]. intros t. by destruct (sv_leases s !! t); constructor. }
  destruct (sv_leases s !! t0) as [l|] eqn:E; [|apply IH].
  pose proof (supervise_spec to_string from_str w at_ l s) as [S Q].
  destruct (supervise to_string from_str w at_ l s) as [l' s']. cbn in S, Q.
  apply quiet_rest in Q as [Q1 Q2].
  destruct (IH (with_leases (<[t0:=l']> (sv_leases s')) s')) as [L R]. split; [|rewrite R; exact Q2].
  intros t. specialize (L t). cbn in L. rewrite Q1 in L |- *. destruct (decide (t = t0)) as [->|N].
  - rewrite lookup_insert_eq in L. rewrite E. revert L. generalize (sv_leases (supervise_all to_string from_str
      w at_ ts (with_leases (<[t0:=l']> (sv_leases s)) s')) !! t0).
    intros o L. inversion L as [? ? S'|]; subst. constructor. by etrans.
  - by rewrite lookup_insert_ne in L.
Qed.

(** ** The invariant *)

Record svc_ok (s : Svc) : Prop := {
  so_token : ∀ t l, sv_leases s !! t = Some l → l_token l = t;
  so_unique : ∀ t t' l l', sv_leases s !! t = Some l → sv_leases s !! t' = Some l' →
                l_logical l = l_logical l' → t = t';
  so_bound : size (sv_leases s) ≤ 128;
  so_unrevoked : ∀ t l, sv_leases s !! t = Some l → l_principal l ∉ sv_revoked s;
  so_fence : ∀ t l, sv_leases s !! t = Some l → db_fences (sv_db s) !! l_logical l = Some (l_fence l);
  so_durable : db_revoked (sv_db s) ⊆ sv_revoked s;
}.

Lemma svc_ok_sub s s' :
  svc_ok s →
  (∀ t l', sv_leases s' !! t = Some l' → ∃ l, sv_leases s !! t = Some l ∧ same_lease l l') →
  sv_revoked s' = sv_revoked s → db_fences (sv_db s') = db_fences (sv_db s) →
  db_revoked (sv_db s') = db_revoked (sv_db s) → svc_ok s'.
Proof.
  intros [T U B V F D] L R1 R2 R3. split.
  - intros t l' (l & H & S)%L. destruct S as (_ & _ & -> & _). eauto.
  - intros t1 t2 l1' l2' (l1 & H1 & S1)%L (l2 & H2 & S2)%L. destruct S1 as (_ & -> & _), S2 as (_ & -> & _).
    eauto.
  - etrans; [|exact B]. rewrite <- !size_dom. apply subseteq_size. intros t Ht.
    apply elem_of_dom in Ht as [l' (l & H & _)%L]. by apply elem_of_dom_2 in H.
  - intros t l' (l & H & S)%L. destruct S as (-> & _). rewrite R1. eauto.
  - intros t l' (l & H & S)%L. destruct S as (_ & -> & _ & -> & _). rewrite R2. eauto.
  - by rewrite R1, R3.
Qed.

Lemma svc_ok_same s s' : svc_ok s → sv_leases s' = sv_leases s → sv_revoked s' = sv_revoked s →
  db_fences (sv_db s') = db_fences (sv_db s) → db_revoked (sv_db s') = db_revoked (sv_db s) → svc_ok s'.
Proof.
  intros I L. intros. eapply svc_ok_sub; [done| |done..]. rewrite L. intros t l' Hl. by exists l'.
Qed.

Lemma svc_ok_quiet s s' : svc_ok s → quiet s s' → svc_ok s'.
Proof.
  intros I [L R]%quiet_rest. apply rest_authority in R as (? & ? & ?). by eapply svc_ok_same.
Qed.

Lemma svc_ok_retire_all to_string `{Env} w ts s : svc_ok s → svc_ok (retire_all to_string w ts s).
Proof.
  intros I. destruct (retire_all_spec to_string w ts s) as [L R]. apply rest_authority in R as (? & ? & ?).
  eapply svc_ok_sub; [done| |done..]. intros t l'. rewrite L. case_match; [done|]. intros Hl. by exists l'.
Qed.

(** A new lease on a logical id that has none, at the store's current fence. *)
Lemma svc_ok_insert s t l : svc_ok s → l_token l = t →
  (∀ t' l', sv_leases s !! t' = Some l' → l_logical l' = l_logical l → t' = t) →
  size (<[t := l]> (sv_leases s)) ≤ 128 → l_principal l ∉ sv_revoked s →
  db_fences (sv_db s) !! l_logical l = Some (l_fence l) →
  svc_ok (with_leases (<[t := l]> (sv_leases s)) s).
Proof.
  intros [T U B V F D] Ht Hu Hb Hv Hf. split; cbn; try done.
  - intros t' l' [[<- <-]|[_ H]]%lookup_insert_Some; eauto.
  - intros t1 t2 l1 l2 [[<- <-]|[N1 H1]]%lookup_insert_Some [[<- <-]|[N2 H2]]%lookup_insert_Some E;
      try done; [symmetry; eauto|eauto|eauto].
  - intros t' l' [[<- <-]|[_ H]]%lookup_insert_Some; eauto.
  - intros t' l' [[<- <-]|[_ H]]%lookup_insert_Some; eauto.
Qed.

Lemma svc_ok_delete s t : svc_ok s → svc_ok (with_leases (delete t (sv_leases s)) s).
Proof.
  intros I. eapply svc_ok_sub; [done| |done..]. cbn. intros t' l' [_ H]%lookup_delete_Some. by exists l'.
Qed.

Lemma any_lease_spec f s : any_lease f s = true ↔ ∃ t l, sv_leases s !! t = Some l ∧ f l = true.
Proof.
  unfold any_lease. rewrite existsb_exists. split.
  - intros ([t l] & H1%list_elem_of_In%elem_of_map_to_list & H2). eauto.
  - intros (t & l & H1 & H2). exists (t, l). split; [|done]. by apply list_elem_of_In, elem_of_map_to_list.
Qed.

Lemma validate_ok s p t f l : validate s p t f = Ok l ↔
  sv_leases s !! t = Some l ∧ p ∉ sv_revoked s ∧ l_principal l = p ∧ l_fence l = f ∧
  (now s < l_deadline l)%N ∧ l_failed l = false ∧ l_retry l = None.
Proof.
  unfold validate. destruct (bool_decide (p ∈ _)) eqn:R; nbool; [naive_solver|].
  destruct (sv_leases s !! t) as [l0|]; cbn; [|naive_solver]. rewrite token_eq_exact.
  destruct (bool_decide (l_principal l0 = p)) eqn:P; nbool; cbn; [|naive_solver].
  destruct (N.eqb_spec (l_fence l0) f) as [F|F]; cbn; [|naive_solver].
  destruct (N.leb_spec (l_deadline l0) (now s)) as [D|D]; cbn; [split; [done|]; intros [[= ->] ?]; lia|].
  destruct (l_failed l0) eqn:X; cbn; [naive_solver congruence|]. destruct (l_retry l0) eqn:Y; cbn; naive_solver.
Qed.

Lemma next_fence_spec f logical s :
  match on_db (next_fence f logical) s with
  | (Ok n, s') => sv_leases s' = sv_leases s ∧ sv_revoked s' = sv_revoked s ∧
                  db_fences (sv_db s') = <[logical := n]> (db_fences (sv_db s)) ∧
                  db_revoked (sv_db s') = db_revoked (sv_db s)
  | (Err _, s') => quiet s s'
  end.
Proof.
  unfold on_db, next_fence. destruct f; [done|]. destruct (db_fences (sv_db s) !! logical) as [n|]; [|done].
  by destruct (n <? i64_max)%N.
Qed.

Section props.
Context {E : Env} (to_string : Value → string) (from_str : string → result Value string).

(** What [activate] does to leases, revocations and fences. *)
Lemma activate_spec w p logical ttl s :
  match activate to_string from_str w p logical ttl s with
  | (Ok _, s') => p ∉ sv_revoked s ∧ sv_revoked s' = sv_revoked s ∧
      db_revoked (sv_db s') = db_revoked (sv_db s) ∧
      (∀ t l, sv_leases s !! t = Some l → l_logical l ≠ logical) ∧ size (sv_leases s) < 128 ∧
      ∃ l, sv_leases s' = <[l_token l := l]> (sv_leases s) ∧ l_principal l = p ∧ l_logical l = logical ∧
           db_fences (sv_db s') = <[logical := l_fence l]> (db_fences (sv_db s)) ∧
           instance_ref_of logical (sv_kernel s') = Some (l_owner l) ∧
           l_deadline l = (now s' + ttl)%N ∧ healthy l = true ∧ l_renew_seq l = 0%N
  | (Err _, s') => sv_leases s' = sv_leases s ∧ sv_revoked s' = sv_revoked s ∧
      db_revoked (sv_db s') = db_revoked (sv_db s) ∧
      (db_fences (sv_db s') = db_fences (sv_db s) ∨
       (∀ t l, sv_leases s !! t = Some l → l_logical l ≠ logical) ∧
       ∃ n, db_fences (sv_db s') = <[logical := n]> (db_fences (sv_db s)))
  end.
Proof.
  assert (K : ∀ s s', quiet s s' → sv_leases s' = sv_leases s ∧ sv_revoked s' = sv_revoked s ∧
    db_fences (sv_db s') = db_fences (sv_db s) ∧ db_revoked (sv_db s') = db_revoked (sv_db s)).
  { intros s1 s2 [L R]%quiet_rest. by apply rest_authority in R as (? & ? & ?). }
  unfold activate. destruct (negb (range_ttl ttl)); [naive_solver|].
  destruct (_ || _) eqn:P; [naive_solver|]. nbool.
  destruct (any_lease _ s) eqn:U; [naive_solver|].
  assert (U' : ∀ t l, sv_leases s !! t = Some l → l_logical l ≠ logical).
  { intros t l Hl Hx. apply not_true_iff_false in U. apply U, any_lease_spec. exists t, l.
    by rewrite bool_decide_eq_true_2. }
  destruct (128 <=? size (sv_leases s)) eqn:B; [naive_solver|]. apply Nat.leb_gt in B.
  destruct (materialize to_string from_str w logical s) as [file|e]; [|naive_solver].
  destruct (w_token w) as [token|e]; [|naive_solver].
  pose proof (next_fence_spec (w_db w "next_fence" logical) logical s) as F.
  destruct (on_db (next_fence _ _) s) as [[n|e] s1]; [|apply K in F; naive_solver].
  destruct F as (F1 & F2 & F3 & F4). quiet_step Q. apply K in Q as (Q1 & Q2 & Q3 & Q4).
  destruct r as [m|e]; [|split_and!; try congruence; right; split; [done|]; exists n; congruence].
  quiet_step X. apply K in X as (X1 & X2 & X3 & X4).
  destruct r as [id|e].
  - destruct (instance_ref_of logical _) as [owner|] eqn:O.
    2:{ split_and!; try congruence. right. split; [done|]. exists n. congruence. }
    split_and!; try done; try (cbn; congruence). match goal with |- context [<[token := ?l]> _] => exists l end.
    cbn. by rewrite X1, Q1, F1, X3, Q3, F3.
  - quiet_step Y. apply K in Y as (Y1 & Y2 & Y3 & Y4). split_and!; try congruence.
    right. split; [done|]. exists n. congruence.
Qed.

Lemma fresh_fence_ok s s' logical n : svc_ok s →
  (∀ t l, sv_leases s !! t = Some l → l_logical l ≠ logical) →
  sv_leases s' = sv_leases s → sv_revoked s' = sv_revoked s →
  db_revoked (sv_db s') = db_revoked (sv_db s) →
  db_fences (sv_db s') = <[logical := n]> (db_fences (sv_db s)) → svc_ok s'.
Proof.
  intros [T U B V F D] N L R R' F'. split; rewrite ?L, ?R, ?R'; try done.
  intros t l H. rewrite F', lookup_insert_ne; [eauto|]. intros Hx. by apply (N t l H).
Qed.

Lemma activate_ok w p logical ttl s : svc_ok s → svc_ok (activate to_string from_str w p logical ttl s).2.
Proof.
  intros I. pose proof (activate_spec w p logical ttl s) as A.
  destruct (activate _ _ _ _ _ _ s) as [[v|e] s']; cbn [snd].
  - destruct A as (P & R & R' & U & B & l & L & <- & <- & F & _).
    assert (I' : svc_ok (with_leases (sv_leases s) s')).
    { by eapply fresh_fence_ok. }
    assert (s' = with_leases (<[l_token l := l]> (sv_leases (with_leases (sv_leases s) s')))
                   (with_leases (sv_leases s) s')) as -> by (cbn; rewrite <- L; by destruct s').
    apply svc_ok_insert; cbn; try done.
    + intros t' l' H E'. by destruct (U _ _ H).
    + rewrite map_size_insert. destruct (sv_leases s !! _); cbn; lia.
    + by rewrite R.
    + by rewrite F, lookup_insert_eq.
  - destruct A as (L & R & R' & [F|(U & n & F)]); [by eapply svc_ok_same|by eapply fresh_fence_ok].
Qed.

(** Transactions that touch neither fences nor revocations. *)
Definition keeps_authority {A} (f : Db → result A string * Db) : Prop :=
  ∀ d, db_fences (f d).2 = db_fences d ∧ db_revoked (f d).2 = db_revoked d.

Lemma svc_ok_db {A} (f : Db → result A string * Db) s : keeps_authority f → svc_ok s → svc_ok (on_db f s).2.
Proof.
  intros K I. specialize (K (sv_db s)) as [K1 K2]. unfold on_db. destruct (f (sv_db s)) as [r d].
  by eapply svc_ok_same.
Qed.

Lemma set_desired_keeps f id b : keeps_authority (set_desired to_string f id b).
Proof. intros d. unfold set_desired. destruct (_ <? _)%N; [done|]. by destruct f. Qed.

Lemma store_admit_keeps f p id q : keeps_authority (store_admit to_string from_str f p id q).
Proof. intros d. unfold store_admit. by repeat case_match. Qed.

Lemma finish_keeps f p id v u : keeps_authority (finish to_string f p id v u).
Proof. intros d. unfold finish. by repeat case_match. Qed.

Lemma commit_effect_keeps f p id r e k v : keeps_authority (commit_effect to_string from_str f p id r e k v).
Proof. intros d. unfold commit_effect. by repeat case_match. Qed.

Lemma renewed_ok s p t f l new d q : svc_ok s → validate s p t f = Ok l →
  svc_ok (with_leases (<[new := rotate new d q l]> (delete t (sv_leases s))) s).
Proof.
  intros I (L & R & <- & <- & _)%validate_ok. pose proof (svc_ok_delete s t I) as I'.
  apply (svc_ok_insert _ new (rotate new d q l)) in I'; [exact I'|done|..]; cbn.
  - intros t' l' [N H]%lookup_delete_Some X. destruct N. symmetry. by eapply (so_unique _ I).
  - rewrite map_size_insert, map_size_delete, L. pose proof (so_bound _ I).
    assert (size (sv_leases s) ≠ 0) by (apply map_size_ne_0_lookup; eauto). destruct (delete _ _ !! _); cbn; lia.
  - done.
  - by apply (so_fence _ I t).
Qed.

Lemma renew_ok w p t f ttl s : svc_ok s → svc_ok (renew w p t f ttl s).2.
Proof.
  intros I. unfold renew. destruct (negb _); [done|]. destruct (validate s p t f) as [l|e] eqn:V; [|done].
  destruct (w_token w); [by eapply renewed_ok|done].
Qed.

Lemma renew_seq_ok w p t f q ttl s : svc_ok s → svc_ok (renew_seq w p t f q ttl s).2.
Proof.
  intros I. unfold renew_seq. destruct (negb _); [done|]. destruct (q =? 0)%N; [done|].
  destruct (renew_replay p t f q s); [done|]. destruct (validate s p t f) as [l|e] eqn:V; [|done].
  destruct (_ <? _)%N; [done|]. destruct (w_token w); [by eapply renewed_ok|done].
Qed.

Lemma release_lease_ok w p t f s : svc_ok s → svc_ok (release_lease to_string w p t f s).2.
Proof.
  intros I. unfold release_lease. destruct (let? l := _ in _) as [l|e]; [|done].
  pose proof (retire_quiet to_string w l (with_leases (delete t (sv_leases s)) s)) as Q.
  destruct (retire _ _ _ _) as [v s']. eapply svc_ok_quiet; [|exact Q]. by apply svc_ok_delete.
Qed.

Lemma grant_ok w p g s : svc_ok s → svc_ok (grant w p g s).2.
Proof.
  intros I. unfold grant, on_db, set_revoked. destruct (w_db w _ _) as [e|]; cbn.
  - by eapply svc_ok_same.
  - destruct I as [T U B V F D]. split; cbn; try done; [|set_solver].
    intros t l H. specialize (V t l H). set_solver.
Qed.

Lemma revoke_spec w p s :
  let s' := (revoke to_string w p s).2 in
  sv_revoked s' = {[p]} ∪ sv_revoked s ∧
  (∀ t, sv_leases s' !! t = l ← sv_leases s !! t; if bool_decide (l_principal l = p) then None else Some l) ∧
  db_fences (sv_db s') = db_fences (sv_db s) ∧ sv_grants s' = sv_grants s ∧
  db_revoked (sv_db s') = (if is_ok (revoke to_string w p s).1 then {[p]} ∪ db_revoked (sv_db s)
                           else db_revoked (sv_db s)).
Proof.
  unfold revoke, on_db, set_revoked.
  assert (G : ∀ s1, sv_leases s1 = sv_leases s → ∀ t,
    sv_leases (retire_all to_string w (tokens_where (λ l, bool_decide (l_principal l = p)) s1) s1) !! t =
    l ← sv_leases s !! t; if bool_decide (l_principal l = p) then None else Some l).
  { intros s1 L t. rewrite (proj1 (retire_all_spec to_string w _ s1)). case_bool_decide as X.
    - apply tokens_where_spec in X as (l & H & P). rewrite <- L, H. cbn. by rewrite P.
    - rewrite L in *. destruct (sv_leases s !! t) as [l|] eqn:H; [|done]. cbn. case_bool_decide; [|done].
      destruct X. apply tokens_where_spec. exists l. rewrite L, bool_decide_eq_true_2 by done. done. }
  destruct (w_db w "set_revoked" p) as [e|]; cbn.
  all: match goal with |- context [retire_all _ _ ?ts ?s1] =>
         pose proof (proj2 (retire_all_spec to_string w ts s1)) as R; unfold rest in R;
         injection R as ? ? ? ? ? ? ?; pose proof (G s1 eq_refl) end; split_and!; done.
Qed.

Lemma revoke_ok w p s : svc_ok s → svc_ok (revoke to_string w p s).2.
Proof.
  intros I. destruct (revoke_spec w p s) as (R & L & F & _ & D).
  assert (L' : ∀ t l, sv_leases (revoke to_string w p s).2 !! t = Some l →
    sv_leases s !! t = Some l ∧ l_principal l ≠ p).
  { intros t l. rewrite L. destruct (sv_leases s !! t) as [l0|]; cbn; [|done]. case_bool_decide; [done|].
    by intros [= <-]. }
  assert (I0 : svc_ok (with_leases (sv_leases (revoke to_string w p s).2) s)).
  { eapply svc_ok_sub; [exact I| |done..]. cbn. intros t l [H _]%L'. by exists l. }
  destruct I0 as [T U B V F0 D0]; cbn in *. split; try done.
  - intros t l H. rewrite R. specialize (V t l H). apply L' in H as [_ N]. set_solver.
  - rewrite F. done.
  - rewrite R, D. destruct (is_ok _); set_solver.
Qed.

Lemma sync_outbound_quiet want s :
  sv_leases (sync_outbound_grants want s) = sv_leases s ∧ rest (sync_outbound_grants want s) = rest s.
Proof.
  assert (G : ∀ A (f : string → string → kprog A) l s,
    quiet s (foldl (λ s cc, (on_kernel (f cc.1 cc.2) s).2) s l)).
  { intros A f l. induction l as [|cc l IH]; intros s1; cbn; [done|].
    etrans; [exact (on_kernel_quiet (f cc.1 cc.2) s1)|apply IH]. }
  unfold sync_outbound_grants. cbv zeta.
  match goal with |- context [foldl ?f (foldl ?g s ?l1) ?l2] =>
    pose proof (G _ revoke_outbound l1 s) as Q1; pose proof (G _ grant_outbound l2 (foldl g s l1)) as Q2 end.
  destruct (quiet_rest _ _ (transitivity Q1 Q2)) as [L R]. by split.
Qed.

(** ** Every interleaving *)

(** The state after a method that is one action. *)
Definition svop_effect (w : World) (o : SvcOp) (s : Svc) : Svc :=
  match o with
  | SvProvision b => (provision to_string w b s).2
  | SvProvisionRemote b => (provision_remote b s).2
  | SvActivate p l t => (activate to_string from_str w p l t s).2
  | SvRenew p t f ttl => (renew w p t f ttl s).2
  | SvRenewSeq p t f q ttl => (renew_seq w p t f q ttl s).2
  | SvRelease p t f => (release_lease to_string w p t f s).2
  | SvCommit p t f o k v => (lease_commit to_string from_str w p t f o k v s).2
  | SvGrant p g => (grant w p g s).2
  | SvRevoke p => (revoke to_string w p s).2
  | SvSyncOutbound want => sync_outbound_grants want s
  | SvTick => tick to_string from_str w s
  | SvShutdown => shutdown to_string w s
  | SvInvoke _ _ _ _ _ _ | SvKernel _ | SvElapse _ => s
  end.

Lemma lift_always (R : Svc → Svc → Prop) {A} (p : kprog A) :
  (∀ s k, R s (with_kernel k s)) → always R (lift p).
Proof.
  intros K. induction p as [a|X f k IH|c u k IH]; cbn; [done| |]; split; auto.
  intros s. destruct (f (sv_kernel s)). apply K.
Qed.

(** An invariant the kernel, the recording of executions, admissions and results, and the
    methods under the lock preserve. *)
Lemma svop_always (I : Svc → Prop) w o :
  (∀ s k, I s → I (with_kernel k s)) → (∀ s l, I s → I (with_ran l s)) →
  (∀ f p id q s, I s → I (on_db (store_admit to_string from_str f p id q) s).2) →
  (∀ f p id v u s, I s → I (on_db (finish to_string f p id v u) s).2) →
  (∀ s, I s → I (svop_effect w o s)) →
  always (preserves I) (svop_prog to_string from_str w o).
Proof.
  intros K N A F O. destruct o; cbn [svop_prog svop_effect] in *;
    try (apply always_bind; [by apply always_one|done]); try (by apply always_modify).
  - apply always_bind; [|done]. unfold invoke.
    apply always_bind; [by apply always_read, _|]. intros [[logical owner]|e]; [|done].
    apply always_bind; [apply always_one; intros s Hs; by apply A|]. intros [[|v|]|e]; try done.
    apply always_bind; [by apply always_read, _|]. intros cur. destruct (negb _); [done|].
    apply always_bind.
    { unfold execute. apply always_bind; [apply always_modify; intros s Hs; by apply N|]. intros _. by apply lift_always. }
    intros vo. apply always_bind; [by apply always_read, _|]. intros live.
    apply always_bind; [apply always_one; intros s Hs; by apply F|]. by intros [u|e].
  - by apply lift_always.
  - apply always_modify. intros s Hs. by apply K.
Qed.

Lemma svc_ok_step w o s : svc_ok s → svc_ok (svop_effect w o s).
Proof.
  intros I. destruct o; cbn [svop_effect]; try done.
  - unfold provision. destruct (let? id := _ in _) as [id|e]; [|done]. by apply svc_ok_db; [apply set_desired_keeps|].
  - unfold provision_remote. destruct (let? id := _ in _) as [d|e]; [|done].
    pose proof (on_kernel_quiet (install_remote_definition d) s) as Q.
    destruct (on_kernel _ s). by eapply svc_ok_quiet.
  - by apply activate_ok.
  - by apply renew_ok.
  - by apply renew_seq_ok.
  - by apply release_lease_ok.
  - unfold lease_commit. destruct (validate _ _ _ _); [|done]. destruct (negb _); [done|].
    by apply svc_ok_db; [apply commit_effect_keeps|].
  - by apply grant_ok.
  - by apply revoke_ok.
  - destruct (sync_outbound_quiet want s) as [L R]. apply rest_authority in R as (? & ? & ?).
    by eapply svc_ok_same.
  - unfold tick. eapply svc_ok_retire_all in I.
    match goal with |- svc_ok (supervise_all _ _ _ ?a ?ts ?s1) =>
      destruct (supervise_all_spec to_string from_str w a ts s1) as [L R] end.
    apply rest_authority in R as (? & ? & ?). eapply svc_ok_sub; [exact I| |done..].
    intros t l' Hl. specialize (L t). rewrite Hl in L. inversion L. eauto.
  - unfold shutdown. apply svc_ok_retire_all. by eapply svc_ok_same.
Qed.

Lemma svc_ok_always w o : always (preserves svc_ok) (svop_prog to_string from_str w o).
Proof.
  apply svop_always; intros.
  - by eapply svc_ok_same.
  - by eapply svc_ok_same.
  - by apply svc_ok_db; [apply store_admit_keeps|].
  - by apply svc_ok_db; [apply finish_keeps|].
  - by apply svc_ok_step.
Qed.

(** Threads of the service, each a method in a world of its own. *)
Definition svc_threads (ops : list (World * SvcOp)) : list (sprog unit) :=
  (λ wo, svop_prog to_string from_str wo.1 wo.2) <$> ops.

Lemma svc_pool (I : Svc → Prop) ops s ps s' :
  (∀ s k, I s → I (with_kernel k s)) →
  Forall (λ wo, always (preserves I) (svop_prog to_string from_str wo.1 wo.2)) ops →
  rtc pool_step (svc_threads ops, s) (ps, s') → I s → I s'.
Proof.
  intros K F R Hs.
  assert (Adv : ∀ n s, I s → I (advance n s)) by (intros; by apply K).
  assert (F' : Forall (always (preserves I)) (svc_threads ops)) by by apply Forall_fmap.
  apply (always_pool I _ _ _ _ Adv F' Hs R).
Qed.

(** A state of a running service. *)
Definition svc_reachable (s : Svc) : Prop :=
  ∃ w secure locked integrity home epoch j attach allowed grants restart d s0 d' ops ps,
    service_open w secure locked integrity home epoch j attach allowed grants restart d = (Ok s0, d') ∧
    rtc pool_step (svc_threads ops, s0) (ps, s).

Lemma service_open_ok w secure locked integrity home epoch j attach allowed grants restart d s d' :
  service_open w secure locked integrity home epoch j attach allowed grants restart d = (Ok s, d') →
  sv_leases s = ∅ ∧ sv_grants s = grants ∧ sv_revoked s = db_revoked d ∧ db_revoked (sv_db s) = db_revoked d.
Proof.
  unfold service_open, store_open, revoked. intros H. repeat case_match; simplify_eq; done.
Qed.

Lemma svc_reachable_ok s : svc_reachable s → svc_ok s.
Proof.
  intros (w & sec & lk & int & home & ep & j & at_ & al & gr & rs & d & s0 & d' & ops & ps & O & R).
  apply service_open_ok in O as (L & _ & V & D).
  eapply (svc_pool svc_ok); [| |exact R|].
  - intros s1 k I. by eapply svc_ok_same.
  - apply Forall_forall. intros wo _. apply svc_ok_always.
  - split; rewrite ?L, ?V, ?D; try set_solver; try done. rewrite map_size_empty. lia.
Qed.

(** C4: The leases of a running service. Whatever methods of the service and of the kernel
    any number of threads run, in whatever interleaving and with whatever errors of the
    database, the file system and the random source: a lease is filed under its token, a
    component has at most one lease, there are at most 128, no lease belongs to a principal
    whose revocation is in force or durable, and the fence of a lease is the current fence
    of its component in the store. So a request the service validates is made under the
    only lease of the component, unexpired and healthy, by the principal that holds it, and
    with the fence the store accepts. *)
Theorem leases_invariant s : svc_reachable s →
  (∀ t l, sv_leases s !! t = Some l → l_token l = t ∧ l_principal l ∉ sv_revoked s ∧
     l_principal l ∉ db_revoked (sv_db s) ∧ db_fences (sv_db s) !! l_logical l = Some (l_fence l)) ∧
  (∀ t t' l l', sv_leases s !! t = Some l → sv_leases s !! t' = Some l' →
     l_logical l = l_logical l' → t = t') ∧
  size (sv_leases s) ≤ 128 ∧
  (∀ p t f l, validate s p t f = Ok l →
     l_principal l = p ∧ db_fences (sv_db s) !! l_logical l = Some f ∧ (now s < l_deadline l)%N ∧
     healthy l = true ∧
     ∀ p' t' f' l', validate s p' t' f' = Ok l' → l_logical l' = l_logical l → t' = t ∧ p' = p ∧ f' = f).
Proof.
  intros [T U B V F D]%svc_reachable_ok. split_and!; try done.
  - intros t l H. specialize (V t l H). split_and!; eauto.
  - intros p t f l (H & R & <- & <- & N & X & Y)%validate_ok. unfold healthy. rewrite X, Y.
    split_and!; eauto. intros p' t' f' l' (H' & _ & <- & <- & _)%validate_ok E'.
    assert (t' = t) as -> by eauto. by simplify_eq.
Qed.

(** Revocations of a principal survive everything but a grant to it. *)
Lemma revoked_stays p w o s : (∀ g, o ≠ SvGrant p g) →
  (p ∈ sv_revoked s → p ∈ sv_revoked (svop_effect w o s)) ∧
  (p ∈ db_revoked (sv_db s) → p ∈ db_revoked (sv_db (svop_effect w o s))).
Proof.
  intros N. destruct o; cbn [svop_effect]; try done.
  - unfold provision. destruct (let? id := _ in _) as [id|e]; [|done]. unfold on_db, set_desired.
    destruct (_ <? _)%N; [done|]. by destruct (w_db w _ _).
  - unfold provision_remote. destruct (let? id := _ in _) as [d|e]; [|done]. quiet_step Q.
    apply quiet_rest in Q as [_ (Q1 & _ & Q2)%rest_authority]. cbn. by rewrite Q1, Q2.
  - pose proof (activate_spec w principal logical ttl_ms s) as A.
    destruct (activate _ _ _ _ _ _ s) as [[v|e] s']; cbn.
    + destruct A as (_ & -> & -> & _). done.
    + destruct A as (_ & -> & -> & _). done.
  - unfold renew. by repeat case_match.
  - unfold renew_seq. by repeat case_match.
  - unfold release_lease. destruct (let? l := _ in _) as [l|e]; [|done].
    pose proof (retire_quiet to_string w l (with_leases (delete token (sv_leases s)) s)) as Q.
    destruct (retire _ _ _ _) as [v s']. apply quiet_rest in Q as [_ (Q1 & _ & Q2)%rest_authority]. cbn in *. by rewrite Q1, Q2.
  - unfold lease_commit. destruct (validate _ _ _ _); [|done]. destruct (negb _); [done|]. unfold on_db.
    pose proof (commit_effect_keeps (w_db w "commit_effect" operation) principal operation (l_logical a) fence
      key value (sv_db s)) as [_ K]. destruct (commit_effect _ _ _ _ _ _ _ _ _ _). cbn in *. by rewrite K.
  - unfold grant, on_db, set_revoked. destruct (w_db w _ _); [done|]. cbn.
    assert (p ≠ principal) by (intros ->; by eapply N). set_solver.
  - destruct (revoke_spec w principal s) as (-> & _ & _ & _ & ->). destruct (is_ok _); set_solver.
  - destruct (sync_outbound_quiet want s) as [_ (Q1 & _ & Q2)%rest_authority].
    by rewrite Q1, Q2.
  - unfold tick. match goal with |- context [supervise_all _ _ _ ?a ?ts (retire_all _ _ ?ts1 s)] =>
      destruct (supervise_all_spec to_string from_str w a ts (retire_all to_string w ts1 s)) as [_ R];
      destruct (retire_all_spec to_string w ts1 s) as [_ R'] end.
    rewrite R' in R. apply rest_authority in R as (Q1 & _ & Q2). by rewrite Q1, Q2.
  - unfold shutdown. match goal with |- context [retire_all _ _ ?ts1 ?s1] =>
      destruct (retire_all_spec to_string w ts1 s1) as [_ R] end.
    apply rest_authority in R as (Q1 & _ & Q2). by rewrite Q1, Q2.
Qed.

Lemma on_db_same {A} (f : Db → result A string * Db) s :
  sv_revoked (on_db f s).2 = sv_revoked s ∧ sv_leases (on_db f s).2 = sv_leases s ∧
  sv_db (on_db f s).2 = (f (sv_db s)).2.
Proof. unfold on_db. by destruct (f (sv_db s)). Qed.

Lemma revoked_always p w o : (∀ g, o ≠ SvGrant p g) →
  always (preserves (λ s, p ∈ sv_revoked s)) (svop_prog to_string from_str w o) ∧
  always (preserves (λ s, p ∈ db_revoked (sv_db s))) (svop_prog to_string from_str w o).
Proof.
  intros N. split; apply svop_always; try done; intros.
  - by rewrite (proj1 (on_db_same _ _)).
  - by rewrite (proj1 (on_db_same _ _)).
  - by apply revoked_stays.
  - rewrite (proj2 (proj2 (on_db_same _ _))). by rewrite (proj2 (store_admit_keeps _ _ _ _ _)).
  - rewrite (proj2 (proj2 (on_db_same _ _))). by rewrite (proj2 (finish_keeps _ _ _ _ _ _)).
  - by apply revoked_stays.
Qed.

(** What a revoked principal can still do: nothing. *)
Definition powerless (p : string) (s : Svc) : Prop :=
  authorized p s = false ∧ (∀ t l, sv_leases s !! t = Some l → l_principal l ≠ p) ∧
  (∀ t f, validate s p t f = Err "permission-denied") ∧
  (∀ w logical ttl, (activate to_string from_str w p logical ttl s).2 = s ∧
     is_ok (activate to_string from_str w p logical ttl s).1 = false) ∧
  (∀ t, lease_snapshot_by_token p t s = None) ∧ (∀ cap, grant_covers p cap s = false) ∧
  (∀ logical f owner, lease_live p logical f owner s = false).

Lemma revoked_powerless p s : svc_ok s → p ∈ sv_revoked s → powerless p s.
Proof.
  intros I R. pose proof (bool_decide_eq_true_2 (p ∈ sv_revoked s) R) as Rb.
  unfold powerless, authorized, validate, activate, lease_snapshot_by_token, grant_covers, lease_live.
  rewrite Rb. cbn. rewrite andb_false_r. split_and!; try done.
  - intros t l H <-. by apply (so_unrevoked _ I) in H.
  - intros w logical ttl. by destruct (negb _).
Qed.

(** C5: Revocation is final until the operator grants anew. After [revoke] of a principal,
    even when the database refuses to record it, in every interleaving of any methods
    except a grant to this principal: it is not authorized, holds no lease, validates
    nothing, activates nothing and is live nowhere. When the database did record it, a
    service opened on any later state of the database refuses the principal from the
    start. *)
Theorem revocation_final w p s ops ps s' :
  svc_reachable s → (∀ wo g, wo ∈ ops → wo.2 ≠ SvGrant p g) →
  rtc pool_step (svc_threads ops, (revoke to_string w p s).2) (ps, s') →
  powerless p s' ∧
  ((revoke to_string w p s).1 = Ok tt →
   ∀ w secure locked integrity home epoch j attach allowed grants restart s2 d2,
     service_open w secure locked integrity home epoch j attach allowed grants restart (sv_db s') = (Ok s2, d2) →
     powerless p s2).
Proof.
  intros I%svc_reachable_ok N R. destruct (revoke_spec w p s) as (R1 & _ & _ & _ & D1).
  assert (A : Forall (λ wo, always (preserves (λ s, p ∈ sv_revoked s)) (svop_prog to_string from_str wo.1 wo.2) ∧
      always (preserves (λ s, p ∈ db_revoked (sv_db s))) (svop_prog to_string from_str wo.1 wo.2)) ops).
  { apply Forall_forall. intros wo Hwo. apply revoked_always. intros g. by apply N. }
  apply Forall_and in A as [A1 A2]. split.
  - apply revoked_powerless.
    + eapply (svc_pool svc_ok); [|apply Forall_forall; intros wo _; apply svc_ok_always|exact R|by apply revoke_ok].
      intros s1 k I1. by eapply svc_ok_same.
    + eapply (svc_pool (λ s, p ∈ sv_revoked s)); [done|exact A1|exact R|]. rewrite R1. set_solver.
  - intros Ok_ w2 secure locked integrity home epoch j attach allowed grants restart s2 d2 O.
    assert (P : p ∈ db_revoked (sv_db s')).
    { eapply (svc_pool (λ s, p ∈ db_revoked (sv_db s))); [done|exact A2|exact R|]. rewrite D1, Ok_. set_solver. }
    apply revoked_powerless.
    + apply svc_reachable_ok. do 12 eexists. exists s2, d2, [], []. split; [exact O|]. apply rtc_refl.
    + apply service_open_ok in O as (_ & _ & -> & _). done.
Qed.

(** A renewal whose answer was lost cannot be retried. After a renewal with a sequence
    number rotated the token, the same request (the old token, the same number) is refused
    as stale, in every state where the old token has not been issued again: the replay of
    an answered number is reached only under the new token. *)
Theorem renewal_retry_refused w p t f q ttl s v s1 w' ttl' :
  renew_replay p t f q s = None → renew_seq w p t f q ttl s = (Ok v, s1) → w_token w ≠ Ok t →
  range_ttl ttl' = true →
  renew_seq w' p t f q ttl' s1 = (Err "stale-generation", s1) ∧
  ∃ l, w_token w = Ok (l_token l) ∧ sv_leases s1 !! l_token l = Some l ∧ l_renew_seq l = q ∧
       renew_replay p (l_token l) f q s1 = Some l.
Proof.
  unfold renew_seq. intros RR H N T'. destruct (range_ttl ttl) eqn:T; cbn [negb] in H; [|done].
  destruct (q =? 0)%N eqn:Z; [done|]. rewrite RR in H.
  destruct (validate s p t f) as [l|e] eqn:V; [|done]. apply validate_ok in V as (L & R & P & F & D & X & Y).
  destruct (q <? l_renew_seq l)%N; [done|]. destruct (w_token w) as [new|e]; [|done].
  injection H as <- <-. assert (new ≠ t) by congruence. split.
  - rewrite T'. cbn. unfold renew_replay, validate. cbn.
    rewrite lookup_insert_ne, lookup_delete_eq by done. cbn. by rewrite bool_decide_eq_false_2.
  - exists (rotate new (now s + ttl) q l). cbn. rewrite lookup_insert_eq. split_and!; try done.
    unfold renew_replay. cbn. rewrite lookup_insert_eq. cbn. rewrite bool_decide_eq_true_2 by done.
    unfold range_ttl in T. nbool. unfold healthy, now. cbn. rewrite X, Y, F, !N.eqb_refl. cbn.
    replace (_ <? _)%N with true; [done|]. symmetry. apply N.ltb_lt. unfold now. lia.
Qed.

(** A turn of the supervisor. It retires the leases that have expired at its start and
    no others; every lease that stays keeps its principal, component, token, fence,
    deadline and sequence number, and one that has failed stays failed. Authority is never
    extended by supervision. *)
Theorem tick_expires w s t :
  option_Forall2 same_lease
    (l ← sv_leases s !! t; if (l_deadline l <=? now s)%N then None else Some l)
    (sv_leases (tick to_string from_str w s) !! t) ∧
  sv_revoked (tick to_string from_str w s) = sv_revoked s ∧
  db_fences (sv_db (tick to_string from_str w s)) = db_fences (sv_db s).
Proof.
  unfold tick. match goal with |- context [supervise_all _ _ _ ?a ?ts (retire_all _ _ ?ts1 s)] =>
      destruct (supervise_all_spec to_string from_str w a ts (retire_all to_string w ts1 s)) as [L R];
      destruct (retire_all_spec to_string w ts1 s) as [L' R'] end.
  rewrite R' in R. apply rest_authority in R as (-> & -> & _). split; [|done].
  specialize (L t). rewrite L' in L. case_bool_decide as X.
  - apply tokens_where_spec in X as (l & H & D). rewrite H. cbn. by rewrite D.
  - destruct (sv_leases s !! t) as [l|] eqn:H; [|done]. cbn. destruct (_ <=? _)%N eqn:D; [|done].
    destruct X. apply tokens_where_spec. eauto.
Qed.
End props.

(** ** A service with one component *)

Definition demo_print (v : Value) : string :=
  match get_str "id" v with Some id => "manifest " +:+ id | None => toy_to_string v end.
Definition demo_parse (s : string) : result Value string :=
  if bool_decide (s = "manifest store") then Ok store_json else Ok (JString s).

Definition demo_world (token : string) : World :=
  mkWorld (Ok token) (λ _ _, None) (λ _, None) (λ _, true) (λ _ _, true).

Definition demo_grants : gmap string Grant :=
  {["ann" := mkGrant {["store"]} {["store.kv@1"]}]}.

Definition demo_svc0 : Svc :=
  match (service_open (demo_world "") true false "ok" "/home" 7 (journal_open [] false) Ok ∅ demo_grants ∅
           empty_db).1 with
  | Ok s => s
  | Err _ => mkSvc demo_fresh empty_db 0 "" ∅ ∅ ∅ ∅ ∅ ∅ false []
  end.

Definition demo_svc_ops : list (World * SvcOp) :=
  [(demo_world "", SvProvision store_json); (demo_world "tok-1", SvActivate "ann" "store" 1000);
   (demo_world "", SvInvoke "ann" "tok-1" 1 "op-1" "store.kv@1" (JString "x"))].

(** The three methods one after the other. *)
Definition demo_svc_run := exec (concat [[0]; [1]; repeat 2 60]) (svc_threads demo_print demo_parse demo_svc_ops, demo_svc0).
Definition demo_svc : Svc := demo_svc_run.2.

Lemma demo_svc_reachable : svc_reachable demo_print demo_parse demo_svc.
Proof.
  exists (demo_world ""), true, false, "ok", "/home", 7%N, (journal_open [] false), Ok, ∅, demo_grants, ∅, empty_db,
    demo_svc0, (sv_db demo_svc0), demo_svc_ops, demo_svc_run.1.
  split; [by vm_compute|]. unfold demo_svc, demo_svc_run. apply exec_rtc.
Qed.

Example demo_svc_leased :
  (l_fence <$> sv_leases demo_svc !! "tok-1") = Some 1%N ∧ sv_ran demo_svc = [("ann", "op-1")] ∧
  operation demo_parse "ann" "op-1" (sv_db demo_svc) = Ok (obj [("state", JString "completed"); ("result", JString "null")]).
Proof. by vm_compute. Qed.

Lemma leases_invariant_witness :
  size (sv_leases demo_svc) ≤ 128 ∧ ∃ l, validate demo_svc "ann" "tok-1" 1 = Ok l ∧
    db_fences (sv_db demo_svc) !! l_logical l = Some 1%N.
Proof.
  destruct (leases_invariant demo_print demo_parse demo_svc demo_svc_reachable) as (_ & _ & B & V).
  split; [exact B|]. destruct (validate demo_svc "ann" "tok-1" 1) as [l|e] eqn:E; [|by vm_compute in E].
  exists l. split; [done|]. by apply (V "ann" "tok-1" 1%N).
Defined.

Lemma revocation_final_witness :
  (revoke demo_print (demo_world "") "ann" demo_svc).1 = Ok tt ∧
  powerless demo_print demo_parse "ann"
    (exec [0; 0] (svc_threads demo_print demo_parse [(demo_world "tok-2", SvActivate "ann" "store" 1000)],
                  (revoke demo_print (demo_world "") "ann" demo_svc).2)).2.
Proof.
  split; [by vm_compute|].
  refine (proj1 (revocation_final demo_print demo_parse (demo_world "") "ann" demo_svc
            [(demo_world "tok-2", SvActivate "ann" "store" 1000)] _ _ demo_svc_reachable _ (exec_rtc _ _ _))).
  intros wo g ->%list_elem_of_singleton. done.
Defined.

Lemma renewal_retry_refused_witness :
  let s1 := (renew_seq (demo_world "tok-2") "ann" "tok-1" 1 1 1000 demo_svc).2 in
  renew_seq (demo_world "tok-3") "ann" "tok-1" 1 1 1000 s1 = (Err "stale-generation", s1).
Proof.
  intros s1.
  destruct (renew_seq (demo_world "tok-2") "ann" "tok-1" 1 1 1000 demo_svc) as [[v|e] s2] eqn:E.
  - refine (proj1 (renewal_retry_refused (demo_world "tok-2") "ann" "tok-1" 1 1 1000 demo_svc v s1
      (demo_world "tok-3") 1000 _ E _ _)); [by vm_compute|done..].
  - apply (f_equal (λ x, is_ok x.1)) in E. by vm_compute in E.
Defined.
