(* ===== verification/Executor.v ===== *)
(** * Executor side of a remote session ([matrix-runtime/src/route_executor.rs])

    A [Route] serves one accepted session against the service. Its tables have a lock
    each; a handler is a program of actions, one per lock taken, so that the handlers of
    every session, the methods of the service and those of the kernel interleave. The
    thread that [on_call_open] starts does all that follows, so both are one program.
    [rt_sent] records the envelopes handed to the session and whether it took them, [rt_injected] the calls of
    [Host::inject_provider_chunk_owned]. The watcher of [remote_session_server.rs] is at
    the end. *)

From S2P Require Import Prelude RustStd Json Utf8 Identity Contexts Resources Deps Calls Journal Manifest Prog.
From S2P Require Import KernelState KernelCalls KernelLifecycle KernelDispatch KernelActions Inventory.
From S2P Require Import Wire Dependency Remote Base64 Store Session Service.
From Stdlib Require Import Ascii.

Record OpProvider : Type := mkOpProvider {
  op_logical : string;
  op_owner : InstanceRef;
  op_fence : N;
}.

Record ExecStream : Type := mkExecStream {
  es_next_seq : N;
  es_received : N;
  es_granted : N;
  es_ended : bool;
  es_operation : string;
}.

Record Route : Type := mkRoute {
  rt_session : Sess;
  rt_legs : gset string;
  rt_opening : gmap string string;
  rt_cancelled : gset string;
  rt_subs : gset string;
  rt_seqs : gmap string N;         (* the provider of every key is "*" *)
  rt_delivered : N;
  rt_dropped : N;
  rt_op_provider : gmap string OpProvider;
  rt_op_order : list string;
  rt_streams : gmap string ExecStream;
  rt_stream_received : N;
  rt_stream_dropped : N;
  rt_sent : list (Value * bool);
  rt_injected : list (InstanceRef * string * N * bytes);
}.

Definition MAX_LEGS : nat := 256.

Definition route_new (session : Sess) : Route :=
  mkRoute session ∅ ∅ ∅ ∅ ∅ 0 0 ∅ [] ∅ 0 0 [] [].

#[export] Instance route_inhabited : Inhabited Route :=
  populate (route_new (spawn default_session_limits "" "" 0)).

(** ** Field updates *)

Definition rt_with_session (v : Sess) (sent : list (Value * bool)) (r : Route) : Route :=
  mkRoute v (rt_legs r) (rt_opening r) (rt_cancelled r) (rt_subs r) (rt_seqs r) (rt_delivered r)
    (rt_dropped r) (rt_op_provider r) (rt_op_order r) (rt_streams r) (rt_stream_received r)
    (rt_stream_dropped r) (rt_sent r ++ sent) (rt_injected r).
Definition rt_with_legs (v : gset string) (r : Route) : Route :=
  mkRoute (rt_session r) v (rt_opening r) (rt_cancelled r) (rt_subs r) (rt_seqs r) (rt_delivered r)
    (rt_dropped r) (rt_op_provider r) (rt_op_order r) (rt_streams r) (rt_stream_received r)
    (rt_stream_dropped r) (rt_sent r) (rt_injected r).
Definition rt_with_opening (v : gmap string string) (r : Route) : Route :=
  mkRoute (rt_session r) (rt_legs r) v (rt_cancelled r) (rt_subs r) (rt_seqs r) (rt_delivered r)
    (rt_dropped r) (rt_op_provider r) (rt_op_order r) (rt_streams r) (rt_stream_received r)
    (rt_stream_dropped r) (rt_sent r) (rt_injected r).
Definition rt_with_cancelled (v : gset string) (r : Route) : Route :=
  mkRoute (rt_session r) (rt_legs r) (rt_opening r) v (rt_subs r) (rt_seqs r) (rt_delivered r)
    (rt_dropped r) (rt_op_provider r) (rt_op_order r) (rt_streams r) (rt_stream_received r)
    (rt_stream_dropped r) (rt_sent r) (rt_injected r).
Definition rt_with_subs (v : gset string) (r : Route) : Route :=
  mkRoute (rt_session r) (rt_legs r) (rt_opening r) (rt_cancelled r) v (rt_seqs r) (rt_delivered r)
    (rt_dropped r) (rt_op_provider r) (rt_op_order r) (rt_streams r) (rt_stream_received r)
    (rt_stream_dropped r) (rt_sent r) (rt_injected r).
Definition rt_with_events (seqs : gmap string N) (delivered dropped : N) (r : Route) : Route :=
  mkRoute (rt_session r) (rt_legs r) (rt_opening r) (rt_cancelled r) (rt_subs r) seqs delivered
    dropped (rt_op_provider r) (rt_op_order r) (rt_streams r) (rt_stream_received r)
    (rt_stream_dropped r) (rt_sent r) (rt_injected r).
Definition rt_with_providers (m : gmap string OpProvider) (order : list string) (r : Route) : Route :=
  mkRoute (rt_session r) (rt_legs r) (rt_opening r) (rt_cancelled r) (rt_subs r) (rt_seqs r) (rt_delivered r)
    (rt_dropped r) m order (rt_streams r) (rt_stream_received r)
    (rt_stream_dropped r) (rt_sent r) (rt_injected r).
Definition rt_with_streams (v : gmap string ExecStream) (r : Route) : Route :=
  mkRoute (rt_session r) (rt_legs r) (rt_opening r) (rt_cancelled r) (rt_subs r) (rt_seqs r) (rt_delivered r)
    (rt_dropped r) (rt_op_provider r) (rt_op_order r) v (rt_stream_received r)
    (rt_stream_dropped r) (rt_sent r) (rt_injected r).
Definition rt_with_counts (received dropped : N) (r : Route) : Route :=
  mkRoute (rt_session r) (rt_legs r) (rt_opening r) (rt_cancelled r) (rt_subs r) (rt_seqs r) (rt_delivered r)
    (rt_dropped r) (rt_op_provider r) (rt_op_order r) (rt_streams r) received
    dropped (rt_sent r) (rt_injected r).
Definition rt_inject (c : InstanceRef * string * N * bytes) (r : Route) : Route :=
  mkRoute (rt_session r) (rt_legs r) (rt_opening r) (rt_cancelled r) (rt_subs r) (rt_seqs r) (rt_delivered r)
    (rt_dropped r) (rt_op_provider r) (rt_op_order r) (rt_streams r) (rt_stream_received r)
    (rt_stream_dropped r) (rt_sent r) (rt_injected r ++ [c]).

(** ** The service with its routes *)

Record Exec : Type := mkExec { ex_svc : Svc; ex_routes : gmap N Route }.

Definition with_svc (s : Svc) (x : Exec) : Exec := mkExec s (ex_routes x).
Definition with_route (r : N) (rt : Route) (x : Exec) : Exec :=
  mkExec (ex_svc x) (<[r := rt]> (ex_routes x)).
Definition route (r : N) (x : Exec) : Route := ex_routes x !!! r.

#[export] Instance exec_clock : Clock Exec := {
  clock x := clock (ex_svc x);
  advance n x := with_svc (advance n (ex_svc x)) x;
}.

Notation eprog := (prog Exec).

(** The actions of a program of the service. *)
Fixpoint lift_svc {A} (p : sprog A) : eprog A :=
  match p with
  | Ret a => Ret a
  | Act f k => Act (λ x, let '(a, s) := f (ex_svc x) in (a, with_svc s x)) (λ a, lift_svc (k a))
  | Wait c u k => Wait (λ x, c (ex_svc x)) u (λ b, lift_svc (k b))
  end.

(** One lock of one route. *)
Definition on_rt {X} (r : N) (f : Route → X * Route) : eprog X :=
  act (λ x, let '(a, rt) := f (route r x) in (a, with_route r rt x)).
Definition read_rt {X} (r : N) (f : Route → X) : eprog X := read (λ x, f (route r x)).
Definition upd_rt (r : N) (f : Route → Route) : eprog unit := on_rt r (λ rt, (tt, f rt)).
Definition read_svc {X} (f : Svc → X) : eprog X := read (λ x, f (ex_svc x)).
Definition on_store {A} (f : Db → result A string * Db) : eprog (result A string) := lift_svc (act (on_db f)).

Definition rid_of (env : Value) : string := default "" (get_str "request_id" env).
Definition body_of (env : Value) : Value := default JNull (get "body" env).

Definition principal_of (r : N) (x : Exec) : string := se_peer (rt_session (route r x)).

(** What the outside decides during one handler: [World]; whether the threads of the handler of a
    [call.open], of its leg and of its kernel call start; and whether the kernel's answer misses the
    budget of the leg. *)
Record LegWorld : Type := mkLegWorld {
  lw_world : World;
  lw_handler : bool;
  lw_leg : bool;
  lw_invoker : bool;
  lw_late : bool;
}.

Section executor.
Context {E : Env} (to_string : Value → string) (from_str : string → result Value string).

Definition to_vec (v : Value) : bytes := chars (to_string v).

(** [session.send_control] and [send_data], with the answer of the session. *)
Definition send (data : bool) (env : Value) (rt : Route) : result unit string * Route :=
  let '(r, s) := (if data then send_data else send_control) to_vec env (rt_session rt) in
  (r, rt_with_session s [(env, is_ok r)] rt).

Definition answer_env (ty rid session_id : string) (body : Value) : Value :=
  obj [("protocol", JString "matrix.remote"); ("version", JString "0.1"); ("type", JString ty);
       ("message_id", JString rid); ("session_id", JString session_id); ("request_id", JString rid);
       ("body", body)].

Definition answer (r : N) (ty rid : string) (body : Value) : eprog unit :=
  if str_is_empty rid then Ret tt
  else upd_rt r (λ rt, (send false (answer_env ty rid (se_id (rt_session rt)) body) rt).2).

(** ** Calls *)

Definition accepted (r : N) (rid : string) (persisted : bool) : eprog unit :=
  answer r "call.accepted" rid (obj [("status", JString "admitted"); ("persisted", JBool persisted)]).

(** The kinds [ok] and [ok-replay], and the error kind. *)
Definition ok_body (output : Value) : Value :=
  obj [("status", JString "ok"); ("output", output); ("terminal", JBool true)].
Definition error_body (code message : string) : Value :=
  obj [("status", JString "error");
       ("error", obj [("code", JString code); ("message", JString message)]); ("terminal", JBool true)].

Definition terminal (r : N) (rid : string) (body : Value) : eprog unit := answer r "call.result" rid body.

Definition refuse (r : N) (rid : string) (persisted : bool) (code message : string) : eprog unit :=
  do! accepted r rid persisted; terminal r rid (error_body code message).

(** [budget]: [Duration::from_millis(timeout_ms.max(1).min(35_000))]. *)
Definition leg_budget (timeout_ms : N) : N := N.min (N.max timeout_ms 1) 35000.

Definition timeout_value : Value :=
  obj [("error", JString "executor timeout"); ("code", JString "deadline-exceeded")].

(** [Service::invoke_with_budget] from a leg: the kernel's call runs on a thread of its own;
    when its answer does not arrive in time, what it still does is of that thread. A thread that
    does not start drops its end of the channel, which reads as a timeout at once. *)
Definition invoke_with_budget (w : LegWorld) (key : string * string) (owner : InstanceRef) (cap : string)
    (input : Value) (until : Instant) : eprog (Value * bool) :=
  if negb (lw_invoker w) then Ret (timeout_value, false)
  else if lw_late w then
    do! lift_svc (modify (λ s, with_ran (sv_ran s ++ [key]) s));
    Wait (λ _, false) until (λ _, Ret (timeout_value, false))
  else lift_svc (execute key (invoke_for_ref owner cap input)).

Definition coded (code : string) : Value := obj [("code", JString code)].

Definition remove_opening (r : N) (rid : string) : eprog unit :=
  upd_rt r (λ rt, rt_with_opening (delete rid (rt_opening rt)) rt).

Definition cancelled (r : N) (operation : string) : eprog bool :=
  read_rt r (λ rt, bool_decide (operation ∈ rt_cancelled rt)).

Definition remote_code (v : Value) : string := default "remote-error" (get_str "code" v).

Definition run_leg (w : LegWorld) (r : N) (rid operation principal logical : string) (owner : InstanceRef)
    (fence : N) (cap : string) (input : Value) (timeout_ms : N) : eprog unit :=
  let! start := read_svc now in
  let store_finish res unknown :=
    on_store (finish to_string (w_db (lw_world w) "finish" operation) principal operation res unknown) in
  let! cur := read_svc (λ s, instance_ref_of logical (sv_kernel s)) in
  if negb (bool_decide (cur = Some owner)) then
    do! remove_opening r rid;
    do! store_finish (obj [("ok", JBool false); ("value", coded "stale-generation")]) false;
    terminal r rid (error_body "stale-generation" "activation superseded")
  else
  let! early := cancelled r operation in
  if (early : bool) then
    do! remove_opening r rid;
    do! store_finish (obj [("ok", JBool false); ("value", coded "cancelled")]) true;
    terminal r rid (error_body "cancelled" "cancelled before dispatch")
  else
  let! sent_at := read_svc now in
  let! vo := invoke_with_budget w (principal, operation) owner cap input
               (N.max (start + leg_budget timeout_ms) (sent_at + 1)) in
  let! was_cancelled := cancelled r operation in
  let! current := read_svc (lease_live principal logical fence owner) in
  let unknown := negb current ||
    bool_decide (code_of vo.1 ∈ ["outcome-unknown"; "deadline-exhausted"; "cancelled"]) in
  let res := if negb current then lost_result
             else if (was_cancelled : bool) then durable_result false (coded "cancelled")
             else durable_result vo.2 vo.1 in
  do! store_finish res (unknown || was_cancelled);
  do! remove_opening r rid;
  do! upd_rt r (λ rt, rt_with_cancelled (rt_cancelled rt ∖ {[operation]}) rt);
  if was_cancelled then terminal r rid (error_body "cancelled" "cancelled before persist")
  else if unknown then terminal r rid (error_body "outcome-unknown" "authority lost before persist")
  else
    do! upd_rt r (λ rt, rt_with_legs ({[operation]} ∪ rt_legs rt) rt);
    if vo.2 then terminal r rid (ok_body vo.1)
    else terminal r rid (error_body (remote_code vo.1) (to_string vo.1)).

(** [while map.len() > max_legs { pop_front, remove }] *)
Fixpoint evict (order : list string) (m : gmap string OpProvider) : gmap string OpProvider * list string :=
  if size m <=? MAX_LEGS then (m, order)
  else match order with
       | [] => (m, [])
       | old :: order => evict order (delete old m)
       end.

Definition add_provider (operation : string) (p : OpProvider) (rt : Route) : Route :=
  let order := if is_some (rt_op_provider rt !! operation) then rt_op_order rt
               else rt_op_order rt ++ [operation] in
  let '(m, order) := evict order (<[operation := p]> (rt_op_provider rt)) in
  rt_with_providers m order rt.

Definition on_call_open (w : LegWorld) (r : N) (env : Value) : eprog unit :=
  let rid := rid_of env in
  let! principal := read (principal_of r) in
  let body := body_of env in
  let operation := default "" (get_str "operation_id" body) in
  if str_is_empty operation || (128 <? str_len operation)%N then
    refuse r rid false "invalid-message" "bad operation_id"
  else
  let! known := read_rt r (λ rt, bool_decide (operation ∈ rt_legs rt)) in
  if (known : bool) then
    let! done := read_svc (λ s, Store.operation from_str principal operation (sv_db s)) in
    match done with
    | Ok done =>
        if bool_decide (get_str "state" done = Some "completed") then
          do! accepted r rid true;
          terminal r rid (ok_body (j_opt (get "result" done)))
        else refuse r rid false "outcome-unknown" "leg in flight; query later"
    | Err _ => refuse r rid false "outcome-unknown" "leg in flight; query later"
    end
  else
  let! full := read_rt r (λ rt, MAX_LEGS <=? size (rt_legs rt)) in
  if (full : bool) then refuse r rid false "resource-exhausted" "too many remote legs"
  else
  let lease := default "" (get_str "lease" body) in
  let cap := default "" (get_str "cap" body) in
  let input := default JNull (get "input" body) in
  let timeout_ms := default 0%N (get_u64 "timeout_ms" body) in
  let! snapshot := read_svc (lease_snapshot_by_token principal lease) in
  match snapshot with
  | None => refuse r rid false "permission-denied" "lease refused"
  | Some (logical, owner, fence) =>
      let! covered := read_svc (grant_covers principal cap) in
      if negb covered then refuse r rid false "permission-denied" "capability not granted"
      else
      let! provided := read_svc (λ s, provides_cap logical cap (sv_kernel s)) in
      if negb provided then refuse r rid false "permission-denied" "capability not provided"
      else
      let! adm := on_store (store_admit to_string from_str (w_db (lw_world w) "store_admit" operation)
                              principal operation (call_request logical cap input)) in
      match adm with
      | Ok (Completed done) =>
          do! accepted r rid true;
          let value := default JNull (get "value" done) in
          if bool_decide (get "ok" done ≫= as_bool = Some true) then terminal r rid (ok_body value)
          else terminal r rid (error_body (remote_code value) (to_string value))
      | Ok Unknown => refuse r rid true "outcome-unknown" "operation unknown; query later"
      | Err e =>
          refuse r rid false (if bool_decide (e = "operation-id-conflict") then "operation-id-conflict"
                              else "resource-exhausted") "admission refused"
      | Ok New =>
          do! accepted r rid false;
          do! upd_rt r (λ rt, rt_with_opening (<[rid := operation]> (rt_opening rt)) rt);
          do! upd_rt r (add_provider operation (mkOpProvider logical owner fence));
          if lw_leg w then
            run_leg w r rid operation principal logical owner fence cap input timeout_ms
          else Ret tt
      end
  end.

Definition on_call_cancel (r : N) (env : Value) : eprog unit :=
  match get_str "operation_id" (body_of env) with
  | Some op =>
      if str_is_empty op then Ret tt
      else upd_rt r (λ rt, rt_with_cancelled ({[op]} ∪ rt_cancelled rt) rt)
  | None => Ret tt
  end.

(** ** Queries, renewals, inventory *)

Definition on_op_query (r : N) (env : Value) : eprog unit :=
  let rid := rid_of env in
  let! principal := read (principal_of r) in
  let operation := default "" (get_str "operation_id" (body_of env)) in
  let! done := read_svc (λ s, Store.operation from_str principal operation (sv_db s)) in
  match done with
  | Ok done => answer r "op.result" rid (obj [("state", j_opt (get "state" done)); ("result", j_opt (get "result" done))])
  | Err _ => answer r "op.result" rid (obj [("state", JString "unknown")])
  end.

Definition on_lease_renew (w : LegWorld) (r : N) (env : Value) : eprog unit :=
  let rid := rid_of env in
  let! principal := read (principal_of r) in
  let body := body_of env in
  let token := default "" (get_str "token" body) in
  let fence := default u64_max (s ← get_str "fence" body; parse_u64 (chars s)) in
  let ttl_ms := default 0%N (get_u64 "ttl_ms" body) in
  let seq := default 0%N (get_u64 "seq" body) in
  let! res := lift_svc (act (renew_seq (lw_world w) principal token fence seq ttl_ms)) in
  match res with
  | Ok v => answer r "lease.renewed" rid
              (obj [("status", JString "ok"); ("token", j_opt (get "lease" v)); ("seq", j_u64 seq)])
  | Err e => answer r "lease.renewed" rid
              (obj [("status", JString (if bool_decide (e = "stale-generation") then "stale" else "retired"));
                    ("token", JString token); ("seq", j_u64 seq)])
  end.

(** The operations of the controller the ledger never saw. *)
Fixpoint revoked_ids (principal : string) (ops : list Value) : eprog (list string) :=
  match ops with
  | [] => Ret []
  | op :: ops =>
      let id := default "" (get_str "operation_id" op) in
      if str_is_empty id then revoked_ids principal ops
      else
        let! known := read_svc (λ s, is_ok (Store.operation from_str principal id (sv_db s))) in
        let! rest := revoked_ids principal ops in
        Ret (if (known : bool) then rest else id :: rest)
  end.

Definition end_streams (ids : list string) (rt : Route) : Route :=
  rt_with_streams ((λ st, if bool_decide (es_operation st ∈ ids)
                          then mkExecStream (es_next_seq st) (es_received st) (es_granted st) true (es_operation st)
                          else st) <$> rt_streams rt) rt.

(** The attested activations of a report, the first 256. *)
Definition activations (report : Value) : list Value :=
  let active := List.filter (λ c, bool_decide (get_str "state" c = Some "Active"))
                  (default [] (get_array "instances" report)) in
  let all := List.map (λ c, obj [("logical", j_opt (get "logical" c));
                                 ("instance", JString (to_string (j_opt (get "instance" c))));
                                 ("generation", JString (to_string (j_opt (get "generation" c))))]) active in
  merge_sort (λ a b, String.le (default "" (get_str "logical" a)) (default "" (get_str "logical" b)))
    (take 256 all).

Definition on_inventory (r : N) (env : Value) : eprog unit :=
  let rid := rid_of env in
  let! principal := read (principal_of r) in
  let! revoked := revoked_ids principal (default [] (get_array "operations" (body_of env))) in
  do! (if bool_decide (revoked = []) then Ret tt else upd_rt r (end_streams revoked));
  let! report := lift_svc (lift inventory) in
  answer r "inventory.result" rid
    (obj [("revoked", JArray (List.map (λ id, obj [("operation_id", JString id)]) revoked));
          ("unknown", JArray []); ("activations", JArray (activations report))]).

(** ** Events *)

Definition on_subscribe (r : N) (env : Value) : eprog unit :=
  let topics := take 128 (omap as_str (default [] (get_array "topics" (body_of env)))) in
  do! upd_rt r (rt_with_subs (list_to_set topics));
  answer r "event.subscribed" (rid_of env) (obj [("topics", j_strs topics)]).

Definition event_env (seq : N) (session_id instance generation topic : string) (payload : Value) : Value :=
  obj [("protocol", JString "matrix.remote"); ("version", JString "0.1"); ("type", JString "event.deliver");
       ("message_id", JString ("ev-" +:+ display seq)); ("session_id", JString session_id);
       ("instance_id", JString instance); ("generation", JString generation);
       ("body", obj [("topic", JString topic); ("payload", payload); ("seq", j_u64 seq)])].

(** [current_all().values().next()]. *)
Definition some_activation (s : Svc) : string * string :=
  let t := k_contexts (sv_kernel s) in
  match omap (λ kv, by_instance t !! kv.2) (map_to_list (current_by_logical t)) with
  | c :: _ => (display (cr_instance c), display (cr_generation c))
  | [] => ("0", "0")
  end.

Definition on_local_emit (r : N) (topic : string) (payload : Value) : eprog unit :=
  let! wanted := read_rt r (λ rt, bool_decide (topic ∈ rt_subs rt)) in
  if negb wanted then Ret tt
  else
  let! seq := on_rt r (λ rt, let n := (default 0%N (rt_seqs rt !! topic) + 1)%N in
                (n, rt_with_events (<[topic := n]> (rt_seqs rt)) (rt_delivered rt) (rt_dropped rt) rt)) in
  let! inst := read_svc some_activation in
  let! sent := on_rt r (λ rt, send false (event_env seq (se_id (rt_session rt)) inst.1 inst.2 topic payload) rt) in
  upd_rt r (λ rt, if is_ok sent then rt_with_events (rt_seqs rt) (rt_delivered rt + 1) (rt_dropped rt) rt
                  else rt_with_events (rt_seqs rt) (rt_delivered rt) (rt_dropped rt + 1) rt).

(** ** Streams *)

Definition INITIAL_GRANT : N := 65536.
Definition MAX_STREAM_BYTES : N := 1048576.
Definition TOPUP : N := 32768.

Inductive Out : Type := OutAccept (grant_topup : N) | OutOver | OutIgnore.

Definition new_stream : ExecStream := mkExecStream 0 0 INITIAL_GRANT false "".

Definition tag_stream (operation : string) (st : ExecStream) : ExecStream :=
  if str_is_empty (es_operation st) && negb (str_is_empty operation) then
    mkExecStream (es_next_seq st) (es_received st) (es_granted st) (es_ended st) operation
  else st.

(** The top-up of a window that is draining. *)
Definition topup (received granted : N) : N :=
  if (granted <? received + TOPUP)%N && (granted <? MAX_STREAM_BYTES)%N then
    N.min TOPUP (MAX_STREAM_BYTES - granted)
  else 0.

Definition take_bytes (next received : N) (st : ExecStream) : Out * ExecStream :=
  let t := topup received (es_granted st) in
  (OutAccept t, mkExecStream next received (es_granted st + t) (es_ended st) (es_operation st)).

Definition stream_step (seq len : N) (st : ExecStream) : Out * ExecStream :=
  if es_ended st then (OutIgnore, st)
  else if (es_next_seq st =? 0)%N && (es_received st =? 0)%N then
    take_bytes (seq + 1) (es_received st + len) st
  else if negb (seq =? es_next_seq st)%N then (OutIgnore, st)
  else if (es_granted st <? N.min (es_received st + len) u64_max)%N
       || (MAX_STREAM_BYTES <? N.min (es_received st + len) u64_max)%N then
    (OutOver, mkExecStream (es_next_seq st) (es_received st) (es_granted st) true (es_operation st))
  else take_bytes (es_next_seq st + 1) (es_received st + len) st.

(** The critical section on [streams]; [None] when the table is full. *)
Definition stream_take (stream_id operation : string) (seq len : N) (rt : Route) : option Out * Route :=
  if negb (is_some (rt_streams rt !! stream_id)) && (128 <=? size (rt_streams rt)) then (None, rt)
  else
    let st := tag_stream operation (default new_stream (rt_streams rt !! stream_id)) in
    let '(out, st) := stream_step seq len st in
    (Some out, rt_with_streams (<[stream_id := st]> (rt_streams rt)) rt).

(** [String::from_utf8_lossy]: a replacement character for every invalid sequence. *)
Fixpoint from_utf8_lossy (fuel : nat) (l : bytes) : bytes :=
  match fuel, l with
  | O, _ | _, [] => []
  | S fuel, _ =>
      match utf8_head l with
      | Ok n => take n l ++ from_utf8_lossy fuel (drop n l)
      | Err (Some n) => encode_utf8 65533 ++ from_utf8_lossy fuel (drop n l)
      | Err None => encode_utf8 65533
      end
  end.

Definition count_dropped (r : N) : eprog unit :=
  upd_rt r (λ rt, rt_with_counts (rt_stream_received rt) (rt_stream_dropped rt + 1) rt).

Definition send_notice (r : N) (ty message_id : string) (body : Value) : eprog unit :=
  upd_rt r (λ rt, (send false (notice ty message_id (se_id (rt_session rt)) body) rt).2).

(** The chunk goes to the activation attested at admission, while it is current and its
    lease is live. *)
Definition inject_chunk (r : N) (operation stream_id : string) (seq : N) (decoded : bytes) : eprog unit :=
  if str_is_empty operation then Ret tt
  else
  let! mapping := read_rt r (λ rt, rt_op_provider rt !! operation) in
  match mapping with
  | None => Ret tt
  | Some m =>
      let! principal := read (principal_of r) in
      let! cur := read_svc (λ s, instance_ref_of (op_logical m) (sv_kernel s)) in
      if negb (bool_decide (cur = Some (op_owner m))) then Ret tt
      else
      let! live := read_svc (lease_live principal (op_logical m) (op_fence m) (op_owner m)) in
      if negb live then Ret tt
      else upd_rt r (rt_inject (op_owner m, stream_id, seq, from_utf8_lossy (length decoded) decoded))
  end.

Definition on_stream_data (r : N) (env : Value) : eprog unit :=
  let body := body_of env in
  let stream_id := default "" (get_str "stream_id" body) in
  let seq := default u64_max (get_u64 "seq" body) in
  let bytes_b64 := default "" (get_str "bytes" body) in
  let operation := default "" (get_str "operation_id" body) in
  if str_is_empty stream_id || (128 <? str_len stream_id)%N || (seq =? u64_max)%N then Ret tt
  else
  match b64_decode (chars bytes_b64) with
  | None => Ret tt
  | Some decoded =>
      let len := N.of_nat (length decoded) in
      let! out := on_rt r (stream_take stream_id operation seq len) in
      match out with
      | None => Ret tt
      | Some OutIgnore => count_dropped r
      | Some OutOver =>
          do! count_dropped r;
          send_notice r "stream.cancel" ("sx-" +:+ stream_id)
            (obj [("stream_id", JString stream_id); ("status", JString "error")])
      | Some (OutAccept t) =>
          do! upd_rt r (λ rt, rt_with_counts (rt_stream_received rt + len) (rt_stream_dropped rt) rt);
          do! (if (0 <? t)%N then
                 send_notice r "stream.credit" ("sc-" +:+ stream_id +:+ "-" +:+ display seq)
                   (obj [("stream_id", JString stream_id); ("credit", j_u64 t)])
               else Ret tt);
          inject_chunk r operation stream_id seq decoded
      end
  end.

Definition on_stream_terminal (r : N) (env : Value) : eprog unit :=
  let stream_id := default "" (get_str "stream_id" (body_of env)) in
  if str_is_empty stream_id then Ret tt
  else upd_rt r (λ rt, rt_with_streams (alter (λ st,
         mkExecStream (es_next_seq st) (es_received st) (es_granted st) true (es_operation st))
         stream_id (rt_streams rt)) rt).

Definition send_stream_chunk (r : N) (stream_id : string) (seq : N) (payload : bytes) : eprog unit :=
  if str_is_empty stream_id || (128 <? str_len stream_id)%N then Ret tt
  else
    let body := obj [("stream_id", JString stream_id); ("seq", j_u64 seq);
                     ("bytes", JString (of_chars (b64_encode payload))); ("credit", j_u64 0)] in
    if negb (is_ok (Remote.validate_body "stream.data" body)) then Ret tt
    else upd_rt r (λ rt, (send true (notice "stream.data" ("xd-" +:+ stream_id +:+ "-" +:+ display seq)
                            (se_id (rt_session rt)) body) rt).2).

Definition notify_revoked (r : N) (target : string) (fence : N) : eprog unit :=
  send_notice r "revoke.notice" ("rev-" +:+ display fence)
    (obj [("target", JString target); ("fence", JString (display fence))]).

(** ** Dispatch *)

Definition on_message (w : LegWorld) (r : N) (env : Value) : eprog unit :=
  let ty := default "" (get_str "type" env) in
  if bool_decide (ty = "call.open") then (if lw_handler w then on_call_open w r env else Ret tt)
  else if bool_decide (ty = "call.cancel") then on_call_cancel r env
  else if bool_decide (ty = "op.query") then on_op_query r env
  else if bool_decide (ty = "lease.renew") then on_lease_renew w r env
  else if bool_decide (ty = "inventory.reconcile") then on_inventory r env
  else if bool_decide (ty = "event.subscribe") then on_subscribe r env
  else if bool_decide (ty = "stream.data") then on_stream_data r env
  else if bool_decide (ty = "stream.complete") || bool_decide (ty = "stream.cancel") then
    on_stream_terminal r env
  else Ret tt.

(** One round of [Route::watch]: the providers live at the last round that are not now. *)
Definition watch_round (r : N) (last : list (string * N)) : eprog (option (list (string * N))) :=
  let! st := read_rt r (λ rt, session_state (rt_session rt)) in
  if bool_decide (st = Detached) then Ret None
  else
    let! principal := read (principal_of r) in
    let! cur := read_svc (live_provider_fences principal) in
    do! for_each last (λ lf, if is_some (assoc lf.1 cur) then Ret tt else notify_revoked r lf.1 lf.2);
    Ret (Some cur).

(** ** The listener and the taps of [serve_remote_session] *)

Definition welcome_body (epoch : N) (hello : Value) : result Value string :=
  Ok (obj [("version", JString "0.1");
           ("features", j_strs ["remote-calls/1"; "remote-streams/1"; "remote-events/1"; "remote-ops/1"]);
           ("executor_epoch", JString (display epoch)); ("limits", obj [("max_frame", j_u64 1048576)]);
           ("domain", j_opt (get "domain" hello))]).

(** One accepted connection: a session of an authorized peer gets a route, number [r]. *)
Definition serve_accept (io : HandshakeIo) (session_id message_id : string) (r : N) : eprog bool :=
  act (λ x,
    let s := ex_svc x in
    match accept to_vec io default_session_limits (λ p, authorized p s) (welcome_body (sv_epoch s))
            session_id message_id (now s) with
    | Ok (sess, _) => (true, with_route r (route_new (set_handler sess)) x)
    | Err _ => (false, x)
    end).

Definition every_route (f : N → eprog unit) : eprog unit :=
  let! routes := read (λ x, (map_to_list (ex_routes x)).*1) in for_each routes f.

Definition event_tap (topic : string) (payload : Value) : eprog unit :=
  every_route (λ r, on_local_emit r topic payload).
Definition stream_tap (stream_id : string) (seq : N) (payload : bytes) : eprog unit :=
  every_route (λ r, send_stream_chunk r stream_id seq payload).
Definition notify_remote_revoked (target : string) (fence : N) : eprog unit :=
  every_route (λ r, notify_revoked r target fence).

Definition route_inspect (rt : Route) : Value :=
  obj [("legs", j_u64 (N.of_nat (size (rt_legs rt)))); ("opening", j_u64 (N.of_nat (size (rt_opening rt))));
       ("subs", j_strs (elements (rt_subs rt))); ("delivered", j_u64 (rt_delivered rt));
       ("dropped", j_u64 (rt_dropped rt)); ("streams", j_u64 (N.of_nat (size (rt_streams rt))));
       ("stream_received", j_u64 (rt_stream_received rt)); ("stream_dropped", j_u64 (rt_stream_dropped rt))].

(** ** The threads of an executor *)

Inductive ExecOp : Type :=
| XMessage (r : N) (env : Value)
| XAccept (io : HandshakeIo) (session_id message_id : string) (r : N)
| XEmit (topic : string) (payload : Value)
| XChunk (stream_id : string) (seq : N) (payload : bytes)
| XWatch (r : N) (last : list (string * N))
| XNotify (target : string) (fence : N)
| XService (o : SvcOp).

Definition exop_prog (w : LegWorld) (o : ExecOp) : eprog unit :=
  match o with
  | XMessage r env => on_message w r env
  | XAccept io sid mid r => do! serve_accept io sid mid r; Ret tt
  | XEmit topic payload => event_tap topic payload
  | XChunk sid seq payload => stream_tap sid seq payload
  | XWatch r last => do! watch_round r last; Ret tt
  | XNotify target fence => notify_remote_revoked target fence
  | XService o => lift_svc (svop_prog to_string from_str (lw_world w) o)
  end.

Definition exec_threads (ops : list (LegWorld * ExecOp)) : list (eprog unit) :=
  (λ wo, exop_prog wo.1 wo.2) <$> ops.
End executor.
