(* ===== verification/ExecutorProps.v ===== *)
(** * What a route answers and accepts

    Every call is acknowledged and then answered once, whatever happens in between; the
    bytes of a stream are bounded and in order, with the exception of the first chunk; an
    attested activation, or nobody, receives a chunk. Two defects of the replay of results
    and of deadlines are stated at the end. *)

From S2P Require Import Prelude RustStd Json Utf8 Identity Contexts Resources Deps Calls Journal Manifest Prog.
From S2P Require Import KernelState KernelCalls KernelLifecycle KernelDispatch KernelActions Inventory.
From S2P Require Import Guard Remote Base64 KernelDemo Store StoreProps Session Service ServiceProps Executor.

(** ** Answers

    [heard r p l a]: the thread [p] hands the envelopes [l] to the session of route [r], each with
    the session's answer, and returns [a], in some execution. The state before each of its actions is arbitrary, so
    every interleaving with other threads is covered. *)

Fixpoint heard (r : N) {A} (p : eprog A) (l : list (Value * bool)) (a : A) : Prop :=
  match p with
  | Ret b => l = [] ∧ b = a
  | Act f k => ∃ x l1 l2, l = l1 ++ l2 ∧ rt_sent (route r (f x).2) = rt_sent (route r x) ++ l1 ∧
                          heard r (k (f x).1) l2 a
  | Wait _ _ k => ∃ b, heard r (k b) l a
  end.

Definition silent (r : N) (x x' : Exec) : Prop := rt_sent (route r x') = rt_sent (route r x).

Lemma heard_bind r {A B} (p : eprog A) (f : A → eprog B) l b : heard r (bind p f) l b →
  ∃ l1 l2 a, l = l1 ++ l2 ∧ heard r p l1 a ∧ heard r (f a) l2 b.
Proof.
  revert l. induction p as [a|X g k IH|c u k IH]; intros l H.
  - by exists [], l, a.
  - destruct H as (x & l1 & l2 & -> & S & H). apply IH in H as (l3 & l4 & a & -> & H1 & H2).
    exists (l1 ++ l3), l4, a. split_and!; [by rewrite app_assoc| |done]. by exists x, l1, l3.
  - destruct H as [b' H]. apply IH in H as (l1 & l2 & a & -> & H1 & H2). exists l1, l2, a.
    split_and!; [done| |done]. by exists b'.
Qed.

Lemma heard_silent r {A} (p : eprog A) l a : always (silent r) p → heard r p l a → l = [].
Proof.
  revert l. induction p as [b|X f k IH|c u k IH]; intros l P H; [by destruct H|..]; destruct P as [Hf Hk].
  - destruct H as (x & l1 & l2 & -> & S & H). specialize (Hf x). unfold silent in Hf.
    rewrite Hf, <- (app_nil_r (rt_sent (route r x))) in S at 1. apply app_inv_head in S as <-. by apply (IH _ l2 (Hk _)) in H.
  - destruct H as [b H]. by apply (IH b l (Hk b)).
Qed.

(** A silent part, then the rest. *)
Lemma heard_skip r {A B} (p : eprog A) (f : A → eprog B) l b :
  always (silent r) p → heard r (bind p f) l b → ∃ a, heard r (f a) l b.
Proof. intros P (l1 & l2 & a & -> & H1%heard_silent & H2)%heard_bind; [|done]. subst. by exists a. Qed.

Lemma silent_read r {X} (f : Exec → X) : always (silent r) (read f).
Proof. by apply always_read. Qed.

Lemma silent_upd r (f : Route → Route) : (∀ rt, rt_sent (f rt) = rt_sent rt) → always (silent r) (upd_rt r f).
Proof.
  intros F. apply always_one. intros x. unfold silent, route, with_route. cbn. by rewrite lookup_total_insert_eq, F.
Qed.

Lemma silent_svc r {A} (p : sprog A) : always (silent r) (lift_svc p).
Proof.
  induction p as [a|X f k IH|c u k IH]; cbn; [done| |]; split; try done.
  intros x. by destruct (f (ex_svc x)).
Qed.

(** What a program hands over when it runs alone. *)
Definition appends (r : N) (x x' : Exec) : Prop := ∃ l, rt_sent (route r x') = rt_sent (route r x) ++ l.

Lemma silent_appends r {A} (p : eprog A) : always (silent r) p → always (appends r) p.
Proof. apply always_impl. intros x x' S. exists []. by rewrite app_nil_r. Qed.

Lemma run_heard r {A} (p : eprog A) x : always (appends r) p →
  ∃ l, heard r p l (run p x).1 ∧ rt_sent (route r (run p x).2) = rt_sent (route r x) ++ l.
Proof.
  revert x. induction p as [a|X f k IH|c u k IH]; intros x P.
  - exists []. by rewrite app_nil_r.
  - destruct P as [Pf Pk]. rewrite run_Act. destruct (Pf x) as [l1 E1].
    destruct (IH (f x).1 (f x).2 (Pk _)) as (l2 & H & E2). exists (l1 ++ l2). split.
    + by exists x, l1, l2.
    + by rewrite E2, E1, app_assoc.
  - destruct P as [_ Pk]. rewrite run_Wait. destruct (IH (c x) (if c x then x else if (clock x <? u)%N
      then advance u x else x) (Pk _)) as (l & H & E). exists l. split; [by exists (c x)|]. rewrite E.
    by destruct (c x); [|destruct (_ <? _)%N].
Qed.

Section answers.
Context {E : Env} (to_string : Value → string) (from_str : string → result Value string).

Lemma send_sent data env rt :
  ∃ ok, rt_sent (send to_string data env rt).2 = rt_sent rt ++ [(env, ok)].
Proof. unfold send. destruct ((if data then _ else _) _ env (rt_session rt)). by eexists. Qed.

Lemma heard_answer r ty rid body l u : str_is_empty rid = false →
  heard r (answer to_string r ty rid body) l u → ∃ sid ok, l = [(answer_env ty rid sid body, ok)].
Proof.
  unfold answer. intros ->. intros (x & l1 & l2 & -> & S & [-> _]). unfold route, with_route in S. cbn in S.
  rewrite lookup_total_insert_eq in S. destruct (send_sent false (answer_env ty rid
    (se_id (rt_session (ex_routes x !!! r))) body) (ex_routes x !!! r)) as [ok Eq]. rewrite Eq in S.
  apply app_inv_head in S as <-. eauto.
Qed.

Definition result_body (body : Value) : Prop :=
  (∃ v, body = ok_body v) ∨ ∃ code message, body = error_body code message.

Definition accepted_env (rid sid : string) (persisted : bool) : Value :=
  answer_env "call.accepted" rid sid (obj [("status", JString "admitted"); ("persisted", JBool persisted)]).

(** The acknowledgement of [rid] and its one terminal, handed to the session. *)
Definition answered (rid : string) (l : list (Value * bool)) : Prop :=
  ∃ sid sid' ok ok' persisted body,
    l = [(accepted_env rid sid persisted, ok); (answer_env "call.result" rid sid' body, ok')] ∧ result_body body.

(** The acknowledgement alone. *)
Definition only_acknowledged (rid : string) (l : list (Value * bool)) : Prop :=
  ∃ sid ok, l = [(accepted_env rid sid false, ok)].

Lemma heard_answered r rid b body l u : str_is_empty rid = false → result_body body →
  heard r (do! accepted to_string r rid b; terminal to_string r rid body) l u → answered rid l.
Proof.
  intros R B (l1 & l2 & a & -> & H1 & H2)%heard_bind.
  apply heard_answer in H1 as (sid & ok & ->); [|done]. apply heard_answer in H2 as (sid' & ok' & ->); [|done].
  by exists sid, sid', ok, ok', b, body.
Qed.

Lemma add_provider_sent op m rt : rt_sent (add_provider op m rt) = rt_sent rt.
Proof. unfold add_provider. by destruct (evict _ _). Qed.

Ltac skip_silent H :=
  apply heard_skip in H as [? H];
    [|lazymatch goal with
      | |- always _ (upd_rt _ (add_provider _ _)) => apply silent_upd; intros; apply add_provider_sent
      | |- always _ (upd_rt _ _) => by apply silent_upd
      | |- always _ (remove_opening _ _) => by apply silent_upd
      | |- always _ (on_store _) => apply silent_svc
      | |- _ => apply silent_read
      end].

Lemma heard_leg w r rid op p logical owner fence cap input ttl l u : str_is_empty rid = false →
  heard r (run_leg to_string w r rid op p logical owner fence cap input ttl) l u →
  ∃ sid body ok, l = [(answer_env "call.result" rid sid body, ok)] ∧ result_body body.
Proof.
  intros R H. unfold run_leg in H. do 2 skip_silent H.
  assert (T : ∀ body l u, result_body body → heard r (terminal to_string r rid body) l u →
    ∃ sid body ok, l = [(answer_env "call.result" rid sid body, ok)] ∧ result_body body).
  { intros body l0 u0 B (sid & ok & ->)%heard_answer; eauto. }
  assert (Er : ∀ code msg, result_body (error_body code msg)) by (unfold result_body; eauto).
  assert (Ok_ : ∀ v, result_body (ok_body v)) by (unfold result_body; eauto).
  destruct (negb _); [do 2 skip_silent H; (eapply T; [|exact H]; auto)|].
  skip_silent H. destruct x1; [do 2 skip_silent H; (eapply T; [|exact H]; auto)|]. skip_silent H.
  apply heard_skip in H as [vo H].
  2:{ unfold invoke_with_budget. destruct (lw_invoker w); [|done]. destruct (lw_late w); [|apply silent_svc].
      apply always_bind; [apply silent_svc|]. intros _. split; [|done]. by intros x'. }
  do 5 skip_silent H. destruct x2; [(eapply T; [|exact H]; auto)|]. destruct (_ || _); [(eapply T; [|exact H]; auto)|].
  skip_silent H. destruct vo.2; (eapply T; [|exact H]; auto).
Qed.

Lemma heard_open w r env l u : rid_of env ≠ "" →
  heard r (on_call_open to_string from_str w r env) l u →
  answered (rid_of env) l ∨ lw_leg w = false ∧ only_acknowledged (rid_of env) l.
Proof.
  intros R0 H. assert (R : str_is_empty (rid_of env) = false) by by apply bool_decide_eq_false_2.
  assert (Er : ∀ code msg, result_body (error_body code msg)) by (unfold result_body; eauto).
  assert (Ok_ : ∀ v, result_body (ok_body v)) by (unfold result_body; eauto).
  assert (D : ∀ b body l u, result_body body →
    heard r (do! accepted to_string r (rid_of env) b; terminal to_string r (rid_of env) body) l u →
    answered (rid_of env) l ∨ lw_leg w = false ∧ only_acknowledged (rid_of env) l)
    by (intros; left; by eapply heard_answered).
  unfold on_call_open in H. skip_silent H. destruct (_ || _); [(eapply D; [|exact H]; auto)|].
  skip_silent H. destruct x0.
  { skip_silent H. destruct x0 as [v|e]; [destruct (bool_decide _)|]; (eapply D; [|exact H]; auto). }
  skip_silent H. destruct x0; [(eapply D; [|exact H]; auto)|]. skip_silent H. destruct x0 as [[[logical owner] fence]|]; [|(eapply D; [|exact H]; auto)].
  skip_silent H. destruct (negb x0); [(eapply D; [|exact H]; auto)|]. skip_silent H. destruct (negb x1); [(eapply D; [|exact H]; auto)|].
  skip_silent H. destruct x2 as [[|v|]|e]; [|destruct (bool_decide _) in H|..]; try (eapply D; [|exact H]; auto).
  apply heard_bind in H as (l1 & l2 & a & -> & H1 & H). apply heard_answer in H1 as (sid & ok & ->); [|done].
  do 2 skip_silent H. destruct (lw_leg w).
  - apply heard_leg in H as (sid' & body & ok' & -> & B); [|done]. left. by exists sid, sid', ok, ok', false, body.
  - destruct H as [-> _]. right. split; [done|]. by exists sid, ok.
Qed.

(** Without a request id nothing is answered. *)
Lemma answer_appends r ty rid body : always (appends r) (answer to_string r ty rid body).
Proof.
  unfold answer. destruct (str_is_empty rid); [exact I|]. apply always_one. intros x. cbn.
  unfold appends, route, with_route. cbn. rewrite lookup_total_insert_eq. destruct (send_sent false (answer_env ty rid
    (se_id (rt_session (ex_routes x !!! r))) body) (ex_routes x !!! r)) as [ok ->]. eauto.
Qed.

Lemma appends_read r {X} (f : Exec → X) : always (appends r) (read f).
Proof. apply silent_appends, silent_read. Qed.
Lemma appends_svc r {A} (p : sprog A) : always (appends r) (lift_svc p).
Proof. apply silent_appends, silent_svc. Qed.
Lemma appends_upd r (f : Route → Route) : (∀ rt, rt_sent (f rt) = rt_sent rt) → always (appends r) (upd_rt r f).
Proof. intros F. by apply silent_appends, silent_upd. Qed.

Lemma open_appends w r env : always (appends r) (on_call_open to_string from_str w r env).
Proof.
  unfold on_call_open, run_leg, invoke_with_budget, refuse, accepted, terminal.
  repeat first
    [ apply answer_appends | apply always_bind; [|intros ?] | exact I | apply appends_read | apply appends_svc
    | apply appends_upd; intros; first [reflexivity|apply add_provider_sent]
    | match goal with
      | |- always _ (if ?b then _ else _) => destruct b
      | |- always _ (match ?x with _ => _ end) => destruct x
      | |- always _ (Wait _ _ _) => split; [intros ?; exists []; by rewrite app_nil_r|intros ?]
      end ].
Qed.

Lemma answer_nameless r ty body : answer to_string r ty "" body = Ret tt.
Proof. done. Qed.

Lemma silent_nameless w r env : rid_of env = "" → always (silent r) (on_call_open to_string from_str w r env).
Proof.
  intros R. unfold on_call_open, run_leg, invoke_with_budget, refuse, accepted, terminal. rewrite R.
  repeat first
    [ rewrite answer_nameless | apply always_bind; [|intros ?] | exact I | apply silent_read | apply silent_svc
    | apply silent_upd; intros; first [reflexivity|apply add_provider_sent]
    | match goal with
      | |- always _ (if ?b then _ else _) => destruct b
      | |- always _ (match ?x with _ => _ end) => destruct x
      | |- always _ (Wait _ _ _) => split; [by intros ?|intros ?]
      end ].
Qed.

(** C7: Every call that names its request is acknowledged and answered. A [call.open] with a request
    id hands to its session [call.accepted] and then one terminal [call.result] for this request, and
    nothing else: on every path, refusals, replays, cancellation, loss of the lease and deadlines
    included, and whatever other threads do between its steps. The exceptions are threads that do
    not start: without the thread of the handler nothing is sent; without the thread of the leg an
    admitted call is acknowledged and never answered. Without a request id nothing is sent. *)
Theorem call_answered w r env l u :
  get_str "type" env = Some "call.open" →
  heard r (on_message to_string from_str w r env) l u →
  if negb (lw_handler w) || bool_decide (rid_of env = "") then l = []
  else answered (rid_of env) l ∨ lw_leg w = false ∧ only_acknowledged (rid_of env) l.
Proof.
  intros T. unfold on_message. rewrite T, bool_decide_eq_true_2 by done.
  destruct (lw_handler w); cbn [negb orb]; [|by intros [-> _]]. case_bool_decide as R.
  - by apply heard_silent, silent_nameless.
  - by apply heard_open.
Qed.
End answers.

(** ** Streams *)

Fixpoint stream_run (chunks : list (N * N)) (st : ExecStream) : list (N * N) * ExecStream :=
  match chunks with
  | [] => ([], st)
  | (seq, len) :: chunks =>
      match stream_step seq len st with
      | (OutAccept _, st) => let '(l, st) := stream_run chunks st in ((seq, len) :: l, st)
      | (_, st) => stream_run chunks st
      end
  end.

Definition total (l : list (N * N)) : N := foldr (λ c n, c.2 + n)%N 0%N l.

Lemma total_app l l' : total (l ++ l') = (total l + total l')%N.
Proof. induction l as [|c l IH]; cbn; [done|]. unfold total in *. cbn. lia. Qed.

(** The state of a stream after the chunks [acc] were accepted. *)
Record stream_ok (acc : list (N * N)) (st : ExecStream) : Prop := {
  sk_received : es_received st = total acc;
  sk_granted : (es_granted st ≤ MAX_STREAM_BYTES)%N;
  sk_next : es_next_seq st = match acc with [] => 0 | (q, _) :: _ => q + N.of_nat (length acc) end%N;
  sk_order : ∀ i q n, acc !! i = Some (q, n) → q = (default 0 (fst <$> head acc) + N.of_nat i)%N;
  sk_window : 2 ≤ length acc → (es_received st ≤ es_granted st)%N;
  sk_cap : (es_received st ≤ N.max (default 0 (snd <$> head acc)) MAX_STREAM_BYTES)%N;
}.

Lemma topup_bound received granted : (granted ≤ MAX_STREAM_BYTES → granted + topup received granted ≤ MAX_STREAM_BYTES)%N.
Proof. unfold topup, TOPUP, MAX_STREAM_BYTES. destruct (_ && _); lia. Qed.

Lemma stream_step_ok acc seq len st : stream_ok acc st →
  match stream_step seq len st with
  | (OutAccept _, st') => stream_ok (acc ++ [(seq, len)]) st'
  | (_, st') => stream_ok acc st'
  end.
Proof.
  intros [R G N O W C]. unfold stream_step. destruct (es_ended st); [by split|].
  destruct ((es_next_seq st =? 0)%N && (es_received st =? 0)%N) eqn:F.
  - nbool. destruct acc as [|[q n] acc]; [|rewrite N in *; cbn in *; lia]. cbn in *.
    split; cbn; try lia.
    + by apply topup_bound.
    + intros [|i] q n; [|done]. intros [= <- <-]. cbn. lia.
  - destruct acc as [|[q0 n0] acc]; [cbn in *; rewrite N, R in F; done|]. cbn in N, C. clear F.
    destruct (negb (seq =? es_next_seq st)%N) eqn:Q; [by split|]. nbool. subst seq.
    destruct (_ || _) eqn:V; [by split|]. apply orb_false_iff in V as [V1%N.ltb_ge V2%N.ltb_ge].
    assert (u64_max > MAX_STREAM_BYTES)%N by done.
    assert (L1 : (es_received st + len ≤ es_granted st)%N) by lia.
    assert (L2 : (es_received st + len ≤ MAX_STREAM_BYTES)%N) by lia.
    unfold take_bytes. split; cbn.
    + rewrite R. change (total ((q0, n0) :: acc) + len = total (((q0, n0) :: acc) ++ [(es_next_seq st, len)]))%N.
      rewrite total_app. unfold total at 3. cbn [foldr snd]. lia.
    + by apply topup_bound.
    + rewrite N, length_app. cbn. lia.
    + intros i q n. change ((q0, n0) :: acc ++ [(es_next_seq st, len)])
        with (((q0, n0) :: acc) ++ [(es_next_seq st, len)]).
      rewrite lookup_app. destruct (((q0, n0) :: acc) !! i) as [[q' n']|] eqn:X.
      * intros [= -> ->]. by apply O in X.
      * apply lookup_ge_None in X. cbn [length] in X.
        destruct (i - length ((q0, n0) :: acc)) as [|j] eqn:J; cbn in J |- *; [|done].
        intros [= <- <-]. rewrite N. cbn. assert (i = S (length acc)) as -> by lia. lia.
    + lia.
    + lia.
Qed.

Lemma stream_run_ok acc chunks st : stream_ok acc st →
  stream_ok (acc ++ (stream_run chunks st).1) (stream_run chunks st).2.
Proof.
  revert acc st. induction chunks as [|[seq len] chunks IH]; intros acc st I; cbn; [by rewrite app_nil_r|].
  pose proof (stream_step_ok acc seq len st I) as I'. destruct (stream_step seq len st) as [[t| |] st']; auto.
  specialize (IH _ _ I'). destruct (stream_run chunks st') as [l st2]. cbn in *. by rewrite <- app_assoc in IH.
Qed.

(** The bytes of a stream. Of any chunks that arrive on a fresh stream, in any order
    and with repetitions: those accepted carry consecutive sequence numbers, the first one
    sets the base; what is received is the sum of their lengths; the grant never exceeds
    the cap of a stream; from the second accepted chunk on no more is received than was
    granted, so at most the cap or the first chunk. Once the stream has ended nothing is
    accepted. The first chunk is accepted whatever its length, beyond the grant too. *)
Theorem stream_bounds chunks :
  let '(acc, st) := stream_run chunks new_stream in
  es_received st = total acc ∧ (es_granted st ≤ MAX_STREAM_BYTES)%N ∧
  (∀ i q n, acc !! i = Some (q, n) → q = (default 0 (fst <$> head acc) + N.of_nat i)%N) ∧
  (2 ≤ length acc → (es_received st ≤ es_granted st)%N) ∧
  (es_received st ≤ N.max (default 0 (snd <$> head acc)) MAX_STREAM_BYTES)%N ∧
  (es_ended st = true → ∀ chunks', stream_run chunks' st = ([], st)) ∧
  ∀ seq len, (stream_run [(seq, len)] new_stream).1 = [(seq, len)].
Proof.
  assert (I : stream_ok [] new_stream) by (split; cbn; done || lia).
  apply (stream_run_ok _ chunks) in I. cbn [app] in I.
  destruct (stream_run chunks new_stream) as [acc st]. destruct I as [R G N O W C]. cbn in *.
  split_and!; try done. intros D chunks'. induction chunks' as [|[seq len] chunks' IH]; [done|].
  cbn. unfold stream_step. by rewrite D.
Qed.

(** ** The tables of a route *)

Record rt_ok (rt : Route) : Prop := {
  ro_streams : size (rt_streams rt) ≤ 128;
  ro_providers : size (rt_op_provider rt) ≤ MAX_LEGS;
  ro_nodup : NoDup (rt_op_order rt);
  ro_order : ∀ k, k ∈ rt_op_order rt ↔ is_Some (rt_op_provider rt !! k);
}.

Definition exec_ok (x : Exec) : Prop := ∀ r, rt_ok (route r x).

Lemma route_new_ok sess : rt_ok (route_new sess).
Proof.
  split; cbn; [rewrite map_size_empty; lia|rewrite map_size_empty; apply Nat.le_0_l|constructor|].
  intros k. rewrite lookup_empty. split; [set_solver|by intros []].
Qed.

Lemma evict_ok order m : NoDup order → (∀ k, k ∈ order ↔ is_Some (m !! k)) →
  let '(m', order') := evict order m in
  size m' ≤ MAX_LEGS ∧ NoDup order' ∧ ∀ k, k ∈ order' ↔ is_Some (m' !! k).
Proof.
  revert m. induction order as [|old order IH]; intros m N O.
  - assert (m = ∅) as ->.
    { apply map_empty. intros k. apply eq_None_not_Some. rewrite <- O. set_solver. }
    cbn [evict]. rewrite map_size_empty. change (0 <=? MAX_LEGS) with true. cbv iota.
    rewrite map_size_empty. split_and!; [apply Nat.le_0_l|constructor|]. intros k.
    rewrite lookup_empty. split; [set_solver|by intros []].
  - cbn [evict]. destruct (size m <=? MAX_LEGS) eqn:S; [apply Nat.leb_le in S; done|].
    apply NoDup_cons in N as [N1 N2]. apply IH; [done|]. intros k. destruct (decide (k = old)) as [->|Ne].
    + rewrite lookup_delete_eq. split; [done|by intros []].
    + rewrite lookup_delete_ne by done. rewrite <- O. set_solver.
Qed.

Lemma rt_ok_same rt rt' : rt_ok rt → size (rt_streams rt') = size (rt_streams rt) →
  rt_op_provider rt' = rt_op_provider rt → rt_op_order rt' = rt_op_order rt → rt_ok rt'.
Proof. intros [S P N O] H1 H2 H3. split; rewrite ?H1, ?H2, ?H3; done. Qed.

Lemma add_provider_ok op m rt : rt_ok rt → rt_ok (add_provider op m rt).
Proof.
  intros [S P N O]. unfold add_provider.
  pose proof (evict_ok (if is_some (rt_op_provider rt !! op) then rt_op_order rt else rt_op_order rt ++ [op])
    (<[op:=m]> (rt_op_provider rt))) as V. destruct (evict _ _) as [m' order'].
  destruct V as (V1 & V2 & V3); [..|by split].
  - destruct (rt_op_provider rt !! op) eqn:X; cbn; [done|]. apply NoDup_app. split_and!; [done| |apply NoDup_singleton].
    intros k Hk ->%list_elem_of_singleton. apply O in Hk as [? ?]. congruence.
  - intros k. destruct (decide (k = op)) as [->|Ne].
    + rewrite lookup_insert_eq. destruct (rt_op_provider rt !! op) eqn:X; cbn; [|set_solver].
      rewrite O, X. split; eauto.
    + rewrite lookup_insert_ne by done. rewrite <- O. destruct (rt_op_provider rt !! op); set_solver.
Qed.

Lemma stream_take_ok sid op seq len rt : rt_ok rt → rt_ok (stream_take sid op seq len rt).2.
Proof.
  intros [S P N O]. unfold stream_take. destruct (_ && _) eqn:F; [done|].
  destruct (stream_step _ _ _) as [out st]. split; cbn; try done. rewrite map_size_insert.
  destruct (rt_streams rt !! sid) eqn:X; [done|]. cbn [is_some negb andb] in F. apply Nat.leb_gt in F. lia.
Qed.

Lemma ok_on_rt {X} r (f : Route → X * Route) :
  (∀ rt, rt_ok rt → rt_ok (f rt).2) → always (preserves exec_ok) (on_rt r f).
Proof.
  intros F. apply always_one. intros x I r'. specialize (F _ (I r)). unfold route, with_route in *.
  destruct (f (ex_routes x !!! r)) as [a rt]. cbn in *. destruct (decide (r' = r)) as [->|Ne].
  - by rewrite lookup_total_insert_eq.
  - rewrite lookup_total_insert_ne by done. apply I.
Qed.

Lemma ok_upd r (f : Route → Route) : (∀ rt, rt_ok rt → rt_ok (f rt)) → always (preserves exec_ok) (upd_rt r f).
Proof. intros F. by apply ok_on_rt. Qed.

Lemma ok_read {X} (f : Exec → X) : always (preserves exec_ok) (read f).
Proof. apply always_read, _. Qed.

Lemma ok_svc {A} (p : sprog A) : always (preserves exec_ok) (lift_svc p).
Proof.
  induction p as [a|X f k IH|c u k IH]; cbn; [done| |]; split; try done; intros x I r; unfold route.
  - destruct (f (ex_svc x)). apply I.
  - apply I.
Qed.

Section tables.
Context {E : Env} (to_string : Value → string) (from_str : string → result Value string).

Lemma send_ok data env rt : rt_ok rt → rt_ok (send to_string data env rt).2.
Proof. intros I. unfold send. destruct ((if data then _ else _) _ _ _). by eapply rt_ok_same. Qed.

Lemma ok_answer r ty rid body : always (preserves exec_ok) (answer to_string r ty rid body).
Proof. unfold answer. case_match; [done|]. apply ok_upd. intros rt. apply send_ok. Qed.

(** Reads, transactions and updates that leave the bounded tables alone. *)
Ltac ok_step :=
  lazymatch goal with
  | |- always _ (Ret _) => done
  | |- always _ (answer _ _ _ _ _) => apply ok_answer
  | |- always _ (terminal _ _ _ _) => apply ok_answer
  | |- always _ (accepted _ _ _ _) => apply ok_answer
  | |- always _ (refuse _ _ _ _ _ _) => unfold refuse
  | |- always _ (send_notice _ _ _ _ _) => apply ok_upd; intros ? ?; by apply send_ok
  | |- always _ (upd_rt _ (add_provider _ _)) => apply ok_upd; intros ? ?; by apply add_provider_ok
  | |- always _ (upd_rt _ _) => apply ok_upd; intros ? ?; (by eapply rt_ok_same) || (by apply send_ok)
  | |- always _ (remove_opening _ _) => apply ok_upd; intros ? ?; by eapply rt_ok_same
  | |- always _ (count_dropped _) => apply ok_upd; intros ? ?; by eapply rt_ok_same
  | |- always _ (on_store _) => apply ok_svc
  | |- always _ (lift_svc _) => apply ok_svc
  | |- always _ (read _) => apply ok_read
  | |- always _ (read_svc _) => apply ok_read
  | |- always _ (read_rt _ _) => apply ok_read
  | |- always _ (cancelled _ _) => apply ok_read
  | |- always _ (bind _ _) => apply always_bind; [|intros ?]
  | |- always _ (match _ with _ => _ end) => case_match
  end.

Lemma run_leg_ok w r rid op p logical owner fence cap input ttl :
  always (preserves exec_ok) (run_leg to_string w r rid op p logical owner fence cap input ttl).
Proof.
  unfold run_leg, invoke_with_budget. repeat ok_step. split; [|done]. intros x I. exact I.
Qed.

Lemma on_call_open_ok w r env : always (preserves exec_ok) (on_call_open to_string from_str w r env).
Proof. unfold on_call_open. repeat ok_step. apply run_leg_ok. Qed.

Lemma revoked_ids_ok p ops : always (preserves exec_ok) (revoked_ids from_str p ops).
Proof. induction ops as [|o ops IH]; cbn [revoked_ids]; repeat ok_step; done. Qed.

Lemma on_message_ok w r env : always (preserves exec_ok) (on_message to_string from_str w r env).
Proof.
  unfold on_message. repeat ok_step; [apply on_call_open_ok|..].
  - unfold on_call_cancel. repeat ok_step.
  - unfold on_op_query. repeat ok_step.
  - unfold on_lease_renew. repeat ok_step.
  - unfold on_inventory. apply always_bind; [apply ok_read|]. intros p. apply always_bind; [apply revoked_ids_ok|].
    intros l. apply always_bind; [|intros _; repeat ok_step]. case_match; [done|].
    apply ok_upd. intros rt I. eapply rt_ok_same; [done|cbn; apply map_size_fmap|done..].
  - unfold on_subscribe. repeat ok_step.
  - unfold on_stream_data, inject_chunk. repeat (first [ok_step|apply ok_on_rt; intros ? ?; by apply stream_take_ok]).
  - unfold on_stream_terminal. case_match; [done|].
    apply ok_upd. intros rt I. eapply rt_ok_same; [done| |done..].
    cbn. by rewrite <- !(size_dom (D := gset string)), dom_alter_L.
Qed.

Lemma ok_for_each {A} (l : list A) f :
  (∀ a, always (preserves exec_ok) (f a)) → always (preserves exec_ok) (for_each l f).
Proof. intros F. by apply always_for_each. Qed.

Lemma exop_ok w o : always (preserves exec_ok) (exop_prog to_string from_str w o).
Proof.
  destruct o; cbn [exop_prog].
  - apply on_message_ok.
  - apply always_bind; [|done]. unfold serve_accept. apply always_one. intros x I. cbv beta zeta.
    destruct (accept _ _ _ _ _ _ _ _) as [[sess v]|e]; [|done].
    intros r'. unfold route, with_route. cbn. destruct (decide (r' = r)) as [->|Ne].
    + rewrite lookup_total_insert_eq. apply route_new_ok.
    + rewrite lookup_total_insert_ne by done. apply I.
  - unfold event_tap, every_route. repeat ok_step. apply ok_for_each. intros r. unfold on_local_emit.
    repeat (first [ok_step|apply ok_on_rt; intros ? ?; first [by apply send_ok|by eapply rt_ok_same]]).
    apply ok_upd. intros rt I. by case_match; eapply rt_ok_same.
  - unfold stream_tap, every_route. repeat ok_step. apply ok_for_each. intros r. unfold send_stream_chunk.
    repeat ok_step.
  - unfold watch_round. repeat ok_step. apply ok_for_each. intros [l f]. unfold notify_revoked. repeat ok_step.
  - unfold notify_remote_revoked, every_route. repeat ok_step. apply ok_for_each. intros r.
    unfold notify_revoked. repeat ok_step.
  - apply ok_svc.
Qed.

(** The tables a peer can fill are bounded. Starting from a service without routes,
    under any messages on any sessions and any interleaving, a route keeps at most 128
    streams and the owners of at most 256 operations, and the order of eviction lists
    exactly the operations kept, once each. *)
Theorem route_bounds ops s ps x r :
  rtc pool_step (exec_threads to_string from_str ops, mkExec s ∅) (ps, x) →
  size (rt_streams (route r x)) ≤ 128 ∧ size (rt_op_provider (route r x)) ≤ 256 ∧
  NoDup (rt_op_order (route r x)) ∧
  ∀ k, k ∈ rt_op_order (route r x) ↔ is_Some (rt_op_provider (route r x) !! k).
Proof.
  intros R. assert (I : exec_ok x); [|by destruct (I r)].
  assert (F : Forall (always (preserves exec_ok)) (exec_threads to_string from_str ops)).
  { apply Forall_forall. intros p ([w o] & -> & _)%list_elem_of_fmap. apply exop_ok. }
  assert (Adv : ∀ n x, exec_ok x → exec_ok (advance n x)) by by intros.
  refine (proj1 (always_pool exec_ok _ _ _ _ Adv F _ R)). intros r'. unfold route. cbn.
  rewrite lookup_total_empty. apply route_new_ok.
Qed.
End tables.

(** ** Executed alone *)

Lemma run_read_rt {X} r (f : Route → X) x : run (read_rt r f) x = (f (route r x), x).
Proof. done. Qed.
Lemma run_read_svc {X} (f : Svc → X) x : run (read_svc f) x = (f (ex_svc x), x).
Proof. done. Qed.
Lemma run_upd_rt r f x : run (upd_rt r f) x = (tt, with_route r (f (route r x)) x).
Proof. done. Qed.
Lemma route_with r rt x : route r (with_route r rt x) = rt.
Proof. unfold route, with_route. cbn. apply lookup_total_insert_eq. Qed.

Lemma run_on_store {A} (f : Db → result A string * Db) x :
  run (on_store f) x = let '(a, s) := on_db f (ex_svc x) in (a, with_svc s x).
Proof.
  change (on_store f) with (act (λ x, let '(a, s) := on_db f (ex_svc x) in (a, with_svc s x))).
  by rewrite run_act.
Qed.

Section alone.
Context {E : Env} (to_string : Value → string) (from_str : string → result Value string).

Lemma run_answer r ty rid body x : str_is_empty rid = false →
  run (answer to_string r ty rid body) x =
  (tt, with_route r (send to_string false (answer_env ty rid (se_id (rt_session (route r x))) body) (route r x)).2 x).
Proof. intros R. unfold answer. by rewrite R. Qed.

Lemma send_session data env rt : se_id (rt_session (send to_string data env rt).2) = se_id (rt_session rt).
Proof.
  unfold send, send_data, send_control, send_cmd, try_send. destruct data; repeat case_match; simplify_eq/=; try done.
Qed.

(** A failed call is replayed as a success. When an operation has finished on this
    session with an error (its row is completed, its result says [ok: false]) and the
    controller opens it again on the same session, the route answers [status: ok] with
    the whole recorded wrapper as the output. *)
Theorem error_replayed_as_success w r env x op text v :
  rid_of env ≠ "" → get_str "operation_id" (body_of env) = Some op → op ≠ "" → (str_len op ≤ 128)%N →
  op ∈ rt_legs (route r x) →
  db_operations (sv_db (ex_svc x)) !! (principal_of r x, op) = Some (mkOpRow text OpCompleted (Some text)) →
  from_str text = Ok (durable_result false v) →
  let sid := se_id (rt_session (route r x)) in
  (rt_sent (route r (run (on_call_open to_string from_str w r env) x).2)).*1 = (rt_sent (route r x)).*1 ++
    [answer_env "call.accepted" (rid_of env) sid (obj [("status", JString "admitted"); ("persisted", JBool true)]);
     answer_env "call.result" (rid_of env) sid (ok_body (durable_result false v))].
Proof.
  intros R0 O N L Leg Row P sid. assert (R : str_is_empty (rid_of env) = false) by by apply bool_decide_eq_false_2.
  unfold on_call_open. rewrite run_bind, run_read. cbv zeta.
  assert (O' : default "" (get_str "operation_id" (body_of env)) = op) by by rewrite O. rewrite O'.
  replace (str_is_empty op || _) with false.
  2:{ symmetry. apply orb_false_iff. split; [by apply bool_decide_eq_false_2|by apply N.ltb_ge]. }
  rewrite run_bind, run_read_rt, bool_decide_eq_true_2 by done. rewrite run_bind, run_read_svc.
  unfold Store.operation. rewrite Row. cbn [or_result or_state]. rewrite P. cbn [op_state_text].
  set (o := obj [("state", _); _]). assert (G1 : get_str "state" o = Some "completed") by done.
  assert (G2 : get "result" o = Some (durable_result false v)) by done.
  rewrite G1, G2, bool_decide_eq_true_2 by done. cbn [j_opt default].
  unfold accepted, terminal. rewrite run_bind, run_answer, run_answer by done. cbn [snd].
  rewrite !route_with, send_session.
  do 2 match goal with |- context [rt_sent (send _ _ ?e ?rt).2] => destruct (send_sent to_string false e rt) as [? ->] end.
  rewrite !fmap_app, <- app_assoc. done.
Qed.

(** A call that misses its deadline is recorded as completed. The leg whose kernel call
    does not answer within the budget records the timeout as the final result of the
    operation, although the call may still be running: later openings and queries get
    this result for good. *)
Theorem timeout_recorded_final w r rid op p logical owner fence cap input ttl x req :
  lw_invoker w = true → lw_late w = true → w_db (lw_world w) "finish" op = None → rid ≠ "" →
  instance_ref_of logical (sv_kernel (ex_svc x)) = Some owner → op ∉ rt_cancelled (route r x) →
  db_operations (sv_db (ex_svc x)) !! (p, op) = Some (mkOpRow req OpAdmitted None) →
  (str_len (to_string (durable_result false timeout_value)) ≤ MAX_BODY)%N →
  lease_live p logical fence owner (advance (now (ex_svc x) + leg_budget ttl) (ex_svc x)) = true →
  let x' := (run (run_leg to_string w r rid op p logical owner fence cap input ttl) x).2 in
  db_operations (sv_db (ex_svc x')) !! (p, op) =
    Some (mkOpRow req OpCompleted (Some (to_string (durable_result false timeout_value)))) ∧
  sv_ran (ex_svc x') = sv_ran (ex_svc x) ++ [(p, op)].
Proof.
  clear from_str. intros Inv Late Fault R0 Ref Nc Row Sz Live x'.
  assert (R : str_is_empty rid = false) by by apply bool_decide_eq_false_2.
  subst x'. unfold run_leg. rewrite run_bind, run_read_svc, run_bind, run_read_svc, Ref.
  rewrite bool_decide_eq_true_2 by done. cbn [negb]. unfold cancelled.
  rewrite run_bind, run_read_rt, bool_decide_eq_false_2 by done. rewrite run_bind, run_read_svc.
  set (until := ((_ `max` _)%N)).
  assert (U : until = (now (ex_svc x) + leg_budget ttl)%N).
  { subst until. unfold leg_budget. lia. }
  unfold invoke_with_budget. rewrite Inv, Late, run_bind. cbn [negb].
  set (x1 := with_svc (advance until (with_ran (sv_ran (ex_svc x) ++ [(p, op)]) (ex_svc x))) x).
  replace (run (do! lift_svc _; _) x) with ((timeout_value, false), x1).
  2:{ change (run (do! lift_svc _; _) x) with
        ((timeout_value, false), if (clock (ex_svc x) <? until)%N then x1
         else with_svc (with_ran (sv_ran (ex_svc x) ++ [(p, op)]) (ex_svc x)) x).
      replace (_ <? until)%N with true; [done|]. symmetry. apply N.ltb_lt. rewrite U.
      change (clock _) with (now (ex_svc x)). unfold leg_budget. lia. }
  rewrite run_bind, run_read_rt. change (route r x1) with (route r x). rewrite bool_decide_eq_false_2 by done.
  rewrite run_bind, run_read_svc.
  assert (Live' : lease_live p logical fence owner (ex_svc x1) = true) by (by rewrite <- Live, <- U).
  rewrite Live'. change (code_of (timeout_value, false).1) with "deadline-exceeded".
  rewrite bool_decide_eq_false_2 by set_solver. cbn [negb orb fst snd].
  rewrite run_bind, run_on_store, Fault. unfold on_db, finish.
  assert (Row' : db_operations (sv_db (ex_svc x1)) !! (p, op) = Some (mkOpRow req OpAdmitted None)) by done.
  apply N.ltb_ge in Sz. rewrite Sz, Row'. cbn [or_state or_request]. rewrite bool_decide_eq_true_2 by done.
  unfold remove_opening, terminal. rewrite run_bind, run_upd_rt, run_bind, run_upd_rt, run_bind, run_upd_rt.
  rewrite run_answer by done. cbn -[timeout_value durable_result]. by rewrite lookup_insert_eq.
Qed.
End alone.

(** ** A service with two sessions of one peer *)

Definition demo_leg : LegWorld := mkLegWorld (demo_world "tok-9") true true true false.
Definition demo_route (id : string) : Route := route_new (spawn default_session_limits id "ann" 0).
Definition demo_exec : Exec :=
  mkExec (with_ran [] demo_svc) {[1%N := demo_route "sess-1"; 2%N := demo_route "sess-2"]}.

Definition open_env (rid op : string) : Value :=
  obj [("type", JString "call.open"); ("request_id", JString rid);
       ("body", obj [("operation_id", JString op); ("lease", JString "tok-1"); ("cap", JString "store.kv@1");
                     ("input", JString "x"); ("timeout_ms", j_u64 500)])].

(** The same operation opened on both sessions at once. *)
Definition demo_opens : list (LegWorld * ExecOp) :=
  [(demo_leg, XMessage 1 (open_env "q-1" "op-9")); (demo_leg, XMessage 2 (open_env "q-2" "op-9"))].
Definition demo_open_run : list (eprog unit) * Exec :=
  exec (concat (repeat [0; 1] 60)) (exec_threads demo_print demo_parse demo_opens, demo_exec).

Definition sent_summary (rt : Route) : list (option string * option string) :=
  (λ e, (get_str "type" e, b ← get "body" e; get_str "status" b)) <$> (rt_sent rt).*1.

Example demo_open_once :
  sv_ran (ex_svc demo_open_run.2) = [("ann", "op-9")] ∧
  sent_summary (route 1 demo_open_run.2) =
    [(Some "call.accepted", Some "admitted"); (Some "call.result", Some "ok")] ∧
  sent_summary (route 2 demo_open_run.2) =
    [(Some "call.accepted", Some "admitted"); (Some "call.result", Some "error")].
Proof. by vm_compute. Qed.

Lemma route_bounds_witness : size (rt_op_provider (route 1
  (exec [0; 0; 0] (exec_threads demo_print demo_parse demo_opens, mkExec demo_svc ∅)).2)) ≤ 256.
Proof.
  refine (proj1 (proj2 (route_bounds demo_print demo_parse demo_opens demo_svc _ _ 1 (exec_rtc _ _ _)))).
Defined.

(** The call of a leaseholder runs; without the thread of its leg it is acknowledged and left. *)
Definition legless : LegWorld := mkLegWorld (demo_world "tok-9") true false true false.

Lemma call_answered_witness :
  (∃ l, heard 1 (on_message demo_print demo_parse demo_leg 1 (open_env "q-1" "op-9")) l tt ∧
     sent_summary (route 1 (run (on_message demo_print demo_parse demo_leg 1 (open_env "q-1" "op-9")) demo_exec).2) =
       [(Some "call.accepted", Some "admitted"); (Some "call.result", Some "ok")] ∧ answered "q-1" l) ∧
  ∃ l, heard 1 (on_message demo_print demo_parse legless 1 (open_env "q-1" "op-9")) l tt ∧
     length l = 1 ∧ only_acknowledged "q-1" l.
Proof.
  assert (T : get_str "type" (open_env "q-1" "op-9") = Some "call.open") by done.
  assert (H : ∀ w, lw_handler w = true → ∃ l,
    heard 1 (on_message demo_print demo_parse w 1 (open_env "q-1" "op-9")) l tt ∧
    rt_sent (route 1 (run (on_message demo_print demo_parse w 1 (open_env "q-1" "op-9")) demo_exec).2) = l).
  { intros w Hw. assert (P : always (appends 1) (on_message demo_print demo_parse w 1 (open_env "q-1" "op-9"))).
    { unfold on_message. rewrite T, bool_decide_eq_true_2, Hw by done. apply open_appends. }
    destruct (run_heard 1 _ demo_exec P) as (l & Hl & Es). exists l.
    destruct (run (on_message demo_print demo_parse w 1 _) demo_exec).1. split; [exact Hl|exact Es]. }
  split.
  - destruct (H demo_leg eq_refl) as (l & Hl & _). exists l. split; [exact Hl|]. split; [by vm_compute|].
    destruct (call_answered demo_print demo_parse demo_leg 1 (open_env "q-1" "op-9") l tt T Hl) as [A|[? _]];
      [exact A|discriminate].
  - destruct (H legless eq_refl) as (l & Hl & Es). exists l.
    assert (L : length l = 1) by (rewrite <- Es; by vm_compute). split; [exact Hl|]. split; [exact L|].
    destruct (call_answered demo_print demo_parse legless 1 (open_env "q-1" "op-9") l tt T Hl) as [A|[_ A]]; [|exact A].
    destruct A as (? & ? & ? & ? & ? & ? & -> & _). discriminate L.
Defined.

Definition failed_parse (s : string) : result Value string := Ok (durable_result false (coded "boom")).
Definition demo_failed : Exec :=
  mkExec (with_db (set_operations {[("ann", "op-e") := mkOpRow "r" OpCompleted (Some "r")]} empty_db) demo_svc)
    {[1%N := rt_with_legs {["op-e"]} (demo_route "sess-1")]}.

Lemma error_replayed_as_success_witness :
  sent_summary (route 1 (run (on_call_open demo_print failed_parse demo_leg 1 (open_env "q-1" "op-e")) demo_failed).2) =
  [(Some "call.accepted", Some "admitted"); (Some "call.result", Some "ok")].
Proof.
  unfold sent_summary.
  rewrite (error_replayed_as_success demo_print failed_parse demo_leg 1 (open_env "q-1" "op-e") demo_failed "op-e"
    "r" (coded "boom")); [by vm_compute|done|done|done|by vm_compute|set_solver|by vm_compute|done].
Defined.

Definition late_leg : LegWorld := mkLegWorld (demo_world "tok-9") true true true true.
Definition demo_admitted_op : Exec :=
  with_svc (on_db (store_admit demo_print demo_parse None "ann" "op-9" (JString "x")) demo_svc).2 demo_exec.

Lemma timeout_recorded_final_witness :
  ∃ l, sv_leases demo_svc !! "tok-1" = Some l ∧
  let x' := (run (run_leg demo_print late_leg 1 "q-1" "op-9" "ann" "store" (l_owner l) 1 "store.kv@1" (JString "x") 500)
               demo_admitted_op).2 in
  or_state <$> db_operations (sv_db (ex_svc x')) !! ("ann", "op-9") = Some OpCompleted.
Proof.
  destruct (sv_leases demo_svc !! "tok-1") as [l|] eqn:L; [|by vm_compute in L]. exists l. split; [done|].
  vm_compute in L. injection L as <-.
  refine ((λ H, _) (timeout_recorded_final demo_print late_leg 1 "q-1" "op-9" "ann" "store" _ 1 "store.kv@1" (JString "x")
    500 demo_admitted_op _ _ _ _ _ _ _ _ _ _)).
  - cbn zeta in H. rewrite (proj1 H). done.
  - done.
  - done.
  - done.
  - done.
  - by vm_compute.
  - by vm_compute.
  - by vm_compute.
  - by vm_compute.
  - by vm_compute.
Defined.
