(* ===== verification/Ledger.v ===== *)
(** * At most one execution per operation

    The calls of a service and of its routes run in threads of their own and meet at the
    store. A thread may hand an operation to the kernel only after the store admitted it as
    new, and once. [spends] follows a program from one action to the next with the
    operation it may still run; an interleaving of such programs runs no operation twice,
    and none that the store knew at the start. *)

From S2P Require Import Prelude RustStd Json Identity Contexts Resources Deps Calls Journal Manifest Prog.
From S2P Require Import KernelState KernelCalls KernelLifecycle KernelDispatch KernelActions.
From S2P Require Import Guard Store StoreProps Session Service ServiceProps Base64 Inventory Executor.
From S2P Require Import ExecutorProps KernelDemo.

Notation key := (string * string)%type (only parsing).

Definition rows (s : Svc) (k : key) : bool := has_row k (sv_db s).

(** Operations stay known and nothing runs. *)
Definition idle (s s' : Svc) : Prop :=
  sv_ran s' = sv_ran s ∧ ∀ k, rows s k = true → rows s' k = true.

#[export] Instance idle_refl : Reflexive idle.
Proof. by split. Qed.
#[export] Instance idle_trans : Transitive idle.
Proof. intros s1 s2 s3 [A B] [C D]. split; [congruence|auto]. Qed.

Section spends.
Context {St : Type} `{Clock St} (proj : St → Svc).
Hypothesis advance_idle : ∀ n x, idle (proj x) (proj (advance n x)).

Fixpoint spends {A} (own : option key) (p : prog St A) : Prop :=
  match p with
  | Ret _ => True
  | Act f k => ∀ x, let s := proj x in let s' := proj (f x).2 in
      (idle s s' ∧ spends own (k (f x).1)) ∨
      (∃ o, own = None ∧ idle s s' ∧ rows s o = false ∧ rows s' o = true ∧ spends (Some o) (k (f x).1)) ∨
      (∃ o, own = Some o ∧ sv_ran s' = sv_ran s ++ [o] ∧ (∀ k, rows s k = true → rows s' k = true) ∧
            spends None (k (f x).1))
  | Wait _ _ k => ∀ b, spends own (k b)
  end.

(** A part that runs nothing, then the rest. *)
Lemma spends_idle {A B} own (p : prog St A) (f : A → prog St B) :
  always (λ x x', idle (proj x) (proj x')) p → (∀ a, spends own (f a)) → spends own (bind p f).
Proof.
  intros P F. induction p as [a|X g k IH|c u k IH]; [apply F|..]; destruct P as [Hg Hk].
  - intros x. left. split; [apply Hg|]. by apply IH.
  - intros b. by apply IH.
Qed.

Lemma spends_all {A} own (p : prog St A) : always (λ x x', idle (proj x) (proj x')) p → spends own p.
Proof.
  intros P. induction p as [a|X g k IH|c u k IH]; [done|..]; destruct P as [Hg Hk].
  - intros x. left. split; [apply Hg|]. by apply IH.
  - intros b. by apply IH.
Qed.

(** What every state of an interleaving satisfies: [owns] lists what the threads may still
    run. *)
Definition ledger {A} (s0 : Svc) (c : list (prog St A) * St) : Prop :=
  ∃ owns : list (option key), Forall2 spends owns c.1 ∧
    NoDup (omap id owns ++ sv_ran (proj c.2)) ∧ (∀ k, rows s0 k = true → rows (proj c.2) k = true) ∧
    ∀ k, k ∈ omap id owns ++ sv_ran (proj c.2) → rows (proj c.2) k = true ∧ rows s0 k = false.

Lemma ledger_tick {A} s0 (ps : list (prog St A)) x n : ledger s0 (ps, x) → ledger s0 (ps, advance n x).
Proof.
  intros (owns & S & N & G & K). destruct (advance_idle n x) as [R I]. exists owns. cbn in *. rewrite R.
  split_and!; [done..| |]; [by auto|]. intros k Hk. destruct (K k Hk). auto.
Qed.

Lemma ledger_thread {A} s0 pre (p p' : prog St A) post x x' :
  thread_step p x p' x' → ledger s0 (pre ++ p :: post, x) → ledger s0 (pre ++ p' :: post, x').
Proof.
  intros T (owns & S & N & G & K). cbn in *.
  apply Forall2_app_inv_r in S as (o1 & o2' & S1 & S2 & ->).
  inversion S2 as [|o q o2 qs So So2]; subst. clear S2.
  rewrite omap_app in *. cbn [omap list_omap] in *.
  destruct T as [X f k x|c u k x C|c u k x C U].
  - destruct (So x) as [[[R I] So']|[(k0 & -> & [R I] & R0 & R1 & So')|(k0 & -> & R & I & So')]]; cbn in *.
    + exists (o1 ++ o :: o2). cbn. rewrite omap_app. cbn [omap list_omap]. rewrite R.
      split_and!; [by apply Forall2_app; [|constructor]|done|by auto|]. intros k1 Hk. destruct (K k1 Hk). auto.
    + assert (Fresh : k0 ∉ (omap id o1 ++ omap id o2) ++ sv_ran (proj x)).
      { intros Hk. destruct (K k0 Hk). congruence. }
      exists (o1 ++ Some k0 :: o2). cbn. rewrite omap_app. cbn [omap list_omap id]. rewrite R.
      split_and!.
      * by apply Forall2_app; [|constructor].
      * rewrite <- app_assoc in *. cbn. apply NoDup_app in N as (N1 & N2 & N3). apply NoDup_app.
        split_and!; [done| |]; [|constructor; [set_solver|done]].
        intros y Hy [->|Hy']%elem_of_cons; [apply Fresh; set_solver|by apply (N2 y)].
      * auto.
      * intros k1 Hk. destruct (decide (k1 = k0)) as [->|Ne].
        -- split; [done|]. destruct (rows s0 k0) eqn:E; [|done]. apply G in E. congruence.
        -- destruct (K k1); [set_solver|]. auto.
    + exists (o1 ++ None :: o2). cbn. rewrite omap_app. cbn [omap list_omap id]. rewrite R.
      assert (P : (omap id o1 ++ omap id o2) ++ sv_ran (proj x) ++ [k0] ≡ₚ
        (omap id o1 ++ k0 :: omap id o2) ++ sv_ran (proj x)) by solve_Permutation.
      split_and!; [by apply Forall2_app; [|constructor]|by rewrite P|by auto|].
      intros k1. rewrite P. intros Hk. destruct (K k1 Hk). auto.
  - exists (o1 ++ o :: o2). cbn. rewrite omap_app.
    split_and!; [apply Forall2_app; [done|]; constructor; [apply So|done]|done..].
  - exists (o1 ++ o :: o2). cbn. rewrite omap_app.
    split_and!; [apply Forall2_app; [done|]; constructor; [apply So|done]|done..].
Qed.

Lemma ledger_pool {A} s0 (ps ps' : list (prog St A)) x x' :
  rtc pool_step (ps, x) (ps', x') → ledger s0 (ps, x) → ledger s0 (ps', x').
Proof.
  intros R. remember (ps, x) as c eqn:E1. remember (ps', x') as c' eqn:E2.
  clear E1 E2 ps ps' x x'. induction R as [c|c1 c2 c3 S _ IH]; [done|]. intros L. apply IH.
  destruct S as [pre p p' post s s' T|ps s n _]; [by eapply ledger_thread|by apply ledger_tick].
Qed.

Lemma ledger_start {A} (ps : list (prog St A)) x :
  Forall (spends None) ps → sv_ran (proj x) = [] → ledger (proj x) (ps, x).
Proof.
  intros F R. exists (replicate (length ps) None). cbn. rewrite R.
  assert (O : omap id (replicate (length ps) (None : option key)) = []) by (clear; induction ps; cbn; auto).
  rewrite O. split_and!; [|constructor|done|set_solver]. clear -F. induction F; cbn; constructor; auto.
Qed.
End spends.

(** ** The methods of the service *)

Lemma on_db_idle {A} (f : Db → result A string * Db) s : (∀ d, db_le d (f d).2) → idle s (on_db f s).2.
Proof.
  intros L. specialize (L (sv_db s)). unfold on_db. destruct (f (sv_db s)) as [r d]. split; [done|].
  intros k. unfold rows. by apply has_row_le.
Qed.

Lemma quiet_idle s s' : quiet s s' → idle s s'.
Proof.
  intros [_ R]%quiet_rest. unfold rest in R. injection R as ? ? ? ? O N ?. split; [done|].
  intros k. unfold rows, has_row. by rewrite O.
Qed.

Lemma rest_idle s s' : rest s' = rest s → idle s s'.
Proof.
  unfold rest. intros R. injection R as ? ? ? ? O N ?. split; [done|]. intros k. unfold rows, has_row. by rewrite O.
Qed.

Section programs.
Context {E : Env} (to_string : Value → string) (from_str : string → result Value string).

(** Every transaction moves the tables forward. *)
Ltac store_le c :=
  let d := fresh "d" in intros d; pose proof (store_step_le to_string from_str c d) as L; cbn in L;
  match type of L with context [let '(_, _) := ?t in _] => destruct t; exact L end.

Lemma set_desired_le f id b d : db_le d (set_desired to_string f id b d).2.
Proof. revert d. store_le (SSetDesired id b, f). Qed.
Lemma set_revoked_le f p b d : db_le d (set_revoked f p b d).2.
Proof. revert d. store_le (SSetRevoked p b, f). Qed.
Lemma finish_le f p id v u d : db_le d (finish to_string f p id v u d).2.
Proof. revert d. store_le (SFinish p id v u, f). Qed.
Lemma admit_le f p id q d : db_le d (store_admit to_string from_str f p id q d).2.
Proof. revert d. store_le (SAdmit p id q, f). Qed.
Lemma event_le f k b d : db_le d (event to_string f k b d).2.
Proof. revert d. store_le (SEvent k b, f). Qed.
Lemma commit_le f p id r e k v d : db_le d (commit_effect to_string from_str f p id r e k v d).2.
Proof. revert d. store_le (SCommitEffect p id r e k v, f). Qed.
Lemma next_fence_le f r d : db_le d (next_fence f r d).2.
Proof. revert d. store_le (SNextFence r, f). Qed.

Lemma activate_idle w p logical ttl s : idle s (activate to_string from_str w p logical ttl s).2.
Proof.
  unfold activate. destruct (negb _); [done|]. destruct (_ || _); [done|]. destruct (any_lease _ s); [done|].
  destruct (_ <=? _); [done|]. destruct (materialize _ _ w logical s) as [file|e]; [|done].
  destruct (w_token w) as [token|e]; [|done].
  pose proof (on_db_idle (next_fence (w_db w "next_fence" logical) logical) s (next_fence_le _ _)) as I1.
  destruct (on_db (next_fence _ _) s) as [[n|e] s1]; [|done]. quiet_step Q2. apply quiet_idle in Q2.
  destruct r as [m|e]; [|by etrans]. quiet_step Q3. apply quiet_idle in Q3. destruct r as [id|e].
  - destruct (instance_ref_of logical _); cbn in *.
    + etrans; [exact I1|]. etrans; [exact Q2|]. by destruct Q3.
    + by do 2 (etrans; [eassumption|]).
  - quiet_step Q4. apply quiet_idle in Q4. cbn in *. by do 3 (etrans; [eassumption|]).
Qed.

Lemma svop_idle w o s : idle s (svop_effect to_string from_str w o s).
Proof.
  destruct o; cbn [svop_effect]; try done.
  - unfold provision. destruct (let? id := _ in _) as [id|e]; [|done]. apply on_db_idle, set_desired_le.
  - unfold provision_remote. destruct (let? id := _ in _) as [d|e]; [|done]. quiet_step Q. by apply quiet_idle.
  - apply activate_idle.
  - unfold renew. by repeat case_match.
  - unfold renew_seq. by repeat case_match.
  - unfold release_lease. destruct (let? l := _ in _) as [l|e]; [|done].
    pose proof (retire_quiet to_string w l (with_leases (delete token (sv_leases s)) s)) as Q.
    destruct (retire _ _ _ _) as [v s']. apply quiet_idle in Q. done.
  - unfold lease_commit. destruct (validate _ _ _ _); [|done]. destruct (negb _); [done|].
    apply on_db_idle, commit_le.
  - unfold grant. pose proof (on_db_idle (set_revoked (w_db w "set_revoked" principal) principal false) s
      (set_revoked_le _ _ _)) as I. destruct (on_db _ s) as [[u|e] s']; done.
  - unfold revoke. pose proof (on_db_idle (set_revoked (w_db w "set_revoked" principal) principal true)
      (with_authority (sv_grants s) ({[principal]} ∪ sv_revoked s) s) (set_revoked_le _ _ _)) as I.
    destruct (on_db _ _) as [r s']. cbn in *. etrans; [exact I|]. apply rest_idle, retire_all_spec.
  - apply rest_idle, sync_outbound_quiet.
  - unfold tick. apply rest_idle.
    match goal with |- context [supervise_all _ _ _ ?a ?ts (retire_all _ _ ?ts1 s)] =>
      destruct (supervise_all_spec to_string from_str w a ts (retire_all to_string w ts1 s)) as [_ R];
      destruct (retire_all_spec to_string w ts1 s) as [_ R'] end. by rewrite R.
  - unfold shutdown. etrans; [|apply rest_idle, retire_all_spec]. done.
Qed.

(** An admission: either it answers [New] for an operation that had no row, or it starts
    nothing. *)
Lemma admit_starts f p id q s :
  let '(r, s') := on_db (store_admit to_string from_str f p id q) s in
  idle s s' ∧ (r = Ok New → rows s (p, id) = false ∧ rows s' (p, id) = true).
Proof.
  pose proof (on_db_idle (store_admit to_string from_str f p id q) s (admit_le f p id q)) as I.
  unfold on_db in *. destruct (store_admit to_string from_str f p id q (sv_db s)) as [r d] eqn:A.
  split; [done|]. intros ->. pose proof A as (_ & _ & R)%admit_new. unfold rows, has_row. cbn. rewrite R.
  split; [|done]. unfold store_admit in A. repeat case_match; simplify_eq/=; done.
Qed.

Lemma lift_idle {A} (p : kprog A) : always idle (lift p).
Proof. apply lift_always. by split. Qed.

Definition is_new (r : result Admission string) : bool := match r with Ok New => true | _ => false end.

Section parts.
Context {St : Type} `{Clock St} (proj : St → Svc).

Lemma spends_ret {A B} own (p : prog St A) (b : B) : spends proj own p → spends proj own (do! p; Ret b).
Proof.
  revert own. induction p as [a|X g k IH|c u k IH]; intros own P; [done|..].
  - intros x. destruct (P x) as [[I S]|[(o & -> & I & R0 & R1 & S)|(o & -> & R & I & S)]].
    + left. split; [exact I|]. by apply IH.
    + right; left. exists o. split_and!; try done. by apply IH.
    + right; right. exists o. split_and!; try done. by apply IH.
  - intros b'. apply IH, P.
Qed.

(** An admission gives the right to run the operation when it answers [New]. *)
Lemma spends_admit {B} f p id q (F : St → result Admission string * St) (g : result Admission string → prog St B) :
  (∀ x, (F x).1 = (on_db (store_admit to_string from_str f p id q) (proj x)).1 ∧
        proj (F x).2 = (on_db (store_admit to_string from_str f p id q) (proj x)).2) →
  spends proj (Some (p, id)) (g (Ok New)) → (∀ r, is_new r = false → spends proj None (g r)) →
  spends proj None (bind (act F) g).
Proof.
  intros HF S1 S2 x. change (let! r := act F in g r) with (Act F (λ r, g r)). cbn zeta.
  destruct (HF x) as [E1 E2]. pose proof (admit_starts f p id q (proj x)) as A.
  destruct (on_db _ (proj x)) as [r s']. cbn in E1, E2. destruct (F x) as [r' x']. cbn in *. subst r' s'.
  destruct A as [I A]. destruct (is_new r) eqn:N; [|left; split; [done|by apply S2]].
  destruct r as [[]|]; try done. destruct (A eq_refl). right. left. exists (p, id). done.
Qed.

(** Running it spends the right. *)
Lemma spends_run {B} key (m : St → St) (g : unit → prog St B) :
  (∀ x, sv_ran (proj (m x)) = sv_ran (proj x) ++ [key] ∧ sv_db (proj (m x)) = sv_db (proj x)) →
  spends proj None (g tt) → spends proj (Some key) (bind (modify m) g).
Proof.
  intros M S x. right. right. exists key. destruct (M x) as [M1 M2]. split_and!; try done.
  intros k. unfold rows. cbn. by rewrite M2.
Qed.
End parts.

Lemma finish_idle f p id v u s : idle s (on_db (finish to_string f p id v u) s).2.
Proof. apply on_db_idle, finish_le. Qed.

Lemma invoke_spends w p t f o c i : spends (λ s : Svc, s) None (invoke to_string from_str w p t f o c i).
Proof.
  unfold invoke. apply spends_idle; [by apply always_read; split|]. intros [[logical owner]|e]; [|done].
  apply (spends_admit (λ s : Svc, s) (w_db w "store_admit" o) p o (call_request logical c i));
    [done| |by intros [[]|] ?].
  apply spends_idle; [by apply always_read; split|]. intros cur. destruct (negb _); [done|].
  apply (spends_run (λ s : Svc, s)); [done|]. apply spends_idle; [apply lift_idle|]. intros vo.
  apply spends_idle; [by apply always_read; split|]. intros live.
  apply spends_idle; [apply always_one; intros s; apply finish_idle|]. by intros [u|e].
Qed.

Lemma svop_spends w o : spends (λ s : Svc, s) None (svop_prog to_string from_str w o).
Proof.
  pose proof (svop_idle w o) as I.
  destruct o; cbn [svop_prog svop_effect] in *;
    try (apply spends_all, always_bind; [by apply always_one|done]);
    try (by apply spends_all, always_modify).
  - apply spends_ret, invoke_spends.
  - apply spends_all, lift_idle.
Qed.

Lemma lift_svc_spends {A} own (p : sprog A) : spends (λ s : Svc, s) own p → spends ex_svc own (lift_svc p).
Proof.
  revert own. induction p as [a|X f k IH|c u k IH]; intros own P; [done|..].
  - intros x. cbn. specialize (P (ex_svc x)). destruct (f (ex_svc x)) as [a s]. cbn in *.
    destruct P as [[I S]|[(o & -> & I & R0 & R1 & S)|(o & -> & R & I & S)]].
    + left. split; [exact I|]. by apply IH.
    + right; left. exists o. split_and!; try done. by apply IH.
    + right; right. exists o. split_and!; try done. by apply IH.
  - intros b. apply IH, P.
Qed.

(** ** The handlers of a route *)

Definition eidle (x x' : Exec) : Prop := idle (ex_svc x) (ex_svc x').

Lemma eidle_read {X} (f : Exec → X) : always eidle (read f).
Proof. by apply always_read; intros x. Qed.
Lemma eidle_on_rt {X} r (f : Route → X * Route) : always eidle (on_rt r f).
Proof. apply always_one. intros x. unfold eidle. by destruct (f (route r x)). Qed.
Lemma eidle_finish f p id v u : always eidle (on_store (finish to_string f p id v u)).
Proof.
  split; [|done]. intros x. unfold eidle. pose proof (finish_idle f p id v u (ex_svc x)) as I.
  by destruct (on_db _ (ex_svc x)).
Qed.
Lemma eidle_lift {A} (p : sprog A) : always idle p → always eidle (lift_svc p).
Proof.
  intros P. induction p as [a|X f k IH|c u k IH]; [done|..]; destruct P as [Hf Hk]; split; auto.
  - intros x. unfold eidle. specialize (Hf (ex_svc x)). by destruct (f (ex_svc x)).
  - intros x. by split.
Qed.
Lemma eidle_answer r ty rid body : always eidle (answer to_string r ty rid body).
Proof. unfold answer. case_match; [done|apply eidle_on_rt]. Qed.
Lemma eidle_notice r ty mid body : always eidle (send_notice to_string r ty mid body).
Proof. apply eidle_on_rt. Qed.

Lemma eidle_upd r f : always eidle (upd_rt r f).
Proof. apply eidle_on_rt. Qed.
Lemma eidle_terminal r rid body : always eidle (terminal to_string r rid body).
Proof. apply eidle_answer. Qed.
Lemma eidle_refuse r rid b code msg : always eidle (refuse to_string r rid b code msg).
Proof. unfold refuse. apply always_bind; [apply eidle_answer|]. intros _. apply eidle_answer. Qed.
Lemma eidle_accepted r rid b : always eidle (accepted to_string r rid b).
Proof. apply eidle_answer. Qed.
Lemma spends_eidle {A} own (p : eprog A) : always eidle p → spends ex_svc own p.
Proof. apply spends_all. Qed.

Hint Resolve eidle_read eidle_on_rt eidle_upd eidle_finish eidle_answer eidle_notice eidle_terminal eidle_refuse
  eidle_accepted : eidle.

Ltac eidle_tac :=
  repeat first
    [ done
    | solve [auto with eidle]
    | apply always_bind; [|intros ?]
    | case_match ].

Lemma run_leg_spends w r rid op p logical owner fence cap input ttl :
  spends ex_svc (Some (p, op)) (run_leg to_string w r rid op p logical owner fence cap input ttl).
Proof.
  unfold run_leg. apply spends_idle; [apply eidle_read|]. intros start.
  apply spends_idle; [apply eidle_read|]. intros cur. destruct (negb _).
  { apply spends_eidle. eidle_tac. }
  apply spends_idle; [apply eidle_read|]. intros [].
  { apply spends_eidle. eidle_tac. }
  apply spends_idle; [apply eidle_read|]. intros sent_at. unfold invoke_with_budget.
  assert (T : ∀ vo : Value * bool, always eidle (
    let! was_cancelled := cancelled r op in
    let! current := read_svc (lease_live p logical fence owner) in
    let unknown := negb current ||
      bool_decide (code_of vo.1 ∈ ["outcome-unknown"; "deadline-exhausted"; "cancelled"]) in
    let res := if negb current then lost_result
               else if (was_cancelled : bool) then durable_result false (coded "cancelled")
               else durable_result vo.2 vo.1 in
    do! on_store (finish to_string (w_db (lw_world w) "finish" op) p op res (unknown || was_cancelled));
    do! remove_opening r rid;
    do! upd_rt r (λ rt, rt_with_cancelled (rt_cancelled rt ∖ {[op]}) rt);
    if was_cancelled then terminal to_string r rid (error_body "cancelled" "cancelled before persist")
    else if unknown then terminal to_string r rid (error_body "outcome-unknown" "authority lost before persist")
    else
      do! upd_rt r (λ rt, rt_with_legs ({[op]} ∪ rt_legs rt) rt);
      if vo.2 then terminal to_string r rid (ok_body vo.1)
      else terminal to_string r rid (error_body (remote_code vo.1) (to_string vo.1)))).
  { intros vo. eidle_tac. }
  destruct (lw_invoker w); cbn [negb]; [|apply spends_eidle, (T (timeout_value, false))].
  destruct (lw_late w).
  - apply (spends_run ex_svc (p, op) (λ x, with_svc (with_ran (sv_ran (ex_svc x) ++ [(p, op)]) (ex_svc x)) x));
      [done|]. intros b. apply spends_eidle, T.
  - apply (spends_run ex_svc (p, op) (λ x, with_svc (with_ran (sv_ran (ex_svc x) ++ [(p, op)]) (ex_svc x)) x));
      [done|]. apply (spends_idle ex_svc None (lift_svc (lift (invoke_for_ref owner cap input))));
      [apply eidle_lift, lift_idle|]. intros vo. apply spends_eidle, T.
Qed.

Lemma on_call_open_spends w r env : spends ex_svc None (on_call_open to_string from_str w r env).
Proof.
  unfold on_call_open. apply spends_idle; [apply eidle_read|]. intros principal.
  destruct (_ || _); [apply spends_eidle; eidle_tac|].
  apply spends_idle; [apply eidle_read|]. intros [].
  { apply spends_idle; [apply eidle_read|]. intros [done_|e]; apply spends_eidle; eidle_tac. }
  apply spends_idle; [apply eidle_read|]. intros []; [apply spends_eidle; eidle_tac|].
  apply spends_idle; [apply eidle_read|]. intros [[[logical owner] fence]|]; [|apply spends_eidle; eidle_tac].
  apply spends_idle; [apply eidle_read|]. intros covered. destruct (negb covered); [apply spends_eidle; eidle_tac|].
  apply spends_idle; [apply eidle_read|]. intros provided. destruct (negb provided); [apply spends_eidle; eidle_tac|].
  set (op := default "" (get_str "operation_id" (body_of env))).
  set (q := call_request _ _ _). set (f := w_db _ _ _).
  apply (spends_admit ex_svc f principal op q
    (λ x, let '(a, s) := on_db (store_admit to_string from_str f principal op q) (ex_svc x) in (a, with_svc s x))).
  - intros x. by destruct (on_db _ (ex_svc x)).
  - do 3 (apply spends_idle; [first [apply eidle_accepted|apply eidle_upd]|]; intros _).
    destruct (lw_leg w); [|done]. apply run_leg_spends.
  - intros [[|v|]|e] N; try done; apply spends_eidle; eidle_tac.
Qed.

Lemma eidle_for_each {A} (l : list A) f : (∀ a, always eidle (f a)) → always eidle (for_each l f).
Proof. intros F. by apply always_for_each. Qed.

Lemma eidle_revoked_ids p ops : always eidle (revoked_ids from_str p ops).
Proof. induction ops as [|o ops IH]; cbn [revoked_ids]; eidle_tac. Qed.

Lemma renew_idle w p t f q ttl s : idle s (renew_seq w p t f q ttl s).2.
Proof. apply (svop_idle w (SvRenewSeq p t f q ttl)). Qed.

Lemma inventory_idle : always eidle (lift_svc (lift inventory)).
Proof. apply eidle_lift, lift_idle. Qed.

Lemma eidle_renew w p t f q ttl : always eidle (lift_svc (act (renew_seq w p t f q ttl))).
Proof. apply eidle_lift, always_one. intros s. apply renew_idle. Qed.

Hint Resolve eidle_revoked_ids inventory_idle eidle_renew : eidle.

Lemma on_message_spends w r env : spends ex_svc None (on_message to_string from_str w r env).
Proof.
  unfold on_message. case_bool_decide.
  { destruct (lw_handler w); [apply on_call_open_spends|done]. }
  repeat case_bool_decide; cbn [orb]; try done; apply spends_eidle.
  all: unfold on_call_cancel, on_op_query, on_lease_renew, on_inventory, on_subscribe, on_stream_data,
    count_dropped, inject_chunk, on_stream_terminal; eidle_tac.
Qed.

Lemma exop_spends w o : spends ex_svc None (exop_prog to_string from_str w o).
Proof.
  destruct o; cbn [exop_prog].
  - apply on_message_spends.
  - apply spends_eidle, always_bind; [|done]. apply always_one. intros x. unfold eidle. by repeat case_match.
  - apply spends_eidle. unfold event_tap, every_route. apply always_bind; [apply eidle_read|]. intros rs.
    apply eidle_for_each. intros r. unfold on_local_emit. eidle_tac.
  - apply spends_eidle. unfold stream_tap, every_route. apply always_bind; [apply eidle_read|]. intros rs.
    apply eidle_for_each. intros r. unfold send_stream_chunk. eidle_tac.
  - apply spends_eidle, always_bind; [|done]. unfold watch_round. apply always_bind; [apply eidle_read|].
    intros st. case_match; [done|]. do 2 (apply always_bind; [apply eidle_read|]; intros ?).
    apply always_bind; [|done]. apply eidle_for_each. intros [l f]. unfold notify_revoked. eidle_tac.
  - apply spends_eidle. unfold notify_remote_revoked, every_route. apply always_bind; [apply eidle_read|].
    intros rs. apply eidle_for_each. intros r. unfold notify_revoked. eidle_tac.
  - apply lift_svc_spends, svop_spends.
Qed.

(** C2: An operation runs at most once. Any number of threads serve messages of any number
    of sessions, unary calls, the operator's methods, the supervisor and the kernel's
    methods on one service, interleaved in any way, with any errors of the database and
    any calls that miss their deadline: no operation of a principal is handed to the
    kernel twice; one that is has its row in the store; and one the store knew at the
    start, of whatever state, is never handed over. Rows survive restarts, so this holds
    across them. *)
Theorem operation_runs_once ops x ps x' :
  sv_ran (ex_svc x) = [] → rtc pool_step (exec_threads to_string from_str ops, x) (ps, x') →
  NoDup (sv_ran (ex_svc x')) ∧
  (∀ k, k ∈ sv_ran (ex_svc x') →
     has_row k (sv_db (ex_svc x')) = true ∧ has_row k (sv_db (ex_svc x)) = false) ∧
  (∀ k, has_row k (sv_db (ex_svc x)) = true → has_row k (sv_db (ex_svc x')) = true).
Proof.
  intros R S.
  assert (L : ledger ex_svc (ex_svc x) (ps, x')).
  { assert (F : Forall (spends ex_svc None) (exec_threads to_string from_str ops)).
    { apply Forall_forall. intros p ([w o] & -> & _)%list_elem_of_fmap. apply exop_spends. }
    assert (A : ∀ n y, idle (ex_svc y) (ex_svc (advance n y))) by by split.
    exact (ledger_pool ex_svc A _ _ _ _ _ S (ledger_start ex_svc A _ _ F R)). }
  destruct L as (owns & _ & N & G & K). cbn in *. apply NoDup_app in N as (_ & _ & N). split_and!; [done| |done].
  intros k Hk. apply K. set_solver.
Qed.
End programs.

Lemma operation_runs_once_witness :
  sv_ran (ex_svc demo_open_run.2) = [("ann", "op-9")] ∧ NoDup (sv_ran (ex_svc demo_open_run.2)).
Proof.
  split; [by vm_compute|].
  refine (proj1 (operation_runs_once demo_print demo_parse demo_opens demo_exec _ _ eq_refl _)).
  unfold demo_open_run. apply exec_rtc.
Defined.
