(* ===== verification/HostState.v ===== *)
(** * The state of the process host ([matrix-host/src/lib.rs])

    The host runs external components: it owns their processes, keeps one session per
    activation over a socket, forwards the kernel's calls to them and dispatches the child
    calls they open. [Host] is its shared state, each mutex-protected field one component,
    together with the kernel it is attached to. A method is a program of actions ([Prog]), one
    action per critical section; the threads of the host (event loop, readers, workers, callers)
    are interleaved by [pool_step].

    The channel a caller waits on is the queue of envelopes of its request id ([ho_mail]); what
    the host writes to the sockets and asks of processes, route and taps is recorded in
    [ho_sent] and [ho_out]. [HWorld] is what the outside answers: the errors of sockets and
    processes. *)

From S2P Require Import Prelude RustStd Json Wire Frame Envelope Dependency Handshake Guard Remote.
From S2P Require Import Identity Contexts Resources Deps Calls Journal Manifest Prog.
From S2P Require Import KernelState KernelCalls KernelLifecycle KernelDispatch.
From Stdlib Require Import Ascii.

Definition HELLO_MS : N := 5000.
Definition REGISTER_MS : N := 10000.
Definition ACTIVATE_MS : N := 5000.
Definition QUIESCE_MS : N := 2000.
Definition DISPOSE_MS : N := 2000.
Definition CALL_POLL_MS : N := 5.
Definition MAX_CALLS_PER_SESSION : N := 16.
Definition DEFAULT_SEND_QUOTA : N := 1024 * 1024.
Definition MAX_PENDING_PER_HOST : nat := 1024.
Definition STREAM_INITIAL_GRANT : N := 65536.
Definition MAX_REMOTE_STREAMS_PER_SESSION : nat := 128.
Definition MAX_PARKED_PER_SESSION : nat := 32.
Definition PARKED_TTL : N := 2000.

(** ** Data *)

Inductive PendingKind : Type := PkCall (ticket : string) | PkLifecycle.

(** The sender of a pending reply is the request id it is registered under. *)
Record Pending : Type := mkPending { pe_session : string; pe_kind : PendingKind }.

Record RemoteCallOpen : Type := mkRemoteCallOpen {
  ro_peer : string;
  ro_consumer_logical : string;
  ro_consumer_instance : N;
  ro_consumer_generation : N;
  ro_parent_ticket : N;
  ro_domain : string;
  ro_binding_id : string;
  ro_cap : string;
  ro_input : Value;
  ro_timeout_ms : N;
  ro_budget_ms : N;
  ro_lease : string;
  ro_grant_rev : N;
  ro_operation_id : string;
}.

Inductive RemoteCallTerminal : Type :=
| RtOk (v : Value)
| RtErr (code message : string)
| RtFailed (code message : string).

Record DepJob : Type := mkDepJob {
  dj_consumer_sid : string;
  dj_consumer_logical : string;
  dj_cinstance : N;
  dj_cgeneration : N;
  dj_request_id : string;
  dj_binding : string;
  dj_parent : TicketId;
  dj_timeout_ms : N;
  dj_input : Value;
}.

Record DepSync : Type := mkDepSync { dy_pending : gset string; dy_wanted : gset string }.

Record StreamState : Type := mkStreamState {
  ss_next_seq : N;
  ss_granted : N;
  ss_received : N;
  ss_ended : bool;
}.

Record RemoteStream : Type := mkRemoteStream {
  rs_peer : string;
  rs_operation : string;
  rs_send_next : N;
  rs_send_granted : N;
  rs_send_sent : N;
  rs_recv_next : N;
  rs_recv_granted : N;
  rs_recv_received : N;
  rs_ended : bool;
}.

Record ParkedChunk : Type := mkParkedChunk {
  pk_stream_id : string;
  pk_seq : N;
  pk_payload : string;
  pk_at : Instant;
}.

Record HSession : Type := mkHSession {
  hs_id : string;
  hs_logical : string;
  hs_instance : N;
  hs_generation : N;
  hs_dedup : IdWindow;
  hs_in_flight : N;
  hs_send_used : N;
  hs_send_quota : N;
  hs_streams : gmap string StreamState;
  hs_features : list string;
  hs_dep_seen : gset string;
  hs_ext_handles : list ResourceHandle;
  hs_topics : list string;
  hs_dep_requests : gmap string TicketId;
  hs_parked : list ParkedChunk;
  hs_dep_sync : DepSync;
}.

(** The sandbox of a component is only handed to the guard: [Some sandboxed]. *)
Record HostPolicy : Type := mkHostPolicy {
  hp_components : gmap string bool;
  hp_secure : bool;
  hp_enable_dependency_calls : bool;
  hp_domain : string;
}.

(** A frame of [matrix.component] as the host builds it. *)
Record HFrame : Type := mkHFrame {
  hf_ty : string;
  hf_message_id : string;
  hf_instance : option string;
  hf_generation : option string;
  hf_request_id : option Value;
  hf_body : Value;
}.

(** Effects outside the sockets of the sessions. *)
Inductive Effect : Type :=
| FxStreamData (peer operation stream_id : string) (seq : N) (payload : string)
| FxStreamEnd (peer stream_id status : string)
| FxCallOpen (child : TicketId) (open : RemoteCallOpen)
| FxCallCancel (peer operation : string)
| FxTopology
| FxEventTap (topic : string) (payload : Value)
| FxStreamTap (sid stream_id : string) (seq : N) (payload : string)
| FxSpawn (logical : string) (instance generation : N) (entrypoint : string) (argv : list string) (sandboxed : bool)
| FxKill (logical : string)
| FxShutdown (sid : string)
| FxReject (code reason : string).

(** [ho_rstreams] holds the tables of remote legs: a session shares its table, which outlives
    it in the threads that hold it. [ho_jobs] are the started workers that have not run yet, and
    [ho_legs] the channel and the cancel flag of the thread that runs a remote leg. [ho_frozen]
    says that a thread stands at the lock of the sessions, which it holds itself. In the code no
    thread then gets past an action on the sessions; the model lets the others go on, so it has more
    interleavings, and the theorems about returning ask that the host is not frozen. *)
Record Host : Type := mkHost {
  ho_policy : HostPolicy;
  ho_kernel : Kernel;
  ho_launch_tokens : gmap string (N * string);
  ho_sessions : gmap string HSession;
  ho_rstreams : gmap string (gmap string RemoteStream);
  ho_by_instance : gmap (string * N) string;
  ho_pending_activation : gmap string (N * N);
  ho_children : gset string;
  ho_pending : gmap string Pending;
  ho_mail : gmap string (list Envelope);
  ho_register_ids : IdWindow;
  ho_next_id : N;
  ho_shutdown : bool;
  ho_frozen : bool;
  ho_connecting : N;
  ho_transport : bool;
  ho_taps : bool * bool;
  ho_remote_ops : gmap TicketId (string * string);
  ho_jobs : list DepJob;
  ho_legs : gmap TicketId (list RemoteCallTerminal * bool);
  ho_sent : list (string * HFrame);
  ho_out : list Effect;
}.

(** ** Field updates *)

Definition set_hs_dedup (v : IdWindow) (s : HSession) : HSession :=
  mkHSession (hs_id s) (hs_logical s) (hs_instance s) (hs_generation s) v (hs_in_flight s)
    (hs_send_used s) (hs_send_quota s) (hs_streams s) (hs_features s) (hs_dep_seen s) (hs_ext_handles s)
    (hs_topics s) (hs_dep_requests s) (hs_parked s) (hs_dep_sync s).
Definition set_hs_in_flight (v : N) (s : HSession) : HSession :=
  mkHSession (hs_id s) (hs_logical s) (hs_instance s) (hs_generation s) (hs_dedup s) v (hs_send_used s)
    (hs_send_quota s) (hs_streams s) (hs_features s) (hs_dep_seen s) (hs_ext_handles s) (hs_topics s)
    (hs_dep_requests s) (hs_parked s) (hs_dep_sync s).
Definition set_hs_send_used (v : N) (s : HSession) : HSession :=
  mkHSession (hs_id s) (hs_logical s) (hs_instance s) (hs_generation s) (hs_dedup s) (hs_in_flight s) v
    (hs_send_quota s) (hs_streams s) (hs_features s) (hs_dep_seen s) (hs_ext_handles s) (hs_topics s)
    (hs_dep_requests s) (hs_parked s) (hs_dep_sync s).
Definition set_hs_streams (v : gmap string StreamState) (s : HSession) : HSession :=
  mkHSession (hs_id s) (hs_logical s) (hs_instance s) (hs_generation s) (hs_dedup s) (hs_in_flight s)
    (hs_send_used s) (hs_send_quota s) v (hs_features s) (hs_dep_seen s) (hs_ext_handles s) (hs_topics s)
    (hs_dep_requests s) (hs_parked s) (hs_dep_sync s).
Definition set_hs_dep_seen (v : gset string) (s : HSession) : HSession :=
  mkHSession (hs_id s) (hs_logical s) (hs_instance s) (hs_generation s) (hs_dedup s) (hs_in_flight s)
    (hs_send_used s) (hs_send_quota s) (hs_streams s) (hs_features s) v (hs_ext_handles s) (hs_topics s)
    (hs_dep_requests s) (hs_parked s) (hs_dep_sync s).
Definition set_hs_ext_handles (v : list ResourceHandle) (s : HSession) : HSession :=
  mkHSession (hs_id s) (hs_logical s) (hs_instance s) (hs_generation s) (hs_dedup s) (hs_in_flight s)
    (hs_send_used s) (hs_send_quota s) (hs_streams s) (hs_features s) (hs_dep_seen s) v (hs_topics s)
    (hs_dep_requests s) (hs_parked s) (hs_dep_sync s).
Definition set_hs_dep_requests (v : gmap string TicketId) (s : HSession) : HSession :=
  mkHSession (hs_id s) (hs_logical s) (hs_instance s) (hs_generation s) (hs_dedup s) (hs_in_flight s)
    (hs_send_used s) (hs_send_quota s) (hs_streams s) (hs_features s) (hs_dep_seen s) (hs_ext_handles s)
    (hs_topics s) v (hs_parked s) (hs_dep_sync s).
Definition set_hs_parked (v : list ParkedChunk) (s : HSession) : HSession :=
  mkHSession (hs_id s) (hs_logical s) (hs_instance s) (hs_generation s) (hs_dedup s) (hs_in_flight s)
    (hs_send_used s) (hs_send_quota s) (hs_streams s) (hs_features s) (hs_dep_seen s) (hs_ext_handles s)
    (hs_topics s) (hs_dep_requests s) v (hs_dep_sync s).
Definition set_hs_dep_sync (v : DepSync) (s : HSession) : HSession :=
  mkHSession (hs_id s) (hs_logical s) (hs_instance s) (hs_generation s) (hs_dedup s) (hs_in_flight s)
    (hs_send_used s) (hs_send_quota s) (hs_streams s) (hs_features s) (hs_dep_seen s) (hs_ext_handles s)
    (hs_topics s) (hs_dep_requests s) (hs_parked s) v.

Definition set_ho_kernel (v : Kernel) (h : Host) : Host :=
  mkHost (ho_policy h) v (ho_launch_tokens h) (ho_sessions h) (ho_rstreams h) (ho_by_instance h)
    (ho_pending_activation h) (ho_children h) (ho_pending h) (ho_mail h) (ho_register_ids h)
    (ho_next_id h) (ho_shutdown h) (ho_frozen h) (ho_connecting h) (ho_transport h) (ho_taps h)
    (ho_remote_ops h) (ho_jobs h) (ho_legs h) (ho_sent h) (ho_out h).
Definition set_ho_launch_tokens (v : gmap string (N * string)) (h : Host) : Host :=
  mkHost (ho_policy h) (ho_kernel h) v (ho_sessions h) (ho_rstreams h) (ho_by_instance h)
    (ho_pending_activation h) (ho_children h) (ho_pending h) (ho_mail h) (ho_register_ids h)
    (ho_next_id h) (ho_shutdown h) (ho_frozen h) (ho_connecting h) (ho_transport h) (ho_taps h)
    (ho_remote_ops h) (ho_jobs h) (ho_legs h) (ho_sent h) (ho_out h).
Definition set_ho_sessions (v : gmap string HSession) (h : Host) : Host :=
  mkHost (ho_policy h) (ho_kernel h) (ho_launch_tokens h) v (ho_rstreams h) (ho_by_instance h)
    (ho_pending_activation h) (ho_children h) (ho_pending h) (ho_mail h) (ho_register_ids h)
    (ho_next_id h) (ho_shutdown h) (ho_frozen h) (ho_connecting h) (ho_transport h) (ho_taps h)
    (ho_remote_ops h) (ho_jobs h) (ho_legs h) (ho_sent h) (ho_out h).
Definition set_ho_rstreams (v : gmap string (gmap string RemoteStream)) (h : Host) : Host :=
  mkHost (ho_policy h) (ho_kernel h) (ho_launch_tokens h) (ho_sessions h) v (ho_by_instance h)
    (ho_pending_activation h) (ho_children h) (ho_pending h) (ho_mail h) (ho_register_ids h)
    (ho_next_id h) (ho_shutdown h) (ho_frozen h) (ho_connecting h) (ho_transport h) (ho_taps h)
    (ho_remote_ops h) (ho_jobs h) (ho_legs h) (ho_sent h) (ho_out h).
Definition set_ho_by_instance (v : gmap (string * N) string) (h : Host) : Host :=
  mkHost (ho_policy h) (ho_kernel h) (ho_launch_tokens h) (ho_sessions h) (ho_rstreams h) v
    (ho_pending_activation h) (ho_children h) (ho_pending h) (ho_mail h) (ho_register_ids h)
    (ho_next_id h) (ho_shutdown h) (ho_frozen h) (ho_connecting h) (ho_transport h) (ho_taps h)
    (ho_remote_ops h) (ho_jobs h) (ho_legs h) (ho_sent h) (ho_out h).
Definition set_ho_pending_activation (v : gmap string (N * N)) (h : Host) : Host :=
  mkHost (ho_policy h) (ho_kernel h) (ho_launch_tokens h) (ho_sessions h) (ho_rstreams h)
    (ho_by_instance h) v (ho_children h) (ho_pending h) (ho_mail h) (ho_register_ids h) (ho_next_id h)
    (ho_shutdown h) (ho_frozen h) (ho_connecting h) (ho_transport h) (ho_taps h) (ho_remote_ops h)
    (ho_jobs h) (ho_legs h) (ho_sent h) (ho_out h).
Definition set_ho_children (v : gset string) (h : Host) : Host :=
  mkHost (ho_policy h) (ho_kernel h) (ho_launch_tokens h) (ho_sessions h) (ho_rstreams h)
    (ho_by_instance h) (ho_pending_activation h) v (ho_pending h) (ho_mail h) (ho_register_ids h)
    (ho_next_id h) (ho_shutdown h) (ho_frozen h) (ho_connecting h) (ho_transport h) (ho_taps h)
    (ho_remote_ops h) (ho_jobs h) (ho_legs h) (ho_sent h) (ho_out h).
Definition set_ho_pending (v : gmap string Pending) (h : Host) : Host :=
  mkHost (ho_policy h) (ho_kernel h) (ho_launch_tokens h) (ho_sessions h) (ho_rstreams h)
    (ho_by_instance h) (ho_pending_activation h) (ho_children h) v (ho_mail h) (ho_register_ids h)
    (ho_next_id h) (ho_shutdown h) (ho_frozen h) (ho_connecting h) (ho_transport h) (ho_taps h)
    (ho_remote_ops h) (ho_jobs h) (ho_legs h) (ho_sent h) (ho_out h).
Definition set_ho_mail (v : gmap string (list Envelope)) (h : Host) : Host :=
  mkHost (ho_policy h) (ho_kernel h) (ho_launch_tokens h) (ho_sessions h) (ho_rstreams h)
    (ho_by_instance h) (ho_pending_activation h) (ho_children h) (ho_pending h) v (ho_register_ids h)
    (ho_next_id h) (ho_shutdown h) (ho_frozen h) (ho_connecting h) (ho_transport h) (ho_taps h)
    (ho_remote_ops h) (ho_jobs h) (ho_legs h) (ho_sent h) (ho_out h).
Definition set_ho_register_ids (v : IdWindow) (h : Host) : Host :=
  mkHost (ho_policy h) (ho_kernel h) (ho_launch_tokens h) (ho_sessions h) (ho_rstreams h)
    (ho_by_instance h) (ho_pending_activation h) (ho_children h) (ho_pending h) (ho_mail h) v
    (ho_next_id h) (ho_shutdown h) (ho_frozen h) (ho_connecting h) (ho_transport h) (ho_taps h)
    (ho_remote_ops h) (ho_jobs h) (ho_legs h) (ho_sent h) (ho_out h).
Definition set_ho_next_id (v : N) (h : Host) : Host :=
  mkHost (ho_policy h) (ho_kernel h) (ho_launch_tokens h) (ho_sessions h) (ho_rstreams h)
    (ho_by_instance h) (ho_pending_activation h) (ho_children h) (ho_pending h) (ho_mail h)
    (ho_register_ids h) v (ho_shutdown h) (ho_frozen h) (ho_connecting h) (ho_transport h) (ho_taps h)
    (ho_remote_ops h) (ho_jobs h) (ho_legs h) (ho_sent h) (ho_out h).
Definition set_ho_shutdown (v : bool) (h : Host) : Host :=
  mkHost (ho_policy h) (ho_kernel h) (ho_launch_tokens h) (ho_sessions h) (ho_rstreams h)
    (ho_by_instance h) (ho_pending_activation h) (ho_children h) (ho_pending h) (ho_mail h)
    (ho_register_ids h) (ho_next_id h) v (ho_frozen h) (ho_connecting h) (ho_transport h) (ho_taps h)
    (ho_remote_ops h) (ho_jobs h) (ho_legs h) (ho_sent h) (ho_out h).
Definition set_ho_frozen (v : bool) (h : Host) : Host :=
  mkHost (ho_policy h) (ho_kernel h) (ho_launch_tokens h) (ho_sessions h) (ho_rstreams h)
    (ho_by_instance h) (ho_pending_activation h) (ho_children h) (ho_pending h) (ho_mail h)
    (ho_register_ids h) (ho_next_id h) (ho_shutdown h) v (ho_connecting h) (ho_transport h) (ho_taps h)
    (ho_remote_ops h) (ho_jobs h) (ho_legs h) (ho_sent h) (ho_out h).
Definition set_ho_connecting (v : N) (h : Host) : Host :=
  mkHost (ho_policy h) (ho_kernel h) (ho_launch_tokens h) (ho_sessions h) (ho_rstreams h)
    (ho_by_instance h) (ho_pending_activation h) (ho_children h) (ho_pending h) (ho_mail h)
    (ho_register_ids h) (ho_next_id h) (ho_shutdown h) (ho_frozen h) v (ho_transport h) (ho_taps h)
    (ho_remote_ops h) (ho_jobs h) (ho_legs h) (ho_sent h) (ho_out h).
Definition set_ho_transport (v : bool) (h : Host) : Host :=
  mkHost (ho_policy h) (ho_kernel h) (ho_launch_tokens h) (ho_sessions h) (ho_rstreams h)
    (ho_by_instance h) (ho_pending_activation h) (ho_children h) (ho_pending h) (ho_mail h)
    (ho_register_ids h) (ho_next_id h) (ho_shutdown h) (ho_frozen h) (ho_connecting h) v (ho_taps h)
    (ho_remote_ops h) (ho_jobs h) (ho_legs h) (ho_sent h) (ho_out h).
Definition set_ho_taps (v : bool * bool) (h : Host) : Host :=
  mkHost (ho_policy h) (ho_kernel h) (ho_launch_tokens h) (ho_sessions h) (ho_rstreams h)
    (ho_by_instance h) (ho_pending_activation h) (ho_children h) (ho_pending h) (ho_mail h)
    (ho_register_ids h) (ho_next_id h) (ho_shutdown h) (ho_frozen h) (ho_connecting h) (ho_transport h) v
    (ho_remote_ops h) (ho_jobs h) (ho_legs h) (ho_sent h) (ho_out h).
Definition set_ho_remote_ops (v : gmap TicketId (string * string)) (h : Host) : Host :=
  mkHost (ho_policy h) (ho_kernel h) (ho_launch_tokens h) (ho_sessions h) (ho_rstreams h)
    (ho_by_instance h) (ho_pending_activation h) (ho_children h) (ho_pending h) (ho_mail h)
    (ho_register_ids h) (ho_next_id h) (ho_shutdown h) (ho_frozen h) (ho_connecting h) (ho_transport h)
    (ho_taps h) v (ho_jobs h) (ho_legs h) (ho_sent h) (ho_out h).
Definition set_ho_jobs (v : list DepJob) (h : Host) : Host :=
  mkHost (ho_policy h) (ho_kernel h) (ho_launch_tokens h) (ho_sessions h) (ho_rstreams h)
    (ho_by_instance h) (ho_pending_activation h) (ho_children h) (ho_pending h) (ho_mail h)
    (ho_register_ids h) (ho_next_id h) (ho_shutdown h) (ho_frozen h) (ho_connecting h) (ho_transport h)
    (ho_taps h) (ho_remote_ops h) v (ho_legs h) (ho_sent h) (ho_out h).
Definition set_ho_legs (v : gmap TicketId (list RemoteCallTerminal * bool)) (h : Host) : Host :=
  mkHost (ho_policy h) (ho_kernel h) (ho_launch_tokens h) (ho_sessions h) (ho_rstreams h)
    (ho_by_instance h) (ho_pending_activation h) (ho_children h) (ho_pending h) (ho_mail h)
    (ho_register_ids h) (ho_next_id h) (ho_shutdown h) (ho_frozen h) (ho_connecting h) (ho_transport h)
    (ho_taps h) (ho_remote_ops h) (ho_jobs h) v (ho_sent h) (ho_out h).
Definition set_ho_sent (v : list (string * HFrame)) (h : Host) : Host :=
  mkHost (ho_policy h) (ho_kernel h) (ho_launch_tokens h) (ho_sessions h) (ho_rstreams h)
    (ho_by_instance h) (ho_pending_activation h) (ho_children h) (ho_pending h) (ho_mail h)
    (ho_register_ids h) (ho_next_id h) (ho_shutdown h) (ho_frozen h) (ho_connecting h) (ho_transport h)
    (ho_taps h) (ho_remote_ops h) (ho_jobs h) (ho_legs h) v (ho_out h).
Definition set_ho_out (v : list Effect) (h : Host) : Host :=
  mkHost (ho_policy h) (ho_kernel h) (ho_launch_tokens h) (ho_sessions h) (ho_rstreams h)
    (ho_by_instance h) (ho_pending_activation h) (ho_children h) (ho_pending h) (ho_mail h)
    (ho_register_ids h) (ho_next_id h) (ho_shutdown h) (ho_frozen h) (ho_connecting h) (ho_transport h)
    (ho_taps h) (ho_remote_ops h) (ho_jobs h) (ho_legs h) (ho_sent h) v.

(** [Host::attach] on an attached kernel. *)
Definition host_new (policy : HostPolicy) (k : Kernel) : Host :=
  mkHost policy k ∅ ∅ ∅ ∅ ∅ ∅ ∅ ∅ (id_window_new 512) 1 false false 0 false (false, false) ∅ [] ∅ [] [].

#[export] Instance host_clock : Clock Host := {
  clock h := clock (ho_kernel h);
  advance n h := set_ho_kernel (advance n (ho_kernel h)) h;
}.

Notation hprog := (prog Host).

(** The actions of a kernel program as actions of the host. *)
Fixpoint klift {A} (p : kprog A) : hprog A :=
  match p with
  | Ret a => Ret a
  | Act f k => Act (λ h, let '(x, k') := f (ho_kernel h) in (x, set_ho_kernel k' h)) (λ x, klift (k x))
  | Wait c u k => Wait (λ h, c (ho_kernel h)) u (λ b, klift (k b))
  end.

Definition kread {X} (f : Kernel → X) : hprog X := read (λ h, f (ho_kernel h)).

(** What the outside answers: the error of a write, of the token source, of starting and of
    killing a process; whether a process has exited, and whether a thread starts. *)
Record HWorld : Type := mkHWorld {
  hw_write : string → HFrame → option string;
  hw_token : result string string;
  hw_spawn : string → bool;
  hw_kill : string → bool;
  hw_exited : string → bool;
  hw_thread : bool;
}.

(** ** Access to the tables *)

Definition session (sid : string) (h : Host) : option HSession := ho_sessions h !! sid.

(** [if let Some(s) = sessions.get(sid) { ... }]. *)
Definition on_session {X} (sid : string) (none : X) (f : HSession → X * HSession) (h : Host) : X * Host :=
  match session sid h with
  | None => (none, h)
  | Some s => let '(x, s') := f s in (x, set_ho_sessions (<[sid := s']> (ho_sessions h)) h)
  end.

Definition upd_session (sid : string) (f : HSession → HSession) : hprog unit :=
  act (on_session sid tt (λ s, (tt, f s))).

(** The table of remote legs a session shares; it exists from its registration on. *)
Definition rtable (sid : string) (h : Host) : gmap string RemoteStream := default ∅ (ho_rstreams h !! sid).

Definition on_rtable {X} (sid : string) (f : gmap string RemoteStream → X * gmap string RemoteStream) (h : Host)
    : X * Host :=
  let '(x, t) := f (rtable sid h) in (x, set_ho_rstreams (alter (λ _, t) sid (ho_rstreams h)) h).

Definition effect (e : Effect) : hprog unit := modify (λ h, set_ho_out (ho_out h ++ [e]) h).

(** A call of the route, when one is installed. *)
Definition transport (e : Effect) : hprog unit :=
  modify (λ h, if ho_transport h then set_ho_out (ho_out h ++ [e]) h else h).

Definition fresh_id (prefix : string) : hprog string :=
  act (λ h, (prefix +:+ "-" +:+ display (ho_next_id h), set_ho_next_id (ho_next_id h + 1) h)).

(** ** Budgets *)

Definition charge_send_step (sid : string) (bytes : N) : Host → bool * Host :=
  on_session sid false (λ s,
    if (hs_send_quota s <? saturating_add (hs_send_used s) bytes)%N then (false, s)
    else (true, set_hs_send_used (saturating_add (hs_send_used s) bytes) s)).

Definition charge_send (sid : string) (bytes : N) : hprog bool := act (charge_send_step sid bytes).

Definition release_send (sid : string) (bytes : N) : hprog unit :=
  upd_session sid (λ s, set_hs_send_used (saturating_sub (hs_send_used s) bytes) s).

(** [*n += 1] under the cap; [None] without the session. *)
Definition enter_step (sid : string) : Host → option bool * Host :=
  on_session sid None (λ s,
    if (MAX_CALLS_PER_SESSION <=? hs_in_flight s)%N then (Some false, s)
    else (Some true, set_hs_in_flight (hs_in_flight s + 1) s)).

(** [InFlightGuard::drop]. *)
Definition leave (sid : string) : hprog unit :=
  upd_session sid (λ s, set_hs_in_flight (saturating_sub (hs_in_flight s) 1) s).

(** ** Frames *)

Section frames.
Context (to_string : Value → string) (w : HWorld).

Definition json_len (v : Value) : N := str_len (to_string v).

Definition frame_json (sid : string) (f : HFrame) : Value :=
  obj ([("protocol", JString PROTOCOL_ID); ("version", JString PROTOCOL_VERSION);
        ("type", JString (hf_ty f)); ("message_id", JString (hf_message_id f));
        ("session_id", JString sid); ("body", hf_body f)]
       ++ match hf_instance f with Some i => [("instance_id", JString i)] | None => [] end
       ++ match hf_generation f with Some g => [("generation", JString g)] | None => [] end
       ++ match hf_request_id f with Some r => [("request_id", r)] | None => [] end).

(** [encode(&to_vec(&env), DEFAULT_MAX_FRAME)]. *)
Definition encodes (sid : string) (f : HFrame) : bool :=
  is_ok (encode (chars (to_string (frame_json sid f))) DEFAULT_MAX_FRAME).

Definition write (sid : string) (f : HFrame) : hprog (option string) :=
  act (λ h, match hw_write w sid f with
            | Some e => (Some e, h)
            | None => (None, set_ho_sent (ho_sent h ++ [(sid, f)]) h)
            end).

(** [session_sink], then the write outside the lock; the result is ignored. *)
Definition post (sid : string) (f : HFrame) : hprog unit :=
  if negb (encodes sid f) then Ret tt
  else
    let! sink := read (λ h, is_some (session sid h)) in
    if sink then do! write sid f; Ret tt else Ret tt.

Definition stamped (ty msg : string) (instance generation : N) (rid : option Value) (body : Value) : HFrame :=
  mkHFrame ty msg (Some (display instance)) (Some (display generation)) rid body.

Definition send_to (sid logical : string) (instance generation : N) (ty : string)
    (request_id : option string) (body : Value) : hprog (result unit string) :=
  let! msg := fresh_id "msg" in
  let f := stamped ty msg instance generation (Some (j_opt (JString <$> request_id))) body in
  match encode (chars (to_string (frame_json sid f))) DEFAULT_MAX_FRAME with
  | Err e => Ret (Err (frame_error_display e))
  | Ok _ =>
      let! sink := read (session sid) in
      match sink with
      | None => Ret (Err ("no session " +:+ sid))
      | Some s =>
          if bool_decide (hs_logical s ≠ logical) || negb (hs_instance s =? instance)%N
             || negb (hs_generation s =? generation)%N then Ret (Err "stale session binding")
          else
            let! r := write sid f in
            Ret (match r with Some e => Err e | None => Ok tt end)
      end
  end.

(** A frame correlated with a request, stamped with an activation. *)
Definition reply (ty sid : string) (instance generation : N) (request_id : string) (body : Value)
    : hprog unit :=
  let! msg := fresh_id "msg" in
  post sid (stamped ty msg instance generation (Some (JString request_id)) body).

End frames.

(** ** Wire arguments *)

Definition parse_resource_kind (env_debug : string → string) (body : Value) : result ResourceKind string :=
  let kind := default "" (get_str "kind" body) in
  let label := default "" (get_str "label" body) in
  if str_is_empty label || (256 <? str_len label)%N then Err "label must be 1..=256 chars"
  else if bool_decide (kind = "cap") then Ok (Cap label)
  else if bool_decide (kind = "sub") then Ok (Sub label)
  else if bool_decide (kind = "timer") then Ok (Timer label (default 0%N (get_u64 "interval_ms" body)))
  else if bool_decide (kind = "task") then Ok (Task label)
  else Err ("unknown resource kind " +:+ env_debug kind).

Definition parse_parent_ticket (s : string) : option TicketId :=
  let s := default s (strip_prefix "tkt-" s) in
  if str_is_empty s || (20 <? str_len s)%N || negb (forallb is_ascii_digit (chars s)) then None
  else parse_u64 (chars s).

Definition tkt (t : TicketId) : string := "tkt-" +:+ display t.

Definition has_feature (f : string) (s : HSession) : bool := bool_decide (f ∈ hs_features s).

Definition MAX_CALLS_MESSAGE (logical : string) : string := "too many in-flight calls on " +:+ logical.
