(* ===== verification/HostCalls.v ===== *)
(** * Processes, sessions and forwarded calls of the host ([matrix-host/src/lib.rs])

    The kernel's side of the host: lifecycle events start and stop processes, a withdrawn
    activation is quiesced and its session dropped, and a call of the kernel is forwarded to the
    session of the activation it is pinned to. The guards that give back a session's budgets are
    the actions after the guarded part, on every way out of it. *)

From S2P Require Import Prelude RustStd Json Wire Frame Envelope Dependency Handshake Guard Remote.
From S2P Require Import Identity Contexts Resources Deps Calls Journal Manifest Prog Timed.
From S2P Require Import KernelState KernelCalls KernelLifecycle KernelDispatch HostState.

(** ** Channels *)

Inductive Received : Type := Got (env : Envelope) | TimedOut | Disconnected.

Definition remove_pending (rid : string) : hprog unit :=
  modify (λ h, set_ho_pending (delete rid (ho_pending h)) h).

Definition add_pending (rid : string) (p : Pending) (h : Host) : Host :=
  set_ho_mail (<[rid := []]> (ho_mail h)) (set_ho_pending (<[rid := p]> (ho_pending h)) h).

(** [tx.send(env)]. *)
Definition deliver (rid : string) (env : Envelope) (h : Host) : Host :=
  set_ho_mail (alter (λ l, l ++ [env]) rid (ho_mail h)) h.

Definition take_mail (rid : string) (h : Host) : Received * Host :=
  match ho_mail h !! rid with
  | Some (env :: rest) => (Got env, set_ho_mail (<[rid := rest]> (ho_mail h)) h)
  | _ => (Disconnected, h)
  end.

(** A message is there, or the sender is gone. *)
Definition arrived (rid : string) (h : Host) : bool :=
  negb (bool_decide (default [] (ho_mail h !! rid) = [])) || negb (is_some (ho_pending h !! rid)).

(** [rx.recv_timeout(dur)]. *)
Definition recv_timeout (rid : string) (dur : N) : hprog Received :=
  let! now := read clock in
  Wait (arrived rid) (now + dur) (λ b, if b then act (take_mail rid) else Ret TimedOut).

Section calls.
Context {E : Env} (to_string : Value → string) (w : HWorld).
Notation send_to := (send_to to_string w).

(** ** Forwarding a call *)

Definition error_field (key dflt : string) (err : Value) : string := default dflt (get_str key err).

(** What a reply of the component means to the caller. *)
Definition reply_outcome (env : Envelope) : ForwardOutcome :=
  if bool_decide (env_ty env = "call.result") then
    if bool_decide (default "" (get_str "status" (env_body env)) = "ok") then
      FwOk (default JNull (get "output" (env_body env)))
    else
      let err := default (obj []) (get "error" (env_body env)) in
      FwErr (error_field "code" "internal" err) (error_field "message" "remote error" err)
  else if bool_decide (env_ty env = "call.error") then
    let err := default (env_body env) (get "error" (env_body env)) in
    FwErr (error_field "code" "outcome-unknown" err) (error_field "message" "session lost" err)
  else FwFailed (FwGone "session lost").

Definition cancel_body (ticket : TicketId) (reason : string) : Value :=
  obj [("ticket", JString (tkt ticket)); ("reason", JString reason)].

(** One turn of the wait: the cancel flag, the deadline, the channel. *)
Definition forward_round (req : ForwardRequest) (sid rid : string) (deadline : Instant)
    : hprog (option ForwardOutcome) :=
  let! cancelled := kread (λ k, flag_value (fr_cancel req) (k_calls k)) in
  if cancelled then
    let! crid := fresh_id "req" in
    do! send_to sid (fr_logical req) (fr_instance req) (fr_generation req) "call.cancel" (Some crid)
          (cancel_body (fr_ticket req) "cancelled");
    do! remove_pending rid;
    Ret (Some (FwFailed FwCancelled))
  else
    let! now := read clock in
    if (deadline <=? now)%N then
      do! remove_pending rid;
      Ret (Some (FwFailed FwTimeout))
    else
      let! r := recv_timeout rid (N.min CALL_POLL_MS (deadline - now)) in
      Ret (match r with
           | Got env => Some (reply_outcome env)
           | TimedOut => None
           | Disconnected => Some (FwFailed (FwGone "session lost"))
           end).

Definition call_open_body (ticket : TicketId) (cap : string) (input : Value) (timeout_ms : N) : Value :=
  obj [("ticket", JString (tkt ticket)); ("capability", JString cap); ("input", input);
       ("timeout_ms", j_u64 timeout_ms)].

(** The exchange itself, its budgets held. *)
Definition forward_exchange (req : ForwardRequest) (sid : string) : hprog (option ForwardOutcome) :=
  let! rid := fresh_id "req" in
  do! modify (add_pending rid (mkPending sid (PkCall (tkt (fr_ticket req)))));
  let! sent := send_to sid (fr_logical req) (fr_instance req) (fr_generation req) "call.open" (Some rid)
                 (call_open_body (fr_ticket req) (fr_cap req) (fr_input req) (fr_timeout_ms req)) in
  match sent with
  | Err e => do! remove_pending rid; Ret (Some (FwFailed (FwGone e)))
  | Ok _ =>
      let! now := read clock in
      let span := N.max (fr_timeout_ms req) 1 in
      poll (rounds span CALL_POLL_MS) (forward_round req sid rid (now + span))
  end.

Definition forward_charged (req : ForwardRequest) (sid : string) : hprog (option ForwardOutcome) :=
  let bytes := json_len to_string (fr_input req) in
  let! ok := charge_send sid bytes in
  if negb ok then
    Ret (Some (FwErr "resource-exhausted" ("session send quota exceeded on " +:+ fr_logical req)))
  else
    let! r := forward_exchange req sid in
    do! release_send sid bytes;
    Ret r.

Definition no_session (req : ForwardRequest) : ForwardOutcome :=
  FwFailed (FwGone ("no session for " +:+ fr_logical req +:+ " inst-" +:+ display (fr_instance req))).

Definition forward_call (req : ForwardRequest) : hprog (option ForwardOutcome) :=
  let! full := read (λ h, MAX_PENDING_PER_HOST <=? size (ho_pending h)) in
  if full then Ret (Some (FwErr "resource-exhausted" "host reply queue full"))
  else
    let! sid := read (λ h, ho_by_instance h !! (fr_logical req, fr_instance req)) in
    match sid with
    | None => Ret (Some (no_session req))
    | Some sid =>
        let! gen_ok := read (λ h, is_some_and (λ s, (hs_generation s =? fr_generation req)%N)
                                    (session sid h)) in
        if negb gen_ok then
          Ret (Some (FwFailed (FwGone ("stale session generation for " +:+ fr_logical req))))
        else
          let! entered := act (enter_step sid) in
          match entered with
          | None => Ret (Some (no_session req))
          | Some false => Ret (Some (FwErr "resource-exhausted" (MAX_CALLS_MESSAGE (fr_logical req))))
          | Some true =>
              let! r := forward_charged req sid in
              do! leave sid;
              Ret r
          end
    end.

(** ** Lifecycle transactions *)

Definition transact (sid logical : string) (instance generation : N) (ty : string) (body : Value)
    (timeout_ms : N) : hprog (result (option Envelope) string) :=
  let! known := read (λ h, is_some (session sid h)) in
  if negb known then Ret (Ok None)
  else
    let! full := read (λ h, MAX_PENDING_PER_HOST <=? size (ho_pending h)) in
    if full then Ret (Err "host reply queue full")
    else
      let! rid := fresh_id "req" in
      do! modify (add_pending rid (mkPending sid PkLifecycle));
      let! sent := send_to sid logical instance generation ty (Some rid) body in
      match sent with
      | Err e => do! remove_pending rid; Ret (Err e)
      | Ok _ =>
          let! r := recv_timeout rid (N.max timeout_ms 1) in
          match r with
          | Got env => Ret (Ok (Some env))
          | _ => do! remove_pending rid; Ret (Err "lifecycle timeout")
          end
      end.

(** ** The end of a session *)

Definition gone_envelope (msg rid : string) (s : HSession) : Envelope :=
  mkEnvelope "call.error" msg (Some (hs_id s)) (Some (display (hs_instance s))) (Some (hs_generation s))
    (Some rid)
    (obj [("ticket", JString "");
          ("error", obj [("code", JString "outcome-unknown"); ("message", JString "session lost")])]).

(** One orphaned reply: the waiter gets [outcome-unknown]. *)
Definition orphan (s : HSession) (h : Host) (rid : string) : Host :=
  deliver rid (gone_envelope ("msg-" +:+ display (ho_next_id h)) rid s)
    (set_ho_next_id (ho_next_id h + 1) (set_ho_pending (delete rid (ho_pending h)) h)).

Definition owned_by (sid : string) (h : Host) : list string :=
  keys (filter (λ kv, pe_session kv.2 = sid) (ho_pending h)).

Definition orphan_all (sid : string) (s : HSession) (h : Host) : unit * Host :=
  (tt, foldl (orphan s) h (owned_by sid h)).

Definition take_session (sid : string) (h : Host) : option HSession * Host :=
  (session sid h, set_ho_sessions (delete sid (ho_sessions h)) h).

Definition unbind (logical : string) (instance : N) (h : Host) : option string * Host :=
  (ho_by_instance h !! (logical, instance),
   set_ho_by_instance (delete (logical, instance) (ho_by_instance h)) h).

Definition drop_session (sid : string) : hprog unit :=
  let! s := act (take_session sid) in
  match s with
  | None => Ret tt
  | Some s =>
      do! act (unbind (hs_logical s) (hs_instance s));
      do! act (orphan_all sid s);
      do! Prog.for_each (map_to_list (hs_dep_requests s)).*2
            (λ child, do! klift (call_cancel child "session-lost"); Ret tt);
      do! Prog.for_each (hs_ext_handles s) (λ h, do! klift (release h); Ret tt);
      effect (FxShutdown sid)
  end.

(** The calls of a session that wait for its answer. *)
Definition waiting_calls (sid : string) (h : Host) : option HSession * list string :=
  match session sid h with
  | None => (None, [])
  | Some s =>
      (Some s, omap (λ kv, if bool_decide (pe_session kv.2 = sid) then
                             match pe_kind kv.2 with PkCall t => Some t | PkLifecycle => None end
                           else None) (map_to_list (ho_pending h)))
  end.

Definition cancel_session_calls (sid reason : string) : hprog unit :=
  let! jobs := read (waiting_calls sid) in
  match jobs with
  | (None, _) => Ret tt
  | (Some s, tickets) =>
      Prog.for_each tickets (λ ticket,
        let! msg := fresh_id "msg" in
        let! rid := fresh_id "req" in
        let f := stamped "call.cancel" msg (hs_instance s) (hs_generation s) (Some (JString rid))
                   (obj [("ticket", JString ticket); ("reason", JString reason)]) in
        if encodes to_string (hs_id s) f then do! write w (hs_id s) f; Ret tt else Ret tt)
  end.

(** ** Processes *)

Definition kill_child_step (logical : string) (h : Host) : bool * Host :=
  let h := set_ho_launch_tokens (delete logical (ho_launch_tokens h)) h in
  if bool_decide (logical ∈ ho_children h) then
    let h := set_ho_out (ho_out h ++ [FxKill logical]) h in
    if negb (hw_kill w logical) then (false, h)
    else
      (true, set_ho_pending_activation (delete logical (ho_pending_activation h))
               (set_ho_children (ho_children h ∖ {[logical]}) h))
  else (false, h).

Definition kill_child (logical : string) : hprog bool := act (kill_child_step logical).

(** The guard on a spawn: exactly the current, active instance. *)
Definition is_current (logical : string) (instance generation : N) (k : Kernel) : bool :=
  is_some_and (λ c, (cr_instance c =? instance)%N && (cr_generation c =? generation)%N && ctx_active c)
    (current logical (k_contexts k)).

(** The publication of the child, the token issued. *)
Definition spawn_publish (logical : string) (instance generation : N) (entrypoint : string)
    (argv : list string) (token : string) (h : Host) : unit * Host :=
  let sandboxed := default false (hp_components (ho_policy h) !! logical) in
  let h := set_ho_launch_tokens (<[logical := (instance, token)]> (ho_launch_tokens h)) h in
  let h := set_ho_pending_activation (<[logical := (instance, generation)]> (ho_pending_activation h)) h in
  if hw_spawn w logical then
    (tt, set_ho_out (ho_out h ++ [FxSpawn logical instance generation entrypoint argv sandboxed])
           (set_ho_children ({[logical]} ∪ ho_children h) h))
  else
    (tt, set_ho_launch_tokens (delete logical (ho_launch_tokens h))
           (set_ho_pending_activation (delete logical (ho_pending_activation h)) h)).

Definition spawn_child (sock logical : string) (instance generation : N) (entrypoint : string)
    (args : list string) : hprog unit :=
  let! current := kread (is_current logical instance generation) in
  if negb current then Ret tt
  else
    let argv := expand_args args sock logical in
    let! denied := read (λ h, hp_secure (ho_policy h)
                              && negb (is_some (hp_components (ho_policy h) !! logical))) in
    if denied then Ret tt
    else
      match hw_token w with
      | Err _ => Ret tt
      | Ok token => act (spawn_publish logical instance generation entrypoint argv token)
      end.

(** Children that exited and have no live session. *)
Definition finished (h : Host) : list string :=
  List.filter (λ l, hw_exited w l && negb (existsb (λ li, bool_decide (li.1 = l)) (keys (ho_by_instance h))))
    (elements (ho_children h)).

Definition reap_finished : hprog unit :=
  let! gone := read finished in
  Prog.for_each gone (λ l, modify (λ h, set_ho_children (ho_children h ∖ {[l]}) h)).

(** Sleeps until the clock reaches the end of [dur]. *)
Definition sleep (dur : N) : hprog unit :=
  let! now := read clock in
  Wait (λ _, false) (now + dur) (λ _, Ret tt).

Definition wait_round (logical : string) (t0 : Instant) (timeout : N) : hprog (option bool) :=
  let! now := read clock in
  let! gone := read (λ h, bool_decide (logical ∉ ho_children h)) in
  if (now - t0 <? timeout)%N then
    if gone then Ret (Some true)
    else do! reap_finished; do! sleep 5; Ret None
  else Ret (Some gone).

Definition wait_no_child (logical : string) (timeout : N) : hprog (option bool) :=
  let! t0 := read clock in
  poll (rounds timeout 5) (wait_round logical t0 timeout).

Definition lifecycle_body (op : string) (ms : N) : Value :=
  obj [("operation_id", JString op); ("deadline_ms", j_u64 ms)].

Definition quiesce_session (logical : string) (instance generation : N) : hprog unit :=
  let! sid := act (unbind logical instance) in
  do! match sid with
      | None => Ret tt
      | Some sid =>
          do! cancel_session_calls sid "withdraw";
          let! op := fresh_id "op" in
          do! transact sid logical instance generation "lifecycle.quiesce" (lifecycle_body op QUIESCE_MS)
                QUIESCE_MS;
          let! op := fresh_id "op" in
          do! transact sid logical instance generation "lifecycle.dispose" (lifecycle_body op DISPOSE_MS)
                DISPOSE_MS;
          drop_session sid
      end;
  do! kill_child logical;
  Ret tt.

Definition handle_event (sock : string) (ev : LifecycleEvent) : hprog unit :=
  do! match ev with
      | LcActivated logical instance generation entrypoint args _ =>
          do! kill_child logical;
          spawn_child sock logical instance generation entrypoint args
      | LcWithdrawn logical instance generation => quiesce_session logical instance generation
      | LcRemoved logical =>
          let! cur := klift (current_of logical) in
          do! match cur with
              | Some c => quiesce_session logical (cr_instance c) (cr_generation c)
              | None => Ret tt
              end;
          do! modify (λ h, set_ho_pending_activation (delete logical (ho_pending_activation h)) h);
          do! kill_child logical;
          Ret tt
      end;
  do! transport FxTopology;
  reap_finished.

(** The loop on the kernel's events: [None] is a time-out of the channel, which reaps. *)
Fixpoint event_loop (sock : string) (received : list (option LifecycleEvent)) : hprog unit :=
  match received with
  | [] => Ret tt
  | r :: received =>
      let! down := read ho_shutdown in
      if down then Ret tt
      else
        do! match r with Some ev => handle_event sock ev | None => reap_finished end;
        event_loop sock received
  end.

(** The external definitions that are active when the host attaches. *)
Definition backlog (k : Kernel) : list (string * N * N * string * list string) :=
  omap (λ ld,
    match sm_execution ld.2, current_all (k_contexts k) !! ld.1 with
    | External entrypoint args _, Some c =>
        if ctx_active c then Some (ld.1, cr_instance c, cr_generation c, entrypoint, args) else None
    | _, _ => None
    end) (map_to_list (k_definitions k)).

Definition attach_with_policy (sock : string) : hprog unit :=
  do! klift set_forwarder_op;
  do! klift set_hook_op;
  do! klift (set_event_sink_op true);
  let! l := kread backlog in
  Prog.for_each l (λ e, let '(logical, inst, gen, entrypoint, args) := e in
    spawn_child sock logical inst gen entrypoint args).

Definition shutdown : hprog unit :=
  do! modify (set_ho_shutdown true);
  let! ids := read (λ h, elements (ho_children h)) in
  do! Prog.for_each ids (λ id, do! kill_child id; Ret tt);
  let! sids := read (λ h, keys (ho_sessions h)) in
  Prog.for_each sids (λ sid, effect (FxShutdown sid)).

End calls.
