(* ===== verification/HostStreams.v ===== *)
(** * Streams and events of the host ([matrix-host/src/lib.rs])

    A component's stream is accounted against the window the host granted it; a stream that
    belongs to a remote leg is relayed over the route instead, in its own table. Chunks that
    arrive before their leg is known are parked for a while. Events and chunks that go to a
    component are charged to its session while they are being written. *)

From S2P Require Import Prelude RustStd Json Wire Frame Envelope Dependency Handshake Guard Remote.
From S2P Require Import Identity Contexts Resources Deps Calls Journal Manifest Prog Timed.
From S2P Require Import KernelState KernelCalls KernelLifecycle KernelDispatch HostState HostCalls.

Definition is_call_stream_id (stream_id : string) : bool := starts_with "remote/" stream_id.

Definition stream_seq (env : Envelope) : option N := s ← get_str "seq" (env_body env); parse_u64 (chars s).
Definition stream_payload (env : Envelope) : string := default "" (get_str "payload" (env_body env)).

(** ** The window of a local stream *)

Definition new_stream_state : StreamState := mkStreamState 0 STREAM_INITIAL_GRANT 0 false.

(** What a chunk does to the window: [None] when it is ignored, else whether it is the first one,
    whether it exceeds the window, and the new totals. *)
Definition stream_account (seq len : N) (st : StreamState) : option (bool * bool * N * N) * StreamState :=
  if ss_ended st then (None, st)
  else if negb (seq =? ss_next_seq st)%N then (None, st)
  else
    let received := (ss_received st + len)%N in
    let over := (ss_granted st <? received)%N in
    (Some ((ss_next_seq st =? 0)%N, over, received, ss_granted st),
     mkStreamState (ss_next_seq st + 1) (ss_granted st) received over).

(** [streams.entry(stream_id).or_insert(...)]. *)
Definition stream_entry (stream_id : string) (seq len : N) (s : HSession)
    : option (bool * bool * N * N) * HSession :=
  let '(r, st) := stream_account seq len (default new_stream_state (hs_streams s !! stream_id)) in
  (r, set_hs_streams (<[stream_id := st]> (hs_streams s)) s).

(** ** The table of remote legs *)

Definition new_remote_stream (peer operation : string) (credit : N) : RemoteStream :=
  mkRemoteStream peer operation 0 credit 0 0 credit 0 false.

Definition rs_end (st : RemoteStream) : RemoteStream :=
  mkRemoteStream (rs_peer st) (rs_operation st) (rs_send_next st) (rs_send_granted st) (rs_send_sent st)
    (rs_recv_next st) (rs_recv_granted st) (rs_recv_received st) true.
Definition rs_sequenced (ended : bool) (st : RemoteStream) : RemoteStream :=
  mkRemoteStream (rs_peer st) (rs_operation st) (rs_send_next st + 1) (rs_send_granted st) (rs_send_sent st)
    (rs_recv_next st) (rs_recv_granted st) (rs_recv_received st) ended.
Definition rs_add_sent (n : N) (st : RemoteStream) : RemoteStream :=
  mkRemoteStream (rs_peer st) (rs_operation st) (rs_send_next st) (rs_send_granted st) (rs_send_sent st + n)
    (rs_recv_next st) (rs_recv_granted st) (rs_recv_received st) (rs_ended st).
Definition rs_credit (n : N) (st : RemoteStream) : RemoteStream :=
  mkRemoteStream (rs_peer st) (rs_operation st) (rs_send_next st) (saturating_add (rs_send_granted st) n)
    (rs_send_sent st) (rs_recv_next st) (rs_recv_granted st) (rs_recv_received st) (rs_ended st).
Definition rs_received (n : N) (st : RemoteStream) : RemoteStream :=
  mkRemoteStream (rs_peer st) (rs_operation st) (rs_send_next st) (rs_send_granted st) (rs_send_sent st)
    (rs_recv_next st + 1) (rs_recv_granted st) (rs_recv_received st + n)
    (rs_ended st || (rs_recv_granted st <? rs_recv_received st + n)%N).

Inductive RelayAct : Type :=
| RelayData (peer operation : string) (seq payload_len : N) (over : bool)
| RelayEnd (peer : string)
| RelayIgnore
| RelayUnclaimed.

(** The decision on a component's frame, under the lock of the table. *)
Definition relay_decide (env : Envelope) (stream_id : string) (t : gmap string RemoteStream)
    : RelayAct * gmap string RemoteStream :=
  match t !! stream_id with
  | None => (RelayUnclaimed, t)
  | Some st =>
      if bool_decide (env_ty env = "stream.data") then
        if rs_ended st then (RelayIgnore, t)
        else
          match stream_seq env with
          | None => (RelayIgnore, t)
          | Some seq =>
              if negb (seq =? rs_send_next st)%N then (RelayIgnore, t)
              else
                let len := str_len (stream_payload env) in
                let over := (rs_send_granted st <? saturating_add (rs_send_sent st) len)%N in
                (RelayData (rs_peer st) (rs_operation st) seq len over,
                 <[stream_id := rs_sequenced over st]> t)
          end
      else if bool_decide (env_ty env = "stream.end") then
        (RelayEnd (rs_peer st), <[stream_id := rs_end st]> t)
      else (RelayIgnore, t)
  end.

(** [deliver_remote_chunk], the part under the lock: [None] unbound, ended or out of order;
    else whether the chunk exceeds the window. *)
Definition receive_decide (stream_id : string) (seq len : N) (t : gmap string RemoteStream)
    : option bool * gmap string RemoteStream :=
  match t !! stream_id with
  | None => (None, t)
  | Some st =>
      if rs_ended st || negb (seq =? rs_recv_next st)%N then (None, t)
      else
        (Some (rs_recv_granted st <? rs_recv_received st + len)%N, <[stream_id := rs_received len st]> t)
  end.

Definition bind_decide (stream_id peer operation : string) (credit : N) (t : gmap string RemoteStream)
    : result unit string * gmap string RemoteStream :=
  if is_some (t !! stream_id) then (Err "duplicate-request", t)
  else if MAX_REMOTE_STREAMS_PER_SESSION <=? size t then (Err "resource-exhausted", t)
  else (Ok tt, <[stream_id := new_remote_stream peer operation credit]> t).

(** ** Parked chunks *)

Definition unexpired (now : Instant) (l : list ParkedChunk) : list ParkedChunk :=
  List.filter (λ p, (now - pk_at p <? PARKED_TTL)%N) l.

Definition park (now : Instant) (c : ParkedChunk) (l : list ParkedChunk) : list ParkedChunk :=
  let l := unexpired now l in
  (if MAX_PARKED_PER_SESSION <=? length l then List.tl l else l) ++ [c].

Definition parked_for (stream_id : string) (p : ParkedChunk) : bool := bool_decide (pk_stream_id p = stream_id).

Definition unpark (now : Instant) (stream_id : string) (l : list ParkedChunk)
    : list ParkedChunk * list ParkedChunk :=
  let l := unexpired now l in
  (List.filter (parked_for stream_id) l, List.filter (λ p, negb (parked_for stream_id p)) l).

Section streams.
Context {E : Env} (to_string : Value → string) (w : HWorld).
Notation post := (post to_string w).

(** ** Frames to the component *)

(** A frame stamped with the identity of the session, without a request. *)
Definition notify (ty sid : string) (body : Value) : hprog unit :=
  let! meta := read (session sid) in
  match meta with
  | None => Ret tt
  | Some s =>
      let! msg := fresh_id "msg" in
      post sid (stamped ty msg (hs_instance s) (hs_generation s) None body)
  end.

Definition send_stream_credit (sid stream_id : string) (bytes : N) : hprog unit :=
  notify "stream.credit" sid (obj [("stream_id", JString stream_id); ("bytes", j_u64 bytes)]).

Definition end_stream (sid stream_id status : string) (received granted : N) : hprog unit :=
  notify "stream.end" sid
    (obj [("stream_id", JString stream_id); ("status", JString status);
          ("reason", JString ("over credit: received " +:+ display received +:+ " granted "
                              +:+ display granted))]).

Definition send_stream_chunk (sid : string) (instance generation : N) (stream_id : string) (seq : N)
    (payload : string) : hprog unit :=
  let bytes := str_len payload in
  let! ok := charge_send sid bytes in
  if negb ok then Ret tt
  else
    let! msg := fresh_id "msg" in
    do! post sid (stamped "stream.data" msg instance generation None
                    (obj [("stream_id", JString stream_id); ("seq", JString (display seq));
                          ("payload", JString payload)]));
    release_send sid bytes.

(** ** Relaying the component's frames *)

Definition relay_stream_frame (sid : string) (env : Envelope) (stream_id : string) : hprog bool :=
  let! known := read (λ h, is_some (session sid h)) in
  if negb known then Ret false
  else
    let! d := act (on_rtable sid (relay_decide env stream_id)) in
    match d with
    | RelayUnclaimed => Ret false
    | RelayIgnore => Ret true
    | RelayEnd peer => do! transport (FxStreamEnd peer stream_id "ok"); Ret true
    | RelayData peer operation seq len over =>
        if over then
          do! end_stream sid stream_id "error" 0 0;
          do! transport (FxStreamEnd peer stream_id "error");
          Ret true
        else
          let! ok := charge_send sid len in
          if negb ok then Ret true
          else
            let! sent := act (on_rtable sid (λ t,
              match t !! stream_id with
              | Some st => (true, <[stream_id := rs_add_sent len st]> t)
              | None => (false, t)
              end)) in
            do! (if sent then transport (FxStreamData peer operation stream_id seq (stream_payload env))
                 else Ret tt);
            do! release_send sid len;
            Ret true
    end.

Definition bind_remote_stream (sid stream_id peer operation : string) (credit : N)
    : hprog (result unit string) :=
  if str_is_empty stream_id || (256 <? str_len stream_id)%N then Ret (Err "invalid-message")
  else
    let! known := read (λ h, is_some (session sid h)) in
    if negb known then Ret (Err "unknown session")
    else act (on_rtable sid (bind_decide stream_id peer operation credit)).

(** The remote operations in flight for the children a session opened. *)
Definition remote_legs (sid : string) (h : Host) : list (string * string) :=
  match session sid h with
  | None => []
  | Some s => omap (λ kt, ho_remote_ops h !! kt.2) (map_to_list (hs_dep_requests s))
  end.

Definition single_remote_leg (sid : string) (h : Host) : option (string * string) :=
  match remote_legs sid h with [leg] => Some leg | _ => None end.

Definition take_parked (sid stream_id : string) : hprog (list ParkedChunk) :=
  act (λ h, on_session sid [] (λ s,
    let '(hit, rest) := unpark (clock h) stream_id (hs_parked s) in (hit, set_hs_parked rest s)) h).

Definition park_chunk (sid : string) (env : Envelope) (stream_id : string) : hprog unit :=
  match stream_seq env with
  | None => Ret tt
  | Some seq =>
      act (λ h, on_session sid tt (λ s,
        (tt, set_hs_parked (park (clock h) (mkParkedChunk stream_id seq (stream_payload env) (clock h))
                              (hs_parked s)) s)) h)
  end.

Definition clear_parked (sid stream_id : string) : hprog unit :=
  upd_session sid (λ s, set_hs_parked (List.filter (λ p, negb (parked_for stream_id p)) (hs_parked s)) s).

Definition parked_env (sid : string) (p : ParkedChunk) : Envelope :=
  mkEnvelope "stream.data"
    ("parked-" +:+ sid +:+ "-" +:+ display (pk_seq p) +:+ "-" +:+ display (str_len (pk_payload p)))
    (Some sid) None None None
    (obj [("stream_id", JString (pk_stream_id p)); ("seq", JString (display (pk_seq p)));
          ("payload", JString (pk_payload p))]).

Definition bind_and_drain (sid stream_id : string) : hprog bool :=
  let! leg := read (single_remote_leg sid) in
  match leg with
  | None => Ret false
  | Some (peer, operation) =>
      do! bind_remote_stream sid stream_id peer operation STREAM_INITIAL_GRANT;
      let! parked := take_parked sid stream_id in
      do! Prog.for_each parked (λ p, do! relay_stream_frame sid (parked_env sid p) (pk_stream_id p); Ret tt);
      read (λ h, is_some (session sid h) && is_some (rtable sid h !! stream_id))
  end.

Definition parked_ids (sid : string) (h : Host) : list string :=
  match session sid h with
  | None => []
  | Some s => dedup (sort_strings (pk_stream_id <$> hs_parked s))
  end.

Definition drain_parked_for_session (sid : string) : hprog unit :=
  let! ids := read (parked_ids sid) in
  Prog.for_each ids (λ id, do! bind_and_drain sid id; Ret tt).

(** ** The component's stream frames *)

Definition on_local_data (sid : string) (env : Envelope) (stream_id : string) : hprog unit :=
  match stream_seq env with
  | None => Ret tt
  | Some seq =>
      let! r := act (on_session sid None (stream_entry stream_id seq (str_len (stream_payload env)))) in
      match r with
      | None => Ret tt
      | Some (fresh, over, received, granted) =>
          do! (if fresh then send_stream_credit sid stream_id STREAM_INITIAL_GRANT else Ret tt);
          do! (if over then end_stream sid stream_id "error" received granted else Ret tt);
          if negb over then
            let! tap := read (λ h, (ho_taps h).2) in
            if tap then effect (FxStreamTap sid stream_id seq (stream_payload env)) else Ret tt
          else Ret tt
      end
  end.

Definition on_local_stream (sid : string) (env : Envelope) (stream_id : string) : hprog unit :=
  if bool_decide (env_ty env = "stream.data") then on_local_data sid env stream_id
  else if bool_decide (env_ty env = "stream.end") then
    do! upd_session sid (λ s, set_hs_streams (delete stream_id (hs_streams s)) s);
    clear_parked sid stream_id
  else Ret tt.

Definition on_stream_frame (sid : string) (env : Envelope) : hprog unit :=
  let stream_id := default "" (get_str "stream_id" (env_body env)) in
  if str_is_empty stream_id || (256 <? str_len stream_id)%N then Ret tt
  else
    let! claimed := relay_stream_frame sid env stream_id in
    if claimed then Ret tt
    else
      let call := is_call_stream_id stream_id in
      if bool_decide (env_ty env = "stream.data") && call then
        let! bound := bind_and_drain sid stream_id in
        if bound then do! relay_stream_frame sid env stream_id; Ret tt
        else
          do! park_chunk sid env stream_id;
          on_local_stream sid env stream_id
      else if bool_decide (env_ty env = "stream.end") && call then
        let! bound := bind_and_drain sid stream_id in
        if bound then
          do! clear_parked sid stream_id;
          do! relay_stream_frame sid env stream_id;
          Ret tt
        else on_local_stream sid env stream_id
      else on_local_stream sid env stream_id.

(** ** Frames of the route *)

Definition deliver_remote_chunk (sid stream_id : string) (seq : N) (payload : string) : hprog bool :=
  let! meta := read (session sid) in
  match meta with
  | None => Ret false
  | Some s =>
      let! d := act (on_rtable sid (receive_decide stream_id seq (str_len payload))) in
      match d with
      | None => Ret false
      | Some true => do! end_stream sid stream_id "error" 0 0; Ret false
      | Some false =>
          do! send_stream_chunk sid (hs_instance s) (hs_generation s) stream_id seq payload;
          Ret true
      end
  end.

(** The first session, in the order of the map, that has a leg with this id. *)
Definition owner_of_stream (stream_id : string) (h : Host) : option string :=
  head (List.filter (λ sid, is_some (rtable sid h !! stream_id)) (keys (ho_sessions h))).

Definition credit_remote_stream (sid stream_id : string) (credit : N) : hprog unit :=
  let! known := read (λ h, is_some (session sid h)) in
  if negb known then Ret tt
  else act (on_rtable sid (λ t,
    (tt, alter (λ st, if rs_ended st then st else rs_credit credit st) stream_id t))).

Definition end_remote_stream (sid stream_id : string) : hprog unit :=
  let! known := read (λ h, is_some (session sid h)) in
  if negb known then Ret tt else act (on_rtable sid (λ t, (tt, alter rs_end stream_id t))).

Definition deliver_remote_chunk_any (stream_id : string) (seq : N) (payload : string) : hprog bool :=
  let! sid := read (owner_of_stream stream_id) in
  match sid with
  | None => Ret false
  | Some sid => deliver_remote_chunk sid stream_id seq payload
  end.

Definition credit_remote_stream_any (stream_id : string) (credit : N) : hprog unit :=
  let! sid := read (owner_of_stream stream_id) in
  match sid with Some sid => credit_remote_stream sid stream_id credit | None => Ret tt end.

Definition end_remote_stream_any (stream_id : string) : hprog unit :=
  let! sid := read (owner_of_stream stream_id) in
  match sid with Some sid => end_remote_stream sid stream_id | None => Ret tt end.

Definition leg_of (peer operation : string) (st : RemoteStream) : bool :=
  negb (rs_ended st) && bool_decide (rs_peer st = peer) && bool_decide (rs_operation st = operation).

Definition end_legs (peer operation : string) (t : gmap string RemoteStream)
    : nat * gmap string RemoteStream :=
  (length (values_where (leg_of peer operation) t),
   (λ st, if leg_of peer operation st then rs_end st else st) <$> t).

Definition end_remote_streams_of (peer operation : string) : hprog nat :=
  if str_is_empty peer || str_is_empty operation then Ret 0
  else
    let! sids := read (λ h, keys (ho_sessions h)) in
    for_fold sids 0 (λ n sid,
      let! m := act (on_rtable sid (end_legs peer operation)) in Ret (n + m)).

(** The session registered for exactly this activation. *)
Definition owned_session (expected : InstanceRef) (h : Host) : option (string * HSession) :=
  sid ← ho_by_instance h !! (ref_logical expected, ref_instance expected);
  s ← session sid h;
  if (hs_instance s =? ref_instance expected)%N && (hs_generation s =? ref_generation expected)%N
  then Some (sid, s) else None.

Definition inject_provider_chunk_owned (expected : InstanceRef) (stream_id : string) (seq : N)
    (payload : string) : hprog bool :=
  if str_is_empty (ref_logical expected) || str_is_empty stream_id then Ret false
  else
    let! dest := read (owned_session expected) in
    match dest with
    | None => Ret false
    | Some (sid, s) =>
        do! send_stream_chunk sid (hs_instance s) (hs_generation s) stream_id seq payload;
        Ret true
    end.

(** ** Events *)

Definition event_targets (topic : string) (h : Host) : list HSession :=
  values_where (λ s, bool_decide (topic ∈ hs_topics s)) (ho_sessions h).

Definition deliver_one (topic : string) (payload : Value) (s : HSession) : hprog (string * bool) :=
  let sid := hs_id s in
  let bytes := json_len to_string payload in
  let! ok := charge_send sid bytes in
  if negb ok then Ret (sid, false)
  else
    let! msg := fresh_id "msg" in
    let f := stamped "event.deliver" msg (hs_instance s) (hs_generation s) None
               (obj [("topic", JString topic); ("payload", payload)]) in
    do! post sid f;
    do! release_send sid bytes;
    Ret (sid, encodes to_string sid f).

Definition deliver_local_event_counted (topic : string) (payload : Value) : hprog (list (string * bool)) :=
  let! targets := read (event_targets topic) in
  for_fold targets [] (λ out s, let! r := deliver_one topic payload s in Ret (out ++ [r])).

Definition deliver_remote_event (topic : string) (payload : Value) : hprog (list (string * bool)) :=
  if str_is_empty topic || (256 <? str_len topic)%N then Ret []
  else deliver_local_event_counted topic payload.

Definition on_event (topic : string) (payload : Value) : hprog unit :=
  do! deliver_local_event_counted topic payload;
  let! tap := read (λ h, (ho_taps h).1) in
  if tap then effect (FxEventTap topic payload) else Ret tt.

(** ** Installing route and taps *)

Definition set_remote_transport (on : bool) : hprog unit :=
  do! modify (set_ho_transport on);
  if on then Ret tt else modify (set_ho_remote_ops ∅).

Definition set_event_tap (on : bool) : hprog unit := modify (λ h, set_ho_taps (on, (ho_taps h).2) h).
Definition set_stream_tap (on : bool) : hprog unit := modify (λ h, set_ho_taps ((ho_taps h).1, on) h).

Definition remote_op_of (child : TicketId) (h : Host) : option (string * string) := ho_remote_ops h !! child.

Definition ticket_for_remote_op (peer operation : string) (h : Host) : option TicketId :=
  head (omap (λ tp, if bool_decide (tp.2 = (peer, operation)) then Some tp.1 else None)
          (map_to_list (ho_remote_ops h))).

(** ** Queries *)

Definition session_id_of (logical : string) (instance : N) (h : Host) : option string :=
  ho_by_instance h !! (logical, instance).

Definition has_session (logical : string) (instance : N) (h : Host) : bool :=
  is_some (session_id_of logical instance h).

Definition session_count (h : Host) : nat := size (ho_sessions h).

Definition child_running (logical : string) (h : Host) : bool := bool_decide (logical ∈ ho_children h).

Definition session_of (logical : string) (instance : N) (h : Host) : option HSession :=
  sid ← session_id_of logical instance h; session sid h.

Definition in_flight_for (logical : string) (instance : N) (h : Host) : N :=
  default 0%N (hs_in_flight <$> session_of logical instance h).

Definition stream_count_for (logical : string) (instance : N) (h : Host) : nat :=
  default 0 ((λ s, length (values_where (λ st, negb (ss_ended st)) (hs_streams s))) <$> session_of logical instance h).

Definition ended_stream_count_for (logical : string) (instance : N) (h : Host) : nat :=
  default 0 ((λ s, length (values_where ss_ended (hs_streams s))) <$> session_of logical instance h).

Definition remote_streams_for (logical : string) (instance : N) (h : Host) : list (string * string * string) :=
  match session_id_of logical instance h with
  | None => []
  | Some sid =>
      if is_some (session sid h) then
        omap (λ kv, if rs_ended kv.2 then None else Some (kv.1, rs_peer kv.2, rs_operation kv.2))
          (map_to_list (rtable sid h))
      else []
  end.

End streams.
