(* ===== verification/HostDeps.v ===== *)
(** * Child calls of components ([matrix-host/src/lib.rs])

    A component opens a child call with [dependency.open]. The reader's gate reserves the request
    and starts a worker; the worker admits the child in the kernel, maps the request to its
    ticket, and dispatches it to the provider's session or to the route. [dependency.cancel] may
    arrive at any point of this. Every wait polls the consumer's session, the state of the
    ticket, the deadline and the channel. *)

From S2P Require Import Prelude RustStd Json Wire Frame Envelope Dependency Handshake Guard Remote.
From S2P Require Import Identity Contexts Resources Deps Calls Journal Manifest Prog Timed.
From S2P Require Import KernelState KernelCalls KernelLifecycle KernelDispatch HostState HostCalls.
From S2P Require Import HostStreams.
From Stdlib Require Import Ascii.

Definition DUPLICATE_REQUEST : string := "duplicate-request".
Definition UNSUPPORTED_FEATURE : string := "unsupported-feature".

(** [u64::to_be_bytes]. *)
Definition be_bytes64 (n : N) : bytes := (λ i, byte (n / 2 ^ (8 * i) mod 256)%N) <$> [7; 6; 5; 4; 3; 2; 1; 0]%N.

Definition request_of (env : Envelope) : string := default "" (env_request_id env).

(** ** The gate *)

Inductive Gate : Type :=
| GateGone
| GateCancel
| GateAnswer (code msg : string)
| GateSpawn (job : DepJob)
| GateDrop.

Definition job_of (sid : string) (env : Envelope) (parent : TicketId) (s : HSession) : DepJob :=
  mkDepJob sid (hs_logical s) (hs_instance s) (hs_generation s) (request_of env)
    (default "" (get_str "binding_id" (env_body env))) parent
    (default 0%N (get_u64 "timeout_ms" (env_body env))) (default JNull (get "input" (env_body env))).

Definition reserve_request (rid : string) (s : HSession) : HSession :=
  set_hs_dep_sync (mkDepSync ({[rid]} ∪ dy_pending (hs_dep_sync s)) (dy_wanted (hs_dep_sync s)))
    (set_hs_dep_seen ({[rid]} ∪ hs_dep_seen s) s).

(** The decisions on an open, under the lock of the sessions. *)
Definition gate_open (sid : string) (env : Envelope) (policy : OutboundPolicy) (pending : nat) (s : HSession)
    : Gate * HSession :=
  let rid := request_of env in
  match parse_parent_ticket (default "" (get_str "parent_ticket" (env_body env))) with
  | None => (GateAnswer "invalid-message" "bad parent_ticket", s)
  | Some parent =>
      if bool_decide (rid ∈ hs_dep_seen s) then (GateAnswer DUPLICATE_REQUEST "duplicate open", s)
      else if (max_seen_requests (ob_limits policy) <=? N.of_nat (size (hs_dep_seen s)))%N then
        (GateAnswer "resource-exhausted" "seen-request table full", s)
      else if MAX_PENDING_PER_HOST <=? pending then (GateAnswer "resource-exhausted" "host reply queue full", s)
      else if MAX_PENDING_PER_HOST <=? size (dy_pending (hs_dep_sync s)) then
        (GateAnswer "resource-exhausted" "too many pending opens", s)
      else (GateSpawn (job_of sid env parent s), reserve_request rid s)
  end.

Definition dep_gate (sid : string) (env : Envelope) (h : Host) : Gate * Host :=
  on_session sid GateGone (λ s,
    if negb (has_feature DEPENDENCY_CALLS_1 s) then
      (GateAnswer UNSUPPORTED_FEATURE "extension not negotiated", s)
    else if negb (is_ok (Dependency.validate_body (env_ty env) (env_body env))) then
      (GateAnswer "invalid-message" "invalid dependency message", s)
    else if bool_decide (env_ty env = "dependency.cancel") then (GateCancel, s)
    else if bool_decide (env_ty env ≠ "dependency.open") then (GateDrop, s)
    else
      match d ← k_definitions (ho_kernel h) !! hs_logical s; sm_outbound d with
      | None => (GateAnswer "permission-denied" "no outbound policy", s)
      | Some policy => gate_open sid env policy (size (ho_pending h)) s
      end) h.

(** ** Cancelling *)

Inductive CancelLookup : Type := CkGone | CkMapped (child : TicketId) | CkWanted | CkUnknown.

Definition cancel_lookup (sid target : string) : Host → CancelLookup * Host :=
  on_session sid CkGone (λ s,
    match hs_dep_requests s !! target with
    | Some child => (CkMapped child, s)
    | None =>
        let sync := hs_dep_sync s in
        if bool_decide (target ∈ dy_pending sync) then
          (CkWanted, set_hs_dep_sync (mkDepSync (dy_pending sync) ({[target]} ∪ dy_wanted sync)) s)
        else (CkUnknown, s)
    end).

(** The worker's side: maps the request to its child; [Some true] when a cancel came first. *)
Definition map_child (sid key : string) (child : TicketId) : Host → option bool * Host :=
  on_session sid None (λ s,
    let sync := hs_dep_sync s in
    (Some (bool_decide (key ∈ dy_wanted sync)),
     set_hs_dep_sync (mkDepSync (dy_pending sync ∖ {[key]}) (dy_wanted sync ∖ {[key]}))
       (set_hs_dep_requests (<[key := child]> (hs_dep_requests s)) s))).

Definition unpend_dep (sid key : string) : hprog unit :=
  upd_session sid (λ s,
    set_hs_dep_sync (mkDepSync (dy_pending (hs_dep_sync s) ∖ {[key]}) (dy_wanted (hs_dep_sync s))) s).

(** ** The identity of a remote operation *)

Section operation_id.
Context (to_string : Value → string) (sha256 : bytes → bytes).

Definition epoch_hex (epoch : N) : bytes := hex (be_bytes64 epoch).

Definition nul : bytes := [byte 0].

Definition preimage (epoch : N) (job : DepJob) : bytes :=
  epoch_hex epoch ++ nul ++ chars (dj_consumer_logical job) ++ nul
  ++ be_bytes64 (dj_cinstance job) ++ be_bytes64 (dj_cgeneration job) ++ be_bytes64 (dj_parent job)
  ++ chars (dj_binding job) ++ nul ++ chars (dj_request_id job) ++ nul
  ++ chars (to_string (dj_input job)).

Definition colon : bytes := chars ":".

Definition scope (domain : string) (epoch : N) (job : DepJob) : bytes :=
  (if str_is_empty domain then [] else chars domain ++ colon)
  ++ epoch_hex epoch ++ colon ++ chars (dj_consumer_logical job) ++ colon
  ++ chars (display (dj_cinstance job)) ++ colon ++ chars (display (dj_cgeneration job)) ++ colon
  ++ chars (display (dj_parent job)) ++ colon ++ chars (dj_binding job) ++ colon
  ++ chars (dj_request_id job).

Definition full_id (domain : string) (epoch : N) (job : DepJob) : bytes :=
  scope domain epoch job ++ colon ++ chars (display (json_len to_string (dj_input job))) ++ colon
  ++ hex (sha256 (preimage epoch job)).

Definition remote_operation_id (domain : string) (epoch : N) (job : DepJob) : string :=
  let full := full_id domain epoch job in
  if (blen full <=? 128)%N then of_chars full
  else of_chars (chars "op-" ++ hex (sha256 full)).
End operation_id.

Section deps.
Context {E : Env} (to_string : Value → string) (sha256 : bytes → bytes) (w : HWorld).
Notation send_to := (send_to to_string w).
Notation reply := (reply to_string w).

(** ** Answers *)

Definition error_result (code message : string) (origin : option string) : Value :=
  obj [("status", JString "error");
       ("error", obj ([("code", JString code); ("message", JString message)]
                      ++ match origin with Some o => [("origin", JString o)] | None => [] end))].

Definition send_dep_result (sid : string) (instance generation : N) (rid code message : string)
    (origin : option string) : hprog unit :=
  reply "dependency.result" sid instance generation rid (error_result code message origin).

Definition send_dep_ok (sid : string) (instance generation : N) (rid : string) (output : Value) : hprog unit :=
  reply "dependency.result" sid instance generation rid (obj [("status", JString "ok"); ("output", output)]).

Definition send_dep_accepted (sid : string) (instance generation : N) (rid : string) (child : TicketId)
    : hprog unit :=
  reply "dependency.accepted" sid instance generation rid (obj [("child_ticket", JString (display child))]).

Definition send_dep_cancel_result (sid : string) (instance generation : N) (rid target state : string)
    : hprog unit :=
  reply "dependency.cancel.result" sid instance generation rid
    (obj [("target_request_id", JString target); ("state", JString state)]).

(** ** The gate, then the worker *)

(** Answers with the identity the session has when the answer is sent. *)
Definition answer_session (sid : string) (f : HSession → hprog unit) : hprog unit :=
  let! s := read (session sid) in
  match s with Some s => f s | None => Ret tt end.

Definition cancel_state (child : TicketId) : hprog string :=
  let! rec := kread (λ k, get_ticket child (k_calls k)) in
  if is_some_and is_open rec then
    let! ok := klift (call_cancel child "consumer-cancel") in
    if ok then
      let! leg := read (λ h, ho_remote_ops h !! child) in
      do! match leg with
          | Some (peer, op) => transport (FxCallCancel peer op)
          | None => Ret tt
          end;
      Ret "revoked"
    else Ret "terminal"
  else Ret "terminal".

Definition on_dep_cancel (sid : string) (env : Envelope) : hprog unit :=
  let target := default "" (get_str "target_request_id" (env_body env)) in
  let rid := request_of env in
  let! l := act (cancel_lookup sid target) in
  let result state := answer_session sid (λ s,
    send_dep_cancel_result sid (hs_instance s) (hs_generation s) rid target state) in
  match l with
  | CkGone => Ret tt
  | CkMapped child => let! state := cancel_state child in result state
  | CkWanted => result "revoked"
  | CkUnknown => answer_session sid (λ s,
      send_dep_result sid (hs_instance s) (hs_generation s) rid "unknown-request" "unknown request" None)
  end.

Definition on_dependency_frame (sid : string) (env : Envelope) : hprog unit :=
  let! g := act (dep_gate sid env) in
  let refuse code msg := answer_session sid (λ s,
    send_dep_result sid (hs_instance s) (hs_generation s) (request_of env) code msg None) in
  match g with
  | GateGone | GateDrop => Ret tt
  | GateCancel => on_dep_cancel sid env
  | GateAnswer code msg => refuse code msg
  | GateSpawn job =>
      if hw_thread w then modify (λ h, set_ho_jobs (ho_jobs h ++ [job]) h)
      else
        do! unpend_dep sid (request_of env);
        refuse "resource-exhausted" "no worker"
  end.

(** ** The worker *)

(** How the thread of a job ends: it returns, or it stands for ever at a lock it holds itself. After
    [JobDeadlock] a program does nothing more: the guards of the thread are never dropped. *)
Inductive JobEnd : Type := JobDone | JobDeadlock.

(** The thread asks for the lock of the sessions while it holds it. *)
Definition relock_sessions : hprog (option JobEnd) :=
  do! modify (set_ho_frozen true);
  Ret (Some JobDeadlock).

Definition fail (job : DepJob) (code message : string) : hprog unit :=
  send_dep_result (dj_consumer_sid job) (dj_cinstance job) (dj_cgeneration job) (dj_request_id job)
    code message None.

Definition kcancel (child : TicketId) (reason : string) : hprog unit :=
  do! klift (call_cancel child reason); Ret tt.

Definition kclose (child : TicketId) : hprog unit := do! klift (call_close reconcile child); Ret tt.

(** [send_dep_result]; [call_cancel]; [call_close]. *)
Definition give_up_with (job : DepJob) (child : TicketId) (code message reason : string) : hprog unit :=
  do! fail job code message;
  do! kcancel child reason;
  kclose child.

(** The terminal of a child under the consumer's quota: [accepted] says what to send when the
    kernel accepts it. *)
Definition accept_terminal (job : DepJob) (child : TicketId) (len : N) (accepted : hprog unit)
    (close : hprog unit) : hprog unit :=
  let! ok := charge_send (dj_consumer_sid job) len in
  if negb ok then
    do! fail job "resource-exhausted" "session send quota exceeded";
    close
  else
    let! r := klift (dependency_accept child) in
    do! match r with
        | Ok _ => accepted
        | Err d => fail job (dd_code d) (dd_reason d)
        end;
    do! release_send (dj_consumer_sid job) len;
    close.

Definition answer_ok (job : DepJob) (output : Value) : hprog unit :=
  send_dep_ok (dj_consumer_sid job) (dj_cinstance job) (dj_cgeneration job) (dj_request_id job) output.

Definition answer_error (job : DepJob) (code message origin : string) : hprog unit :=
  send_dep_result (dj_consumer_sid job) (dj_cinstance job) (dj_cgeneration job) (dj_request_id job)
    code message (Some origin).

(** The provider of a dispatched child and the request it answers. *)
Record Provider : Type := mkProvider {
  pv_sid : string;
  pv_logical : string;
  pv_instance : N;
  pv_generation : N;
}.

Definition notify_cancel (p : Provider) (child : TicketId) (reason : string) : hprog unit :=
  let! rid := fresh_id "req" in
  do! send_to (pv_sid p) (pv_logical p) (pv_instance p) (pv_generation p) "call.cancel" (Some rid)
        (cancel_body child reason);
  Ret tt.

(** A terminal of the provider. *)
Definition local_terminal (job : DepJob) (child : TicketId) (p : Provider) (env : Envelope) : hprog unit :=
  if bool_decide (env_ty env = "call.result") then
    if bool_decide (default "" (get_str "status" (env_body env)) = "ok") then
      let output := default JNull (get "output" (env_body env)) in
      accept_terminal job child (json_len to_string output) (answer_ok job output) (kclose child)
    else
      let err := default (obj []) (get "error" (env_body env)) in
      accept_terminal job child (json_len to_string err)
        (answer_error job (error_field "code" "internal" err) (error_field "message" "remote error" err)
           (pv_logical p)) (kclose child)
  else
    let '(code, msg) :=
      if bool_decide (env_ty env = "call.error") then
        let err := default (env_body env) (get "error" (env_body env)) in
        (error_field "code" "outcome-unknown" err, error_field "message" "session lost" err)
      else ("outcome-unknown", "provider gone") in
    give_up_with job child code msg "provider-failed".

Definition ticket_state (child : TicketId) (k : Kernel) : option TicketState :=
  tk_state <$> get_ticket child (k_calls k).

(** One turn of the wait for the provider. *)
Definition local_round (job : DepJob) (child : TicketId) (p : Provider) (preq : string) (deadline : Instant)
    : hprog (option unit) :=
  let stop reason code msg :=
    do! notify_cancel p child reason;
    do! remove_pending preq;
    do! fail job code msg;
    do! kclose child;
    Ret (Some tt) in
  let! alive := read (λ h, is_some (session (dj_consumer_sid job) h)) in
  if negb alive then
    do! kcancel child "session-lost";
    do! notify_cancel p child "session-lost";
    do! remove_pending preq;
    do! kclose child;
    Ret (Some tt)
  else
    let! st := kread (ticket_state child) in
    match st with
    | Some TkCancelled => stop "cancelled" "cancelled" "child revoked"
    | Some TkExpired => stop "expired" "deadline-exceeded" "child expired"
    | _ =>
        let! now := read clock in
        if (deadline <=? now)%N then
          do! klift (dependency_timeout child);
          stop "deadline-exceeded" "deadline-exceeded" "child deadline exceeded"
        else
          let! r := recv_timeout preq CALL_POLL_MS in
          match r with
          | Got env =>
              do! remove_pending preq;
              do! local_terminal job child p env;
              Ret (Some tt)
          | TimedOut => Ret None
          | Disconnected =>
              do! remove_pending preq;
              do! give_up_with job child "outcome-unknown" "provider gone" "provider-gone";
              Ret (Some tt)
          end
    end.

(** [pending.insert] under the cap, in one critical section. *)
Definition try_pending (rid : string) (p : Pending) (h : Host) : bool * Host :=
  if MAX_PENDING_PER_HOST <=? size (ho_pending h) then (false, h) else (true, add_pending rid p h).

(** The deadline fixed at admission. *)
Definition child_deadline_of (job : DepJob) (child : TicketId) : hprog Instant :=
  let! until := @kread (option Instant) (λ k, r ← get_ticket child (k_calls k); tk_drain_until r) in
  let! now := read clock in
  Ret (default (now + N.max (dj_timeout_ms job) 1)%N until).

Definition local_exchange (job : DepJob) (child : TicketId) (cap : string) (p : Provider)
    : hprog (option unit) :=
  let! deadline := child_deadline_of job child in
  let! preq := fresh_id "req" in
  let! room := act (try_pending preq (mkPending (pv_sid p) (PkCall (tkt child)))) in
  if negb room then
    do! give_up_with job child "resource-exhausted" "host reply queue full" "host-busy";
    Ret (Some tt)
  else
    let! now := read clock in
    let! sent := send_to (pv_sid p) (pv_logical p) (pv_instance p) (pv_generation p) "call.open" (Some preq)
                   (call_open_body child cap (dj_input job) (N.max (saturating_sub deadline now) 1)) in
    match sent with
    | Err _ =>
        do! remove_pending preq;
        do! give_up_with job child "outcome-unknown" "provider send failed" "send-failed";
        Ret (Some tt)
    | Ok _ => poll (rounds (saturating_sub deadline now) CALL_POLL_MS) (local_round job child p preq deadline)
    end.

Definition run_local (job : DepJob) (child : TicketId) : hprog (option JobEnd) :=
  let! rec := kread (λ k, get_ticket child (k_calls k)) in
  match rec with
  | None =>
      do! fail job "internal" "child vanished";
      do! kclose child;
      Ret (Some JobDone)
  | Some r =>
      let lost :=
        do! give_up_with job child "outcome-unknown" "provider session lost" "session-lost";
        Ret (Some JobDone) in
      let! psid := read (λ h, ho_by_instance h !! (tk_logical r, tk_instance r)) in
      match psid with
      | None => lost
      | Some psid =>
          let! same := read (λ h, is_some_and (λ s, (hs_generation s =? tk_generation r)%N) (session psid h)) in
          if negb same then lost
          else
            let! entered := act (enter_step psid) in
            match entered with
            | None => relock_sessions
            | Some false =>
                do! give_up_with job child "resource-exhausted" "provider busy" "provider-busy";
                Ret (Some JobDone)
            | Some true =>
                let! x := local_exchange job child (tk_cap r)
                            (mkProvider psid (tk_logical r) (tk_instance r) (tk_generation r)) in
                do! leave psid;
                Ret ((λ _, JobDone) <$> x)
            end
      end
  end.

(** *** Remote legs *)

Inductive LegReceived : Type := LegGot (t : RemoteCallTerminal) | LegTimedOut | LegDisconnected.

Definition leg_arrived (child : TicketId) (h : Host) : bool :=
  match ho_legs h !! child with Some ([], _) => false | _ => true end.

Definition take_leg (child : TicketId) (h : Host) : LegReceived * Host :=
  match ho_legs h !! child with
  | Some (t :: rest, c) => (LegGot t, set_ho_legs (delete child (ho_legs h)) h)
  | _ => (LegDisconnected, h)
  end.

Definition leg_recv (child : TicketId) (dur : N) : hprog LegReceived :=
  let! now := read clock in
  Wait (leg_arrived child) (now + dur) (λ b, if b then act (take_leg child) else Ret LegTimedOut).

(** The thread that runs [call_open] returns. *)
Definition leg_answers (child : TicketId) (t : RemoteCallTerminal) : hprog unit :=
  modify (λ h, set_ho_legs (alter (λ lc, (lc.1 ++ [t], lc.2)) child (ho_legs h)) h).

Definition done (child : TicketId) : hprog unit :=
  do! modify (λ h, set_ho_remote_ops (delete child (ho_remote_ops h)) h);
  kclose child.

Definition abandon_leg (child : TicketId) (peer op : string) : hprog unit :=
  do! modify (λ h, set_ho_legs (alter (λ lc, (lc.1, true)) child (ho_legs h)) h);
  do! effect (FxCallCancel peer op);
  do! leg_recv child 500;
  Ret tt.

Definition remote_terminal (job : DepJob) (child : TicketId) (peer : string) (t : RemoteCallTerminal)
    : hprog unit :=
  match t with
  | RtOk output =>
      accept_terminal job child (json_len to_string output) (answer_ok job output) (done child)
  | RtErr code message =>
      accept_terminal job child (str_len code + str_len message) (answer_error job code message peer)
        (done child)
  | RtFailed code message =>
      do! fail job code message;
      do! kcancel child "provider-failed";
      done child
  end.

Definition remote_round (job : DepJob) (child : TicketId) (peer op : string) (deadline : Instant)
    : hprog (option unit) :=
  let stop code msg :=
    do! abandon_leg child peer op;
    do! fail job code msg;
    do! end_remote_streams_of peer op;
    do! done child;
    Ret (Some tt) in
  let! alive := read (λ h, is_some (session (dj_consumer_sid job) h)) in
  if negb alive then
    do! abandon_leg child peer op;
    do! kcancel child "session-lost";
    do! end_remote_streams_of peer op;
    do! done child;
    Ret (Some tt)
  else
    let! st := kread (ticket_state child) in
    match st with
    | Some TkCancelled => stop "cancelled" "child revoked"
    | Some TkExpired => stop "deadline-exceeded" "child expired"
    | _ =>
        let! now := read clock in
        if (deadline <=? now)%N then
          do! klift (dependency_timeout child);
          stop "deadline-exceeded" "child deadline exceeded"
        else
          let! r := leg_recv child CALL_POLL_MS in
          match r with
          | LegGot t => do! remote_terminal job child peer t; Ret (Some tt)
          | LegTimedOut => Ret None
          | LegDisconnected =>
              do! fail job "outcome-unknown" "route worker lost";
              do! kcancel child "provider-gone";
              do! done child;
              Ret (Some tt)
          end
    end.

Definition remote_open (job : DepJob) (peer domain op cap : string) (grant_rev remaining : N)
    : RemoteCallOpen :=
  mkRemoteCallOpen peer (dj_consumer_logical job) (dj_cinstance job) (dj_cgeneration job) (dj_parent job)
    domain (dj_binding job) cap (dj_input job) remaining remaining "" grant_rev op.

(** The inner thread starts: its channel, and the call it makes. *)
Definition start_leg (child : TicketId) (open : RemoteCallOpen) (h : Host) : Host :=
  if hw_thread w then
    set_ho_out (ho_out h ++ [FxCallOpen child open])
      (set_ho_legs (<[child := ([], false)]> (ho_legs h)) h)
  else h.

Definition run_dep_open_remote (job : DepJob) (child : TicketId) (peer : string) : hprog (option unit) :=
  let! op := read (λ h, remote_operation_id to_string sha256 (hp_domain (ho_policy h))
                          (ct_epoch (k_contexts (ho_kernel h))) job) in
  do! modify (λ h, set_ho_remote_ops (<[child := (peer, op)]> (ho_remote_ops h)) h);
  do! drain_parked_for_session to_string w (dj_consumer_sid job);
  let! installed := read ho_transport in
  if negb installed then
    do! fail job "outcome-unknown" "no route to executor";
    do! kcancel child "no-route";
    do! done child;
    Ret (Some tt)
  else
    let! grant_rev := @kread N (λ k, default 0%N (r ← get_ticket child (k_calls k); dc_grant_rev <$> tk_dep r)) in
    let! deadline := child_deadline_of job child in
    let! now := read clock in
    let remaining := N.max (saturating_sub deadline now) 1 in
    let! cap := kread (λ k, default "" (tk_cap <$> get_ticket child (k_calls k))) in
    do! modify (λ h, start_leg child (remote_open job peer (hp_domain (ho_policy h)) op cap grant_rev remaining) h);
    poll (rounds (saturating_sub deadline now) CALL_POLL_MS) (remote_round job child peer op deadline).

(** *** One job *)

Definition dispatch_child (job : DepJob) (child : TicketId) : hprog (option JobEnd) :=
  do! send_dep_accepted (dj_consumer_sid job) (dj_cinstance job) (dj_cgeneration job) (dj_request_id job) child;
  let! peer := @kread (option string) (λ k, r ← get_ticket child (k_calls k); d ← tk_dep r; dc_remote_peer d) in
  match peer with
  | Some peer => let! x := run_dep_open_remote job child peer in Ret ((λ _, JobDone) <$> x)
  | None => run_local job child
  end.

Definition dep_admit_of (job : DepJob) : DepAdmit :=
  mkDepAdmit (dj_parent job) (dj_binding job) (dj_consumer_logical job) (dj_cinstance job)
    (dj_cgeneration job) (dj_consumer_sid job) (dj_timeout_ms job).

Definition run_dep_open (job : DepJob) : hprog (option JobEnd) :=
  let sid := dj_consumer_sid job in
  let key := dj_request_id job in
  let! admitted := klift (dependency_admit (dep_admit_of job)) in
  match admitted with
  | Err d =>
      do! unpend_dep sid key;
      do! fail job (dd_code d) (dd_reason d);
      Ret (Some JobDone)
  | Ok child =>
      let! mapped := act (map_child sid key child) in
      match mapped with
      | None =>
          do! kcancel child "session-lost";
          do! kclose child;
          Ret (Some JobDone)
      | Some true =>
          do! kcancel child "cancelled-before-dispatch";
          do! fail job "cancelled" "cancelled before dispatch";
          do! kclose child;
          Ret (Some JobDone)
      | Some false =>
          let bytes := json_len to_string (dj_input job) in
          let! ok := charge_send sid bytes in
          if negb ok then
            do! give_up_with job child "resource-exhausted" "session send quota exceeded" "quota-exceeded";
            Ret (Some JobDone)
          else
            let! x := dispatch_child job child in
            match x with
            | Some JobDeadlock => Ret x
            | _ => do! release_send sid bytes; Ret x
            end
      end
  end.

(** A started worker thread. *)
Definition take_job (h : Host) : option DepJob * Host :=
  match ho_jobs h with
  | [] => (None, h)
  | job :: rest => (Some job, set_ho_jobs rest h)
  end.

Definition worker : hprog (option JobEnd) :=
  let! job := act take_job in
  match job with None => Ret (Some JobDone) | Some job => run_dep_open job end.

End deps.
