(* ===== verification/HostConn.v ===== *)
(** * Connections of components ([matrix-host/src/lib.rs])

    A connection is negotiated ([hello], [component.register]), bound to an activation and then
    read frame by frame. [ConnIo] is what one connection brings: the two frames of the handshake
    and whether the socket can be cloned; [ReadEvent] is one answer of [read]. *)

From S2P Require Import Prelude RustStd Json Wire Frame Envelope Dependency Handshake Guard Remote.
From S2P Require Import Identity Contexts Resources Deps Calls Journal Manifest Prog Timed.
From S2P Require Import KernelState KernelCalls KernelLifecycle KernelDispatch KernelActions.
From S2P Require Import HostState HostCalls HostStreams HostDeps.
From Stdlib Require Import Ascii.

(** ** The reader's buffer *)

(** The complete frames of a buffer, what is left of it, and whether a declared length was
    refused. Every frame takes its four-byte header, so [length buf] rounds are enough. *)
Fixpoint split_frames (fuel : nat) (max_frame : N) (buf : bytes) : list bytes * bytes * bool :=
  match fuel with
  | O => ([], buf, false)
  | S fuel =>
      match split_frame buf max_frame with
      | Ok (Some (payload, rest)) =>
          let '(fs, held, bad) := split_frames fuel max_frame rest in (payload :: fs, held, bad)
      | Ok None => ([], buf, false)
      | Err _ => ([], [], true)
      end
  end.

Inductive ReadStep : Type :=
| ReadMore (frames : list bytes) (buf : bytes)
| ReadBad (frames : list bytes)
| ReadAbuse.

(** [Ok(n)] of [read]: the frames to handle and the next buffer. *)
Definition read_chunk (max_frame : N) (buf chunk : bytes) : ReadStep :=
  let buf := buf ++ chunk in
  if (max_frame + 4 <? blen buf)%N then ReadAbuse
  else
    let '(fs, held, bad) := split_frames (S (length buf)) max_frame buf in
    if bad then ReadBad fs else ReadMore fs held.

Inductive ReadEvent : Type := ReadData (chunk : bytes) | ReadEof | ReadWouldBlock | ReadError.

Record ConnIo : Type := mkConnIo {
  ci_hello : option bytes;
  ci_register : option bytes;
  ci_writer : bool;
  ci_reader : bool;
}.

Section conn.
Context {E : Env} (to_string : Value → string) (from_str : bytes → result Value string)
  (sha256 : bytes → bytes) (w : HWorld).
Notation reply := (reply to_string w).

(** ** Resources *)

Definition resource_result (op : Value) (status : string) (extra : list (string * Value)) : Value :=
  obj ([("operation_id", op); ("status", JString status)] ++ extra).

Definition resource_error (code message : string) : list (string * Value) :=
  [("code", JString code); ("message", JString message)].

Definition owns_handle (logical : string) (instance generation : N) (n : ResourceHandle) (k : Kernel) : bool :=
  is_some_and (λ r, (rr_owner_instance r =? instance)%N && bool_decide (rr_owner_logical r = logical)
                    && (rr_generation r =? generation)%N) (res_record n (k_resources k)).

Definition on_acquire (sid : string) (s : HSession) (body : Value)
    (answer : string → list (string * Value) → hprog unit) : hprog unit :=
  match parse_resource_kind env_debug body with
  | Err e => answer "error" (resource_error "invalid-message" e)
  | Ok kind =>
      let! r := klift (acquire_external (hs_logical s) kind (hs_instance s) (hs_generation s)) in
      match r with
      | Err e =>
          answer "error" (resource_error
            (if bool_decide (e = "resource-exhausted") then "resource-exhausted" else "invalid-message") e)
      | Ok n =>
          do! upd_session sid (λ s, set_hs_ext_handles (hs_ext_handles s ++ [n]) s);
          answer "ok" [("handle", JString (display n))]
      end
  end.

Definition on_release (sid : string) (s : HSession) (body : Value)
    (answer : string → list (string * Value) → hprog unit) : hprog unit :=
  match (x ← get_str "handle" body; parse_u64 (chars x)) with
  | None => answer "error" (resource_error "invalid-message" "bad handle")
  | Some n =>
      let! owned := kread (owns_handle (hs_logical s) (hs_instance s) (hs_generation s) n) in
      if negb owned then answer "error" (resource_error "permission-denied" "foreign or stale handle")
      else
        let! r := klift (release n) in
        match r with
        | Err e => answer "error" (resource_error "invalid-message" e)
        | Ok _ =>
            do! upd_session sid (λ s,
              set_hs_ext_handles (List.filter (λ x, negb (x =? n)%N) (hs_ext_handles s)) s);
            answer "ok" []
        end
  end.

Definition on_resource_frame (sid : string) (env : Envelope) : hprog unit :=
  let! s := read (session sid) in
  match s with
  | None => Ret tt
  | Some s =>
      let op := j_opt (get "operation_id" (env_body env)) in
      let answer status extra :=
        reply "resource.result" sid (hs_instance s) (hs_generation s) (request_of env)
          (resource_result op status extra) in
      if bool_decide (env_ty env = "resource.acquire") then on_acquire sid s (env_body env) answer
      else if bool_decide (env_ty env = "resource.release") then on_release sid s (env_body env) answer
      else Ret tt
  end.

(** ** Frames of the component *)

(** The identities a frame claims are those of its session. *)
Definition bound_ok (env : Envelope) (s : HSession) : bool :=
  bool_decide (env_session_id env = Some (hs_id s))
  && match env_instance_id env with Some v => bool_decide (v = display (hs_instance s)) | None => true end
  && match env_generation env with Some g => (g =? hs_generation s)%N | None => true end.

Definition dedup_step (env : Envelope) (s : HSession) : option (IdVerdict * HSession) * HSession :=
  let '(v, d) := check (env_message_id env) (to_string (env_body env)) (hs_dedup s) in
  (Some (v, s), set_hs_dedup d s).

(** [pending.remove(rid)], then [tx.send(env)]. *)
Definition answer_pending (rid : string) (env : Envelope) (h : Host) : unit * Host :=
  match ho_pending h !! rid with
  | None => (tt, h)
  | Some _ => (tt, deliver rid env (set_ho_pending (delete rid (ho_pending h)) h))
  end.

Definition heartbeat (sid : string) : hprog unit :=
  let! msg := fresh_id "msg" in
  post to_string w sid (mkHFrame "session.heartbeat" msg None None None (obj [])).

Definition on_new_frame (sid : string) (env : Envelope) : hprog unit :=
  let ty := env_ty env in
  if starts_with "dependency." ty then on_dependency_frame to_string w sid env
  else if bool_decide (ty ∈ ["call.result"; "call.error"; "lifecycle.result"]) then
    match env_request_id env with
    | Some rid => act (answer_pending rid env)
    | None => Ret tt
    end
  else if bool_decide (ty = "session.heartbeat") then heartbeat sid
  else if bool_decide (ty = "session.close") then drop_session sid
  else if bool_decide (ty ∈ ["stream.data"; "stream.credit"; "stream.end"]) then
    on_stream_frame to_string w sid env
  else if bool_decide (ty ∈ ["resource.acquire"; "resource.release"]) then on_resource_frame sid env
  else Ret tt.

Definition on_plugin_frame (sid : string) (payload : bytes) : hprog unit :=
  match parse_frame_payload from_str payload with
  | Err _ => Ret tt
  | Ok env =>
      let! ok := read (λ h, is_some_and (bound_ok env) (session sid h)) in
      if negb ok then Ret tt
      else
        let! d := act (on_session sid None (dedup_step env)) in
        match d with
        | None => Ret tt
        | Some (New, _) => on_new_frame sid env
        | Some (DuplicateSame, s) =>
            if bool_decide (env_ty env = "dependency.open") && has_feature DEPENDENCY_CALLS_1 s then
              match env_request_id env with
              | Some rid => send_dep_result to_string w sid (hs_instance s) (hs_generation s) rid
                              DUPLICATE_REQUEST "duplicate open" None
              | None => Ret tt
              end
            else Ret tt
        | Some (DuplicateDivergent, _) => Ret tt
        end
  end.

(** The read loop, for the reads the socket answers with. *)
Fixpoint read_loop (sid : string) (max_frame : N) (reads : list ReadEvent) (buf : bytes) : hprog unit :=
  match reads with
  | [] => Ret tt
  | ev :: reads =>
      let! down := read ho_shutdown in
      if down then drop_session sid
      else
        match ev with
        | ReadEof | ReadError => drop_session sid
        | ReadWouldBlock => read_loop sid max_frame reads buf
        | ReadData chunk =>
            match read_chunk max_frame buf chunk with
            | ReadAbuse => drop_session sid
            | ReadBad fs => do! Prog.for_each fs (on_plugin_frame sid); drop_session sid
            | ReadMore fs buf => do! Prog.for_each fs (on_plugin_frame sid); read_loop sid max_frame reads buf
            end
        end
  end.

(** ** Binding a connection *)

Definition reject (code reason : string) : hprog unit := effect (FxReject code reason).

Definition send_quota_of (logical : string) (k : Kernel) : N :=
  N.max 1 (match d ← k_definitions k !! logical; sm_outbound d with
           | Some p => N.min (max_queued_bytes (ob_limits p)) i64_max
           | None => DEFAULT_SEND_QUOTA
           end).

Definition subscriptions_of (logical : string) (k : Kernel) : list string :=
  default [] (sm_subs <$> k_definitions k !! logical).

Definition new_session (sid logical : string) (instance generation quota : N) (features : list string)
    (topics : list string) : HSession :=
  mkHSession sid logical instance generation (id_window_new 256) 0 0 quota ∅ features ∅ [] topics ∅ []
    (mkDepSync ∅ ∅).

Definition register_session (sid logical : string) (instance generation quota : N) (features : list string)
    (h : Host) : Host :=
  set_ho_rstreams (<[sid := ∅]> (ho_rstreams h))
    (set_ho_sessions (<[sid := new_session sid logical instance generation quota features
                                 (subscriptions_of logical (ho_kernel h))]> (ho_sessions h)) h).

(** The activation a registration binds to: the one being started, or the live one. *)
Definition binding_for (logical : string) : hprog (option (N * N)) :=
  let! p := read (λ h, ho_pending_activation h !! logical) in
  match p with
  | Some b => Ret (Some b)
  | None =>
      let! c := klift (current_of logical) in
      Ret (match c with
           | Some c => if ctx_active c then Some (cr_instance c, cr_generation c) else None
           | None => None
           end)
  end.

Definition token_valid (logical : string) (instance : N) (supplied : string) (h : Host) : bool :=
  is_some_and (λ it, (it.1 =? instance)%N && token_eq it.2 supplied) (ho_launch_tokens h !! logical).

Definition frame_limit (welcome : Welcome) : N := N.min (wl_max_frame welcome) DEFAULT_MAX_FRAME.

(** A frame written on the connection itself, under the negotiated size. *)
Definition write_value (sid : string) (f : HFrame) (max_frame : N) : hprog bool :=
  if (max_frame <? json_len to_string (frame_json sid f))%N then Ret false
  else let! r := write w sid f in Ret (negb (is_some r)).

Definition welcome_frame (msg : string) (welcome : Welcome) : HFrame :=
  mkHFrame "welcome" msg None None None
    (obj [("version", JString (wl_version welcome)); ("max_frame", j_u64 (frame_limit welcome));
          ("limits", obj [("max_calls", j_u64 64); ("max_queue_bytes", j_u64 4194304);
                          ("max_streams", j_u64 16)]);
          ("features", j_strs (wl_features welcome))]).

(** The handshake up to the welcome. *)
Definition greet (io : ConnIo) : hprog (option (string * Envelope * Welcome)) :=
  match ci_hello io with
  | None => Ret None
  | Some raw =>
      match parse_frame_payload from_str raw with
      | Err e => do! reject (we_code e) "bad hello"; Ret None
      | Ok env =>
          if bool_decide (env_ty env ≠ "hello") then
            do! reject "invalid-message" "first frame must be hello"; Ret None
          else
            match hello_offer env with
            | Err e => do! reject (we_code e) "bad hello body"; Ret None
            | Ok (versions, want_frame, offered) =>
                let! sid := fresh_id "sess" in
                let! enabled := read (λ h, hp_enable_dependency_calls (ho_policy h)) in
                match negotiate versions (if enabled then offered else []) want_frame sid with
                | Err e => do! reject (we_code e) "version"; Ret None
                | Ok welcome =>
                    let! written := write_value sid (welcome_frame (env_message_id env) welcome)
                                      (frame_limit welcome) in
                    Ret (if written then Some (sid, env, welcome) else None)
                end
            end
      end
  end.

Definition activate_body (op logical : string) (bindings : option (list DepBinding)) : Value :=
  obj ([("operation_id", JString op); ("manifest", obj [("id", JString logical)]); ("bindings", JArray [])]
       ++ match bindings with
          | Some l => [("dependency_bindings",
                        JArray ((λ b, obj [("binding_id", JString (db_id b));
                                           ("capability", JString (db_capability b))]) <$> l))]
          | None => []
          end).

(** The bound session: announced, its reader started, and activated. *)
Definition activate_session (io : ConnIo) (sid logical : string) (instance generation : N)
    (welcome : Welcome) (reg_id : string) : hprog unit :=
  let! written := write_value sid (stamped "registered" reg_id instance generation None
                                     (obj [("logical", JString logical)])) (frame_limit welcome) in
  if negb written then drop_session sid
  else if negb (ci_reader io) then drop_session sid
  else
    let! op := fresh_id "op" in
    let negotiated := bool_decide (DEPENDENCY_CALLS_1 ∈ wl_features welcome) in
    let! bindings :=
      if negotiated then let! l := klift (dependency_bindings_of logical) in Ret (Some l) else Ret None in
    let! r := transact to_string w sid logical instance generation "lifecycle.activate"
                (activate_body op logical bindings) ACTIVATE_MS in
    match r with
    | Ok (Some _) => Ret tt
    | _ => do! drop_session sid; do! kill_child w logical; Ret tt
    end.

(** The registration: every check before the session is bound. *)
Definition bind_session (io : ConnIo) (sid : string) (hello reg : Envelope) (welcome : Welcome) : hprog unit :=
  let logical := default "" (m ← get "manifest" (env_body reg); get_str "id" m) in
  if bool_decide (env_session_id reg ≠ Some sid) || str_is_empty logical then Ret tt
  else
    let! binding := binding_for logical in
    match binding with
    | None => reject "context-not-active" "no active instance"
    | Some (instance, generation) =>
        let supplied := default "" (get_str "launch_token" (env_body hello)) in
        let! denied := read (λ h, hp_secure (ho_policy h)
                                  && negb (token_valid logical instance supplied h)) in
        if denied then reject "permission-denied" "invalid launch authority"
        else
          let! taken := read (λ h, is_some (ho_by_instance h !! (logical, instance))) in
          if taken then reject "internal" "session already bound"
          else
            let! v := act (λ h,
              let '(v, d) := check ("register:" +:+ logical +:+ ":" +:+ display instance +:+ ":"
                                    +:+ env_message_id reg) (to_string (env_body reg)) (ho_register_ids h) in
              (v, set_ho_register_ids d h)) in
            if match v with DuplicateDivergent => true | _ => false end || negb (ci_writer io) then Ret tt
            else
              let! quota := kread (send_quota_of logical) in
              do! modify (register_session sid logical instance generation quota (wl_features welcome));
              do! modify (λ h, set_ho_by_instance (<[(logical, instance) := sid]> (ho_by_instance h)) h);
              do! modify (λ h, set_ho_pending_activation (delete logical (ho_pending_activation h)) h);
              activate_session io sid logical instance generation welcome (env_message_id reg)
    end.

Definition serve_conn (io : ConnIo) : hprog unit :=
  let! g := greet io in
  match g with
  | None => Ret tt
  | Some (sid, hello, welcome) =>
      match ci_register io with
      | None => Ret tt
      | Some raw =>
          match parse_frame_payload from_str raw with
          | Ok reg => if bool_decide (env_ty reg = "component.register") then bind_session io sid hello reg welcome
                      else Ret tt
          | Err _ => Ret tt
          end
      end
  end.

(** One accepted connection. *)
Definition accept_conn (io : ConnIo) : hprog unit :=
  let! n := act (λ h, (ho_connecting h, set_ho_connecting (ho_connecting h + 1) h)) in
  let leave_conn := modify (λ h, set_ho_connecting (ho_connecting h - 1) h) in
  if (32 <=? n)%N then leave_conn
  else do! serve_conn io; leave_conn.

(** ** The threads of the host *)

Inductive HostOp : Type :=
| HoForward (req : ForwardRequest)
| HoEvents (sock : string) (received : list (option LifecycleEvent))
| HoConn (io : ConnIo)
| HoRead (sid : string) (max_frame : N) (reads : list ReadEvent)
| HoWorker
| HoLegAnswers (child : TicketId) (t : RemoteCallTerminal)
| HoEmit (topic : string) (payload : Value)
| HoRemoteEvent (topic : string) (payload : Value)
| HoRemoteChunk (stream_id : string) (seq : N) (payload : string)
| HoRemoteCredit (stream_id : string) (credit : N)
| HoRemoteEnd (stream_id : string)
| HoEndStreams (peer operation : string)
| HoInject (expected : InstanceRef) (stream_id : string) (seq : N) (payload : string)
| HoBind (sid stream_id peer operation : string) (credit : N)
| HoTransport (on : bool)
| HoEventTap (on : bool)
| HoStreamTap (on : bool)
| HoShutdown
| HoKernel (o : KernelOp).

Definition hignore {A} (p : hprog A) : hprog unit := do! p; Ret tt.

Definition hop_prog (o : HostOp) : hprog unit :=
  match o with
  | HoForward req => hignore (forward_call to_string w req)
  | HoEvents sock received => event_loop to_string w sock received
  | HoConn io => accept_conn io
  | HoRead sid max_frame reads => read_loop sid max_frame reads []
  | HoWorker => hignore (worker to_string sha256 w)
  | HoLegAnswers child t => leg_answers child t
  | HoEmit topic payload => on_event to_string w topic payload
  | HoRemoteEvent topic payload => hignore (deliver_remote_event to_string w topic payload)
  | HoRemoteChunk stream_id seq payload => hignore (deliver_remote_chunk_any to_string w stream_id seq payload)
  | HoRemoteCredit stream_id credit => credit_remote_stream_any stream_id credit
  | HoRemoteEnd stream_id => end_remote_stream_any stream_id
  | HoEndStreams peer operation => hignore (end_remote_streams_of peer operation)
  | HoInject expected stream_id seq payload =>
      hignore (inject_provider_chunk_owned to_string w expected stream_id seq payload)
  | HoBind sid stream_id peer operation credit => hignore (bind_remote_stream sid stream_id peer operation credit)
  | HoTransport on => set_remote_transport on
  | HoEventTap on => set_event_tap on
  | HoStreamTap on => set_stream_tap on
  | HoShutdown => shutdown w
  | HoKernel o => klift (kop_prog o)
  end.

End conn.

Definition host_threads {E : Env} (to_string : Value → string) (from_str : bytes → result Value string)
    (sha256 : bytes → bytes) (ops : list (HWorld * HostOp)) : list (hprog unit) :=
  (λ wo, hop_prog to_string from_str sha256 wo.1 wo.2) <$> ops.
