(* ===== verification/HostInv.v ===== *)
(** * The host's invariant and its budgets

    What every session of the host satisfies at every moment ([session_ok]) and every table of
    remote legs ([table_ok]), and the two counters of a session that its threads charge and give
    back. The programs of the host that charge nothing are calm: they keep the invariant and
    raise no counter. *)

From S2P Require Import Prelude RustStd Json Wire Frame Envelope Dependency Handshake Guard Remote.
From S2P Require Import Identity Contexts Resources Deps Calls Journal Manifest Prog Timed Debts.
From S2P Require Import KernelState KernelCalls KernelLifecycle KernelDispatch KernelActions.
From S2P Require Import HostState HostCalls HostStreams HostDeps HostConn.

(** ** The invariant *)

Record stream_ok (st : StreamState) : Prop := {
  sk_granted : ss_granted st = STREAM_INITIAL_GRANT;
  sk_window : ss_ended st = false → (ss_received st ≤ ss_granted st)%N;
}.

Record session_ok (s : HSession) : Prop := {
  so_used : (hs_send_used s ≤ hs_send_quota s)%N;
  so_flight : (hs_in_flight s ≤ MAX_CALLS_PER_SESSION)%N;
  so_parked : length (hs_parked s) ≤ MAX_PARKED_PER_SESSION;
  so_sync : size (dy_pending (hs_dep_sync s)) ≤ MAX_PENDING_PER_HOST;
  so_streams : map_Forall (λ _, stream_ok) (hs_streams s);
}.

Record table_ok (t : gmap string RemoteStream) : Prop := {
  to_size : size t ≤ MAX_REMOTE_STREAMS_PER_SESSION;
  to_window : map_Forall (λ _ st, rs_ended st = false → (rs_recv_received st ≤ rs_recv_granted st)%N) t;
}.

Record host_ok (h : Host) : Prop := {
  hk_sessions : map_Forall (λ sid s, hs_id s = sid ∧ session_ok s) (ho_sessions h);
  hk_tables : map_Forall (λ _, table_ok) (ho_rstreams h);
}.

(** [true]: outstanding bytes; [false]: calls in flight. A frozen host keeps no accounts: the thread
    that froze it holds its charges for ever. *)
Definition host_counter (h : Host) (k : bool * string) : N :=
  if ho_frozen h then 0
  else
    match session k.2 h with
    | Some s => if k.1 then hs_send_used s else hs_in_flight s
    | None => 0
    end.

Notation calm := (calmly host_counter host_ok).

(** ** Calm actions *)

Lemma calm_frame h h' :
  ho_sessions h' = ho_sessions h → ho_rstreams h' = ho_rstreams h → ho_frozen h' = ho_frozen h → calm h h'.
Proof.
  intros E1 E2 E3. split.
  - intros [S T]. split; [by rewrite E1|by rewrite E2].
  - intros k. unfold host_counter, session. by rewrite E1, E3.
Qed.

Lemma advance_calm n h :
  host_counter (advance n h) = host_counter h ∧ (host_ok h → host_ok (advance n h)).
Proof. split; [done|]. by intros [S T]. Qed.

(** An update of a session that keeps its identity and raises no counter. *)
Definition gentle (s s' : HSession) : Prop :=
  hs_id s' = hs_id s ∧ (session_ok s → session_ok s') ∧ (hs_send_used s' ≤ hs_send_used s)%N ∧
  (hs_in_flight s' ≤ hs_in_flight s)%N.

Lemma on_session_ok {X} sid (none : X) f h :
  (∀ s, hs_id (f s).2 = hs_id s ∧ (session_ok s → session_ok (f s).2)) →
  host_ok h → host_ok (on_session sid none f h).2.
Proof.
  intros G [S T]. unfold on_session. destruct (session sid h) as [s|] eqn:E; [|by split].
  specialize (G s). destruct (f s) as [x s']. destruct G as [Gi G]. cbn in *.
  destruct (S sid s E) as [Hi Hs]. split; [|done]. cbn. apply map_Forall_insert_2; [|done].
  split; [congruence|auto].
Qed.

Lemma calm_session {X} sid (none : X) f h : (∀ s, gentle s (f s).2) → calm h (on_session sid none f h).2.
Proof.
  intros G. split.
  - apply on_session_ok. intros s. destruct (G s) as (A & B & _). done.
  - intros [b sid']. unfold on_session. destruct (session sid h) as [s|] eqn:E; [|done].
    destruct (G s) as (_ & _ & U & F). destruct (f s) as [x s']. cbn in *.
    unfold host_counter, session in *. cbn. destruct (ho_frozen h); [done|].
    destruct (decide (sid = sid')) as [->|Ne].
    + rewrite lookup_insert_eq, E. by destruct b.
    + by rewrite lookup_insert_ne.
Qed.

Lemma calm_rtable {X} sid (f : _ → X * _) h :
  (∀ t, table_ok t → table_ok (f t).2) → calm h (on_rtable sid f h).2.
Proof.
  intros G. split.
  - intros [S T]. unfold on_rtable. specialize (G (rtable sid h)). destruct (f (rtable sid h)) as [x t'] eqn:Ef.
    cbn in *. split; [done|]. intros sid' t. cbn. destruct (decide (sid = sid')) as [<-|Ne].
    + rewrite lookup_alter_eq. destruct (ho_rstreams h !! sid) as [t0|] eqn:E0; cbn; [|done].
      intros [= <-]. apply G. unfold rtable. rewrite E0. by apply (T sid).
    + rewrite lookup_alter_ne by done. by apply T.
  - intros k. unfold on_rtable. by destruct (f (rtable sid h)).
Qed.

Lemma calm_take sid h : calm h (take_session sid h).2.
Proof.
  split.
  - intros [S T]. split; [|done]. cbn. by apply map_Forall_delete.
  - intros [b sid']. unfold host_counter, session. cbn. destruct (ho_frozen h); [done|].
    destruct (decide (sid = sid')) as [->|Ne].
    + rewrite lookup_delete_eq. lia.
    + by rewrite lookup_delete_ne.
Qed.

Lemma table_ok_empty : table_ok ∅.
Proof. split; [|by apply map_Forall_empty]. rewrite map_size_empty. unfold MAX_REMOTE_STREAMS_PER_SESSION. lia. Qed.

Lemma calm_register sid logical i g q fs h :
  calm h (register_session sid logical i g q fs h).
Proof.
  unfold register_session. split.
  - intros [S T]. split; cbn.
    + apply map_Forall_insert_2; [|done]. split; [done|]. split; cbn; [lia|done|lia|rewrite size_empty; lia|].
      by apply map_Forall_empty.
    + apply map_Forall_insert_2; [apply table_ok_empty|done].
  - intros [b sid']. unfold host_counter, session. cbn. destruct (ho_frozen h); [done|].
    destruct (decide (sid = sid')) as [->|Ne].
    + rewrite lookup_insert_eq. destruct b; apply N.le_0_l.
    + by rewrite lookup_insert_ne.
Qed.

Lemma always_calm_klift {A} (p : kprog A) : always calm (klift p).
Proof.
  induction p as [a|X f k IH|c u k IH]; cbn; [done| |].
  - split; [|done]. intros h. destruct (f (ho_kernel h)). by apply calm_frame.
  - split; [|done]. intros h. by apply calm_frame.
Qed.

Lemma always_calm_upd sid f : (∀ s, gentle s (f s)) → always calm (upd_session sid f).
Proof. intros G. apply always_one. intros h. by apply calm_session. Qed.

Create HintDb host.
#[export] Hint Resolve always_calm_klift : host.

(** Follows a program; every action leaves the sessions and the tables alone, or is known. *)
Ltac calm_step :=
  match goal with
  | |- always _ (bind _ _) => apply always_bind; [|intros ?]
  | |- always _ (Ret _) => exact I
  | |- always _ (read _) => apply always_read; apply _
  | |- always _ (kread _) => apply always_read; apply _
  | |- always _ (klift _) => apply always_calm_klift
  | |- always _ (Prog.for_each _ _) => apply always_for_each; intros ? _
  | |- always _ (for_fold _ _ _) => apply always_for_fold; intros ? ? _
  | |- always _ (Wait _ _ _) => split; [intros ?; by apply calm_frame|intros ?]
  | |- always _ (if ?b then _ else _) => destruct b
  | |- always _ (match ?x with _ => _ end) => destruct x
  | |- always _ _ => solve [auto with host nocore]
  | |- always _ (modify _) => apply always_modify; intros ?; by apply calm_frame
  | |- always _ (act _) => apply always_one; intros ?; by apply calm_frame
  end.
Ltac calm_prog := intros; repeat calm_step.

Section calm.
Context {E : Env} (to_string : Value → string) (from_str : bytes → result Value string)
  (sha256 : bytes → bytes) (w : HWorld).

Lemma calm_fresh_id p : always calm (fresh_id p).
Proof. unfold fresh_id. calm_prog. Qed.
#[local] Hint Resolve calm_fresh_id : host.
Lemma calm_effect e : always calm (effect e).
Proof. unfold effect. calm_prog. Qed.
#[local] Hint Resolve calm_effect : host.
Lemma calm_transport e : always calm (transport e).
Proof. apply always_modify. intros h. apply calm_frame; by destruct (ho_transport h). Qed.
#[local] Hint Resolve calm_transport : host.
Lemma calm_write sid f : always calm (write w sid f).
Proof. apply always_one. intros h. by destruct (hw_write w sid f); apply calm_frame. Qed.
#[local] Hint Resolve calm_write : host.
Lemma calm_remove_pending rid : always calm (remove_pending rid).
Proof. unfold remove_pending. calm_prog. Qed.
#[local] Hint Resolve calm_remove_pending : host.

Lemma calm_post sid f : always calm (post to_string w sid f).
Proof. unfold post. calm_prog. Qed.
#[local] Hint Resolve calm_post : host.
Lemma calm_send_to sid l i g ty r b : always calm (send_to to_string w sid l i g ty r b).
Proof. unfold send_to. calm_prog. Qed.
#[local] Hint Resolve calm_send_to : host.
Lemma calm_take_mail rid : always calm (act (take_mail rid)).
Proof.
  apply always_one. intros h. unfold take_mail. destruct (ho_mail h !! rid) as [[|e l]|]; by apply calm_frame.
Qed.
#[local] Hint Resolve calm_take_mail : host.

Lemma calm_reply ty sid i g r b : always calm (reply to_string w ty sid i g r b).
Proof. unfold reply. calm_prog. Qed.
#[local] Hint Resolve calm_reply : host.
Lemma calm_recv rid d : always calm (recv_timeout rid d).
Proof. unfold recv_timeout. calm_prog. Qed.
#[local] Hint Resolve calm_recv : host.
Lemma calm_round req sid rid D : always calm (forward_round to_string w req sid rid D).
Proof. unfold forward_round. calm_prog. Qed.
#[local] Hint Resolve calm_round : host.
Lemma calm_poll {A} n (round : hprog (option A)) : always calm round → always calm (poll n round).
Proof. intros R. induction n as [|n IH]; cbn; [done|]. apply always_bind; [done|]. by intros [a|]. Qed.
#[local] Hint Resolve calm_poll : host.

Lemma calm_exchange req sid : always calm (forward_exchange to_string w req sid).
Proof. unfold forward_exchange. calm_prog. Qed.
#[local] Hint Resolve calm_exchange : host.
Lemma calm_transact sid l i g ty b t : always calm (transact to_string w sid l i g ty b t).
Proof. unfold transact. calm_prog. Qed.
#[local] Hint Resolve calm_transact : host.

Lemma orphan_same s h rid : ho_sessions (orphan s h rid) = ho_sessions h ∧ ho_rstreams (orphan s h rid) = ho_rstreams h.
Proof. done. Qed.

Lemma calm_orphans sid s : always calm (act (orphan_all sid s)).
Proof.
  apply always_one. intros h. unfold orphan_all. cbn. generalize (owned_by sid h). intros l.
  revert h. induction l as [|rid l IH]; intros h; cbn; [reflexivity|].
  specialize (IH (orphan s h rid)). destruct IH as [A B]. split.
  - intros Hk. apply A. by apply (calm_frame h (orphan s h rid)).
  - intros k. by rewrite B.
Qed.
#[local] Hint Resolve calm_orphans : host.
Lemma calm_take_session sid : always calm (act (take_session sid)).
Proof. apply always_one. apply calm_take. Qed.
#[local] Hint Resolve calm_take_session : host.

Lemma calm_drop_session sid : always calm (drop_session sid).
Proof. unfold drop_session. calm_prog. Qed.
#[local] Hint Resolve calm_drop_session : host.
Lemma calm_cancel_calls sid r : always calm (cancel_session_calls to_string w sid r).
Proof. unfold cancel_session_calls. calm_prog. Qed.
#[local] Hint Resolve calm_cancel_calls : host.
Lemma calm_kill l : always calm (kill_child w l).
Proof.
  apply always_one. intros h. unfold kill_child_step. case_bool_decide; [|by apply calm_frame].
  by destruct (negb _); apply calm_frame.
Qed.
#[local] Hint Resolve calm_kill : host.
Lemma calm_publish l i g ep argv t : always calm (act (spawn_publish w l i g ep argv t)).
Proof. apply always_one. intros h. unfold spawn_publish. by destruct (hw_spawn w l); apply calm_frame. Qed.
#[local] Hint Resolve calm_publish : host.

Lemma calm_spawn sock l i g ep args : always calm (spawn_child w sock l i g ep args).
Proof. unfold spawn_child. calm_prog. Qed.
#[local] Hint Resolve calm_spawn : host.
Lemma calm_reap : always calm (reap_finished w).
Proof. unfold reap_finished. calm_prog. Qed.
#[local] Hint Resolve calm_reap : host.
Lemma calm_quiesce l i g : always calm (quiesce_session to_string w l i g).
Proof. unfold quiesce_session. calm_prog. Qed.
#[local] Hint Resolve calm_quiesce : host.
Lemma calm_handle_event sock ev : always calm (handle_event to_string w sock ev).
Proof. unfold handle_event. calm_prog. Qed.
#[local] Hint Resolve calm_handle_event : host.
Lemma calm_event_loop sock l : always calm (event_loop to_string w sock l).
Proof. induction l as [|r l IH]; cbn [event_loop]; calm_prog; done. Qed.
#[local] Hint Resolve calm_event_loop : host.
Lemma calm_shutdown : always calm (shutdown w).
Proof. unfold shutdown. calm_prog. Qed.
#[local] Hint Resolve calm_shutdown : host.


(** *** Sessions *)

Lemma unexpired_length now l : length (unexpired now l) ≤ length l.
Proof. apply List.filter_length_le. Qed.

Lemma park_length now c l : length l ≤ MAX_PARKED_PER_SESSION → length (park now c l) ≤ MAX_PARKED_PER_SESSION.
Proof.
  intros L. unfold park. pose proof (unexpired_length now l) as U. rewrite length_app. cbn [length].
  destruct (Nat.leb_spec MAX_PARKED_PER_SESSION (length (unexpired now l))) as [G|G]; [|lia].
  destruct (unexpired now l); cbn in *; unfold MAX_PARKED_PER_SESSION in *; lia.
Qed.

Lemma stream_account_ok seq len st : stream_ok st → stream_ok (stream_account seq len st).2.
Proof.
  intros O. pose proof O as [G W]. unfold stream_account. destruct (ss_ended st) eqn:En; [done|].
  destruct (negb _); [done|]. split; cbn; [done|]. apply N.ltb_ge.
Qed.

Lemma gentle_streams s m : (session_ok s → map_Forall (λ _, stream_ok) m) → gentle s (set_hs_streams m s).
Proof. intros M. split_and!; [done| |cbn; lia..]. intros G. pose proof (M G). by destruct G. Qed.

Lemma gentle_entry id seq len s : gentle s (stream_entry id seq len s).2.
Proof.
  unfold stream_entry. destruct (stream_account _ _ _) as [r st] eqn:Ea. cbn. apply gentle_streams. intros G.
  apply map_Forall_insert_2; [|apply G]. replace st with (stream_account seq len
    (default new_stream_state (hs_streams s !! id))).2 by by rewrite Ea.
  apply stream_account_ok. destruct (hs_streams s !! id) as [st0|] eqn:E0; cbn; [by eapply (so_streams s G)|].
  split; [done|]. intros _. apply N.le_0_l.
Qed.

Lemma gentle_parked s l : (length (hs_parked s) ≤ MAX_PARKED_PER_SESSION → length l ≤ MAX_PARKED_PER_SESSION) →
  gentle s (set_hs_parked l s).
Proof. intros L. split_and!; [done| |cbn; lia..]. intros []. split; cbn; auto. Qed.

Lemma gentle_sync s p wt : (size (dy_pending (hs_dep_sync s)) ≤ MAX_PENDING_PER_HOST → size p ≤ MAX_PENDING_PER_HOST) →
  gentle s (set_hs_dep_sync (mkDepSync p wt) s).
Proof. intros L. split_and!; [done| |cbn; lia..]. intros []. split; cbn; auto. Qed.

Lemma gentle_same s s' :
  hs_id s' = hs_id s → hs_send_used s' = hs_send_used s → hs_in_flight s' = hs_in_flight s →
  hs_send_quota s' = hs_send_quota s → hs_parked s' = hs_parked s → hs_dep_sync s' = hs_dep_sync s →
  hs_streams s' = hs_streams s → gentle s s'.
Proof.
  intros E1 E2 E3 E4 E5 E6 E7. split_and!; [done| |lia|lia]. intros []. split; rewrite ?E2, ?E3, ?E4, ?E5, ?E6, ?E7; done.
Qed.

Lemma gentle_trans s1 s2 s3 : gentle s1 s2 → gentle s2 s3 → gentle s1 s3.
Proof. intros (A1 & A2 & A3 & A4) (B1 & B2 & B3 & B4). split_and!; [congruence|auto|lia|lia]. Qed.

Lemma size_difference (X Y : gset string) : size (X ∖ Y) ≤ size X.
Proof. apply subseteq_size. set_solver. Qed.

Lemma gentle_refl s : gentle s s.
Proof. split_and!; [done|done|lia|lia]. Qed.

Lemma calm_park sid env id : always calm (park_chunk sid env id).
Proof.
  unfold park_chunk. destruct (stream_seq env); [|done]. apply always_one. intros h.
  apply (calm_session sid). intros s. cbn. apply gentle_parked, park_length.
Qed.
#[local] Hint Resolve calm_park : host.
Lemma calm_take_parked sid id : always calm (take_parked sid id).
Proof.
  apply always_one. intros h. apply (calm_session sid). intros s. unfold unpark. cbn. apply gentle_parked. intros L.
  etrans; [apply List.filter_length_le|]. etrans; [apply unexpired_length|done].
Qed.
#[local] Hint Resolve calm_take_parked : host.
Lemma calm_clear_parked sid id : always calm (clear_parked sid id).
Proof.
  apply always_calm_upd. intros s. apply gentle_parked. intros L. etrans; [apply List.filter_length_le|done].
Qed.
#[local] Hint Resolve calm_clear_parked : host.
Lemma calm_entry sid id seq len : always calm (act (on_session sid None (stream_entry id seq len))).
Proof. apply always_one. intros h. apply calm_session. intros s. apply gentle_entry. Qed.
#[local] Hint Resolve calm_entry : host.
Lemma calm_forget sid id : always calm (upd_session sid (λ s, set_hs_streams (delete id (hs_streams s)) s)).
Proof. apply always_calm_upd. intros s. apply gentle_streams. intros G. apply map_Forall_delete, G. Qed.
#[local] Hint Resolve calm_forget : host.
Lemma calm_unpend sid key : always calm (unpend_dep sid key).
Proof.
  apply always_calm_upd. intros s. apply gentle_sync. intros L. etrans; [apply size_difference|done].
Qed.
#[local] Hint Resolve calm_unpend : host.
Lemma calm_gate sid env : always calm (act (dep_gate sid env)).
Proof.
  apply always_one. intros h. apply calm_session. intros s. unfold dep_gate, gate_open.
  repeat first [apply gentle_refl | case_match; cbn [snd]]. unfold reserve_request.
  eapply gentle_trans; [|apply gentle_sync].
  - by apply gentle_same.
  - cbn. intros _. rewrite size_union_alt, size_singleton.
    pose proof (size_difference (dy_pending (hs_dep_sync s)) {[request_of env]}).
    match goal with H : (MAX_PENDING_PER_HOST <=? size (dy_pending _)) = false |- _ => apply Nat.leb_gt in H; lia end.
Qed.
#[local] Hint Resolve calm_gate : host.
Lemma calm_lookup sid target : always calm (act (cancel_lookup sid target)).
Proof.
  apply always_one. intros h. apply calm_session. intros s.
  destruct (hs_dep_requests s !! target); [apply gentle_refl|]. cbn.
  case_bool_decide; [by apply gentle_sync|apply gentle_refl].
Qed.
#[local] Hint Resolve calm_lookup : host.
Lemma calm_map_child sid key child : always calm (act (map_child sid key child)).
Proof.
  apply always_one. intros h. apply calm_session. intros s. cbn.
  eapply gentle_trans; [|apply gentle_sync]; [by apply gentle_same|]. cbn. intros L.
  etrans; [apply size_difference|done].
Qed.
#[local] Hint Resolve calm_map_child : host.
Lemma calm_dedup sid env : always calm (act (on_session sid None (dedup_step to_string env))).
Proof.
  apply always_one. intros h. apply calm_session. intros s. unfold dedup_step.
  destruct (check _ _ _). by apply gentle_same.
Qed.
#[local] Hint Resolve calm_dedup : host.
Lemma calm_push_handle sid n : always calm (upd_session sid (λ s, set_hs_ext_handles (hs_ext_handles s ++ [n]) s)).
Proof. apply always_calm_upd. intros s. by apply gentle_same. Qed.
#[local] Hint Resolve calm_push_handle : host.
Lemma calm_drop_handle sid n : always calm (upd_session sid (λ s,
  set_hs_ext_handles (List.filter (λ x, negb (x =? n)%N) (hs_ext_handles s)) s)).
Proof. apply always_calm_upd. intros s. by apply gentle_same. Qed.
#[local] Hint Resolve calm_drop_handle : host.

(** *** Tables of remote legs *)

Lemma table_insert t id st st' :
  t !! id = Some st → (rs_ended st' = false → (rs_recv_received st' ≤ rs_recv_granted st')%N) →
  table_ok t → table_ok (<[id := st']> t).
Proof.
  intros Hid W [Sz Wd]. split.
  - by rewrite map_size_insert_Some by eauto.
  - by apply map_Forall_insert_2.
Qed.

Lemma relay_decide_ok env id t : table_ok t → table_ok (relay_decide env id t).2.
Proof.
  intros T. unfold relay_decide. destruct (t !! id) as [st|] eqn:Hid; [|done].
  pose proof (to_window t T id st Hid) as W.
  cbn in W. repeat (case_match; cbn [snd]; try done);
    (eapply table_insert; [exact Hid| |exact T]); cbn; [by intros _; apply W|done].
Qed.

Lemma receive_decide_ok id seq len t : table_ok t → table_ok (receive_decide id seq len t).2.
Proof.
  intros T. unfold receive_decide. destruct (t !! id) as [st|] eqn:Hid; [|done].
  case_match; [done|]. cbn. eapply table_insert; [done| |done]. cbn. rewrite orb_false_iff. intros [_ L].
  by apply N.ltb_ge.
Qed.

Lemma bind_decide_ok id peer op c t : table_ok t → table_ok (bind_decide id peer op c t).2.
Proof.
  intros T. pose proof T as [Sz W]. unfold bind_decide. destruct (t !! id) as [st|] eqn:Hid; [done|]. cbn [is_some].
  destruct (Nat.leb_spec MAX_REMOTE_STREAMS_PER_SESSION (size t)) as [G|G]; [done|]. cbn. split.
  - rewrite map_size_insert_None by done. lia.
  - apply map_Forall_insert_2; [|done]. intros _. apply N.le_0_l.
Qed.

Lemma table_alter id f t :
  (∀ st, (rs_ended st = false → (rs_recv_received st ≤ rs_recv_granted st)%N) →
         rs_ended (f st) = false → (rs_recv_received (f st) ≤ rs_recv_granted (f st))%N) →
  table_ok t → table_ok (alter f id t).
Proof.
  intros F [Sz W]. split; [by rewrite <- size_dom, dom_alter_L, size_dom|]. intros id' st'. rewrite lookup_alter_Some.
  intros [(<- & st & Hst & ->)|[_ Hst]]; [|by apply (W id')]. apply F, (W id), Hst.
Qed.

Lemma table_fmap f t :
  (∀ st, (rs_ended st = false → (rs_recv_received st ≤ rs_recv_granted st)%N) →
         rs_ended (f st) = false → (rs_recv_received (f st) ≤ rs_recv_granted (f st))%N) →
  table_ok t → table_ok (f <$> t).
Proof.
  intros F [Sz W]. split; [by rewrite map_size_fmap|]. intros id st'. rewrite lookup_fmap_Some.
  intros (st & <- & Hst). apply F, (W id), Hst.
Qed.

Lemma calm_relay_decide sid env id : always calm (act (on_rtable sid (relay_decide env id))).
Proof. apply always_one. intros h. apply calm_rtable. apply relay_decide_ok. Qed.
#[local] Hint Resolve calm_relay_decide : host.
Lemma calm_receive_decide sid id seq len : always calm (act (on_rtable sid (receive_decide id seq len))).
Proof. apply always_one. intros h. apply calm_rtable. apply receive_decide_ok. Qed.
#[local] Hint Resolve calm_receive_decide : host.
Lemma calm_bind_decide sid id peer op c : always calm (act (on_rtable sid (bind_decide id peer op c))).
Proof. apply always_one. intros h. apply calm_rtable. apply bind_decide_ok. Qed.
#[local] Hint Resolve calm_bind_decide : host.
Lemma calm_add_sent sid id len : always calm (act (on_rtable sid (λ t,
  match t !! id with Some st => (true, <[id := rs_add_sent len st]> t) | None => (false, t) end))).
Proof.
  apply always_one. intros h. apply calm_rtable. intros t T. destruct (t !! id) as [st|] eqn:Hid; [|done].
  cbn. eapply table_insert; [done| |done]. exact (to_window t T id st Hid).
Qed.
#[local] Hint Resolve calm_add_sent : host.
Lemma calm_credit sid id c : always calm (act (on_rtable sid (λ t,
  (tt, alter (λ st, if rs_ended st then st else rs_credit c st) id t)))).
Proof.
  apply always_one. intros h. apply calm_rtable. intros t. apply table_alter. intros st W.
  destruct (rs_ended st) eqn:En; cbn; [congruence|]. intros _. by apply W.
Qed.
#[local] Hint Resolve calm_credit : host.
Lemma calm_end sid id : always calm (act (on_rtable sid (λ t, (tt, alter rs_end id t)))).
Proof. apply always_one. intros h. apply calm_rtable. intros t. by apply table_alter. Qed.
#[local] Hint Resolve calm_end : host.
Lemma calm_end_legs sid peer op : always calm (act (on_rtable sid (end_legs peer op))).
Proof.
  apply always_one. intros h. apply calm_rtable. intros t. unfold end_legs. cbn. apply table_fmap.
  intros st W. by destruct (leg_of peer op st).
Qed.
#[local] Hint Resolve calm_end_legs : host.

(** *** The rest of the charge-free programs *)

Lemma calm_notify ty sid b : always calm (notify to_string w ty sid b).
Proof. unfold notify. calm_prog. Qed.
#[local] Hint Resolve calm_notify : host.
Lemma calm_send_credit sid id n : always calm (send_stream_credit to_string w sid id n).
Proof. unfold send_stream_credit. calm_prog. Qed.
#[local] Hint Resolve calm_send_credit : host.
Lemma calm_end_stream sid id st r g : always calm (end_stream to_string w sid id st r g).
Proof. unfold end_stream. calm_prog. Qed.
#[local] Hint Resolve calm_end_stream : host.
Lemma calm_bind sid id peer op c : always calm (bind_remote_stream sid id peer op c).
Proof. unfold bind_remote_stream. calm_prog. Qed.
#[local] Hint Resolve calm_bind : host.
Lemma calm_local_data sid env id : always calm (on_local_data to_string w sid env id).
Proof. unfold on_local_data. calm_prog. Qed.
#[local] Hint Resolve calm_local_data : host.
Lemma calm_local_stream sid env id : always calm (on_local_stream to_string w sid env id).
Proof. unfold on_local_stream. calm_prog. Qed.
#[local] Hint Resolve calm_local_stream : host.
Lemma calm_credit_stream sid id c : always calm (credit_remote_stream sid id c).
Proof. unfold credit_remote_stream. calm_prog. Qed.
#[local] Hint Resolve calm_credit_stream : host.
Lemma calm_end_remote sid id : always calm (end_remote_stream sid id).
Proof. unfold end_remote_stream. calm_prog. Qed.
#[local] Hint Resolve calm_end_remote : host.
Lemma calm_credit_any id c : always calm (credit_remote_stream_any id c).
Proof. unfold credit_remote_stream_any. calm_prog. Qed.
#[local] Hint Resolve calm_credit_any : host.
Lemma calm_end_any id : always calm (end_remote_stream_any id).
Proof. unfold end_remote_stream_any. calm_prog. Qed.
#[local] Hint Resolve calm_end_any : host.
Lemma calm_end_streams_of peer op : always calm (end_remote_streams_of peer op).
Proof. unfold end_remote_streams_of. calm_prog. Qed.
#[local] Hint Resolve calm_end_streams_of : host.
Lemma calm_set_transport on : always calm (set_remote_transport on).
Proof. unfold set_remote_transport. calm_prog. Qed.
#[local] Hint Resolve calm_set_transport : host.

Lemma calm_dep_result sid i g r c m o : always calm (send_dep_result to_string w sid i g r c m o).
Proof. unfold send_dep_result. calm_prog. Qed.
#[local] Hint Resolve calm_dep_result : host.
Lemma calm_answer_session sid f : (∀ s, always calm (f s)) → always calm (answer_session sid f).
Proof. intros F. unfold answer_session. calm_prog. Qed.
#[local] Hint Resolve calm_answer_session : host.
Lemma calm_cancel_state child : always calm (cancel_state child).
Proof. unfold cancel_state. calm_prog. Qed.
#[local] Hint Resolve calm_cancel_state : host.
Lemma calm_dep_cancel sid env : always calm (on_dep_cancel to_string w sid env).
Proof.
  unfold on_dep_cancel, send_dep_cancel_result. calm_prog; apply calm_answer_session; intros s; calm_prog.
Qed.
#[local] Hint Resolve calm_dep_cancel : host.
Lemma calm_dependency_frame sid env : always calm (on_dependency_frame to_string w sid env).
Proof. unfold on_dependency_frame. calm_prog; apply calm_answer_session; intros s; calm_prog. Qed.
#[local] Hint Resolve calm_dependency_frame : host.

Lemma calm_fail job c m : always calm (fail to_string w job c m).
Proof. unfold fail. calm_prog. Qed.
#[local] Hint Resolve calm_fail : host.
Lemma calm_kcancel child r : always calm (kcancel child r).
Proof. unfold kcancel. calm_prog. Qed.
#[local] Hint Resolve calm_kcancel : host.
Lemma calm_kclose child : always calm (kclose child).
Proof. unfold kclose. calm_prog. Qed.
#[local] Hint Resolve calm_kclose : host.
Lemma calm_give_up job child c m r : always calm (give_up_with to_string w job child c m r).
Proof. unfold give_up_with. calm_prog. Qed.
#[local] Hint Resolve calm_give_up : host.
Lemma calm_answer_ok job v : always calm (answer_ok to_string w job v).
Proof. unfold answer_ok, send_dep_ok. calm_prog. Qed.
#[local] Hint Resolve calm_answer_ok : host.
Lemma calm_answer_error job c m o : always calm (answer_error to_string w job c m o).
Proof. unfold answer_error. calm_prog. Qed.
#[local] Hint Resolve calm_answer_error : host.
Lemma calm_notify_cancel p child r : always calm (notify_cancel to_string w p child r).
Proof. unfold notify_cancel. calm_prog. Qed.
#[local] Hint Resolve calm_notify_cancel : host.
Lemma calm_deadline job child : always calm (child_deadline_of job child).
Proof. unfold child_deadline_of. calm_prog. Qed.
#[local] Hint Resolve calm_deadline : host.
Lemma calm_take_leg child : always calm (act (take_leg child)).
Proof.
  apply always_one. intros h. unfold take_leg. destruct (ho_legs h !! child) as [[[|t l] c]|]; by apply calm_frame.
Qed.
#[local] Hint Resolve calm_take_leg : host.
Lemma calm_leg_recv child d : always calm (leg_recv child d).
Proof. unfold leg_recv. calm_prog. Qed.
#[local] Hint Resolve calm_leg_recv : host.
Lemma calm_done child : always calm (done child).
Proof. unfold done. calm_prog. Qed.
#[local] Hint Resolve calm_done : host.
Lemma calm_abandon child peer op : always calm (abandon_leg child peer op).
Proof. unfold abandon_leg. calm_prog. Qed.
#[local] Hint Resolve calm_abandon : host.
Lemma calm_try_pending rid p : always calm (act (try_pending rid p)).
Proof. apply always_one. intros h. unfold try_pending. by case_match; apply calm_frame. Qed.
#[local] Hint Resolve calm_try_pending : host.
Lemma calm_start_leg child (f : Host → RemoteCallOpen) : always calm (modify (λ h, start_leg w child (f h) h)).
Proof. apply always_modify. intros h. unfold start_leg. by case_match; apply calm_frame. Qed.
#[local] Hint Resolve calm_start_leg : host.
Lemma calm_accepted sid i g r child : always calm (send_dep_accepted to_string w sid i g r child).
Proof. unfold send_dep_accepted. calm_prog. Qed.
#[local] Hint Resolve calm_accepted : host.
Lemma calm_take_job : always calm (act take_job).
Proof. apply always_one. intros h. unfold take_job. by destruct (ho_jobs h); apply calm_frame. Qed.
#[local] Hint Resolve calm_take_job : host.

Lemma calm_resource_frame sid env : always calm (on_resource_frame to_string w sid env).
Proof. unfold on_resource_frame, on_acquire, on_release. calm_prog. Qed.
#[local] Hint Resolve calm_resource_frame : host.
Lemma calm_answer_pending rid env : always calm (act (answer_pending rid env)).
Proof. apply always_one. intros h. unfold answer_pending. by destruct (ho_pending h !! rid); apply calm_frame. Qed.
#[local] Hint Resolve calm_answer_pending : host.
Lemma calm_heartbeat sid : always calm (heartbeat to_string w sid).
Proof. unfold heartbeat. calm_prog. Qed.
#[local] Hint Resolve calm_heartbeat : host.
Lemma calm_write_value sid f m : always calm (write_value to_string w sid f m).
Proof. unfold write_value. calm_prog. Qed.
#[local] Hint Resolve calm_write_value : host.
Lemma calm_greet io : always calm (greet to_string from_str w io).
Proof. unfold greet, reject. calm_prog. Qed.
#[local] Hint Resolve calm_greet : host.
Lemma calm_binding_for l : always calm (binding_for l).
Proof. unfold binding_for. calm_prog. Qed.
#[local] Hint Resolve calm_binding_for : host.
Lemma calm_activate_session io sid l i g wl r : always calm (activate_session to_string w io sid l i g wl r).
Proof. unfold activate_session. calm_prog. Qed.
#[local] Hint Resolve calm_activate_session : host.
Lemma calm_register_ids f : always calm (act (λ h, let '(v, d) := f (ho_register_ids h) in
  (v : IdVerdict, set_ho_register_ids d h))).
Proof. apply always_one. intros h. by destruct (f (ho_register_ids h)); apply calm_frame. Qed.
#[local] Hint Resolve calm_register_ids : host.
Lemma calm_register_session sid l i g q fs : always calm (modify (register_session sid l i g q fs)).
Proof. apply always_modify. intros h. apply calm_register. Qed.
#[local] Hint Resolve calm_register_session : host.
Lemma calm_bind_session io sid hello reg wl : always calm (bind_session to_string w io sid hello reg wl).
Proof. unfold bind_session, reject. calm_prog. Qed.
#[local] Hint Resolve calm_bind_session : host.
Lemma calm_serve_conn io : always calm (serve_conn to_string from_str w io).
Proof. unfold serve_conn. calm_prog. Qed.
#[local] Hint Resolve calm_serve_conn : host.
Lemma calm_accept_conn io : always calm (accept_conn to_string from_str w io).
Proof. unfold accept_conn. calm_prog. Qed.
#[local] Hint Resolve calm_accept_conn : host.
End calm.

#[export] Hint Resolve calm_fresh_id calm_effect calm_transport calm_write calm_remove_pending calm_post calm_send_to calm_take_mail calm_reply calm_recv calm_round calm_poll calm_exchange calm_transact calm_orphans calm_take_session calm_drop_session calm_cancel_calls calm_kill calm_publish calm_spawn calm_reap calm_quiesce calm_handle_event calm_event_loop calm_shutdown calm_park calm_take_parked calm_clear_parked calm_entry calm_forget calm_unpend calm_gate calm_lookup calm_map_child calm_dedup calm_push_handle calm_drop_handle calm_relay_decide calm_receive_decide calm_bind_decide calm_add_sent calm_credit calm_end calm_end_legs calm_notify calm_send_credit calm_end_stream calm_bind calm_local_data calm_local_stream calm_credit_stream calm_end_remote calm_credit_any calm_end_any calm_end_streams_of calm_set_transport calm_dep_result calm_answer_session calm_cancel_state calm_dep_cancel calm_dependency_frame calm_fail calm_kcancel calm_kclose calm_give_up calm_answer_ok calm_answer_error calm_notify_cancel calm_deadline calm_take_leg calm_leg_recv calm_done calm_abandon calm_try_pending calm_start_leg calm_accepted calm_take_job calm_resource_frame calm_answer_pending calm_heartbeat calm_write_value calm_greet calm_binding_for calm_activate_session calm_register_ids calm_register_session calm_bind_session calm_serve_conn calm_accept_conn : host.
