(* ===== verification/HostBudget.v ===== *)
(** * Every thread of the host gives back what it charges

    The programs of the host that charge a session, followed with the charges they hold: each of
    them ends with what it started with, on every path and whatever it reads in between. *)

From S2P Require Import Prelude RustStd Json Wire Frame Envelope Dependency Handshake Guard Remote.
From S2P Require Import Identity Contexts Resources Deps Calls Journal Manifest Prog Timed Debts.
From S2P Require Import KernelState KernelCalls KernelLifecycle KernelDispatch KernelActions.
From S2P Require Import HostState HostCalls HostStreams HostDeps HostConn HostInv.

Notation owed := (owes host_counter host_ok).

(** Ends with the charges it began with. *)
Notation even l p := (owed l%list (λ _ l', l' = l%list) p) (only parsing).

(** ** The four actions on budgets *)

Lemma session_counter {X} sid (none : X) f h b sid' :
  ho_frozen h = false →
  host_counter (on_session sid none f h).2 (b, sid') =
  if decide (sid = sid') then
    match session sid h with
    | Some s => if b then hs_send_used (f s).2 else hs_in_flight (f s).2
    | None => 0%N
    end
  else host_counter h (b, sid').
Proof.
  intros Fr. unfold on_session. destruct (session sid h) as [s|] eqn:Es.
  - destruct (f s) as [x s'] eqn:Ef. unfold host_counter, session in *. cbn. rewrite Fr. case_decide as D; subst.
    + rewrite lookup_insert_eq. by destruct b.
    + by rewrite lookup_insert_ne.
  - cbn. case_decide as D; subst; [|done]. unfold host_counter, session in *. cbn. by rewrite Fr, Es.
Qed.

Lemma session_frozen {X} sid (none : X) f h : ho_frozen (on_session sid none f h).2 = ho_frozen h.
Proof. unfold on_session. destruct (session sid h) as [s|]; [|done]. by destruct (f s). Qed.

(** A frozen host has nothing to account for. *)
Lemma moves_frozen l l' h h' : ho_frozen h' = true → moves host_counter l l' h h'.
Proof. intros Fr k T _. unfold host_counter. rewrite Fr. apply N.le_0_l. Qed.

(** To follow the counters of an action on a session, the host may be taken not to be frozen. *)
Lemma moves_session {X} l l' sid (none : X) f h :
  (ho_frozen h = false → moves host_counter l l' h (on_session sid none f h).2) →
  moves host_counter l l' h (on_session sid none f h).2.
Proof.
  intros M. destruct (ho_frozen h) eqn:Fr; [|by apply M]. apply moves_frozen. by rewrite session_frozen.
Qed.

Lemma counter_session h b sid s :
  ho_frozen h = false → session sid h = Some s →
  host_counter h (b, sid) = if b then hs_send_used s else hs_in_flight s.
Proof. intros Fr Hs. unfold host_counter, session in *. cbn. by rewrite Fr, Hs. Qed.

Lemma charge_result sid n h :
  (charge_send_step sid n h).1 = true →
  ∃ s, session sid h = Some s ∧ (saturating_add (hs_send_used s) n ≤ hs_send_quota s)%N.
Proof.
  unfold charge_send_step, on_session. destruct (session sid h) as [s|]; [|done].
  destruct (N.ltb_spec (hs_send_quota s) (saturating_add (hs_send_used s) n)); [done|]. eauto.
Qed.

Lemma owes_charge l sid n (Q : bool → _ → Prop) :
  Q true (((true, sid), n) :: l) → Q false l → owed l Q (charge_send sid n).
Proof.
  intros Qt Qf h. unfold charge_send_step. split.
  { apply on_session_ok. intros s. destruct (N.ltb_spec (hs_send_quota s) (saturating_add (hs_send_used s) n)) as [L|L].
    { done. } split; [done|]. cbn. intros []. split; cbn; auto. }
  set (f := λ s : HSession, _). destruct ((on_session sid false f h).1) eqn:R.
  - exists (((true, sid), n) :: l). split; [|done]. apply moves_session. intros Fr [b sid'] T. rewrite session_counter by done. cbn [total fst snd].
    destruct (decide (sid = sid')) as [<-|Ne].
    + destruct (session sid h) as [s|] eqn:Es; [|lia]. rewrite (counter_session _ _ _ _ Fr Es). unfold f.
      destruct b; [rewrite decide_True by done|rewrite decide_False by congruence];
        destruct (_ <? _)%N; cbn; unfold saturating_add; lia.
    + rewrite decide_False by congruence. done.
  - exists l. split; [|done]. apply moves_session. intros Fr [b sid'] T. rewrite session_counter by done.
    destruct (decide (sid = sid')) as [<-|Ne]; [|done].
    unfold on_session in R. destruct (session sid h) as [s|] eqn:Es; [|lia].
    rewrite (counter_session _ _ _ _ Fr Es). unfold f in *.
    destruct (_ <? _)%N; [|done]. by destruct b.
Qed.

Lemma owes_release l sid n (Q : unit → _ → Prop) :
  Q tt l → owed (((true, sid), n) :: l) Q (release_send sid n).
Proof.
  intros Qt h. split.
  { apply on_session_ok. intros s. split; [done|]. intros []. split; cbn; auto. rewrite saturating_sub_spec. lia. }
  exists l. split; [|by destruct ((on_session sid tt _ h).1)]. apply moves_session. intros Fr [b sid'] T. rewrite session_counter by done. cbn [total fst snd].
  destruct (decide (sid = sid')) as [<-|Ne].
  - destruct (session sid h) as [s|] eqn:Es; [|lia]. rewrite (counter_session _ _ _ _ Fr Es). cbn.
    destruct b; [rewrite decide_True by done|rewrite decide_False by congruence]; cbn; [|done].
    rewrite saturating_sub_spec. lia.
  - rewrite decide_False by congruence. done.
Qed.

Lemma owes_enter l sid (Q : option bool → _ → Prop) :
  Q None l → Q (Some false) l → Q (Some true) (((false, sid), 1%N) :: l) → owed l Q (act (enter_step sid)).
Proof.
  intros Qn Qf Qt h. unfold enter_step. split.
  { apply on_session_ok. intros s. destruct (N.leb_spec MAX_CALLS_PER_SESSION (hs_in_flight s)) as [L|L]; [done|].
    split; [done|]. intros []. split; cbn; auto. lia. }
  set (f := λ s : HSession, _). destruct ((on_session sid None f h).1) as [[]|] eqn:R.
  - exists (((false, sid), 1%N) :: l). split; [|done]. apply moves_session. intros Fr [b sid'] T. rewrite session_counter by done. cbn [total fst snd].
    destruct (decide (sid = sid')) as [<-|Ne].
    + destruct (session sid h) as [s|] eqn:Es; [|lia]. rewrite (counter_session _ _ _ _ Fr Es). unfold f.
      destruct b; [rewrite decide_False by congruence|rewrite decide_True by done];
        destruct (_ <=? _)%N; cbn; lia.
    + rewrite decide_False by congruence. done.
  - exists l. split; [|done]. apply moves_session. intros Fr [b sid'] T. rewrite session_counter by done.
    destruct (decide (sid = sid')) as [<-|Ne]; [|done].
    unfold on_session in R. destruct (session sid h) as [s|] eqn:Es; [|lia].
    rewrite (counter_session _ _ _ _ Fr Es). unfold f in *. destruct (_ <=? _)%N; [|done]. by destruct b.
  - exists l. split; [|done]. apply moves_session. intros Fr [b sid'] T. rewrite session_counter by done.
    destruct (decide (sid = sid')) as [<-|Ne]; [|done].
    unfold on_session in R. destruct (session sid h) as [s|] eqn:Es; [|lia].
    unfold f in R. by destruct (_ <=? _)%N.
Qed.

Lemma owes_leave l sid (Q : unit → _ → Prop) : Q tt l → owed (((false, sid), 1%N) :: l) Q (leave sid).
Proof.
  intros Qt h. split.
  { apply on_session_ok. intros s. split; [done|]. intros []. split; cbn; auto. rewrite saturating_sub_spec. lia. }
  exists l. split; [|by destruct ((on_session sid tt _ h).1)]. apply moves_session. intros Fr [b sid'] T. rewrite session_counter by done. cbn [total fst snd].
  destruct (decide (sid = sid')) as [<-|Ne].
  - destruct (session sid h) as [s|] eqn:Es; [|lia]. rewrite (counter_session _ _ _ _ Fr Es). cbn.
    destruct b; [rewrite decide_False by congruence|rewrite decide_True by done]; cbn; [done|].
    rewrite saturating_sub_spec. lia.
  - rewrite decide_False by congruence. done.
Qed.

(** ** The programs *)

Create HintDb even.

Ltac even_step :=
  match goal with
  | |- owes _ _ _ _ (bind (charge_send _ _) _) => apply owes_bind, owes_charge; cbn [negb]
  | |- owes _ _ _ _ (bind (release_send _ _) _) => apply owes_bind, owes_release
  | |- owes _ _ _ _ (release_send _ _) => apply owes_release; reflexivity
  | |- owes _ _ _ _ (bind (act (enter_step _)) _) => apply owes_bind, owes_enter
  | |- owes _ _ _ _ (bind (leave _) _) => apply owes_bind, owes_leave
  | |- owes _ _ _ _ (bind _ _) =>
      apply owes_seq; [solve [auto with even nocore | apply owes_calm; [solve [calm_prog]|done]]|intros ?]
  | |- owes _ _ _ _ (Ret _) => reflexivity
  | |- owes _ _ _ _ (if ?b then _ else _) => destruct b
  | |- owes _ _ _ _ (match ?x with _ => _ end) => destruct x
  | |- owes _ _ _ _ _ => solve [auto with even nocore | apply owes_calm; [solve [calm_prog]|done]]
  end.
Ltac even_prog := intros; repeat even_step.

Section even.
Context {E : Env} (to_string : Value → string) (from_str : bytes → result Value string)
  (sha256 : bytes → bytes) (w : HWorld).

Lemma even_charged req sid l : even l (forward_charged to_string w req sid).
Proof. unfold forward_charged. even_prog. Qed.
#[local] Hint Resolve even_charged : even.
Lemma even_forward_call req l : even l (forward_call to_string w req).
Proof. unfold forward_call. even_prog. Qed.

Lemma even_chunk sid i g id seq p l : even l (send_stream_chunk to_string w sid i g id seq p).
Proof. unfold send_stream_chunk. even_prog. Qed.
Lemma even_relay sid env id l : even l (relay_stream_frame to_string w sid env id).
Proof. unfold relay_stream_frame. even_prog. Qed.
#[local] Hint Resolve even_chunk even_relay : even.
Lemma even_relays sid ps l : even l (Prog.for_each ps (λ p,
  do! relay_stream_frame to_string w sid (parked_env sid p) (pk_stream_id p); Ret tt)).
Proof. apply owes_for_each. even_prog. Qed.
#[local] Hint Resolve even_relays : even.
Lemma even_drain sid id l : even l (bind_and_drain to_string w sid id).
Proof. unfold bind_and_drain. even_prog. Qed.
#[local] Hint Resolve even_drain : even.
Lemma even_drain_session sid l : even l (drain_parked_for_session to_string w sid).
Proof. unfold drain_parked_for_session. apply owes_seq_calm; [calm_prog|]. intros ids. apply owes_for_each. even_prog. Qed.
Lemma even_stream_frame sid env l : even l (on_stream_frame to_string w sid env).
Proof. unfold on_stream_frame. even_prog. Qed.
Lemma even_remote_chunk sid id seq p l : even l (deliver_remote_chunk to_string w sid id seq p).
Proof. unfold deliver_remote_chunk. even_prog. Qed.
#[local] Hint Resolve even_drain_session even_stream_frame even_remote_chunk : even.
Lemma even_remote_chunk_any id seq p l : even l (deliver_remote_chunk_any to_string w id seq p).
Proof. unfold deliver_remote_chunk_any. even_prog. Qed.
Lemma even_inject e id seq p l : even l (inject_provider_chunk_owned to_string w e id seq p).
Proof. unfold inject_provider_chunk_owned. even_prog. Qed.
Lemma even_deliver_one t v s l : even l (deliver_one to_string w t v s).
Proof. unfold deliver_one. even_prog. Qed.
#[local] Hint Resolve even_deliver_one : even.
Lemma even_events t v l : even l (deliver_local_event_counted to_string w t v).
Proof.
  unfold deliver_local_event_counted. apply owes_seq_calm; [calm_prog|]. intros ss. apply owes_for_fold. even_prog.
Qed.
#[local] Hint Resolve even_events : even.
Lemma even_on_event t v l : even l (on_event to_string w t v).
Proof. unfold on_event. even_prog. Qed.
Lemma even_remote_event t v l : even l (deliver_remote_event to_string w t v).
Proof. unfold deliver_remote_event. even_prog. Qed.

Lemma even_accept job child len p q l :
  always calm p → always calm q → even l (accept_terminal to_string w job child len p q).
Proof. unfold accept_terminal. intros P Q. even_prog. Qed.
Lemma even_local_terminal job child p env l : even l (local_terminal to_string w job child p env).
Proof.
  unfold local_terminal. repeat case_match; try (apply even_accept; calm_prog); even_prog.
Qed.
Lemma even_remote_terminal job child peer t l : even l (remote_terminal to_string w job child peer t).
Proof. unfold remote_terminal. destruct t; try (apply even_accept; calm_prog); even_prog. Qed.
#[local] Hint Resolve even_local_terminal even_remote_terminal : even.
Lemma even_local_round job child p preq D l : even l (local_round to_string w job child p preq D).
Proof. unfold local_round. even_prog. Qed.
Lemma even_remote_round job child peer op D l : even l (remote_round to_string w job child peer op D).
Proof. unfold remote_round. even_prog. Qed.
#[local] Hint Resolve even_local_round even_remote_round : even.
Lemma even_poll {A} n (round : hprog (option A)) l : even l round → even l (poll n round).
Proof. intros R. induction n as [|n IH]; cbn; [done|]. apply owes_seq; [done|]. by intros [a|]. Qed.
#[local] Hint Resolve even_poll : even.
Lemma even_local_exchange job child cap p l : even l (local_exchange to_string w job child cap p).
Proof. unfold local_exchange. even_prog. Qed.
#[local] Hint Resolve even_local_exchange : even.
(** The thread of a job ends with the charges it began with, or freezes the host. *)
Definition job_end (l : list (bool * string * N)) (x : option JobEnd) (l' : list (bool * string * N)) : Prop :=
  match x with Some JobDeadlock => l' = [] | _ => l' = l end.

Lemma owes_relock l : owed l (job_end l) relock_sessions.
Proof.
  intros h. split; [by intros [S T]|]. exists []. split; [|done]. by apply moves_frozen.
Qed.
#[local] Hint Resolve owes_relock : even.

Lemma job_done l l0 (x : option unit) : l0 = l → job_end l ((λ _, JobDone) <$> x) l0.
Proof. by destruct x. Qed.

Lemma even_run_local job child l : owed l (job_end l) (run_local to_string w job child).
Proof. unfold run_local. even_prog; by apply job_done. Qed.
Lemma even_run_remote job child peer l : even l (run_dep_open_remote to_string sha256 w job child peer).
Proof. unfold run_dep_open_remote. even_prog. Qed.
#[local] Hint Resolve even_run_local even_run_remote : even.
Lemma even_dispatch job child l : owed l (job_end l) (dispatch_child to_string sha256 w job child).
Proof. unfold dispatch_child. even_prog; by apply job_done. Qed.
#[local] Hint Resolve even_dispatch : even.
Lemma even_run_dep_open job l : owed l (job_end l) (run_dep_open to_string sha256 w job).
Proof.
  unfold run_dep_open. even_prog.
  apply owes_bind. eapply owes_mono; [|apply even_dispatch]. intros [[]|] l' ->; [|done|]; by even_prog.
Qed.
#[local] Hint Resolve even_run_dep_open : even.
Lemma even_worker : even [] (worker to_string sha256 w).
Proof.
  apply (owes_mono _ _ _ (job_end [])); [by intros [[]|] l'|]. unfold worker. even_prog.
Qed.

Lemma even_new_frame sid env l : even l (on_new_frame to_string w sid env).
Proof. unfold on_new_frame. even_prog. Qed.
#[local] Hint Resolve even_new_frame : even.
Lemma even_plugin_frame sid raw l : even l (on_plugin_frame to_string from_str w sid raw).
Proof. unfold on_plugin_frame. even_prog. Qed.
Lemma even_frames sid fs l : even l (Prog.for_each fs (on_plugin_frame to_string from_str w sid)).
Proof. apply owes_for_each. intros f. apply even_plugin_frame. Qed.
#[local] Hint Resolve even_frames : even.
Lemma even_read_loop sid m reads buf l : even l (read_loop to_string from_str w sid m reads buf).
Proof. revert buf. induction reads as [|ev reads IH]; intros buf; cbn; [done|even_prog]. Qed.

#[local] Hint Resolve even_forward_call even_remote_chunk_any even_inject even_on_event even_remote_event
  even_worker even_read_loop : even.
Lemma even_hop o : even [] (hop_prog to_string from_str sha256 w o).
Proof. destruct o; cbn; unfold hignore, leg_answers, set_event_tap, set_stream_tap; even_prog. Qed.
End even.

(** ** A host at rest *)

(** The invariant holds and no thread holds a charge. *)
Definition rested (h : Host) : Prop :=
  host_ok h ∧ ∀ sid s, session sid h = Some s → hs_send_used s = 0%N ∧ hs_in_flight s = 0%N.

Lemma rested_counter h k : rested h → host_counter h k = 0%N.
Proof.
  intros [_ R]. unfold host_counter. destruct (ho_frozen h); [done|]. destruct (session k.2 h) as [s|] eqn:Es; [|done].
  destruct (R _ _ Es) as [U F]. by destruct k.1.
Qed.

Lemma rested_calm h h' : rested h → calm h h' → ho_frozen h' = false → rested h'.
Proof.
  intros R [I L] Fr. split; [apply I, R|]. intros sid s Hs.
  pose proof (L (true, sid)) as L1. pose proof (L (false, sid)) as L2.
  rewrite (rested_counter h), (counter_session _ _ _ _ Fr Hs) in L1 by done.
  rewrite (rested_counter h), (counter_session _ _ _ _ Fr Hs) in L2 by done. lia.
Qed.

Lemma rested_new policy k : rested (host_new policy k).
Proof. split; [split; by apply map_Forall_empty|]. intros sid s Hs. exact (False_ind _ (lookup_empty_Some sid s Hs)). Qed.
