(* ===== verification/HostDemo.v ===== *)
(** * A small host

    The deployment of [KernelDemo] behind a host: the component [app] has the session [sess-1]
    and [store] the session [sess-2]. The concrete inputs of the witnesses. *)

From S2P Require Import Prelude RustStd Json Wire Frame Envelope Dependency Handshake Guard Remote.
From S2P Require Import Identity Contexts Resources Deps Calls Journal Manifest Prog Timed Debts.
From S2P Require Import KernelState KernelCalls KernelLifecycle KernelDispatch KernelActions KernelDemo.
From S2P Require Import HostState HostCalls HostStreams HostDeps HostConn HostInv HostBudget.

Definition open_policy : HostPolicy := mkHostPolicy ∅ false true "home".

Definition calm_world : HWorld :=
  mkHWorld (λ _ _, None) (Ok "token") (λ _, true) (λ _, true) (λ _, false) true.

Definition demo_host_on (k : Kernel) : Host :=
  let h := host_new open_policy k in
  let h := register_session "sess-1" "app" 1 1 4096 [DEPENDENCY_CALLS_1] h in
  let h := register_session "sess-2" "store" 2 1 4096 [] h in
  set_ho_next_id 10
    (set_ho_by_instance (<[("app", 1%N) := "sess-1"]> (<[("store", 2%N) := "sess-2"]> ∅)) h).

(** ** Frames the components send *)

Definition demo_frame (ty msg sid inst : string) (rid : option string) (body : Value) : Value :=
  JObject ([("protocol", JString PROTOCOL_ID); ("version", JString PROTOCOL_VERSION); ("type", JString ty);
            ("message_id", JString msg); ("session_id", JString sid);
            ("instance_id", JString inst); ("generation", JString "1")]
           ++ match rid with Some r => [("request_id", JString r)] | None => [] end
           ++ [("body", body)]).

Definition result_body (output : string) : Value :=
  obj [("ticket", JString ""); ("status", JString "ok"); ("output", JString output)].

Definition chunk_body (stream_id seq payload : string) : Value :=
  obj [("stream_id", JString stream_id); ("seq", JString seq); ("payload", JString payload)].

Definition end_body (stream_id : string) : Value :=
  obj [("stream_id", JString stream_id); ("status", JString "ok")].

(** The printer and the parser are the program's parameters; these know a handful of texts. *)
Definition demo_to_string (v : Value) : string := match v with JString s => s | _ => "{}" end.

Definition demo_texts : list (string * Value) :=
  [ ("1", demo_frame "call.result" "m1" "sess-2" "2" (Some "req-10") (result_body "forged"));
    ("2", demo_frame "call.result" "m2" "sess-1" "1" (Some "req-10") (result_body "done"));
    ("3", demo_frame "dependency.open" "m3" "sess-1" "1" (Some "open-1")
            (obj [("parent_ticket", JString "tkt-1"); ("binding_id", JString "bind-1");
                  ("timeout_ms", j_u64 500); ("input", JString "x")]));
    ("4", demo_frame "call.result" "m4" "sess-2" "2" (Some "req-13") (result_body "value"));
    ("5", demo_frame "call.result" "m5" "sess-2" "2" (Some "req-11") (result_body "value"));
    ("6", demo_frame "stream.data" "m6" "sess-1" "1" None (chunk_body "remote/a" "0" "ab"));
    ("7", demo_frame "stream.data" "m7" "sess-1" "1" None (chunk_body "remote/a" "1" "cd"));
    ("8", demo_frame "stream.data" "m8" "sess-1" "1" None (chunk_body "remote/a" "2" "ef"));
    ("9", demo_frame "hello" "m9" "" "1" None
            (obj [("versions", JArray [JString "0.1"]); ("max_frame", j_u64 1024); ("client", JString "app")]));
    ("10", demo_frame "component.register" "m10" "sess-10" "1" None
             (obj [("manifest", obj [("id", JString "app")])]));
    ("11", demo_frame "component.register" "m11" "sess-11" "1" None
             (obj [("manifest", obj [("id", JString "app")])])) ].

Definition demo_from_str (raw : bytes) : result Value string :=
  match List.find (λ tv, bool_decide (chars tv.1 = raw)) demo_texts with
  | Some tv => Ok tv.2
  | None => Err "unknown text"
  end.

Definition demo_sha (b : bytes) : bytes := b.

(** Ticket 1 runs on [app]; no child call is open. *)
Definition demo_host : Host := demo_host_on demo_called.

(** The call of ticket 1, forwarded to [app]. *)
Definition demo_forward : ForwardRequest :=
  mkForwardRequest 1 "app.run@1" (JString "in") "app" 1 1 100 0.

Lemma demo_rested k : rested (demo_host_on k).
Proof.
  unfold demo_host_on. pose proof (rested_new open_policy k) as R.
  eapply rested_calm in R; [|apply (calm_register "sess-1" "app" 1 1 4096 [DEPENDENCY_CALLS_1])|done].
  eapply rested_calm in R; [|apply (calm_register "sess-2" "store" 2 1 4096 [])|done].
  eapply rested_calm; [exact R|by apply calm_frame|done].
Qed.

(** One read that brings the frame with the given text. *)
Definition framed (text : string) : bytes := to_be_bytes (str_len text) ++ chars text.

Definition demo_read (sid text : string) : HostOp := HoRead sid 1024 [ReadData (framed text); ReadEof].

Definition demo_threads (ops : list HostOp) : list (hprog unit) :=
  host_threads demo_to_string demo_from_str demo_sha ((λ o, (calm_world, o)) <$> ops).

(** [app] opens a child call, a worker runs it, and [store] answers it; the call forwarded to
    [app] is answered last. *)
Definition demo_ops : list HostOp :=
  [HoForward demo_forward; HoRead "sess-1" 1024 [ReadData (framed "3"); ReadData (framed "2")];
   HoWorker; HoRead "sess-2" 1024 [ReadData (framed "4")]].

Definition demo_sched : list nat :=
  repeat 0 9 ++ repeat 1 10 ++ repeat 2 60 ++ repeat 3 10 ++ repeat 2 60 ++ repeat 1 20 ++ repeat 0 20.

Definition demo_end : list (hprog unit) * Host := exec demo_sched (demo_threads demo_ops, demo_host).

Example demo_end_done : (outcome <$> demo_end.1) = replicate 4 (Some tt) ∧ size (ho_pending demo_end.2) = 0.
Proof. by vm_compute. Qed.

(** The same threads with their results. *)
Definition demo_calls : list (hprog (option ForwardOutcome)) :=
  [forward_call demo_to_string calm_world demo_forward;
   do! hop_prog demo_to_string demo_from_str demo_sha calm_world (demo_read "sess-1" "2"); Ret None].

Definition demo_opened : Host :=
  (run (on_plugin_frame demo_to_string demo_from_str calm_world "sess-1" (chars "3")) demo_host).2.

Definition demo_workers : list (hprog (option JobEnd)) :=
  [worker demo_to_string demo_sha calm_world;
   do! hop_prog demo_to_string demo_from_str demo_sha calm_world (demo_read "sess-2" "5"); Ret None].
