(* ===== verification/HostTime.v ===== *)
(** * The host never turns the clock back

    The kernel's and the host's actions keep the clock or, at the end of a wait, move it on. With
    this, a thread that forwards a call or runs a child call can return from every state. *)

From S2P Require Import Prelude RustStd Json Wire Frame Envelope Dependency Handshake Guard Remote.
From S2P Require Import Identity Contexts Resources Deps Calls Journal Manifest Prog Timed.
From S2P Require Import KernelState KernelCalls KernelLifecycle KernelDispatch KernelActions.
From S2P Require Import HostState HostCalls HostStreams HostDeps HostConn.

Lemma kact_later a k : later k (kact a k).
Proof.
  unfold later. destruct a; cbn; try lia. unfold issue. destruct (foldl _ _ _). cbn. lia.
Qed.

Lemma acts_later {A} P (p : kprog A) : always (step P) p → always later p.
Proof. apply always_impl. intros k k' [->|(a & _ & ->)]; [apply reflexivity|apply kact_later]. Qed.

Lemma klift_later {A} (p : kprog A) : always later p → always later (klift p).
Proof.
  induction p as [a|X f k IH|c u k IH]; cbn; [done| |]; intros [F G].
  - split; [|auto]. intros h. specialize (F (ho_kernel h)). unfold later in *. cbn. by destruct (f (ho_kernel h)).
  - split; [|auto]. intros h. apply (F (ho_kernel h)).
Qed.

Lemma host_clock_advance n (h : Host) : clock (advance n h) = N.max n (clock h).
Proof. done. Qed.

(** An action that leaves the kernel alone. *)
Lemma still_later {X} (f : Host → X * Host) : (∀ h, ho_kernel (f h).2 = ho_kernel h) → always later (act f).
Proof. intros S. apply always_one. intros h. unfold later. cbn. rewrite S. done. Qed.

Create HintDb pace.

Ltac still_tac := intros ?; unfold on_session, on_rtable, add_pending, deliver; repeat case_match; simplify_eq; done.

(** Follows a program; an action that is not known leaves the kernel alone. *)
Ltac later_step :=
  match goal with
  | |- always _ (bind _ _) => apply always_bind; [|intros ?]
  | |- always _ (Ret _) => exact I
  | |- always _ (read _) => apply always_read; apply _
  | |- always _ (kread _) => apply always_read; apply _
  | |- always _ (Prog.for_each _ _) => apply always_for_each; intros ? _
  | |- always _ (for_fold _ _ _) => apply always_for_fold; intros ? ? _
  | |- always _ (Wait _ _ _) => split; [intros ?; unfold later; cbn; lia|intros ?]
  | |- always _ (if ?b then _ else _) => destruct b
  | |- always _ (match ?x with _ => _ end) => destruct x
  | |- always _ _ => solve [auto with pace nocore]
  | |- always _ (modify _) => apply still_later; still_tac
  | |- always _ (act _) => apply still_later; still_tac
  | |- always _ (upd_session _ _) => apply still_later; still_tac
  end.
Ltac later_prog := intros; repeat later_step.

(** ** Programs that take no time *)

Create HintDb atonce.

Lemma still_once {X} (f : Host → X * Host) : (∀ h, ho_kernel (f h).2 = ho_kernel h) → instant (act f).
Proof. intros S. apply instant_act. intros h. cbn. by rewrite S. Qed.

Ltac once_step :=
  match goal with
  | |- instant (bind _ _) => apply instant_bind; [|intros ?]
  | |- instant (Ret _) => exact I
  | |- instant (read _) => by apply instant_act
  | |- instant (if ?b then _ else _) => destruct b
  | |- instant (match ?x with _ => _ end) => destruct x
  | |- instant _ => solve [auto with atonce nocore]
  | |- instant (modify _) => apply still_once; still_tac
  | |- instant (act _) => apply still_once; still_tac
  | |- instant (upd_session _ _) => apply still_once; still_tac
  end.
Ltac once_prog := intros; repeat once_step.

Section pace.
Context {E : Env} (to_string : Value → string) (sha256 : bytes → bytes) (w : HWorld).

Lemma later_call_cancel t r : always later (klift (call_cancel t r)).
Proof. by apply klift_later, (acts_later (λ _, True)), cancel_acts. Qed.
Lemma later_call_close t : always later (klift (call_close reconcile t)).
Proof. by apply klift_later, (acts_later (λ _, True)), close_acts; try apply reconcile_acts. Qed.
Lemma later_admit req : always later (klift (dependency_admit req)).
Proof. by apply klift_later, (acts_later (λ _, True)), admit_acts. Qed.
Lemma later_accept t : always later (klift (dependency_accept t)).
Proof. by apply klift_later, (acts_later (λ _, True)), accept_acts. Qed.
Lemma later_timeout t : always later (klift (dependency_timeout t)).
Proof. by apply klift_later, (acts_later (λ _, True)), timeout_acts. Qed.
#[local] Hint Resolve later_call_cancel later_call_close later_admit later_accept later_timeout : pace.

Lemma later_fresh_id p : always later (fresh_id p).
Proof. unfold fresh_id. later_prog. Qed.
#[local] Hint Resolve later_fresh_id : pace.
Lemma later_effect e : always later (effect e).
Proof. unfold effect. later_prog. Qed.
#[local] Hint Resolve later_effect : pace.
Lemma later_transport e : always later (transport e).
Proof. unfold transport. later_prog. Qed.
#[local] Hint Resolve later_transport : pace.
Lemma later_write sid f : always later (write w sid f).
Proof. unfold write. later_prog. Qed.
#[local] Hint Resolve later_write : pace.
Lemma later_remove_pending rid : always later (remove_pending rid).
Proof. unfold remove_pending. later_prog. Qed.
#[local] Hint Resolve later_remove_pending : pace.
Lemma later_post sid f : always later (post to_string w sid f).
Proof. unfold post. later_prog. Qed.
#[local] Hint Resolve later_post : pace.
Lemma later_send_to sid l i g ty r b : always later (send_to to_string w sid l i g ty r b).
Proof. unfold send_to. later_prog. Qed.
#[local] Hint Resolve later_send_to : pace.
Lemma later_reply ty sid i g r b : always later (reply to_string w ty sid i g r b).
Proof. unfold reply. later_prog. Qed.
#[local] Hint Resolve later_reply : pace.
Lemma later_take_mail rid : always later (act (take_mail rid)).
Proof. apply still_later. intros h. unfold take_mail. by repeat case_match. Qed.
#[local] Hint Resolve later_take_mail : pace.
Lemma later_recv rid d : always later (recv_timeout rid d).
Proof. unfold recv_timeout. later_prog. Qed.
#[local] Hint Resolve later_recv : pace.
Lemma later_charge sid n : always later (charge_send sid n).
Proof. unfold charge_send, charge_send_step. later_prog. Qed.
#[local] Hint Resolve later_charge : pace.
Lemma later_release_send sid n : always later (release_send sid n).
Proof. unfold release_send. later_prog. Qed.
#[local] Hint Resolve later_release_send : pace.
Lemma later_leave sid : always later (leave sid).
Proof. unfold leave. later_prog. Qed.
#[local] Hint Resolve later_leave : pace.
Lemma later_enter sid : always later (act (enter_step sid)).
Proof. unfold enter_step. later_prog. Qed.
#[local] Hint Resolve later_enter : pace.
Lemma later_poll {A} n (round : hprog (option A)) : always later round → always later (poll n round).
Proof. intros R. induction n as [|n IH]; cbn [poll]; later_prog; done. Qed.
#[local] Hint Resolve later_poll : pace.
Lemma later_forward_round req sid rid D : always later (forward_round to_string w req sid rid D).
Proof. unfold forward_round. later_prog. Qed.
#[local] Hint Resolve later_forward_round : pace.
Lemma later_forward_call req : always later (forward_call to_string w req).
Proof. unfold forward_call, forward_charged, forward_exchange. later_prog. Qed.
#[local] Hint Resolve later_forward_call : pace.
Lemma later_notify ty sid b : always later (notify to_string w ty sid b).
Proof. unfold notify. later_prog. Qed.
#[local] Hint Resolve later_notify : pace.
Lemma later_relay sid env id : always later (relay_stream_frame to_string w sid env id).
Proof. unfold relay_stream_frame, end_stream. later_prog. Qed.
#[local] Hint Resolve later_relay : pace.
Lemma later_bind_remote sid id peer op c : always later (bind_remote_stream sid id peer op c).
Proof. unfold bind_remote_stream. later_prog. Qed.
#[local] Hint Resolve later_bind_remote : pace.
Lemma later_take_parked sid id : always later (take_parked sid id).
Proof. apply still_later. intros h. unfold on_session, unpark. by repeat case_match; simplify_eq. Qed.
#[local] Hint Resolve later_take_parked : pace.
Lemma later_drain_parked sid : always later (drain_parked_for_session to_string w sid).
Proof. unfold drain_parked_for_session, bind_and_drain. later_prog. Qed.
#[local] Hint Resolve later_drain_parked : pace.
Lemma later_end_streams_of peer op : always later (end_remote_streams_of peer op).
Proof. unfold end_remote_streams_of. later_prog. Qed.
#[local] Hint Resolve later_end_streams_of : pace.
Lemma later_fail job c m : always later (fail to_string w job c m).
Proof. unfold fail, send_dep_result. later_prog. Qed.
#[local] Hint Resolve later_fail : pace.
Lemma later_kcancel t r : always later (kcancel t r).
Proof. unfold kcancel. later_prog. Qed.
#[local] Hint Resolve later_kcancel : pace.
Lemma later_kclose t : always later (kclose t).
Proof. unfold kclose. later_prog. Qed.
#[local] Hint Resolve later_kclose : pace.
Lemma later_give_up job t c m r : always later (give_up_with to_string w job t c m r).
Proof. unfold give_up_with. later_prog. Qed.
#[local] Hint Resolve later_give_up : pace.
Lemma later_accept_terminal job t n p q :
  always later p → always later q → always later (accept_terminal to_string w job t n p q).
Proof. intros P Q. unfold accept_terminal. later_prog. Qed.
Lemma later_answer_ok job v : always later (answer_ok to_string w job v).
Proof. unfold answer_ok, send_dep_ok. later_prog. Qed.
#[local] Hint Resolve later_answer_ok : pace.
Lemma later_answer_error job c m o : always later (answer_error to_string w job c m o).
Proof. unfold answer_error, send_dep_result. later_prog. Qed.
#[local] Hint Resolve later_answer_error : pace.
Lemma later_notify_cancel p t r : always later (notify_cancel to_string w p t r).
Proof. unfold notify_cancel. later_prog. Qed.
#[local] Hint Resolve later_notify_cancel : pace.
Lemma later_local_terminal job t p env : always later (local_terminal to_string w job t p env).
Proof. unfold local_terminal. later_prog; apply later_accept_terminal; later_prog. Qed.
#[local] Hint Resolve later_local_terminal : pace.
Lemma later_local_round job t p q D : always later (local_round to_string w job t p q D).
Proof. unfold local_round. later_prog. Qed.
#[local] Hint Resolve later_local_round : pace.
Lemma later_deadline job t : always later (child_deadline_of job t).
Proof. unfold child_deadline_of. later_prog. Qed.
#[local] Hint Resolve later_deadline : pace.
Lemma later_try_pending rid p : always later (act (try_pending rid p)).
Proof. unfold try_pending. later_prog. Qed.
#[local] Hint Resolve later_try_pending : pace.
Lemma later_run_local job t : always later (run_local to_string w job t).
Proof. unfold run_local, local_exchange, relock_sessions. later_prog. Qed.
#[local] Hint Resolve later_run_local : pace.
Lemma later_take_leg t : always later (act (take_leg t)).
Proof. unfold take_leg. later_prog. Qed.
#[local] Hint Resolve later_take_leg : pace.
Lemma later_leg_recv t d : always later (leg_recv t d).
Proof. unfold leg_recv. later_prog. Qed.
#[local] Hint Resolve later_leg_recv : pace.
Lemma later_done t : always later (HostDeps.done t).
Proof. unfold HostDeps.done. later_prog. Qed.
#[local] Hint Resolve later_done : pace.
Lemma later_abandon t peer op : always later (abandon_leg t peer op).
Proof. unfold abandon_leg. later_prog. Qed.
#[local] Hint Resolve later_abandon : pace.
Lemma later_remote_terminal job t peer x : always later (remote_terminal to_string w job t peer x).
Proof. unfold remote_terminal. later_prog; apply later_accept_terminal; later_prog. Qed.
#[local] Hint Resolve later_remote_terminal : pace.
Lemma later_remote_round job t peer op D : always later (remote_round to_string w job t peer op D).
Proof. unfold remote_round. later_prog. Qed.
#[local] Hint Resolve later_remote_round : pace.
Lemma later_start_leg t (f : Host → RemoteCallOpen) : always later (modify (λ h, start_leg w t (f h) h)).
Proof. apply still_later. intros h. unfold start_leg. by case_match. Qed.
#[local] Hint Resolve later_start_leg : pace.
Lemma later_run_remote job t peer : always later (run_dep_open_remote to_string sha256 w job t peer).
Proof. unfold run_dep_open_remote. later_prog. Qed.
#[local] Hint Resolve later_run_remote : pace.
Lemma later_accepted sid i g r t : always later (send_dep_accepted to_string w sid i g r t).
Proof. unfold send_dep_accepted. later_prog. Qed.
#[local] Hint Resolve later_accepted : pace.
Lemma later_unpend sid key : always later (unpend_dep sid key).
Proof. unfold unpend_dep. later_prog. Qed.
#[local] Hint Resolve later_unpend : pace.
Lemma later_map_child sid key t : always later (act (map_child sid key t)).
Proof. unfold map_child. later_prog. Qed.
#[local] Hint Resolve later_map_child : pace.
Lemma later_run_dep_open job : always later (run_dep_open to_string sha256 w job).
Proof. unfold run_dep_open, dispatch_child. later_prog. Qed.
#[local] Hint Resolve later_run_dep_open : pace.
Lemma later_take_job  : always later (act take_job).
Proof. unfold take_job. later_prog. Qed.
#[local] Hint Resolve later_take_job : pace.
Lemma later_worker  : always later (worker to_string sha256 w).
Proof. unfold worker. later_prog. Qed.
#[local] Hint Resolve later_worker : pace.

(** ** The wait of a forwarded call *)

Lemma once_fresh_id p : instant (fresh_id p).
Proof. unfold fresh_id. once_prog. Qed.
#[local] Hint Resolve once_fresh_id : atonce.
Lemma once_write sid f : instant (write w sid f).
Proof. unfold write. once_prog. Qed.
#[local] Hint Resolve once_write : atonce.
Lemma once_remove_pending rid : instant (remove_pending rid).
Proof. unfold remove_pending. once_prog. Qed.
#[local] Hint Resolve once_remove_pending : atonce.
Lemma once_send_to sid l i g ty r b : instant (send_to to_string w sid l i g ty r b).
Proof. unfold send_to, post. once_prog. Qed.
#[local] Hint Resolve once_send_to : atonce.
Lemma once_charge sid n : instant (charge_send sid n).
Proof. unfold charge_send, charge_send_step. once_prog. Qed.
#[local] Hint Resolve once_charge : atonce.
Lemma once_release_send sid n : instant (release_send sid n).
Proof. unfold release_send. once_prog. Qed.
#[local] Hint Resolve once_release_send : atonce.
Lemma once_leave sid : instant (leave sid).
Proof. unfold leave. once_prog. Qed.
#[local] Hint Resolve once_leave : atonce.
Lemma once_enter sid : instant (act (enter_step sid)).
Proof. unfold enter_step. once_prog. Qed.
#[local] Hint Resolve once_enter : atonce.
Lemma once_take_mail rid : instant (act (take_mail rid)).
Proof. apply instant_act. intros h. unfold take_mail. by repeat case_match. Qed.
#[local] Hint Resolve once_take_mail : atonce.
Lemma once_kread {X} (f : Kernel → X) : instant (kread f).
Proof. by apply instant_act. Qed.
#[local] Hint Resolve once_kread : atonce.

(** A wait of [d] from [now], for whoever is still in it at [t]. *)
Lemma mail_lone rid u t : lone (λ e _, (t ≤ e ≤ N.max t u)%N) t
  (Wait (arrived rid) u (λ b, if b then act (take_mail rid) else Ret TimedOut)).
Proof.
  split; [|cbn; lia]. intros t' L. eapply lone_mono; [|apply instant_lone, once_take_mail]. cbn. lia.
Qed.

Lemma recv_lone rid d t : lone (λ e _, (t ≤ e ≤ t + d)%N) t (recv_timeout rid d).
Proof.
  unfold recv_timeout. apply lone_read. intros s Hs. eapply lone_mono; [|apply mail_lone]. rewrite Hs. cbv beta. lia.
Qed.

Lemma recv_prompt rid d C t : (d ≤ C)%N → prompt (by_end C) t (recv_timeout rid d).
Proof.
  intros L. unfold recv_timeout. split.
  - intros t' Lt. eapply lone_mono; [|apply (recv_lone rid d)]. intros e r Le. cbv [by_end]. cbv beta in Le. lia.
  - intros s Ls. split.
    + intros t' Lt. eapply lone_mono; [|apply mail_lone]. intros e r Le. cbv [by_end]. cbn in *. lia.
    + split.
      * intros s' Ls' _. apply instant_prompt; [apply by_end_refl|apply once_take_mail].
      * intros t' Lt _. apply prompt_ret. intros. apply by_end_refl.
Qed.

Lemma forward_round_lone req sid rid D t :
  lone (λ e _, (t ≤ e ≤ N.max t D)%N) t (forward_round to_string w req sid rid D).
Proof.
  assert (O : ∀ p : hprog (option ForwardOutcome), instant p → lone (λ e _, (t ≤ e ≤ N.max t D)%N) t p).
  { intros p Hp. eapply lone_mono; [|by apply instant_lone]. cbn. lia. }
  unfold forward_round. apply lone_instant; [once_prog|]. intros [|]; [apply O; once_prog|].
  apply lone_read. intros s Hs. destruct (N.leb_spec D (clock s)) as [G|G]; [apply O; once_prog|].
  apply lone_bind. eapply lone_mono; [|apply recv_lone]. intros e r Le. cbv [lone]. rewrite Hs in *. lia.
Qed.

Lemma forward_round_prompt req sid rid D C t :
  (D ≤ t + C)%N → prompt (by_end C) t (forward_round to_string w req sid rid D).
Proof.
  intros L. assert (O : ∀ t (p : hprog (option ForwardOutcome)), instant p → prompt (by_end C) t p).
  { intros t' p Hp. apply instant_prompt; [apply by_end_refl|done]. }
  unfold forward_round. apply prompt_skip; [once_prog|]. intros t1 [|] L1; [apply O; once_prog|].
  apply prompt_read. intros s L2. destruct (N.leb_spec D (clock s)) as [G|G]; [apply O; once_prog|].
  apply prompt_then; [by intros []|]. apply recv_prompt. lia.
Qed.

(** Wherever a forwarded call is, it can be over within its timeout. *)
Lemma forward_call_prompt req t : prompt (by_end (N.max (fr_timeout_ms req) 1)) t (forward_call to_string w req).
Proof.
  set (C := N.max (fr_timeout_ms req) 1).
  assert (O : ∀ t (p : hprog (option ForwardOutcome)), instant p → prompt (by_end C) t p).
  { intros t' p Hp. apply instant_prompt; [apply by_end_refl|done]. }
  unfold forward_call. apply prompt_skip; [once_prog|]. intros t1 [|] L1; [apply O; once_prog|].
  apply prompt_skip; [once_prog|]. intros t2 [sid|] L2; [|apply O; once_prog].
  apply prompt_skip; [once_prog|]. intros t3 [|] L3; cbn [negb]; [|apply O; once_prog].
  apply prompt_skip; [once_prog|]. intros t4 [[|]|] L4; [|apply O; once_prog..].
  apply prompt_then; [once_prog|]. unfold forward_charged.
  apply prompt_skip; [once_prog|]. intros t5 [|] L5; cbn [negb]; [|apply O; once_prog].
  apply prompt_then; [once_prog|]. unfold forward_exchange.
  apply prompt_skip; [once_prog|]. intros t6 rid L6. apply prompt_skip; [once_prog|]. intros t7 u L7.
  apply prompt_skip; [once_prog|]. intros t8 [ok|e] L8; [|apply O; once_prog].
  apply prompt_read. intros s L9. fold C. apply (prompt_poll _ (clock s + C)); [apply forward_round_lone| |lia].
  intros t' Lt. apply forward_round_prompt. lia.
Qed.
End pace.
