(* ===== verification/HostProps.v ===== *)
(** * What the host guarantees under every interleaving

    Any number of threads run the host's methods: callers that forward calls, the event loop,
    connections and readers, workers of child calls, the route and the taps. *)

From S2P Require Import Prelude RustStd Json Wire Frame Envelope Dependency Handshake Guard Remote.
From S2P Require Import Identity Contexts Resources Deps Calls Journal Manifest Executor Prog Timed Debts.
From S2P Require Import KernelState KernelCalls KernelLifecycle KernelDispatch KernelActions KernelDemo.
From S2P Require Import HostState HostCalls HostStreams HostDeps HostConn HostInv HostBudget HostDemo HostTime.

(** ** Budgets *)

Section pool.
Context {E : Env} (to_string : Value → string) (from_str : bytes → result Value string) (sha256 : bytes → bytes).
Notation threads := (host_threads to_string from_str sha256).

Lemma threads_settled ops : Forall (Debts.settled host_counter host_ok []) (threads ops).
Proof.
  apply Forall_forall. intros p (wo & -> & _)%list_elem_of_fmap. unfold Debts.settled. apply even_hop.
Qed.

Lemma threads_balance ops h ps h' :
  rested h → rtc pool_step (threads ops, h) (ps, h') → balance host_counter host_ok (ps, h').
Proof.
  intros R X. eapply balance_pool; [apply advance_calm|exact X|].
  apply balance_start; [apply threads_settled|apply R|]. intros k. by apply rested_counter.
Qed.

(** C8: every charge of a session's budgets is given back. Whatever threads the host runs and
    however their critical sections interleave, once all of them have returned, every session has
    no outstanding bytes and no call in flight: calls that were answered, refused, cancelled, timed
    out or lost their session, events, relayed and injected chunks and child calls alike. A thread
    that froze the host has not returned. *)
Theorem budgets_return (ops : list (HWorld * HostOp)) (h h' : Host) ps :
  rested h →
  rtc pool_step (threads ops, h) (ps, h') →
  Forall (λ p, is_Some (outcome p)) ps → ho_frozen h' = false →
  rested h'.
Proof.
  intros R X D Fr. pose proof (threads_balance _ _ _ _ R X) as B.
  pose proof (balance_end _ _ _ _ B D) as Z. destruct B as (ls & _ & Hk & _). split; [done|].
  intros sid s Hs. split.
  - specialize (Z (true, sid)). by rewrite (counter_session _ _ _ _ Fr Hs) in Z.
  - specialize (Z (false, sid)). by rewrite (counter_session _ _ _ _ Fr Hs) in Z.
Qed.

(** C9: the bounds of a session hold at every moment of every interleaving: its outstanding bytes
    stay within its quota, at most 16 calls are in flight, at most 32 chunks are parked, at most
    1024 opens wait for their worker, an open stream never received more than its window, and at
    most 128 remote legs are bound. *)
Theorem session_bounds (ops : list (HWorld * HostOp)) (h h' : Host) ps sid s :
  rested h →
  rtc pool_step (threads ops, h) (ps, h') →
  session sid h' = Some s →
  (hs_send_used s ≤ hs_send_quota s)%N ∧ (hs_in_flight s ≤ 16)%N ∧ length (hs_parked s) ≤ 32 ∧
  size (dy_pending (hs_dep_sync s)) ≤ 1024 ∧
  (∀ id st, hs_streams s !! id = Some st → ss_ended st = false → (ss_received st ≤ 65536)%N) ∧
  size (rtable sid h') ≤ 128.
Proof.
  intros R X Hs. destruct (threads_balance _ _ _ _ R X) as (ls & _ & [S T] & _). cbn in S, T.
  destruct (S _ _ Hs) as [_ [U F P Y W]]. split_and!; [done..| |].
  - intros id st Hst En. destruct (W id st Hst) as [G Wd]. specialize (Wd En). by rewrite G in Wd.
  - unfold rtable. destruct (ho_rstreams h' !! sid) as [t|] eqn:Et; cbn; [|by rewrite map_size_empty; lia].
    apply (T sid t Et).
Qed.
End pool.

(** ** Waits end *)

Section waits.
Context {E : Env} (to_string : Value → string) (sha256 : bytes → bytes) (w : HWorld).

Lemma recv_timed rid d t : timed (λ t' r, r = TimedOut → (t + d ≤ t')%N) t (recv_timeout rid d).
Proof.
  unfold recv_timeout. apply timed_read. intros s L. split.
  - intros s1 L' _ s' Ls. cbn. unfold take_mail. by destruct (ho_mail s' !! rid) as [[|e l]|].
  - intros t' L' U. cbn. intros _. lia.
Qed.

Lemma leg_timed child d t : timed (λ t' r, r = LegTimedOut → (t + d ≤ t')%N) t (leg_recv child d).
Proof.
  unfold leg_recv. apply timed_read. intros s L. split.
  - intros s1 L' _ s' Ls. cbn. unfold take_leg. by destruct (ho_legs s' !! child) as [[[|x l] c]|].
  - intros t' L' U. cbn. intros _. lia.
Qed.

Definition round_ok {A} (D : N) (round : hprog (option A)) : Prop :=
  ∀ t, timed (λ t' r, r = None → (t < D)%N ∧ (N.min (t + CALL_POLL_MS) D ≤ t')%N) t round.

Lemma timed_some {A} (Q : N → option A → Prop) t (p : hprog (option A)) :
  timed (λ _ r, r ≠ None) t p → (∀ t' a, Q t' (Some a)) → timed Q t p.
Proof. intros T F. eapply timed_mono; [|exact T]. intros t' [a|] _ N; [apply F|done]. Qed.

(** A program that ends in [Ret (Some _)] on every path. *)
Ltac some_tac := repeat first
  [ apply timed_skip; intros ? ? _ | done | match goal with |- timed _ _ (match ?x with _ => _ end) => destruct x end ].

Lemma forward_round_ok req sid rid D : round_ok D (forward_round to_string w req sid rid D).
Proof.
  intros t. unfold forward_round. apply timed_skip. intros t1 [|] L1; [by some_tac|].
  apply timed_read. intros s L2. destruct (N.leb_spec D (clock s)) as [G|G]; [by some_tac|].
  apply timed_bind. eapply timed_mono; [|apply recv_timed]. intros t' r L3 H. cbn.
  destruct r; try done. specialize (H eq_refl). intros _. lia.
Qed.

Lemma local_round_ok job child p preq D : round_ok D (local_round to_string w job child p preq D).
Proof.
  intros t. unfold local_round. apply timed_skip. intros t1 [|] L1; [cbn [negb]|by some_tac].
  apply timed_skip. intros t2 st L2.
  assert (R : timed (λ t' r, r = None → (t < D)%N ∧ (N.min (t + CALL_POLL_MS) D ≤ t')%N) t2
    (let! now := read clock in
     if (D <=? now)%N then
       do! klift (dependency_timeout child);
       do! notify_cancel to_string w p child "deadline-exceeded";
       do! remove_pending preq;
       do! fail to_string w job "deadline-exceeded" "child deadline exceeded";
       do! kclose child;
       Ret (Some tt)
     else
       let! r := recv_timeout preq CALL_POLL_MS in
       match r with
       | Got env => do! remove_pending preq; do! local_terminal to_string w job child p env; Ret (Some tt)
       | TimedOut => Ret None
       | Disconnected =>
           do! remove_pending preq;
           do! give_up_with to_string w job child "outcome-unknown" "provider gone" "provider-gone";
           Ret (Some tt)
       end)).
  { apply timed_read. intros s L3. destruct (N.leb_spec D (clock s)) as [G|G]; [by some_tac|].
    apply timed_bind. eapply timed_mono; [|apply recv_timed]. intros t' r L4 H. cbn.
    destruct r; [by some_tac| |by some_tac]. specialize (H eq_refl). intros _. lia. }
  destruct st as [[]|]; try exact R; by some_tac.
Qed.

Lemma remote_round_ok job child peer op D : round_ok D (remote_round to_string w job child peer op D).
Proof.
  intros t. unfold remote_round. apply timed_skip. intros t1 [|] L1; [cbn [negb]|by some_tac].
  apply timed_skip. intros t2 st L2.
  assert (R : timed (λ t' r, r = None → (t < D)%N ∧ (N.min (t + CALL_POLL_MS) D ≤ t')%N) t2
    (let! now := read clock in
     if (D <=? now)%N then
       do! klift (dependency_timeout child);
       do! abandon_leg child peer op;
       do! fail to_string w job "deadline-exceeded" "child deadline exceeded";
       do! end_remote_streams_of peer op;
       do! done child;
       Ret (Some tt)
     else
       let! r := leg_recv child CALL_POLL_MS in
       match r with
       | LegGot t => do! remote_terminal to_string w job child peer t; Ret (Some tt)
       | LegTimedOut => Ret None
       | LegDisconnected =>
           do! fail to_string w job "outcome-unknown" "route worker lost";
           do! kcancel child "provider-gone";
           do! HostDeps.done child;
           Ret (Some tt)
       end)).
  { apply timed_read. intros s L3. destruct (N.leb_spec D (clock s)) as [G|G]; [by some_tac|].
    apply timed_bind. eapply timed_mono; [|apply leg_timed]. intros t' r L4 H. cbn.
    destruct r; [by some_tac| |by some_tac]. specialize (H eq_refl). intros _. lia. }
  destruct st as [[]|]; try exact R; by some_tac.
Qed.

Lemma poll_ok {A} span (round : hprog (option A)) D t :
  round_ok D round → (D ≤ t + span)%N → timed (λ _ r, r ≠ None) t (poll (rounds span CALL_POLL_MS) round).
Proof.
  intros R L. unfold rounds. apply (poll_returns _ D CALL_POLL_MS); [done|apply R|]. by apply rounds_enough.
Qed.

Lemma forward_call_timed req t : timed (λ _ r, r ≠ None) t (forward_call to_string w req).
Proof.
  unfold forward_call. apply timed_skip. intros t1 [|] L1; [done|]. apply timed_skip. intros t2 [sid|] L2; [|done].
  apply timed_skip. intros t3 [|] L3; [|done]. apply timed_skip. intros t4 [[|]|] L4; [|done..].
  apply timed_bind. eapply (timed_mono (λ _ r, r ≠ None)).
  { intros t5 r L5 N. apply timed_skip. by intros t6 u L6. }
  unfold forward_charged. apply timed_skip. intros t5 [|] L5; [|done]. cbn [negb].
  apply timed_bind. eapply (timed_mono (λ _ r, r ≠ None)).
  { intros t6 r L6 N. apply timed_skip. by intros t7 u L7. }
  unfold forward_exchange. apply timed_skip. intros t6 rid L6. apply timed_skip. intros t7 u L7.
  apply timed_skip. intros t8 [ok|e] L8; [|by some_tac]. apply timed_read. intros s L9.
  apply (poll_ok _ _ (clock s + N.max (fr_timeout_ms req) 1)); [apply forward_round_ok|lia].
Qed.

Lemma local_exchange_timed job child cap p t : timed (λ _ r, r ≠ None) t (local_exchange to_string w job child cap p).
Proof.
  unfold local_exchange. apply timed_skip. intros t1 D L1. apply timed_skip. intros t2 preq L2.
  apply timed_skip. intros t3 [|] L3; [cbn [negb]|by some_tac]. apply timed_read. intros s L4.
  apply timed_skip. intros t5 [ok|e] L5; [|by some_tac].
  apply (poll_ok _ _ D); [apply local_round_ok|]. rewrite saturating_sub_spec. lia.
Qed.

Lemma run_remote_timed job child peer t :
  timed (λ _ r, r ≠ None) t (run_dep_open_remote to_string sha256 w job child peer).
Proof.
  unfold run_dep_open_remote. apply timed_skip. intros t1 op L1. do 2 (apply timed_skip; intros ? ? ?).
  apply timed_skip. intros t2 [|] L2; [cbn [negb]|by some_tac]. apply timed_skip. intros t3 g L3.
  apply timed_skip. intros t4 D L4. apply timed_read. intros s L5. do 2 (apply timed_skip; intros ? ? ?).
  apply (poll_ok _ _ D); [apply remote_round_ok|]. rewrite saturating_sub_spec. lia.
Qed.

Lemma worker_timed t : timed (λ _ r, r ≠ None) t (worker to_string sha256 w).
Proof.
  unfold worker. apply timed_skip. intros t1 [job|] L1; [|done]. unfold run_dep_open.
  apply timed_skip. intros t2 [child|d] L2; [|by some_tac].
  apply timed_skip. intros t3 [[|]|] L3; [by some_tac| |by some_tac].
  apply timed_skip. intros t4 [|] L4; [cbn [negb]|by some_tac].
  apply timed_bind. eapply (timed_mono (λ _ r, r ≠ None)).
  { intros t6 [[]|] L6 N; [by some_tac|done|done]. }
  unfold dispatch_child. apply timed_skip. intros t5 u L5. apply timed_skip. intros t6 [peer|] L6.
  { apply timed_bind. eapply timed_mono; [|apply run_remote_timed]. by intros t7 [[]|] L7 N. }
  unfold run_local. apply timed_skip. intros t7 [r|] L7; [|by some_tac].
  apply timed_skip. intros t8 [psid|] L8; [|by some_tac]. apply timed_skip. intros t9 [|] L9; [cbn [negb]|by some_tac].
  apply timed_skip. intros t10 [[|]|] L10; [|by some_tac..].
  apply timed_bind. eapply (timed_mono (λ _ r, r ≠ None)).
  { intros t11 [[]|] L11 N; [by some_tac|done]. }
  apply local_exchange_timed.
Qed.


(** the worker of a child call ends: the wait for the provider or for the route ends at the
    deadline fixed at admission, within the rounds the model gives it. As long as the host is not
    frozen, the worker can come to its end on its own as time passes: it returns, or it is the one
    that freezes the host. *)
Theorem worker_ends ps ps' (h h' : Host) i :
  ps !! i = Some (worker to_string sha256 w) →
  rtc clocked_step (ps, h) (ps', h') →
  (∀ r, (ps' !! i ≫= outcome) = Some r → r ≠ None) ∧
  (ho_frozen h' = false → ∃ e h'', rtc clocked_step (ps', h') (<[i := Ret (Some e)]> ps', h'')).
Proof.
  intros Hp R. destruct (thread_returns host_clock_advance (λ r, r ≠ None) ps ps' h h' i _
    (later_worker to_string sha256 w) (worker_timed _) Hp R) as [P ([e|] & h'' & N & R')]; [|done].
  split; [exact P|]. eauto.
Qed.
End waits.

(** ** Concrete runs *)

Lemma budgets_return_witness : rested demo_end.2.
Proof.
  refine (budgets_return demo_to_string demo_from_str demo_sha ((λ o, (calm_world, o)) <$> demo_ops) demo_host
    demo_end.2 demo_end.1 (demo_rested _) _ _ _).
  - unfold demo_end. apply exec_rtc.
  - vm_compute. repeat constructor; eauto.
  - by vm_compute.
Defined.

Lemma session_bounds_witness : ∃ s, session "sess-1" demo_end.2 = Some s ∧ (hs_in_flight s ≤ 16)%N.
Proof.
  destruct (session "sess-1" demo_end.2) as [s|] eqn:Es; [|by vm_compute in Es]. exists s. split; [done|].
  refine (proj1 (proj2 (session_bounds demo_to_string demo_from_str demo_sha ((λ o, (calm_world, o)) <$> demo_ops)
    demo_host demo_end.2 demo_end.1 "sess-1" s (demo_rested _) _ Es))).
  unfold demo_end. apply exec_rtc.
Defined.

Definition demo_called_end := exec (repeat 0 12 ++ repeat 1 30 ++ repeat 0 30) (demo_calls, demo_host).

(** Half-way, with the request sent and no answer yet. *)
Definition demo_called_half := exec (repeat 0 12) (demo_calls, demo_host).


Definition demo_worked := exec (repeat 0 60 ++ repeat 1 30 ++ repeat 0 60) (demo_workers, demo_opened).

Lemma worker_ends_witness :
  (demo_worked.1 !! 0 ≫= outcome) = Some (Some JobDone) ∧
  ∃ e h'', rtc clocked_step (demo_worked.1, demo_worked.2) (<[0 := Ret (Some e)]> demo_worked.1, h'').
Proof.
  split; [by vm_compute|].
  refine (proj2 (worker_ends demo_to_string demo_sha calm_world demo_workers demo_worked.1 demo_opened
    demo_worked.2 0 eq_refl _) _); [|by vm_compute].
  unfold demo_worked. apply exec_clocked. by vm_compute.
Defined.

(** ** Runs that go wrong

    Concrete interleavings of the threads of the host in which a component gets what belongs to
    another, or loses what is its own. *)

(** ** An answer from the wrong component *)

Definition forged_threads : list (hprog (option ForwardOutcome)) :=
  [forward_call demo_to_string calm_world demo_forward;
   do! hop_prog demo_to_string demo_from_str demo_sha calm_world (HoRead "sess-2" 1024 [ReadData (framed "1")]);
   Ret None].

Definition forged_end := exec (repeat 0 12 ++ repeat 1 30 ++ repeat 0 30) (forged_threads, demo_host).

(** ** A stream with a hole *)

(** [app] has a remote leg, and its whole budget is taken while it sends the second chunk. *)
Definition leg_host : Host :=
  set_ho_transport true
    (set_ho_rstreams (<["sess-1" := {["remote/a" := new_remote_stream "peer" "op" 65536]}]> (ho_rstreams demo_host))
       demo_host).

Definition leg_threads : list (hprog unit) :=
  demo_threads [HoRead "sess-1" 1024 [ReadData (framed "6"); ReadData (framed "7"); ReadData (framed "8")];
                HoInject (mkInstanceRef 7 1 1 "app" 1) "s" 0 (of_chars (repeat (byte 120) 4096))].

Definition leg_end := exec (repeat 0 12 ++ repeat 1 4 ++ repeat 0 6 ++ repeat 1 20 ++ repeat 0 30) (leg_threads, leg_host).

(** ** Two sessions of one activation *)

Definition bare_host : Host := set_ho_next_id 10 (host_new open_policy demo_called).

Definition conn (reg : string) : HostOp := HoConn (mkConnIo (Some (chars "9")) (Some (chars reg)) true true).

Definition twin_threads : list (hprog unit) :=
  demo_threads [conn "10"; conn "11"; HoRead "sess-10" 1024 [ReadEof]].

Definition twin_bound := exec (repeat 0 9 ++ repeat 1 11 ++ repeat 0 6 ++ repeat 1 6) (twin_threads, bare_host).
Definition twin_end := exec (repeat 2 20) twin_bound.

(** The activation a session is bound to. *)
Definition bound_to (sid : string) (h : Host) : option (string * N * N) :=
  (λ s, (hs_logical s, hs_instance s, hs_generation s)) <$> session sid h.

(** A started window ignores every chunk but the next one. *)
Lemma stream_step_gap seq len st :
  es_ended st = false → es_next_seq st ≠ 0%N → seq ≠ es_next_seq st → stream_step seq len st = (OutIgnore, st).
Proof.
  intros En N0 Ne. unfold stream_step. rewrite En.
  by rewrite (proj2 (N.eqb_neq _ _) N0), (proj2 (N.eqb_neq _ _) Ne).
Qed.

(** ** What goes wrong *)

(** a component answers another component's call. A call is forwarded to the session of [app]
    and waits there; the session of [store], another component, sends a [call.result] with the
    request id of that call; the caller gets its output as the result of [app], which never
    answered. *)
Theorem forged_answer :
  ho_by_instance demo_host !! ("app", 1%N) = Some "sess-1" ∧ bound_to "sess-2" demo_host = Some ("store", 2%N, 1%N) ∧
  rtc pool_step (forged_threads, demo_host) (forged_end.1, forged_end.2) ∧
  (forged_end.1 !! 0 ≫= outcome) = Some (Some (FwOk (JString "forged"))) ∧
  (ho_sent forged_end.2).*1 = ["sess-1"].
Proof.
  split_and!; [by vm_compute..|unfold forged_end; apply exec_rtc|by vm_compute|by vm_compute].
Qed.

(** a remote stream loses its place. A component sends three chunks over a remote leg; the
    second one meets a session whose budget another thread holds and is dropped, but counted. The
    route is handed the first and the third, the leg stays open, and the window at the other end
    ignores the third and everything after it. *)
Theorem relay_gap :
  rtc pool_step (leg_threads, leg_host) (leg_end.1, leg_end.2) ∧
  ho_out leg_end.2 = [FxStreamData "peer" "op" "remote/a" 0 "ab"; FxStreamData "peer" "op" "remote/a" 2 "ef"] ∧
  (rs_ended <$> rtable "sess-1" leg_end.2 !! "remote/a") = Some false ∧
  let st := (stream_step 0 2 new_stream).2 in
  stream_step 2 2 st = (OutIgnore, st) ∧ (∀ seq len, (2 < seq)%N → stream_step seq len st = (OutIgnore, st)).
Proof.
  split_and!; [unfold leg_end; apply exec_rtc|by vm_compute..|]. cbn zeta. split; [by vm_compute|].
  intros seq len L. apply stream_step_gap; [by vm_compute|by vm_compute|]. intros ->. by vm_compute in L.
Qed.

(** one activation gets two sessions. Two connections that register for the same activation at
    the same time are both bound to it. When the first one closes, the second stays, and a call
    for the activation no longer finds it. *)
Theorem twin_sessions :
  rtc pool_step (twin_threads, bare_host) (twin_end.1, twin_end.2) ∧
  bound_to "sess-10" twin_bound.2 = Some ("app", 1%N, 1%N) ∧
  bound_to "sess-11" twin_bound.2 = Some ("app", 1%N, 1%N) ∧
  bound_to "sess-11" twin_end.2 = Some ("app", 1%N, 1%N) ∧
  (run (forward_call demo_to_string calm_world demo_forward) twin_end.2).1 = Some (no_session demo_forward).
Proof.
  split_and!; [|by vm_compute..]. rewrite <- surjective_pairing. unfold twin_end, twin_bound.
  etrans; apply exec_sound.
Qed.

(** ** A host that stops *)

(** The worker of a child call to [store], and the reader of [store] at the end of its stream. *)
Definition lost_threads : list (hprog (option JobEnd)) :=
  [worker demo_to_string demo_sha calm_world;
   do! hop_prog demo_to_string demo_from_str demo_sha calm_world (HoRead "sess-2" 1024 [ReadEof]);
   Ret None].

Definition lost_before := exec (repeat 0 29 ++ repeat 1 20) (lost_threads, demo_opened).
Definition lost_end := exec (repeat 0 4) lost_before.

(** the loss of a provider can freeze the host. A worker has found the session of the provider;
    the provider's connection ends before the worker takes the lock of the sessions again to enter
    the call. The worker then answers the consumer with that lock held, and answering takes the
    lock: the thread waits for itself, and every thread that needs the sessions waits with it. *)
Theorem provider_lost_deadlock :
  rtc pool_step (lost_threads, demo_opened) (lost_end.1, lost_end.2) ∧
  session "sess-2" lost_before.2 = None ∧ ho_frozen lost_before.2 = false ∧
  (lost_end.1 !! 0 ≫= outcome) = Some (Some JobDeadlock) ∧ ho_frozen lost_end.2 = true.
Proof.
  split_and!; [|by vm_compute..]. rewrite <- surjective_pairing. unfold lost_end, lost_before.
  etrans; apply exec_sound.
Qed.
