(* ===== verification/HostReader.v ===== *)
(** * The reader of a component, exactly

    The reader cuts the byte stream of a component into frames as chunks arrive. What the frames of
    a byte stream are is stated by the wire format alone: a frame is the four bytes of its length and
    its payload. [turns] is a reader that is told the frames of every read; [read_loop] is that
    reader for the frames of the stream, each handled as soon as it has arrived, however the stream
    was cut into chunks. It gives up when what it holds exceeds one maximal frame, even when every
    frame in it is legal. *)

From S2P Require Import Prelude RustStd Json Wire Frame Envelope Dependency Handshake Guard Remote.
From S2P Require Import Identity Contexts Resources Deps Calls Journal Manifest Prog Timed Debts.
From S2P Require Import KernelState HostState HostCalls HostStreams HostDeps HostConn.
From Stdlib Require Import Ascii.

(** ** The wire format *)

Definition frame_of (p : bytes) : bytes := to_be_bytes (blen p) ++ p.

Definition wire (fs : list bytes) : bytes := concat (frame_of <$> fs).

(** A payload that the negotiated limit and the four bytes of a length allow. *)
Definition fits (max_frame : N) (p : bytes) : Prop := (blen p ≤ max_frame)%N ∧ (blen p ≤ u32_max)%N.

(** Less than a header, or a proper prefix of a legal frame. *)
Definition incomplete (max_frame : N) (s : bytes) : Prop :=
  length s < 4 ∨ ∃ p more, fits max_frame p ∧ more ≠ [] ∧ frame_of p = s ++ more.

(** The frames of [s] are [fs], and [held] is what is left. *)
Definition parses (max_frame : N) (s : bytes) (fs : list bytes) (held : bytes) : Prop :=
  s = wire fs ++ held ∧ Forall (fits max_frame) fs ∧ incomplete max_frame held.

(** After the frames [fs], a length beyond the limit. *)
Definition overlong (max_frame : N) (s : bytes) (fs : list bytes) : Prop :=
  ∃ len rest, (max_frame < len ≤ u32_max)%N ∧ Forall (fits max_frame) fs ∧ s = wire fs ++ to_be_bytes len ++ rest.

(** The bytes that reads have brought. *)
Definition data (ev : ReadEvent) : bytes := match ev with ReadData c => c | _ => [] end.
Definition received (reads : list ReadEvent) : bytes := concat (data <$> reads).

Lemma length_be n : length (to_be_bytes n) = 4.
Proof. done. Qed.

Lemma wire_app fs gs : wire (fs ++ gs) = wire fs ++ wire gs.
Proof. unfold wire. by rewrite fmap_app, concat_app. Qed.

Lemma be_inj n m : (n ≤ u32_max)%N → (m ≤ u32_max)%N → to_be_bytes n = to_be_bytes m → n = m.
Proof.
  intros Ln Lm E. pose proof (be_bytes_roundtrip n Ln) as Rn. pose proof (be_bytes_roundtrip m Lm) as Rm.
  rewrite E in Rn. destruct (to_be_bytes m) as [|a [|b [|c [|d [|]]]]]; try done. by rewrite <- Rn, <- Rm.
Qed.

(** No frame begins with another. *)
Lemma frame_prefix max p q s t : fits max p → fits max q → frame_of p ++ s = frame_of q ++ t → p = q ∧ s = t.
Proof.
  intros [_ Lp] [_ Lq] E. unfold frame_of in E. rewrite <- !app_assoc in E.
  apply app_inj_1 in E as [E1 E2]; [|done]. apply be_inj in E1; [|done..].
  apply app_inj_1 in E2 as [-> ->]; [done|]. unfold blen in E1. lia.
Qed.

Lemma incomplete_frame max p s t : fits max p → incomplete max s → frame_of p ++ t = s → False.
Proof.
  intros Fp [L|(q & more & Fq & Nm & Eq)] E; subst s.
  - unfold frame_of in L. rewrite !length_app, length_be in L. lia.
  - rewrite <- app_assoc, <- (app_nil_r (frame_of q)) in Eq.
    apply (frame_prefix max) in Eq as [_ Eq]; [|done..]. symmetry in Eq. apply app_eq_nil in Eq. naive_solver.
Qed.

(** A byte stream has one list of frames. *)
Lemma parses_unique max s fs gs h k : parses max s fs h → parses max s gs k → fs = gs ∧ h = k.
Proof.
  intros (-> & Ff & If) (E & Fg & Ig). revert gs Fg E. induction Ff as [|p fs Fp Ff IH]; intros gs Fg E.
  - destruct Fg as [|q gs Fq Fg]; [done|]. exfalso. cbn in E. rewrite <- app_assoc in E.
    exact (incomplete_frame max q h _ Fq If (eq_sym E)).
  - destruct Fg as [|q gs Fq Fg].
    + exfalso. change (wire (p :: fs)) with (frame_of p ++ wire fs) in E. rewrite <- app_assoc in E.
      exact (incomplete_frame max p k _ Fp Ig E).
    + change (wire (p :: fs)) with (frame_of p ++ wire fs) in E.
      change (wire (q :: gs)) with (frame_of q ++ wire gs) in E. rewrite <- !app_assoc in E.
      apply (frame_prefix max) in E as [-> E]; [|done..]. destruct (IH gs Fg E) as [-> ->]. done.
Qed.

(** ** The frames of a buffer *)

Lemma split_spec max buf :
  match split_frame buf max with
  | Ok (Some (p, rest)) => buf = frame_of p ++ rest ∧ fits max p
  | Ok None => incomplete max buf
  | Err _ => overlong max buf []
  end.
Proof.
  unfold split_frame. destruct buf as [|a [|b [|c [|d buf]]]]; try (left; cbn; lia).
  pose proof (from_be_bytes_bound a b c d) as U. pose proof (be_bytes_from a b c d) as B.
  set (n := from_be_bytes a b c d) in *. clearbody n.
  destruct (N.ltb_spec max n) as [M|M].
  { exists n, buf. by rewrite B. }
  destruct (N.ltb_spec (blen buf) n) as [L|L].
  - right. set (q := buf ++ repeat (byte 0) (N.to_nat n - length buf)).
    assert (Q : blen q = n).
    { unfold q. rewrite blen_app. unfold blen in *. rewrite repeat_length. lia. }
    exists q, (repeat (byte 0) (N.to_nat n - length buf)). unfold fits, frame_of. rewrite Q, B. split_and!; [done..| |done].
    destruct (N.to_nat n - length buf) eqn:Z; [|done]. unfold blen in *. lia.
  - assert (Q : blen (take (N.to_nat n) buf) = n).
    { unfold blen in *. rewrite length_take. lia. }
    unfold fits, frame_of. rewrite Q, B. cbn. by rewrite take_drop.
Qed.

Lemma split_frames_spec max fuel buf fs held bad :
  length buf < fuel → split_frames fuel max buf = (fs, held, bad) →
  if bad then overlong max buf fs else parses max buf fs held.
Proof.
  revert buf fs. induction fuel as [|fuel IH]; intros buf fs L Hs; [lia|]. cbn in Hs. revert Hs.
  pose proof (split_spec max buf) as S. destruct (split_frame buf max) as [[[p rest]|]|e].
  - destruct S as [-> Fp]. destruct (split_frames fuel max rest) as [[fs1 held1] bad1] eqn:Er. intros [= <- <- <-].
    assert (Lr : length rest < fuel).
    { unfold frame_of in L. rewrite !length_app, length_be in L. lia. }
    specialize (IH _ _ Lr Er). destruct bad1.
    + destruct IH as (len & r & Hl & Ff & ->). exists len, r. split_and!; [apply Hl..|by constructor|].
      cbn. by rewrite <- !app_assoc.
    + destruct IH as (-> & Ff & Ih). split_and!; [|by constructor|done]. cbn. by rewrite <- !app_assoc.
  - intros [= <- <- <-]. by split_and!.
  - by intros [= <- <- <-].
Qed.

(** ** A reader that is told the frames *)

Section reader.
Context {E : Env} (to_string : Value → string) (from_str : bytes → result Value string) (sha256 : bytes → bytes)
  (w : HWorld).
Notation read_loop := (read_loop to_string from_str w).
Notation on_plugin_frame := (on_plugin_frame to_string from_str w).

(** One turn per read: the host is not shutting down, and the frames of the read are handled in
    order; the session is dropped after the [last] one. *)
Fixpoint turns (sid : string) (rounds : list (list bytes)) (last : option (list bytes)) : hprog unit :=
  let turn fs next :=
    let! down := read ho_shutdown in
    if down then drop_session sid else do! Prog.for_each fs (on_plugin_frame sid); next in
  match rounds, last with
  | [], None => Ret tt
  | [], Some fs => turn fs (drop_session sid)
  | fs :: rounds, _ => turn fs (turns sid rounds last)
  end.

(** More than one maximal frame, beyond the frames handled before the last read. *)
Definition burst (max_frame : N) (handled : list bytes) (s : bytes) : Prop :=
  (blen (wire handled) + (max_frame + 4) < blen s)%N.

(** What the reader makes of [reads] after the bytes [buf] is [rounds] and [last]. *)
Record reads_as (max_frame : N) (buf : bytes) (reads : list ReadEvent) (rounds : list (list bytes))
    (last : option (list bytes)) : Prop := {
  (** After each read, the frames handled so far are those of all the bytes so far. *)
  ra_frames : ∀ k, k ≤ length rounds →
    ∃ held, parses max_frame (buf ++ received (take k reads)) (concat (take k rounds)) held;
  (** It goes on after a read that brought nothing, or bytes within the limit. *)
  ra_goes_on : ∀ k, k < length rounds → ∃ ev, reads !! k = Some ev ∧
    match ev with
    | ReadData _ => ¬ burst max_frame (concat (take k rounds)) (buf ++ received (take (S k) reads))
    | ReadWouldBlock => True
    | ReadEof | ReadError => False
    end;
  (** It stops at the end of the stream, at an error, at too many bytes and at a length beyond the
      limit, with the frames before that length handled. *)
  ra_stops :
    match last with
    | None => length rounds = length reads
    | Some fs => ∃ ev, reads !! length rounds = Some ev ∧
        let seen := buf ++ received (take (S (length rounds)) reads) in
        match ev with
        | ReadEof | ReadError => fs = []
        | ReadWouldBlock => False
        | ReadData _ =>
            (burst max_frame (concat rounds) seen ∧ fs = []) ∨
            (¬ burst max_frame (concat rounds) seen ∧ overlong max_frame seen (concat rounds ++ fs))
        end
    end;
}.

Lemma parses_more max s t fs gs held held' :
  parses max s fs held → parses max (held ++ t) gs held' → parses max (s ++ t) (fs ++ gs) held'.
Proof.
  intros (-> & Ff & _) (E1 & Fg & I). split_and!; [|by apply Forall_app|done].
  by rewrite wire_app, <- !app_assoc, <- E1, app_assoc.
Qed.

(** One more read before the others. *)
Lemma reads_as_cons max buf ev reads fs held rounds last :
  parses max (buf ++ data ev) fs held → incomplete max buf →
  match ev with
  | ReadData c => ¬ burst max [] (buf ++ c)
  | ReadWouldBlock => True
  | ReadEof | ReadError => False
  end →
  reads_as max held reads rounds last → reads_as max buf (ev :: reads) (fs :: rounds) last.
Proof.
  intros P I G [R1 R2 R3]. destruct (P) as (Ep & Ff & _).
  assert (Rc : ∀ k, buf ++ received (take (S k) (ev :: reads)) = wire fs ++ (held ++ received (take k reads))).
  { intros k. unfold received. cbn. by rewrite app_assoc, Ep, <- app_assoc. }
  assert (B : ∀ hs s, burst max (fs ++ hs) (wire fs ++ s) ↔ burst max hs s).
  { intros hs s. unfold burst. rewrite wire_app, !blen_app. lia. }
  split.
  - intros [|k] L.
    + exists buf. cbn. rewrite app_nil_r. by split_and!.
    + destruct (R1 k) as (h & Hh); [cbn in L; lia|]. exists h. cbn [take concat].
      replace (buf ++ received (ev :: take k reads)) with ((buf ++ data ev) ++ received (take k reads)).
      * by eapply parses_more.
      * unfold received. cbn. by rewrite app_assoc.
  - intros [|k] L; [exists ev; split; [done|]|].
    + destruct ev; try done. unfold received. cbn. by rewrite app_nil_r.
    + destruct (R2 k) as (e & He & X); [cbn in L; lia|]. exists e. split; [done|]. cbn [take concat].
      change (ev :: take (S k) reads) with (take (S (S k)) (ev :: reads)). destruct e; try done.
      by rewrite Rc, B.
  - destruct last as [gs|]; [|cbn; lia]. destruct R3 as (e & He & X). exists e. split; [done|]. cbn zeta in *.
    cbn [length concat]. destruct e; try done. rewrite Rc, B, <- app_assoc. destruct X as [X|[X (len & r & Hl & Hf & Hs)]]; [by left|right].
    split; [done|]. exists len, r. split_and!; [apply Hl..| |].
    + by apply Forall_app.
    + by rewrite wire_app, <- app_assoc, <- Hs.
Qed.

Lemma reads_as_stop max buf ev reads fs :
  incomplete max buf →
  match ev with
  | ReadEof | ReadError => fs = []
  | ReadWouldBlock => False
  | ReadData c =>
      (burst max [] (buf ++ c) ∧ fs = []) ∨ (¬ burst max [] (buf ++ c) ∧ overlong max (buf ++ c) fs)
  end →
  reads_as max buf (ev :: reads) [] (Some fs).
Proof.
  intros I X. split.
  - intros k Hk. assert (k = 0) as -> by (cbn in Hk; lia). exists buf. cbn. rewrite app_nil_r. by split_and!.
  - intros k Hk. cbn in Hk. lia.
  - exists ev. split; [done|]. destruct ev; try done. unfold received. cbn. by rewrite app_nil_r.
Qed.

Lemma reader_from sid max_frame reads buf :
  incomplete max_frame buf →
  ∃ rounds last, read_loop sid max_frame reads buf = turns sid rounds last ∧ reads_as max_frame buf reads rounds last.
Proof.
  revert buf. induction reads as [|ev reads IH]; intros buf I.
  { exists [], None. split; [done|]. split; [|intros k Hk; cbn in Hk; lia|done].
    intros k Hk. assert (k = 0) as -> by (cbn in Hk; lia). exists buf. cbn. rewrite app_nil_r. by split_and!. }
  destruct ev as [c| | |]; cbn [HostConn.read_loop].
  - unfold read_chunk. destruct (N.ltb_spec (max_frame + 4) (blen (buf ++ c))) as [L|L].
    { exists [], (Some []). split; [done|]. apply reads_as_stop; [done|]. left. by split. }
    destruct (split_frames _ max_frame (buf ++ c)) as [[fs held] bad] eqn:Es.
    apply split_frames_spec in Es; [|lia].
    assert (B : ¬ burst max_frame [] (buf ++ c)) by (unfold burst; cbn; lia). destruct bad.
    + exists [], (Some fs). split; [done|]. apply reads_as_stop; [done|]. by right.
    + destruct (IH held) as (rounds & last & -> & R); [apply Es|]. exists (fs :: rounds), last. split; [done|].
      by eapply reads_as_cons.
  - exists [], (Some []). split; [done|]. by apply reads_as_stop.
  - destruct (IH buf I) as (rounds & last & -> & R). exists ([] :: rounds), last. split; [done|].
    eapply reads_as_cons; [|done..]. cbn. rewrite app_nil_r. by split_and!.
  - exists [], (Some []). split; [done|]. by apply reads_as_stop.
Qed.

(** C22: the read loop handles exactly the frames of the byte stream. For every answer of the socket,
    read by read, the loop is the reader that is told the frames of each read: after each read it has
    handled, in order, exactly the frames of all the bytes received so far, however they were cut
    into chunks. It goes on exactly as long as the bytes it holds do not exceed one maximal frame and
    no frame declares a length beyond the limit, and drops the session otherwise, at the end of the
    stream and at a read error. *)
Theorem reader_exact (sid : string) (max_frame : N) (reads : list ReadEvent) :
  ∃ rounds last,
    read_loop sid max_frame reads [] = turns sid rounds last ∧
    reads_as max_frame [] reads rounds last.
Proof. apply reader_from. left. cbn. lia. Qed.

(** Two frames of 600 bytes in one read. *)
Definition payload_600 : bytes := repeat (byte 32) 600.

(** legal frames end a session. With a negotiated limit of 1024 bytes per frame, two frames of
    600 bytes that arrive in one read are two legal frames of the stream, and the read loop gives
    up on them before handling either; in two reads it handles both. *)
Theorem legal_burst_refused sid :
  parses 1024 (wire [payload_600; payload_600]) [payload_600; payload_600] [] ∧
  read_loop sid 1024 [ReadData (wire [payload_600; payload_600])] [] = turns sid [] (Some []) ∧
  read_loop sid 1024 [ReadData (wire [payload_600]); ReadData (wire [payload_600])] [] =
    turns sid [[payload_600]; [payload_600]] None.
Proof.
  split; [|split].
  - split; [by vm_compute|]. split; [by repeat constructor; vm_compute|]. left. cbn. lia.
  - cbn [HostConn.read_loop]. by replace (read_chunk _ _ _) with ReadAbuse by by vm_compute.
  - cbn [HostConn.read_loop].
    by replace (read_chunk 1024 [] (wire [payload_600])) with (ReadMore [payload_600] []) by by vm_compute.
Qed.
End reader.
