(* ===== verification/HostIds.v ===== *)
(** * The identity of a remote operation

    Remote legs are deduplicated by their operation id. Two invocations have the same id only if
    they are the same invocation, unless the hash collides on what the host hashes for them. *)

From S2P Require Import Prelude RustStd Json Wire Frame Envelope Dependency Handshake Guard Remote.
From S2P Require Import Identity Contexts Resources Deps Calls Journal Manifest Prog Timed.
From S2P Require Import KernelState HostState HostDeps.
From Stdlib Require Import Ascii.

(** ** Encodings of fixed width *)

Lemma byte_inj n m : (n < 256)%N → (m < 256)%N → byte n = byte m → n = m.
Proof. intros Ln Lm E. rewrite <- (N_ascii_embedding n), <- (N_ascii_embedding m) by done. unfold byte in E. congruence. Qed.

Lemma base256_inj k n m :
  (n < 256 ^ N.of_nat k)%N → (m < 256 ^ N.of_nat k)%N →
  (∀ i : nat, i < k → (n / 256 ^ N.of_nat i mod 256 = m / 256 ^ N.of_nat i mod 256)%N) → n = m.
Proof.
  revert n m. induction k as [|k IH]; intros n m Ln Lm D; [cbn in *; lia|].
  assert (Q : (n / 256 = m / 256)%N).
  { rewrite Nat2N.inj_succ, N.pow_succ_r' in Ln, Lm. apply IH.
    - apply N.Div0.div_lt_upper_bound; lia.
    - apply N.Div0.div_lt_upper_bound; lia.
    - intros i Hi. specialize (D (S i) ltac:(lia)). rewrite Nat2N.inj_succ, N.pow_succ_r' in D.
      by rewrite !N.Div0.div_div. }
  specialize (D 0 ltac:(lia)). cbn [N.of_nat] in D. rewrite N.pow_0_r, !N.div_1_r in D.
  rewrite (N.div_mod' n 256), (N.div_mod' m 256). congruence.
Qed.

Lemma be_bytes64_inj n m : (n ≤ u64_max)%N → (m ≤ u64_max)%N → be_bytes64 n = be_bytes64 m → n = m.
Proof.
  unfold u64_max. intros Ln Lm E. apply (base256_inj 8); [lia..|]. intros i Hi.
  assert (B : ∀ x, (x mod 256 < 256)%N) by (intros x; apply N.mod_lt; lia).
  injection E as E7 E6 E5 E4 E3 E2 E1 E0. apply byte_inj in E0, E1, E2, E3, E4, E5, E6, E7; try apply B.
  do 8 (destruct i as [|i]; [assumption|]). lia.
Qed.

Lemma hex_digit_inj n m : (n < 16)%N → (m < 16)%N → hex_digit n = hex_digit m → n = m.
Proof.
  intros Ln Lm E. unfold hex_digit in E.
  apply byte_inj in E; [|case (N.ltb_spec n 10); lia|case (N.ltb_spec m 10); lia].
  destruct (N.ltb_spec n 10), (N.ltb_spec m 10); lia.
Qed.

Lemma hex_inj a b : hex a = hex b → a = b.
Proof.
  revert b. induction a as [|x a IH]; intros [|y b]; try done. unfold hex. cbn. intros [= E1 E2 E3].
  assert (Bx := N_ascii_bounded x). assert (By := N_ascii_bounded y).
  apply hex_digit_inj in E1; [|apply N.Div0.div_lt_upper_bound; lia..].
  apply hex_digit_inj in E2; [|apply N.mod_lt; lia..].
  assert (N_of_ascii x = N_of_ascii y) as E by (rewrite (N.div_mod' (N_of_ascii x) 16), (N.div_mod' (N_of_ascii y) 16); congruence).
  f_equal; [|by apply IH]. by rewrite <- (ascii_N_embedding x), <- (ascii_N_embedding y), E.
Qed.

Lemma hex_length a : length (hex a) = 2 * length a.
Proof. induction a as [|x a IH]; [done|]. unfold hex in *. cbn. rewrite IH. lia. Qed.

(** No hexadecimal digit is a colon. *)
Lemma hex_no_colon a : (":"%char : ascii) ∉ hex a.
Proof.
  induction a as [|x a IH]; [by apply not_elem_of_nil|]. unfold hex. cbn.
  rewrite !not_elem_of_cons. fold (hex a).
  assert (D : ∀ n, (n < 16)%N → (":"%char : ascii) ≠ hex_digit n).
  { intros n Ln E. change (byte 58 = hex_digit n) in E. unfold hex_digit in E.
    apply byte_inj in E; [|done|case (N.ltb_spec n 10); lia]. destruct (N.ltb_spec n 10); lia. }
  split_and!; [apply D, N.Div0.div_lt_upper_bound; [pose proof (N_ascii_bounded x); lia]|apply D, N.mod_lt; lia|exact IH].
Qed.

(** ** Fields separated by a byte they do not contain *)

Lemma sep_inj {A} (x : A) l1 l2 r1 r2 : x ∉ l1 → x ∉ l2 → l1 ++ x :: r1 = l2 ++ x :: r2 → l1 = l2 ∧ r1 = r2.
Proof.
  revert l2. induction l1 as [|a l1 IH]; intros [|b l2]; cbn; rewrite ?not_elem_of_cons.
  - by intros _ _ [= ->].
  - by intros _ [N _] [= <- _].
  - by intros [N _] _ [= -> _].
  - intros [_ N1] [_ N2] [= -> E]. destruct (IH l2 N1 N2 E) as [-> ->]. done.
Qed.

Lemma sep_inj_last {A} (x : A) l1 l2 r1 r2 : x ∉ r1 → x ∉ r2 → l1 ++ x :: r1 = l2 ++ x :: r2 → l1 = l2 ∧ r1 = r2.
Proof.
  intros N1 N2 E. apply (f_equal reverse) in E. rewrite !reverse_app, !reverse_cons, <- !app_assoc in E. cbn in E.
  apply sep_inj in E as [E1 E2]; [|by rewrite elem_of_reverse..]. by apply (inj reverse) in E1, E2.
Qed.

(** ** Ids *)

Section ids.
Context (to_string : Value → string) (sha256 : bytes → bytes).

(** A digest has 32 bytes; a printed JSON value escapes control characters. *)
Hypothesis sha256_length : ∀ b, length (sha256 b) = 32.
Hypothesis to_string_printable : ∀ v, byte 0 ∉ chars (to_string v).

(** What makes two invocations one. *)
Record same_invocation (e1 : N) (j1 : DepJob) (e2 : N) (j2 : DepJob) : Prop := {
  si_epoch : e1 = e2;
  si_logical : dj_consumer_logical j1 = dj_consumer_logical j2;
  si_instance : dj_cinstance j1 = dj_cinstance j2;
  si_generation : dj_cgeneration j1 = dj_cgeneration j2;
  si_parent : dj_parent j1 = dj_parent j2;
  si_binding : dj_binding j1 = dj_binding j2;
  si_request : dj_request_id j1 = dj_request_id j2;
  si_input : to_string (dj_input j1) = to_string (dj_input j2);
}.

(** The numbers are of 64 bits, and the names the host checked hold no NUL. *)
Record job_fits (e : N) (j : DepJob) : Prop := {
  jf_epoch : (e ≤ u64_max)%N;
  jf_instance : (dj_cinstance j ≤ u64_max)%N;
  jf_generation : (dj_cgeneration j ≤ u64_max)%N;
  jf_parent : (dj_parent j ≤ u64_max)%N;
  jf_logical : byte 0 ∉ chars (dj_consumer_logical j);
  jf_binding : byte 0 ∉ chars (dj_binding j);
}.

Lemma chars_inj (a b : string) : chars a = chars b → a = b.
Proof. intros E. by rewrite <- (of_chars_chars a), <- (of_chars_chars b), E. Qed.

Lemma preimage_inj e1 j1 e2 j2 :
  job_fits e1 j1 → job_fits e2 j2 → preimage to_string e1 j1 = preimage to_string e2 j2 →
  same_invocation e1 j1 e2 j2.
Proof.
  intros [] [] E. unfold preimage, nul in E.
  apply app_inj_1 in E as [Ee E]; [|unfold epoch_hex; by rewrite !hex_length].
  apply (f_equal List.tl) in E. cbn [app List.tl] in E.
  apply sep_inj in E as [El E]; [|done..].
  apply app_inj_1 in E as [Ei E]; [|done]. apply app_inj_1 in E as [Eg E]; [|done].
  apply app_inj_1 in E as [Ep E]; [|done].
  apply sep_inj in E as [Eb E]; [|done..]. apply sep_inj_last in E as [Er Ei']; [|apply to_string_printable..].
  split; try (by apply chars_inj); try (by apply be_bytes64_inj). by apply be_bytes64_inj, hex_inj.
Qed.

Lemma full_digest d1 e1 j1 d2 e2 j2 :
  full_id to_string sha256 d1 e1 j1 = full_id to_string sha256 d2 e2 j2 →
  sha256 (preimage to_string e1 j1) = sha256 (preimage to_string e2 j2).
Proof.
  unfold full_id. rewrite !app_assoc. intros E. apply app_inj_2 in E as [_ E]; [by apply hex_inj|].
  by rewrite !hex_length, !sha256_length.
Qed.

(** A digest id never equals an id that fits. *)
Lemma full_not_digest d e j b : full_id to_string sha256 d e j ≠ chars "op-" ++ hex (sha256 b).
Proof.
  intros E. assert (C : (":"%char : ascii) ∈ full_id to_string sha256 d e j).
  { unfold full_id, colon. apply elem_of_app. right. apply elem_of_app. left. by left. }
  rewrite E, elem_of_app in C. destruct C as [C|C]; [|by apply hex_no_colon in C].
  by repeat (apply elem_of_cons in C as [C|C]; [done|]); apply not_elem_of_nil in C.
Qed.

(** C20: the operation id identifies the invocation. If two invocations of a host get the same id,
    then they agree on the boot epoch, the consumer's activation, the parent ticket, the binding,
    the request id and the printed input, or the hash collides on the two preimages or on the two
    ids the host computed for them. *)
Theorem operation_id_faithful (domain : string) e1 j1 e2 j2 :
  job_fits e1 j1 → job_fits e2 j2 →
  remote_operation_id to_string sha256 domain e1 j1 = remote_operation_id to_string sha256 domain e2 j2 →
  same_invocation e1 j1 e2 j2 ∨
  (preimage to_string e1 j1 ≠ preimage to_string e2 j2 ∧
   sha256 (preimage to_string e1 j1) = sha256 (preimage to_string e2 j2)) ∨
  (full_id to_string sha256 domain e1 j1 ≠ full_id to_string sha256 domain e2 j2 ∧
   sha256 (full_id to_string sha256 domain e1 j1) = sha256 (full_id to_string sha256 domain e2 j2)).
Proof.
  intros F1 F2 E.
  assert (G : full_id to_string sha256 domain e1 j1 = full_id to_string sha256 domain e2 j2 →
    same_invocation e1 j1 e2 j2 ∨
    (preimage to_string e1 j1 ≠ preimage to_string e2 j2 ∧
     sha256 (preimage to_string e1 j1) = sha256 (preimage to_string e2 j2))).
  { intros Ef. destruct (decide (preimage to_string e1 j1 = preimage to_string e2 j2)) as [Ep|Np].
    - left. by apply preimage_inj.
    - right. split; [done|]. by eapply full_digest. }
  unfold remote_operation_id in E.
  destruct (_ <=? _)%N; destruct (_ <=? _)%N; apply (f_equal String.list_ascii_of_string) in E;
    rewrite !chars_of_chars in E.
  - destruct (G E); auto.
  - by apply full_not_digest in E.
  - by symmetry in E; apply full_not_digest in E.
  - apply (inj (app _)), hex_inj in E.
    destruct (decide (full_id to_string sha256 domain e1 j1 = full_id to_string sha256 domain e2 j2)) as [Ef|Nf];
      [destruct (G Ef); auto|auto].
Qed.
End ids.

(** ** A concrete pair *)

(** Fixed-width stand-ins for the parameters. *)
Definition toy_sha (b : bytes) : bytes := replicate 31 (byte 0) ++ [byte (blen b mod 256)].
Definition toy_print (v : Value) : string := "1".

Definition demo_job (rid : string) : DepJob := mkDepJob "sess-1" "app" 1 1 rid "bind-1" 1 500 (j_u64 1).

Lemma operation_id_faithful_witness :
  remote_operation_id toy_print toy_sha "home" 7 (demo_job "open-1") =
    remote_operation_id toy_print toy_sha "home" 7 (demo_job "open-1") ∧
  remote_operation_id toy_print toy_sha "home" 7 (demo_job "open-1") ≠
    remote_operation_id toy_print toy_sha "home" 7 (demo_job "open-2") ∧
  (same_invocation toy_print 7 (demo_job "open-1") 7 (demo_job "open-1") ∨ False).
Proof.
  assert (F : job_fits 7 (demo_job "open-1")) by (split; [done..|by apply (bool_decide_unpack _)|by apply (bool_decide_unpack _)]).
  split; [done|]. split; [by vm_compute|].
  destruct (operation_id_faithful toy_print toy_sha) with (domain := "home") (e1 := 7%N) (e2 := 7%N)
    (j1 := demo_job "open-1") (j2 := demo_job "open-1") as [S|[[N _]|[N _]]]; [| |exact F|exact F|done|by left|done|done].
  - intros b. unfold toy_sha. by rewrite length_app, length_replicate.
  - intros v. by apply (bool_decide_unpack _).
Defined.
