(* ===== verification/HostStreamProps.v ===== *)
(** * Streams of the host

    What the consumer of a stream sees: the chunks the window accepts, in order and without gaps,
    within the window. A window that was exceeded can be reopened by the component, and a remote
    leg loses its place when the session's budget is short. *)

From S2P Require Import Prelude RustStd Json Wire Frame Envelope Dependency Handshake Guard Remote.
From S2P Require Import Identity Contexts Resources Deps Calls Journal Manifest Executor Prog Timed.
From S2P Require Import KernelState KernelCalls KernelLifecycle KernelDispatch KernelActions KernelDemo.
From S2P Require Import HostState HostCalls HostStreams HostDeps HostConn HostDemo.

(** ** The window *)

Definition Chunk : Type := N * string.

Definition chunk_of (env : Envelope) : option Chunk :=
  seq ← stream_seq env; Some (seq, stream_payload env).

Fixpoint total_bytes (l : list Chunk) : N :=
  match l with [] => 0 | c :: l => str_len c.2 + total_bytes l end.

(** The chunks a window in state [st] accepts. *)
Fixpoint window_accepts (l : list Chunk) (st : StreamState) : list Chunk :=
  match l with
  | [] => []
  | c :: l =>
      match stream_account c.1 (str_len c.2) st with
      | (Some (_, false, _, _), st') => c :: window_accepts l st'
      | (_, st') => window_accepts l st'
      end
  end.

(** Chunks numbered from [n] without gaps. *)
Fixpoint numbered (n : N) (l : list Chunk) : Prop :=
  match l with
  | [] => True
  | c :: l => c.1 = n ∧ numbered (n + 1) l
  end.

Lemma account_cases seq len st :
  (stream_account seq len st = (None, st) ∧ (ss_ended st = true ∨ seq ≠ ss_next_seq st)) ∨
  (ss_ended st = false ∧ seq = ss_next_seq st ∧
   let over := (ss_granted st <? ss_received st + len)%N in
   stream_account seq len st =
     (Some ((ss_next_seq st =? 0)%N, over, ss_received st + len, ss_granted st)%N,
      mkStreamState (ss_next_seq st + 1) (ss_granted st) (ss_received st + len) over)).
Proof.
  unfold stream_account. destruct (ss_ended st) eqn:En; [left; auto|].
  destruct (N.eqb_spec seq (ss_next_seq st)) as [->|Ne]; cbn [negb]; [right; done|left; auto].
Qed.

Lemma window_accepts_ended l st : ss_ended st = true → window_accepts l st = [].
Proof.
  intros En. induction l as [|c l IH]; [done|]. cbn. unfold stream_account. by rewrite En.
Qed.

Lemma window_accepts_window l st :
  (ss_received st ≤ ss_granted st)%N →
  numbered (ss_next_seq st) (window_accepts l st) ∧
  (ss_received st + total_bytes (window_accepts l st) ≤ ss_granted st)%N ∧ window_accepts l st `sublist_of` l.
Proof.
  revert st. induction l as [|c l IH]; intros st L; cbn; [split_and!; [done|lia|constructor]|].
  destruct (account_cases c.1 (str_len c.2) st) as [[-> _]|(En & Es & ->)].
  { destruct (IH st L) as (N & T & S). split_and!; [done..|]. by constructor. }
  destruct (N.ltb_spec (ss_granted st) (ss_received st + str_len c.2)) as [O|O].
  - rewrite window_accepts_ended by done. cbn. split_and!; [done|lia|]. apply sublist_cons, sublist_nil_l.
  - destruct (IH (mkStreamState (ss_next_seq st + 1) (ss_granted st) (ss_received st + str_len c.2) false) O)
      as (N & T & S). cbn in N, T. cbn. split_and!; [done|done|lia|]. by constructor.
Qed.

(** Nothing that fits is dropped. *)
Lemma window_accepts_all l st :
  ss_ended st = false → numbered (ss_next_seq st) l → (ss_received st + total_bytes l ≤ ss_granted st)%N →
  window_accepts l st = l.
Proof.
  revert st. induction l as [|c l IH]; intros st En Nu T; [done|]. destruct Nu as [Ec Nu]. cbn in T |- *.
  destruct (account_cases c.1 (str_len c.2) st) as [[_ [Ed|Nd]]|(_ & _ & ->)]; [congruence..|].
  destruct (N.ltb_spec (ss_granted st) (ss_received st + str_len c.2)); [lia|]. f_equal.
  apply IH; cbn; [done|done|lia].
Qed.

(** ** What the tap sees *)

Section tap.
Context {E : Env} (to_string : Value → string) (w : HWorld).

(** A frame sent to a component leaves the sessions, the tap and its record alone. *)
Definition quiet (h h' : Host) : Prop :=
  ho_sessions h' = ho_sessions h ∧ ho_out h' = ho_out h ∧ ho_taps h' = ho_taps h.

#[export] Instance quiet_refl : Reflexive quiet.
Proof. by split. Qed.
#[export] Instance quiet_trans : Transitive quiet.
Proof. intros a b c (A & B & C) (A' & B' & C'). split_and!; congruence. Qed.

Lemma notify_quiet ty sid body h : quiet h (run (notify to_string w ty sid body) h).2.
Proof.
  apply (always_run quiet); [apply _..|]. unfold notify. apply always_bind; [by apply always_read|].
  intros [s|]; [|done]. apply always_bind; [by apply always_one|]. intros msg. unfold post.
  destruct (negb _); [done|]. apply always_bind; [by apply always_read|]. intros [|]; [|done].
  apply always_bind; [|done]. apply always_one. intros h'. by destruct (hw_write w sid _).
Qed.

Definition window_of (id : string) (s : HSession) : StreamState := default new_stream_state (hs_streams s !! id).

Definition to_tap (sid id : string) (l : list Chunk) : list Effect := (λ c, FxStreamTap sid id c.1 c.2) <$> l.

(** The session after a chunk. *)
Definition accounted (id : string) (st : StreamState) (s : HSession) : HSession :=
  set_hs_streams (<[id := st]> (hs_streams s)) s.

Lemma window_accounted id st s : window_of id (accounted id st s) = st.
Proof. unfold window_of. cbn. by rewrite lookup_insert_eq. Qed.

Definition with_session (sid : string) (s : HSession) (h : Host) : Host :=
  set_ho_sessions (<[sid := s]> (ho_sessions h)) h.

Lemma entry_run sid id seq len h s :
  session sid h = Some s →
  run (act (on_session sid None (stream_entry id seq len))) h =
  ((stream_account seq len (window_of id s)).1,
   with_session sid (accounted id (stream_account seq len (window_of id s)).2 s) h).
Proof.
  intros Hs. rewrite run_act. unfold on_session. rewrite Hs. unfold stream_entry. fold (window_of id s).
  by destruct (stream_account seq len (window_of id s)).
Qed.

Lemma quiet_if (b : bool) (p : hprog unit) h :
  quiet h (run p h).2 → quiet h (run (if b then p else Ret tt) h).2.
Proof. by destruct b. Qed.

(** What follows the accounting of a chunk. *)
Lemma after_entry_run sid env id h s seq fresh over received granted :
  session sid h = Some s → (ho_taps h).2 = true →
  let h' := (run (
    do! (if fresh : bool then send_stream_credit to_string w sid id STREAM_INITIAL_GRANT else Ret tt);
    do! (if over : bool then end_stream to_string w sid id "error" received granted else Ret tt);
    if negb over then
      let! tap := read (λ h, (ho_taps h).2) in
      if tap then effect (FxStreamTap sid id seq (stream_payload env)) else Ret tt
    else Ret tt) h).2 in
  session sid h' = Some s ∧ (ho_taps h').2 = true ∧
  ho_out h' = ho_out h ++ if over then [] else to_tap sid id [(seq, stream_payload env)].
Proof.
  intros Hs Ht. cbn zeta. rewrite !run_bind.
  pose proof (quiet_if fresh _ h (notify_quiet "stream.credit" sid
    (obj [("stream_id", JString id); ("bytes", j_u64 STREAM_INITIAL_GRANT)]) h)) as G1.
  unfold send_stream_credit. destruct (run (if fresh then _ else _) h) as [u1 h1]. cbn [snd] in G1.
  rewrite run_bind.
  assert (G2 : quiet h1 (run (if over then end_stream to_string w sid id "error" received granted else Ret tt) h1).2).
  { apply quiet_if, notify_quiet. }
  destruct (run (if over then _ else _) h1) as [u2 h2]. cbn [snd] in G2.
  destruct (quiet_trans _ _ _ G1 G2) as (Gs & Go & Gt).
  assert (Hs2 : session sid h2 = Some s) by (unfold session; by rewrite Gs).
  destruct over; cbn [negb].
  - change (run (Ret tt) h2) with (tt, h2). cbn. split_and!; [done|by rewrite Gt|by rewrite Go, app_nil_r].
  - rewrite run_bind, run_read, Gt, Ht. unfold effect. rewrite run_modify. cbn.
    split_and!; [done|by rewrite Gt|by rewrite Go].
Qed.

(** One chunk. *)
Lemma local_data_run sid env id h s :
  session sid h = Some s → (ho_taps h).2 = true →
  let h' := (run (on_local_data to_string w sid env id) h).2 in
  ∃ s', session sid h' = Some s' ∧ (ho_taps h').2 = true ∧
    (∀ rest, ho_out h' ++ to_tap sid id (window_accepts rest (window_of id s')) =
             ho_out h ++ to_tap sid id (window_accepts (match chunk_of env with Some c => c :: rest | None => rest end) (window_of id s))).
Proof.
  intros Hs Ht. unfold on_local_data, chunk_of. destruct (stream_seq env) as [seq|] eqn:Eq; [|by exists s].
  cbn zeta. rewrite run_bind, (entry_run _ _ _ _ _ _ Hs). cbn [mbind option_bind].
  set (len := str_len (stream_payload env)).
  destruct (account_cases seq len (window_of id s)) as [[Ea _]|(En & Eseq & Ea)]; rewrite Ea; cbn [fst snd].
  - rewrite run_ret. exists (accounted id (window_of id s) s). split; [apply lookup_insert_eq|].
    split; [done|]. intros rest. cbn [window_accepts fst snd]. fold len. by rewrite Ea, window_accounted.
  - set (over := (ss_granted (window_of id s) <? ss_received (window_of id s) + len)%N) in *.
    set (st' := mkStreamState _ _ _ _).
    destruct (after_entry_run sid env id (with_session sid (accounted id st' s) h) (accounted id st' s) seq
      (ss_next_seq (window_of id s) =? 0)%N over (ss_received (window_of id s) + len) (ss_granted (window_of id s)))
      as (Hs' & Ht' & Ho); [apply lookup_insert_eq|done|].
    eexists. split; [exact Hs'|]. split; [exact Ht'|]. intros rest. rewrite window_accounted.
    etrans; [apply (f_equal (λ x, x ++ _)), Ho|]. cbn [ho_out with_session set_ho_sessions].
    rewrite <- app_assoc. cbn [window_accepts fst snd]. fold len. rewrite Ea. by destruct over.
Qed.

Lemma local_data_runs sid id envs h s :
  session sid h = Some s → (ho_taps h).2 = true →
  ho_out (run (Prog.for_each envs (λ env, on_local_data to_string w sid env id)) h).2 =
  ho_out h ++ to_tap sid id (window_accepts (omap chunk_of envs) (window_of id s)).
Proof.
  revert h s. induction envs as [|env envs IH]; intros h s Hs Ht; [by rewrite app_nil_r|].
  cbn [Prog.for_each]. rewrite run_bind. destruct (local_data_run sid env id h s Hs Ht) as (s' & Hs' & Ht' & Eq).
  destruct (run (on_local_data to_string w sid env id) h) as [u h1]. cbn [snd] in *.
  by rewrite (IH h1 s' Hs' Ht'), Eq.
Qed.

(** C21: the tap sees the stream. For the chunks a component sends on a stream, in whatever order
    and with whatever numbers, the tap is handed chunks numbered from 0 without gaps or repeats,
    at most 65536 bytes of them, in the order they arrived; and when the chunks are numbered from 0
    and fit the window, it is handed all of them. *)
Theorem stream_tap_exact sid id envs h s :
  session sid h = Some s → (ho_taps h).2 = true → hs_streams s !! id = None →
  let h' := (run (Prog.for_each envs (λ env, on_local_data to_string w sid env id)) h).2 in
  let chunks := omap chunk_of envs in
  ∃ l, ho_out h' = ho_out h ++ to_tap sid id l ∧ numbered 0 l ∧ (total_bytes l ≤ 65536)%N ∧
    l `sublist_of` chunks ∧ (numbered 0 chunks → (total_bytes chunks ≤ 65536)%N → l = chunks).
Proof.
  intros Hs Ht Hn. exists (window_accepts (omap chunk_of envs) new_stream_state).
  pose proof (local_data_runs sid id envs h s Hs Ht) as R. unfold window_of in R. rewrite Hn in R.
  destruct (window_accepts_window (omap chunk_of envs) new_stream_state) as (N & T & S); [done|].
  split; [exact R|]. split_and!; [done|done|done|]. intros Nu Fit. by apply window_accepts_all.
Qed.
End tap.

(** ** A window that was exceeded *)

Section tombstone.
Context {E : Env} (to_string : Value → string) (w : HWorld).

Lemma on_rtable_same {X} sid (x : X) h : on_rtable sid (λ t, (x, t)) h = (x, h).
Proof.
  unfold on_rtable, rtable. cbn. f_equal.
  assert (Eq : alter (λ _ : gmap string RemoteStream, default ∅ (ho_rstreams h !! sid)) sid (ho_rstreams h) = ho_rstreams h).
  { apply map_eq. intros i. destruct (decide (sid = i)) as [<-|Ne].
    - rewrite lookup_alter_eq. by destruct (ho_rstreams h !! sid).
    - by rewrite lookup_alter_ne. }
  rewrite Eq. by destruct h.
Qed.

(** A frame of a stream that belongs to no remote leg. *)
Lemma stream_frame_local sid env id h s :
  session sid h = Some s → get_str "stream_id" (env_body env) = Some id →
  id ≠ "" → (str_len id ≤ 256)%N → is_call_stream_id id = false → rtable sid h !! id = None →
  run (on_stream_frame to_string w sid env) h = run (on_local_stream to_string w sid env id) h.
Proof.
  intros Hs Hid Ne Le Nc Hr. unfold on_stream_frame. rewrite Hid.
  change (default "" (Some id)) with id. cbn zeta.
  assert (Em : str_is_empty id || (256 <? str_len id)%N = false).
  { apply orb_false_iff. split; [by destruct id|]. by apply N.ltb_ge. }
  rewrite Em, run_bind.
  assert (R : run (relay_stream_frame to_string w sid env id) h = (false, h)).
  { unfold relay_stream_frame. rewrite run_bind, run_read, Hs. cbn [is_some negb]. rewrite run_bind, run_act.
    replace (on_rtable sid (relay_decide env id) h) with (on_rtable sid (λ t, (RelayUnclaimed, t)) h).
    { by rewrite on_rtable_same. }
    unfold on_rtable. unfold relay_decide. by rewrite Hr. }
  rewrite R, Nc, !andb_false_r. done.
Qed.

Lemma local_end_run sid env id h s :
  session sid h = Some s → env_ty env = "stream.end" →
  let h' := (run (on_local_stream to_string w sid env id) h).2 in
  ∃ s', session sid h' = Some s' ∧ hs_streams s' !! id = None ∧
    ho_out h' = ho_out h ∧ ho_taps h' = ho_taps h ∧ ho_rstreams h' = ho_rstreams h.
Proof.
  intros Hs Ty. set (s1 := set_hs_streams (delete id (hs_streams s)) s).
  set (s2 := set_hs_parked (List.filter (λ p, negb (parked_for id p)) (hs_parked s1)) s1).
  assert (R : run (on_local_stream to_string w sid env id) h = (tt, with_session sid s2 (with_session sid s1 h))).
  { unfold on_local_stream. rewrite Ty. rewrite bool_decide_false by done. rewrite bool_decide_true by done.
    unfold clear_parked, upd_session. rewrite run_bind, run_act. unfold on_session at 1. rewrite Hs.
    cbn beta iota. rewrite run_act. unfold on_session. fold s1. change (set_ho_sessions _ h) with (with_session sid s1 h).
    assert (Hs1 : session sid (with_session sid s1 h) = Some s1) by apply lookup_insert_eq. by rewrite Hs1. }
  rewrite R. exists s2. split; [apply lookup_insert_eq|]. split; [apply lookup_delete_eq|done].
Qed.

(** a stream ended for exceeding its window is reopened by its component. While the tombstone
    of a stream is there, a first chunk sent again is not handed to the tap; once the component
    has sent its own [stream.end], the same chunk starts the stream over with a fresh window. *)
Theorem tombstone_forgotten sid id h s st fin data :
  session sid h = Some s → (ho_taps h).2 = true →
  id ≠ "" → (str_len id ≤ 256)%N → is_call_stream_id id = false → rtable sid h !! id = None →
  hs_streams s !! id = Some st → ss_ended st = true →
  env_ty fin = "stream.end" → get_str "stream_id" (env_body fin) = Some id →
  env_ty data = "stream.data" → get_str "stream_id" (env_body data) = Some id →
  stream_seq data = Some 0%N → (str_len (stream_payload data) ≤ 65536)%N →
  ho_out (run (on_stream_frame to_string w sid data) h).2 = ho_out h ∧
  ho_out (run (do! on_stream_frame to_string w sid fin; on_stream_frame to_string w sid data) h).2 =
    ho_out h ++ [FxStreamTap sid id 0 (stream_payload data)].
Proof.
  intros Hs Ht Ne Le Nc Hr Hst En Tf If Td Id Sq Len.
  assert (D : ∀ h, run (on_local_stream to_string w sid data id) h =
    run (Prog.for_each [data] (λ env, on_local_data to_string w sid env id)) h).
  { intros h0. unfold on_local_stream. rewrite Td. rewrite bool_decide_true by done. cbn. rewrite run_bind.
    by destruct (run (on_local_data to_string w sid data id) h0) as [[] h1]. }
  assert (C : omap chunk_of [data] = [(0%N, stream_payload data)]) by (cbn; unfold chunk_of; by rewrite Sq).
  split.
  - rewrite (stream_frame_local sid data id h s) by done. rewrite D, (local_data_runs _ _ sid id [data] h s) by done.
    unfold window_of. rewrite Hst. rewrite window_accepts_ended by done. by rewrite app_nil_r.
  - rewrite run_bind, (stream_frame_local sid fin id h s) by done.
    destruct (local_end_run sid fin id h s Hs Tf) as (s' & Hs' & Hn & Ho & Ht' & Hr').
    destruct (run (on_local_stream to_string w sid fin id) h) as [u h1]. cbn [snd] in *.
    rewrite (stream_frame_local sid data id h1 s') by (done || by unfold rtable; rewrite Hr').
    rewrite D, (local_data_runs _ _ sid id [data] h1 s') by (done || by rewrite Ht').
    rewrite Ho, C. unfold window_of. rewrite Hn.
    change (default new_stream_state None) with new_stream_state.
    rewrite window_accepts_all; [done|done|done|]. cbn [total_bytes snd ss_received ss_granted new_stream_state].
    unfold STREAM_INITIAL_GRANT. lia.
Qed.
End tombstone.

(** ** Concrete streams *)

Definition data_env (seq payload : string) : Envelope :=
  mkEnvelope "stream.data" "m" (Some "sess-1") None None None (chunk_body "log" seq payload).

Definition fin_env : Envelope := mkEnvelope "stream.end" "m" (Some "sess-1") None None None (end_body "log").

Definition tap_host : Host := set_ho_taps (false, true) demo_host.

Lemma stream_tap_exact_witness :
  ∃ l, ho_out (run (Prog.for_each [data_env "0" "ab"; data_env "0" "ab"; data_env "1" "cd"]
         (λ env, on_local_data demo_to_string calm_world "sess-1" env "log")) tap_host).2 =
       to_tap "sess-1" "log" l ∧ numbered 0 l ∧ l = [(0%N, "ab"); (1%N, "cd")].
Proof.
  destruct (session "sess-1" tap_host) as [s|] eqn:Es; [|by vm_compute in Es].
  destruct (stream_tap_exact demo_to_string calm_world "sess-1" "log"
    [data_env "0" "ab"; data_env "0" "ab"; data_env "1" "cd"] tap_host s Es eq_refl) as (l & Ho & Nu & _).
  { vm_compute in Es. by injection Es as <-. }
  exists l. split; [exact Ho|]. split; [exact Nu|].
  assert (Eo : to_tap "sess-1" "log" l = to_tap "sess-1" "log" [(0%N, "ab"); (1%N, "cd")]).
  { etrans; [symmetry; exact Ho|]. by vm_compute. }
  destruct l as [|[s1 p1] [|[s2 p2] [|c l]]]; try discriminate Eo. by injection Eo as -> -> -> ->.
Defined.

(** The window of [log] was exceeded by its first chunk. *)
Definition over_host : Host :=
  (on_session "sess-1" None (stream_entry "log" 0 65537) tap_host).2.

Lemma tombstone_forgotten_witness :
  ho_out (run (on_stream_frame demo_to_string calm_world "sess-1" (data_env "0" "ab")) over_host).2 = [] ∧
  ho_out (run (do! on_stream_frame demo_to_string calm_world "sess-1" fin_env;
               on_stream_frame demo_to_string calm_world "sess-1" (data_env "0" "ab")) over_host).2 =
    [FxStreamTap "sess-1" "log" 0 "ab"].
Proof.
  destruct (session "sess-1" over_host) as [s|] eqn:Es; [|by vm_compute in Es].
  destruct (hs_streams s !! "log") as [st|] eqn:Est; [|vm_compute in Es; injection Es as <-; by vm_compute in Est].
  assert (En : ss_ended st = true).
  { vm_compute in Es. injection Es as <-. vm_compute in Est. by injection Est as <-. }
  refine (tombstone_forgotten demo_to_string calm_world "sess-1" "log" over_host s st fin_env (data_env "0" "ab")
    Es _ _ _ _ _ Est En _ _ _ _ _ _); by vm_compute.
Defined.
