(* ===== verification/Controller.v ===== *)
(** * Controller side of routes ([matrix-runtime/src/route_controller.rs])

    A [RouteManager] keeps one link per executor peer: the session, the lease on the executor and
    the calls in flight. It moves the bytes of the calls that the host of the controller admits.
    Links and sessions are shared objects ([Arc]): [rm_links] maps the names of peers to links of
    the heap [rm_heap], a link names its session in [rm_sessions]. A method is a program with one
    action per lock taken; guards that the source keeps across several steps are not modelled: the
    model has more interleavings than the code, and it does not show the time a method waits for
    such a guard. Attaching and tearing down a route hold the lock of the lease of their link across
    requests to the executor, and [call_open] reads the lease before it does anything else: nothing
    is claimed of how long that read takes, only of the [exchange] after it. The [manager] of a link is the manager itself.

    Messages to the callers travel through the channels of [rm_mail]. [session_turn] is one turn of
    the engine of a session: it moves what the engine answers into the channels and then runs the
    handler of the link on the messages of the turn. *)

From S2P Require Import Prelude RustStd Json Utf8 Identity Contexts Resources Deps Calls Manifest Prog Timed.
From S2P Require Import KernelState KernelCalls KernelLifecycle KernelDispatch Inventory.
From S2P Require Import Wire Dependency Remote Base64 Session HostState HostStreams HostDeps HostConn.
From Stdlib Require Import Ascii.

(** ** Configuration and state *)

Record PeerConfig : Type := mkPeerConfig {
  pf_name : string;
  pf_address : string;
  pf_server_name : string;
  pf_ca : string;
  pf_cert : string;
  pf_key : string;
  pf_mgmt_address : string;
  pf_domain : string;
  pf_lease_ttl_ms : N;
}.

Record RouteSpec : Type := mkRouteSpec {
  rsp_consumer : string;
  rsp_provider : string;
  rsp_peer : string;
}.

Record RouteLease : Type := mkRouteLease {
  rl_token : string;
  rl_fence : N;
  rl_ttl_ms : N;
  rl_seq : N;
}.

(** A [PendingCall] is the channel of its waiter. *)
Record PeerLink : Type := mkPeerLink {
  lk_config : PeerConfig;
  lk_provider : string;
  lk_session : option N;
  lk_lease : option RouteLease;
  lk_calls : gmap string N;
  lk_last_error : string;
  lk_last_ok : option Instant;
  lk_closed : bool;
  lk_renewals : N;
}.

(** The manager with the host of its service, [store.epoch] included. [rm_asked] counts the
    answers the outside gave, [rm_requests] are the requests to management endpoints, and
    [rm_workers] the links whose worker was started and has not run yet. *)
Record Ctl : Type := mkCtl {
  rm_host : Host;
  rm_epoch : N;
  rm_authority : string;
  rm_links : gmap string N;
  rm_heap : gmap N PeerLink;
  rm_routes : list RouteSpec;
  rm_closed : bool;
  rm_sessions : gmap N Sess;
  rm_mail : gmap N (list (result Value string));
  rm_next : N;
  rm_asked : N;
  rm_requests : list (string * Value);
  rm_workers : list N;
}.

Definition manager_new (host : Host) (epoch : N) (authority : string) : Ctl :=
  mkCtl host epoch authority ∅ ∅ [] false ∅ ∅ 1 0 [] [].

Definition no_config : PeerConfig := mkPeerConfig "" "" "" "" "" "" "" "" 0.

Definition new_link (p : PeerConfig) (provider : string) : PeerLink :=
  mkPeerLink p provider None None ∅ "" None false 0.

#[export] Instance peer_link_inhabited : Inhabited PeerLink := populate (new_link no_config "").
#[export] Instance sess_inhabited : Inhabited Sess := populate (spawn default_session_limits "" "" 0).

(** ** Field updates *)

Definition set_lk_provider (v : string) (l : PeerLink) : PeerLink :=
  mkPeerLink (lk_config l) v (lk_session l) (lk_lease l) (lk_calls l) (lk_last_error l) (lk_last_ok
    l) (lk_closed l) (lk_renewals l).
Definition set_lk_session (v : option N) (l : PeerLink) : PeerLink :=
  mkPeerLink (lk_config l) (lk_provider l) v (lk_lease l) (lk_calls l) (lk_last_error l) (lk_last_ok
    l) (lk_closed l) (lk_renewals l).
Definition set_lk_lease (v : option RouteLease) (l : PeerLink) : PeerLink :=
  mkPeerLink (lk_config l) (lk_provider l) (lk_session l) v (lk_calls l) (lk_last_error l)
    (lk_last_ok l) (lk_closed l) (lk_renewals l).
Definition set_lk_calls (v : gmap string N) (l : PeerLink) : PeerLink :=
  mkPeerLink (lk_config l) (lk_provider l) (lk_session l) (lk_lease l) v (lk_last_error l)
    (lk_last_ok l) (lk_closed l) (lk_renewals l).
Definition set_lk_last_error (v : string) (l : PeerLink) : PeerLink :=
  mkPeerLink (lk_config l) (lk_provider l) (lk_session l) (lk_lease l) (lk_calls l) v (lk_last_ok l)
    (lk_closed l) (lk_renewals l).
Definition set_lk_last_ok (v : option Instant) (l : PeerLink) : PeerLink :=
  mkPeerLink (lk_config l) (lk_provider l) (lk_session l) (lk_lease l) (lk_calls l) (lk_last_error
    l) v (lk_closed l) (lk_renewals l).
Definition set_lk_closed (v : bool) (l : PeerLink) : PeerLink :=
  mkPeerLink (lk_config l) (lk_provider l) (lk_session l) (lk_lease l) (lk_calls l) (lk_last_error
    l) (lk_last_ok l) v (lk_renewals l).
Definition set_lk_renewals (v : N) (l : PeerLink) : PeerLink :=
  mkPeerLink (lk_config l) (lk_provider l) (lk_session l) (lk_lease l) (lk_calls l) (lk_last_error
    l) (lk_last_ok l) (lk_closed l) v.

Definition set_rm_host (v : Host) (x : Ctl) : Ctl :=
  mkCtl v (rm_epoch x) (rm_authority x) (rm_links x) (rm_heap x) (rm_routes x) (rm_closed x)
    (rm_sessions x) (rm_mail x) (rm_next x) (rm_asked x) (rm_requests x) (rm_workers x).
Definition set_rm_links (v : gmap string N) (x : Ctl) : Ctl :=
  mkCtl (rm_host x) (rm_epoch x) (rm_authority x) v (rm_heap x) (rm_routes x) (rm_closed x)
    (rm_sessions x) (rm_mail x) (rm_next x) (rm_asked x) (rm_requests x) (rm_workers x).
Definition set_rm_heap (v : gmap N PeerLink) (x : Ctl) : Ctl :=
  mkCtl (rm_host x) (rm_epoch x) (rm_authority x) (rm_links x) v (rm_routes x) (rm_closed x)
    (rm_sessions x) (rm_mail x) (rm_next x) (rm_asked x) (rm_requests x) (rm_workers x).
Definition set_rm_routes (v : list RouteSpec) (x : Ctl) : Ctl :=
  mkCtl (rm_host x) (rm_epoch x) (rm_authority x) (rm_links x) (rm_heap x) v (rm_closed x)
    (rm_sessions x) (rm_mail x) (rm_next x) (rm_asked x) (rm_requests x) (rm_workers x).
Definition set_rm_closed (v : bool) (x : Ctl) : Ctl :=
  mkCtl (rm_host x) (rm_epoch x) (rm_authority x) (rm_links x) (rm_heap x) (rm_routes x) v
    (rm_sessions x) (rm_mail x) (rm_next x) (rm_asked x) (rm_requests x) (rm_workers x).
Definition set_rm_sessions (v : gmap N Sess) (x : Ctl) : Ctl :=
  mkCtl (rm_host x) (rm_epoch x) (rm_authority x) (rm_links x) (rm_heap x) (rm_routes x) (rm_closed
    x) v (rm_mail x) (rm_next x) (rm_asked x) (rm_requests x) (rm_workers x).
Definition set_rm_mail (v : gmap N (list (result Value string))) (x : Ctl) : Ctl :=
  mkCtl (rm_host x) (rm_epoch x) (rm_authority x) (rm_links x) (rm_heap x) (rm_routes x) (rm_closed
    x) (rm_sessions x) v (rm_next x) (rm_asked x) (rm_requests x) (rm_workers x).
Definition set_rm_next (v : N) (x : Ctl) : Ctl :=
  mkCtl (rm_host x) (rm_epoch x) (rm_authority x) (rm_links x) (rm_heap x) (rm_routes x) (rm_closed
    x) (rm_sessions x) (rm_mail x) v (rm_asked x) (rm_requests x) (rm_workers x).
Definition set_rm_asked (v : N) (x : Ctl) : Ctl :=
  mkCtl (rm_host x) (rm_epoch x) (rm_authority x) (rm_links x) (rm_heap x) (rm_routes x) (rm_closed
    x) (rm_sessions x) (rm_mail x) (rm_next x) v (rm_requests x) (rm_workers x).
Definition set_rm_requests (v : list (string * Value)) (x : Ctl) : Ctl :=
  mkCtl (rm_host x) (rm_epoch x) (rm_authority x) (rm_links x) (rm_heap x) (rm_routes x) (rm_closed
    x) (rm_sessions x) (rm_mail x) (rm_next x) (rm_asked x) v (rm_workers x).
Definition set_rm_workers (v : list N) (x : Ctl) : Ctl :=
  mkCtl (rm_host x) (rm_epoch x) (rm_authority x) (rm_links x) (rm_heap x) (rm_routes x) (rm_closed
    x) (rm_sessions x) (rm_mail x) (rm_next x) (rm_asked x) (rm_requests x) v.

(** ** Programs of the controller *)

#[export] Instance ctl_clock : Clock Ctl := {
  clock x := clock (rm_host x);
  advance n x := set_rm_host (advance n (rm_host x)) x;
}.

Notation cprog := (prog Ctl).

(** The actions of a program of the host. *)
Fixpoint hlift {A} (p : hprog A) : cprog A :=
  match p with
  | Ret a => Ret a
  | Act f k => Act (λ x, let '(a, h) := f (rm_host x) in (a, set_rm_host h x)) (λ a, hlift (k a))
  | Wait c u k => Wait (λ x, c (rm_host x)) u (λ b, hlift (k b))
  end.

Definition kernel {A} (p : kprog A) : cprog A := hlift (klift p).
Definition read_kernel {X} (f : Kernel → X) : cprog X := read (λ x, f (ho_kernel (rm_host x))).

Definition link (l : N) (x : Ctl) : PeerLink := rm_heap x !!! l.
Definition sess (i : N) (x : Ctl) : Sess := rm_sessions x !!! i.

(** One lock of one link, one lock of one session. *)
Definition on_link {X} (l : N) (f : PeerLink → X * PeerLink) : cprog X :=
  act (λ x, let '(a, lk) := f (link l x) in (a, set_rm_heap (<[l := lk]> (rm_heap x)) x)).
Definition upd_link (l : N) (f : PeerLink → PeerLink) : cprog unit := on_link l (λ lk, (tt, f lk)).
Definition read_link {X} (l : N) (f : PeerLink → X) : cprog X := read (λ x, f (link l x)).

Definition on_sess {X} (i : N) (f : Sess → X * Sess) : cprog X :=
  act (λ x, let '(a, s) := f (sess i x) in (a, set_rm_sessions (<[i := s]> (rm_sessions x)) x)).
Definition upd_sess (i : N) (f : Sess → Sess) : cprog unit := on_sess i (λ s, (tt, f s)).
Definition read_sess {X} (i : N) (f : Sess → X) : cprog X := read (λ x, f (sess i x)).

Definition fresh (x : Ctl) : N * Ctl := (rm_next x, set_rm_next (rm_next x + 1) x).

Definition pause (dur : N) : cprog unit :=
  let! now := read clock in
  Wait (λ _, false) (now + dur) (λ _, Ret tt).

(** *** Channels *)

Definition mailbox (c : N) (x : Ctl) : list (result Value string) := default [] (rm_mail x !! c).

Definition send_mail (c : N) (m : result Value string) (x : Ctl) : Ctl :=
  set_rm_mail (<[c := mailbox c x ++ [m]]> (rm_mail x)) x.

Definition take_mail (c : N) (x : Ctl) : option (result Value string) * Ctl :=
  match mailbox c x with
  | [] => (None, x)
  | m :: rest => (Some m, set_rm_mail (<[c := rest]> (rm_mail x)) x)
  end.

Definition has_mail (c : N) (x : Ctl) : bool := negb (bool_decide (mailbox c x = [])).

(** [v[key]]. *)
Definition ix (key : string) (v : Value) : Value := default JNull (get key v).

(** What the outside answers: the [n]th request to a management endpoint, the [n]th connection,
    whether the certificate files of a peer load, whether a worker starts; and the first element
    in the iteration order of a [HashSet]. *)
Record CWorld : Type := mkCWorld {
  cw_host : HWorld;
  cw_unary : N → PeerConfig → Value → result Value string;
  cw_dial : N → PeerConfig → result HandshakeIo string;
  cw_files : PeerConfig → result unit string;
  cw_thread : bool;
  cw_pick : gset string → option string;
}.

(** ** Pure parts *)

(** [String::from_utf8_lossy]. *)
Definition REPLACEMENT : bytes := encode_utf8 65533.

Fixpoint utf8_lossy (fuel : nat) (l : bytes) : bytes :=
  match fuel, l with
  | O, _ | _, [] => []
  | S fuel, _ =>
      match utf8_head l with
      | Ok n => take n l ++ utf8_lossy fuel (drop n l)
      | Err (Some n) => REPLACEMENT ++ utf8_lossy fuel (drop n l)
      | Err None => REPLACEMENT
      end
  end.

Definition from_utf8_lossy (l : bytes) : string := of_chars (utf8_lossy (length l) l).

(** [e{epoch}:{logical}:{instance}:{context}#{generation}]: instance and generation. *)
Definition parse_describe (s : string) : option (N * N) :=
  s ← strip_prefix "e" s;
  '(head, generation) ← rsplit_at "#"%char (chars s);
  match split_on ":"%char head with
  | [epoch; _; instance; _] =>
      _ ← parse_u64 epoch;
      instance ← parse_u64 instance;
      generation ← parse_u64 generation;
      Some (instance, generation)
  | _ => None
  end.

Definition session_limits : SessionLimits :=
  let d := default_session_limits in
  mkSessionLimits (sl_max_frame d) (sl_control_queue d) (sl_data_queue d) (sl_commands d)
    (sl_max_pending d) (sl_frame_budget d) (sl_handshake_budget d) 1000 (sl_suspect_after d)
    (sl_detach_after d).

(** An envelope of the remote profile. *)
Definition remote_env (ty message_id session_id : string) (rest : list (string * Value)) (body : Value) : Value :=
  obj ([("protocol", JString "matrix.remote"); ("version", JString "0.1"); ("type", JString ty);
        ("message_id", JString message_id); ("session_id", JString session_id)] ++ rest ++ [("body", body)]).

Definition request_env (ty rid session_id : string) (body : Value) : Value :=
  remote_env ty rid session_id [("request_id", JString rid)] body.

Definition is_ready (st : Value) : bool := bool_decide ((get "ready" st ≫= as_bool) = Some true).

Definition release_request (lease : string) (fence : N) : Value :=
  obj [("action", JString "release"); ("lease", JString lease); ("fence", JString (display fence))].

(** *** The envelope of a call *)

Definition call_rid (open : RemoteCallOpen) : string := "co-" +:+ ro_operation_id open.

Definition call_activation (open : RemoteCallOpen) : Value :=
  obj [("logical", JString (ro_consumer_logical open));
       ("instance", JString (display (ro_consumer_instance open)));
       ("generation", JString (display (ro_consumer_generation open)))].

Definition call_body (open : RemoteCallOpen) (lease : string) : Value :=
  obj [("parent", obj [("domain", JString (ro_domain open));
                       ("ticket", JString (display (ro_parent_ticket open)));
                       ("activation", call_activation open)]);
       ("binding_id", JString (ro_binding_id open));
       ("activation", call_activation open);
       ("cap", JString (ro_cap open)); ("input", ro_input open);
       ("timeout_ms", j_u64 (ro_timeout_ms open)); ("budget_ms", j_u64 (ro_budget_ms open));
       ("lease", JString lease); ("grant_rev", JString (display (ro_grant_rev open)));
       ("operation_id", JString (ro_operation_id open))].

Definition call_env (open : RemoteCallOpen) (lease session_id : string) : Value :=
  remote_env "call.open" (call_rid open) session_id
    [("instance_id", JString (display (ro_consumer_instance open)));
     ("generation", JString (display (ro_consumer_generation open)));
     ("request_id", JString (call_rid open))]
    (call_body open lease).

(** The terminal a [call.result] carries. *)
Definition terminal_of (ans : Value) : RemoteCallTerminal :=
  let body := ix "body" ans in
  if bool_decide (get_str "status" body = Some "ok") then RtOk (ix "output" body)
  else
    let e := ix "error" body in
    RtErr (default "internal" (get_str "code" e)) (default "remote error" (get_str "message" e)).

(** *** The envelopes of streams *)

Definition data_body (operation stream_id : string) (seq : N) (payload : string) : Value :=
  obj ([("stream_id", JString stream_id); ("seq", j_u64 seq);
        ("bytes", JString (of_chars (b64_encode (chars payload)))); ("credit", j_u64 0)]
       ++ (if str_is_empty operation then [] else [("operation_id", JString operation)])).

Definition stream_data_env (session_id stream_id : string) (seq : N) (body : Value) : Value :=
  remote_env "stream.data" ("sd-" +:+ stream_id +:+ "-" +:+ display seq) session_id [] body.

Definition end_status (status : string) : string :=
  if bool_decide (status ∈ ["ok"; "error"; "cancelled"]) then status else "cancelled".

Definition end_type (status : string) : string :=
  if bool_decide (status = "ok") then "stream.complete" else "stream.cancel".

Section controller.
Context {E : Env} (to_string : Value → string) (from_str : bytes → result Value string) (w : CWorld).
Let to_vec (v : Value) : bytes := chars (to_string v).

(** ** Requests *)

(** [unary_client(link).request_with_budget]; its budget bounds the time of the outside. *)
Definition unary (c : PeerConfig) (request : Value) : cprog (result Value string) :=
  act (λ x, (cw_unary w (rm_asked x) c request,
             set_rm_asked (rm_asked x + 1) (set_rm_requests (rm_requests x ++ [(pf_name c, request)]) x))).

(** No sender of the channel is left. *)
Definition sender_gone (i c : N) (x : Ctl) : bool :=
  let s := sess i x in
  negb (List.existsb (λ slot : N * Instant, (slot.1 =? c)%N)
          ((map_to_list (replies s)).*2 ++ (map_to_list (pending s)).*2)).

Definition recv_answer (i c : N) (quantum : N) : cprog Recv :=
  let! now := read clock in
  Wait (λ x, has_mail c x || sender_gone i c x) (now + quantum) (λ woken,
    if woken then
      let! m := act (take_mail c) in
      Ret (match m with Some r => RecvAnswer r | None => RecvDisconnected end)
    else Ret RecvTimeout).

(** The wait loop of [Session::request], at most [fuel] turns of it. *)
Fixpoint request_loop (fuel : nat) (i c : N) (rid : string) (timeout waited : N) : cprog (result Value string) :=
  match fuel with
  | O => Ret (Err "outcome-unknown")
  | S fuel =>
      let quantum := N.min (timeout - waited) (N.min 5 timeout) in
      let! r := recv_answer i c quantum in
      match r with
      | RecvAnswer a => Ret a
      | RecvTimeout =>
          if (timeout <=? waited + quantum)%N then
            do! upd_sess i (request_abandon rid);
            Ret (Err "outcome-unknown")
          else request_loop fuel i c rid timeout (waited + quantum)
      | RecvDisconnected =>
          do! upd_sess i (request_abandon rid);
          Ret (Err "outcome-unknown")
      end
  end.

Definition request_turns (timeout : N) : nat := S (N.to_nat (timeout / 5)).

(** A new channel and its slot in the table of replies. *)
Definition open_request (i : N) (rid : string) (timeout : N) (x : Ctl) : result N string * Ctl :=
  let '(c, x) := fresh x in
  let '(r, s) := request_register c rid timeout (clock x) (sess i x) in
  (let? _ := r in Ok c, set_rm_sessions (<[i := s]> (rm_sessions x)) x).

(** [Session::request] without a cancel flag. *)
Definition session_request (i : N) (env : Value) (timeout : N) : cprog (result Value string) :=
  match get_str "request_id" env with
  | None => Ret (Err "request needs request_id")
  | Some rid =>
      let?! c := act (open_request i rid timeout) in
      let?! _ := on_sess i (request_submit to_vec env rid timeout) in
      request_loop (request_turns timeout) i c rid timeout 0
  end.

(** ** Diagnosis, routes *)

Definition note (l : N) (ok : bool) (msg : string) : cprog unit :=
  if ok then
    do! act (λ x, (tt, set_rm_heap (<[l := set_lk_last_ok (Some (clock x)) (link l x)]> (rm_heap x)) x));
    upd_link l (set_lk_last_error "")
  else upd_link l (set_lk_last_error msg).

Definition route_of (peer : string) (routes : list RouteSpec) : option string :=
  rsp_provider <$> head (List.filter (λ r, bool_decide (rsp_peer r = peer)) routes).

Definition route_provider (peer : string) : cprog (option string) := read (λ x, route_of peer (rm_routes x)).

(** ** Teardown *)

Definition take_link_session (l : N) : cprog (option N) :=
  on_link l (λ lk, (lk_session lk, set_lk_session None lk)).
Definition take_lease (l : N) : cprog (option RouteLease) :=
  on_link l (λ lk, (lk_lease lk, set_lk_lease None lk)).
Definition drain_calls (l : N) : cprog (list N) :=
  on_link l (λ lk, ((map_to_list (lk_calls lk)).*2, set_lk_calls ∅ lk)).

Definition teardown_link (l : N) (reason : string) : cprog unit :=
  let! provider := read_link l lk_provider in
  do! (if str_is_empty provider then Ret tt
       else do! kernel (unregister_remote_provider provider); Ret tt);
  let! s := take_link_session l in
  do! (match s with Some i => upd_sess i shutdown | None => Ret tt end);
  let! lease := take_lease l in
  do! (match lease with
       | Some le =>
           let! c := read_link l lk_config in
           do! unary c (release_request (rl_token le) (rl_fence le)); Ret tt
       | None => Ret tt
       end);
  let! calls := drain_calls l in
  do! for_each calls (λ c, modify (send_mail c (Ok (obj [("transport-failed", JString reason)]))));
  note l false reason.

Definition manager_shutdown : cprog unit :=
  do! modify (set_rm_closed true);
  let! links := read (λ x, (map_to_list (rm_links x)).*2) in
  for_each links (λ l, do! upd_link l (set_lk_closed true); teardown_link l "shutdown").

(** ** Configuration *)

Definition take_link (name : string) (x : Ctl) : option N * Ctl :=
  (rm_links x !! name, set_rm_links (delete name (rm_links x)) x).

(** A link and its worker for a peer that has none. *)
Definition add_link (p : PeerConfig) (x : Ctl) : Ctl :=
  if is_some (rm_links x !! pf_name p) then x
  else
    let '(l, x) := fresh x in
    let lk := new_link p (default "" (route_of (pf_name p) (rm_routes x))) in
    let x := set_rm_links (<[pf_name p := l]> (rm_links x)) (set_rm_heap (<[l := lk]> (rm_heap x)) x) in
    if cw_thread w then set_rm_workers (rm_workers x ++ [l]) x else x.

Definition remote_providers_of_peer (peer : string) (k : Kernel) : list string :=
  rp_logical <$> values_where (λ r, bool_decide (rp_peer r = peer)) (k_remote_providers k).

Definition providers_via (peer : string) (routes : list RouteSpec) : gset string :=
  list_to_set (rsp_provider <$> List.filter (λ r, bool_decide (rsp_peer r = peer)) routes).

Definition prune_link (routes : list RouteSpec) (l : N) : cprog unit :=
  let! c := read_link l lk_config in
  let live := providers_via (pf_name c) routes in
  do! upd_link l (set_lk_provider (default "" (cw_pick w live)));
  let! gone := read_kernel (λ k, List.filter (λ p, negb (bool_decide (p ∈ live)))
                                   (remote_providers_of_peer (pf_name c) k)) in
  for_each gone (λ p, do! kernel (unregister_remote_provider p); Ret tt).

Definition sync (peers : list PeerConfig) (routes : list RouteSpec) : cprog unit :=
  do! modify (set_rm_routes routes);
  let want : gset string := list_to_set (pf_name <$> peers) in
  let! names := read (λ x, keys (rm_links x)) in
  do! for_each names (λ name,
        if bool_decide (name ∈ want) then Ret tt
        else
          let! l := act (take_link name) in
          match l with
          | Some l => do! upd_link l (set_lk_closed true); teardown_link l "config-removed"
          | None => Ret tt
          end);
  do! for_each peers (λ p, modify (add_link p));
  let! routes_now := read rm_routes in
  let! links := read (λ x, (map_to_list (rm_links x)).*2) in
  for_each links (prune_link routes_now).

(** ** Reconciliation *)

Definition cancel_revoked (peer op : string) (n : nat) : cprog nat :=
  if str_is_empty op then Ret n
  else
    let! ticket := read (λ x, ticket_for_remote_op peer op (rm_host x)) in
    let! n :=
      match ticket with
      | Some t => let! done := kernel (call_cancel t "reconcile-revoked") in Ret (if done then S n else n)
      | None => Ret n
      end in
    do! hlift (end_remote_streams_of peer op);
    Ret n.

Definition cancel_revoked_operations (peer : string) (operation_ids : list string) : cprog nat :=
  for_fold operation_ids 0 (λ n op, cancel_revoked peer op n).

(** The entry of one ticket of the inventory: a leg over this peer that has its correlation. *)
Definition reconcile_operation (peer : string) (t : Value) : cprog (option Value) :=
  let dep := ix "dep" t in
  if negb (bool_decide (get_str "remote_peer" dep = Some peer)) then Ret None
  else
    match get_u64 "ticket" t with
    | None => Ret None
    | Some ticket =>
        let! op := read (λ x, remote_op_of ticket (rm_host x)) in
        Ret (match op with
             | Some (_, op) => Some (obj [("operation_id", JString op); ("ticket", ix "ticket" t);
                                          ("binding", ix "binding" dep)])
             | None => None
             end)
    end.

Definition reconcile_operations (peer : string) (inv : Value) : cprog (list Value) :=
  for_fold (default [] (get_array "calls" inv)) [] (λ out t,
    let! o := reconcile_operation peer t in Ret (out ++ from_option (λ v, [v]) [] o)).

(** A new attested activation of a provider that is registered already. *)
Definition refresh_activation (l : N) (a : Value) : cprog unit :=
  match get_str "logical" a, get_str "instance" a ≫= (λ s, parse_u64 (chars s)),
        get_str "generation" a ≫= (λ s, parse_u64 (chars s)) with
  | Some logical, Some inst, Some gen =>
      let! name := read_link l (λ lk, pf_name (lk_config lk)) in
      let! mine := read (λ x, List.existsb (λ r, bool_decide (rsp_peer r = name)
                                                && bool_decide (rsp_provider r = logical)) (rm_routes x)) in
      if negb mine then Ret tt
      else
        let! cur := read_kernel (λ k, k_remote_providers k !! logical) in
        if is_some_and (λ r, negb (rp_instance r =? inst)%N || negb (rp_generation r =? gen)%N) cur then
          do! kernel (register_remote_provider logical inst gen name); Ret tt
        else Ret tt
  | _, _, _ => Ret tt
  end.

Definition revoked_of (ans : Value) : option (list string) :=
  omap (M := list) (get_str "operation_id") <$> get_array "revoked" (ix "body" ans).

Definition reconcile_link (l : N) : cprog (result unit string) :=
  let! s := read_link l lk_session in
  match s with
  | None => Ret (Err "no session")
  | Some i =>
      let! name := read_link l (λ lk, pf_name (lk_config lk)) in
      let! inv := kernel inventory in
      let! operations := reconcile_operations name inv in
      let body := obj [("activations", JArray []); ("leases", JArray []);
                       ("operations", JArray operations); ("resources", JArray [])] in
      let! rid := read (λ x, "rec-" +:+ display (rm_epoch x)) in
      let! id := read_sess i se_id in
      let! ans := session_request i (request_env "inventory.reconcile" rid id body) 10000 in
      match ans with
      | Err e => Ret (Err ("reconcile: " +:+ e))
      | Ok ans =>
          do! (match revoked_of ans with
               | Some ids => do! cancel_revoked_operations name ids; Ret tt
               | None => Ret tt
               end);
          do! (match get_array "activations" (ix "body" ans) with
               | Some acts => for_each acts (refresh_activation l)
               | None => Ret tt
               end);
          Ret (Ok tt)
      end
  end.

(** ** Subscriptions *)

Definition consumer_topics (topics : gset string) (r : RouteSpec) : cprog (gset string) :=
  let! bindings := kernel (dependency_bindings_of (rsp_consumer r)) in
  if List.existsb (λ b, bool_decide (db_provider_logical b = rsp_provider r)) bindings then
    let! subs := read_kernel (subscriptions_of (rsp_consumer r)) in
    Ret (topics ∪ list_to_set subs)
  else Ret topics.

Definition remote_consumer_topics (peer : string) : cprog (list string) :=
  let! routes := read (λ x, List.filter (λ r, bool_decide (rsp_peer r = peer)) (rm_routes x)) in
  let! topics := for_fold routes ∅ consumer_topics in
  Ret (sort_strings (elements topics)).

Definition push_subscriptions (l : N) : cprog unit :=
  let! name := read_link l (λ lk, pf_name (lk_config lk)) in
  let! topics := remote_consumer_topics name in
  let! s := read_link l lk_session in
  match s with
  | None => Ret tt
  | Some i =>
      let! rid := read (λ x, "sub-" +:+ display (rm_epoch x)) in
      let! id := read_sess i se_id in
      let! ans := session_request i (request_env "event.subscribe" rid id (obj [("topics", j_strs topics)])) 10000 in
      if is_ok ans then Ret tt else note l false "subscribe failed"
  end.

Definition install_transport : cprog unit := hlift (set_remote_transport true).

(** ** Attaching *)

Definition dial (c : PeerConfig) (hello : Value) : cprog (result (N * Value) string) :=
  act (λ x,
    let n := rm_asked x in
    let x := set_rm_asked (n + 1) x in
    match (let? io := cw_dial w n c in connect to_vec io session_limits hello (clock x)) with
    | Err e => (Err ("connect: " +:+ e), x)
    | Ok (s, welcome) =>
        let '(i, x) := fresh x in
        (Ok (i, welcome), set_rm_sessions (<[i := s]> (rm_sessions x)) x)
    end).

Definition has_remote_calls (welcome : Value) : bool :=
  List.existsb (λ f, bool_decide (as_str f = Some "remote-calls/1"))
    (default [] (get_array "features" welcome)).

Definition activate_provider (c : PeerConfig) (provider : string) (ttl : N) : cprog (result (string * N) string) :=
  let! act := unary c (obj [("action", JString "activate"); ("component", JString provider);
                            ("ttl_ms", j_u64 ttl)]) in
  Ret (let? act := map_err (λ e, "activate: " +:+ e) act in
       let? token := ok_or (get_str "lease" act) "activate without lease" in
       let? fence := ok_or (get_str "fence" act ≫= (λ s, parse_u64 (chars s))) "activate without fence" in
       Ok (token, fence)).

(** The lease of an earlier round while it is live, a new one otherwise. *)
Definition obtain_lease (l : N) (c : PeerConfig) (provider : string) (ttl : N) : cprog (result (string * N) string) :=
  let! lease := read_link l lk_lease in
  match lease with
  | Some le =>
      let! st := unary c (obj [("action", JString "lease-status"); ("lease", JString (rl_token le))]) in
      match st with
      | Ok v => if is_ready v then Ret (Ok (rl_token le, rl_fence le)) else activate_provider c provider ttl
      | Err _ => activate_provider c provider ttl
      end
  | None => activate_provider c provider ttl
  end.

Definition attested (st : Value) : option (N * N) :=
  if is_ready st then parse_describe (default "" (get_str "instance" st)) else None.

(** One turn of the wait for the executor's activation. *)
Definition status_round (c : PeerConfig) (token : string) (fence : N) (deadline : Instant)
    : cprog (option (result (N * N) string)) :=
  let! st := unary c (obj [("action", JString "status"); ("lease", JString token);
                           ("fence", JString (display fence))]) in
  match st with
  | Err e => Ret (Some (Err ("status: " +:+ e)))
  | Ok st =>
      match attested st with
      | Some ig => Ret (Some (Ok ig))
      | None =>
          let! now := read clock in
          if (deadline <=? now)%N then
            do! unary c (release_request token fence);
            Ret (Some (Err "executor provider never ready"))
          else do! pause 100; Ret None
      end
  end.

Definition READY_MS : N := 10000.

Definition await_ready (c : PeerConfig) (token : string) (fence : N) : cprog (option (result (N * N) string)) :=
  let! now := read clock in
  poll (rounds READY_MS 100) (status_round c token fence (now + READY_MS)).

(** What follows the connection; [poll] always has a result. *)
Definition attach_session (l i : N) (c : PeerConfig) : cprog (result unit string) :=
  do! upd_link l (set_lk_session (Some i));
  do! upd_sess i set_handler;
  let ttl := N.min (N.max (pf_lease_ttl_ms c) 100) 30000 in
  let! provider := route_provider (pf_name c) in
  match provider with
  | None => Ret (Err "no route for peer")
  | Some provider =>
      let?! tf := obtain_lease l c provider ttl in
      let '(token, fence) := tf in
      let! ig := await_ready c token fence in
      match ig with
      | None => Ret (Err "")
      | Some (Err e) => Ret (Err e)
      | Some (Ok (instance, generation)) =>
          do! upd_link l (set_lk_lease (Some (mkRouteLease token fence ttl 0)));
          let?! _ := reconcile_link l in
          let! reg := kernel (register_remote_provider provider instance generation (pf_name c)) in
          let?! _ := Ret (map_err (λ e, "register: " +:+ e) reg) in
          do! push_subscriptions l;
          do! install_transport;
          do! note l true "";
          Ret (Ok tt)
      end
  end.

Definition link_open (l : N) (x : Ctl) : bool := negb (lk_closed (link l x) || rm_closed x).

Definition attach_round (l : N) : cprog (result unit string) :=
  let! up := read (link_open l) in
  if negb up then Ret (Err "closed")
  else
    let! c := read_link l lk_config in
    let?! _ := Ret (cw_files w c) in
    let! hello := read (λ x, hello_body (pf_domain c) (rm_authority x) (rm_epoch x)) in
    let?! iw := dial c hello in
    if negb (has_remote_calls iw.2) then
      do! upd_sess iw.1 shutdown;
      Ret (Err "executor lacks remote-calls/1")
    else attach_session l iw.1 c.

(** ** Renewal and monitoring *)

(** [l.seq += 1] under the lock of the lease. *)
Definition next_renewal (lk : PeerLink) : option RouteLease * PeerLink :=
  match lk_lease lk with
  | None => (None, lk)
  | Some le =>
      let le := mkRouteLease (rl_token le) (rl_fence le) (rl_ttl_ms le) (rl_seq le + 1) in
      (Some le, set_lk_lease (Some le) lk)
  end.

Definition store_token (token : string) (lk : PeerLink) : PeerLink :=
  set_lk_lease ((λ le, mkRouteLease token (rl_fence le) (rl_ttl_ms le) (rl_seq le)) <$> lk_lease lk) lk.

Definition renew_once (l : N) : cprog (result unit string) :=
  let! le := on_link l next_renewal in
  match le with
  | None => Ret (Err "lease lost")
  | Some le =>
      let! s := read_link l lk_session in
      match s with
      | None => Ret (Err "no session")
      | Some i =>
          let! name := read_link l (λ lk, pf_name (lk_config lk)) in
          let rid := "ren-" +:+ name +:+ "-" +:+ display (rl_seq le) in
          let! id := read_sess i se_id in
          let body := obj [("token", JString (rl_token le)); ("fence", JString (display (rl_fence le)));
                           ("seq", j_u64 (rl_seq le)); ("ttl_ms", j_u64 (rl_ttl_ms le))] in
          let! ans := session_request i (request_env "lease.renew" rid id body) 5000 in
          match ans with
          | Err e => Ret (Err ("renew transport: " +:+ e))
          | Ok ans =>
              let body := ix "body" ans in
              if bool_decide (get_str "status" body = Some "ok") then
                let token := default "" (get_str "token" body) in
                if str_is_empty token then Ret (Err "renew without token")
                else
                  do! upd_link l (store_token token);
                  do! upd_link l (λ lk, set_lk_renewals (lk_renewals lk + 1) lk);
                  Ret (Ok tt)
              else Ret (Err "lease not renewed")
          end
      end
  end.

(** One turn of [monitor_link]; [false]: it returns. *)
Definition monitor_round (l : N) : cprog bool :=
  let! up := read (link_open l) in
  if negb up then Ret false
  else
    let! s := read_link l lk_session in
    let! live := match s with Some i => read_sess i admissible | None => Ret false end in
    if negb live then do! teardown_link l "session lost"; Ret false
    else
      let! ttl := read_link l (λ lk, from_option rl_ttl_ms 0%N (lk_lease lk)) in
      if (ttl =? 0)%N then do! teardown_link l "lease lost"; Ret false
      else
        do! pause (N.max (ttl / 3) 100);
        let! up := read (link_open l) in
        if negb up then Ret false
        else
          let! r := renew_once l in
          match r with
          | Ok _ => Ret true
          | Err e => do! teardown_link l e; Ret false
          end.

(** [n] turns of the monitor at most. *)
Fixpoint monitor_link (n : nat) (l : N) : cprog unit :=
  match n with
  | O => Ret tt
  | S n => let! go := monitor_round l in if go then monitor_link n l else Ret tt
  end.

(** One turn of [link_worker], with the next back-off; [None]: it returns. *)
Definition worker_round (turns : nat) (l backoff : N) : cprog (option N) :=
  let! up := read (link_open l) in
  if negb up then Ret None
  else
    let! r := attach_round l in
    match r with
    | Ok _ => do! monitor_link turns l; Ret (Some 1000%N)
    | Err e =>
        do! note l false e;
        do! pause (N.min backoff 30000);
        Ret (Some (N.min (backoff * 2) 30000))
    end.

Fixpoint link_worker (n turns : nat) (l backoff : N) : cprog unit :=
  match n with
  | O => Ret tt
  | S n =>
      let! r := worker_round turns l backoff in
      match r with Some backoff => link_worker n turns l backoff | None => Ret tt end
  end.

(** ** Frames of the executor *)

Definition on_stream_data (env : Value) : cprog unit :=
  let body := ix "body" env in
  let stream_id := default "" (get_str "stream_id" body) in
  let seq := default u64_max (get_u64 "seq" body) in
  if str_is_empty stream_id || (seq =? u64_max)%N then Ret tt
  else
    match b64_decode (chars (default "" (get_str "bytes" body))) with
    | None => Ret tt
    | Some bytes =>
        do! hlift (deliver_remote_chunk_any to_string (cw_host w) stream_id seq (from_utf8_lossy bytes));
        Ret tt
    end.

Definition on_stream_credit (env : Value) : cprog unit :=
  let body := ix "body" env in
  let stream_id := default "" (get_str "stream_id" body) in
  let credit := default 0%N (get_u64 "credit" body) in
  if str_is_empty stream_id || (credit =? 0)%N then Ret tt
  else hlift (credit_remote_stream_any stream_id credit).

Definition on_stream_terminal (env : Value) : cprog unit :=
  let stream_id := default "" (get "body" env ≫= get_str "stream_id") in
  if str_is_empty stream_id then Ret tt else hlift (end_remote_stream_any stream_id).

Definition revoke_notice (env : Value) : cprog unit :=
  let target := default "" (get_str "target" (ix "body" env)) in
  if str_is_empty target then Ret tt
  else
    let! ours := read_kernel (λ k, is_some_and sm_remote (k_definitions k !! target)) in
    if ours then do! kernel (unregister_remote_provider target); Ret tt else Ret tt.

Definition event_deliver (env : Value) : cprog unit :=
  let topic := default "" (get_str "topic" (ix "body" env)) in
  if str_is_empty topic then Ret tt
  else do! hlift (deliver_remote_event to_string (cw_host w) topic (ix "payload" (ix "body" env))); Ret tt.

(** [on_notice]; the name of the link is not used. *)
Definition on_notice (link_name : string) (env : Value) : cprog unit :=
  default (Ret tt) (arm (default "" (get_str "type" env))
    [(["revoke.notice"], revoke_notice env); (["event.deliver"], event_deliver env)]).

(** [LinkHandler::on_message] of the link to [peer]. *)
Definition on_message (peer : string) (env : Value) : cprog unit :=
  if is_some (get_str "request_id" env) then Ret tt
  else
    default (Ret tt) (arm (default "" (get_str "type" env))
      [(["revoke.notice"; "event.deliver"], on_notice peer env);
       (["stream.data"], on_stream_data env);
       (["stream.credit"], on_stream_credit env);
       (["stream.complete"; "stream.cancel"], on_stream_terminal env)]).

(** *** One turn of the engine of session [i], which serves the link to [peer] *)

Definition new_answers (s s' : Sess) : list (N * result Value string) :=
  drop (length (tr_answers (se_trace s))) (tr_answers (se_trace s'))
  ++ ((λ cv : N * Value, (cv.1, Ok cv.2)) <$> drop (length (tr_multi (se_trace s))) (tr_multi (se_trace s'))).

(** An engine that has returned makes no turn; a script that ends inside a flush is none. *)
Definition turn_step (i : N) (t : TurnScript) (x : Ctl) : (Turn * list Value) * Ctl :=
  let s := sess i x in
  if negb (sh_receiver (se_shared s)) || tr_poisoned (se_trace s) then ((Stopped, []), x)
  else
    match engine_turn to_vec from_str t s with
    | (Blocked, _) => ((Blocked, []), x)
    | (r, s') =>
        let x := set_rm_sessions (<[i := s']> (rm_sessions x)) x in
        ((r, drop (length (tr_handled (se_trace s))) (tr_handled (se_trace s'))),
         foldl (λ x m, send_mail m.1 m.2 x) x (new_answers s s'))
    end.

Definition session_turn (i : N) (peer : string) (t : TurnScript) : cprog Turn :=
  let! r := act (turn_step i t) in
  do! for_each r.2 (on_message peer);
  Ret r.1.

(** ** The transport of the host *)

(** The link to a peer and its session. *)
Definition find_session (peer : string) : cprog (option (N * option N)) :=
  let! l := read (λ x, rm_links x !! peer) in
  match l with
  | None => Ret None
  | Some l => let! s := read_link l lk_session in Ret (Some (l, s))
  end.

Definition MAX_REMOTE_LEGS : nat := 256.

Definition enter_call (rid : string) (c : N) (lk : PeerLink) : bool * PeerLink :=
  if MAX_REMOTE_LEGS <=? size (lk_calls lk) then (false, lk)
  else (true, set_lk_calls (<[rid := c]> (lk_calls lk)) lk).

Definition leave_call (rid : string) (lk : PeerLink) : PeerLink := set_lk_calls (delete rid (lk_calls lk)) lk.

Definition cleanup (i l : N) (rid : string) : cprog unit :=
  do! upd_sess i (unsubscribe_answers rid);
  upd_link l (leave_call rid).

Definition leg_cancelled (child : TicketId) (x : Ctl) : bool :=
  is_some_and (λ leg : list RemoteCallTerminal * bool, leg.2) (ho_legs (rm_host x) !! child).

(** One turn of the wait: a terminal, a message without meaning for it, or nothing. The senders
    of the channel outlive the wait unless the session is lost, which ends it. *)
Inductive Heard : Type := HTerminal (t : RemoteCallTerminal) | HIgnored | HNothing.

Definition call_round (child : TicketId) (i l : N) (rid : string) (c : N) (deadline : Instant) : cprog Heard :=
  let finish t := do! cleanup i l rid; Ret (HTerminal t) in
  let! cancelled := read (leg_cancelled child) in
  if cancelled then finish (RtFailed "cancelled" "cancelled")
  else
    let! now := read clock in
    if (deadline <=? now)%N then finish (RtFailed "deadline-exceeded" "executor deadline exceeded")
    else
      let! m := Wait (has_mail c) (now + N.min (deadline - now) 25) (λ woken,
                  if woken then let! m := act (take_mail c) in Ret (Some m) else Ret None) in
      match m with
      | Some (Some (Ok ans)) =>
          if bool_decide (get_str "type" ans = Some "call.result") then finish (terminal_of ans)
          else Ret HIgnored
      | Some _ => Ret HIgnored
      | None =>
          let! live := read_sess i admissible in
          if negb live then finish (RtFailed "outcome-unknown" "session lost") else Ret HNothing
      end.

(** How a wait ends: with a terminal; [CallNoise] after more than [noise] messages that are no
    result; [CallStuck] after [quiet] turns without a message. *)
Inductive CallEnd : Type := CallTerminal (t : RemoteCallTerminal) | CallNoise | CallStuck.

Fixpoint call_wait (quiet noise : nat) (child : TicketId) (i l : N) (rid : string) (c : N) (deadline : Instant)
    : cprog CallEnd :=
  (fix wait (quiet : nat) : cprog CallEnd :=
     let! h := call_round child i l rid c deadline in
     match h with
     | HTerminal t => Ret (CallTerminal t)
     | HNothing => match quiet with O => Ret CallStuck | S quiet => wait quiet end
     | HIgnored =>
         match noise with
         | O => Ret CallNoise
         | S noise => call_wait quiet noise child i l rid c deadline
         end
     end) quiet.

Definition failed (code message : string) : cprog CallEnd :=
  Ret (CallTerminal (RtFailed code message)).

Definition exchange (noise : nat) (child : TicketId) (open : RemoteCallOpen) (l i : N) (env : Value)
    : cprog CallEnd :=
  let rid := call_rid open in
  let! c := act fresh in
  let! entered := on_link l (enter_call rid c) in
  if negb entered then failed "resource-exhausted" "too many remote legs"
  else
    let! sub := on_sess i (subscribe_answers rid c) in
    if negb (is_ok sub) then
      do! upd_link l (leave_call rid);
      failed "resource-exhausted" "too many remote legs"
    else
      let! sent := on_sess i (send_control to_vec env) in
      if negb (is_ok sent) then
        do! cleanup i l rid;
        failed "outcome-unknown" "send failed"
      else
        let! now := read clock in
        let span := N.max (ro_timeout_ms open) 1 in
        call_wait (rounds span 25) noise child i l rid c (now + span).

(** The session and the token of the lease are read under the locks of the link, which other methods
    hold across requests; the exchange needs no lock that is held for long. *)
Definition call_open (noise : nat) (child : TicketId) (open : RemoteCallOpen) : cprog CallEnd :=
  let! r := find_session (ro_peer open) in
  match r with
  | None => failed "outcome-unknown" "no route"
  | Some (l, s) =>
      let! lease := @read_link (option string) l (λ lk, rl_token <$> lk_lease lk) in
      match s, lease with
      | Some i, Some lease =>
          let! live := read_sess i admissible in
          if negb live then failed "outcome-unknown" "session not admissible"
          else if negb (is_ok (Remote.validate_body "call.open" (call_body open lease))) then
            failed "internal" "locally invalid call.open"
          else
            let! id := read_sess i se_id in
            exchange noise child open l i (call_env open lease id)
      | _, _ => failed "outcome-unknown" "route down"
      end
  end.

Definition call_cancel (peer operation_id : string) : cprog unit :=
  let! r := find_session peer in
  match r with
  | Some (_, Some i) =>
      let! id := read_sess i se_id in
      let env := request_env "call.cancel" ("cc-" +:+ operation_id) id
                   (obj [("reason", JString "consumer-cancel"); ("operation_id", JString operation_id)]) in
      do! on_sess i (send_control to_vec env);
      Ret tt
  | _ => Ret tt
  end.

Definition topology_changed : cprog unit :=
  let! peers := read (λ x, keys (rm_links x)) in
  for_each peers (λ peer,
    let! l := read (λ x, rm_links x !! peer) in
    match l with Some l => push_subscriptions l | None => Ret tt end).

(** An admissible session of the route to [peer]. *)
Definition live_session (peer : string) (f : N → cprog unit) : cprog unit :=
  let! r := find_session peer in
  match r with
  | Some (_, Some i) => let! live := read_sess i admissible in if live then f i else Ret tt
  | _ => Ret tt
  end.

Definition stream_data (peer operation stream_id : string) (seq : N) (payload : string) : cprog unit :=
  if str_is_empty stream_id || (128 <? str_len stream_id)%N then Ret tt
  else
    live_session peer (λ i,
      let body := data_body operation stream_id seq payload in
      if negb (is_ok (Remote.validate_body "stream.data" body)) then Ret tt
      else
        let! id := read_sess i se_id in
        do! on_sess i (send_data to_vec (stream_data_env id stream_id seq body));
        Ret tt).

Definition stream_end (peer stream_id status : string) : cprog unit :=
  let status := end_status status in
  live_session peer (λ i,
    let body := obj [("stream_id", JString stream_id); ("status", JString status)] in
    if negb (is_ok (Remote.validate_body (end_type status) body)) then Ret tt
    else
      let! id := read_sess i se_id in
      do! on_sess i (send_control to_vec (remote_env (end_type status) ("se-" +:+ stream_id) id [] body));
      Ret tt).

(** The calls of the transport that the host makes. *)
Definition perform (noise : nat) (e : Effect) : cprog unit :=
  match e with
  | FxCallOpen child open =>
      let! t := call_open noise child open in
      match t with CallTerminal t => hlift (leg_answers child t) | _ => Ret tt end
  | FxCallCancel peer operation => call_cancel peer operation
  | FxTopology => topology_changed
  | FxStreamData peer operation stream_id seq payload => stream_data peer operation stream_id seq payload
  | FxStreamEnd peer stream_id status => stream_end peer stream_id status
  | _ => Ret tt
  end.

(** ** Diagnosis *)

Definition link_json (x : Ctl) (l : N) : Value :=
  let lk := link l x in
  obj [("peer", JString (pf_name (lk_config lk)));
       ("session", j_opt ((λ i, let s := sess i x in
                             obj [("id", JString (se_id s)); ("state", JString (session_state_debug (session_state s)))])
                          <$> lk_session lk));
       ("lease", j_opt ((λ le, obj [("fence", JString (display (rl_fence le))); ("seq", j_u64 (rl_seq le));
                                    ("ttl_ms", j_u64 (rl_ttl_ms le))]) <$> lk_lease lk));
       ("calls", j_u64 (N.of_nat (size (lk_calls lk))));
       ("renewals", j_u64 (lk_renewals lk)); ("last_error", JString (lk_last_error lk))].

Definition manager_inspect (x : Ctl) : Value :=
  obj [("peers", JArray (link_json x <$>
    merge_sort (λ a b, String.le (pf_name (lk_config (link a x))) (pf_name (lk_config (link b x))))
      (map_to_list (rm_links x)).*2))].
End controller.
