(* ===== verification/ControllerWire.v ===== *)
(** * What the controller sends and parses

    The envelope of a call against the validation of the executor, and the parsing of the
    executor's activation. *)

From S2P Require Import Prelude RustStd Json Utf8 Identity Contexts Resources Deps Calls Manifest Prog Timed.
From S2P Require Import KernelState Wire Dependency Remote Session HostState Controller.
From Stdlib Require Import Ascii.

(** ** The envelope of a call *)

Lemma get_call_env k open lease sid :
  get k (call_env open lease sid) = assoc k
    [("protocol", JString "matrix.remote"); ("version", JString "0.1"); ("type", JString "call.open");
     ("message_id", JString (call_rid open)); ("session_id", JString sid);
     ("instance_id", JString (display (ro_consumer_instance open)));
     ("generation", JString (display (ro_consumer_generation open)));
     ("request_id", JString (call_rid open)); ("body", call_body open lease)].
Proof. by apply get_obj. Qed.

Lemma get_activation k open :
  get k (call_activation open) = assoc k
    [("logical", JString (ro_consumer_logical open));
     ("instance", JString (display (ro_consumer_instance open)));
     ("generation", JString (display (ro_consumer_generation open)))].
Proof. by apply get_obj. Qed.

(** Numbers of 64 bits print as at most twenty digits. *)
Lemma pretty_go_length k x s :
  (x < 10 ^ N.of_nat k)%N → String.length (pretty_N_go x s) ≤ k + String.length s.
Proof.
  revert x s. induction k as [|k IH]; intros x s L.
  - assert (x = 0%N) as -> by (cbn in L; lia). by rewrite pretty_N_go_0.
  - destruct (decide (x = 0)%N) as [->|Hx]; [rewrite pretty_N_go_0; lia|].
    rewrite pretty_N_go_step by lia. rewrite IH; [cbn; lia|].
    rewrite Nat2N.inj_succ, N.pow_succ_r' in L. apply N.Div0.div_lt_upper_bound. lia.
Qed.

Lemma display_u64 n : (n ≤ u64_max)%N → display n ≠ "" ∧ String.length (display n) ≤ 20.
Proof.
  intros L. split.
  - intros E. destruct (digits_head n) as (a & l & D & _). unfold digits in D. by rewrite E in D.
  - unfold display, pretty, pretty_N. case_decide; [cbn; lia|].
    etrans; [apply (pretty_go_length 20)|done]. unfold u64_max in L. lia.
Qed.

Lemma display_identity (o : list (string * Value)) f n :
  (n ≤ u64_max)%N → assoc f o = Some (JString (display n)) → check_identity o f = Ok tt.
Proof.
  intros L E. unfold check_identity. rewrite E. cbn [as_str is_some_and]. apply ensure_ok.
  destruct (display_u64 n L) as [Ne _]. unfold str_is_empty. rewrite bool_decide_eq_false_2 by done.
  pose proof (parse_u64_display n L) as P. unfold digits in P. rewrite P.
  assert (D : all_digits (display n) = true) by apply all_digits_spec, digits_all. by rewrite D.
Qed.

Lemma id_top (o : list (string * Value)) f s :
  assoc f o = Some (JString s) → s ≠ "" → String.length s ≤ MAX_ID_LEN → check_top o f = Ok tt.
Proof.
  intros E N L. unfold check_top. rewrite E. apply ensure_ok. by apply bounded_str_spec.
Qed.

Lemma call_rid_length open : String.length (call_rid open) = 3 + String.length (ro_operation_id open).
Proof. reflexivity. Qed.

(** The members of the envelope with a bound are the request id and what has one of its own. *)
Lemma call_env_top open lease sid o :
  call_env open lease sid = JObject o → sid ≠ "" → String.length sid ≤ MAX_ID_LEN →
  (ro_consumer_instance open ≤ u64_max)%N → (ro_consumer_generation open ≤ u64_max)%N →
  String.length (ro_operation_id open) ≤ 125 →
  Prelude.for_each (check_top o) request_fields = Ok tt ∧
  Prelude.for_each (check_identity o) ["instance_id"; "generation"] = Ok tt.
Proof.
  intros Ev Ns Ls Ui Ug L. pose proof (λ k, get_call_env k open lease sid) as A.
  rewrite Ev in A. unfold get in A. cbn [as_object mbind option_bind] in A.
  assert (D : ∀ n, (n ≤ u64_max)%N → display n ≠ "" ∧ String.length (display n) ≤ MAX_ID_LEN).
  { intros n Un. destruct (display_u64 n Un). split; [done|]. unfold MAX_ID_LEN. lia. }
  assert (R : String.length (call_rid open) ≤ MAX_ID_LEN) by (rewrite call_rid_length; unfold MAX_ID_LEN; lia).
  split; apply for_each_ok; unfold request_fields; repeat apply Forall_cons_2; try apply Forall_nil_2.
  - eapply id_top; [rewrite A; reflexivity|done|done].
  - eapply id_top; [rewrite A; reflexivity|done|done].
  - eapply id_top; [rewrite A; reflexivity|by apply D|by apply D].
  - eapply id_top; [rewrite A; reflexivity|by apply D|by apply D].
  - eapply id_top; [rewrite A; reflexivity|done|done].
  - unfold check_top. by rewrite A.
  - eapply display_identity; [|by rewrite A]; done.
  - eapply display_identity; [|by rewrite A]; done.
Qed.

(** The executor accepts the frame of a call whose body is valid exactly when the operation id
    has at most 125 bytes: the message and request ids are ["co-"] and the operation id, and ids
    have at most 128 bytes. The host issues operation ids of up to 128 bytes; the body with such an
    id is valid, so the controller sends the call, but the executor drops the frame as malformed. *)
Theorem call_frame_accepted (open : RemoteCallOpen) (lease sid : string) :
  Remote.validate_body "call.open" (call_body open lease) = Ok tt →
  sid ≠ "" → String.length sid ≤ MAX_ID_LEN →
  (ro_consumer_instance open ≤ u64_max)%N → (ro_consumer_generation open ≤ u64_max)%N →
  is_ok (Remote.validate_envelope (call_env open lease sid)) = true
    ↔ String.length (ro_operation_id open) ≤ 125.
Proof.
  intros V Ns Ls Ui Ug. split.
  - destruct (validate_envelope _) as [[]|] eqn:Ok; [intros _|done].
    apply remote_open_sound in Ok as (_ & _ & _ & Ids & _); [|unfold get_str; by rewrite get_call_env].
    destruct (Ids "request_id" ltac:(set_solver)) as (s & E & _ & L).
    rewrite get_call_env in E. injection E as <-. rewrite call_rid_length in L. unfold MAX_ID_LEN in L. lia.
  - intros L. pose proof (λ k, get_call_env k open lease sid) as A.
    destruct (call_env open lease sid) as [| | | | |o] eqn:Ev; try discriminate Ev.
    destruct (call_env_top _ _ _ _ Ev Ns Ls Ui Ug L) as [T I].
    unfold get in A. cbn [as_object mbind option_bind] in A.
    assert (S : ∀ f v, assoc f o = Some (JString v) → obj_str f o = Some v) by (intros f v; apply obj_str_Some).
    unfold validate_envelope. cbn [as_object ok_or].
    rewrite (S "protocol" REMOTE_PROTOCOL_ID), (S "version" REMOTE_PROTOCOL_VERSION), (S "type" "call.open") by by rewrite A.
    rewrite !bool_decide_eq_true_2 by done. cbn [ensure ok_or].
    change (required_top "call.open") with (Some request_fields). cbn [ok_or]. rewrite T, I, A. cbn [ok_or].
    change (is_ok (validate_body "call.open" (call_body open lease)) = true). by rewrite V.
Qed.

(** An operation id of 126 bytes. *)
Definition long_open : RemoteCallOpen :=
  mkRemoteCallOpen "edge" "app" 1 1 17 "home" "rb-0" "kv.get@1" JNull 500 500 "" 4
    (of_chars (repeat "a"%char 126)).

Lemma call_frame_accepted_witness :
  Remote.validate_body "call.open" (call_body long_open "lease-1") = Ok tt ∧
  is_ok (Remote.validate_envelope (call_env long_open "lease-1" "sess-1")) = false.
Proof.
  split; [vm_compute; reflexivity|].
  destruct (is_ok _) eqn:E; [|done]. exfalso.
  apply call_frame_accepted in E; [|vm_compute; reflexivity|done|..]; cbn in *; unfold MAX_ID_LEN, u64_max in *; lia.
Defined.

(** ** The activation the executor attests *)

Lemma split_on_free c l : c ∉ l → split_on c l = [l].
Proof.
  induction l as [|a l IH]; [done|]. rewrite not_elem_of_cons. intros [Na Nl]. cbn.
  rewrite bool_decide_eq_false_2 by congruence. by rewrite IH.
Qed.

Lemma split_on_cons c l : ∃ a rest, split_on c l = a :: rest.
Proof.
  induction l as [|x l (a & rest & IH)]; cbn; [by eexists _, _|]. rewrite IH. case_bool_decide; by eexists _, _.
Qed.

Lemma split_on_app c l k : split_on c (l ++ c :: k) = split_on c l ++ split_on c k.
Proof.
  induction l as [|a l IH]; cbn; [by rewrite bool_decide_eq_true_2|].
  case_bool_decide; [by rewrite IH|]. rewrite IH. by destruct (split_on_cons c l) as (? & ? & ->).
Qed.

(** A character that occurs splits a text in two at least. *)
Lemma split_on_many c l : c ∈ l → ∃ a b rest, split_on c l = a :: b :: rest.
Proof.
  intros (l1 & l2 & ->)%list_elem_of_split. rewrite split_on_app.
  destruct (split_on_cons c l1) as (a & r1 & ->), (split_on_cons c l2) as (b & r2 & ->).
  destruct r1; cbn; by eexists _, _, _.
Qed.

Lemma digits_free c n : is_ascii_digit c = false → c ∉ digits n.
Proof. intros Hc Hi. pose proof (digits_all n) as D. rewrite Forall_forall in D. apply D in Hi. congruence. Qed.

Lemma describe_chars r :
  chars (describe r) = "e"%char :: (digits (ref_epoch r) ++ ":"%char :: chars (ref_logical r) ++ ":"%char
    :: digits (ref_instance r) ++ ":"%char :: digits (ref_context r)) ++ "#"%char :: digits (ref_generation r).
Proof.
  unfold describe, digits. rewrite !chars_app. cbn.
  repeat (rewrite <- app_assoc; cbn). done.
Qed.

Lemma strip_prefix_cons a s l : chars s = a :: l → strip_prefix (String a "") s = Some (of_chars l).
Proof. intros E. unfold strip_prefix. rewrite E. cbn. by rewrite bool_decide_eq_true_2. Qed.

(** The controller reads instance and generation back from the description an executor gives
    of its activation, exactly when the logical name has no colon. An executor component whose id
    has one never becomes ready for a route. *)
Theorem describe_parsed (r : InstanceRef) :
  (ref_epoch r ≤ u64_max)%N → (ref_instance r ≤ u64_max)%N → (ref_generation r ≤ u64_max)%N →
  parse_describe (describe r) =
    if bool_decide (":"%char ∈ chars (ref_logical r)) then None
    else Some (ref_instance r, ref_generation r).
Proof.
  intros Ue Ui Ug. unfold parse_describe. erewrite strip_prefix_cons by apply describe_chars.
  cbn [mbind option_bind]. rewrite chars_of_chars, rsplit_at_app by by apply digits_free.
  cbn [mbind option_bind].
  rewrite split_on_app, (split_on_free _ (digits _)) by by apply digits_free.
  rewrite split_on_app, split_on_app, !(split_on_free _ (digits _)) by by apply digits_free.
  case_bool_decide as C.
  - destruct (split_on_many _ _ C) as (a & b & rest & ->). cbn. destruct rest as [|? [|? ?]]; done.
  - rewrite split_on_free by done. cbn. by rewrite !parse_u64_display.
Qed.

Lemma describe_parsed_witness :
  parse_describe "e7:store:2:4#3" = Some (2, 3)%N ∧ parse_describe "e7:a:b:2:4#3" = None.
Proof.
  split.
  - apply (describe_parsed (mkInstanceRef 7 2 4 "store" 3)); unfold u64_max; cbn; lia.
  - apply (describe_parsed (mkInstanceRef 7 2 4 "a:b" 3)); unfold u64_max; cbn; lia.
Defined.
