(* ===== verification/ControllerDemo.v ===== *)
(** * A small controller

    A controller with the remote definitions [alpha] and [beta] and the executor peer [edge]: the
    outside that answers it, the frames of its executor, and the states its methods go through.
    The concrete inputs of the witnesses. *)

From S2P Require Import Prelude RustStd Json Wire Frame Identity Contexts Deps Calls Journal Manifest Prog Timed.
From S2P Require Import KernelState KernelCalls KernelLifecycle KernelDispatch KernelActions KernelDemo.
From S2P Require Import Remote Session HostState HostStreams HostDeps HostConn HostInv HostBudget HostDemo Controller.

(** ** The kernel and the configuration *)

Definition remote_manifest (id : string) : Value :=
  JObject [("id", JString id); ("provides", JArray [JString (id +:+ ".api@1")]); ("remote", JBool true);
           ("reducer", JString "echo")].

Definition install (id : string) (k : Kernel) : Kernel :=
  match parse_manifest_value (remote_manifest id) with
  | Ok m => kernel_run [KInstallRemote m] k
  | Err _ => k
  end.

Definition ctl_kernel : Kernel := install "beta" (install "alpha" demo_fresh).

Definition edge : PeerConfig := mkPeerConfig "edge" "10.0.0.1:7" "edge.local" "ca" "cert" "key" "10.0.0.1:8" "home" 900.
Definition alpha_route : RouteSpec := mkRouteSpec "app" "alpha" "edge".
Definition beta_route : RouteSpec := mkRouteSpec "app" "beta" "edge".

Definition ctl_new : Ctl := manager_new (demo_host_on ctl_kernel) 9 "authority".

(** ** The outside *)

Definition welcome_env : Value :=
  remote_env "session.welcome" "m0" "rs-1" []
    (obj [("version", JString "0.1"); ("features", JArray [JString "remote-calls/1"]);
          ("session_id", JString "rs-1"); ("heartbeat_ms", j_u64 1000); ("executor_epoch", JString "3")]).

Definition demo_io : HandshakeIo :=
  mkHandshakeIo (Ok tt) (Some REMOTE_PROFILE) (Ok "fp-edge") (Ok (Some welcome_env)) (Ok tt).

Definition demo_unary (n : N) (c : PeerConfig) (request : Value) : result Value string :=
  default (Err "unknown action") (arm (default "" (get_str "action" request))
    [(["activate"], Ok (obj [("lease", JString "lease-1"); ("fence", JString "1")]));
     (["status"; "lease-status"], Ok (obj [("ready", JBool true); ("instance", JString "e3:alpha:5:1#2")]));
     (["release"], Ok (obj []))]).

Definition demo_world : CWorld :=
  mkCWorld calm_world demo_unary (λ _ _, Ok demo_io) (λ _, Ok tt) true (λ s, head (elements s)).

(** Frames of the executor, by their text on the wire. *)
Definition edge_answer (ty rid : string) (body : Value) : Value := request_env ty rid "rs-1" body.

Definition edge_texts : list (string * Value) :=
  [ ("1", edge_answer "inventory.result" "rec-9" (obj [("revoked", JArray []); ("unknown", JArray [])]));
    ("2", edge_answer "event.subscribed" "sub-9" (obj [("topics", JArray [])]));
    ("3", edge_answer "call.accepted" "co-op-1" (obj [("operation_id", JString "op-1")]));
    ("4", edge_answer "call.result" "co-op-1" (obj [("status", JString "ok"); ("output", JString "done")]));
    ("5", remote_env "revoke.notice" "m5" "rs-1" [] (obj [("target", JString "beta"); ("fence", JString "1")])) ].

Definition edge_from_str (raw : bytes) : result Value string :=
  match List.find (λ tv, bool_decide (chars tv.1 = raw)) edge_texts with
  | Some tv => Ok tv.2
  | None => Err "unknown text"
  end.

(** A turn of the engine that reads the given texts. *)
Definition demo_turn (now : Instant) (texts : list string) : TurnScript :=
  mkTurnScript now "m1" 0 false (mkPumpScript IoDone None (framed <$> texts) None) now
    [mkFlushRound now (Ok 4096) false true] now.

Notation dsync := (sync demo_world).
Notation dattach := (attach_round demo_to_string demo_world).
Notation dturn := (session_turn demo_to_string edge_from_str demo_world).

(** ** An attached route

    Link 1 over session 2: the worker runs against the engine, which answers the reconciliation
    and the subscription. *)

Definition ctl_synced : Ctl := (run (dsync [edge] [alpha_route]) ctl_new).2.

Definition attach_pool : list (cprog (result unit string)) :=
  [dattach 1; do! dturn 2 "edge" (demo_turn 0 ["1"]); Ret (Ok tt); do! dturn 2 "edge" (demo_turn 0 ["2"]); Ret (Ok tt)].

Definition attach_sched : list nat := repeat 0 400 ++ repeat 1 5 ++ repeat 0 300 ++ repeat 2 5 ++ repeat 0 300.

Definition attach_end : list (cprog (result unit string)) * Ctl := exec attach_sched (attach_pool, ctl_synced).

Definition ctl_attached : Ctl := attach_end.2.
