(* ===== verification/ControllerInv.v ===== *)
(** * The invariant of the controller

    Every interleaving of the methods of the manager, the engines of its sessions and arbitrary
    programs of the host keeps the tables of the links bounded, and every session of a link in the
    invariant of [SessionProps]. *)

From S2P Require Import Prelude RustStd Json Identity Contexts Deps Calls Manifest Prog Timed.
From S2P Require Import KernelState KernelCalls KernelLifecycle KernelDispatch Inventory.
From S2P Require Import Wire Remote Session SessionProps HostState HostStreams HostDeps HostConn Controller.

(** ** Channels of a session

    All channels that a session has answered or still holds were issued before [n]. *)

Record below (n : N) (s : Sess) : Prop := {
  bl_answers : Forall (λ cr : N * result Value string, (cr.1 < n)%N) (tr_answers (se_trace s));
  bl_pending : map_Forall (λ _ (v : N * Instant), (v.1 < n)%N) (pending s);
  bl_replies : map_Forall (λ _ (v : N * Instant), (v.1 < n)%N) (replies s);
}.

Lemma below_channel n c s : below n s → (n ≤ c)%N → c ∉ all_channels s.
Proof.
  intros [A P R] L. unfold all_channels, channels. rewrite !elem_of_app, !list_elem_of_fmap.
  intros [([? r] & -> & Hi)|[(v & -> & ([k v'] & -> & Hi)%list_elem_of_fmap)|(v & -> & ([k v'] & -> & Hi)%list_elem_of_fmap)]].
  - rewrite Forall_forall in A. apply A in Hi. cbn in *. lia.
  - apply elem_of_map_to_list in Hi. apply P in Hi. cbn in *. lia.
  - apply elem_of_map_to_list in Hi. apply R in Hi. cbn in *. lia.
Qed.

Lemma below_mono n m s : (n ≤ m)%N → below n s → below m s.
Proof.
  intros L [A P R]. split.
  - eapply Forall_impl; [exact A|]. cbn. lia.
  - intros k v Hk. apply P in Hk. lia.
  - intros k v Hk. apply R in Hk. lia.
Qed.

(** A step that leaves the three tables alone. *)
Lemma below_same n s s' :
  tr_answers (se_trace s') = tr_answers (se_trace s) → pending s' = pending s → replies s' = replies s →
  below n s → below n s'.
Proof. intros E1 E2 E3 [A P R]. split; by rewrite ?E1, ?E2, ?E3. Qed.

Lemma answer_all_below n reason (m : gmap string (N * Instant)) :
  map_Forall (λ _ v, (v.1 < n)%N) m → Forall (λ cr : N * result Value string, (cr.1 < n)%N) (answer_all reason m).
Proof.
  intros P. unfold answer_all. apply Forall_fmap, Forall_fmap, Forall_forall. intros [k v] Hi.
  apply elem_of_map_to_list in Hi. by apply P in Hi.
Qed.

Lemma retain_below n f (m : gmap string (N * Instant)) :
  map_Forall (λ _ v, (v.1 < n)%N) m → map_Forall (λ _ v, (v.1 < n)%N) (retain f m).
Proof. intros P k v [Hk _]%map_lookup_filter_Some. by apply P in Hk. Qed.

Section sessions.
Context (to_vec : Value → bytes) (from_str : bytes → result Value string).
Notation sess_step := (sess_step to_vec from_str).

Lemma below_drain n now cmd s : below n s → below n (drain_one now cmd s).
Proof.
  intros [A P R]. unfold drain_one. destruct cmd as [f|f|rid f t]; try (by case_match).
  destruct (replies s !! rid) as [[tx t']|] eqn:E.
  - apply R in E as L. repeat case_match; split; cbn; try done;
      try (apply Forall_app; split; [done|by repeat constructor]);
      try (by apply map_Forall_delete); by apply map_Forall_insert_2.
  - split; cbn; try done. by apply map_Forall_delete.
Qed.

Lemma below_dispatch n now env s : below n s → below n (dispatch now env s).
Proof.
  intros B. assert (B' : below n (note_inbound now s)) by by eapply below_same; [| | |exact B].
  unfold dispatch. set (s1 := note_inbound now s) in *. clearbody s1. clear s B. destruct B' as [A P R].
  assert (S : ∀ s', tr_answers (se_trace s') = tr_answers (se_trace s1) → pending s' = pending s1 →
    replies s' = replies s1 → below n s') by (intros s' E1 E2 E3; split; by rewrite ?E1, ?E2, ?E3).
  destruct (get_str "request_id" env) as [rid|].
  - destruct (pending s1 !! rid) as [[tx t]|] eqn:E.
    + apply P in E as L. split; cbn; [|by apply map_Forall_delete|done].
      apply Forall_app. split; [done|by repeat constructor].
    + destruct (multi s1 !! rid); [by apply S|]. destruct (is_answer_type _); [by apply S|].
      unfold serve. repeat case_match; by apply S.
  - unfold serve. repeat case_match; by apply S.
Qed.

Lemma below_expire n now s : below n s → below n (expire_pending now s).
Proof.
  intros [A P R]. split; cbn.
  - apply Forall_app. split; [done|]. by apply answer_all_below, retain_below.
  - by apply retain_below.
  - by apply retain_below.
Qed.

Lemma below_stop n reason s : below n s → below n (drop_receiver (detach reason s)).
Proof.
  intros [A P R]. split; cbn; [|done|done]. rewrite <- app_assoc.
  apply Forall_app; split; [done|]. apply Forall_app. split; by apply answer_all_below.
Qed.

Lemma below_engine n s s' : engine_step to_vec from_str s s' → below n s → below n s'.
Proof.
  intros S B. destruct S as [now cmd l s E|now s|now id s|now s s' E|p s r s' E|now env s|now rs en s r s' E Nb|k env max f s E].
  - apply below_drain. by eapply below_same; [| | |exact B].
  - by apply below_expire.
  - eapply below_same; [..|exact B]; unfold heartbeat_due; by repeat case_match.
  - unfold check_timers in E. repeat case_match; simplify_eq; [|done]. by eapply below_same; [| | |exact B].
  - unfold pump_reads in E. repeat case_match; simplify_eq; try done; by eapply below_same; [| | |exact B].
  - by apply below_dispatch.
  - unfold flush_one in E. repeat case_match; simplify_eq; try done; by eapply below_same; [| | |exact B].
  - by eapply below_same; [| | |exact B].
Qed.

Lemma below_foldl {B} n (f : Sess → B → Sess) l s :
  (∀ s b, below n s → below n (f s b)) → below n s → below n (foldl f s l).
Proof. intros F. revert s. induction l as [|b l IH]; intros s H; cbn; [done|]. by apply IH, F. Qed.

Lemma below_flush n now rs en s r s' : flush_one now rs en s = (r, s') → below n s → below n s'.
Proof.
  intros E B. unfold flush_one in E. repeat case_match; simplify_eq; try done; by eapply below_same; [| | |exact B].
Qed.

Lemma below_timers n now s go s' : check_timers now s = (go, s') → below n s → below n (if go then s' else drop_receiver s').
Proof.
  intros E B. unfold check_timers in E. repeat case_match; simplify_eq; [by apply below_stop| |done].
  by eapply below_same; [| | |exact B].
Qed.

Lemma below_turn n t s : below n s → below n (engine_turn to_vec from_str t s).2.
Proof.
  intros B. unfold engine_turn, stop. destruct (sh_shutdown (se_shared s)).
  { apply below_stop. destruct (encode_frame to_vec _ _); [|done]. by eapply below_same; [| | |exact B]. }
  assert (B1 : below n (heartbeat_due to_vec (tu_now t) (tu_message_id t)
    (expire_pending (tu_now t) (drain_commands (tu_now t) s)))).
  { eapply below_engine; [apply es_heartbeat|]. apply below_expire. unfold drain_commands.
    apply below_foldl; [intros; by apply below_drain|]. by eapply below_same; [| | |exact B]. }
  set (s1 := heartbeat_due _ _ _ _) in *. clearbody s1.
  destruct (check_timers (tu_now t) s1) as [go s2] eqn:Et. apply (below_timers n) in Et; [|done].
  destruct go; cbn [negb]; [|done]. destruct (tu_poll_error t); [by apply below_stop|].
  destruct (pump_reads from_str (tu_pump t) s2) as [[frames|e] s3] eqn:Ep;
    apply (es_pump to_vec) in Ep; apply (below_engine n) in Ep; try done; [|by apply below_stop].
  set (s4 := foldl _ s3 frames).
  assert (B4 : below n s4) by (apply below_foldl; [intros; by apply below_dispatch|done]). clearbody s4.
  destruct (_ && _); cbn; [by apply below_expire|].
  destruct (flush_one _ _ _ s4) as [r s5] eqn:Ef. apply (below_flush n) in Ef; [|done].
  destruct r; cbn; [by apply below_expire|by apply below_stop|done].
Qed.

(** ** One session of the controller *)

Definition sound (n : N) (s : Sess) : Prop := session_ok to_vec s ∧ below n s.

Lemma sound_mono n m s : (n ≤ m)%N → sound n s → sound m s.
Proof. intros L [O B]. split; [done|by eapply below_mono]. Qed.

Lemma sound_spawn n limits id peer now : sound n (spawn limits id peer now).
Proof. split; [apply spawn_ok|]. by split. Qed.

(** What a caller may do: a step of [SessionProps] that issues no channel. *)
Lemma sound_step n s s' : sess_step s s' →
  tr_answers (se_trace s') = tr_answers (se_trace s) → pending s' = pending s →
  replies s' ⊆ replies s → sound n s → sound n s'.
Proof.
  intros St E1 E2 E3 [O [A P R]]. split; [by eapply sess_step_ok|]. split; rewrite ?E1, ?E2; try done.
  intros k v Hk. eapply R. by eapply lookup_weaken.
Qed.

Lemma sound_register n rid timeout now s : sound n s → sound (n + 1) (request_register n rid timeout now s).2.
Proof.
  intros [O B]. split.
  - eapply (sess_step_ok to_vec from_str); [done|]. apply ss_register. by eapply below_channel.
  - apply (below_mono n (n + 1)) in B as [A P R]; [|lia]. unfold request_register.
    repeat case_match; split; cbn; try done. apply map_Forall_insert_2; [cbn; lia|done].
Qed.

Lemma sound_turn n t s : running s → sound n s →
  (engine_turn to_vec from_str t s).1 ≠ Blocked → sound n (engine_turn to_vec from_str t s).2.
Proof.
  intros R [O B] N. split; [|by apply below_turn]. destruct (engine_turn _ _ t s) as [r s'] eqn:E.
  pose proof (engine_turn_steps to_vec from_str t s r s' R E N) as St. cbn.
  clear -St O. induction St as [s|s1 s2 s3 S _ IH]; [done|]. apply IH. by eapply sess_step_ok.
Qed.
End sessions.

(** ** The controller *)

Section controller.
Context {E : Env} (to_string : Value → string) (from_str : bytes → result Value string).
Notation to_vec := (λ v, chars (to_string v)).

Record ctl_ok (x : Ctl) : Prop := {
  ck_links : map_Forall (λ _ lk, size (lk_calls lk) ≤ MAX_REMOTE_LEGS) (rm_heap x);
  ck_sessions : map_Forall (λ _ s, sound to_vec (rm_next x) s) (rm_sessions x);
}.

Notation keep := (always (preserves ctl_ok)).

Lemma ctl_link x l : ctl_ok x → size (lk_calls (link l x)) ≤ MAX_REMOTE_LEGS.
Proof.
  intros [L _]. unfold link. rewrite lookup_total_alt. destruct (rm_heap x !! l) as [lk|] eqn:El; cbn; [by eapply L|].
  unfold MAX_REMOTE_LEGS. change (size (∅ : gmap string N) ≤ 256). rewrite map_size_empty. lia.
Qed.

Lemma ctl_sess x i : ctl_ok x → sound to_vec (rm_next x) (sess i x).
Proof.
  intros [_ S]. unfold sess. rewrite lookup_total_alt. destruct (rm_sessions x !! i) eqn:Es; cbn; [by eapply S|].
  apply sound_spawn.
Qed.

Lemma ok_frame x x' : rm_heap x' = rm_heap x → rm_sessions x' = rm_sessions x → (rm_next x ≤ rm_next x')%N →
  ctl_ok x → ctl_ok x'.
Proof.
  intros E1 E2 L [A B]. split; rewrite ?E1, ?E2; [done|]. intros i s Hs. eapply sound_mono; [exact L|by eapply B].
Qed.

Lemma ok_set_sess x i s : ctl_ok x → sound to_vec (rm_next x) s → ctl_ok (set_rm_sessions (<[i := s]> (rm_sessions x)) x).
Proof. intros [A B] S. split; [done|]. cbn. by apply map_Forall_insert_2. Qed.

Lemma ok_set_link x l lk : ctl_ok x → size (lk_calls lk) ≤ MAX_REMOTE_LEGS → ctl_ok (set_rm_heap (<[l := lk]> (rm_heap x)) x).
Proof. intros [A B] S. split; [|done]. cbn. by apply map_Forall_insert_2. Qed.

Lemma keep_hlift {A} (p : hprog A) : keep (hlift p).
Proof.
  induction p as [a|X f k IH|c u k IH]; cbn; [done| |]; (split; [|done]).
  - intros x Ok. destruct (f (rm_host x)) as [a h]. apply (ok_frame x); [done|done|cbn; lia|exact Ok].
  - intros x Ok. apply (ok_frame x); [done|done|cbn; lia|exact Ok].
Qed.

Lemma keep_link {X} l (f : PeerLink → X * PeerLink) :
  (∀ lk, size (lk_calls lk) ≤ MAX_REMOTE_LEGS → size (lk_calls (f lk).2) ≤ MAX_REMOTE_LEGS) → keep (on_link l f).
Proof.
  intros F. apply always_one. intros x Ok. specialize (F (link l x) (ctl_link _ _ Ok)).
  destruct (f (link l x)) as [a lk]. by apply ok_set_link.
Qed.

Lemma keep_sess {X} i (f : Sess → X * Sess) :
  (∀ n s, sound to_vec n s → sound to_vec n (f s).2) → keep (on_sess i f).
Proof.
  intros F. apply always_one. intros x Ok. specialize (F _ _ (ctl_sess _ i Ok)).
  destruct (f (sess i x)) as [a s]. by apply ok_set_sess.
Qed.

(** An action on anything else. *)
Lemma keep_other {X} (f : Ctl → X * Ctl) :
  (∀ x, rm_heap (f x).2 = rm_heap x ∧ rm_sessions (f x).2 = rm_sessions x ∧ (rm_next x ≤ rm_next (f x).2)%N) →
  keep (act f).
Proof. intros F. apply always_one. intros x Ok. destruct (F x) as (E1 & E2 & L). by eapply ok_frame. Qed.

Lemma keep_advance n x : ctl_ok x → ctl_ok (advance n x).
Proof. by apply ok_frame. Qed.

(** Steps of callers. *)
Lemma sound_caller n (f : Sess → Sess) :
  (∀ s, sess_step to_vec from_str s (f s)) →
  (∀ s, tr_answers (se_trace (f s)) = tr_answers (se_trace s) ∧ pending (f s) = pending s ∧ replies (f s) ⊆ replies s) →
  ∀ s, sound to_vec n s → sound to_vec n (f s).
Proof. intros St Fr s. destruct (Fr s) as (E1 & E2 & E3). by eapply sound_step. Qed.

Lemma sound_shutdown n s : sound to_vec n s → sound to_vec n (shutdown s).
Proof. apply (sound_caller n shutdown); [intros; apply ss_shutdown|done]. Qed.
Lemma sound_handler n s : sound to_vec n s → sound to_vec n (set_handler s).
Proof. apply (sound_caller n set_handler); [intros; apply ss_handler|done]. Qed.
Lemma sound_abandon rid n s : sound to_vec n s → sound to_vec n (request_abandon rid s).
Proof.
  apply (sound_caller n (request_abandon rid)); [intros; apply ss_abandon|].
  intros s'. split_and!; [done|done|]. apply delete_subseteq.
Qed.
Lemma sound_unsubscribe rid n s : sound to_vec n s → sound to_vec n (unsubscribe_answers rid s).
Proof. apply (sound_caller n (unsubscribe_answers rid)); [intros; apply ss_unsubscribe|done]. Qed.
Lemma sound_subscribe rid c n s : sound to_vec n s → sound to_vec n (subscribe_answers rid c s).2.
Proof.
  apply (sound_caller n (λ s, (subscribe_answers rid c s).2)); [intros; apply ss_subscribe|].
  intros s'. unfold subscribe_answers. by repeat case_match.
Qed.
Lemma sound_submit env rid t n s : sound to_vec n s → sound to_vec n (request_submit to_vec env rid t s).2.
Proof.
  apply (sound_caller n (λ s, (request_submit to_vec env rid t s).2)); [intros; apply ss_submit|].
  intros s'. unfold request_submit, send_cmd, try_send. repeat case_match; simplify_eq/=; try done;
    (split_and!; [done|done|]); apply delete_subseteq.
Qed.
Lemma sound_control env n s : sound to_vec n s → sound to_vec n (send_control to_vec env s).2.
Proof.
  apply (sound_caller n (λ s, (send_control to_vec env s).2)); [intros; apply ss_control|].
  intros s'. unfold send_control, send_cmd, try_send. by repeat case_match; simplify_eq/=.
Qed.
Lemma sound_data env n s : sound to_vec n s → sound to_vec n (send_data to_vec env s).2.
Proof.
  apply (sound_caller n (λ s, (send_data to_vec env s).2)); [intros; apply ss_data|].
  intros s'. unfold send_data, send_cmd, try_send. by repeat case_match; simplify_eq/=.
Qed.

(** *** Single actions *)

Lemma keep_open_request i rid t : keep (act (open_request i rid t)).
Proof.
  apply always_one. intros x Ok. unfold open_request, fresh.
  pose proof (sound_register to_vec from_str (rm_next x) rid t (clock x) _ (ctl_sess _ i Ok)) as S.
  assert (Ok' : ctl_ok (set_rm_next (rm_next x + 1) x)) by (apply (ok_frame x); [done|done|cbn; lia|exact Ok]).
  change (sess i (set_rm_next (rm_next x + 1) x)) with (sess i x).
  change (clock (set_rm_next (rm_next x + 1) x)) with (clock x).
  destruct (request_register (rm_next x) rid t (clock x) (sess i x)) as [r s]. by apply ok_set_sess.
Qed.

Lemma keep_dial w c hello : keep (dial to_string w c hello).
Proof.
  apply always_one. intros x Ok.
  assert (Ok' : ctl_ok (set_rm_next (rm_next x + 1) (set_rm_asked (rm_asked x + 1) x)))
    by (apply (ok_frame x); [done|done|cbn; lia|exact Ok]).
  cbv zeta. destruct (cw_dial w (rm_asked x) c) as [io|e]; [|apply (ok_frame x); [done|done|cbn; lia|exact Ok]].
  destruct (connect _ io _ _ _) as [[s welcome]|e] eqn:Ec; [|apply (ok_frame x); [done|done|cbn; lia|exact Ok]].
  apply (ok_set_sess (set_rm_next (rm_next x + 1) (set_rm_asked (rm_asked x + 1) x))); [exact Ok'|]. unfold connect in Ec. mx_ok. simplify_eq. apply sound_spawn.
Qed.

Lemma keep_add_link w p : keep (modify (add_link w p)).
Proof.
  apply always_modify. intros x Ok. unfold add_link. destruct (is_some _); [done|]. cbn.
  set (lk := new_link _ _).
  assert (S : ctl_ok (set_rm_heap (<[rm_next x := lk]> (rm_heap x)) (set_rm_next (rm_next x + 1) x))).
  { apply (ok_set_link (set_rm_next (rm_next x + 1) x)).
    - apply (ok_frame x); [done|done|cbn; lia|exact Ok].
    - change (size (∅ : gmap string N) ≤ 256). rewrite map_size_empty. lia. }
  destruct (cw_thread w); (refine (ok_frame _ _ _ _ _ S); done).
Qed.

Lemma send_mail_frame c m x : rm_heap (send_mail c m x) = rm_heap x ∧ rm_sessions (send_mail c m x) = rm_sessions x
  ∧ rm_next (send_mail c m x) = rm_next x.
Proof. done. Qed.

Lemma keep_turn_step i t : keep (act (turn_step to_string from_str i t)).
Proof.
  apply always_one. intros x Ok. unfold turn_step.
  destruct (negb _ || _) eqn:Hr; [done|]. apply orb_false_iff in Hr as [Hr Hp]. apply negb_false_iff in Hr.
  pose proof (sound_turn to_vec from_str (rm_next x) t (sess i x) (conj Hr Hp) (ctl_sess _ i Ok)) as S.
  destruct (engine_turn _ _ t (sess i x)) as [r s']. cbn in S.
  assert (G : ∀ l y, ctl_ok y → ctl_ok (foldl (λ x (m : N * result Value string), send_mail m.1 m.2 x) y l)).
  { induction l as [|m l IH]; intros y Oy; cbn; [done|]. apply IH. by eapply ok_frame; [| | |exact Oy]. }
  destruct r; [..|done]; apply G, ok_set_sess; auto.
Qed.

(** *** Programs *)

Create HintDb kept.

Ltac kept_other := apply keep_other; intros ?; unfold fresh, take_mail, take_link; repeat case_match; cbn; (split_and!; [done|done|lia]).

(** Follows a program; an action that is not known leaves links and sessions alone. *)
Ltac kept_step :=
  match goal with
  | |- always _ (bind _ _) => apply always_bind; [|intros ?]
  | |- always _ (Ret _) => exact I
  | |- always _ (read _) => apply always_read; apply _
  | |- always _ (read_link _ _) => apply always_read; apply _
  | |- always _ (read_sess _ _) => apply always_read; apply _
  | |- always _ (read_kernel _) => apply always_read; apply _
  | |- always _ (kernel _) => apply keep_hlift
  | |- always _ (hlift _) => apply keep_hlift
  | |- always _ (Prog.for_each _ _) => apply always_for_each; intros ? _
  | |- always _ (for_fold _ _ _) => apply always_for_fold; intros ? ? _
  | |- always _ (Wait _ _ _) => split; [intros ? ?; by apply keep_advance|intros ?]
  | |- always _ (if ?b then _ else _) => destruct b
  | |- always _ (match ?x with _ => _ end) => destruct x
  | |- always _ _ => solve [auto with kept nocore]
  | |- always _ (modify _) => kept_other
  | |- always _ (act _) => kept_other
  end.
Ltac kept_prog := intros; repeat kept_step.

Ltac kept_link := intros; apply keep_link; intros [] ?; cbn in *; done.

Lemma keep_take_session l : keep (take_link_session l).
Proof. kept_link. Qed.
Lemma keep_take_lease l : keep (take_lease l).
Proof. kept_link. Qed.
Lemma keep_set_session l s : keep (upd_link l (set_lk_session s)).
Proof. kept_link. Qed.
Lemma keep_set_lease l s : keep (upd_link l (set_lk_lease s)).
Proof. kept_link. Qed.
Lemma keep_set_provider l s : keep (upd_link l (set_lk_provider s)).
Proof. kept_link. Qed.
Lemma keep_set_error l s : keep (upd_link l (set_lk_last_error s)).
Proof. kept_link. Qed.
Lemma keep_set_closed l s : keep (upd_link l (set_lk_closed s)).
Proof. kept_link. Qed.
Lemma keep_renewals l : keep (upd_link l (λ lk, set_lk_renewals (lk_renewals lk + 1) lk)).
Proof. kept_link. Qed.
Lemma keep_store_token l t : keep (upd_link l (store_token t)).
Proof. kept_link. Qed.
Lemma keep_next_renewal l : keep (on_link l next_renewal).
Proof. intros. apply keep_link. intros [] ?. unfold next_renewal. cbn in *. case_match; done. Qed.
Lemma keep_drain_calls l : keep (drain_calls l).
Proof.
  apply keep_link. intros lk _. change (size (∅ : gmap string N) ≤ 256). rewrite map_size_empty. lia.
Qed.
Lemma keep_enter l rid c : keep (on_link l (enter_call rid c)).
Proof.
  apply keep_link. intros lk L. unfold enter_call. destruct (_ <=? _) eqn:Hl; [done|]. cbn.
  apply Nat.leb_gt in Hl. rewrite map_size_insert. destruct (lk_calls lk !! rid); unfold id; lia.
Qed.
Lemma keep_leave l rid : keep (upd_link l (leave_call rid)).
Proof.
  apply keep_link. intros lk L. cbn. etrans; [|exact L]. apply map_subseteq_size, delete_subseteq.
Qed.

#[local] Hint Resolve keep_take_session keep_take_lease keep_set_session keep_set_lease keep_set_provider
  keep_set_error keep_set_closed keep_renewals keep_store_token keep_next_renewal keep_drain_calls keep_enter
  keep_leave keep_open_request keep_dial keep_add_link keep_turn_step : kept.

Ltac kept_sess L := intros; apply keep_sess; intros ? ?; by apply L.

Lemma keep_shutdown i : keep (upd_sess i shutdown).
Proof. kept_sess sound_shutdown. Qed.
Lemma keep_handler i : keep (upd_sess i set_handler).
Proof. kept_sess sound_handler. Qed.
Lemma keep_abandon i rid : keep (upd_sess i (request_abandon rid)).
Proof. kept_sess sound_abandon. Qed.
Lemma keep_unsubscribe i rid : keep (upd_sess i (unsubscribe_answers rid)).
Proof. kept_sess sound_unsubscribe. Qed.
Lemma keep_subscribe i rid c : keep (on_sess i (subscribe_answers rid c)).
Proof. kept_sess sound_subscribe. Qed.
Lemma keep_submit i env rid t : keep (on_sess i (request_submit to_vec env rid t)).
Proof. kept_sess sound_submit. Qed.
Lemma keep_control i env : keep (on_sess i (send_control to_vec env)).
Proof. kept_sess sound_control. Qed.
Lemma keep_data i env : keep (on_sess i (send_data to_vec env)).
Proof. kept_sess sound_data. Qed.
#[local] Hint Resolve keep_shutdown keep_handler keep_abandon keep_unsubscribe keep_subscribe keep_submit
  keep_control keep_data : kept.

Lemma keep_note l ok msg : keep (note l ok msg).
Proof.
  unfold note. kept_prog. apply always_one. intros x Ok. cbn. apply ok_set_link; [done|].
  pose proof (ctl_link x l Ok) as L. by destruct (link l x).
Qed.
Lemma keep_request_loop n i c rid t wt : keep (request_loop n i c rid t wt).
Proof. revert wt. induction n as [|n IH]; intros wt; cbn [request_loop]; unfold recv_answer; kept_prog; apply IH. Qed.
#[local] Hint Resolve keep_note keep_request_loop : kept.
Lemma keep_request i env t : keep (session_request to_string i env t).
Proof. unfold session_request. kept_prog. Qed.

Context (w : CWorld).

Lemma keep_unary c v : keep (unary w c v).
Proof. unfold unary. kept_prog. Qed.
#[local] Hint Resolve keep_request keep_unary : kept.
Lemma keep_teardown l r : keep (teardown_link w l r).
Proof. unfold teardown_link. kept_prog. Qed.
#[local] Hint Resolve keep_teardown : kept.
Lemma keep_manager_shutdown : keep (manager_shutdown w).
Proof. unfold manager_shutdown. kept_prog. Qed.
Lemma keep_sync peers routes : keep (sync w peers routes).
Proof. unfold sync, prune_link. kept_prog. Qed.
Lemma keep_cancel_revoked peer ids : keep (cancel_revoked_operations peer ids).
Proof. unfold cancel_revoked_operations, cancel_revoked. kept_prog. Qed.
#[local] Hint Resolve keep_cancel_revoked : kept.
Lemma keep_reconcile l : keep (reconcile_link to_string l).
Proof. unfold reconcile_link, reconcile_operations, reconcile_operation, refresh_activation. kept_prog. Qed.
Lemma keep_push l : keep (push_subscriptions to_string l).
Proof. unfold push_subscriptions, remote_consumer_topics, consumer_topics. kept_prog. Qed.
#[local] Hint Resolve keep_reconcile keep_push : kept.
Lemma keep_poll {A} n (round : cprog (option A)) : keep round → keep (poll n round).
Proof. intros R. induction n as [|n IH]; cbn [poll]; kept_prog. Qed.
Lemma keep_attach l : keep (attach_round to_string w l).
Proof.
  unfold attach_round, attach_session, obtain_lease, activate_provider, await_ready, install_transport, route_provider.
  kept_prog. all: apply keep_poll; unfold status_round, pause; kept_prog.
Qed.
#[local] Hint Resolve keep_attach : kept.
Lemma keep_renew l : keep (renew_once to_string l).
Proof. unfold renew_once. kept_prog. Qed.
#[local] Hint Resolve keep_renew : kept.
Lemma keep_monitor n l : keep (monitor_link to_string w n l).
Proof. induction n as [|n IH]; cbn [monitor_link]; unfold monitor_round, pause; kept_prog. Qed.
#[local] Hint Resolve keep_monitor : kept.
Lemma keep_worker n m l b : keep (link_worker to_string w n m l b).
Proof. revert b. induction n as [|n IH]; intros b; cbn [link_worker]; unfold worker_round, pause; kept_prog. Qed.
#[local] Hint Resolve keep_worker keep_manager_shutdown keep_sync : kept.

Lemma keep_message peer env : keep (on_message to_string w peer env).
Proof.
  unfold on_message, on_notice. kept_prog. cbn [arm]. repeat case_bool_decide; cbn [default];
    unfold id, revoke_notice, event_deliver, on_stream_data, on_stream_credit, on_stream_terminal; kept_prog.
Qed.
#[local] Hint Resolve keep_message : kept.
Lemma keep_session_turn i peer t : keep (session_turn to_string from_str w i peer t).
Proof. unfold session_turn. kept_prog. Qed.
Lemma keep_cleanup i l rid : keep (cleanup i l rid).
Proof. unfold cleanup. kept_prog. Qed.
#[local] Hint Resolve keep_session_turn keep_cleanup : kept.
Lemma keep_call_round child i l rid c d : keep (call_round child i l rid c d).
Proof. unfold call_round. kept_prog. Qed.
#[local] Hint Resolve keep_call_round : kept.
Lemma keep_call_wait q n child i l rid c d : keep (call_wait q n child i l rid c d).
Proof.
  revert q. induction n as [|n IHn]; intros q; induction q as [|q IHq]; cbn [call_wait]; kept_prog; done.
Qed.
#[local] Hint Resolve keep_call_wait : kept.
Lemma keep_call_open n child open : keep (call_open to_string n child open).
Proof. unfold call_open, find_session, exchange, failed. kept_prog. Qed.
Lemma keep_perform n e : keep (perform to_string n e).
Proof.
  destruct e; cbn [perform]; unfold call_cancel, topology_changed, stream_data, stream_end, live_session, find_session;
    kept_prog. apply keep_call_open.
Qed.
#[local] Hint Resolve keep_perform : kept.
End controller.
