(* ===== verification/ControllerProps.v ===== *)
(** * Properties of the controller

    The invariant of every interleaving, and the end of every remote call. *)

From S2P Require Import Prelude RustStd Json Identity Contexts Deps Calls Journal Manifest Prog Timed.
From S2P Require Import KernelState KernelCalls KernelLifecycle KernelDispatch KernelActions KernelDemo Inventory.
From S2P Require Import Wire Remote Session SessionProps HostState HostStreams HostDeps HostConn HostInv HostBudget HostDemo.
From S2P Require Import Controller ControllerDemo ControllerInv.

(** ** The methods as threads *)

(** The methods of the manager, turns of its engines, calls of its transport, and any program of
    the host. *)
Inductive CtlOp : Type :=
| CoSync (peers : list PeerConfig) (routes : list RouteSpec)
| CoShutdown
| CoWorker (n turns : nat) (l backoff : N)
| CoTurn (i : N) (peer : string) (t : TurnScript)
| CoPerform (noise : nat) (e : Effect)
| CoRevoked (peer : string) (ids : list string)
| CoHost (p : hprog unit).

Section props.
Context {E : Env} (to_string : Value → string) (from_str : bytes → result Value string).
Notation to_vec := (λ v, chars (to_string v)).

Definition cop_prog (w : CWorld) (o : CtlOp) : cprog unit :=
  match o with
  | CoSync peers routes => sync w peers routes
  | CoShutdown => manager_shutdown w
  | CoWorker n turns l backoff => link_worker to_string w n turns l backoff
  | CoTurn i peer t => do! session_turn to_string from_str w i peer t; Ret tt
  | CoPerform noise e => perform to_string noise e
  | CoRevoked peer ids => do! cancel_revoked_operations peer ids; Ret tt
  | CoHost p => hlift p
  end.

Definition ctl_threads (ops : list (CWorld * CtlOp)) : list (cprog unit) := (λ wo, cop_prog wo.1 wo.2) <$> ops.

Lemma keep_cop w o : always (preserves (ctl_ok to_string)) (cop_prog w o).
Proof.
  destruct o; cbn [cop_prog]; try (apply always_bind; [|done]).
  - by apply (keep_sync to_string from_str).
  - by apply (keep_manager_shutdown to_string from_str).
  - by apply keep_worker.
  - by apply keep_session_turn.
  - by apply keep_perform.
  - by apply keep_cancel_revoked.
  - by apply keep_hlift.
Qed.

Lemma ctl_ok_new host epoch authority : ctl_ok to_string (manager_new host epoch authority).
Proof. by split; cbn; apply map_Forall_empty. Qed.

Lemma threads_ok ops x ps x' : ctl_ok to_string x → rtc pool_step (ctl_threads ops, x) (ps, x') → ctl_ok to_string x'.
Proof.
  intros Ok R. eapply always_pool; [apply keep_advance| |exact Ok|exact R].
  apply Forall_fmap, Forall_forall. intros wo _. apply keep_cop.
Qed.

(** C11: In every state that any interleaving of the methods of a manager, of the engines of its
    sessions and of the host can reach, the table of calls of every link has at most 256 entries, and every
    session is in the invariant of sessions: its queues and tables are within their limits, every
    request is answered at most once, what went out is a sequence of complete frames. *)
Theorem manager_invariant (ops : list (CWorld * CtlOp)) host epoch authority ps x :
  rtc pool_step (ctl_threads ops, manager_new host epoch authority) (ps, x) →
  (∀ l lk, rm_heap x !! l = Some lk → size (lk_calls lk) ≤ 256) ∧
  (∀ i s, rm_sessions x !! i = Some s → SessionProps.session_ok to_vec s).
Proof.
  intros R. apply threads_ok in R as [L S]; [|apply ctl_ok_new]. split; [done|].
  intros i s Hs. by apply S in Hs as [].
Qed.

(** ** Calls end *)

Lemma call_round_timed child i l rid c D t :
  timed (λ t' h, h = HNothing → (t < D)%N ∧ (N.min (t + 25) D ≤ t')%N) t (call_round child i l rid c D).
Proof.
  set (Q := λ (t' : N) (h : Heard), h = HNothing → (t < D)%N ∧ (N.min (t + 25) D ≤ t')%N).
  assert (F : ∀ t1 r, timed Q t1 (do! cleanup i l rid; Ret (HTerminal r))) by (intros t1 r; by apply timed_skip).
  unfold call_round. apply timed_skip. intros t1 [|] L1; [apply F|]. apply timed_read. intros s L2.
  destruct (N.leb_spec D (clock s)) as [G|G]; [apply F|]. apply timed_bind. split.
  - intros s1 L' _. apply timed_skip. intros t2 [[ans|e]|] L3; cbn -[bind]; [|done|done].
    destruct (bool_decide _); [apply F|done].
  - intros t' L' U. apply timed_skip. intros t2 [|] L3; cbn -[bind]; [|apply F].
    intros _. lia.
Qed.

Lemma call_wait_timed child i l rid c D noise quiet t :
  (D ≤ t + 25 * N.of_nat quiet)%N → timed (λ _ r, r ≠ CallStuck) t (call_wait quiet noise child i l rid c D).
Proof.
  revert quiet t. induction noise as [|noise IHn]; intros quiet; induction quiet as [|quiet IHq]; intros t L;
    cbn [call_wait]; apply timed_bind; (eapply timed_mono; [|apply timed_after, call_round_timed]);
    intros t' [r| |] Lt [_ H]; try done; try (destruct (H eq_refl); lia);
    try (apply IHn; lia); destruct (H eq_refl); apply IHq; lia.
Qed.

Lemma exchange_timed noise child open l i env t :
  timed (λ _ r, r ≠ CallStuck) t (exchange to_string noise child open l i env).
Proof.
  unfold exchange. apply timed_skip. intros t5 c L5. apply timed_skip. intros t6 [|] L6; [|done]. cbn [negb].
  apply timed_skip. intros t7 sub L7. destruct (negb (is_ok sub)); [by apply timed_skip|].
  apply timed_skip. intros t8 sent L8. destruct (negb (is_ok sent)); [by apply timed_skip|].
  apply timed_read. intros x L9. apply call_wait_timed. unfold rounds.
  pose proof (rounds_enough (N.max (ro_timeout_ms open) 1) 25 (clock x + N.max (ro_timeout_ms open) 1) (clock x)
    eq_refl (N.le_refl _)). lia.
Qed.

(** The turns of [request_turns] are enough: more of them make no difference. *)
Lemma request_loop_enough fuel fuel' i c rid timeout waited :
  (timeout - waited < 5 * N.of_nat fuel)%N → (waited = 0 ∨ 5 ≤ timeout)%N → fuel ≤ fuel' →
  request_loop fuel' i c rid timeout waited ≡ request_loop fuel i c rid timeout waited.
Proof.
  revert fuel' waited. induction fuel as [|fuel IH]; intros fuel' waited L Hw Lf; [lia|].
  destruct fuel' as [|fuel']; [lia|]. cbn [request_loop]. apply bind_equiv; [done|]. intros [a| |]; [done| |done].
  destruct (N.leb_spec timeout (waited + N.min (timeout - waited) (N.min 5 timeout))) as [G|G]; [done|].
  apply IH; lia.
Qed.

Lemma request_turns_enough n i c rid timeout :
  request_loop (request_turns timeout + n) i c rid timeout 0 ≡ request_loop (request_turns timeout) i c rid timeout 0.
Proof.
  apply request_loop_enough; [|by left|lia]. unfold request_turns.
  pose proof (N.div_mod timeout 5 ltac:(lia)). pose proof (N.mod_lt timeout 5 ltac:(lia)). lia.
Qed.

(** The wait for the executor's activation has a result. *)
Lemma await_ready_timed w c token fence t : timed (λ _ r, r ≠ None) t (await_ready w c token fence).
Proof.
  unfold await_ready. apply timed_read. intros x L. unfold rounds.
  apply (poll_returns _ (clock x + READY_MS) 100); [done| |by apply rounds_enough].
  intros t1. unfold status_round. apply timed_skip. intros t2 [st|e] L2; [|done].
  destruct (attested st) as [ig|]; [done|]. apply timed_read. intros x2 L3.
  destruct (N.leb_spec (clock x + READY_MS) (clock x2)) as [G|G]; [by apply timed_skip|].
  unfold pause. apply timed_bind, timed_read. intros x3 L4. split; [done|]. intros t3 L5 U _. cbn in *. lia.
Qed.

(** Steps that take no time. *)
Lemma ctl_once {X} (f : Ctl → X * Ctl) : (∀ x, rm_host (f x).2 = rm_host x) → instant (act f).
Proof. intros H. apply instant_act. intros x. cbn. by rewrite H. Qed.

Ltac once_step :=
  match goal with
  | |- instant (bind _ _) => apply instant_bind; [|intros ?]
  | |- instant (Ret _) => exact I
  | |- instant (read _) => by apply instant_act
  | |- instant (if ?b then _ else _) => destruct b
  | |- instant (match ?x with _ => _ end) => destruct x
  | |- instant (act _) => apply ctl_once; intros ?; unfold fresh, take_mail; repeat case_match; simplify_eq; done
  end.
Ltac once_prog :=
  intros; unfold failed, cleanup, upd_sess, upd_link, on_sess, on_link, read_sess, read_link; repeat once_step.

Lemma call_mail_lone c u t : lone (λ e _, (t ≤ e ≤ N.max t u)%N) t
  (Wait (has_mail c) u (λ woken, if woken then let! m := act (take_mail c) in Ret (Some m) else Ret None)).
Proof.
  split; [|cbn; lia]. intros t' L. eapply lone_mono; [|apply instant_lone; once_prog]. cbn. lia.
Qed.

Lemma call_round_lone child i l rid c D t :
  lone (λ e _, (t ≤ e ≤ N.max t D)%N) t (call_round child i l rid c D).
Proof.
  assert (O : ∀ t1 (p : cprog Heard), (t ≤ t1 ≤ N.max t D)%N → instant p → lone (λ e _, (t ≤ e ≤ N.max t D)%N) t1 p).
  { intros t1 p L Hp. eapply lone_mono; [|by apply instant_lone]. cbn. lia. }
  unfold call_round. apply lone_instant; [once_prog|]. intros [|]; [apply O; [lia|once_prog]|].
  apply lone_read. intros s Hs. destruct (N.leb_spec D (clock s)) as [G|G]; [apply O; [lia|once_prog]|].
  apply lone_bind. eapply lone_mono; [|apply call_mail_lone]. intros e m Le. rewrite Hs in *. apply O; [lia|once_prog].
Qed.

Lemma call_round_prompt child i l rid c D C t :
  (D ≤ t + C)%N → prompt (by_end C) t (call_round child i l rid c D).
Proof.
  intros L. assert (O : ∀ t (p : cprog Heard), instant p → prompt (by_end C) t p).
  { intros t' p Hp. apply instant_prompt; [apply by_end_refl|done]. }
  unfold call_round. apply prompt_skip; [once_prog|]. intros t1 [|] L1; [apply O; once_prog|].
  apply prompt_read. intros s L2. destruct (N.leb_spec D (clock s)) as [G|G]; [apply O; once_prog|].
  apply prompt_then; [once_prog|]. split.
  - intros t' Lt. eapply lone_mono; [|apply call_mail_lone]. intros e r Le. cbv [by_end]. cbv beta in Le. lia.
  - split.
    + intros s' Ls _. apply instant_prompt; [apply by_end_refl|once_prog].
    + intros t' Lt _. apply prompt_ret. intros. apply by_end_refl.
Qed.

Lemma call_wait_eq child i l rid c D noise quiet :
  call_wait quiet noise child i l rid c D =
  let! h := call_round child i l rid c D in
  match h with
  | HTerminal t => Ret (CallTerminal t)
  | HNothing => match quiet with O => Ret CallStuck | S q => call_wait q noise child i l rid c D end
  | HIgnored => match noise with O => Ret CallNoise | S n => call_wait quiet n child i l rid c D end
  end.
Proof. by destruct noise, quiet. Qed.

Lemma call_wait_lone child i l rid c D n noise quiet t :
  noise + quiet < n → lone (λ e _, (t ≤ e ≤ N.max t D)%N) t (call_wait quiet noise child i l rid c D).
Proof.
  revert noise quiet t. induction n as [|n IH]; intros noise quiet t Ln; [lia|]. rewrite call_wait_eq.
  apply lone_bind. eapply lone_mono; [|apply call_round_lone]. intros t' h Lt. cbv beta in Lt.
  destruct h; [exact Lt|destruct noise; [exact Lt|]|destruct quiet; [exact Lt|]];
    (eapply lone_mono; [|apply IH; lia]); cbn; lia.
Qed.

Lemma call_wait_prompt child i l rid c D C n noise quiet t :
  noise + quiet < n → (D ≤ t + C)%N → prompt (by_end C) t (call_wait quiet noise child i l rid c D).
Proof.
  revert noise quiet t. induction n as [|n IH]; intros noise quiet t Ln L; [lia|]. rewrite call_wait_eq.
  apply prompt_bind.
  - eapply prompt_mono; [|by apply call_round_prompt]. intros t' e h Lt Le. cbv [by_end] in Le.
    destruct h; [exact Le|destruct noise; [exact Le|]|destruct quiet; [exact Le|]];
      (eapply lone_mono; [|apply (call_wait_lone _ _ _ _ _ _ n); lia]); cbv [by_end]; lia.
  - apply timed_true. intros t' h Lt.
    destruct h; [|destruct noise|destruct quiet]; try (apply prompt_ret; intros; apply by_end_refl); apply IH; lia.
Qed.

Lemma exchange_prompt noise child open l i env t :
  prompt (by_end (N.max (ro_timeout_ms open) 1)) t (exchange to_string noise child open l i env).
Proof.
  set (C := N.max (ro_timeout_ms open) 1).
  assert (O : ∀ t (p : cprog CallEnd), instant p → prompt (by_end C) t p).
  { intros t' p Hp. apply instant_prompt; [apply by_end_refl|done]. }
  unfold exchange. apply prompt_skip; [once_prog|]. intros t5 c L5.
  apply prompt_skip; [once_prog|]. intros t6 [|] L6; cbn [negb]; [|apply O; once_prog].
  apply prompt_skip; [once_prog|]. intros t7 sub L7. destruct (negb (is_ok sub)); [apply O; once_prog|].
  apply prompt_skip; [once_prog|]. intros t8 sent L8. destruct (negb (is_ok sent)); [apply O; once_prog|].
  apply prompt_read. intros x L9. eapply call_wait_prompt; [apply Nat.lt_succ_diag_r|]. fold C. lia.
Qed.

(** C13: the exchange of a remote call ends within its timeout. Once the call has read its route (the
    session and the token of the lease), then whatever the other threads of the controller do, the
    rounds of the model cover the deadline of the call: it ends with a terminal, unless more than
    [noise] messages that are no result reach it. And from every state of it, it can end without any
    other thread moving, by its own steps and the passing of time, at most the timeout of the call
    (at least 1 ms) after that moment. *)
Theorem exchange_returns (noise : nat) (child : TicketId) (open : RemoteCallOpen) (l i : N) (env : Value)
    ps ps' (x x' : Ctl) j :
  ps !! j = Some (exchange to_string noise child open l i env) →
  rtc clocked_step (ps, x) (ps', x') →
  (∀ r, (ps' !! j ≫= outcome) = Some r → r ≠ CallStuck) ∧
  ∃ r x'', r ≠ CallStuck ∧ (clock x'' ≤ clock x' + N.max (ro_timeout_ms open) 1)%N ∧
    rtc clocked_step (ps', x') (<[j := Ret r]> ps', x'').
Proof.
  intros Hp R. exact (thread_returns_by (λ _ _, eq_refl) (λ r, r ≠ CallStuck) _ ps ps' x x' j _
    (exchange_timed noise child open l i env _) (exchange_prompt noise child open l i env _) Hp R).
Qed.
End props.

(** ** Concrete runs *)

(** A call over the attached route: the engine brings the acknowledgement and the result. *)
Definition demo_leg : RemoteCallOpen :=
  mkRemoteCallOpen "edge" "app" 1 1 17 "home" "rb-0" "alpha.api@1" JNull 500 500 "" 4 "op-1".

Definition call_pool : list (cprog CallEnd) :=
  [exchange demo_to_string 2 1 demo_leg 1 2
     (call_env demo_leg (default "" (rl_token <$> lk_lease (link 1 ctl_attached))) (se_id (sess 2 ctl_attached)));
   do! dturn 2 "edge" (demo_turn 0 ["3"; "4"]); Ret CallNoise].

(** The request is out, and then the answer is in. *)
Definition call_half : list (cprog CallEnd) * Ctl := exec (repeat 0 9) (call_pool, ctl_attached).
Definition call_end : list (cprog CallEnd) * Ctl := exec (repeat 1 6 ++ repeat 0 20) call_half.

Lemma exchange_returns_witness :
  (call_end.1 !! 0 ≫= outcome) = Some (CallTerminal (RtOk (JString "done"))) ∧
  size (lk_calls (link 1 call_half.2)) = 1 ∧ size (lk_calls (link 1 call_end.2)) = 0 ∧
  ∃ r x'', r ≠ CallStuck ∧ (clock x'' ≤ clock call_half.2 + 500)%N ∧
    rtc clocked_step (call_half.1, call_half.2) (<[0 := Ret r]> call_half.1, x'').
Proof.
  split_and!; [by vm_compute..|].
  refine (proj2 (exchange_returns demo_to_string 2 1 demo_leg 1 2 _ call_pool call_half.1 ctl_attached call_half.2 0
    eq_refl _)).
  unfold call_half. apply exec_clocked. by vm_compute.
Defined.

Definition demo_ops : list (CWorld * CtlOp) :=
  (λ o, (demo_world, o)) <$>
  [CoSync [edge] [alpha_route]; CoWorker 1 1 1 1000; CoTurn 2 "edge" (demo_turn 0 ["1"]);
   CoTurn 2 "edge" (demo_turn 0 ["2"]); CoPerform 2 (FxCallOpen 1 demo_leg)].

Definition ops_sched : list nat :=
  repeat 0 60 ++ repeat 1 400 ++ repeat 2 5 ++ repeat 1 300 ++ repeat 3 5 ++ repeat 1 300 ++ repeat 4 14.

Definition ops_end : list (cprog unit) * Ctl :=
  exec ops_sched (ctl_threads demo_to_string edge_from_str demo_ops, ctl_new).

Lemma manager_invariant_witness :
  size (lk_calls (link 1 ops_end.2)) = 1 ∧
  ∃ s, rm_sessions ops_end.2 !! 2%N = Some s ∧ SessionProps.session_ok (λ v, chars (demo_to_string v)) s.
Proof.
  split; [by vm_compute|]. destruct (rm_sessions ops_end.2 !! 2%N) as [s|] eqn:Es; [|by vm_compute in Es].
  exists s. split; [done|].
  refine (proj2 (manager_invariant demo_to_string edge_from_str demo_ops (demo_host_on ctl_kernel) 9 "authority"
    ops_end.1 ops_end.2 _) 2%N s Es).
  unfold ops_end. apply exec_rtc.
Defined.

(** ** Three runs that go wrong *)

Notation provider_of p x := (k_remote_providers (ho_kernel (rm_host x)) !! p).

(** ** A worker overtakes the shutdown *)

(** The worker has passed its checks when the manager shuts down. *)
Definition shutdown_ops : list (CWorld * CtlOp) :=
  (λ o, (demo_world, o)) <$>
  [CoWorker 2 1 1 1000; CoShutdown; CoTurn 2 "edge" (demo_turn 0 ["1"]); CoTurn 2 "edge" (demo_turn 0 ["2"])].

Definition shutdown_sched : list nat :=
  repeat 0 2 ++ repeat 1 60 ++ repeat 0 400 ++ repeat 2 5 ++ repeat 0 300 ++ repeat 3 5 ++ repeat 0 300.

Definition shutdown_end : list (cprog unit) * Ctl :=
  exec shutdown_sched (ctl_threads demo_to_string edge_from_str shutdown_ops, ctl_synced).

(** A shutdown does not stop a worker that has passed its check. The manager is closed, the
    shutdown and the worker have returned, and the route is up: its provider is registered, its
    session admits calls, and its lease is held and was never released. *)
Theorem shutdown_overtaken :
  rtc pool_step (ctl_threads demo_to_string edge_from_str shutdown_ops, ctl_synced) shutdown_end ∧
  (outcome <$> shutdown_end.1) = replicate 4 (Some tt) ∧
  let x := shutdown_end.2 in
  rm_closed x = true ∧ provider_of "alpha" x = Some (mkRemoteProvider "alpha" 5 2 "edge") ∧
  admissible (sess 2 x) = true ∧ is_some (lk_lease (link 1 x)) = true ∧
  List.existsb (λ r, bool_decide (get_str "action" r.2 = Some "release")) (rm_requests x) = false.
Proof. split; [unfold shutdown_end; apply exec_sound|]. by vm_compute. Qed.

(** ** Two routes over one peer *)

(** The iteration order of the set of providers puts [beta] first. *)
Definition beta_world : CWorld :=
  mkCWorld calm_world demo_unary (λ _ _, Ok demo_io) (λ _, Ok tt) true
    (λ s, if bool_decide ("beta" ∈ s) then Some "beta" else head (elements s)).

Definition twin_ops : list (CWorld * CtlOp) :=
  (λ o, (beta_world, o)) <$>
  [CoSync [edge] [alpha_route; beta_route]; CoWorker 1 1 1 1000; CoTurn 2 "edge" (demo_turn 0 ["1"]);
   CoTurn 2 "edge" (demo_turn 0 ["2"]); CoSync [] []].

Definition twin_sched : list nat :=
  repeat 0 60 ++ repeat 1 400 ++ repeat 2 5 ++ repeat 1 300 ++ repeat 3 5 ++ repeat 1 300 ++ repeat 4 100 ++ repeat 1 20.

Definition twin_end : list (cprog unit) * Ctl :=
  exec twin_sched (ctl_threads demo_to_string edge_from_str twin_ops, ctl_new).

(** A link stores one provider of a set whose order is arbitrary, and an attach registers the
    provider of the first route. With two routes over one peer these may differ: removing the peer
    withdraws the other provider, and the registered one stays published although the peer, its
    session and its lease are gone. *)
Theorem twin_routes_orphan :
  rtc pool_step (ctl_threads demo_to_string edge_from_str twin_ops, ctl_new) twin_end ∧
  (twin_end.1 !! 4 ≫= outcome) = Some tt ∧
  let x := twin_end.2 in
  rm_links x = ∅ ∧ rm_routes x = [] ∧ lk_session (link 1 x) = None ∧ lk_lease (link 1 x) = None ∧
  provider_of "alpha" x = Some (mkRemoteProvider "alpha" 5 2 "edge").
Proof. split; [unfold twin_end; apply exec_sound|]. by vm_compute. Qed.

(** ** A notice about the provider of another peer *)

Definition ctl_two_peers : Ctl := (run (kernel (register_remote_provider "beta" 7 1 "far")) ctl_attached).2.

(** A peer can withdraw the provider of another. [beta] is registered over the peer [far]; a
    [revoke.notice] that arrives on the session of [edge] withdraws it. *)
Theorem notice_crosses_peers :
  provider_of "beta" ctl_two_peers = Some (mkRemoteProvider "beta" 7 1 "far") ∧
  se_peer (sess 2 ctl_two_peers) = "fp-edge" ∧
  provider_of "beta" (run (dturn 2 "edge" (demo_turn 0 ["5"])) ctl_two_peers).2 = None.
Proof. by vm_compute. Qed.
