(* ===== verification/ControllerRoutes.v ===== *)
(** * Attaching and tearing down a route

    What one method does when it runs alone: an attach that fails publishes no provider, and a
    teardown leaves nothing of the link behind. *)

From S2P Require Import Prelude RustStd Json Identity Contexts Resources Deps Calls Journal Manifest Prog Timed.
From S2P Require Import KernelState KernelCalls KernelLifecycle KernelDispatch KernelActions KernelDemo Inventory.
From S2P Require Import Wire Remote Session HostState HostStreams HostDeps HostConn HostInv HostBudget HostDemo.
From S2P Require Import Controller ControllerDemo ControllerInv.

(** ** No new provider *)

Definition no_new (k k' : Kernel) : Prop :=
  ∀ p, k_remote_providers k !! p = None → k_remote_providers k' !! p = None.

#[export] Instance no_new_refl : Reflexive no_new.
Proof. by intros k p. Qed.
#[export] Instance no_new_trans : Transitive no_new.
Proof. intros k1 k2 k3 A B p Hp. auto. Qed.

Lemma kact_no_new a k : tag a ≠ TRemote → no_new k (kact a k).
Proof.
  intros T p Hp. destruct a; cbn; try done.
  - unfold issue. destruct (foldl _ _ _). done.
  - rewrite lookup_delete_None. by right.
Qed.

Lemma acts_no_new {A} (p : kprog A) : always (step (λ a, tag a ≠ TRemote)) p → always no_new p.
Proof. apply always_impl. intros k k' [->|(a & T & ->)]; [reflexivity|by apply kact_no_new]. Qed.

(** The same of the host and of the controller. *)
Definition hnew (h h' : Host) : Prop := no_new (ho_kernel h) (ho_kernel h').
Definition cnew (x x' : Ctl) : Prop := hnew (rm_host x) (rm_host x').

#[export] Instance hnew_refl : Reflexive hnew.
Proof. by intros h p. Qed.
#[export] Instance cnew_refl : Reflexive cnew.
Proof. by intros x p. Qed.
#[export] Instance cnew_trans : Transitive cnew.
Proof. intros x y z A B p Hp. auto. Qed.

Lemma klift_new {A} (p : kprog A) : always no_new p → always hnew (klift p).
Proof.
  induction p as [a|X f k IH|c u k IH]; cbn; [done| |]; intros [F G]; (split; [|auto]).
  - intros h. specialize (F (ho_kernel h)). unfold hnew. by destruct (f (ho_kernel h)).
  - intros h. apply (F (ho_kernel h)).
Qed.

Lemma hlift_new {A} (p : hprog A) : always hnew p → always cnew (hlift p).
Proof.
  induction p as [a|X f k IH|c u k IH]; cbn; [done| |]; intros [F G]; (split; [|auto]).
  - intros x. specialize (F (rm_host x)). unfold cnew. by destruct (f (rm_host x)).
  - intros x. apply (F (rm_host x)).
Qed.

Section routes.
Context {E : Env} (to_string : Value → string) (w : CWorld).

Lemma reconcile_new : always no_new reconcile.
Proof. by apply acts_no_new, reconcile_acts; intros ? ->. Qed.
Lemma unregister_new l : always no_new (unregister_remote_provider l).
Proof. by apply acts_no_new, unregister_remote_acts; intros ? ->. Qed.
Lemma cancel_new t r : always no_new (KernelCalls.call_cancel t r).
Proof. by apply acts_no_new, cancel_acts; intros ? ->. Qed.
Lemma bindings_new l : always no_new (dependency_bindings_of l).
Proof.
  unfold dependency_bindings_of. apply always_bind; [by apply acts_no_new, current_of_acts|].
  intros [c|]; [|done]. apply always_read, _.
Qed.
Lemma inventory_new : always no_new inventory.
Proof. eapply always_impl; [|apply inventory_reads]. by intros k ? <-. Qed.

Create HintDb closed.
#[local] Hint Resolve reconcile_new unregister_new cancel_new bindings_new inventory_new : closed.

(** An action that leaves the kernel alone. *)
Lemma still_new {X} (f : Ctl → X * Ctl) : (∀ x, rm_host (f x).2 = rm_host x) → always cnew (act f).
Proof. intros S. apply always_one. intros x. unfold cnew. by rewrite S. Qed.

Lemma host_still_new {X} (f : Host → X * Host) : (∀ h, ho_kernel (f h).2 = ho_kernel h) → always hnew (act f).
Proof. intros S. apply always_one. intros h. unfold hnew. by rewrite S. Qed.

Ltac new_still := intros ?; unfold on_rtable, fresh, take_mail, take_link, open_request, dial; repeat case_match; simplify_eq; done.

Ltac new_step :=
  match goal with
  | |- always _ (bind _ _) => apply always_bind; [|intros ?]
  | |- always _ (Ret _) => exact I
  | |- always _ (read _) => apply always_read; apply _
  | |- always _ (read_link _ _) => apply always_read; apply _
  | |- always _ (read_sess _ _) => apply always_read; apply _
  | |- always _ (read_kernel _) => apply always_read; apply _
  | |- always _ (kernel _) => apply hlift_new, klift_new
  | |- always cnew (hlift _) => apply hlift_new
  | |- always _ (Prog.for_each _ _) => apply always_for_each; intros ? _
  | |- always _ (for_fold _ _ _) => apply always_for_fold; intros ? ? _
  | |- always _ (Wait _ _ _) => split; [by intros ? ?|intros ?]
  | |- always _ (if ?b then _ else _) => destruct b
  | |- always _ (match ?x with _ => _ end) => destruct x
  | |- always _ _ => solve [auto with closed nocore]
  | |- always cnew (modify _) => apply still_new; new_still
  | |- always cnew (act _) => apply still_new; new_still
  | |- always cnew (on_link _ _) => apply still_new; new_still
  | |- always cnew (upd_link _ _) => apply still_new; new_still
  | |- always cnew (on_sess _ _) => apply still_new; new_still
  | |- always cnew (upd_sess _ _) => apply still_new; new_still
  | |- always hnew (modify _) => apply host_still_new; new_still
  | |- always hnew (act _) => apply host_still_new; new_still
  end.
Ltac new_prog := intros; repeat new_step.

Lemma note_new l ok msg : always cnew (note l ok msg).
Proof. unfold note. new_prog. Qed.
Lemma request_loop_new n i c rid t wt : always cnew (request_loop n i c rid t wt).
Proof. revert wt. induction n as [|n IH]; intros wt; cbn [request_loop]; unfold recv_answer; new_prog. Qed.
#[local] Hint Resolve note_new request_loop_new : closed.
Lemma open_request_new i rid t : always cnew (act (open_request i rid t)).
Proof. apply still_new. intros x. unfold open_request, fresh. by destruct (request_register _ _ _ _ _). Qed.
#[local] Hint Resolve open_request_new : closed.
Lemma request_new i env t : always cnew (session_request to_string i env t).
Proof. unfold session_request. new_prog. Qed.
Lemma unary_new c v : always cnew (unary w c v).
Proof. unfold unary. new_prog. Qed.
Lemma dial_new c hello : always cnew (dial to_string w c hello).
Proof.
  apply still_new. intros x. cbv zeta. destruct (cw_dial w (rm_asked x) c) as [io|e]; [|done].
  by destruct (connect _ io _ _ _) as [[s welcome]|e].
Qed.
#[local] Hint Resolve request_new unary_new dial_new : closed.
Lemma push_new l : always cnew (push_subscriptions to_string l).
Proof. unfold push_subscriptions, remote_consumer_topics, consumer_topics. new_prog. Qed.
Lemma cancel_revoked_new peer ids : always cnew (cancel_revoked_operations peer ids).
Proof. unfold cancel_revoked_operations, cancel_revoked, end_remote_streams_of. new_prog. Qed.
Lemma operations_new peer inv : always cnew (reconcile_operations peer inv).
Proof. unfold reconcile_operations, reconcile_operation. new_prog. Qed.
Lemma poll_new {A} n (round : cprog (option A)) : always cnew round → always cnew (poll n round).
Proof. intros R. induction n as [|n IH]; cbn [poll]; new_prog. Qed.
Lemma ready_new c token fence : always cnew (await_ready w c token fence).
Proof.
  unfold await_ready. new_prog. apply poll_new. unfold status_round, pause. new_prog.
Qed.
Lemma lease_new l c p ttl : always cnew (obtain_lease w l c p ttl).
Proof. unfold obtain_lease, activate_provider. new_prog. Qed.
#[local] Hint Resolve push_new cancel_revoked_new operations_new ready_new lease_new : closed.

(** ** Alone *)

Lemma run_hlift {A} (p : hprog A) x : run (hlift p) x = ((run p (rm_host x)).1, set_rm_host (run p (rm_host x)).2 x).
Proof.
  revert x. induction p as [a|X f k IH|c u k IH]; intros x; cbn [hlift].
  - by destruct x.
  - rewrite !run_Act, IH. by destruct (f (rm_host x)).
  - rewrite !run_Wait, IH. destruct (c (rm_host x)); [done|]. cbn. by destruct (_ <? u)%N.
Qed.

Lemma run_klift {A} (p : kprog A) h : run (klift p) h = ((run p (ho_kernel h)).1, set_ho_kernel (run p (ho_kernel h)).2 h).
Proof.
  revert h. induction p as [a|X f k IH|c u k IH]; intros h; cbn [klift].
  - by destruct h.
  - rewrite !run_Act, IH. by destruct (f (ho_kernel h)).
  - rewrite !run_Wait, IH. destruct (c (ho_kernel h)); [done|]. cbn. by destruct (_ <? u)%N.
Qed.

Notation kern x := (ho_kernel (rm_host x)).

Lemma run_kernel {A} (p : kprog A) x :
  (run (kernel p) x).1 = (run p (kern x)).1 ∧ kern (run (kernel p) x).2 = (run p (kern x)).2.
Proof. unfold kernel. by rewrite run_hlift, run_klift. Qed.

Definition stays_closed {A} (p : cprog A) : Prop := ∀ x, cnew x (run p x).2.

Lemma closed_always {A} (p : cprog A) : always cnew p → stays_closed p.
Proof. intros P x. apply always_run; [apply _|apply _|done]. Qed.

Lemma closed_bind {A B} (p : cprog A) (f : A → cprog B) :
  stays_closed p → (∀ a, stays_closed (f a)) → stays_closed (bind p f).
Proof.
  intros P F x. rewrite run_bind. specialize (P x). destruct (run p x) as [a x']. etrans; [exact P|apply F].
Qed.

Lemma closed_for_each {A} (l : list A) (f : A → cprog unit) :
  (∀ a, stays_closed (f a)) → stays_closed (Prog.for_each l f).
Proof. intros F. induction l as [|a l IH]; [by intros x|]. apply closed_bind; [apply F|intros _; apply IH]. Qed.

(** Registering a provider that is registered already, or not at all. *)
Lemma register_known l i g p k : is_Some (k_remote_providers k !! l) → no_new k (run (register_remote_provider l i g p) k).2.
Proof.
  intros Hl. unfold register_remote_provider, definition_is_remote. rewrite run_bind, run_read.
  destruct (negb _); [done|]. destruct (_ || _); [done|]. rewrite run_bind, run_modify.
  etrans; [|apply (always_run no_new); [apply _|apply _|]].
  - intros q Hq. cbn. rewrite lookup_insert_ne; [done|]. intros ->. rewrite Hq in Hl. by destruct Hl.
  - apply always_bind; [by apply acts_no_new, acts_journal; intros ? ->|]. intros _.
    apply always_bind; [apply reconcile_new|done].
Qed.

Lemma register_refused l i g p k e : (run (register_remote_provider l i g p) k).1 = Err e →
  (run (register_remote_provider l i g p) k).2 = k.
Proof.
  unfold register_remote_provider, definition_is_remote. rewrite run_bind, run_read.
  destruct (negb _); [done|]. destruct (_ || _); [done|]. rewrite run_bind, run_modify, run_bind.
  destruct (run (journal _ _ _) _) as [u k1]. rewrite run_bind. by destruct (run reconcile k1).
Qed.

Lemma refresh_closed l a : stays_closed (refresh_activation l a).
Proof.
  intros x. unfold refresh_activation.
  destruct (get_str "logical" a) as [logical|]; [|done]. destruct (_ ≫= _) as [inst|]; [|done].
  destruct (_ ≫= _) as [gen|]; [|done]. unfold read_link, read_kernel.
  rewrite run_bind, run_read, run_bind, run_read. destruct (negb _); [done|]. rewrite run_bind, run_read.
  destruct (k_remote_providers (kern x) !! logical) as [r|] eqn:Er; [|done]. cbn [is_some_and].
  destruct (_ || _); [|done]. rewrite run_bind.
  destruct (run_kernel (register_remote_provider logical inst gen (pf_name (lk_config (link l x)))) x) as [_ K].
  destruct (run (kernel _) x) as [u x']. unfold cnew, hnew. rewrite run_ret. cbn in *. rewrite K.
  by apply register_known.
Qed.

Lemma reconcile_closed l : stays_closed (reconcile_link to_string l).
Proof.
  unfold reconcile_link. apply closed_bind; [apply closed_always; new_prog|]. intros [i|]; [|by intros x].
  do 4 (apply closed_bind; [apply closed_always; new_prog|]; intros ?).
  apply closed_bind; [apply closed_always; new_prog|]. intros ?.
  apply closed_bind; [apply closed_always; new_prog|]. intros [ans|e]; [|by intros x].
  apply closed_bind; [apply closed_always; new_prog|]. intros _.
  apply closed_bind; [|by intros _ x]. destruct (get_array _ _); [|by intros x].
  apply closed_for_each. intros ?. apply refresh_closed.
Qed.

(** ** Failing closed *)

(** A run that ends in an error has published nothing. *)
Definition fails_closed {A} (p : cprog (result A string)) : Prop :=
  ∀ x e, (run p x).1 = Err e → cnew x (run p x).2.

Lemma fails_bind {A B} (p : cprog A) (f : A → cprog (result B string)) :
  stays_closed p → (∀ a, fails_closed (f a)) → fails_closed (bind p f).
Proof.
  intros P F x e. rewrite run_bind. specialize (P x). destruct (run p x) as [a x'].
  intros H. etrans; [exact P|by eapply F].
Qed.

Lemma fails_ret {A} (r : result A string) : fails_closed (Ret r).
Proof. by intros x e _. Qed.

(** The publication is the last thing that can fail. *)
Lemma publish_fails provider i g name (rest : cprog (result unit string)) :
  (∀ x, is_ok (run rest x).1 = true) →
  fails_closed (let! reg := kernel (register_remote_provider provider i g name) in
                let?! _ := Ret (map_err (λ e, "register: " +:+ e) reg) in rest).
Proof.
  intros R x e. rewrite run_bind.
  destruct (run_kernel (register_remote_provider provider i g name) x) as [K1 K2].
  destruct (run (kernel _) x) as [reg x1]. cbn in K1, K2. rewrite run_bind, run_ret.
  destruct reg as [u|e1]; cbn.
  - intros H. specialize (R x1). by rewrite H in R.
  - intros _. unfold cnew, hnew. rewrite run_ret. cbn. rewrite K2, (register_refused _ _ _ _ _ e1); [done|]. by rewrite <- K1.
Qed.

Lemma attach_session_fails l i c : fails_closed (attach_session to_string w l i c).
Proof.
  unfold attach_session, route_provider.
  do 3 (apply fails_bind; [apply closed_always; new_prog|]; intros ?).
  destruct a1 as [provider|]; [|apply fails_ret].
  apply fails_bind; [apply closed_always; new_prog|]. intros [[token fence]|e]; [|apply fails_ret].
  apply fails_bind; [apply closed_always; new_prog|]. intros [[[inst gen]|e]|]; [|apply fails_ret..].
  apply fails_bind; [apply closed_always; new_prog|]. intros _.
  apply fails_bind; [apply reconcile_closed|]. intros [u|e]; [|apply fails_ret].
  apply publish_fails. intros x. rewrite run_bind. destruct (run (push_subscriptions _ l) x) as [? x1].
  rewrite run_bind. destruct (run install_transport x1) as [? x2]. rewrite run_bind.
  by destruct (run (note l true "") x2).
Qed.

(** C12: Attaching fails closed. An attach round that ends in an error, wherever it fails (files,
    connection, negotiation, lease, readiness, reconciliation, registration), has made no provider
    visible that was not visible before: registration comes after the executor's answer to the
    reconciliation, which itself only refreshes providers that are registered. *)
Theorem attach_fails_closed (l : N) (x : Ctl) (e : string) :
  (run (attach_round to_string w l) x).1 = Err e →
  ∀ p, k_remote_providers (kern x) !! p = None →
       k_remote_providers (kern (run (attach_round to_string w l) x).2) !! p = None.
Proof.
  assert (F : fails_closed (attach_round to_string w l)).
  { unfold attach_round. apply fails_bind; [apply closed_always; new_prog|]. intros [|]; [cbn [negb]|apply fails_ret].
    apply fails_bind; [apply closed_always; new_prog|]. intros c.
    apply fails_bind; [apply closed_always; new_prog|]. intros [u|e1]; [|apply fails_ret].
    apply fails_bind; [apply closed_always; new_prog|]. intros hello.
    apply fails_bind; [apply closed_always; new_prog|]. intros [[i welcome]|e1]; [|apply fails_ret].
    destruct (negb _); [|apply attach_session_fails].
    apply fails_bind; [apply closed_always; new_prog|]. intros ?. apply fails_ret. }
  intros H p. by apply (F x e H).
Qed.

(** ** Teardown *)

Lemma run_unregister p k : k_remote_providers (run (unregister_remote_provider p) k).2 !! p = None.
Proof.
  unfold unregister_remote_provider. rewrite run_bind, run_act. cbn.
  set (k1 := set_remote_providers _ k).
  assert (N : k_remote_providers k1 !! p = None) by apply lookup_delete_eq.
  destruct (is_some _); [|done].
  refine (always_run no_new _ k1 _ _ _ p N).
  apply always_bind; [by apply acts_no_new, drop_remote_acts; intros ? ->|]. intros _.
  apply always_bind; [apply reconcile_new|done].
Qed.

(** The registration is withdrawn; nothing else of the manager changes. *)
Lemma run_withdraw p x : ∃ h, (run (if str_is_empty p then Ret tt
    else do! kernel (unregister_remote_provider p); Ret tt) x).2 = set_rm_host h x ∧
  (p ≠ "" → k_remote_providers (ho_kernel h) !! p = None).
Proof.
  unfold str_is_empty. case_bool_decide as Hp.
  - exists (rm_host x). split; [by destruct x|done].
  - rewrite run_bind. unfold kernel. rewrite run_hlift, run_klift. cbn. eexists. split; [done|]. intros _.
    apply run_unregister.
Qed.

Lemma run_link {X} l (f : PeerLink → X * PeerLink) x :
  run (on_link l f) x = ((f (link l x)).1, set_rm_heap (<[l := (f (link l x)).2]> (rm_heap x)) x).
Proof. unfold on_link. rewrite run_act. by destruct (f (link l x)). Qed.

Lemma link_set l lk x : link l (set_rm_heap (<[l := lk]> (rm_heap x)) x) = lk.
Proof. unfold link. cbn. apply lookup_total_insert_eq. Qed.

(** The waiters get their message. *)
Lemma run_notify (cs : list N) m x : ∃ mail,
  (run (Prog.for_each cs (λ c, modify (send_mail c m))) x).2 = set_rm_mail mail x ∧
  ∀ c, c ∈ cs ∨ mailbox c x ≠ [] → mailbox c (set_rm_mail mail x) ≠ [].
Proof.
  revert x. induction cs as [|c cs IH]; intros x.
  - exists (rm_mail x). split; [by destruct x|]. intros c [H|H]; [by apply not_elem_of_nil in H|]. by destruct x.
  - cbn. rewrite run_bind, run_modify. destruct (IH (send_mail c m x)) as (mail & E1 & E2). exists mail.
    split; [exact E1|]. intros c' Hc'. apply (E2 c').
    destruct (decide (c' = c)) as [->|Ne].
    + right. unfold mailbox, send_mail. cbn. rewrite lookup_insert_eq. cbn. intros []%app_nil. done.
    + destruct Hc' as [[?|Hc']%elem_of_cons|Hc']; [done|by left|right].
      unfold mailbox, send_mail in *. cbn. by rewrite lookup_insert_ne.
Qed.

(** What is left of a link that had [lk], in [x']. *)
Record torn_down (l : N) (lk : PeerLink) (reason : string) (x' : Ctl) : Prop := {
  td_link : lk_session (link l x') = None ∧ lk_lease (link l x') = None ∧ lk_calls (link l x') = ∅ ∧
            lk_last_error (link l x') = reason;
  td_provider : lk_provider lk ≠ "" → k_remote_providers (kern x') !! lk_provider lk = None;
  td_session i : lk_session lk = Some i → admissible (sess i x') = false;
  td_lease le : lk_lease lk = Some le →
            (pf_name (lk_config lk), release_request (rl_token le) (rl_fence le)) ∈ rm_requests x';
  td_calls rid c : lk_calls lk !! rid = Some c → has_mail c x' = true;
}.

Lemma shutdown_inadmissible s : admissible (shutdown s) = false.
Proof. apply andb_false_r. Qed.

(** The session of the link, if any, is shut down. *)
Lemma run_close (o : option N) x :
  ∃ ss, (run (match o with Some i => upd_sess i shutdown | None => Ret tt end) x).2 = set_rm_sessions ss x ∧
    ∀ i, o = Some i → admissible (ss !!! i) = false.
Proof.
  destruct o as [i|]; [|exists (rm_sessions x); split; [by destruct x|done]].
  unfold upd_sess, on_sess. rewrite run_act. cbn. eexists. split; [done|]. intros ? [= <-].
  rewrite lookup_total_insert_eq. apply shutdown_inadmissible.
Qed.

(** The release of the lease of the link, if any, is requested. *)
Lemma run_release l (o : option RouteLease) x :
  ∃ n rq, (run (match o with
                | Some le =>
                    let! c := read_link l lk_config in
                    do! unary w c (release_request (rl_token le) (rl_fence le)); Ret tt
                | None => Ret tt
                end) x).2 = set_rm_asked n (set_rm_requests rq x) ∧
    ∀ le, o = Some le → (pf_name (lk_config (link l x)), release_request (rl_token le) (rl_fence le)) ∈ rq.
Proof.
  destruct o as [le|]; [|exists (rm_asked x), (rm_requests x); split; [by destruct x|done]].
  unfold unary, read_link. rewrite run_bind, run_read, run_bind, run_act. eexists _, _. split; [done|].
  intros ? [= <-]. set_solver.
Qed.

(** C14: Tearing a link down leaves nothing of it: the provider stored in it is withdrawn, its
    session can no longer admit, the release of its lease was requested, its table of calls is
    empty and every waiter has a message; the reason is noted. *)
Theorem teardown_complete (l : N) (reason : string) (x : Ctl) :
  torn_down l (link l x) reason (run (teardown_link w l reason) x).2.
Proof.
  unfold teardown_link, take_link_session, take_lease, drain_calls, read_link, upd_sess. rewrite run_bind, run_read, run_bind.
  destruct (run_withdraw (lk_provider (link l x)) x) as (h & E1 & Hp).
  destruct (run (if str_is_empty _ then _ else _) x) as [u1 x1]. cbn in E1. subst x1.
  rewrite run_bind, run_link. cbn [fst snd]. change (link l (set_rm_host h x)) with (link l x).
  set (lk := link l x) in *. set (x2 := set_rm_heap _ _).
  rewrite run_bind. destruct (run_close (lk_session lk) x2) as (ss & E2 & Hs). unfold upd_sess in E2.
  destruct (run (match lk_session lk with Some _ => _ | None => _ end) x2) as [u2 x3]. cbn in E2. subst x3.
  rewrite run_bind, run_link. cbn [fst snd].
  change (link l (set_rm_sessions ss x2)) with (link l x2).
  assert (L2 : link l x2 = set_lk_session None lk) by apply link_set. rewrite L2. set (x3 := set_rm_heap _ _).
  assert (L3 : link l x3 = set_lk_lease None (set_lk_session None lk)) by apply link_set.
  rewrite run_bind. change (lk_lease (set_lk_session None lk)) with (lk_lease lk).
  destruct (run_release l (lk_lease lk) x3) as (n & rq & E3 & Hl). unfold read_link in E3. rewrite L3 in Hl.
  destruct (run (match lk_lease lk with Some _ => _ | None => _ end) x3) as [u3 x4]. cbn in E3. subst x4.
  rewrite run_bind, run_link. cbn [fst snd].
  change (link l (set_rm_asked n (set_rm_requests rq x3))) with (link l x3).
  rewrite L3. set (x4 := set_rm_heap _ _).
  assert (L4 : link l x4 = set_lk_calls ∅ (set_lk_lease None (set_lk_session None lk))) by apply link_set.
  change (lk_calls (set_lk_lease None (set_lk_session None lk))) with (lk_calls lk). rewrite run_bind.
  destruct (run_notify (map_to_list (lk_calls lk)).*2 (Ok (obj [("transport-failed", JString reason)])) x4) as (mail & E4 & Hm).
  destruct (run (Prog.for_each _ _) x4) as [u4 x5]. cbn in E4. subst x5.
  unfold note, upd_link. rewrite run_link. cbn [fst snd].
  change (link l (set_rm_mail mail x4)) with (link l x4). rewrite L4.
  split.
  - by rewrite link_set.
  - exact Hp.
  - exact Hs.
  - exact Hl.
  - intros rid c Hc. unfold has_mail. rewrite bool_decide_eq_false_2; [done|]. apply (Hm c). left.
    apply list_elem_of_fmap. exists (rid, c). split; [done|]. by apply elem_of_map_to_list.
Qed.

(** ** A round without a route *)

Lemma run_sess {X} i (f : Sess → X * Sess) x :
  run (on_sess i f) x = ((f (sess i x)).1, set_rm_sessions (<[i := (f (sess i x)).2]> (rm_sessions x)) x).
Proof. unfold on_sess. rewrite run_act. by destruct (f (sess i x)). Qed.

(** A failed attach round does not shut its session down. For a peer without a route, every
    round connects, replaces the session of the link by the new one and fails; the session of the
    round before runs on, without an owner. *)
Theorem failed_attach_leaks (l : N) (x : Ctl) io s welcome :
  let c := lk_config (link l x) in
  link_open l x = true → cw_files w c = Ok tt → cw_dial w (rm_asked x) c = Ok io →
  connect (λ v, chars (to_string v)) io session_limits (hello_body (pf_domain c) (rm_authority x) (rm_epoch x)) (clock x)
    = Ok (s, welcome) →
  has_remote_calls welcome = true → route_of (pf_name c) (rm_routes x) = None →
  let '(r, x') := run (attach_round to_string w l) x in
  r = Err "no route for peer" ∧ lk_session (link l x') = Some (rm_next x) ∧
  sess (rm_next x) x' = set_handler s ∧ ∀ j, j ≠ rm_next x → sess j x' = sess j x.
Proof.
  intros c Ho Hf Hd Hc Hr Hn. unfold attach_round, read_link. rewrite run_bind, run_read, Ho. cbn [negb].
  rewrite run_bind, run_read. fold c. rewrite run_bind, run_ret, Hf, run_bind, run_read, run_bind.
  unfold dial at 1. rewrite run_act. cbv zeta. rewrite Hd.
  change (clock (set_rm_asked (rm_asked x + 1) x)) with (clock x). rewrite Hc. cbn [fresh].
  cbn [fst snd]. rewrite Hr. cbn [negb]. unfold attach_session, upd_link, upd_sess.
  rewrite run_bind, run_link. cbn [fst snd]. rewrite run_bind, run_sess. cbn [fst snd].
  rewrite run_bind. unfold route_provider. rewrite run_read. cbn [rm_routes set_rm_sessions set_rm_heap set_rm_next set_rm_asked].
  rewrite Hn, run_ret. split; [done|]. split; [|split].
  - unfold link. cbn. by rewrite lookup_total_insert_eq.
  - unfold sess. cbn. rewrite !lookup_total_insert_eq. done.
  - intros j Hj. unfold sess. cbn. by rewrite !lookup_total_insert_ne by done.
Qed.
End routes.

(** ** Concrete runs *)

(** No engine answers the reconciliation: the round fails after ten seconds. *)
Lemma attach_fails_closed_witness :
  (run (dattach 1) ctl_synced).1 = Err "reconcile: outcome-unknown" ∧
  k_remote_providers (ho_kernel (rm_host (run (dattach 1) ctl_synced).2)) !! "alpha" = None.
Proof.
  assert (H : (run (dattach 1) ctl_synced).1 = Err "reconcile: outcome-unknown") by by vm_compute.
  split; [exact H|].
  apply (attach_fails_closed demo_to_string demo_world 1 ctl_synced "reconcile: outcome-unknown" H).
  by vm_compute.
Defined.

(** A peer without a route: two rounds leave two sessions. *)
Definition ctl_unrouted : Ctl := (run (dsync [edge] []) ctl_new).2.

Lemma failed_attach_leaks_witness :
  let x1 := (run (dattach 1) ctl_unrouted).2 in
  let x2 := (run (dattach 1) x1).2 in
  lk_session (link 1 x1) = Some 2%N ∧ lk_session (link 1 x2) = Some 3%N ∧ admissible (sess 2 x2) = true.
Proof.
  intros x1 x2.
  assert (H : lk_session (link 1 x1) = Some 2%N ∧ admissible (sess 2 x1) = true) by by vm_compute.
  destruct H as [H1 H2]. split; [exact H1|].
  destruct (connect (λ v, chars (demo_to_string v)) demo_io session_limits
    (hello_body (pf_domain (lk_config (link 1 x1))) (rm_authority x1) (rm_epoch x1)) (clock x1)) as [[s we]|e] eqn:Ec;
    [|by vm_compute in Ec].
  assert (Hw : has_remote_calls we = true) by (vm_compute in Ec; by injection Ec as _ <-).
  pose proof (failed_attach_leaks demo_to_string demo_world 1 x1 demo_io s we) as T. cbv zeta in T.
  specialize (T ltac:(by vm_compute) eq_refl eq_refl Ec Hw ltac:(by vm_compute)).
  change (run (dattach 1) x1) with (run (attach_round demo_to_string demo_world 1) x1) in *.
  subst x2. destruct (run (attach_round demo_to_string demo_world 1) x1) as [r x2]. destruct T as (_ & T1 & _ & T2).
  assert (N : rm_next x1 = 3%N) by by vm_compute. rewrite N in T1, T2. cbn [snd].
  split; [exact T1|]. rewrite T2 by discriminate. exact H2.
Defined.
