(* ===== verification/Component.v ===== *)
(** * The component library ([matrix-component/src/lib.rs])

    A component connects to the host, registers, is activated and then serves: one thread reads
    the frames of the host, one thread per call runs the handler, one thread delivers events.
    [Comp] is what these threads share, each mutex-protected map, flag and channel one field;
    a method is a program of actions ([Prog]).

    The code of the application is the argument [Handler]: a call runs a [Script], a finite
    tree of uses of [CallCtx] that ends with an outcome or a panic. [SWorld] is what the outside
    answers: the errors of the socket, the launch token, the [Debug] texts. Bytes come from a
    [Reader] ([Frame]); a read that times out is one of its errors. What is written is [co_sent]. *)

From S2P Require Import Prelude RustStd Json Wire Frame Envelope Dependency Prog Timed.

(** ** Data *)

Inductive CallOutcome : Type := CallOk (v : Value) | CallErr (code message : string).

Record DepBinding : Type := mkDepBinding { bd_id : string; bd_capability : string }.

(** [ResError] has the same fields. *)
Record DepError : Type := mkDepError { de_code : string; de_message : string }.
Notation ResError := DepError (only parsing).

Definition dep_error_display (e : DepError) : string := de_code e +:+ ": " +:+ de_message e.

(** Cancel flags, channels and threads are numbered; the maps and the queue of a context are
    those of the component. *)
Record CallCtx : Type := mkCallCtx {
  cx_session_id : string;
  cx_instance_id : string;
  cx_generation : N;
  cx_max_frame : N;
  cx_ticket : string;
  cx_parent_cancel : N;
  cx_bindings : list DepBinding;
  cx_features : list string;
  cx_reader_thread : N;
}.

Inductive DepEvent : Type :=
| Event (topic : string) (payload : Value)
| Stream (stream_id : string) (seq : N) (payload : string).

Record EventQueue : Type := mkEventQueue { eq_queue : list DepEvent; eq_cap : nat; eq_dropped : N }.

(** The waits for [dependency.result] and for [resource.result]. *)
Inductive Table : Type := TDep | TRes.

(** A channel: the wait it was made for, what was sent and not received (with the request id of
    the frame it came in), and whether its sender exists. *)
Record Chan : Type := mkChan {
  ch_table : Table;
  ch_request : string;
  ch_queue : list (string * result Value DepError);
  ch_sender : bool;
}.

(** A thread that was spawned for a call and has not started. *)
Record Job : Type := mkJob {
  jb_thread : N;
  jb_ctx : CallCtx;
  jb_cap : string;
  jb_input : Value;
  jb_request_id : option string;
}.

(** A connected component ([struct Component]); its reader is an argument of [serve]. *)
Record Component : Type := mkComponent {
  cp_session_id : string;
  cp_instance_id : string;
  cp_generation : N;
  cp_max_frame : N;
  cp_features : list string;
  cp_dep_bindings : list DepBinding;
}.

Record Comp : Type := mkComp {
  co_now : Instant;
  co_next : N;                        (* the next flag, channel or thread *)
  co_seq : N;                         (* [DEP_SEQ] *)
  co_calls : gmap string N;           (* ticket, cancel flag *)
  co_cells : gmap N bool;
  co_dep_waiters : gmap string N;
  co_res_waiters : gmap string N;
  co_chans : gmap N Chan;
  co_events : EventQueue;
  co_wake : bool;                     (* the one slot of the wake channel *)
  co_ev_stop : bool;
  co_batch : list DepEvent;           (* what the dispatcher took and has not delivered *)
  co_jobs : list Job;
  co_writes : N;
  co_sent : list Value;               (* envelopes written *)
  co_opened : list string;            (* the tickets of the calls opened *)
  co_pushed : list DepEvent;          (* events queued so far *)
  co_seen : list DepEvent;            (* calls of [on_event] and [on_stream] *)
  co_cancelled : list string;         (* calls of [on_cancel] *)
}.

Definition negotiated_features (c : Component) : list string := cp_features c.

Definition comp_new (now : Instant) : Comp :=
  mkComp now 1 1 ∅ ∅ ∅ ∅ ∅ (mkEventQueue [] 64 0) false false [] [] 0 [] [] [] [] [].

Definition set_co_now (v : Instant) (x : Comp) : Comp :=
  mkComp v (co_next x) (co_seq x) (co_calls x) (co_cells x) (co_dep_waiters x) (co_res_waiters x) (co_chans x)
    (co_events x) (co_wake x) (co_ev_stop x) (co_batch x) (co_jobs x) (co_writes x) (co_sent x) (co_opened x)
    (co_pushed x) (co_seen x) (co_cancelled x).
Definition set_co_next (v : N) (x : Comp) : Comp :=
  mkComp (co_now x) v (co_seq x) (co_calls x) (co_cells x) (co_dep_waiters x) (co_res_waiters x) (co_chans x)
    (co_events x) (co_wake x) (co_ev_stop x) (co_batch x) (co_jobs x) (co_writes x) (co_sent x) (co_opened x)
    (co_pushed x) (co_seen x) (co_cancelled x).
Definition set_co_seq (v : N) (x : Comp) : Comp :=
  mkComp (co_now x) (co_next x) v (co_calls x) (co_cells x) (co_dep_waiters x) (co_res_waiters x) (co_chans x)
    (co_events x) (co_wake x) (co_ev_stop x) (co_batch x) (co_jobs x) (co_writes x) (co_sent x) (co_opened x)
    (co_pushed x) (co_seen x) (co_cancelled x).
Definition set_co_calls (v : gmap string N) (x : Comp) : Comp :=
  mkComp (co_now x) (co_next x) (co_seq x) v (co_cells x) (co_dep_waiters x) (co_res_waiters x) (co_chans x)
    (co_events x) (co_wake x) (co_ev_stop x) (co_batch x) (co_jobs x) (co_writes x) (co_sent x) (co_opened x)
    (co_pushed x) (co_seen x) (co_cancelled x).
Definition set_co_cells (v : gmap N bool) (x : Comp) : Comp :=
  mkComp (co_now x) (co_next x) (co_seq x) (co_calls x) v (co_dep_waiters x) (co_res_waiters x) (co_chans x)
    (co_events x) (co_wake x) (co_ev_stop x) (co_batch x) (co_jobs x) (co_writes x) (co_sent x) (co_opened x)
    (co_pushed x) (co_seen x) (co_cancelled x).
Definition set_co_dep_waiters (v : gmap string N) (x : Comp) : Comp :=
  mkComp (co_now x) (co_next x) (co_seq x) (co_calls x) (co_cells x) v (co_res_waiters x) (co_chans x)
    (co_events x) (co_wake x) (co_ev_stop x) (co_batch x) (co_jobs x) (co_writes x) (co_sent x) (co_opened x)
    (co_pushed x) (co_seen x) (co_cancelled x).
Definition set_co_res_waiters (v : gmap string N) (x : Comp) : Comp :=
  mkComp (co_now x) (co_next x) (co_seq x) (co_calls x) (co_cells x) (co_dep_waiters x) v (co_chans x)
    (co_events x) (co_wake x) (co_ev_stop x) (co_batch x) (co_jobs x) (co_writes x) (co_sent x) (co_opened x)
    (co_pushed x) (co_seen x) (co_cancelled x).
Definition set_co_chans (v : gmap N Chan) (x : Comp) : Comp :=
  mkComp (co_now x) (co_next x) (co_seq x) (co_calls x) (co_cells x) (co_dep_waiters x) (co_res_waiters x) v
    (co_events x) (co_wake x) (co_ev_stop x) (co_batch x) (co_jobs x) (co_writes x) (co_sent x) (co_opened x)
    (co_pushed x) (co_seen x) (co_cancelled x).
Definition set_co_events (v : EventQueue) (x : Comp) : Comp :=
  mkComp (co_now x) (co_next x) (co_seq x) (co_calls x) (co_cells x) (co_dep_waiters x) (co_res_waiters x)
    (co_chans x) v (co_wake x) (co_ev_stop x) (co_batch x) (co_jobs x) (co_writes x) (co_sent x) (co_opened x)
    (co_pushed x) (co_seen x) (co_cancelled x).
Definition set_co_wake (v : bool) (x : Comp) : Comp :=
  mkComp (co_now x) (co_next x) (co_seq x) (co_calls x) (co_cells x) (co_dep_waiters x) (co_res_waiters x)
    (co_chans x) (co_events x) v (co_ev_stop x) (co_batch x) (co_jobs x) (co_writes x) (co_sent x) (co_opened x)
    (co_pushed x) (co_seen x) (co_cancelled x).
Definition set_co_ev_stop (v : bool) (x : Comp) : Comp :=
  mkComp (co_now x) (co_next x) (co_seq x) (co_calls x) (co_cells x) (co_dep_waiters x) (co_res_waiters x)
    (co_chans x) (co_events x) (co_wake x) v (co_batch x) (co_jobs x) (co_writes x) (co_sent x) (co_opened x)
    (co_pushed x) (co_seen x) (co_cancelled x).
Definition set_co_batch (v : list DepEvent) (x : Comp) : Comp :=
  mkComp (co_now x) (co_next x) (co_seq x) (co_calls x) (co_cells x) (co_dep_waiters x) (co_res_waiters x)
    (co_chans x) (co_events x) (co_wake x) (co_ev_stop x) v (co_jobs x) (co_writes x) (co_sent x) (co_opened x)
    (co_pushed x) (co_seen x) (co_cancelled x).
Definition set_co_jobs (v : list Job) (x : Comp) : Comp :=
  mkComp (co_now x) (co_next x) (co_seq x) (co_calls x) (co_cells x) (co_dep_waiters x) (co_res_waiters x)
    (co_chans x) (co_events x) (co_wake x) (co_ev_stop x) (co_batch x) v (co_writes x) (co_sent x) (co_opened x)
    (co_pushed x) (co_seen x) (co_cancelled x).
Definition set_co_writes (v : N) (x : Comp) : Comp :=
  mkComp (co_now x) (co_next x) (co_seq x) (co_calls x) (co_cells x) (co_dep_waiters x) (co_res_waiters x)
    (co_chans x) (co_events x) (co_wake x) (co_ev_stop x) (co_batch x) (co_jobs x) v (co_sent x) (co_opened x)
    (co_pushed x) (co_seen x) (co_cancelled x).
Definition set_co_sent (v : list Value) (x : Comp) : Comp :=
  mkComp (co_now x) (co_next x) (co_seq x) (co_calls x) (co_cells x) (co_dep_waiters x) (co_res_waiters x)
    (co_chans x) (co_events x) (co_wake x) (co_ev_stop x) (co_batch x) (co_jobs x) (co_writes x) v (co_opened x)
    (co_pushed x) (co_seen x) (co_cancelled x).
Definition set_co_opened (v : list string) (x : Comp) : Comp :=
  mkComp (co_now x) (co_next x) (co_seq x) (co_calls x) (co_cells x) (co_dep_waiters x) (co_res_waiters x)
    (co_chans x) (co_events x) (co_wake x) (co_ev_stop x) (co_batch x) (co_jobs x) (co_writes x) (co_sent x) v
    (co_pushed x) (co_seen x) (co_cancelled x).
Definition set_co_pushed (v : list DepEvent) (x : Comp) : Comp :=
  mkComp (co_now x) (co_next x) (co_seq x) (co_calls x) (co_cells x) (co_dep_waiters x) (co_res_waiters x)
    (co_chans x) (co_events x) (co_wake x) (co_ev_stop x) (co_batch x) (co_jobs x) (co_writes x) (co_sent x)
    (co_opened x) v (co_seen x) (co_cancelled x).
Definition set_co_seen (v : list DepEvent) (x : Comp) : Comp :=
  mkComp (co_now x) (co_next x) (co_seq x) (co_calls x) (co_cells x) (co_dep_waiters x) (co_res_waiters x)
    (co_chans x) (co_events x) (co_wake x) (co_ev_stop x) (co_batch x) (co_jobs x) (co_writes x) (co_sent x)
    (co_opened x) (co_pushed x) v (co_cancelled x).
Definition set_co_cancelled (v : list string) (x : Comp) : Comp :=
  mkComp (co_now x) (co_next x) (co_seq x) (co_calls x) (co_cells x) (co_dep_waiters x) (co_res_waiters x)
    (co_chans x) (co_events x) (co_wake x) (co_ev_stop x) (co_batch x) (co_jobs x) (co_writes x) (co_sent x)
    (co_opened x) (co_pushed x) (co_seen x) v.

#[export] Instance comp_clock : Clock Comp := {
  clock := co_now;
  advance n x := set_co_now (N.max n (co_now x)) x;
}.

Notation sprog := (prog Comp).

(** ** The application *)

(** What the code of a call does with its context: the methods of [CallCtx], the cancel flag,
    time. *)
Inductive Script : Type :=
| Return (o : CallOutcome)
| Panic
| Invoke (binding : string) (input : Value) (timeout : N) (k : result Value DepError → Script)
| Acquire (kind label : string) (interval_ms : option N) (k : result N ResError → Script)
| Release (handle : N) (k : result unit ResError → Script)
| SendStream (stream_id : string) (seq : N) (payload : string) (k : result unit string → Script)
| Cancelled (k : bool → Script)
| Counts (k : N → nat → Script)
| Sleep (ms : N) (k : Script).

(** [Handler::on_call]; the other methods of a handler are recorded. *)
Definition Handler : Type := CallCtx → string → string → Value → Script.

Record SWorld : Type := mkSWorld {
  sw_connect : result unit string;
  sw_timeout : result unit string;
  sw_clone : result unit string;
  sw_token : string;                  (* [MATRIX_LAUNCH_TOKEN], or nothing *)
  sw_write : N → option string;       (* the error of the n-th write *)
  sw_debug_wire : WireError → string;
  sw_debug_value : Value → string;
}.

(** ** The event queue *)

Definition eq_push (ev : DepEvent) (q : EventQueue) : EventQueue :=
  if eq_cap q <=? length (eq_queue q) then
    mkEventQueue (List.tl (eq_queue q) ++ [ev]) (eq_cap q) (saturating_add (eq_dropped q) 1)
  else mkEventQueue (eq_queue q ++ [ev]) (eq_cap q) (eq_dropped q).

Definition eq_drain (q : EventQueue) : list DepEvent * EventQueue :=
  (eq_queue q, mkEventQueue [] (eq_cap q) (eq_dropped q)).

Definition is_stream (ev : DepEvent) : bool := match ev with Stream _ _ _ => true | _ => false end.

Definition pending_streams (q : EventQueue) : nat := length (List.filter is_stream (eq_queue q)).

(** ** Shared state *)

Definition fresh (x : Comp) : N * Comp := (co_next x, set_co_next (co_next x + 1) x).
Definition next_seq (x : Comp) : N * Comp := (co_seq x, set_co_seq (co_seq x + 1) x).

Definition cell (c : N) (x : Comp) : bool := default false (co_cells x !! c).
Definition chan (c : N) (x : Comp) : Chan := default (mkChan TDep "" [] false) (co_chans x !! c).

Definition waiters (t : Table) (x : Comp) : gmap string N :=
  match t with TDep => co_dep_waiters x | TRes => co_res_waiters x end.
Definition set_waiters (t : Table) (v : gmap string N) (x : Comp) : Comp :=
  match t with TDep => set_co_dep_waiters v x | TRes => set_co_res_waiters v x end.

(** [channel()], and its sender in the table. *)
Definition add_waiter (t : Table) (rid : string) (x : Comp) : N * Comp :=
  let '(c, x) := fresh x in
  (c, set_waiters t (<[rid := c]> (waiters t x)) (set_co_chans (<[c := mkChan t rid [] true]> (co_chans x)) x)).

Definition remove_waiter (t : Table) (rid : string) (x : Comp) : Comp :=
  set_waiters t (delete rid (waiters t x)) x.

(** [tx.send(m)], after which the sender is dropped. *)
Definition send_last (c : N) (m : string * result Value DepError) (x : Comp) : Comp :=
  let ch := chan c x in
  set_co_chans (<[c := mkChan (ch_table ch) (ch_request ch) (ch_queue ch ++ [m]) false]> (co_chans x)) x.

(** The waiter of a request is taken and told; no other thread has its sender in between. *)
Definition answer_waiter (t : Table) (rid : string) (r : result Value DepError) (x : Comp) : Comp :=
  match waiters t x !! rid with
  | Some c => send_last c (rid, r) (remove_waiter t rid x)
  | None => x
  end.

(** A message is there, or none can come any more. *)
Definition chan_ready (c : N) (x : Comp) : bool :=
  negb (bool_decide (ch_queue (chan c x) = [])) || negb (ch_sender (chan c x)).

Definition receive (c : N) (x : Comp) : option (string * result Value DepError) * Comp :=
  let ch := chan c x in
  match ch_queue ch with
  | [] => (None, x)
  | m :: rest =>
      (Some m, set_co_chans (<[c := mkChan (ch_table ch) (ch_request ch) rest (ch_sender ch)]> (co_chans x)) x)
  end.

(** ** Envelopes *)

(** The envelope of an activation; [rest] is its request id, where it has one. *)
Definition bound_env (ty message_id session_id instance_id : string) (generation : N)
    (rest : list (string * Value)) (body : Value) : Value :=
  obj ([("protocol", JString PROTOCOL_ID); ("version", JString PROTOCOL_VERSION); ("type", JString ty);
        ("message_id", JString message_id); ("session_id", JString session_id);
        ("instance_id", JString instance_id); ("generation", JString (display generation))]
       ++ rest ++ [("body", body)]).

Definition ctx_env (cx : CallCtx) (ty message_id : string) (rest : list (string * Value)) (body : Value) : Value :=
  bound_env ty message_id (cx_session_id cx) (cx_instance_id cx) (cx_generation cx) rest body.

Definition stream_env (cx : CallCtx) (stream_id : string) (seq : N) (payload : string) : Value :=
  ctx_env cx "stream.data" ("m-" +:+ stream_id +:+ "-" +:+ display seq) []
    (obj [("stream_id", JString stream_id); ("seq", JString (display seq)); ("payload", JString payload)]).

Definition dep_rid (n : N) : string := "r-dep-" +:+ display n.
Definition res_rid (n : N) : string := "r-res-" +:+ display n.

Definition dep_open_env (cx : CallCtx) (n : N) (binding : string) (timeout_ms : N) (input : Value) : Value :=
  ctx_env cx "dependency.open" ("m-dep-" +:+ display n) [("request_id", JString (dep_rid n))]
    (obj [("parent_ticket", JString (cx_ticket cx)); ("binding_id", JString binding);
          ("timeout_ms", j_u64 timeout_ms); ("input", input)]).

Definition dep_cancel_env (cx : CallCtx) (n : N) (target : string) : Value :=
  ctx_env cx "dependency.cancel" ("m-dep-cancel-" +:+ display n)
    [("request_id", JString ("r-dep-cancel-" +:+ display n))]
    (obj [("target_request_id", JString target)]).

Definition resource_env (cx : CallCtx) (n : N) (operation : string) (fields : list (string * Value)) : Value :=
  ctx_env cx ("resource." +:+ operation) ("m-res-" +:+ display n) [("request_id", JString (res_rid n))]
    (obj (("operation_id", JString ("op-res-" +:+ display n)) :: fields)).

Definition result_env (cx : CallCtx) (rid : option string) (o : CallOutcome) : Value :=
  ctx_env cx "call.result" ("m-call-" +:+ cx_ticket cx) [("request_id", j_opt (JString <$> rid))]
    (match o with
     | CallOk output =>
         obj [("ticket", JString (cx_ticket cx)); ("status", JString "ok"); ("output", output)]
     | CallErr code message =>
         obj [("ticket", JString (cx_ticket cx)); ("status", JString "error");
              ("error", obj [("code", JString code); ("message", JString message)])]
     end).

Definition done_body (op : Value) : Value :=
  obj [("operation_id", op); ("status", JString "ok"); ("pending", JArray [])].

Definition lifecycle_env (c : Component) (op : Value) (rid : option string) : Value :=
  bound_env "lifecycle.result" ("m-lc-" +:+ default "op" (as_str op)) (cp_session_id c) (cp_instance_id c)
    (cp_generation c) [("request_id", j_opt (JString <$> rid))] (done_body op).

Section component.
Context (to_string : Value → string) (from_str : bytes → result Value string) (w : SWorld).

(** [encode(&to_vec(v), max_frame)], then the write and the flush under the lock of the writer. *)
Definition put (v : Value) (max_frame : N) : sprog (result unit string) :=
  match encode (chars (to_string v)) max_frame with
  | Err e => Ret (Err (frame_error_display e))
  | Ok _ =>
      act (λ x, let x' := set_co_writes (co_writes x + 1) x in
                match sw_write w (co_writes x) with
                | Some e => (Err e, x')
                | None => (Ok tt, set_co_sent (co_sent x ++ [v]) x')
                end)
  end.

(** [send_envelope] ignores the errors. *)
Definition post (v : Value) (max_frame : N) : sprog unit := do! put v max_frame; Ret tt.

(** ** The context of a call *)

Definition send_stream (cx : CallCtx) (stream_id : string) (seq : N) (payload : string) : sprog (result unit string) :=
  put (stream_env cx stream_id seq payload) (cx_max_frame cx).

Definition dependencies (cx : CallCtx) : list DepBinding := cx_bindings cx.
Definition event_dropped_count : sprog N := read (λ x, eq_dropped (co_events x)).
Definition pending_stream_count : sprog nat := read (λ x, pending_streams (co_events x)).

(** [me] is the current thread. *)
Definition check_not_reader (me : N) (cx : CallCtx) : result unit DepError :=
  if (me =? cx_reader_thread cx)%N then Err (mkDepError "internal" "blocking call on reader thread") else Ok tt.

Definition send_dep_cancel (cx : CallCtx) (target : string) : sprog unit :=
  let! n := act next_seq in
  post (dep_cancel_env cx n target) (cx_max_frame cx).

(** One turn of the wait for an answer on channel [c]. [on_stop] is what the wait does before it
    gives up, [late] its error at the deadline. *)
Definition answer_round (t : Table) (rid : string) (c flag : N) (deadline : Instant) (on_stop : sprog unit)
    (late : DepError) : sprog (option (result Value DepError)) :=
  let stop_with e := do! on_stop; do! modify (remove_waiter t rid); Ret (Some (Err e)) in
  let! cancelled := read (cell flag) in
  if cancelled then stop_with (mkDepError "cancelled" "parent cancelled")
  else
    let! now := read clock in
    if (deadline <=? now)%N then stop_with late
    else
      let! m := Wait (chan_ready c) (now + N.min 50 (deadline - now)) (λ woken,
                  if woken then let! m := act (receive c) in Ret (Some m) else Ret None) in
      match m with
      | Some (Some m) => do! modify (remove_waiter t rid); Ret (Some m.2)
      | Some None => Ret (Some (Err (mkDepError "outcome-unknown" "demux gone")))
      | None => Ret None
      end.

(** The rounds cover the deadline; [None] would be their end ([answer_returns]). *)
Definition await_answer (t : Table) (rid : string) (c flag : N) (span : N) (on_stop : sprog unit)
    (late : DepError) : sprog (option (result Value DepError)) :=
  let! now := read clock in
  poll (rounds span 50) (answer_round t rid c flag (now + span) on_stop late).

(** The channel, the waiter, the request. *)
Definition open_wait (t : Table) (rid : string) (env : Value) (max_frame : N) : sprog (result N DepError) :=
  let! c := act (add_waiter t rid) in
  let! sent := put env max_frame in
  match sent with
  | Err e => do! modify (remove_waiter t rid); Ret (Err (mkDepError "internal" e))
  | Ok _ => Ret (Ok c)
  end.

Definition invoke_dependency (me : N) (cx : CallCtx) (binding : string) (input : Value) (timeout : N)
    : sprog (option (result Value DepError)) :=
  if negb (bool_decide (DEPENDENCY_CALLS_1 ∈ cx_features cx)) then
    Ret (Some (Err (mkDepError "unsupported-feature" "dependency calls not negotiated")))
  else
    let timeout_ms := N.min timeout u64_max in
    if (timeout_ms =? 0)%N then Ret (Some (Err (mkDepError "invalid-message" "timeout must be positive")))
    else
      match check_not_reader me cx with
      | Err e => Ret (Some (Err e))
      | Ok _ =>
          let! n := act next_seq in
          let! r := open_wait TDep (dep_rid n) (dep_open_env cx n binding timeout_ms input) (cx_max_frame cx) in
          match r with
          | Err e => Ret (Some (Err e))
          | Ok c =>
              await_answer TDep (dep_rid n) c (cx_parent_cancel cx) (timeout + 10000)
                (send_dep_cancel cx (dep_rid n)) (mkDepError "outcome-unknown" "sdk wait timeout")
          end
      end.

Definition resource_roundtrip (me : N) (cx : CallCtx) (operation : string) (fields : list (string * Value))
    : sprog (option (result Value ResError)) :=
  match check_not_reader me cx with
  | Err e => Ret (Some (Err e))
  | Ok _ =>
      let! n := act next_seq in
      let! r := open_wait TRes (res_rid n) (resource_env cx n operation fields) (cx_max_frame cx) in
      match r with
      | Err e => Ret (Some (Err e))
      | Ok c =>
          await_answer TRes (res_rid n) c (cx_parent_cancel cx) 10000 (Ret tt)
            (mkDepError "outcome-unknown" "resource wait timeout")
      end
  end.

Definition acquire_fields (kind label : string) (interval_ms : option N) : list (string * Value) :=
  [("kind", JString kind); ("label", JString label)]
  ++ match interval_ms with Some ms => [("interval_ms", j_u64 ms)] | None => [] end.

(** The handle of an answer. *)
Definition handle_of (extra : Value) : result N ResError :=
  ok_or (s ← get_str "handle" extra; parse_u64 (chars s)) (mkDepError "internal" "missing handle").

Definition acquire_resource (me : N) (cx : CallCtx) (kind label : string) (interval_ms : option N)
    : sprog (option (result N ResError)) :=
  let! r := resource_roundtrip me cx "acquire" (acquire_fields kind label interval_ms) in
  Ret ((λ r, let? extra := r in handle_of extra) <$> r).

Definition release_resource (me : N) (cx : CallCtx) (handle : N) : sprog (option (result unit ResError)) :=
  let! r := resource_roundtrip me cx "release" [("handle", JString (display handle))] in
  Ret ((λ r, let? _ := r in Ok tt) <$> r).

(** ** Calls *)

Inductive Played : Type := Played_ (o : CallOutcome) | Panicked | Stuck.

(** The code of a call, on thread [me]. *)
Fixpoint play (me : N) (cx : CallCtx) (s : Script) : sprog Played :=
  match s with
  | Return o => Ret (Played_ o)
  | Panic => Ret Panicked
  | Invoke binding input timeout k =>
      let! r := invoke_dependency me cx binding input timeout in
      match r with Some a => play me cx (k a) | None => Ret Stuck end
  | Acquire kind label interval_ms k =>
      let! r := acquire_resource me cx kind label interval_ms in
      match r with Some a => play me cx (k a) | None => Ret Stuck end
  | Release handle k =>
      let! r := release_resource me cx handle in
      match r with Some a => play me cx (k a) | None => Ret Stuck end
  | SendStream stream_id seq payload k =>
      let! r := send_stream cx stream_id seq payload in play me cx (k r)
  | Cancelled k => let! b := read (cell (cx_parent_cancel cx)) in play me cx (k b)
  | Counts k =>
      let! d := event_dropped_count in
      let! p := pending_stream_count in
      play me cx (k d p)
  | Sleep ms k =>
      let! now := read clock in
      do! Wait (λ _, false) (now + ms) (λ _, Ret tt);
      play me cx k
  end.

Definition forget_call (ticket : string) (x : Comp) : Comp := set_co_calls (delete ticket (co_calls x)) x.

(** The thread of a call. A panic ends it where it is. *)
Definition call_worker (handler : Handler) (j : Job) : sprog unit :=
  let cx := jb_ctx j in
  let! out := play (jb_thread j) cx (handler cx (cx_ticket cx) (jb_cap j) (jb_input j)) in
  match out with
  | Played_ o =>
      do! modify (forget_call (cx_ticket cx));
      let! cancelled := read (cell (cx_parent_cancel cx)) in
      if cancelled then Ret tt
      else post (result_env cx (jb_request_id j) o) (cx_max_frame cx)
  | _ => Ret tt
  end.

(** The start of the [n]-th spawned thread that has not started. *)
Definition start_job (n : nat) (x : Comp) : option Job * Comp :=
  (co_jobs x !! n, set_co_jobs (delete n (co_jobs x)) x).

Definition worker_thread (handler : Handler) (n : nat) : sprog unit :=
  let! j := act (start_job n) in
  match j with Some j => call_worker handler j | None => Ret tt end.

(** ** The frames of the host *)

Definition bound_ok (c : Component) (env : Envelope) : bool :=
  bool_decide (env_session_id env = Some (cp_session_id c))
  && match env_instance_id env with Some v => bool_decide (v = cp_instance_id c) | None => true end
  && match env_generation env with Some g => (g =? cp_generation c)%N | None => true end.

Definition operation_of (env : Envelope) : Value := default (JString "op?") (get "operation_id" (env_body env)).

Definition send_lifecycle_result (c : Component) (env : Envelope) : sprog unit :=
  post (lifecycle_env c (operation_of env) (env_request_id env)) (cp_max_frame c).

Definition text_of (key : string) (env : Envelope) : string := default "" (get_str key (env_body env)).

Definition READER : N := 0.

Definition call_ctx (c : Component) (ticket : string) (flag : N) : CallCtx :=
  mkCallCtx (cp_session_id c) (cp_instance_id c) (cp_generation c) (cp_max_frame c) ticket flag
    (cp_dep_bindings c) (cp_features c) READER.

Definition new_cancel_flag (x : Comp) : N * Comp :=
  let '(f, x) := fresh x in (f, set_co_cells (<[f := false]> (co_cells x)) x).

Definition spawn_call (c : Component) (env : Envelope) (ticket : string) (flag : N) (x : Comp) : Comp :=
  let '(t, x) := fresh x in
  let x := set_co_opened (co_opened x ++ [ticket]) x in
  set_co_jobs (co_jobs x ++ [mkJob t (call_ctx c ticket flag) (text_of "capability" env)
                               (j_opt (get "input" (env_body env))) (env_request_id env)]) x.

Definition recv_open (c : Component) (env : Envelope) : sprog unit :=
  let ticket := text_of "ticket" env in
  let! flag := act new_cancel_flag in
  do! modify (λ x, set_co_calls (<[ticket := flag]> (co_calls x)) x);
  modify (spawn_call c env ticket flag).

Definition signal (ticket : string) (x : Comp) : Comp :=
  match co_calls x !! ticket with
  | Some f => set_co_cells (<[f := true]> (co_cells x)) x
  | None => x
  end.

Definition recv_cancel (env : Envelope) : sprog unit :=
  let ticket := text_of "ticket" env in
  do! modify (signal ticket);
  modify (λ x, set_co_cancelled (co_cancelled x ++ [ticket]) x).

Definition dep_answer (body : Value) : result Value DepError :=
  if bool_decide (default "" (get_str "status" body) = "ok") then Ok (j_opt (get "output" body))
  else
    let err := default (obj []) (get "error" body) in
    Err (mkDepError (default "internal" (get_str "code" err)) (default "remote error" (get_str "message" err))).

Definition res_answer (body : Value) : result Value DepError :=
  if bool_decide (default "" (get_str "status" body) = "ok") then
    Ok (JObject (List.filter (λ kv, negb (bool_decide (kv.1 ∈ ["operation_id"; "status"])))
                   (default [] (as_object body))))
  else
    Err (mkDepError (default "internal" (get_str "code" body)) (default "remote error" (get_str "message" body))).

Definition answer_of (t : Table) : Value → result Value DepError :=
  match t with TDep => dep_answer | TRes => res_answer end.

Definition recv_answer (t : Table) (env : Envelope) : sprog unit :=
  match env_request_id env with
  | None => Ret tt
  | Some rid => modify (answer_waiter t rid (answer_of t (env_body env)))
  end.

Definition push_event (ev : DepEvent) (x : Comp) : Comp :=
  set_co_pushed (co_pushed x ++ [ev]) (set_co_events (eq_push ev (co_events x)) x).

Definition enqueue (ev : DepEvent) : sprog unit :=
  do! modify (push_event ev);
  modify (set_co_wake true).

Definition recv_event (env : Envelope) : sprog unit :=
  let topic := text_of "topic" env in
  if str_is_empty topic then Ret tt else enqueue (Event topic (j_opt (get "payload" (env_body env)))).

Definition recv_stream (env : Envelope) : sprog unit :=
  let stream_id := text_of "stream_id" env in
  let seq := default u64_max (s ← get_str "seq" (env_body env); parse_u64 (chars s)) in
  if str_is_empty stream_id || (seq =? u64_max)%N then Ret tt
  else enqueue (Stream stream_id seq (text_of "payload" env)).

(** One envelope; [true] ends the loop. *)
Definition recv (c : Component) (env : Envelope) : sprog bool :=
  let ty := env_ty env in
  let more p := do! p; Ret false in
  if bool_decide (ty ∈ ["lifecycle.prepare"; "lifecycle.activate"; "lifecycle.quiesce"]) then
    more (send_lifecycle_result c env)
  else if bool_decide (ty = "lifecycle.dispose") then do! send_lifecycle_result c env; Ret true
  else if bool_decide (ty = "call.open") then more (recv_open c env)
  else if bool_decide (ty = "call.cancel") then more (recv_cancel env)
  else if bool_decide (ty = "dependency.result") then more (recv_answer TDep env)
  else if bool_decide (ty = "resource.result") then more (recv_answer TRes env)
  else if bool_decide (ty = "event.deliver") then more (recv_event env)
  else if bool_decide (ty = "stream.data") then more (recv_stream env)
  else Ret false.

Definition on_payload (c : Component) (raw : bytes) : sprog bool :=
  match parse_frame_payload from_str raw with
  | Err _ => Ret false
  | Ok env => if bound_ok c env then recv c env else Ret false
  end.

(** Every frame takes bytes from the reader: [reader_size] rounds are enough. *)
Definition reader_size (r : Reader) : nat :=
  list_sum ((λ ev, match ev with Ok chunk => length chunk | Err _ => 0 end) <$> r).

Fixpoint read_frames (fuel : nat) (c : Component) (r : Reader) : sprog (option (result unit string)) :=
  match fuel with
  | O => Ret None
  | S fuel =>
      match read_frame (cp_max_frame c) r with
      | (Err e, _) => Ret (Some (Err ("read: " +:+ frame_error_display e)))
      | (Ok None, _) => Ret (Some (Err "host eof"))
      | (Ok (Some raw), r) =>
          let! stop := on_payload c raw in
          if stop then Ret (Some (Ok tt)) else read_frames fuel c r
      end
  end.

(** [serve] up to the join of the dispatcher, which only waits. *)
Definition serve (c : Component) (r : Reader) : sprog (option (result unit string)) :=
  let! out := read_frames (S (reader_size r)) c r in
  do! modify (set_co_ev_stop true);
  Ret out.

(** ** The dispatcher *)

(** The batch is the dispatcher's; [for ev in batch] takes its events one by one. *)
Definition drain_events (x : Comp) : list DepEvent * Comp :=
  let '(batch, q) := eq_drain (co_events x) in
  (batch, set_co_batch (co_batch x ++ batch) (set_co_events q x)).

Definition deliver_next (x : Comp) : Comp :=
  match co_batch x with
  | [] => x
  | ev :: rest => set_co_seen (co_seen x ++ [ev]) (set_co_batch rest x)
  end.

(** The sender of the wake channel lives until the dispatcher was joined: the arm of a
    disconnected channel is not taken. *)
Definition dispatch_round : sprog (option unit) :=
  let! now := read clock in
  do! Wait co_wake (now + 100) (λ woken, if woken then modify (set_co_wake false) else Ret tt);
  let! batch := act drain_events in
  do! Prog.for_each batch (λ _, modify deliver_next);
  let! stop := read co_ev_stop in
  Ret (if stop then Some tt else None).

Definition dispatcher (n : nat) : sprog (option unit) := poll n dispatch_round.

(** ** Connecting *)

Definition hello_env : Value :=
  obj [("protocol", JString PROTOCOL_ID); ("version", JString PROTOCOL_VERSION); ("type", JString "hello");
       ("message_id", JString "h1");
       ("body", obj [("launch_token", JString (sw_token w)); ("versions", JArray [JString "0.1"]);
                     ("max_frame", j_u64 DEFAULT_MAX_FRAME); ("client", JString "matrix-component");
                     ("features", JArray [JString DEPENDENCY_CALLS_1])])].

Definition register_env (sid logical : string) : Value :=
  obj [("protocol", JString PROTOCOL_ID); ("version", JString PROTOCOL_VERSION);
       ("type", JString "component.register"); ("message_id", JString "reg1"); ("session_id", JString sid);
       ("body", obj [("manifest", obj [("id", JString logical)])])].

Definition activated_env (c : Component) (op : Value) (rid : option string) : Value :=
  bound_env "lifecycle.result" "lc1" (cp_session_id c) (cp_instance_id c) (cp_generation c)
    [("request_id", j_opt (JString <$> rid))] (done_body op).

Definition str_items (v : Value) : list string :=
  match as_array v with Some a => omap as_str a | None => [] end.

Definition features_of (body : Value) : list string := from_option str_items [] (get "features" body).

Definition binding_of (e : Value) : option DepBinding :=
  id ← get_str "binding_id" e;
  capability ← get_str "capability" e;
  if str_is_empty id || str_is_empty capability then None else Some (mkDepBinding id capability).

Definition bindings_of (body : Value) : list DepBinding :=
  omap binding_of (default [] (get_array "dependency_bindings" body)).

(** [read_frame] and [parse_frame_payload]: the next envelope, of type [ty]. *)
Definition next_env (max_frame : N) (missing bad : string) (r : Reader) : result (Envelope * Reader) string :=
  match read_frame max_frame r with
  | (Err e, _) => Err (frame_error_display e)
  | (Ok None, _) => Err missing
  | (Ok (Some raw), r) =>
      match parse_frame_payload from_str raw with
      | Err e => Err (bad +:+ ": " +:+ sw_debug_wire w e)
      | Ok env => Ok (env, r)
      end
  end.

Definition connect (logical : string) (r : Reader) : sprog (result (Component * Reader) string) :=
  let?! _ := Ret (map_err (λ e, "connect: " +:+ e) (sw_connect w)) in
  let?! _ := Ret (sw_timeout w) in
  let?! _ := Ret (sw_clone w) in
  let?! _ := put hello_env DEFAULT_MAX_FRAME in
  let?! wr := Ret (next_env DEFAULT_MAX_FRAME "sem welcome" "welcome" r) in
  let '(welcome, r) := wr in
  if bool_decide (env_ty welcome ≠ "welcome") then Ret (Err ("esperava welcome, veio " +:+ env_ty welcome))
  else
    let?! sid := Ret (ok_or (env_session_id welcome) "welcome without session") in
    let max_frame := default DEFAULT_MAX_FRAME (get_u64 "max_frame" (env_body welcome)) in
    let features := features_of (env_body welcome) in
    let?! _ := put (register_env sid logical) max_frame in
    let?! rr := Ret (next_env max_frame "sem registered" "registered" r) in
    let '(reg, r) := rr in
    if bool_decide (env_ty reg ≠ "registered") then
      Ret (Err ("registro rejeitado: " +:+ sw_debug_value w (env_body reg)))
    else
      let?! iid := Ret (ok_or (env_instance_id reg) "registered without instance") in
      let?! generation := Ret (ok_or (env_generation reg) "registered without generation") in
      let?! ar := Ret (next_env max_frame "sem activate" "activate" r) in
      let '(activate, r) := ar in
      if bool_decide (env_ty activate ≠ "lifecycle.activate") then
        Ret (Err ("esperava activate, veio " +:+ env_ty activate))
      else
        let c := mkComponent sid iid generation max_frame features (bindings_of (env_body activate)) in
        let?! _ := put (activated_env c (operation_of activate) (env_request_id activate)) max_frame in
        Ret (Ok (c, r)).
End component.
