(* ===== verification/ComponentInv.v ===== *)
(** * The invariants of a component

    [cact] lists every update that a critical section of the component library makes; every
    thread of a component is made of them ([thread_acts]). Two invariants of the shared state
    follow case by case: events are accounted for, and answers wait in the channel of their
    request. [credit] counts what a thread may still send. *)

From S2P Require Import Prelude RustStd Json Wire Frame Envelope Dependency Prog Timed Component.

(** ** The threads of a component *)

Inductive CompOp : Type :=
| CoServe (c : Component) (r : Reader)
| CoDispatch (n : nat)
| CoWorker (n : nat).

(** ** Updates *)

(** The envelope is no result of a call. *)
Definition silent (v : Value) : Prop := get_str "type" v ≠ Some "call.result".

(** [loud]: results of calls are sent too. *)
Inductive cact (loud : bool) (x : Comp) : Comp → Prop :=
| ca_same : cact loud x x
| ca_tick n : cact loud x (advance n x)
| ca_seq : cact loud x (next_seq x).2
| ca_unwritten n : cact loud x (set_co_writes n x)
| ca_written n v : loud = true ∨ silent v → cact loud x (set_co_sent (co_sent x ++ [v]) (set_co_writes n x))
| ca_wait t rid : cact loud x (add_waiter t rid x).2
| ca_leave t rid : cact loud x (remove_waiter t rid x)
| ca_receive c : cact loud x (receive c x).2
| ca_answer t rid r : cact loud x (answer_waiter t rid r x)
| ca_flag : cact loud x (new_cancel_flag x).2
| ca_call ticket f : cact loud x (set_co_calls (<[ticket := f]> (co_calls x)) x)
| ca_spawn c env ticket f : cact loud x (spawn_call c env ticket f x)
| ca_start n : cact loud x (start_job n x).2
| ca_forget ticket : cact loud x (forget_call ticket x)
| ca_signal ticket : cact loud x (signal ticket x)
| ca_notice l : cact loud x (set_co_cancelled l x)
| ca_push ev : cact loud x (push_event ev x)
| ca_wake b : cact loud x (set_co_wake b x)
| ca_stop b : cact loud x (set_co_ev_stop b x)
| ca_drain : cact loud x (drain_events x).2
| ca_deliver : cact loud x (deliver_next x).

Create HintDb cacts.
#[local] Hint Constructors cact : cacts.
#[export] Instance cact_refl loud : Reflexive (cact loud) := ca_same loud.

(** ** Envelopes *)

Definition bound_members (ty message_id sid iid : string) (generation : N) (rest : list (string * Value)) (body : Value)
    : list (string * Value) :=
  [("protocol", JString PROTOCOL_ID); ("version", JString PROTOCOL_VERSION); ("type", JString ty);
   ("message_id", JString message_id); ("session_id", JString sid);
   ("instance_id", JString iid); ("generation", JString (display generation))] ++ rest ++ [("body", body)].

Lemma get_bound_env k ty mid sid iid g rest body :
  rest = [] ∨ (∃ v, rest = [("request_id", v)]) →
  get k (bound_env ty mid sid iid g rest body) = assoc k (bound_members ty mid sid iid g rest body).
Proof. intros [->|[v ->]]; by apply get_obj. Qed.

Lemma type_bound_env ty mid sid iid g rest body :
  rest = [] ∨ (∃ v, rest = [("request_id", v)]) →
  get_str "type" (bound_env ty mid sid iid g rest body) = Some ty.
Proof. intros H. unfold get_str. by rewrite get_bound_env. Qed.

Ltac silent_tac :=
  intros; unfold silent, stream_env, dep_open_env, dep_cancel_env, resource_env, lifecycle_env, ctx_env;
  rewrite type_bound_env by eauto; done.

Lemma silent_stream cx sid seq p : silent (stream_env cx sid seq p).
Proof. silent_tac. Qed.
Lemma silent_open cx n b t i : silent (dep_open_env cx n b t i).
Proof. silent_tac. Qed.
Lemma silent_cancel cx n t : silent (dep_cancel_env cx n t).
Proof. silent_tac. Qed.
Lemma silent_resource cx n op fields : silent (resource_env cx n op fields).
Proof. silent_tac. Qed.
Lemma silent_lifecycle c op rid : silent (lifecycle_env c op rid).
Proof. silent_tac. Qed.
#[local] Hint Resolve silent_stream silent_open silent_cancel silent_resource silent_lifecycle : cacts.

Section threads.
Context (to_string : Value → string) (from_str : bytes → result Value string) (w : SWorld) (handler : Handler).

(** [Some] is the result of [serve]. *)
Definition comp_prog (o : CompOp) : sprog (option (result unit string)) :=
  match o with
  | CoServe c r => serve to_string from_str w c r
  | CoDispatch n => do! dispatcher n; Ret None
  | CoWorker n => do! worker_thread to_string w handler n; Ret None
  end.

Definition comp_threads (ops : list CompOp) : list (sprog (option (result unit string))) := comp_prog <$> ops.

(** ** Programs are made of updates *)

Section acts.
Context (loud : bool).
Notation acts := (always (cact loud)).

Ltac acts_step :=
  match goal with
  | |- always _ (bind _ _) => apply always_bind; [|intros ?]
  | |- always _ (Ret _) => exact I
  | |- always _ (read _) => apply always_read; apply _
  | |- always _ (Prog.for_each _ _) => apply always_for_each; intros ? _
  | |- always _ (Wait _ _ _) => split; [intros ?; apply ca_tick|intros ?]
  | |- always _ (if ?b then _ else _) => destruct b
  | |- always _ (match ?x with _ => _ end) => destruct x
  | |- always _ _ => solve [auto with cacts nocore]
  | |- always _ (modify _) => apply always_modify; intros ?; solve [auto with cacts nocore]
  | |- always _ (act _) => apply always_one; intros ?; solve [auto with cacts nocore]
  end.
Ltac acts_prog := intros; repeat acts_step.

Lemma put_acts v mf : loud = true ∨ silent v → acts (put to_string w v mf).
Proof.
  intros S. unfold put. destruct (encode _ _); [|done]. apply always_one. intros x.
  destruct (sw_write w (co_writes x)); cbn; auto with cacts.
Qed.

Lemma put_silent v mf : silent v → acts (put to_string w v mf).
Proof. intros S. apply put_acts. by right. Qed.
#[local] Hint Resolve put_silent : cacts.

Lemma post_silent v mf : silent v → acts (post to_string w v mf).
Proof. intros S. unfold post. acts_prog. Qed.
#[local] Hint Resolve post_silent : cacts.

Lemma poll_acts {A} n (round : sprog (option A)) : acts round → acts (poll n round).
Proof. intros R. induction n as [|n IH]; cbn [poll]; acts_prog. Qed.
#[local] Hint Resolve poll_acts : cacts.

Lemma sdk_cancel_acts cx target : acts (send_dep_cancel to_string w cx target).
Proof. unfold send_dep_cancel. acts_prog. Qed.
#[local] Hint Resolve sdk_cancel_acts : cacts.

Lemma round_acts t rid c f D stop late : acts stop → acts (answer_round t rid c f D stop late).
Proof. intros S. unfold answer_round. acts_prog. Qed.
#[local] Hint Resolve round_acts : cacts.

Lemma await_acts t rid c f span stop late : acts stop → acts (await_answer t rid c f span stop late).
Proof. intros S. unfold await_answer. acts_prog. Qed.
#[local] Hint Resolve await_acts : cacts.

Lemma sdk_open_acts t rid env mf : silent env → acts (open_wait to_string w t rid env mf).
Proof. intros S. unfold open_wait. acts_prog. Qed.
#[local] Hint Resolve sdk_open_acts : cacts.

Lemma sdk_invoke_acts me cx b i t : acts (invoke_dependency to_string w me cx b i t).
Proof. unfold invoke_dependency. acts_prog. Qed.
#[local] Hint Resolve sdk_invoke_acts : cacts.

Lemma roundtrip_acts me cx op fields : acts (resource_roundtrip to_string w me cx op fields).
Proof. unfold resource_roundtrip. acts_prog. apply await_acts. exact I. Qed.
#[local] Hint Resolve roundtrip_acts : cacts.

Lemma sdk_acquire_acts me cx k l i : acts (acquire_resource to_string w me cx k l i).
Proof. unfold acquire_resource. acts_prog. Qed.
Lemma sdk_release_acts me cx h : acts (release_resource to_string w me cx h).
Proof. unfold release_resource. acts_prog. Qed.
#[local] Hint Resolve sdk_acquire_acts sdk_release_acts : cacts.

Lemma play_acts me cx s : acts (play to_string w me cx s).
Proof. induction s; cbn [play]; unfold send_stream, event_dropped_count, pending_stream_count; acts_prog. Qed.
#[local] Hint Resolve play_acts : cacts.

Lemma recv_acts c env : acts (recv to_string w c env).
Proof.
  unfold recv, send_lifecycle_result, recv_open, recv_cancel, recv_answer, recv_event, recv_stream, enqueue.
  acts_prog.
Qed.
#[local] Hint Resolve recv_acts : cacts.

Lemma frames_acts fuel c r : acts (read_frames to_string from_str w fuel c r).
Proof. revert r. induction fuel as [|fuel IH]; intros r; cbn [read_frames]; unfold on_payload; acts_prog. Qed.
#[local] Hint Resolve frames_acts : cacts.

Lemma serve_acts c r : acts (serve to_string from_str w c r).
Proof. unfold serve. acts_prog. Qed.

Lemma sdk_dispatch_acts n : acts (dispatcher n).
Proof. unfold dispatcher. apply poll_acts. unfold dispatch_round. acts_prog. Qed.

(** A worker, but for its result. *)
Lemma worker_acts n : loud = true → acts (worker_thread to_string w handler n).
Proof.
  intros L. assert (P : ∀ v mf, acts (post to_string w v mf)).
  { intros v mf. unfold post. apply always_bind; [|done]. apply put_acts. by left. }
  unfold worker_thread, call_worker. acts_prog.
Qed.
End acts.

Lemma thread_acts o : always (cact true) (comp_prog o).
Proof.
  destruct o; cbn [comp_prog]; [apply serve_acts|..]; (apply always_bind; [|done]).
  - apply sdk_dispatch_acts.
  - by apply worker_acts.
Qed.

(** What every update keeps, every interleaving keeps. *)
Lemma threads_keep (P : Comp → Prop) ops x ps x' :
  (∀ y y', cact true y y' → P y → P y') → P x → rtc pool_step (comp_threads ops, x) (ps, x') → P x'.
Proof.
  intros K Px R. eapply (always_pool P); [|  |exact Px|exact R].
  - intros n y. apply K, ca_tick.
  - apply Forall_fmap, Forall_forall. intros o _. cbn.
    eapply always_impl; [|apply thread_acts]. intros y y' C. exact (K y y' C).
Qed.
End threads.

(** ** Events *)

(** What was queued is, in order, delivered, in delivery or in the queue, less the oldest
    events, which are counted. *)
Record events_ok (x : Comp) : Prop := {
  ev_order : sublist (co_seen x ++ co_batch x ++ eq_queue (co_events x)) (co_pushed x);
  ev_count : eq_dropped (co_events x) =
    N.min (N.of_nat (length (co_pushed x)
             - length (co_seen x ++ co_batch x ++ eq_queue (co_events x)))) u64_max;
  ev_cap : eq_cap (co_events x) = 64;
  ev_bound : length (eq_queue (co_events x)) ≤ 64;
}.

(** The fields [events_ok] is about. *)
Lemma events_frame x y :
  (co_seen y, co_batch y, co_events y, co_pushed y) = (co_seen x, co_batch x, co_events x, co_pushed x) →
  events_ok x → events_ok y.
Proof. intros [= E1 E2 E3 E4] [A B C D]. split; rewrite ?E1, ?E2, ?E3, ?E4; done. Qed.

Lemma sublist_push {A} (s b q l : list A) ev :
  sublist (s ++ b ++ q) l → sublist (s ++ b ++ q ++ [ev]) (l ++ [ev]).
Proof. intros S. rewrite !app_assoc. rewrite <- (app_assoc s b). by apply sublist_app. Qed.

Lemma sublist_tail {A} (s b q : list A) : sublist (s ++ b ++ List.tl q) (s ++ b ++ q).
Proof. apply sublist_app; [done|]. apply sublist_app; [done|]. destruct q; [done|]. by apply sublist_cons. Qed.

Lemma events_push ev x : events_ok x → events_ok (push_event ev x).
Proof.
  intros [S N C B]. pose proof (sublist_length _ _ S) as L.
  unfold push_event. destruct (co_events x) as [q cap d] eqn:E. cbn in *. subst cap.
  unfold eq_push. cbn [eq_cap eq_queue eq_dropped]. destruct (Nat.leb_spec 64 (length q)) as [G|G].
  - destruct q as [|e q]; [cbn in G; lia|]. cbn [List.tl]. split; cbn; rewrite ?E; cbn [eq_queue eq_dropped eq_cap].
    + apply sublist_push. etrans; [|exact S]. apply (sublist_tail _ _ (e :: q)).
    + rewrite N. unfold saturating_add. repeat rewrite !length_app in *. cbn in *. lia.
    + done.
    + rewrite length_app. cbn in *. lia.
  - split; cbn; rewrite ?E; cbn [eq_queue eq_dropped eq_cap].
    + by apply sublist_push.
    + rewrite N. rewrite !length_app. cbn. do 2 f_equal. lia.
    + done.
    + rewrite length_app. cbn. lia.
Qed.

Lemma events_drain x : events_ok x → events_ok (drain_events x).2.
Proof.
  intros [S N C B]. unfold drain_events, eq_drain. cbn. split; cbn; rewrite ?app_nil_r; try done; lia.
Qed.

Lemma events_deliver x : events_ok x → events_ok (deliver_next x).
Proof.
  intros [S N C B]. unfold deliver_next. destruct (co_batch x) as [|ev b] eqn:E; [by split; rewrite ?E|].
  split; cbn; rewrite <- ?app_assoc; done.
Qed.

Lemma events_kept loud x y : cact loud x y → events_ok x → events_ok y.
Proof.
  intros A. destruct A; try by apply events_frame.
  - by destruct t; apply events_frame.
  - by destruct t; apply events_frame.
  - unfold receive. destruct (ch_queue _); by apply events_frame.
  - unfold answer_waiter. destruct (waiters t x !! rid); [|done]. by destruct t; apply events_frame.
  - unfold signal. destruct (co_calls x !! ticket); by apply events_frame.
  - apply events_push.
  - apply events_drain.
  - apply events_deliver.
Qed.

Lemma events_new now : events_ok (comp_new now).
Proof. split; cbn; [done|done|done|lia]. Qed.

(** ** Answers *)

(** A registered waiter has an untouched channel of its own; what waits in a channel is the
    answer to its request, and at most one. *)
Record demux_ok (x : Comp) : Prop := {
  dm_fresh c ch : co_chans x !! c = Some ch → (c < co_next x)%N;
  dm_wait t rid c : waiters t x !! rid = Some c → co_chans x !! c = Some (mkChan t rid [] true);
  dm_mail c ch : co_chans x !! c = Some ch →
    length (ch_queue ch) ≤ 1 ∧ Forall (λ m, m.1 = ch_request ch) (ch_queue ch);
}.

Lemma demux_frame x y :
  (co_dep_waiters y, co_res_waiters y, co_chans y) = (co_dep_waiters x, co_res_waiters x, co_chans x) →
  (co_next x ≤ co_next y)%N → demux_ok x → demux_ok y.
Proof.
  intros [= E1 E2 E3] L [A B C]. split; rewrite ?E3; [|..|done].
  - intros c ch H. specialize (A c ch H). lia.
  - intros [|] rid c; cbn; rewrite ?E1, ?E2; [apply (B TDep)|apply (B TRes)].
Qed.

#[export] Instance Table_eq_dec : EqDecision Table.
Proof. solve_decision. Defined.

Lemma waiters_set t t' v x : waiters t (set_waiters t' v x) = if decide (t = t') then v else waiters t x.
Proof. by destruct t, t'. Qed.

Lemma chans_set t v x : co_chans (set_waiters t v x) = co_chans x ∧ co_next (set_waiters t v x) = co_next x.
Proof. by destruct t. Qed.

Lemma demux_remove t rid x : demux_ok x → demux_ok (remove_waiter t rid x).
Proof.
  intros [A B C]. unfold remove_waiter. destruct (chans_set t (delete rid (waiters t x)) x) as [E1 E2].
  split; rewrite ?E1, ?E2; [done| |done]. intros t' rid' c. rewrite waiters_set. case_decide; subst; [|by apply B].
  intros [_ H]%lookup_delete_Some. by apply B.
Qed.

Lemma demux_add t rid x : demux_ok x → demux_ok (add_waiter t rid x).2.
Proof.
  intros [A B C]. unfold add_waiter, fresh. cbn. set (x1 := set_co_chans _ _).
  assert (F : co_chans x !! co_next x = None).
  { destruct (_ !! _) eqn:E; [|done]. apply A in E. lia. }
  assert (W : ∀ t, waiters t (set_co_next (co_next x + 1) x) = waiters t x) by by intros [|].
  assert (W1 : ∀ t, waiters t x1 = waiters t x) by by intros [|].
  rewrite W.   destruct (chans_set t (<[rid := co_next x]> (waiters t x)) x1) as [E1 E2].
  split; rewrite ?E1, ?E2; cbn.
  - intros c ch [[<- _]|[_ H]]%lookup_insert_Some; [lia|]. apply A in H. lia.
  - assert (G : ∀ t' rid' c, waiters t' x !! rid' = Some c → <[co_next x := mkChan t rid [] true]> (co_chans x) !! c = Some (mkChan t' rid' [] true)).
    { intros t' rid' c H. apply B in H. rewrite lookup_insert_ne; [done|]. intros <-. congruence. }
    intros t' rid' c. rewrite waiters_set. case_decide as D; subst; rewrite ?W1; [|apply G].
    intros [[<- <-]|[_ H]]%lookup_insert_Some; [apply lookup_insert_eq|by apply G].
  - intros c ch [[_ <-]|[_ H]]%lookup_insert_Some; [cbn; split; [lia|done]|by apply (C c)].
Qed.

Lemma demux_answer t rid r x : demux_ok x → demux_ok (answer_waiter t rid r x).
Proof.
  intros D. unfold answer_waiter. destruct (waiters t x !! rid) as [c|] eqn:E; [|done].
  pose proof (dm_wait x D _ _ _ E) as Hc. destruct (demux_remove t rid x D) as [A B C].
  unfold send_last, chan. set (y := remove_waiter t rid x) in *.
  assert (Ey : co_chans y = co_chans x) by apply chans_set.
  rewrite Ey in *. rewrite Hc. cbn. split; cbn; rewrite ?Ey.
  - intros c' ch [[<- _]|[_ H]]%lookup_insert_Some; [by eapply A|by eapply A].
  - intros t' rid' c' H. change (waiters t' y !! rid' = Some c') in H. pose proof (B _ _ _ H) as H'.
    destruct (decide (c' = c)) as [->|Ne]; [|by rewrite lookup_insert_ne].
    rewrite Hc in H'. injection H' as <- <-. unfold y, remove_waiter in H.
    by rewrite waiters_set, decide_True, lookup_delete_eq in H.
  - intros c' ch [[<- <-]|[_ H]]%lookup_insert_Some; [cbn; split; [lia|by repeat constructor]|by apply (C c')].
Qed.

Lemma demux_receive c x : demux_ok x → demux_ok (receive c x).2.
Proof.
  intros [A B C]. unfold receive, chan. destruct (co_chans x !! c) as [ch|] eqn:E; [|by split].
  destruct (C c ch E) as [L F]. cbn. destruct (ch_queue ch) as [|m q] eqn:Eq; [by split|].
  apply Forall_cons in F as [Fm Fq]. split; cbn.
  - intros c' ch' [[<- _]|[_ H]]%lookup_insert_Some; [by eapply A|by eapply A].
  - intros t rid c' H. change (waiters t x !! rid = Some c') in H. apply B in H.
    rewrite lookup_insert_ne; [done|]. intros <-. rewrite E in H. by injection H as ->.
  - intros c' ch' [[<- <-]|[_ H]]%lookup_insert_Some; [cbn in *; split; [lia|done]|by apply (C c')].
Qed.

Lemma demux_kept loud x y : cact loud x y → demux_ok x → demux_ok y.
Proof.
  intros A. destruct A; try (apply demux_frame; cbn; [done|lia]).
  - apply demux_add.
  - apply demux_remove.
  - apply demux_receive.
  - apply demux_answer.
  - unfold signal. destruct (co_calls x !! ticket); [by apply demux_frame|done].
  - unfold deliver_next. destruct (co_batch x); [done|by apply demux_frame].
Qed.

Lemma demux_new now : demux_ok (comp_new now).
Proof. split; cbn; [done| |done]. by intros [|]. Qed.

(** ** Results of calls *)

Section credit.
Context (T : string).

Definition result_for (v : Value) : bool :=
  bool_decide (get_str "type" v = Some "call.result") && bool_decide ((get "body" v ≫= get_str "ticket") = Some T).
Definition job_for (j : Job) : bool := bool_decide (cx_ticket (jb_ctx j) = T).

(** Results sent for the ticket, and threads that have still to start. *)
Definition results (x : Comp) : nat := length (List.filter result_for (co_sent x)).
Definition used (x : Comp) : nat := results x + length (List.filter job_for (co_jobs x)).
Definition opened (x : Comp) : nat := length (List.filter (λ t, bool_decide (t = T)) (co_opened x)).

(** The program sends at most [n] results more than it has calls opened. *)
Fixpoint credit {A} (n : nat) (p : sprog A) : Prop :=
  match p with
  | Ret _ => True
  | Act f k => ∀ x, ∃ n', used (f x).2 + n' + opened x ≤ used x + n + opened (f x).2 ∧ credit n' (k (f x).1)
  | Wait _ _ k => ∀ b, credit n (k b)
  end.

Lemma filter_snoc {A} (P : A → bool) l a :
  length (List.filter P (l ++ [a])) = length (List.filter P l) + if P a then 1 else 0.
Proof. rewrite List.filter_app, length_app. cbn. by destruct (P a). Qed.

Lemma filter_delete {A} (P : A → bool) l n a :
  l !! n = Some a →
  length (List.filter P l) = length (List.filter P (delete n l)) + if P a then 1 else 0.
Proof.
  intros E. rewrite delete_take_drop. rewrite <- (take_drop_middle l n a E) at 1.
  rewrite !List.filter_app, !length_app. cbn. destruct (P a); cbn; lia.
Qed.

Lemma sdk_calm_frame x y :
  (co_sent y, co_jobs y, co_opened y) = (co_sent x, co_jobs x, co_opened x) → used y + opened x ≤ used x + opened y.
Proof. intros [= E1 E2 E3]. unfold used, results, opened. rewrite E1, E2, E3. lia. Qed.

Lemma calm_start n x :
  used (start_job n x).2 + (if is_some_and job_for (co_jobs x !! n) then 1 else 0) ≤ used x.
Proof.
  unfold used, results, start_job. cbn. destruct (co_jobs x !! n) as [j|] eqn:E; cbn.
  - rewrite (filter_delete job_for _ _ _ E). destruct (job_for j); lia.
  - rewrite delete_take_drop, take_ge, drop_ge by (apply lookup_ge_None in E; lia). rewrite app_nil_r. lia.
Qed.

Lemma calm_act x y : cact false x y → used y + opened x ≤ used x + opened y.
Proof.
  intros A. destruct A; try (apply sdk_calm_frame; done).
  - destruct H as [[=]|S]. unfold used, results, opened. cbn. rewrite filter_snoc.
    unfold result_for at 2. unfold silent in S. rewrite bool_decide_eq_false_2 by done. cbn. lia.
  - by destruct t; apply sdk_calm_frame.
  - by destruct t; apply sdk_calm_frame.
  - unfold receive. destruct (ch_queue _); by apply sdk_calm_frame.
  - unfold answer_waiter. destruct (waiters t x !! rid); [|done]. by destruct t; apply sdk_calm_frame.
  - unfold used, results, opened, spawn_call, fresh. cbn. rewrite !filter_snoc. unfold job_for at 2. cbn.
    destruct (bool_decide (ticket = T)); lia.
  - pose proof (calm_start n x) as L. change (opened (start_job n x).2) with (opened x). lia.
  - unfold signal. destruct (co_calls x !! ticket); by apply sdk_calm_frame.
  - unfold deliver_next. destruct (co_batch x); by apply sdk_calm_frame.
Qed.

(** A part that sends no result, then the rest. *)
Lemma credit_bind {A B} n (p : sprog A) (f : A → sprog B) :
  always (cact false) p → (∀ a, credit n (f a)) → credit n (bind p f).
Proof.
  intros P F. induction p as [a|X g k IH|c u k IH]; [apply F|..]; destruct P as [Hg Hk].
  - intros x. exists n. split; [pose proof (calm_act _ _ (Hg x)); lia|by apply IH].
  - intros b. by apply IH.
Qed.

Lemma credit_quiet {A} n (p : sprog A) : always (cact false) p → credit n p.
Proof.
  intros P. induction p as [a|X g k IH|c u k IH]; [done|..]; destruct P as [Hg Hk].
  - intros x. exists n. split; [pose proof (calm_act _ _ (Hg x)); lia|by apply IH].
  - intros b. by apply IH.
Qed.

Section workers.
Context (to_string : Value → string) (from_str : bytes → result Value string) (w : SWorld) (handler : Handler).

Lemma ticket_result cx rid o : (get "body" (result_env cx rid o) ≫= get_str "ticket") = Some (cx_ticket cx).
Proof.
  unfold result_env, ctx_env. rewrite get_bound_env by eauto. cbn [bound_members app assoc].
  by destruct o; unfold get_str; cbn [assoc mbind option_bind]; rewrite !bool_decide_eq_false_2, bool_decide_eq_true_2 by done; cbn [mbind option_bind]; rewrite get_obj.
Qed.

Lemma post_credit cx rid o mf :
  credit (if bool_decide (cx_ticket cx = T) then 1 else 0) (post to_string w (result_env cx rid o) mf).
Proof.
  unfold post, put. destruct (encode _ _) as [b|e]; [|done]. intros x. exists 0. split; [|done].
  destruct (sw_write w (co_writes x)) as [e|]; cbn.
  - unfold used, results, opened. cbn. lia.
  - unfold used, results, opened. cbn. rewrite filter_snoc. unfold result_for at 2. rewrite ticket_result.
    destruct (bool_decide (Some (cx_ticket cx) = Some T)) eqn:E; [|rewrite andb_false_r; lia].
    apply bool_decide_eq_true in E. injection E as E. rewrite (bool_decide_eq_true_2 (cx_ticket cx = T)) by done.
    case_match; lia.
Qed.

Lemma worker_credit n : credit 0 (worker_thread to_string w handler n).
Proof.
  unfold worker_thread. intros x.
  exists (if is_some_and job_for (co_jobs x !! n) then 1 else 0).
  split; [pose proof (calm_start n x) as L; change (opened (start_job n x).2) with (opened x); lia|].
  cbn. destruct (co_jobs x !! n) as [j|]; [|done].
  change (credit (if job_for j then 1 else 0) (call_worker to_string w handler j)). unfold job_for, call_worker.
  apply credit_bind; [apply play_acts|]. intros [o| |]; [|done..].
  apply credit_bind; [apply always_modify; intros y; apply ca_forget|]. intros _.
  apply credit_bind; [apply always_read; apply _|]. intros [|]; [done|]. apply post_credit.
Qed.

Lemma thread_credit o : credit 0 (comp_prog to_string from_str w handler o).
Proof.
  destruct o as [c r|n|n]; cbn [comp_prog].
  - apply credit_quiet, serve_acts.
  - apply credit_bind; [apply sdk_dispatch_acts|done].
  - pose proof (worker_credit n) as C. revert C. generalize (worker_thread to_string w handler n) as p, 0 as k.
    induction p as [a|X g k IH|c u k IH]; intros m C; [done|..].
    + intros x. destruct (C x) as (m' & L & C'). exists m'. split; [done|]. by apply IH.
    + intros b. by apply IH.
Qed.

(** The credits of the threads cover what is missing. *)
Definition affordable {A} (c : list (sprog A) * Comp) : Prop :=
  ∃ ns : list nat, Forall2 credit ns c.1 ∧ list_sum ns + used c.2 ≤ opened c.2.

Lemma affordable_step {A} (c c' : list (sprog A) * Comp) : pool_step c c' → affordable c → affordable c'.
Proof.
  intros S (ns & F & L). destruct S as [pre p p' post x x' St|ps x n _]; [|by exists ns].
  cbn in *. apply Forall2_app_inv_r in F as (n1 & n2' & F1 & F2 & ->).
  inversion F2 as [|n q n2 qs Fn Fn2]; subst. clear F2. rewrite list_sum_app in L. cbn in L.
  destruct St as [X f k x|d u k x E|d u k x E Lu].
  - destruct (Fn x) as (n' & L' & Fn'). exists (n1 ++ n' :: n2). cbn. rewrite list_sum_app. cbn.
    split; [by apply Forall2_app; [|constructor]|lia].
  - exists (n1 ++ n :: n2). cbn. rewrite list_sum_app. cbn. split; [|lia].
    apply Forall2_app; [done|]. constructor; [apply Fn|done].
  - exists (n1 ++ n :: n2). cbn. rewrite list_sum_app. cbn. split; [|lia].
    apply Forall2_app; [done|]. constructor; [apply Fn|done].
Qed.

Lemma results_opened ops now ps x :
  rtc pool_step (comp_threads to_string from_str w handler ops, comp_new now) (ps, x) → results x ≤ opened x.
Proof.
  intros R. enough (A : affordable (ps, x)) by (destruct A as (ns & _ & L); unfold used in L; cbn in L; lia).
  remember (comp_threads to_string from_str w handler ops, comp_new now) as c eqn:E. remember (ps, x) as c' eqn:E'.
  assert (A : affordable c).
  { subst c. exists (replicate (length ops) 0). cbn. split.
    - unfold comp_threads. clear R. induction ops as [|o ops IH]; cbn; constructor; [apply thread_credit|done].
    - assert (Z : list_sum (replicate (length ops) 0) = 0) by (clear; induction ops as [|o ops IH]; [done|exact IH]).
      rewrite Z. unfold used, results, opened. cbn. lia. }
  clear E E'. induction R as [|c1 c2 c3 S _ IH]; [done|]. by apply IH, (affordable_step c1).
Qed.
End workers.
End credit.
