(* ===== verification/ComponentProps.v ===== *)
(** * What a component promises

    Under every interleaving of the reader, the dispatcher and the threads of the calls: events
    are accounted for, an answer reaches the wait of its request, a call is answered at most once,
    the waits end. And the end of [serve], which loses the events of its last moments. *)

From S2P Require Import Prelude RustStd Json Utf8 Wire Frame Envelope Dependency Prog Timed Component ComponentInv.

(** ** The reader ends *)

Lemma read_size m r :
  match Frame.read m r with
  | (Ok chunk, r') => reader_size r = length chunk + reader_size r'
  | (Err _, r') => reader_size r = reader_size r'
  end.
Proof.
  destruct r as [|[c|e] r]; cbn; [done| |done]. unfold reader_size.
  destruct (Nat.leb_spec (length c) m); cbn; [done|]. rewrite length_take, length_drop. lia.
Qed.

Lemma fill_size fuel want acc r :
  match fill fuel want acc r with
  | (Filled b, r') => reader_size r + length acc = reader_size r' + length b
  | (_, r') => reader_size r' ≤ reader_size r
  end.
Proof.
  revert acc r. induction fuel as [|fuel IH]; intros acc r; unfold fill; fold fill; [done|].
  destruct (want <=? length acc); [done|]. pose proof (read_size (want - length acc) r) as S.
  destruct (Frame.read _ r) as [[[|a c]|e] r1]; cbn in S; [lia| |lia].
  specialize (IH (acc ++ a :: c) r1). rewrite length_app in IH. cbn in IH.
  destruct (fill _ _ _ r1) as [[b|g|e] r2]; lia.
Qed.

(** A frame takes the four bytes of its length at least. *)
Lemma frame_size mf r p r' : read_frame mf r = (Ok (Some p), r') → reader_size r' < reader_size r.
Proof.
  unfold read_frame, read_len. pose proof (fill_size LEN_PREFIX LEN_PREFIX [] r) as S1.
  destruct (fill _ _ _ r) as [[b|g|e] r1]; [|by destruct (g =? 0)%N|done].
  destruct b as [|a [|b [|c [|d [|]]]]]; try done. destruct (_ <? _)%N; [done|].
  set (n := N.to_nat _). pose proof (fill_size n n [] r1) as S2.
  destruct (fill n n [] r1) as [[q|g|e] r2]; [|done..]. intros [= <- <-]. cbn in *. lia.
Qed.

Section props.
Context (to_string : Value → string) (from_str : bytes → result Value string) (w : SWorld) (handler : Handler).

Lemma read_frames_timed fuel c r t :
  reader_size r < fuel → timed (λ _ o, o ≠ None) t (read_frames to_string from_str w fuel c r).
Proof.
  revert r t. induction fuel as [|fuel IH]; intros r t L; [lia|]. cbn [read_frames].
  destruct (read_frame _ r) as [[[raw|]|e] r'] eqn:E; [|done..]. apply frame_size in E.
  apply timed_skip. intros t' [|] _; [done|]. apply IH. lia.
Qed.

(** [serve] has a result for every reader. *)
Lemma serve_timed c r t : timed (λ _ o, o ≠ None) t (serve to_string from_str w c r).
Proof.
  unfold serve. apply timed_bind. eapply timed_mono; [|apply read_frames_timed; lia].
  intros t' o _ Ho. by apply timed_skip.
Qed.

(** ** Waits end *)

Lemma answer_round_timed tb rid c f D stop late t :
  timed (λ t' r, r = None → (t < D)%N ∧ (N.min (t + 50) D ≤ t')%N) t (answer_round tb rid c f D stop late).
Proof.
  unfold answer_round. apply timed_read. intros x L. destruct (cell f x).
  { apply timed_skip. intros t1 _ _. by apply timed_skip. }
  apply timed_read. intros x1 L1. destruct (N.leb_spec D (clock x1)) as [G|G].
  { apply timed_skip. intros t1 _ _. by apply timed_skip. }
  apply timed_bind. split.
  - intros x2 L2 _. apply timed_skip. intros t3 [m|] _; [|done]. by apply timed_skip.
  - intros t2 L2 U. cbn. intros _. lia.
Qed.

Lemma await_timed tb rid c f span stop late t :
  timed (λ _ r, r ≠ None) t (await_answer tb rid c f span stop late).
Proof.
  unfold await_answer. apply timed_read. intros x L. unfold rounds.
  apply (poll_returns _ (clock x + span) 50); [done| |by apply rounds_enough].
  intros t1. apply answer_round_timed.
Qed.

Lemma invoke_timed me cx b i timeout t : timed (λ _ r, r ≠ None) t (invoke_dependency to_string w me cx b i timeout).
Proof.
  unfold invoke_dependency. destruct (negb _); [done|]. destruct (_ =? 0)%N; [done|].
  destruct (check_not_reader me cx); [|done]. apply timed_skip. intros t1 n _. apply timed_skip.
  intros t2 [c|e] _; [apply await_timed|done].
Qed.

Lemma roundtrip_timed me cx op fields t : timed (λ _ r, r ≠ None) t (resource_roundtrip to_string w me cx op fields).
Proof.
  unfold resource_roundtrip. destruct (check_not_reader me cx); [|done]. apply timed_skip. intros t1 n _.
  apply timed_skip. intros t2 [c|e] _; [apply await_timed|done].
Qed.

Lemma play_timed me cx s t : timed (λ _ o, o ≠ Stuck) t (play to_string w me cx s).
Proof.
  revert t. induction s as [o| |b i n k IH|kd l iv k IH|h k IH|sid n p k IH|k IH|k IH|ms s IH]; intros t; cbn [play].
  - done.
  - done.
  - apply timed_bind. eapply timed_mono; [|apply invoke_timed]. intros t' [r|] _ Hr; [apply IH|done].
  - apply timed_bind. unfold acquire_resource. apply timed_bind. eapply timed_mono; [|apply roundtrip_timed].
    intros t' [r|] _ Hr; [apply IH|done].
  - apply timed_bind. unfold release_resource. apply timed_bind. eapply timed_mono; [|apply roundtrip_timed].
    intros t' [r|] _ Hr; [apply IH|done].
  - apply timed_skip. intros t' r _. apply IH.
  - apply timed_skip. intros t' b _. apply IH.
  - apply timed_skip. intros t1 d _. apply timed_skip. intros t2 p _. apply IH.
  - apply timed_skip. intros t1 now _. apply timed_skip. intros t2 u _. apply IH.
Qed.

Lemma cact_later loud x y : cact loud x y → later x y.
Proof.
  unfold later. intros A. destruct A; cbn; try lia.
  - destruct t; cbn; lia.
  - destruct t; cbn; lia.
  - unfold receive. destruct (ch_queue _); cbn; lia.
  - unfold answer_waiter. destruct (waiters t x !! rid); [|lia]. destruct t; cbn; lia.
  - unfold signal. destruct (co_calls x !! ticket); cbn; lia.
  - unfold deliver_next. destruct (co_batch x); cbn; lia.
Qed.

(** ** Theorems *)

(** The code of a call ends. Whatever it does with its context (dependency calls, resources,
    streams, sleeps) and whatever the other threads do, its waits have enough rounds for their
    deadlines: it never runs out of them, and from every state it can end without the help of any
    other thread, as time passes. *)
Theorem handler_returns (me : N) (cx : CallCtx) (s : Script) ps ps' (x x' : Comp) i :
  ps !! i = Some (play to_string w me cx s) →
  rtc clocked_step (ps, x) (ps', x') →
  (∀ r, (ps' !! i ≫= outcome) = Some r → r ≠ Stuck) ∧
  ∃ r x'', r ≠ Stuck ∧ rtc clocked_step (ps', x') (<[i := Ret r]> ps', x'').
Proof.
  intros Hp R. refine (thread_returns (λ _ _, _) (λ r, r ≠ Stuck) ps ps' x x' i _ _ (play_timed me cx s _) Hp R).
  - done.
  - eapply always_impl; [apply cact_later|apply (play_acts _ _ true)].
Qed.

(** C18: Events are accounted for. In every state that any interleaving of the reader, dispatchers
    and call threads reaches, what was delivered, is being delivered or is queued is a
    subsequence, in order, of what the host sent; the queue has at most 64 events; and the counter
    of drops is exactly what is missing (saturating at the maximum of [u64]). *)
Theorem events_accounted (ops : list CompOp) now ps x :
  rtc pool_step (comp_threads to_string from_str w handler ops, comp_new now) (ps, x) →
  let kept := co_seen x ++ co_batch x ++ eq_queue (co_events x) in
  sublist kept (co_pushed x) ∧ length (eq_queue (co_events x)) ≤ 64 ∧
  eq_dropped (co_events x) = N.min (N.of_nat (length (co_pushed x) - length kept)) u64_max.
Proof.
  intros R. apply (threads_keep _ _ _ _ events_ok) in R as []; [done|..|apply events_new].
  intros y y'. apply events_kept.
Qed.

(** C17: Answers reach the wait of their request. In every reachable state, a registered wait has a
    channel of its own in which nothing has arrived and whose sender is alive; and what can be
    received on a channel is the answer of a frame that carries the request id the channel was
    made for, and the only one. *)
Theorem answers_routed (ops : list CompOp) now ps x :
  rtc pool_step (comp_threads to_string from_str w handler ops, comp_new now) (ps, x) →
  (∀ t rid c, waiters t x !! rid = Some c →
     ch_table (chan c x) = t ∧ ch_request (chan c x) = rid ∧ chan_ready c x = false) ∧
  ∀ c m, (receive c x).1 = Some m → m.1 = ch_request (chan c x) ∧ ch_queue (chan c x) = [m].
Proof.
  intros R. apply (threads_keep _ _ _ _ demux_ok) in R as [_ B C];
    [|intros y y'; apply demux_kept|apply demux_new]. split.
  - intros t rid c H. apply B in H. unfold chan_ready, chan. by rewrite H.
  - intros c m. unfold receive, chan. destruct (co_chans x !! c) as [ch|] eqn:E; [|done]. cbn.
    destruct (C c ch E) as [L F]. destruct (ch_queue ch) as [|m' q]; [done|]. intros [= ->].
    apply Forall_cons in F as [Fm _]. split; [done|]. destruct q; [done|]. cbn in L. lia.
Qed.

(** C19: A call is answered at most once: under every interleaving, the results sent for a ticket
    are no more than the calls the host opened with it. *)
Theorem answered_at_most_once (ops : list CompOp) now ps x (ticket : string) :
  rtc pool_step (comp_threads to_string from_str w handler ops, comp_new now) (ps, x) →
  results ticket x ≤ opened ticket x.
Proof. apply results_opened. Qed.
End props.

(** ** A component at work *)

Definition demo_sdk_frame (ty msg : string) (rid : option string) (body : Value) : Value :=
  bound_env ty msg "sess-1" "1" 1 (match rid with Some r => [("request_id", JString r)] | None => [] end) body.

Definition sdk_texts : list (string * Value) :=
  [ ("1", demo_sdk_frame "call.open" "m1" (Some "req-1")
            (obj [("ticket", JString "tkt-1"); ("capability", JString "app.run@1"); ("input", JNull)]));
    ("2", demo_sdk_frame "dependency.result" "m2" (Some "r-dep-1")
            (obj [("status", JString "ok"); ("output", JString "value")]));
    ("3", demo_sdk_frame "event.deliver" "m3" None
            (obj [("topic", JString "t"); ("payload", JString "first"); ("subscription_id", JString "s")]));
    ("4", demo_sdk_frame "event.deliver" "m4" None
            (obj [("topic", JString "t"); ("payload", JString "last"); ("subscription_id", JString "s")]));
    ("5", demo_sdk_frame "lifecycle.dispose" "m5" (Some "req-2")
            (obj [("operation_id", JString "op-1"); ("deadline_ms", j_u64 2000)])) ].

Definition sdk_from_str (raw : bytes) : result Value string :=
  match List.find (λ tv, bool_decide (chars tv.1 = raw)) sdk_texts with
  | Some tv => Ok tv.2
  | None => Err "unknown text"
  end.

Definition sdk_to_string (v : Value) : string := "{}".

Definition sdk_world : SWorld :=
  mkSWorld (Ok tt) (Ok tt) (Ok tt) "" (λ _, None) (λ _, "") (λ _, "").

(** The call asks a dependency and returns its answer. *)
Definition sdk_handler : Handler := λ _ _ _ _,
  Invoke "bind-1" JNull 500 (λ r, Return (match r with Ok v => CallOk v | Err e => CallErr (de_code e) (de_message e) end)).

Definition sdk_comp : Component :=
  mkComponent "sess-1" "1" 1 1024 [DEPENDENCY_CALLS_1] [mkDepBinding "bind-1" "kv.get@1"].

Definition sdk_frame (text : string) : result bytes string := Ok (to_be_bytes (str_len text) ++ chars text).

Definition sdk_threads (texts : list string) : list (sprog (option (result unit string))) :=
  comp_threads sdk_to_string sdk_from_str sdk_world sdk_handler
    [CoServe sdk_comp (sdk_frame <$> texts); CoWorker 0; CoDispatch 10].

Definition sdk_run (texts : list string) (sched : list nat) : list (sprog (option (result unit string))) * Comp :=
  exec sched (sdk_threads texts, comp_new 0).

Lemma sdk_reached texts sched : rtc pool_step (sdk_threads texts, comp_new 0) ((sdk_run texts sched).1, (sdk_run texts sched).2).
Proof. rewrite <- surjective_pairing. apply exec_sound. Qed.

(** The answer has arrived; the call has not looked yet. *)
Definition sdk_asked : list nat := repeat 0 3 ++ repeat 1 6 ++ repeat 0 1.
(** All of it. *)
Definition sdk_done : list nat := sdk_asked ++ repeat 0 8 ++ repeat 1 20 ++ repeat 2 20.

Definition sdk_call : sprog Played :=
  let cx := call_ctx sdk_comp "tkt-1" 0 in
  play sdk_to_string sdk_world 1 cx (sdk_handler cx "tkt-1" "" JNull).

Lemma handler_returns_witness :
  ∃ r x', r ≠ Stuck ∧ rtc clocked_step ([sdk_call], comp_new 0) ([Ret r], x').
Proof.
  destruct (handler_returns sdk_to_string sdk_world 1 (call_ctx sdk_comp "tkt-1" 0)
    (sdk_handler (call_ctx sdk_comp "tkt-1" 0) "tkt-1" "" JNull) [sdk_call] [sdk_call] (comp_new 0) (comp_new 0) 0
    eq_refl (rtc_refl _ _)) as [_ (r & x' & Hr & R)].
  by exists r, x'.
Defined.

Lemma events_accounted_witness :
  let x := (sdk_run ["1"; "2"; "3"; "5"] sdk_done).2 in
  sublist (co_seen x ++ co_batch x ++ eq_queue (co_events x)) (co_pushed x) ∧ co_seen x = [Event "t" (JString "first")].
Proof.
  intros x. split; [|by vm_compute].
  apply (events_accounted sdk_to_string sdk_from_str sdk_world sdk_handler _ _ _ x (sdk_reached _ _)).
Defined.

Lemma answers_routed_witness :
  let x := (sdk_run ["1"; "2"; "3"; "5"] sdk_asked).2 in
  ∃ m, (receive 3 x).1 = Some m ∧ m.1 = "r-dep-1" ∧ m.2 = Ok (JString "value").
Proof.
  intros x. assert (E : ∃ m, (receive 3 x).1 = Some m ∧ m.2 = Ok (JString "value")) by (eexists; by vm_compute).
  destruct E as (m & Hm & Hv). exists m. split; [done|]. split; [|done].
  destruct (answers_routed sdk_to_string sdk_from_str sdk_world sdk_handler _ _ _ x (sdk_reached _ _)) as [_ A].
  apply A in Hm as [-> _]. by vm_compute.
Defined.

Lemma answered_at_most_once_witness :
  let x := (sdk_run ["1"; "2"; "3"; "5"] sdk_done).2 in results "tkt-1" x = 1 ∧ results "tkt-1" x ≤ opened "tkt-1" x.
Proof.
  intros x. split; [by vm_compute|].
  apply (answered_at_most_once sdk_to_string sdk_from_str sdk_world sdk_handler _ _ _ x "tkt-1" (sdk_reached _ _)).
Defined.

(** ** The end of [serve] *)

(** While the dispatcher delivers the first event, the reader queues the second, answers the
    disposal and stops the dispatcher. *)
Definition sdk_race : list nat := repeat 0 2 ++ repeat 2 4 ++ repeat 0 4 ++ repeat 2 10.

(** The last events can be lost. The dispatcher looks at its stop flag after a batch and not
    at the queue: events that the reader queued during its last batch are neither delivered nor
    counted as dropped, although [serve] ended with a clean disposal. *)
Theorem stragglers_lost :
  let ps := (sdk_run ["3"; "4"; "5"] sdk_race).1 in let x := (sdk_run ["3"; "4"; "5"] sdk_race).2 in
  rtc pool_step (sdk_threads ["3"; "4"; "5"], comp_new 0) (ps, x) ∧
  (ps !! 0 ≫= outcome) = Some (Some (Ok tt)) ∧ (ps !! 2 ≫= outcome) = Some None ∧
  co_seen x = [Event "t" (JString "first")] ∧ eq_queue (co_events x) = [Event "t" (JString "last")] ∧
  eq_dropped (co_events x) = 0%N.
Proof. intros ps x. split; [apply sdk_reached|]. by vm_compute. Qed.
