(* ===== verification/ComponentHost.v ===== *)
(** * A component and its host

    The two ends of the component protocol against each other: the frames the library sends
    ([Component]) under the validation of the host ([HostConn], [Envelope]), the frames of the
    host's handshake read by [connect], and the replay window of the host against the message ids
    of the library. *)

From S2P Require Import Prelude RustStd Json Utf8 Wire Frame Scan Envelope Dependency Handshake Guard Prog.
From S2P Require Import Identity Contexts KernelState KernelDemo HostState HostCalls HostStreams HostDeps HostConn HostDemo.
From S2P Require Import Component ComponentInv ComponentProps.

(** ** Envelopes *)

Lemma assoc_sorted k (l : list (string * Value)) :
  bool_decide (NoDup l.*1) = true → assoc k (merge_sort member_le l) = assoc k l.
Proof. apply (get_obj k). Qed.

Definition rest_ok (rest : list (string * Value)) : Prop := rest = [] ∨ ∃ v, rest = [("request_id", v)].

(** The envelope a host reads. *)
Definition read_env (ty mid sid iid : string) (g : N) (rest : list (string * Value)) (body : Value) : Envelope :=
  mkEnvelope ty mid (Some sid) (Some iid) (Some g) (assoc "request_id" rest ≫= as_str) body.

Lemma bound_env_valid ty mid sid n g rest b fs :
  rest_ok rest → required_top ty = Some (fs, false) →
  Forall (λ f, f ∈ (bound_members ty mid sid (display n) g rest JNull).*1) fs →
  mid ≠ "" → (n ≤ u64_max)%N → (g ≤ u64_max)%N →
  Forall (λ f, is_Some (assoc f b)) (required_body ty) →
  validate_envelope (bound_env ty mid sid (display n) g rest (JObject b))
    = Ok (read_env ty mid sid (display n) g rest (JObject b)).
Proof.
  intros Rk Rt Fs Nm Un Ug Fb. apply validate_complete.
  exists (merge_sort member_le (bound_members ty mid sid (display n) g rest (JObject b))). split; [done|].
  assert (A : ∀ k, assoc k (merge_sort member_le (bound_members ty mid sid (display n) g rest (JObject b)))
    = assoc k (bound_members ty mid sid (display n) g rest (JObject b))).
  { intros k. apply assoc_sorted. by destruct Rk as [->|[v ->]]. }
  rewrite Forall_forall in Fs, Fb.
  assert (T : ty ∈ TYPES) by (apply required_top_types; by rewrite Rt).
  split; cbn [read_env env_ty env_message_id env_session_id env_instance_id env_generation env_request_id env_body];
    unfold obj_str; rewrite ?A; try done.
  - intros fields opt f H Hf. rewrite Rt in H. injection H as <- <-. specialize (Fs f Hf).
    rewrite A. destruct Rk as [->|[v ->]]; cbn in Fs; repeat (apply elem_of_cons in Fs as [->|Fs]; [by eexists|]); by apply not_elem_of_nil in Fs.
  - exists g. split; [|done]. exists (display g). split; [done|]. by apply parse_u64_display.
  - intros v. intros [= <-]. exists n, (display n). split; [done|]. by apply parse_u64_display.
  - split_and!; try done. by destruct Rk as [->|[v ->]].
  - intros fields opt H. rewrite Rt in H. injection H as <- <-. exists b. split_and!; [|done|apply Fb].
    by destruct Rk as [->|[v ->]].
Qed.

(** ** What the library sends *)

Inductive SdkFrame : Type :=
| FStream (stream_id : string) (seq : N) (payload : string)
| FOpen (n : N) (binding : string) (timeout_ms : N) (input : Value)
| FCancel (n : N) (target : string)
| FAcquire (n : N) (kind label : string) (interval_ms : option N)
| FRelease (n handle : N)
| FResult (rid : string) (o : CallOutcome).

Definition frame_env (cx : CallCtx) (f : SdkFrame) : Value :=
  match f with
  | FStream stream_id seq payload => stream_env cx stream_id seq payload
  | FOpen n binding timeout_ms input => dep_open_env cx n binding timeout_ms input
  | FCancel n target => dep_cancel_env cx n target
  | FAcquire n kind label interval_ms => resource_env cx n "acquire" (acquire_fields kind label interval_ms)
  | FRelease n handle => resource_env cx n "release" [("handle", JString (display handle))]
  | FResult rid o => result_env cx (Some rid) o
  end.

(** The type and the request id the host acts on. *)
Definition frame_kind (f : SdkFrame) : string * option string :=
  match f with
  | FStream _ _ _ => ("stream.data", None)
  | FOpen n _ _ _ => ("dependency.open", Some (dep_rid n))
  | FCancel n _ => ("dependency.cancel", Some ("r-dep-cancel-" +:+ display n))
  | FAcquire n _ _ _ => ("resource.acquire", Some (res_rid n))
  | FRelease n _ => ("resource.release", Some (res_rid n))
  | FResult rid _ => ("call.result", Some rid)
  end.

Ltac valid_frame :=
  eapply bound_env_valid; first
    [ done | by right; eexists | by left
    | apply (bool_decide_unpack _); vm_compute; exact I
    | repeat constructor; rewrite assoc_sorted by done; by eexists ].

(** C16: Every frame a component sends with the context of a call is accepted by its host: for the
    session the context was made for, the envelope is well formed, passes the check of the
    identities, and carries the type and the request id it was sent with. *)
Theorem sdk_frames_accepted (cx : CallCtx) (s : HSession) (f : SdkFrame) :
  cx_session_id cx = hs_id s → cx_instance_id cx = display (hs_instance s) → cx_generation cx = hs_generation s →
  (hs_instance s ≤ u64_max)%N → (hs_generation s ≤ u64_max)%N →
  ∃ e, validate_envelope (frame_env cx f) = Ok e ∧ HostConn.bound_ok e s = true ∧
       (env_ty e, env_request_id e) = frame_kind f.
Proof.
  intros Es Ei Eg Ui Ug. destruct cx as [sid iid g mf ticket pc bs fs rt]. cbn in Es, Ei, Eg. subst.
  assert (B : ∀ ty mid rest body, HostConn.bound_ok
    (read_env ty mid (hs_id s) (display (hs_instance s)) (hs_generation s) rest body) s = true).
  { intros. unfold HostConn.bound_ok. cbn. by rewrite !bool_decide_eq_true_2, N.eqb_refl. }
  destruct f as [sid seq p|n b t i|n t|n k l iv|n h|rid o]; cbn [frame_env frame_kind];
    unfold stream_env, dep_open_env, dep_cancel_env, resource_env, result_env, ctx_env; cbn [cx_session_id cx_instance_id cx_generation cx_ticket].
  - eexists. split; [valid_frame|]. by split; [apply B|].
  - eexists. split; [valid_frame|]. by split; [apply B|].
  - eexists. split; [valid_frame|]. by split; [apply B|].
  - destruct iv as [ms|]; (eexists; split; [valid_frame|]; by split; [apply B|]).
  - eexists. split; [valid_frame|]. by split; [apply B|].
  - destruct o; (eexists; split; [valid_frame|]; by split; [apply B|]).
Qed.

Definition sdk_session : HSession := new_session "sess-1" "app" 1 1 4096 [DEPENDENCY_CALLS_1] [].

Lemma sdk_frames_accepted_witness :
  ∃ e, validate_envelope (dep_open_env (call_ctx sdk_comp "tkt-1" 0) 7 "bind-1" 500 JNull) = Ok e ∧
       HostConn.bound_ok e sdk_session = true ∧ (env_ty e, env_request_id e) = ("dependency.open", Some "r-dep-7").
Proof.
  apply (sdk_frames_accepted (call_ctx sdk_comp "tkt-1" 0) sdk_session (FOpen 7 "bind-1" 500 JNull));
    first [by vm_compute | unfold u64_max; cbn; lia].
Defined.

(** ** What the host sends *)

Lemma frame_json_valid sid (f : HFrame) oi og b fs :
  hf_instance f = display <$> oi → hf_generation f = display <$> og → hf_body f = JObject b →
  from_option (λ n, (n ≤ u64_max)%N) True oi → from_option (λ n, (n ≤ u64_max)%N) True og →
  required_top (hf_ty f) = Some (fs, false) →
  Forall (λ x, is_Some (get x (frame_json sid f))) fs → hf_message_id f ≠ "" →
  Forall (λ x, is_Some (assoc x b)) (required_body (hf_ty f)) →
  validate_envelope (frame_json sid f) =
    Ok (mkEnvelope (hf_ty f) (hf_message_id f) (Some sid) (hf_instance f) og (hf_request_id f ≫= as_str) (JObject b)).
Proof.
  destruct f as [ty mid i g rid body]. cbn [hf_ty hf_message_id hf_instance hf_generation hf_request_id hf_body].
  intros -> -> -> Ui Ug Rt Fs Nm Fb. apply validate_complete. unfold frame_json in *.
  cbn [hf_ty hf_message_id hf_instance hf_generation hf_request_id hf_body] in *.
  set (l := _ ++ _) in *. exists (merge_sort member_le l). split; [done|].
  assert (A : ∀ k, assoc k (merge_sort member_le l) = assoc k l).
  { intros k. apply assoc_sorted. subst l. by destruct oi, og, rid. }
  rewrite Forall_forall in Fs, Fb.
  assert (T : ty ∈ TYPES) by (apply required_top_types; by rewrite Rt).
  split; cbn [env_ty env_message_id env_session_id env_instance_id env_generation env_request_id env_body];
    unfold obj_str; rewrite ?A; try done.
  - intros fields opt x H Hx. rewrite Rt in H. injection H as <- <-. by apply Fs.
  - subst l. destruct oi, og as [g'|], rid; cbn in *; try done;
      (exists g'; split; [exists (display g'); split; [done|by apply parse_u64_display]|done]).
  - intros v. subst l. destruct oi as [n|], og, rid; cbn in *; intros [= <-];
      (exists n, (display n); split; [done|by apply parse_u64_display]).
  - subst l. by destruct oi, og, rid.
  - intros fields opt H. rewrite Rt in H. injection H as <- <-. exists b. split_and!; [|done|apply Fb].
    subst l. by destruct oi, og, rid.
Qed.

(** ** The handshake *)

Section handshake.
Context (to_string : Value → string) (from_str : bytes → result Value string) (w : SWorld).

(** The text of [v] fits a frame; the parser reads it back. *)
Definition fits (mf : N) (v : Value) : Prop := is_ok (encode (chars (to_string v)) mf) = true.
Definition readable (v : Value) : Prop := scan_raw from_str (chars (to_string v)) = Ok v.
Definition on_wire (v : Value) : bytes := write_frame (chars (to_string v)).

Lemma fits_wire mf v : fits mf v → encode (chars (to_string v)) mf = Ok (on_wire v).
Proof. unfold fits, encode, on_wire, write_frame. by repeat case_match. Qed.

Lemma next_env_wire mf missing bad v e r rest err :
  fits mf v → readable v → validate_envelope v = Ok e → stream r = (on_wire v ++ rest, err) →
  ∃ r', next_env from_str w mf missing bad r = Ok (e, r') ∧ stream r' = (rest, err).
Proof.
  intros F%fits_wire R V S. destruct (frame_roundtrip _ _ _ F) as (_ & Rd & _).
  destruct (Rd r rest err S) as (r' & E & S'). exists r'. split; [|done].
  unfold next_env. rewrite E. unfold parse_frame_payload, readable in *. rewrite R. cbn [mbind]. by rewrite V.
Qed.

Lemma run_put mf v x :
  fits mf v → (∀ n, sw_write w n = None) →
  ∃ x', run (put to_string w v mf) x = (Ok tt, x') ∧ co_sent x' = co_sent x ++ [v].
Proof.
  intros F%fits_wire W. unfold put. rewrite F. eexists. rewrite run_act, W. split; [done|]. done.
Qed.

Lemma strings_back l : str_items (j_strs l) = l.
Proof. unfold str_items. cbn. induction l as [|s l IH]; [done|]. cbn. f_equal. exact IH. Qed.

Lemma features_welcome msg welcome : features_of (hf_body (welcome_frame msg welcome)) = wl_features welcome.
Proof. unfold features_of, welcome_frame. cbn [hf_body]. rewrite get_obj by done. apply strings_back. Qed.

Lemma limit_welcome msg welcome : get_u64 "max_frame" (hf_body (welcome_frame msg welcome)) = Some (frame_limit welcome).
Proof. unfold get_u64, welcome_frame. cbn [hf_body]. by rewrite get_obj. Qed.

(** The bindings of an activation, as the component sees them. *)
Definition component_binding (b : KernelState.DepBinding) : DepBinding := mkDepBinding (db_id b) (db_capability b).

Lemma bindings_activate op logical (bs : list KernelState.DepBinding) :
  Forall (λ b, db_id b ≠ "" ∧ db_capability b ≠ "") bs →
  bindings_of (activate_body op logical (Some bs)) = component_binding <$> bs.
Proof.
  intros F. unfold bindings_of, get_array, activate_body. rewrite get_obj by done.
  change (omap binding_of ((λ b, obj [("binding_id", JString (db_id b)); ("capability", JString (db_capability b))]) <$> bs)
    = component_binding <$> bs).
  induction F as [|b bs [N1 N2] F IH]; [done|]. cbn [fmap list_fmap omap list_omap].
  replace (binding_of _) with (Some (component_binding b)); [cbn; f_equal; exact IH|].
  unfold binding_of, get_str. rewrite !get_obj by done.
  change (Some (component_binding b) = if str_is_empty (db_id b) || str_is_empty (db_capability b) then None else Some (component_binding b)).
  unfold str_is_empty. by rewrite !bool_decide_eq_false_2.
Qed.

Definition welcome_env (sid hid : string) (welcome : Welcome) : Value := frame_json sid (welcome_frame hid welcome).
Definition registered_env (sid rid logical : string) (instance generation : N) : Value :=
  frame_json sid (stamped "registered" rid instance generation None (obj [("logical", JString logical)])).
Definition activate_env (sid mid rid op logical : string) (instance generation : N)
    (bs : list KernelState.DepBinding) : Value :=
  frame_json sid (stamped "lifecycle.activate" mid instance generation (Some (JString rid))
                    (activate_body op logical (Some bs))).

Lemma welcome_valid sid hid welcome :
  hid ≠ "" → validate_envelope (welcome_env sid hid welcome)
    = Ok (mkEnvelope "welcome" hid (Some sid) None None None (hf_body (welcome_frame hid welcome))).
Proof.
  intros N. refine (frame_json_valid sid (welcome_frame hid welcome) None None _ _ eq_refl eq_refl eq_refl I I eq_refl _ N _).
  - repeat constructor; (unfold frame_json; rewrite get_obj by done; by eexists).
  - repeat constructor; (rewrite assoc_sorted by done; by eexists).
Qed.

Lemma registered_valid sid rid logical i g :
  rid ≠ "" → (i ≤ u64_max)%N → (g ≤ u64_max)%N →
  ∃ body, validate_envelope (registered_env sid rid logical i g)
    = Ok (mkEnvelope "registered" rid (Some sid) (Some (display i)) (Some g) None body).
Proof.
  intros N Ui Ug. eexists.
  refine (frame_json_valid sid (stamped "registered" rid i g None _) (Some i) (Some g) _ _
    eq_refl eq_refl eq_refl Ui Ug eq_refl _ N _).
  - repeat constructor; (unfold frame_json; rewrite get_obj by done; by eexists).
  - repeat constructor; (rewrite assoc_sorted by done; by eexists).
Qed.

Lemma activate_valid sid mid rid op logical i g bs :
  mid ≠ "" → (i ≤ u64_max)%N → (g ≤ u64_max)%N →
  validate_envelope (activate_env sid mid rid op logical i g bs)
    = Ok (mkEnvelope "lifecycle.activate" mid (Some sid) (Some (display i)) (Some g) (Some rid)
            (activate_body op logical (Some bs))).
Proof.
  intros N Ui Ug.
  refine (frame_json_valid sid (stamped "lifecycle.activate" mid i g (Some (JString rid)) _) (Some i) (Some g) _ _
    eq_refl eq_refl eq_refl Ui Ug eq_refl _ N _).
  - repeat constructor; (unfold frame_json; rewrite get_obj by done; by eexists).
  - repeat constructor; (unfold activate_body; rewrite assoc_sorted by done; by eexists).
Qed.

(** C15: The handshake agrees. When the host sends its welcome, its registration and its activation,
    in whatever pieces they arrive, [connect] succeeds with the session, the instance, the
    generation, the frame size, the features and the bindings of the host; it has sent [hello],
    [component.register] and the result of the activation, and what follows in the stream is left
    to [serve]. *)
Theorem handshake_agrees sid logical hid reg_id mid rid op (instance generation : N) (welcome : Welcome)
    (bs : list KernelState.DepBinding) (r : Reader) rest err (x : Comp) :
  let mf := frame_limit welcome in
  let c := mkComponent sid (display instance) generation mf (wl_features welcome) (component_binding <$> bs) in
  let W := welcome_env sid hid welcome in
  let R := registered_env sid reg_id logical instance generation in
  let A := activate_env sid mid rid op logical instance generation bs in
  hid ≠ "" → reg_id ≠ "" → mid ≠ "" → (instance ≤ u64_max)%N → (generation ≤ u64_max)%N →
  Forall (λ b, db_id b ≠ "" ∧ db_capability b ≠ "") bs →
  sw_connect w = Ok tt → sw_timeout w = Ok tt → sw_clone w = Ok tt → (∀ n, sw_write w n = None) →
  Forall readable [W; R; A] → Forall (fits DEFAULT_MAX_FRAME) [hello_env w; W] →
  Forall (fits mf) [register_env sid logical; R; A; activated_env c (JString op) (Some rid)] →
  stream r = (on_wire W ++ on_wire R ++ on_wire A ++ rest, err) →
  ∃ r' x', run (connect to_string from_str w logical r) x = (Ok (c, r'), x') ∧ stream r' = (rest, err) ∧
    co_sent x' = co_sent x ++ [hello_env w; register_env sid logical; activated_env c (JString op) (Some rid)].
Proof.
  intros mf c W R A N1 N2 N3 Ui Ug Bs C1 C2 C3 Wr Rd F1 F2 S.
  apply Forall_cons in Rd as [RdW Rd]. apply Forall_cons in Rd as [RdR Rd]. apply Forall_cons in Rd as [RdA _].
  apply Forall_cons in F1 as [Fh F1]. apply Forall_cons in F1 as [FW _].
  apply Forall_cons in F2 as [Fr F2]. apply Forall_cons in F2 as [FR F2]. apply Forall_cons in F2 as [FA F2].
  apply Forall_cons in F2 as [Fa _].
  destruct (registered_valid sid reg_id logical instance generation N2 Ui Ug) as [body VR].
  destruct (next_env_wire DEFAULT_MAX_FRAME "sem welcome" "welcome" W _ r _ err FW RdW (welcome_valid sid hid welcome N1) S)
    as (r1 & E1 & S1).
  destruct (next_env_wire mf "sem registered" "registered" R _ r1 _ err FR RdR VR S1) as (r2 & E2 & S2).
  destruct (next_env_wire mf "sem activate" "activate" A _ r2 _ err FA RdA
    (activate_valid sid mid rid op logical instance generation bs N3 Ui Ug) S2) as (r3 & E3 & S3).
  destruct (run_put DEFAULT_MAX_FRAME (hello_env w) x Fh Wr) as (x1 & P1 & Q1).
  destruct (run_put mf (register_env sid logical) x1 Fr Wr) as (x2 & P2 & Q2).
  destruct (run_put mf (activated_env c (JString op) (Some rid)) x2 Fa Wr) as (x3 & P3 & Q3).
  exists r3, x3. split; [|split; [done|]].
  2:{ rewrite Q3, Q2, Q1. by rewrite <- !app_assoc. }
  unfold connect. rewrite run_bind, run_ret, C1. cbn [map_err]. rewrite run_bind, run_ret, C2, run_bind, run_ret, C3.
  rewrite run_bind, P1, run_bind, run_ret, E1. cbn [env_ty]. rewrite bool_decide_eq_false_2 by auto.
  cbn [env_session_id ok_or env_body]. rewrite run_bind, run_ret, limit_welcome, features_welcome.
  change (default DEFAULT_MAX_FRAME (Some (frame_limit welcome))) with mf. rewrite run_bind, P2, run_bind, run_ret, E2. cbn [env_ty].
  rewrite bool_decide_eq_false_2 by auto. cbn [env_instance_id env_generation ok_or].
  rewrite run_bind, run_ret, run_bind, run_ret, run_bind, run_ret, E3. cbn [env_ty env_body].
  rewrite bool_decide_eq_false_2 by auto. rewrite bindings_activate by done. cbv zeta.
  assert (Op : operation_of (mkEnvelope "lifecycle.activate" mid (Some sid) (Some (display instance)) (Some generation)
    (Some rid) (activate_body op logical (Some bs))) = JString op).
  { unfold operation_of, activate_body. cbn [env_body]. by rewrite get_obj. }
  rewrite Op. cbn [env_request_id]. fold c. rewrite run_bind, P3. by rewrite run_ret.
Qed.
End handshake.

(** *** A concrete handshake *)

Definition hs_welcome : Welcome := mkWelcome "0.1" "sess-1" 1024 default_limits [DEPENDENCY_CALLS_1].
Definition hs_binding : KernelState.DepBinding :=
  KernelState.mkDepBinding "bind-1" "app" 1 1 1 "kv.get" "kv.get@1" "store" 2 1.
Definition hs_W : Value := welcome_env "sess-1" "h1" hs_welcome.
Definition hs_R : Value := registered_env "sess-1" "reg1" "app" 1 1.
Definition hs_A : Value := activate_env "sess-1" "msg-1" "req-1" "op-1" "app" 1 1 [hs_binding].

(** Three texts and their parser. *)
Definition hs_to_string (v : Value) : string :=
  match get_str "type" v with
  | Some "welcome" => "1" | Some "registered" => "2" | Some "lifecycle.activate" => "3" | _ => "{}"
  end.
Definition hs_from_str (raw : bytes) : result Value string :=
  if bool_decide (raw = chars "1") then Ok hs_W
  else if bool_decide (raw = chars "2") then Ok hs_R
  else if bool_decide (raw = chars "3") then Ok hs_A
  else Err "unknown text".

(** The three frames, cut in the middle of the second. *)
Definition hs_reader : Reader :=
  let all := on_wire hs_to_string hs_W ++ on_wire hs_to_string hs_R ++ on_wire hs_to_string hs_A in
  [Ok (take 7 all); Ok (drop 7 all)].

Lemma handshake_agrees_witness :
  ∃ r' x', run (connect hs_to_string hs_from_str sdk_world "app" hs_reader) (comp_new 0) = (Ok (sdk_comp, r'), x') ∧
    length (co_sent x') = 3.
Proof.
  destruct (handshake_agrees hs_to_string hs_from_str sdk_world "sess-1" "app" "h1" "reg1" "msg-1" "req-1" "op-1" 1 1
    hs_welcome [hs_binding] hs_reader [] None (comp_new 0)) as (r' & x' & E & _ & S);
    try (repeat constructor; vm_compute; reflexivity); try (unfold u64_max; lia); try done.
  { repeat constructor; done. }
  exists r', x'. split; [exact E|]. rewrite S. by vm_compute.
Defined.

(** ** Message ids *)

(** The session [sess-1] of the host has a call in flight: request [req-10], ticket [tkt-1]. *)
Definition busy_host : Host :=
  set_ho_pending {["req-10" := mkPending "sess-1" (PkCall "tkt-1")]} demo_host.

Definition busy_ctx : CallCtx := call_ctx sdk_comp "tkt-1" 0.

Definition mask_texts : list (string * Value) :=
  [("1", stream_env busy_ctx "call-tkt" 1 "chunk"); ("2", result_env busy_ctx (Some "req-10") (CallOk (JString "done")))].
Definition mask_from_str (raw : bytes) : result Value string :=
  match List.find (λ tv, bool_decide (chars tv.1 = raw)) mask_texts with
  | Some tv => Ok tv.2
  | None => Err "unknown text"
  end.
Definition mask_to_string (v : Value) : string := if is_some (get "ticket" v) then "result" else "chunk".

Definition host_reads (text : string) (h : Host) : Host :=
  (run (on_plugin_frame mask_to_string mask_from_str calm_world "sess-1" (chars text)) h).2.

(** A stream can mask the result of a call. The chunk with number [n] of a stream named
    [call-tkt] and the result of the ticket [tkt-n] have the same message id. A host that has read
    such a chunk takes the result for a replay with another content and ignores it: the call stays
    pending, where without the chunk it is answered. *)
Theorem stream_masks_result :
  (∀ cx n payload rid o, cx_ticket cx = "tkt-" +:+ display n →
     get_str "message_id" (stream_env cx "call-tkt" n payload) = get_str "message_id" (result_env cx rid o)) ∧
  is_some (ho_pending (host_reads "2" busy_host) !! "req-10") = false ∧
  is_some (ho_pending (host_reads "2" (host_reads "1" busy_host)) !! "req-10") = true.
Proof.
  split_and!; [|by vm_compute..]. intros cx n payload rid o Ht. unfold get_str, stream_env, result_env, ctx_env.
  rewrite !get_bound_env by eauto. cbn [bound_members app assoc].
  rewrite !bool_decide_eq_false_2, !bool_decide_eq_true_2 by done. cbn. by rewrite Ht.
Qed.
