(* ===== verification/Unary.v ===== *)
(** * The unary remote profile ([matrix-runtime/src/remote.rs])

    One request per TLS connection: a length-prefixed JSON value and its answer. The server
    authenticates the certificate, checks the principal against the grants of the service and
    dispatches to its methods; the client sets the profile, sends and reads. [RemoteProxy] is a
    plugin of a controller's kernel whose calls go to a component of another host through the
    client, with a worker that renews the lease.

    TLS, sockets and clocks answer from the arguments [Conn], [ClientIo] and [PxWorld]; bytes come
    from timed scripts, since every read is under the deadline of its request. *)

From S2P Require Import Prelude RustStd Json Wire Frame Scan Identity Contexts Resources Deps Calls Journal Manifest Prog Timed.
From S2P Require Import KernelState KernelCalls KernelLifecycle KernelDispatch KernelActions.
From S2P Require Import Guard Store Service.
From Stdlib Require Import Ascii.

Definition PROFILE : string := "matrix.managed/0.1".
Definition MAX_FRAME : N := 1024 * 1024.
Definition MAX_CONNECTIONS : N := 32.
Definition REQUEST_BUDGET : N := 35000.

(** ** Frames under a deadline *)

(** A read that starts at a time, and what it answers. *)
Definition TimedReads : Type := list (Instant * result bytes string).

(** [DeadlineTcp::read]: [checked_duration_since], then [set_read_timeout], which refuses zero. *)
Definition deadline_left (until now : Instant) : result N string :=
  if (until <? now)%N then Err "absolute request deadline"
  else if (until =? now)%N then Err "cannot set a 0 duration timeout"
  else Ok (until - now)%N.

Definition deadline_read (until : Instant) (tr : Instant * result bytes string) : result bytes string :=
  let? _ := deadline_left until tr.1 in tr.2.

Definition deadline_reader (until : Instant) (reads : TimedReads) : Reader := deadline_read until <$> reads.

Definition read_exact (n : nat) (r : Reader) : result bytes string * Reader :=
  match fill n n [] r with
  | (Filled b, r) => (Ok b, r)
  | (FillEof _, r) => (Err "failed to fill whole buffer", r)
  | (FillIo e, r) => (Err e, r)
  end.

Section wire.
Context (to_string : Value → string) (from_str : bytes → result Value string).

Definition receive (r : Reader) : result Value string * Reader :=
  match read_exact 4 r with
  | (Ok [a; b; c; d], r) =>
      let n := from_be_bytes a b c d in
      if (n =? 0)%N || (MAX_FRAME <? n)%N then (Err "invalid frame size", r)
      else
        match read_exact (N.to_nat n) r with
        | (Ok b, r) => (map_err we_code (scan_raw from_str b), r)
        | (Err e, r) => (Err e, r)
        end
  | (Ok _, r) => (Err "", r)   (* not reached: four bytes were read *)
  | (Err e, r) => (Err e, r)
  end.

(** The bytes of [send], before the writes. *)
Definition send (v : Value) : result bytes string :=
  let b := chars (to_string v) in
  if (MAX_FRAME <? blen b)%N then Err "frame too large"
  else Ok (to_be_bytes (as_u32 (blen b)) ++ b).
End wire.

(** ** Requests *)

Definition str_field (v : Value) (k : string) : result string string := ok_or (get_str k v) ("missing " +:+ k).

(** [ParseIntError] of [u64]: the first character that is no digit, or at which the value
    overflows. *)
Fixpoint digits_error (acc : N) (l : list ascii) : string :=
  match l with
  | [] => ""
  | a :: l =>
      if negb (is_ascii_digit a) then "invalid digit found in string"
      else
        let acc := (acc * 10 + digit_value a)%N in
        if (acc <=? u64_max)%N then digits_error acc l else "number too large to fit in target type"
  end.

Definition parse_error (l : list ascii) : string :=
  match l with
  | [] => "cannot parse integer from empty string"
  | ["+"%char] | ["-"%char] => "invalid digit found in string"
  | "+"%char :: l => digits_error 0 l
  | l => digits_error 0 l
  end.

Definition fence_field (v : Value) : result N string :=
  let? s := str_field v "fence" in ok_or (parse_u64 (chars s)) (parse_error (chars s)).

Definition ttl_field (v : Value) : result N string := ok_or (get_u64 "ttl_ms" v) "missing ttl_ms".

Definition json_field (v : Value) (k : string) : result Value string := ok_or (get k v) ("missing " +:+ k).

Section dispatch.
Context {E : Env} (to_string : Value → string) (from_str : string → result Value string) (w : World).
Notation svprog := (prog Svc).

(** [let x = e?; ...] for an argument of a method. *)
Notation "'arg' x ':=' e 'in' k" := (match e with Ok x => k | Err err => Ret (Err err) end)
  (at level 200, x name, e at level 200, k at level 200, right associativity).

Definition dispatch (principal : string) (v : Value) : svprog (result Value string) :=
  arg profile := str_field v "profile" in
  if bool_decide (profile ≠ PROFILE) then Ret (Err "unsupported-version")
  else
    let! ok := read (authorized principal) in
    if negb ok then Ret (Err "permission-denied")
    else
      arg action := str_field v "action" in
      if bool_decide (action = "activate") then
        arg component := str_field v "component" in
        arg ttl := ttl_field v in
        act (activate to_string from_str w principal component ttl)
      else if bool_decide (action = "status") then
        arg lease := str_field v "lease" in
        arg fence := fence_field v in
        read (lease_status w principal lease fence)
      else if bool_decide (action = "lease-status") then
        arg lease := str_field v "lease" in
        read (lease_status_by_token w principal lease)
      else if bool_decide (action = "renew") then
        arg lease := str_field v "lease" in
        arg fence := fence_field v in
        arg ttl := ttl_field v in
        act (renew w principal lease fence ttl)
      else if bool_decide (action = "release") then
        arg lease := str_field v "lease" in
        arg fence := fence_field v in
        act (release_lease to_string w principal lease fence)
      else if bool_decide (action = "invoke") then
        arg lease := str_field v "lease" in
        arg fence := fence_field v in
        arg operation := str_field v "operation" in
        arg cap := str_field v "cap" in
        arg input := json_field v "input" in
        invoke to_string from_str w principal lease fence operation cap input
      else if bool_decide (action = "effect.commit") then
        arg lease := str_field v "lease" in
        arg fence := fence_field v in
        arg operation := str_field v "operation" in
        arg key := str_field v "key" in
        arg value := json_field v "value" in
        act (lease_commit to_string from_str w principal lease fence operation key value)
      else if bool_decide (action = "operation") then
        arg op := str_field v "operation" in
        read (λ s, operation from_str principal op (sv_db s))
      else Ret (Err "invalid-message").
End dispatch.

(** ** The server *)

(** What a connection brings: the result of the TLS handshake, whether it negotiated the profile,
    the first certificate of the peer, when it was accepted, its bytes, the result of writing the
    answer, and what the outside answers to the method it calls. *)
Record Conn : Type := mkConn {
  cn_tls : result unit string;
  cn_alpn : bool;
  cn_cert : option bytes;
  cn_accepted : Instant;
  cn_reads : TimedReads;
  cn_write : result unit string;
  cn_world : World;
}.

(** [sr_active] is the counter of connections, [sr_jobs] the connections whose thread has not
    started, [sr_answers] what was answered to whom. *)
Record Srv : Type := mkSrv {
  sr_svc : Svc;
  sr_active : N;
  sr_stop : bool;
  sr_jobs : list Conn;
  sr_answers : list (string * Value);
}.

Definition set_sr_svc (v : Svc) (x : Srv) : Srv := mkSrv v (sr_active x) (sr_stop x) (sr_jobs x) (sr_answers x).
Definition set_sr_active (v : N) (x : Srv) : Srv := mkSrv (sr_svc x) v (sr_stop x) (sr_jobs x) (sr_answers x).
Definition set_sr_stop (v : bool) (x : Srv) : Srv := mkSrv (sr_svc x) (sr_active x) v (sr_jobs x) (sr_answers x).
Definition set_sr_jobs (v : list Conn) (x : Srv) : Srv := mkSrv (sr_svc x) (sr_active x) (sr_stop x) v (sr_answers x).
Definition set_sr_answers (v : list (string * Value)) (x : Srv) : Srv :=
  mkSrv (sr_svc x) (sr_active x) (sr_stop x) (sr_jobs x) v.

#[export] Instance srv_clock : Clock Srv := {
  clock x := clock (sr_svc x);
  advance n x := set_sr_svc (advance n (sr_svc x)) x;
}.

Notation uprog := (prog Srv).

(** The actions of a program of the service. *)
Fixpoint slift {A} (p : prog Svc A) : uprog A :=
  match p with
  | Ret a => Ret a
  | Act f k => Act (λ x, let '(a, s) := f (sr_svc x) in (a, set_sr_svc s x)) (λ a, slift (k a))
  | Wait c u k => Wait (λ x, c (sr_svc x)) u (λ b, slift (k b))
  end.

Definition response (r : result Value string) : Value :=
  match r with
  | Ok v => obj [("ok", JBool true); ("value", v)]
  | Err e => obj [("ok", JBool false); ("error", JString e)]
  end.

Section server.
Context {E : Env} (to_string : Value → string) (from_str : bytes → result Value string)
  (db_from_str : string → result Value string) (sha256 : bytes → bytes).

Definition fingerprint (cert : bytes) : string := of_chars (hex (sha256 cert)).

Definition reply (c : Conn) (principal : string) (v : Value) : uprog (result unit string) :=
  match send to_string v with
  | Err e => Ret (Err e)
  | Ok _ =>
      match cn_write c with
      | Err e => Ret (Err e)
      | Ok _ => do! modify (λ x, set_sr_answers (sr_answers x ++ [(principal, v)]) x); Ret (Ok tt)
      end
  end.

(** The closure [run] of a connection. *)
Definition serve_request (c : Conn) : uprog (result unit string) :=
  let?! _ := Ret (cn_tls c) in
  if negb (cn_alpn c) then Ret (Err "unsupported profile")
  else
    let?! cert := Ret (ok_or (cn_cert c) "unauthenticated") in
    let principal := fingerprint cert in
    let! ok := slift (read (authorized principal)) in
    if negb ok then reply c principal (response (Err "permission-denied"))
    else
      let?! request := Ret (receive from_str (deadline_reader (cn_accepted c + REQUEST_BUDGET) (cn_reads c))).1 in
      let! r := slift (dispatch to_string db_from_str (cn_world c) principal request) in
      reply c principal (response r).

(** The thread of a connection; the guard [Count] leaves the counter. *)
Definition start_conn (n : nat) (x : Srv) : option Conn * Srv := (sr_jobs x !! n, set_sr_jobs (delete n (sr_jobs x)) x).

Definition conn_thread (n : nat) : uprog unit :=
  let! c := act (start_conn n) in
  match c with
  | None => Ret tt
  | Some c => do! serve_request c; modify (λ x, set_sr_active (sr_active x - 1) x)
  end.

(** One answer of [accept]. *)
Inductive Accepted : Type := AcConn (c : Conn) | AcWouldBlock | AcError.

Fixpoint accept_loop (evs : list Accepted) : uprog unit :=
  match evs with
  | [] => Ret tt
  | ev :: evs =>
      let! stop := read sr_stop in
      if stop then Ret tt
      else
        match ev with
        | AcConn c =>
            let! n := read sr_active in
            if (MAX_CONNECTIONS <=? n)%N then accept_loop evs
            else
              do! modify (λ x, set_sr_active (sr_active x + 1) x);
              do! modify (λ x, set_sr_jobs (sr_jobs x ++ [c]) x);
              accept_loop evs
        | AcWouldBlock =>
            let! now := read clock in
            do! Wait (λ _, false) (now + 10) (λ _, Ret tt);
            accept_loop evs
        | AcError => Ret tt
        end
  end.

Definition server_shutdown : uprog unit := modify (set_sr_stop true).

(** ** The client *)

(** What the connection of a request answers: the connection within a time, the clone of the
    socket for the watch of a cancel flag, the name, TLS, the write, the bytes. *)
Record ClientIo : Type := mkClientIo {
  io_now : Instant;
  io_connect : N → result unit string;
  io_clone : result unit string;
  io_name : result unit string;
  io_tls : result unit string;
  io_write : result unit string;
  io_reads : TimedReads;
}.

(** [value["profile"] = json!(PROFILE)]: [None] is its panic on a value that is no object. *)
Definition with_profile (v : Value) : option Value :=
  match v with
  | JObject m => Some (obj (("profile", JString PROFILE) :: List.filter (λ kv, negb (bool_decide (kv.1 = "profile"))) m))
  | JNull => Some (obj [("profile", JString PROFILE)])
  | _ => None
  end.

(** [v[key]]. *)
Definition member (key : string) (v : Value) : Value := default JNull (get key v).

Definition answer_of_response (v : Value) : result Value string :=
  if bool_decide ((get "ok" v ≫= as_bool) = Some true) then Ok (member "value" v)
  else Err (default "remote error" (as_str (member "error" v))).

Definition request_with_budget (io : ClientIo) (budget : N) (watched : bool) (v : Value) : option (result Value string) :=
  let until := (io_now io + N.min budget REQUEST_BUDGET)%N in
  v ← with_profile v;
  Some (
    let? _ := io_connect io (N.max (N.min budget 3000) 1) in
    let? _ := if watched then io_clone io else Ok tt in
    let? _ := io_name io in
    let? _ := io_tls io in
    let? _ := send to_string v in
    let? _ := io_write io in
    let? result := (receive from_str (deadline_reader until (io_reads io))).1 in
    answer_of_response result).

Definition request (io : ClientIo) (v : Value) : option (result Value string) :=
  request_with_budget io REQUEST_BUDGET false v.
End server.

(** ** The proxy *)

(** [RemoteForwarder], less its client. *)
Record Fwd : Type := mkFwd {
  fw_logical : string;
  fw_instance : N;
  fw_generation : N;
  fw_lease : string;
  fw_fence : N;
}.

(** [RemoteProxy] and the kernel it is attached to. [px_asked] and [px_log] are the requests made
    through the client, [px_hooked] the events handed to the previous hook. *)
Record Px : Type := mkPx {
  px_kernel : Kernel;
  px_forward : Fwd;
  px_retired : bool;
  px_gate : bool;
  px_asked : N;
  px_log : list Value;
  px_hooked : list LifecycleEvent;
}.

Definition set_px_kernel (v : Kernel) (x : Px) : Px :=
  mkPx v (px_forward x) (px_retired x) (px_gate x) (px_asked x) (px_log x) (px_hooked x).
Definition set_px_forward (v : Fwd) (x : Px) : Px :=
  mkPx (px_kernel x) v (px_retired x) (px_gate x) (px_asked x) (px_log x) (px_hooked x).
Definition set_px_retired (v : bool) (x : Px) : Px :=
  mkPx (px_kernel x) (px_forward x) v (px_gate x) (px_asked x) (px_log x) (px_hooked x).
Definition set_px_gate (v : bool) (x : Px) : Px :=
  mkPx (px_kernel x) (px_forward x) (px_retired x) v (px_asked x) (px_log x) (px_hooked x).
Definition set_px_log (n : N) (v : list Value) (x : Px) : Px :=
  mkPx (px_kernel x) (px_forward x) (px_retired x) (px_gate x) n v (px_hooked x).
Definition set_px_hooked (v : list LifecycleEvent) (x : Px) : Px :=
  mkPx (px_kernel x) (px_forward x) (px_retired x) (px_gate x) (px_asked x) (px_log x) v.

#[export] Instance px_clock : Clock Px := {
  clock x := clock (px_kernel x);
  advance n x := set_px_kernel (advance n (px_kernel x)) x;
}.

Notation xprog := (prog Px).

Fixpoint xlift {A} (p : kprog A) : xprog A :=
  match p with
  | Ret a => Ret a
  | Act f k => Act (λ x, let '(a, y) := f (px_kernel x) in (a, set_px_kernel y x)) (λ a, xlift (k a))
  | Wait c u k => Wait (λ x, c (px_kernel x)) u (λ b, xlift (k b))
  end.

(** The answers to the requests, by their number; the token of a call; the forwarder and the hook
    that were registered before; the file of the manifest. *)
Record PxWorld : Type := mkPxWorld {
  pw_answer : N → Value → result Value string;
  pw_token : result string string;
  pw_previous_forward : option (ForwardRequest → ForwardOutcome);
  pw_previous_hook : bool;
  pw_manifest : result Value string;
}.

Definition lease_request (action lease : string) (fence : N) (rest : list (string * Value)) : Value :=
  obj ([("action", JString action); ("lease", JString lease); ("fence", JString (display fence))] ++ rest).

Definition invoke_request (f : Fwd) (id : string) (r : ForwardRequest) : Value :=
  lease_request "invoke" (fw_lease f) (fw_fence f)
    [("operation", JString id); ("cap", JString (fr_cap r)); ("input", fr_input r)].
Definition release_req (lease : string) (fence : N) : Value := lease_request "release" lease fence [].
Definition status_req (lease : string) (fence : N) : Value := lease_request "status" lease fence [].
Definition renew_req (lease : string) (fence : N) : Value := lease_request "renew" lease fence [("ttl_ms", j_u64 5000)].
Definition activate_req (component : string) : Value :=
  obj [("action", JString "activate"); ("component", JString component); ("ttl_ms", j_u64 5000)].

Section proxy.
Context {E : Env} (to_string : Value → string) (w : PxWorld).

(** One request of the client. *)
Definition ask (v : Value) : xprog (result Value string) :=
  act (λ x, (pw_answer w (px_asked x) v, set_px_log (px_asked x + 1) (px_log x ++ [v]) x)).

Definition is_true (key : string) (v : Value) : bool := bool_decide ((get key v ≫= as_bool) = Some true).

Definition outcome_of (r : result Value string) : ForwardOutcome :=
  match r with
  | Ok v =>
      if is_true "ok" v then FwOk (member "value" v)
      else FwErr (default "remote-error" (as_str (member "code" (member "value" v)))) (to_string (member "value" v))
  | Err e => FwFailed (FwGone e)
  end.

(** [RemoteForwarder::forward]. *)
Definition forwarder_forward (f : Fwd) (r : ForwardRequest) : xprog ForwardOutcome :=
  if bool_decide (fr_logical r ≠ fw_logical f) || negb (fr_instance r =? fw_instance f)%N
     || negb (fr_generation r =? fw_generation f)%N then Ret (FwErr "stale-generation" "proxy binding retired")
  else
    let flag := read (λ x, flag_value (fr_cancel r) (k_calls (px_kernel x))) in
    let! cancelled := flag in
    if cancelled then Ret (FwFailed FwCancelled)
    else
      match pw_token w with
      | Err e => Ret (FwFailed (FwGone e))
      | Ok id =>
          let! result := ask (invoke_request f id r) in
          let! cancelled := flag in
          Ret (if cancelled then FwFailed FwCancelled else outcome_of result)
      end.

(** The mutex [request_gate], which is held across a request: [tries] attempts to take it. *)
Definition try_gate (x : Px) : option unit * Px :=
  if px_gate x then (None, x) else (Some tt, set_px_gate true x).
Definition lock_gate (tries : nat) : xprog (option unit) :=
  poll tries (
    let! now := read clock in
    do! Wait (λ x, negb (px_gate x)) (now + 1) (λ _, Ret tt);
    act try_gate).
Definition unlock_gate : xprog unit := modify (set_px_gate false).

Definition previous (r : ForwardRequest) : ForwardOutcome :=
  match pw_previous_forward w with
  | Some p => p r
  | None => FwFailed (FwGone "no route")
  end.

(** [RemoteProxy::forward]; [None] while the gate is not free. *)
Definition proxy_forward (tries : nat) (r : ForwardRequest) : xprog (option ForwardOutcome) :=
  let! own := read (λ x, bool_decide (fw_logical (px_forward x) = fr_logical r)) in
  if negb own then Ret (Some (previous r))
  else
    let! g := lock_gate tries in
    match g with
    | None => Ret None
    | Some _ =>
        let! f := read px_forward in
        let! retired := read px_retired in
        let! out :=
          if bool_decide (fr_logical r ≠ fw_logical f) then Ret (previous r)
          else if retired then Ret (FwFailed (FwGone "remote lease retired"))
          else forwarder_forward f r in
        do! unlock_gate;
        Ret (Some out)
    end.

(** [RemoteProxy::on_lifecycle]. *)
Definition own_event (f : Fwd) (ev : LifecycleEvent) : bool :=
  match ev with
  | LcWithdrawn logical instance _ => bool_decide (logical = fw_logical f) && (instance =? fw_instance f)%N
  | LcRemoved logical => bool_decide (logical = fw_logical f)
  | LcActivated logical instance _ _ _ _ => bool_decide (logical = fw_logical f) && negb (instance =? fw_instance f)%N
  end.

Definition note_event (ev : LifecycleEvent) (x : Px) : Px :=
  if own_event (px_forward x) ev then set_px_retired true x else x.

Definition on_lifecycle (ev : LifecycleEvent) : xprog unit :=
  do! modify (note_event ev);
  if pw_previous_hook w then modify (λ x, set_px_hooked (px_hooked x ++ [ev]) x) else Ret tt.

(** One turn of the worker, with the next renewal; the proxy and the kernel may be gone. *)
Definition store_lease (token : string) (x : Px) : Px :=
  let f := px_forward x in
  set_px_forward (mkFwd (fw_logical f) (fw_instance f) (fw_generation f) token (fw_fence f)) x.

Definition renewed (kernel_alive : bool) (logical : string) (result : result Value string) : xprog unit :=
  match result with
  | Ok v =>
      match str_field v "lease" with
      | Ok token => modify (store_lease token)
      | Err _ => modify (set_px_retired true)
      end
  | Err _ =>
      do! modify (set_px_retired true);
      if kernel_alive then do! xlift (dispose_plugin logical); Ret tt else Ret tt
  end.

Definition worker_turn (tries : nat) (proxy_alive kernel_alive : bool) (renewal : Instant) : xprog (option Instant) :=
  let! now := read clock in
  do! Wait (λ _, false) (now + 20) (λ _, Ret tt);
  if negb proxy_alive then Ret None
  else
    do! (if kernel_alive then Ret tt else modify (set_px_retired true));
    let! retired := read px_retired in
    if retired then
      let! f := read px_forward in
      do! ask (release_req (fw_lease f) (fw_fence f));
      Ret None
    else
      let! now := read clock in
      if (now <? renewal)%N then Ret (Some renewal)
      else
        let! g := lock_gate tries in
        match g with
        | None => Ret (Some renewal)
        | Some _ =>
            let! f := read px_forward in
            let! result := ask (renew_req (fw_lease f) (fw_fence f)) in
            do! renewed kernel_alive (fw_logical f) result;
            let! now := read clock in
            do! unlock_gate;
            Ret (Some (now + 1000)%N)
        end.

Fixpoint proxy_worker (tries : nat) (turns : list (bool * bool)) (renewal : Instant) : xprog unit :=
  match turns with
  | [] => Ret tt
  | (p, k) :: turns =>
      let! next := worker_turn tries p k renewal in
      match next with
      | None => Ret tt
      | Some renewal => proxy_worker tries turns renewal
      end
  end.

(** *** [RemoteProxy::attach] *)

Definition external_def (logical : string) (k : Kernel) : bool :=
  is_some_and (λ d, is_external (sm_execution d)) (k_definitions k !! logical).

(** One turn of the wait for the remote component. *)
Definition ready_round (token : string) (fence : N) (until : Instant) : xprog (option (result unit string)) :=
  let! status := ask (status_req token fence) in
  if match status with Ok v => is_true "ready" v | Err _ => false end then Ret (Some (Ok tt))
  else
    let! now := read clock in
    if negb (is_ok status) || (until <=? now)%N then
      do! ask (release_req token fence);
      Ret (Some (Err "remote component not ready"))
    else
      do! Wait (λ _, false) (now + 10) (λ _, Ret tt);
      Ret None.

Definition await_component (token : string) (fence : N) : xprog (option (result unit string)) :=
  let! now := read clock in
  poll (rounds 3000 10) (ready_round token fence (now + 3000)).

Definition install_proxy (logical : string) (token : string) (fence : N) (ref : InstanceRef) : xprog unit :=
  do! modify (set_px_forward (mkFwd logical (ref_instance ref) (ref_generation ref) token fence));
  do! xlift set_forwarder_op;
  xlift set_hook_op.

Definition load_proxy (path : string) (token : string) (fence : N) : xprog (result unit string) :=
  let! loaded := xlift (load_manifest path) in
  match loaded with
  | Err e => do! ask (release_req token fence); Ret (Err e)
  | Ok logical =>
      let! ref := read (λ x, instance_ref_of logical (px_kernel x)) in
      match ref with
      | None => Ret (Err "proxy not registered")
      | Some ref =>
          let! ext := read (λ x, external_def logical (px_kernel x)) in
          if negb ext then Ret (Err "proxy manifest must use external execution")
          else do! install_proxy logical token fence ref; Ret (Ok tt)
      end
  end.

Definition attach (component path : string) : xprog (option (result unit string)) :=
  match (let? v := pw_manifest w in map_err msg_display (parse_manifest_value v)) with
  | Err e => Ret (Some (Err e))
  | Ok def =>
      if negb (is_external (sm_execution def)) then Ret (Some (Err "proxy manifest must use external execution"))
      else
        let! lease := ask (activate_req component) in
        match (let? v := lease in let? token := str_field v "lease" in let? fence := fence_field v in Ok (token, fence)) with
        | Err e => Ret (Some (Err e))
        | Ok (token, fence) =>
            let! ready := await_component token fence in
            match ready with
            | None => Ret None
            | Some (Err e) => Ret (Some (Err e))
            | Some (Ok _) => let! r := load_proxy path token fence in Ret (Some r)
            end
        end
  end.
End proxy.
