(* ===== verification/UnaryProps.v ===== *)
(** * What the unary profile promises

    A request and its answer cross the wire unchanged, the server keeps its bound on connections,
    and a proxy that is retired asks nothing more of its remote component than to be released. *)

From S2P Require Import Prelude RustStd Json Wire Frame Scan Identity Contexts Resources Deps Calls Journal Manifest Prog Timed.
From S2P Require Import KernelState KernelCalls KernelLifecycle KernelDispatch KernelActions KernelDemo.
From S2P Require Import Guard Store Service ServiceProps Unary.
From Stdlib Require Import Ascii.

(** ** One request *)

Lemma read_exact_stream n r s e :
  stream r = (s, e) → n ≤ length s →
  ∃ r', read_exact n r = (Ok (take n s), r') ∧ stream r' = (drop n s, e).
Proof.
  intros Hs L. pose proof (fill_stream n n [] r s e ltac:(cbn; lia) Hs) as F. cbn zeta in F.
  cbn [length] in F. rewrite Nat.sub_0_r in F.
  destruct (Nat.leb_spec n (length s)) as [_|G]; [|lia]. destruct F as (r' & E & S). exists r'.
  unfold read_exact. rewrite E. by rewrite app_nil_l.
Qed.

Section roundtrip.
Context {E : Env} (to_string : Value → string) (from_str : bytes → result Value string)
  (db_from_str : string → result Value string) (sha256 : bytes → bytes).

(** The text of a value is not empty and the parser reads it back. *)
Definition legible (v : Value) : Prop :=
  to_string v ≠ "" ∧ scan_raw from_str (chars (to_string v)) = Ok v.

Lemma receive_sent v b r rest e :
  send to_string v = Ok b → legible v → stream r = (b ++ rest, e) → (receive from_str r).1 = Ok v.
Proof.
  unfold send. destruct (N.ltb_spec MAX_FRAME (blen (chars (to_string v)))) as [G|G]; [done|].
  set (t := chars (to_string v)) in *. intros Hb [Ne Rd] Hs.
  assert (b = to_be_bytes (as_u32 (blen t)) ++ t) as -> by congruence.
  assert (B : (blen t ≤ u32_max)%N) by (unfold MAX_FRAME in G; unfold u32_max; lia).
  assert (A : as_u32 (blen t) = blen t) by (unfold as_u32; apply N.mod_small; unfold u32_max in B; lia).
  rewrite A in Hs. pose proof (be_bytes_roundtrip (blen t) B) as Rt.
  destruct (to_be_bytes (blen t)) as [|b0 [|b1 [|b2 [|b3 [|]]]]]; try done.
  rewrite <- app_assoc in Hs.
  destruct (read_exact_stream 4 r _ e Hs) as (r1 & E1 & S1); [cbn; lia|].
  change (stream r1 = (t ++ rest, e)) in S1. change (read_exact 4 r = (Ok [b0; b1; b2; b3], r1)) in E1.
  unfold receive. rewrite E1, Rt.
  assert (Z : (blen t =? 0)%N = false).
  { apply N.eqb_neq. unfold blen. intros Z. apply Ne. assert (L : length t = 0) by lia.
    subst t. destruct (to_string v); [done|cbn in L; lia]. }
  rewrite Z, (proj2 (N.ltb_ge _ _)) by done. cbn [orb].
  destruct (read_exact_stream (N.to_nat (blen t)) r1 _ e S1) as (r2 & E2 & S2).
  { unfold blen. rewrite Nat2N.id, length_app. lia. }
  rewrite E2. unfold blen. rewrite Nat2N.id, take_app_length. cbn [fst]. unfold t. by rewrite Rd.
Qed.

Lemma run_slift {A} (p : prog Svc A) x :
  run (slift p) x = ((run p (sr_svc x)).1, set_sr_svc (run p (sr_svc x)).2 x).
Proof.
  revert x. induction p as [a|X f k IH|c u k IH]; intros x; cbn [slift].
  - by destruct x.
  - rewrite !run_Act, IH. by destruct (f (sr_svc x)).
  - rewrite !run_Wait, IH. destruct (c (sr_svc x)); [done|]. cbn. by destruct (_ <? u)%N.
Qed.

Lemma answer_back r : answer_of_response (response r) = r.
Proof.
  unfold answer_of_response, response. destruct r as [v|e].
  - rewrite get_obj by done. cbn [assoc]. rewrite bool_decide_eq_true_2 by done. unfold member. by rewrite get_obj.
  - rewrite get_obj by done. unfold member. by rewrite get_obj.
Qed.

(** A connection and a request on which nothing fails outside. *)
Definition conn_ok (c : Conn) (cert : bytes) : Prop :=
  cn_tls c = Ok tt ∧ cn_alpn c = true ∧ cn_cert c = Some cert ∧ cn_write c = Ok tt.
Definition io_ok (io : ClientIo) : Prop :=
  (∀ t, io_connect io t = Ok tt) ∧ io_name io = Ok tt ∧ io_tls io = Ok tt ∧ io_write io = Ok tt.

(** C32: A request and its answer cross the wire unchanged. When the bytes of the client reach the
    server and those of the server the client, in whatever pieces before their deadlines, the client
    gets exactly what the dispatch of its request returned to the authorized principal, error or
    value, and the service is in the state that the dispatch left. *)
Theorem unary_roundtrip (v v' : Value) b1 b2 rest1 e1 rest2 e2 (c : Conn) (io : ClientIo) cert (x : Srv) :
  let principal := fingerprint sha256 cert in
  let p := dispatch to_string db_from_str (cn_world c) principal v' in
  let r := (run p (sr_svc x)).1 in
  conn_ok c cert → io_ok io → authorized principal (sr_svc x) = true →
  with_profile v = Some v' → send to_string v' = Ok b1 → send to_string (response r) = Ok b2 →
  legible v' → legible (response r) →
  stream (deadline_reader (cn_accepted c + REQUEST_BUDGET) (cn_reads c)) = (b1 ++ rest1, e1) →
  stream (deadline_reader (io_now io + REQUEST_BUDGET) (io_reads io)) = (b2 ++ rest2, e2) →
  let x' := (run (serve_request to_string from_str db_from_str sha256 c) x).2 in
  request to_string from_str io v = Some r ∧ sr_svc x' = (run p (sr_svc x)).2 ∧
  sr_answers x' = sr_answers x ++ [(principal, response r)].
Proof.
  intros principal p r (C1 & C2 & C3 & C4) (I1 & I2 & I3 & I4) Au Pv Sv Sr Lv Lr St1 St2 x'. split.
  - unfold request, request_with_budget. rewrite Pv. cbn [mbind option_bind]. rewrite I1, I2, I3. cbn [mbind].
    rewrite Sv, I4. change (N.min REQUEST_BUDGET REQUEST_BUDGET) with REQUEST_BUDGET.
    rewrite (receive_sent _ _ _ _ _ Sr Lr St2). by rewrite answer_back.
  - subst x'. unfold serve_request. rewrite run_bind, run_ret, C1, C2. cbn [negb]. rewrite run_bind, run_ret, C3.
    cbn [ok_or]. fold principal. rewrite run_bind, run_slift, run_read. cbn [fst snd]. rewrite Au. cbn [negb].
    assert (Ex : set_sr_svc (sr_svc x) x = x) by by destruct x. rewrite Ex.
    rewrite run_bind, run_ret. rewrite (receive_sent _ _ _ _ _ Sv Lv St1), run_bind, run_slift. fold p. cbn [fst snd].
    fold r. unfold reply. rewrite Sr, C4, run_bind, run_modify, run_ret. done.
Qed.
End roundtrip.

(** ** Connections *)

(** The threads beside the one that accepts. *)
Inductive SrvOp : Type := SoConn (n : nat) | SoShutdown | SoService (w : World) (o : SvcOp).

Section connections.
Context {E : Env} (to_string : Value → string) (from_str : bytes → result Value string)
  (db_from_str : string → result Value string) (sha256 : bytes → bytes).

Definition srv_prog (o : SrvOp) : uprog unit :=
  match o with
  | SoConn n => conn_thread to_string from_str db_from_str sha256 n
  | SoShutdown => server_shutdown
  | SoService w o => slift (svop_prog to_string db_from_str w o)
  end.

Definition fewer (x x' : Srv) : Prop := (sr_active x' ≤ sr_active x)%N.

#[local] Instance fewer_refl : Reflexive fewer.
Proof. intros x. unfold fewer. lia. Qed.

Lemma slift_fewer {A} (p : prog Svc A) : always fewer (slift p).
Proof.
  induction p as [a|X f k IH|c u k IH]; cbn; [done|split; [|done]..]; intros x; unfold fewer.
  - destruct (f (sr_svc x)). cbn. lia.
  - cbn. lia.
Qed.

Lemma reply_fewer c p v : always fewer (reply to_string c p v).
Proof.
  unfold reply. destruct (send _ _); [|done]. destruct (cn_write c); [|done].
  apply always_bind; [|done]. apply always_modify. intros x. unfold fewer. cbn. lia.
Qed.

Lemma serve_fewer c : always fewer (serve_request to_string from_str db_from_str sha256 c).
Proof.
  unfold serve_request. apply always_bind; [done|]. intros [_|e]; [|done]. destruct (negb _); [done|].
  apply always_bind; [done|]. intros [cert|e]; [|done]. apply always_bind; [apply slift_fewer|]. intros [|]; cbn [negb].
  - apply always_bind; [done|]. intros [v|e]; [|done]. apply always_bind; [apply slift_fewer|]. intros r. apply reply_fewer.
  - apply reply_fewer.
Qed.

Lemma srv_fewer o : always fewer (srv_prog o).
Proof.
  destruct o as [n| |w o]; cbn [srv_prog].
  - unfold conn_thread. apply always_bind; [apply always_one; intros x; unfold fewer; cbn; lia|]. intros [c|]; [|done].
    apply always_bind; [apply serve_fewer|]. intros _. apply always_modify. intros x. unfold fewer. cbn. lia.
  - apply always_modify. intros x. unfold fewer. cbn. lia.
  - apply slift_fewer.
Qed.

(** The thread that accepts knows at most how many connections there are: the other threads only
    lower the number. *)
Fixpoint bounded {A} (m : N) (p : uprog A) : Prop :=
  match p with
  | Ret _ => True
  | Act f k => ∀ x, (sr_active x ≤ m)%N →
      ∃ m', (sr_active (f x).2 ≤ m' ≤ MAX_CONNECTIONS)%N ∧ bounded m' (k (f x).1)
  | Wait _ _ k => ∀ b, bounded m (k b)
  end.

Lemma bounded_read {X B} m (g : Srv → X) (f : X → uprog B) :
  (∀ x, (sr_active x ≤ m)%N → ∃ m', (sr_active x ≤ m' ≤ MAX_CONNECTIONS)%N ∧ bounded m' (f (g x))) →
  bounded m (bind (read g) f).
Proof. intros H. exact H. Qed.

Lemma bounded_modify {B} m (g : Srv → Srv) (f : unit → uprog B) :
  (∀ x, (sr_active x ≤ m)%N → ∃ m', (sr_active (g x) ≤ m' ≤ MAX_CONNECTIONS)%N ∧ bounded m' (f tt)) →
  bounded m (bind (modify g) f).
Proof. intros H. exact H. Qed.

Lemma bounded_accept evs m : (m ≤ MAX_CONNECTIONS)%N → bounded m (accept_loop evs).
Proof.
  revert m. induction evs as [|ev evs IH]; intros m L; cbn [accept_loop]; [done|].
  apply bounded_read. intros x Hx. exists m. split; [lia|]. destruct (sr_stop x); [done|]. destruct ev as [c| |]; [| |done].
  - apply bounded_read. intros x1 H1. destruct (N.leb_spec MAX_CONNECTIONS (sr_active x1)) as [G|G].
    { exists m. split; [lia|]. by apply IH. }
    exists (sr_active x1). split; [lia|]. apply bounded_modify. intros x2 H2. exists (sr_active x1 + 1)%N.
    split; [cbn; lia|]. apply bounded_modify. intros x3 H3. exists (sr_active x1 + 1)%N. split; [cbn; lia|]. apply IH. lia.
  - apply bounded_read. intros x1 H1. exists m. split; [lia|]. intros b. by apply IH.
Qed.

(** The server never has more than 32 connections, whatever is accepted, answered and stopped
    when. *)
Theorem connections_bounded evs (ops : list SrvOp) s ps x :
  rtc pool_step (accept_loop evs :: (srv_prog <$> ops), mkSrv s 0 false [] []) (ps, x) →
  (sr_active x ≤ MAX_CONNECTIONS)%N.
Proof.
  set (Inv := λ c : list (uprog unit) * Srv, ∃ m q qs, c.1 = q :: qs ∧ (sr_active c.2 ≤ m ≤ MAX_CONNECTIONS)%N ∧
    bounded m q ∧ Forall (always fewer) qs).
  intros R. enough (I : Inv (ps, x)) by (destruct I as (m & ? & ? & _ & L & _); cbn in L; lia).
  remember (accept_loop evs :: _, _) as c eqn:Ec. remember (ps, x) as c' eqn:Ec'.
  assert (I : Inv c).
  { subst c. exists 0%N. eexists _, _. split; [done|]. split; [unfold MAX_CONNECTIONS; cbn; lia|].
    split; [by apply bounded_accept|]. apply Forall_fmap, Forall_forall. intros o _. apply srv_fewer. }
  clear Ec Ec'. induction R as [|c1 c2 c3 S _ IH]; [done|]. apply IH. clear IH. destruct I as (m & q & qs & Eq & L & B & F).
  destruct S as [pre p p' post y y' T|ps1 y n Ln]; cbn in *.
  2:{ exists m, q, qs. cbn. split; [done|]. split; [exact L|]. by split. }
  destruct pre as [|q0 pre]; cbn in Eq; injection Eq as <- <-.
  - destruct T as [X f k y|d u k y Ey|d u k y Ey Lu].
    + destruct (B y) as (m' & L' & B'); [lia|]. by exists m', (k (f y).1), post.
    + exists m, (k true), post. split; [done|]. split; [done|]. split; [apply B|done].
    + exists m, (k false), post. split; [done|]. split; [done|]. split; [apply B|done].
  - apply Forall_app in F as [F1 [F2 F3]%Forall_cons]. exists m, q0, (pre ++ p' :: post). cbn.
    assert (G : fewer y y' ∧ always fewer p').
    { destruct T as [X f k y|d u k y Ey|d u k y Ey Lu]; destruct F2 as [Ff Fk]; (split; [|by apply Fk]); [apply Ff|done|done]. }
    destruct G as [G1 G2]. unfold fewer in G1. split; [done|]. split; [lia|]. split; [done|].
    apply Forall_app. split; [done|by constructor].
Qed.
End connections.

(** ** A retired proxy *)

Inductive PxOp : Type :=
| PoForward (tries : nat) (r : ForwardRequest)
| PoEvent (ev : LifecycleEvent)
| PoWorker (tries : nat) (turns : list (bool * bool)) (renewal : Instant)
| PoKernel (o : KernelOp).

Definition px_prog {E : Env} (to_string : Value → string) (w : PxWorld) (o : PxOp) : xprog unit :=
  match o with
  | PoForward tries r => do! proxy_forward to_string w tries r; Ret tt
  | PoEvent ev => on_lifecycle w ev
  | PoWorker tries turns renewal => proxy_worker w tries turns renewal
  | PoKernel o => xlift (kop_prog o)
  end.

(** Requests made between two states, all of them releases. *)
Definition only_releases (x x' : Px) : Prop :=
  ∃ l, px_log x' = px_log x ++ l ∧ Forall (λ v, get_str "action" v = Some "release") l.

#[export] Instance only_releases_refl : Reflexive only_releases.
Proof. intros x. exists []. by rewrite app_nil_r. Qed.
#[export] Instance only_releases_trans : Transitive only_releases.
Proof.
  intros x y z (l & E1 & F1) (l' & E2 & F2). exists (l ++ l'). rewrite E2, E1, app_assoc. split; [done|]. by apply Forall_app.
Qed.

(** From states of a retired proxy, the program keeps it retired and makes no other request. *)
Fixpoint quiet {A} (p : xprog A) : Prop :=
  match p with
  | Ret _ => True
  | Act f k => ∀ x, px_retired x = true →
      px_retired (f x).2 = true ∧ only_releases x (f x).2 ∧ quiet (k (f x).1)
  | Wait _ _ k => ∀ b, quiet (k b)
  end.

Lemma quiet_bind {A B} (p : xprog A) (f : A → xprog B) : quiet p → (∀ a, quiet (f a)) → quiet (bind p f).
Proof.
  intros P F. induction p as [a|X g k IH|c u k IH]; [apply F|..].
  - intros x Hx. destruct (P x Hx) as (R & L & Q). split; [done|]. split; [done|]. by apply IH.
  - intros b. apply IH, P.
Qed.

Lemma quiet_read {A B} (g : Px → A) (f : A → xprog B) :
  (∀ x, px_retired x = true → quiet (f (g x))) → quiet (bind (read g) f).
Proof. intros F x Hx. split; [done|]. split; [done|]. by apply F. Qed.

Lemma quiet_act {A} (f : Px → A * Px) :
  (∀ x, px_retired x = true → px_retired (f x).2 = true ∧ px_log (f x).2 = px_log x) → quiet (act f).
Proof.
  intros F x Hx. destruct (F x Hx) as [R L]. split; [done|]. split; [|done]. exists []. by rewrite app_nil_r.
Qed.

Lemma quiet_modify (f : Px → Px) :
  (∀ x, px_retired x = true → px_retired (f x) = true ∧ px_log (f x) = px_log x) → quiet (modify f).
Proof. intros F. by apply quiet_act. Qed.

Lemma quiet_xlift {A} (p : kprog A) : quiet (xlift p).
Proof.
  induction p as [a|X f k IH|c u k IH]; cbn; [done| |done]. intros x Hx. destruct (f (px_kernel x)) as [a y]. cbn.
  split; [done|]. split; [|done]. exists []. by rewrite app_nil_r.
Qed.

Section retired.
Context {E : Env} (to_string : Value → string) (w : PxWorld).

Lemma quiet_release lease fence : quiet (ask w (release_req lease fence)).
Proof. intros x Hx. split; [done|]. split; [|done]. exists [release_req lease fence]. split; [done|]. by repeat constructor. Qed.

Lemma quiet_lock n : quiet (lock_gate n).
Proof.
  unfold lock_gate. induction n as [|n IH]; cbn [poll]; [done|]. apply quiet_bind.
  - apply quiet_read. intros x _. apply quiet_bind; [by intros b|]. intros _. apply quiet_act. intros y Hy.
    unfold try_gate. by destruct (px_gate y).
  - by intros [u|].
Qed.

Lemma quiet_forward n r : quiet (proxy_forward to_string w n r).
Proof.
  unfold proxy_forward. apply quiet_read. intros x _. destruct (negb _); [done|].
  apply quiet_bind; [apply quiet_lock|]. intros [u|]; [|done].
  apply quiet_read. intros x1 _. apply quiet_read. intros x2 R. rewrite R. apply quiet_bind.
  - by destruct (bool_decide _).
  - intros out. apply quiet_bind; [by apply quiet_modify|done].
Qed.

Lemma quiet_turn n p k renewal : quiet (worker_turn w n p k renewal).
Proof.
  unfold worker_turn. apply quiet_read. intros x _. apply quiet_bind; [by intros b|]. intros _.
  destruct (negb p); [done|]. apply quiet_bind; [destruct k; [done|by apply quiet_modify]|]. intros _.
  apply quiet_read. intros x1 R. rewrite R. apply quiet_read. intros x2 _.
  apply quiet_bind; [apply quiet_release|done].
Qed.

Lemma quiet_op o : quiet (px_prog to_string w o).
Proof.
  destruct o as [n r|ev|n turns renewal|o]; cbn [px_prog].
  - apply quiet_bind; [apply quiet_forward|done].
  - unfold on_lifecycle. apply quiet_bind; [|intros _; destruct (pw_previous_hook w); [by apply quiet_modify|done]].
    apply quiet_modify. intros x Hx. unfold note_event. by destruct (own_event _ _).
  - revert renewal. induction turns as [|[p k] turns IH]; intros renewal; cbn [proxy_worker]; [done|].
    apply quiet_bind; [apply quiet_turn|]. intros [next|]; [apply IH|done].
  - apply quiet_xlift.
Qed.

(** A retired proxy is silent. Once the flag is set, by a withdrawal, a removal, a replacement of
    the plugin or a failed renewal, it stays set, and no interleaving of calls, events, turns of
    the worker and methods of the kernel sends a call or a renewal: the only requests are releases
    of the lease. *)
Theorem retired_proxy_silent (ops : list PxOp) ps x x' :
  px_retired x = true → rtc pool_step (px_prog to_string w <$> ops, x) (ps, x') →
  px_retired x' = true ∧ only_releases x x'.
Proof.
  intros Hx R.
  assert (G : ∀ c c', rtc pool_step c c' → Forall quiet c.1 → px_retired c.2 = true →
    Forall (@quiet unit) c'.1 ∧ px_retired c'.2 = true ∧ only_releases c.2 c'.2).
  { clear. intros c c' R. induction R as [c|c1 c2 c3 S _ IH]; intros F Hr; [done|].
    assert (H : Forall quiet c2.1 ∧ px_retired c2.2 = true ∧ only_releases c1.2 c2.2).
    { destruct S as [pre p p' post y y' T|qs y n L]; cbn in *.
      - apply Forall_app in F as [F1 [F2 F3]%Forall_cons]. rewrite Forall_app, Forall_cons.
        destruct T as [X f k y|d u k y Ey|d u k y Ey Lu].
        + destruct (F2 y Hr) as (A & B & C). done.
        + split; [by split_and!|done].
        + split; [by split_and!|done].
      - split; [done|]. split; [done|]. exists []. by rewrite app_nil_r. }
    destruct H as (F' & R' & L'). destruct (IH F' R') as (F2 & R2 & L2). split; [done|]. split; [done|]. by etrans. }
  destruct (G _ _ R) as (_ & A & B); [|done|done].
  apply Forall_fmap, Forall_forall. intros o _. apply quiet_op.
Qed.
End retired.

(** ** A concrete request *)

(** The principal of the certificate with the one byte 171 may use the component [store]. *)
Definition un_cert : bytes := [byte 171].
Definition un_sha (b : bytes) : bytes := b.
Definition un_grants : gmap string Grant := {["ab" := mkGrant {["store"]} {["store.kv@1"]}]}.
Definition un_svc : Svc :=
  with_authority un_grants ∅ (run (svop_prog demo_print demo_parse (demo_world "") (SvProvision store_json)) demo_svc0).2.
Definition un_srv : Srv := mkSrv un_svc 1 false [] [].

Definition un_request : Value :=
  obj [("action", JString "activate"); ("component", JString "store"); ("ttl_ms", j_u64 1000)].
Definition un_sent : Value := default JNull (with_profile un_request).

Definition un_print (v : Value) : string :=
  if is_some (get "profile" v) then "1" else if is_some (get "ok" v) then "2" else demo_print v.
Definition un_result : result Value string :=
  (run (dispatch un_print demo_parse (demo_world "tok-1") "ab" un_sent) un_svc).1.
Definition un_parse (raw : bytes) : result Value string :=
  if bool_decide (raw = chars "1") then Ok un_sent
  else if bool_decide (raw = chars "2") then Ok (response un_result)
  else Err "unknown text".

Definition un_frame (text : string) : bytes := to_be_bytes (str_len text) ++ chars text.

(** The request arrives in two pieces, the answer in one. *)
Definition un_conn : Conn :=
  mkConn (Ok tt) true (Some un_cert) 100 [(200, Ok (take 3 (un_frame "1"))); (300, Ok (drop 3 (un_frame "1")))]%N
    (Ok tt) (demo_world "tok-1").
Definition un_io : ClientIo :=
  mkClientIo 100 (λ _, Ok tt) (Ok tt) (Ok tt) (Ok tt) (Ok tt) [(500%N, Ok (un_frame "2"))].

Lemma unary_roundtrip_witness :
  request un_print un_parse un_io un_request = Some un_result ∧ is_ok un_result = true ∧
  is_some (sv_leases (sr_svc (run (serve_request un_print un_parse demo_parse un_sha un_conn) un_srv).2) !! "tok-1") = true.
Proof.
  assert (C : conn_ok un_conn un_cert) by (split; [reflexivity|]; split; [reflexivity|]; split; reflexivity).
  assert (I : io_ok un_io) by (split; [intros t; reflexivity|]; split; [reflexivity|]; split; reflexivity).
  assert (L1 : legible un_print un_parse un_sent) by (split; [discriminate|vm_compute; reflexivity]).
  assert (L2 : legible un_print un_parse (response un_result)) by (split; vm_compute; [discriminate|reflexivity]).
  destruct (unary_roundtrip un_print un_parse demo_parse un_sha un_request un_sent (un_frame "1") (un_frame "2")
    [] None [] None un_conn un_io un_cert un_srv C I) as (A & B & _);
    [vm_compute; reflexivity|vm_compute; reflexivity|vm_compute; reflexivity|vm_compute; reflexivity|exact L1|exact L2
    |vm_compute; reflexivity|vm_compute; reflexivity|].
  split; [exact A|]. split; [vm_compute; reflexivity|]. rewrite B. vm_compute. reflexivity.
Defined.
