(* ===== verification/Api.v ===== *)
(** * The facade of the runtime ([matrix-runtime/src/api.rs])

    Configuration, its validation, and [Runtime]: start, reload, inspection, waiting and shutdown
    over the service and the route manager. The service and the manager work on one kernel and one
    host: [rt_svc] has the kernel, and an action of the manager or the host runs on it
    ([on_ctl]). A method is a program with one action per lock taken.

    [RWorld] is what the outside answers: the database, the host's attachment, certificates and
    listeners. The parser of configurations is derived by serde and not modelled; a [Config] is a
    value. The last part is the offline copy of stores, on a [Disk] of store images. *)

From S2P Require Import Prelude RustStd Json Identity Contexts Resources Deps Calls Journal Manifest Prog Timed.
From S2P Require Import KernelState KernelCalls KernelLifecycle KernelDispatch KernelActions Inventory.
From S2P Require Import Dependency Remote Guard Store Service HostState HostCalls HostStreams Controller.
From Stdlib Require Import Ascii.

Definition INSPECT_SCHEMA : string := "matrix.inspect/1".
Definition API_VERSION : string := "0.1.0-experimental".

(** ** Errors *)

Inductive ErrorCode : Type :=
| EcPermissionDenied
| EcStaleGeneration
| EcResourceExhausted
| EcOutcomeUnknown
| EcInvalidMessage
| EcInvalidSchema
| EcUnknownComponent
| EcUnsupportedCombination
| EcMissingReference
| EcContextNotActive
| EcComponentAlreadyLeased
| EcInternal.

#[export] Instance ErrorCode_eq_dec : EqDecision ErrorCode.
Proof. solve_decision. Defined.

Definition code_as_str (c : ErrorCode) : string :=
  match c with
  | EcPermissionDenied => "permission-denied"
  | EcStaleGeneration => "stale-generation"
  | EcResourceExhausted => "resource-exhausted"
  | EcOutcomeUnknown => "outcome-unknown"
  | EcInvalidMessage => "invalid-message"
  | EcInvalidSchema => "invalid-schema"
  | EcUnknownComponent => "unknown-component"
  | EcUnsupportedCombination => "unsupported-combination"
  | EcMissingReference => "missing-reference"
  | EcContextNotActive => "context-not-active"
  | EcComponentAlreadyLeased => "component-already-leased"
  | EcInternal => "internal"
  end.

Definition code_parse (s : string) : ErrorCode :=
  if bool_decide (s = "permission-denied") then EcPermissionDenied
  else if bool_decide (s = "stale-generation") then EcStaleGeneration
  else if bool_decide (s = "resource-exhausted") then EcResourceExhausted
  else if bool_decide (s = "outcome-unknown") then EcOutcomeUnknown
  else if bool_decide (s = "invalid-message") then EcInvalidMessage
  else if bool_decide (s = "invalid-schema") then EcInvalidSchema
  else if bool_decide (s = "unknown-component") then EcUnknownComponent
  else if bool_decide (s = "unsupported-combination") then EcUnsupportedCombination
  else if bool_decide (s = "missing-reference") then EcMissingReference
  else if bool_decide (s = "context-not-active") then EcContextNotActive
  else if bool_decide (s = "component-already-leased") then EcComponentAlreadyLeased
  else EcInternal.

Record Error : Type := mkError { er_code : ErrorCode; er_message : string }.

(** [From<String>]: the code is what stands before the first colon. *)
Definition error_from (s : string) : Error :=
  let head := of_chars (default [] (head (split_on ":"%char (chars s)))) in
  mkError (code_parse (trim head)) s.

(** [Display]. *)
Definition error_display (e : Error) : string := code_as_str (er_code e) +:+ ": " +:+ er_message e.

Record Diagnostic : Type := mkDiagnostic { dg_field : string; dg_code : ErrorCode; dg_message : string }.

(** ** Configuration *)

Record ComponentSpec : Type := mkComponentSpec {
  cs_manifest : Value;
  cs_sandbox : option Sandbox;
  cs_trusted : bool;
  cs_restart : option RestartPolicy;
}.

Record TlsSpec : Type := mkTlsSpec { tl_listen : string; tl_ca : string; tl_cert : string; tl_key : string }.

Record RemotePeerSpec : Type := mkRemotePeerSpec {
  rps_name : string;
  rps_address : string;
  rps_server_name : string;
  rps_ca : string;
  rps_cert : string;
  rps_key : string;
  rps_mgmt_address : string;
  rps_domain : string;
  rps_lease_ttl_ms : N;
}.

Record RemoteRouteSpec : Type := mkRemoteRouteSpec {
  rrs_consumer : string;
  rrs_provider : string;
  rrs_peer : string;
  rrs_capabilities : list string;
}.

Record RemotesSpec : Type := mkRemotesSpec {
  rs_authority : string;
  rs_domain : string;
  rs_peers : list RemotePeerSpec;
  rs_routes : list RemoteRouteSpec;
  rs_session_listen : option string;
  rs_session_ca : option string;
  rs_session_cert : option string;
  rs_session_key : option string;
}.

Record Config : Type := mkConfig {
  cf_home : string;
  cf_components : list ComponentSpec;
  cf_grants : gmap string Grant;
  cf_outbound_grants : gmap string (list string);
  cf_tls : option TlsSpec;
  cf_remotes : RemotesSpec;
}.

Definition set_cf_grants (g : gmap string Grant) (c : Config) : Config :=
  mkConfig (cf_home c) (cf_components c) g (cf_outbound_grants c) (cf_tls c) (cf_remotes c).

(** ** Validation

    [diag] when its condition holds. Maps are read in some order; the source leaves it open. *)

Definition diag_if (b : bool) (field : string) (code : ErrorCode) (message : string) : list Diagnostic :=
  if b then [mkDiagnostic field code message] else [].

Definition id_char (a : ascii) : bool :=
  is_ascii_alphanumeric a || bool_decide (a = "-"%char) || bool_decide (a = "_"%char).

(** [is_empty() || len() > max || !bytes().all(...)]. *)
Definition bad_name (max : N) (s : string) : bool :=
  str_is_empty s || (max <? str_len s)%N || negb (forallb id_char (chars s)).

Definition manifest_id (c : ComponentSpec) : option string := get_str "id" (cs_manifest c).

Definition satisfiable (c : Config) : gset string :=
  list_to_set (rrs_provider <$> rs_routes (cf_remotes c)) ∪ list_to_set (omap manifest_id (cf_components c)).

Definition at_index (what : string) (i : nat) : string := what +:+ "[" +:+ display (N.of_nat i) +:+ "]".

Definition requires_diags (sat : gset string) (base : string) (m : StoredManifest) : list Diagnostic :=
  concat ((λ r, match rq_provider r with
                | Some p => diag_if (negb (bool_decide (p ∈ sat))) (base +:+ ".manifest.requires") EcMissingReference
                              ("provider " +:+ p +:+ " is neither provisioned nor routed")
                | None => []
                end) <$> sm_requires m).

(** One turn of the loop over the components: the diagnostics and the ids seen. *)
Definition component_diags `{Env} (sat : gset string) (i : nat) (c : ComponentSpec) (ids : gset string)
    : list Diagnostic * gset string :=
  let base := at_index "components" i in
  match manifest_id c with
  | None => (diag_if true (base +:+ ".manifest.id") EcInvalidSchema "missing component id", ids)
  | Some id =>
      (diag_if (bad_name 128 id) (base +:+ ".manifest.id") EcInvalidSchema "id must be 1..128 of [A-Za-z0-9_-]"
       ++ diag_if (bool_decide (id ∈ ids)) (base +:+ ".manifest.id") EcInvalidSchema "duplicate component id"
       ++ diag_if (negb (is_some (cs_sandbox c)) && negb (cs_trusted c)) base EcUnsupportedCombination
            "select sandbox or explicitly trusted"
       ++ diag_if (bool_decide ((get "remote" (cs_manifest c) ≫= as_bool) = Some true)) (base +:+ ".manifest")
            EcUnsupportedCombination
            "remote-only definitions belong to remotes.routes[].capabilities, not components[]"
       ++ match parse_manifest_value (cs_manifest c) with
          | Ok m => requires_diags sat base m
          | Err e => diag_if true (base +:+ ".manifest") EcInvalidSchema (msg_display e)
          end,
       {[id]} ∪ ids)
  end.

Fixpoint components_diags `{Env} (sat : gset string) (i : nat) (cs : list ComponentSpec) (ids : gset string)
    : list Diagnostic * gset string :=
  match cs with
  | [] => ([], ids)
  | c :: cs =>
      let '(out, ids) := component_diags sat i c ids in
      let '(rest, ids) := components_diags sat (S i) cs ids in
      (out ++ rest, ids)
  end.

Definition grants_diags (known : gset string) (grants : gmap string Grant) : list Diagnostic :=
  concat ((λ pg : string * Grant,
    concat ((λ c, diag_if (negb (bool_decide (c ∈ known))) ("grants." +:+ pg.1) EcMissingReference
                    ("component " +:+ c +:+ " not provisioned")) <$> elements (g_components pg.2)))
    <$> map_to_list grants).

Definition outbound_diags (known : gset string) (out : gmap string (list string)) : list Diagnostic :=
  concat ((λ cc : string * list string,
    diag_if (negb (bool_decide (cc.1 ∈ known))) ("outbound_grants." +:+ cc.1) EcMissingReference
      "consumer not provisioned"
    ++ diag_if (bool_decide (cc.2 = [])) ("outbound_grants." +:+ cc.1) EcInvalidSchema
      "capability list must not be empty") <$> map_to_list out).

(** One turn of the loop over the peers: a name out of range is not inserted. *)
Definition peer_diags (i : nat) (p : RemotePeerSpec) (peers : gset string) : list Diagnostic * gset string :=
  let base := at_index "remotes.peers" i in
  let bad := str_is_empty (rps_name p) || (128 <? str_len (rps_name p))%N in
  (diag_if bad (base +:+ ".name") EcInvalidSchema "peer name must be 1..128"
   ++ diag_if (negb bad && bool_decide (rps_name p ∈ peers)) (base +:+ ".name") EcInvalidSchema "duplicate peer name"
   ++ diag_if (bad_name 64 (rps_domain p)) (base +:+ ".domain") EcInvalidSchema "domain must be 1..64 of [A-Za-z0-9_-]"
   ++ diag_if (negb (range_ttl (rps_lease_ttl_ms p))) (base +:+ ".lease_ttl_ms") EcInvalidSchema
        "lease ttl must be 100..30000 ms"
   ++ diag_if (str_is_empty (rps_server_name p)) (base +:+ ".server_name") EcMissingReference
        "server name required for mTLS",
   if bad then peers else {[rps_name p]} ∪ peers).

Fixpoint peers_diags (i : nat) (ps : list RemotePeerSpec) (peers : gset string) : list Diagnostic * gset string :=
  match ps with
  | [] => ([], peers)
  | p :: ps =>
      let '(out, peers) := peer_diags i p peers in
      let '(rest, peers) := peers_diags (S i) ps peers in
      (out ++ rest, peers)
  end.

Definition route_diags (known peers : gset string) (i : nat) (r : RemoteRouteSpec) : list Diagnostic :=
  let base := at_index "remotes.routes" i in
  diag_if (negb (bool_decide (rrs_peer r ∈ peers))) (base +:+ ".peer") EcMissingReference
    "peer not configured (fail closed)"
  ++ diag_if (negb (bool_decide (rrs_consumer r ∈ known))) (base +:+ ".consumer") EcMissingReference
    "consumer not provisioned"
  ++ diag_if (bool_decide (rrs_capabilities r = [])) (base +:+ ".capabilities") EcInvalidSchema
    "remote provider capabilities must be declared".

Definition session_flags (r : RemotesSpec) : list bool :=
  [is_some (rs_session_listen r); is_some (rs_session_ca r); is_some (rs_session_cert r);
   is_some (rs_session_key r)].

(** [Config::validate]. *)
Definition config_validate `{Env} (c : Config) : list Diagnostic :=
  let r := cf_remotes c in
  let '(components, known) := components_diags (satisfiable c) 0 (cf_components c) ∅ in
  let '(remotes, peers) := peers_diags 0 (rs_peers r) ∅ in
  diag_if (negb (is_absolute (cf_home c))) "home" EcInvalidSchema "home must be absolute"
  ++ components
  ++ grants_diags known (cf_grants c)
  ++ outbound_diags known (cf_outbound_grants c)
  ++ remotes
  ++ diag_if (negb (str_is_empty (rs_domain r)) && bad_name 64 (rs_domain r)) "remotes.domain" EcInvalidSchema
       "domain must be 1..64 of [A-Za-z0-9_-]"
  ++ concat (imap (route_diags known peers) (rs_routes r))
  ++ diag_if (existsb id (session_flags r) && existsb negb (session_flags r)) "remotes.session_*" EcInvalidSchema
       "session listener fields must be all present or all absent".

(** ** Reload, the pure parts *)

Record ReloadReport : Type := mkReloadReport {
  rr_grants_applied : bool;
  rr_outbound_applied : bool;
  rr_remotes_applied : bool;
  rr_revoked : list string;
  rr_errors : list string;
}.

Definition merge_applied_grants (old new : gmap string Grant) (grant_failed revoke_failed : gset string)
    : gmap string Grant :=
  let applied := foldl (λ applied pg,
    if bool_decide (pg.1 ∈ grant_failed) then
      match old !! pg.1 with Some g => <[pg.1 := g]> applied | None => applied end
    else <[pg.1 := pg.2]> applied) ∅ (map_to_list new) in
  foldl (λ applied pg,
    if negb (is_some (new !! pg.1)) && bool_decide (pg.1 ∈ revoke_failed) then <[pg.1 := pg.2]> applied
    else applied) applied (map_to_list old).

(** [json!] of the structs. *)
Definition sandbox_json (s : Sandbox) : Value :=
  obj [("workspace", JString (sb_workspace s)); ("read_only", j_strs (sb_read_only s));
       ("memory_bytes", j_u64 (sb_memory_bytes s)); ("cpu_seconds", j_u64 (sb_cpu_seconds s));
       ("file_bytes", j_u64 (sb_file_bytes s)); ("open_files", j_u64 (sb_open_files s))].

Definition restart_json (r : RestartPolicy) : Value :=
  obj [("max_restarts", j_u64 (N.of_nat (rp_max_restarts r))); ("window_ms", j_u64 (rp_window_ms r));
       ("backoff_ms", j_u64 (rp_backoff_ms r))].

Definition component_json (c : ComponentSpec) : Value :=
  obj [("manifest", cs_manifest c); ("sandbox", j_opt (sandbox_json <$> cs_sandbox c));
       ("trusted", JBool (cs_trusted c)); ("restart", j_opt (restart_json <$> cs_restart c))].

Definition tls_json (t : TlsSpec) : Value :=
  obj [("listen", JString (tl_listen t)); ("ca", JString (tl_ca t)); ("cert", JString (tl_cert t));
       ("key", JString (tl_key t))].

Definition session_fields (r : RemotesSpec) : list (option string) :=
  [rs_session_listen r; rs_session_ca r; rs_session_cert r; rs_session_key r].

Section canon.
Context (to_string : Value → string).

Definition canon_components (c : Config) : list string :=
  sort_strings ((λ c, to_string (component_json c)) <$> cf_components c).

Definition restart_diff (active new : Config) : list Diagnostic :=
  let ra := cf_remotes active in
  let rn := cf_remotes new in
  let canon_tls c := to_string (j_opt (tls_json <$> cf_tls c)) in
  let diag b field message := diag_if b field EcUnsupportedCombination message in
  diag (bool_decide (cf_home active ≠ cf_home new)) "home" "home changes require restart, not applied"
  ++ diag (bool_decide (canon_tls active ≠ canon_tls new)) "tls" "listener/TLS changes require restart, not applied"
  ++ diag (bool_decide (session_fields ra ≠ session_fields rn)) "remotes.session_*"
       "session listener changes require restart, not applied"
  ++ diag (bool_decide (rs_authority ra ≠ rs_authority rn) || bool_decide (rs_domain ra ≠ rs_domain rn))
       "remotes.authority/domain" "authority/domain changes require restart, not applied"
  ++ diag (bool_decide (canon_components active ≠ canon_components new)) "components"
       "component set or launch policy changes require restart (use provision/remove/activate), not applied".
End canon.

(** ** The runtime *)

(** A listener: its address, and whether it was stopped. *)
Inductive ServerGuard : Type :=
| SgUnary (address : string) (stop : bool)
| SgSession (address : string) (stop : bool).

Definition sg_shutdown (s : ServerGuard) : ServerGuard :=
  match s with SgUnary a _ => SgUnary a true | SgSession a _ => SgSession a true end.

(** [rt_ctl] has the host, and the route manager when [rt_managed]. *)
Record Rt : Type := mkRt {
  rt_svc : Svc;
  rt_ctl : Ctl;
  rt_managed : bool;
  rt_servers : list ServerGuard;
  rt_active : Config;
}.

Definition set_rt_svc (v : Svc) (x : Rt) : Rt := mkRt v (rt_ctl x) (rt_managed x) (rt_servers x) (rt_active x).
Definition set_rt_ctl (v : Ctl) (x : Rt) : Rt := mkRt (rt_svc x) v (rt_managed x) (rt_servers x) (rt_active x).
Definition set_rt_servers (v : list ServerGuard) (x : Rt) : Rt :=
  mkRt (rt_svc x) (rt_ctl x) (rt_managed x) v (rt_active x).
Definition set_rt_active (v : Config) (x : Rt) : Rt :=
  mkRt (rt_svc x) (rt_ctl x) (rt_managed x) (rt_servers x) v.

#[export] Instance rt_clock : Clock Rt := {
  clock x := clock (rt_svc x);
  advance n x := set_rt_svc (advance n (rt_svc x)) x;
}.

Notation rprog := (prog Rt).

(** The manager with the kernel of the service. *)
Definition ctl_of (x : Rt) : Ctl :=
  set_rm_host (set_ho_kernel (sv_kernel (rt_svc x)) (rm_host (rt_ctl x))) (rt_ctl x).

Definition on_svc {A} (f : Svc → A * Svc) (x : Rt) : A * Rt :=
  let '(a, s) := f (rt_svc x) in (a, set_rt_svc s x).

Definition on_ctl {A} (f : Ctl → A * Ctl) (x : Rt) : A * Rt :=
  let '(a, c) := f (ctl_of x) in
  (a, set_rt_ctl c (set_rt_svc (with_kernel (ho_kernel (rm_host c)) (rt_svc x)) x)).

Fixpoint slift {A} (p : sprog A) : rprog A :=
  match p with
  | Ret a => Ret a
  | Act f k => Act (on_svc f) (λ x, slift (k x))
  | Wait c u k => Wait (λ x, c (rt_svc x)) u (λ b, slift (k b))
  end.

Fixpoint clift {A} (p : cprog A) : rprog A :=
  match p with
  | Ret a => Ret a
  | Act f k => Act (on_ctl f) (λ x, clift (k x))
  | Wait c u k => Wait (λ x, c (ctl_of x)) u (λ b, clift (k b))
  end.

Definition read_host {A} (f : Host → A) : rprog A := read (λ x, f (rm_host (rt_ctl x))).

Definition sleep (dur : N) : rprog unit :=
  let! now := read clock in
  Wait (λ _, false) (now + dur) (λ _, Ret tt).

(** What the outside answers: [rw_attach] is [Host::attach_with_policy]; [rw_unary_config] and
    [rw_session_config] load certificates; [rw_bind] binds a listener and gives its address. *)
Record RWorld : Type := mkRWorld {
  rw_svc : World;
  rw_ctl : CWorld;
  rw_attach : HostPolicy → Kernel → result Host string;
  rw_locked : bool;
  rw_integrity : string;
  rw_boot : N;
  rw_journal : Journal;
  rw_unary_config : TlsSpec → result unit string;
  rw_session_config : string → string → string → result unit string;
  rw_bind : string → result string string;
}.

Definition peer_config (p : RemotePeerSpec) : PeerConfig :=
  mkPeerConfig (rps_name p) (rps_address p) (rps_server_name p) (rps_ca p) (rps_cert p) (rps_key p)
    (rps_mgmt_address p) (rps_domain p) (rps_lease_ttl_ms p).

Definition route_spec (r : RemoteRouteSpec) : RouteSpec :=
  mkRouteSpec (rrs_consumer r) (rrs_provider r) (rrs_peer r).

Definition route_manifest (r : RemoteRouteSpec) : Value :=
  obj [("id", JString (rrs_provider r)); ("capabilities", j_strs (rrs_capabilities r)); ("remote", JBool true)].

(** [manifest["id"].as_str().unwrap_or(other)]. *)
Definition id_or (other : string) (c : ComponentSpec) : string := default other (manifest_id c).

(** The policy of the host and the restart policies; an id that is there already is refused. *)
Fixpoint launch_policies (cs : list ComponentSpec) (policy : gmap string bool) (restart : gmap string RestartPolicy)
    : result (gmap string bool * gmap string RestartPolicy) Error :=
  match cs with
  | [] => Ok (policy, restart)
  | c :: cs =>
      let id := id_or "" c in
      if is_some (policy !! id) then Err (mkError EcInvalidSchema ("duplicate component: " +:+ id))
      else launch_policies cs (<[id := is_some (cs_sandbox c)]> policy)
             (match cs_restart c with Some p => <[id := p]> restart | None => restart end)
  end.

Definition invalid_config (ds : list Diagnostic) : Error :=
  mkError EcInvalidSchema
    ("invalid config: " +:+ join "; " ((λ d, dg_field d +:+ ": " +:+ dg_message d) <$> ds)).

Definition opt4 {A} (o : list (option A)) : option (A * A * A * A) :=
  match o with [Some a; Some b; Some c; Some d] => Some (a, b, c, d) | _ => None end.

Record ShutdownReport : Type := mkShutdownReport {
  sh_sessions_before : nat;
  sh_sessions_after : nat;
  sh_leases_before : nat;
  sh_leases_after : nat;
  sh_pending_calls_after : nat;
  sh_routes_active : nat;
}.

Record InspectOpts : Type := mkInspectOpts { io_max_calls : nat; io_max_leases : nat }.

Definition default_inspect_opts : InspectOpts := mkInspectOpts 128 128.

(** [take]: the first items, whether there are more, and how many there are. *)
Definition inspect_take (v : Value) (key : string) (max : nat) : list Value * bool * nat :=
  let arr := default [] (get_array key v) in
  (take max arr, max <? length arr, length arr).

Definition or_null (key : string) (v : Value) : Value := default JNull (get key v).

(** The snapshot of a raw report. *)
Definition inspect_view (opts : InspectOpts) (raw : Value) : Value :=
  let kernel := or_null "kernel" raw in
  let '(calls, calls_truncated, calls_total) := inspect_take kernel "calls" (io_max_calls opts) in
  let '(leases, leases_truncated, leases_total) := inspect_take raw "leases" (io_max_leases opts) in
  obj [("schema", JString INSPECT_SCHEMA); ("api", JString API_VERSION); ("epoch", or_null "epoch" raw);
       ("calls", JArray calls); ("calls_truncated", JBool calls_truncated);
       ("calls_total", j_u64 (N.of_nat calls_total));
       ("leases", JArray leases); ("leases_truncated", JBool leases_truncated);
       ("leases_total", j_u64 (N.of_nat leases_total));
       ("kernel", obj [("instances", or_null "instances" kernel); ("remotes", or_null "remotes" kernel)])].

(** [Kernel::instance_of]. *)
Definition instance_of (logical : string) (k : Kernel) : option N := cr_instance <$> current logical (k_contexts k).

Section runtime.
Context {E : Env} (to_string : Value → string) (from_str : string → result Value string) (w : RWorld).
Let sw : World := rw_svc w.

(** ** Start *)

(** [for c in &config.components { service.provision(&c.manifest)?; }]. *)
Fixpoint provision_all (cs : list ComponentSpec) (s : Svc) : result unit Error * Svc :=
  match cs with
  | [] => (Ok tt, s)
  | c :: cs =>
      match provision to_string sw (cs_manifest c) s with
      | (Ok _, s) => provision_all cs s
      | (Err e, s) =>
          (Err (mkError (code_parse e) ("provision " +:+ id_or "?" c +:+ ": " +:+ e)),
           Service.shutdown to_string sw s)
      end
  end.

Definition bind_unary (t : TlsSpec) : result ServerGuard Error :=
  let? _ := map_err error_from (rw_unary_config w t) in
  let? address := map_err error_from (rw_bind w (tl_listen t)) in
  Ok (SgUnary address false).

Definition bind_session_server (f : string * string * string * string) : result ServerGuard Error :=
  let '(listen, ca, cert, key) := f in
  let? _ := map_err error_from (rw_session_config w ca cert key) in
  let? address := map_err error_from (rw_bind w listen) in
  Ok (SgSession address false).

(** The listeners, and the taps of the host that the session listener sets. *)
Definition bind_servers (c : Config) (h : Host) : result (list ServerGuard * Host) Error :=
  let? unary := match cf_tls c with
                | Some t => let? s := bind_unary t in Ok [s]
                | None => Ok []
                end in
  match opt4 (session_fields (cf_remotes c)) with
  | Some f => let? s := bind_session_server f in Ok (unary ++ [s], set_ho_taps (true, true) h)
  | None => Ok (unary, h)
  end.

Definition no_remotes (c : Config) : bool :=
  bool_decide (length (rs_peers (cf_remotes c)) = 0) && bool_decide (length (rs_routes (cf_remotes c)) = 0).

(** A failure leaves the database: the service is shut down, by the code or when it is dropped. *)
Definition boot (c : Config) (d : Db) : result Rt (Error * Db) :=
  match config_validate c with
  | _ :: _ as ds => Err (invalid_config ds, d)
  | [] =>
      match launch_policies (cf_components c) ∅ ∅ with
      | Err e => Err (e, d)
      | Ok (components, restart) =>
          let policy := mkHostPolicy components true true (rs_domain (cf_remotes c)) in
          let k := kernel_new (rw_boot w) (rw_journal w) false in
          match service_open sw true (rw_locked w) (rw_integrity w) (cf_home c) (rw_boot w) (rw_journal w)
                  (λ k, let? h := rw_attach w policy k in Ok (ho_kernel h)) (dom components) (cf_grants c) restart d,
                rw_attach w policy k with
          | (Err e, d), _ => Err (error_from e, d)
          | (Ok _, d), Err e => Err (error_from e, d)
          | (Ok s, _), Ok h =>
              let s := sync_outbound_grants (cf_outbound_grants c) s in
              match provision_all (cf_components c) s with
              | (Err e, s) => Err (e, sv_db s)
              | (Ok _, s) =>
                  match bind_servers c h with
                  | Err e => Err (e, sv_db (Service.shutdown to_string sw s))
                  | Ok (servers, h) =>
                      Ok (mkRt s (manager_new h (sv_epoch s) (rs_authority (cf_remotes c)))
                            (negb (no_remotes c)) servers c)
                  end
              end
          end
      end
  end.

(** The remote definitions of the routes, then the manager. *)
Definition sync_routes (r : RemotesSpec) : rprog unit :=
  do! Prog.for_each (rs_routes r) (λ r,
        do! act (on_svc (provision_remote (route_manifest r))); Ret tt);
  clift (sync (rw_ctl w) (peer_config <$> rs_peers r) (route_spec <$> rs_routes r)).

Definition runtime_start (c : Config) (d : Db) : result Rt (Error * Db) :=
  let? x := boot c d in
  if rt_managed x then Ok (run (sync_routes (cf_remotes c)) x).2 else Ok x.

(** ** Methods that hand over to the service *)

Definition facade {A} (p : rprog (result A string)) : rprog (result A Error) :=
  let! r := p in Ret (map_err error_from r).

Definition runtime_activate (principal logical : string) (ttl_ms : N) : rprog (result Value Error) :=
  facade (act (on_svc (activate to_string from_str sw principal logical ttl_ms))).

Definition runtime_invoke (principal token : string) (fence : N) (operation cap : string) (input : Value)
    : rprog (result Value Error) :=
  facade (slift (Service.invoke to_string from_str sw principal token fence operation cap input)).

Definition runtime_release (principal token : string) (fence : N) : rprog (result Value Error) :=
  facade (act (on_svc (release_lease to_string sw principal token fence))).

Definition runtime_grant (principal : string) (g : Grant) : rprog (result unit Error) :=
  facade (act (on_svc (grant sw principal g))).

Definition runtime_revoke (principal : string) : rprog (result unit Error) :=
  facade (act (on_svc (revoke to_string sw principal))).

Definition runtime_sync_outbound (want : gmap string (list string)) : rprog unit :=
  modify (λ x, set_rt_svc (sync_outbound_grants want (rt_svc x)) x).

Definition runtime_provision (manifest : Value) : rprog (result unit Error) :=
  facade (act (on_svc (provision to_string sw manifest))).

(** [remove] and [broadcast]. *)
Definition runtime_remove (logical : string) : rprog (result string Error) :=
  let! out := slift (lift (dispose_plugin logical)) in
  Ret (Ok (match out with
           | OutDisposed => "Disposed"
           | OutAlreadyDisposed => "AlreadyDisposed"
           | OutCleanupPending reason => "CleanupPending: " +:+ reason
           end)).

Definition runtime_broadcast (topic : string) (payload : Value) : rprog N :=
  slift (lift (emit topic payload)).

(** ** Reload *)

(** Which revocations went through, which failed, and the errors. *)
Definition revoke_dropped (acc : list string * gset string * list string) (principal : string)
    : rprog (list string * gset string * list string) :=
  let '(revoked, failed, errors) := acc in
  let! r := act (on_svc (revoke to_string sw principal)) in
  Ret (match r with
       | Ok _ => (revoked ++ [principal], failed, errors)
       | Err e => (revoked, {[principal]} ∪ failed, errors ++ ["revoke " +:+ principal +:+ ": " +:+ e])
       end).

Definition grant_new (acc : gset string * list string) (pg : string * Grant) : rprog (gset string * list string) :=
  let '(failed, errors) := acc in
  let! r := act (on_svc (grant sw pg.1 pg.2)) in
  Ret (match r with
       | Ok _ => (failed, errors)
       | Err e => ({[pg.1]} ∪ failed, errors ++ ["grants." +:+ pg.1 +:+ ": " +:+ e])
       end).

Definition reload_remotes (new : Config) : rprog (bool * list string) :=
  let! managed := read rt_managed in
  if managed then do! sync_routes (cf_remotes new); Ret (true, [])
  else if negb (no_remotes new) then
    Ret (false, ["remotes: routes require restart (manager starts at boot only)"])
  else Ret (true, []).

(** After validation. *)
Definition reload_apply (new : Config) : rprog ReloadReport :=
  let! dropped := read (λ x, List.filter (λ p, negb (is_some (cf_grants new !! p))) (keys (cf_grants (rt_active x)))) in
  let! r := for_fold dropped ([], ∅, []) revoke_dropped in
  let '(revoked, revoke_failed, errors) := r in
  let! g := for_fold (map_to_list (cf_grants new)) (∅, errors) grant_new in
  let '(grant_failed, errors) := g in
  do! runtime_sync_outbound (cf_outbound_grants new);
  let! m := reload_remotes new in
  let! old := read (λ x, cf_grants (rt_active x)) in
  do! modify (set_rt_active (set_cf_grants (merge_applied_grants old (cf_grants new) grant_failed revoke_failed) new));
  Ret (mkReloadReport (bool_decide (grant_failed = ∅) && bool_decide (revoke_failed = ∅)) true m.1 revoked
         (errors ++ m.2)).

Definition runtime_reload (new : Config) : rprog (result ReloadReport (list Diagnostic)) :=
  let! diags := read (λ x, config_validate new ++ restart_diff to_string (rt_active x) new) in
  match diags with
  | _ :: _ => Ret (Err diags)
  | [] => let! r := reload_apply new in Ret (Ok r)
  end.

(** ** Inspection, waiting and shutdown *)

Definition service_inspect : rprog Value :=
  let! kernel := slift (lift inventory) in
  read (λ x, obj [("epoch", JString (display (sv_epoch (rt_svc x)))); ("kernel", kernel);
                  ("leases", inspect_leases (rt_svc x))]).

Definition runtime_inspect (opts : InspectOpts) : rprog Value :=
  let! raw := service_inspect in Ret (inspect_view opts raw).

Definition unary_addr (x : Rt) : option string :=
  head (omap (λ s, match s with SgUnary a _ => Some a | _ => None end) (rt_servers x)).
Definition session_addr (x : Rt) : option string :=
  head (omap (λ s, match s with SgSession a _ => Some a | _ => None end) (rt_servers x)).

Definition session_round (logical : string) (t0 timeout : N) : rprog (option (result unit Error)) :=
  let! inst := read (λ x, instance_of logical (sv_kernel (rt_svc x))) in
  let! served := match inst with
                 | Some i => read_host (has_session logical i)
                 | None => Ret false
                 end in
  if served then Ret (Some (Ok tt))
  else
    let! now := read clock in
    if (timeout <=? now - t0)%N then
      Ret (Some (Err (mkError EcOutcomeUnknown ("no session for " +:+ logical))))
    else do! sleep 20; Ret None.

Definition wait_session (logical : string) (timeout : N) : rprog (option (result unit Error)) :=
  let! t0 := read clock in
  poll (rounds timeout 20) (session_round logical t0 timeout).

(** One turn of the wait for the sessions to end: [Some] when it is over. *)
Definition settle_round (t0 : N) : rprog (option unit) :=
  let! n := read_host session_count in
  let! now := read clock in
  if (0 <? n) && (now - t0 <? 2000)%N then do! sleep 10; Ret None else Ret (Some tt).

Definition active_peers (x : Rt) : nat :=
  if rt_managed x then default 0 (length <$> get_array "peers" (manager_inspect (ctl_of x))) else 0.

Definition runtime_shutdown : rprog (option ShutdownReport) :=
  let! sessions_before := read_host session_count in
  let! leases_before := read (λ x, live_lease_count (rt_svc x)) in
  let! managed := read rt_managed in
  do! (if managed then clift (manager_shutdown (rw_ctl w)) else Ret tt);
  do! modify (λ x, set_rt_servers (sg_shutdown <$> rt_servers x) x);
  do! modify (λ x, set_rt_svc (Service.shutdown to_string sw (rt_svc x)) x);
  do! clift (hlift (HostCalls.shutdown (cw_host (rw_ctl w))));
  let! t0 := read clock in
  let! settled := poll (rounds 2000 10) (settle_round t0) in
  match settled with
  | None => Ret None
  | Some _ =>
      let! sessions_after := read_host session_count in
      let! leases_after := read (λ x, live_lease_count (rt_svc x)) in
      let! pending := slift (lift pending_calls) in
      let! routes := read active_peers in
      Ret (Some (mkShutdownReport sessions_before sessions_after leases_before leases_after (length pending) routes))
  end.
End runtime.

(** ** Copies of stores

    A disk: the store images by path, the answers of [integrity_check], the locks that runtimes
    hold, and the other files. *)
Record Disk : Type := mkDisk {
  dk_images : gmap string Db;
  dk_integrity : string → string;
  dk_held : gset string;
  dk_files : gset string;
}.

Definition set_dk_images (v : gmap string Db) (k : Disk) : Disk :=
  mkDisk v (dk_integrity k) (dk_held k) (dk_files k).
Definition set_dk_files (v : gset string) (k : Disk) : Disk :=
  mkDisk (dk_images k) (dk_integrity k) (dk_held k) v.

(** [Path::with_extension("lock")] of a file name, and of a path. *)
Definition lock_name (name : list ascii) : list ascii :=
  match rsplit_at "."%char name with
  | Some ((_ :: _) as stem, _) => stem
  | _ => name
  end ++ chars ".lock".

Definition lock_path (path : string) : string :=
  match rsplit_at "/"%char (chars path) with
  | Some (dir, name) => of_chars (dir ++ "/"%char :: lock_name name)
  | None => of_chars (lock_name (chars path))
  end.

Definition open_read_only (path : string) (k : Disk) : result Db string :=
  let d := default empty_db (dk_images k !! path) in
  let? _ := offline_open (is_some (dk_images k !! path)) (bool_decide (lock_path path ∈ dk_held k))
              (dk_integrity k path) d in
  Ok d.

(** A failure of a copy, and the image it leaves behind, if the file was made. *)
Definition CopyFault : Type := option (string * option Db).

(** [snapshot_connection]: [create_new], then the copy. *)
Definition snapshot_connection (fault : CopyFault) (d : Db) (path : string) (k : Disk) : result unit string * Disk :=
  if is_some (dk_images k !! path) || bool_decide (path ∈ dk_files k) then (Err "File exists (os error 17)", k)
  else
    match fault with
    | None => (Ok tt, set_dk_images (<[path := d]> (dk_images k)) k)
    | Some (e, None) => (Err e, k)
    | Some (e, Some part) => (Err e, set_dk_images (<[path := part]> (dk_images k)) k)
    end.

Definition store_path (home : string) : string := home +:+ "/state/runtime.sqlite".

Definition backup_offline (fault : CopyFault) (home dest : string) (k : Disk) : result unit Error * Disk :=
  match open_read_only (store_path home) k with
  | Err e => (Err (error_from e), k)
  | Ok d => let '(r, k) := snapshot_connection fault d dest k in (map_err error_from r, k)
  end.

(** [fault_dir]: the failure of [create_dir_all]. *)
Definition restore_backup (fault_dir : option string) (fault : CopyFault) (backup home : string) (k : Disk)
    : result unit Error * Disk :=
  match open_read_only backup k with
  | Err e => (Err (error_from e), k)
  | Ok d =>
      let dest := store_path home in
      if is_some (dk_images k !! dest) || bool_decide (dest ∈ dk_files k) then
        (Err (mkError EcUnsupportedCombination "destination store exists; remove it explicitly first"), k)
      else
        let k := set_dk_files (dk_files k ∖ {[ dest +:+ "-lock" ]}) k in
        match fault_dir with
        | Some e => (Err (mkError EcInternal e), k)
        | None => let '(r, k) := snapshot_connection fault d dest k in (map_err error_from r, k)
        end
  end.

(** [Runtime::snapshot_backup]: a copy through the live handle. *)
Definition snapshot_backup (fault : CopyFault) (x : Rt) (dest : string) (k : Disk) : result unit Error * Disk :=
  let '(r, k) := snapshot_connection fault (sv_db (rt_svc x)) dest k in (map_err error_from r, k).

(** [Store::open] of the image at a path; a missing file is made, empty. *)
Definition open_store (fault : option string) (path : string) (k : Disk) : result N string * Disk :=
  let locked := bool_decide (lock_path path ∈ dk_held k) in
  let '(r, d) := store_open fault locked (dk_integrity k path) (default empty_db (dk_images k !! path)) in
  (r, if locked then k else set_dk_images (<[path := d]> (dk_images k)) k).
