(* ===== verification/ApiProps.v ===== *)
(** * The facade of the runtime: what start, reload, inspection, shutdown and restore guarantee *)

From S2P Require Import Prelude RustStd Json Identity Contexts Resources Deps Calls Journal Manifest Prog Timed.
From S2P Require Import KernelState KernelCalls KernelLifecycle KernelDispatch KernelActions KernelDemo Inventory.
From S2P Require Import Dependency Remote Guard Store Service ServiceProps Session HostState HostCalls HostStreams HostDemo.
From S2P Require Import Controller ControllerDemo Api.
From Stdlib Require Import Ascii.

(** ** Errors *)

Lemma split_on_head c l r : c ∉ l → head (split_on c (l ++ c :: r)) = Some l.
Proof.
  induction l as [|a l IH]; cbn; intros N; [by rewrite bool_decide_eq_true_2|].
  rewrite bool_decide_eq_false_2 by set_solver. specialize (IH ltac:(set_solver)).
  destruct (split_on c _) as [|x xs]; [done|]. by injection IH as ->.
Qed.

Lemma code_parse_as_str c : code_parse (code_as_str c) = c.
Proof. by destruct c. Qed.

Lemma code_plain c : ":"%char ∉ chars (code_as_str c) ∧ trim (code_as_str c) = code_as_str c.
Proof.
  assert (D : bool_decide (":"%char ∉ chars (code_as_str c)) = true) by by destruct c; vm_compute.
  split; [by apply bool_decide_eq_true in D|]. by destruct c; vm_compute.
Qed.

(** The code of a printed error is found again. *)
Lemma error_roundtrip e : error_from (error_display e) = mkError (er_code e) (error_display e).
Proof.
  unfold error_from. f_equal. destruct (code_plain (er_code e)) as [N T].
  assert (S : chars (error_display e) = chars (code_as_str (er_code e)) ++ ":"%char :: chars (" " +:+ er_message e)).
  { unfold error_display. by rewrite chars_app. }
  rewrite S, split_on_head by done. cbn [default from_option Datatypes.id]. by rewrite of_chars_chars, T, code_parse_as_str.
Qed.

(** ** Validated configurations *)

Lemma diag_if_nil b f c m : diag_if b f c m = [] → b = false.
Proof. by destruct b. Qed.

Section valid.
Context {E : Env}.

(** What validation checks of one component. *)
Record component_ok (id : string) (c : ComponentSpec) : Prop := {
  co_id : manifest_id c = Some id;
  co_name : bad_name 128 id = false;
  co_local : (get "remote" (cs_manifest c) ≫= as_bool) ≠ Some true;
  co_parsed : ∃ m, parse_manifest_value (cs_manifest c) = Ok m;
}.

Lemma component_clean sat i c ids ids' :
  component_diags sat i c ids = ([], ids') →
  ∃ id, component_ok id c ∧ id ∉ ids ∧ ids' = {[id]} ∪ ids.
Proof.
  unfold component_diags. destruct (manifest_id c) as [id|] eqn:M; [|done]. intros [= H <-].
  repeat (apply app_nil in H as [?%diag_if_nil H]). exists id. split; [|by nbool].
  split; [done..| |]; [by nbool|]. destruct (parse_manifest_value (cs_manifest c)) as [m|e]; [by eexists|done].
Qed.

Lemma components_clean sat i cs ids ids' :
  components_diags sat i cs ids = ([], ids') →
  ∃ names, Forall2 component_ok names cs ∧ NoDup names ∧ (∀ id, id ∈ names → id ∉ ids).
Proof.
  revert i ids. induction cs as [|c cs IH]; intros i ids; cbn.
  { intros _. exists []. split_and!; [constructor..|set_solver]. }
  destruct (component_diags sat i c ids) as [out ids1] eqn:C.
  destruct (components_diags sat (S i) cs ids1) as [out2 ids2] eqn:D. intros [= H <-].
  apply app_nil in H as [-> ->]. apply component_clean in C as (id & O & N & ->).
  apply IH in D as (names & F & ND & X). exists (id :: names). split_and!.
  - by constructor.
  - constructor; [|done]. intros I%X. set_solver.
  - intros id' [->|I]%elem_of_cons; [done|]. apply X in I. set_solver.
Qed.

(** The names of a clean configuration. *)
Lemma validate_components c : config_validate c = [] → ∃ names, Forall2 component_ok names (cf_components c) ∧ NoDup names.
Proof.
  unfold config_validate. destruct (components_diags _ _ _ _) as [out ids] eqn:C.
  destruct (peers_diags _ _ _). intros H. apply app_nil in H as [_ H]. apply app_nil in H as [-> _].
  apply components_clean in C as (names & F & ND & _). eauto.
Qed.

Lemma launch_policies_ok names cs policy restart :
  Forall2 component_ok names cs → NoDup names → (∀ id, id ∈ names → id ∉ dom policy) →
  ∃ r, launch_policies cs policy restart = Ok r ∧ dom r.1 = list_to_set names ∪ dom policy.
Proof.
  intros F. revert policy restart. induction F as [|id c names cs O F IH]; intros policy restart ND X; cbn.
  { eexists. split; [done|]. set_solver. }
  apply NoDup_cons in ND as [N ND]. unfold id_or. rewrite (co_id _ _ O). cbn.
  destruct (policy !! id) eqn:P; cbn.
  { destruct (X id); [left|]. by apply elem_of_dom_2 in P. }
  edestruct (IH (<[id := is_some (cs_sandbox c)]> policy)) as (r & -> & D); [done| |].
  - intros id' I. specialize (X id' ltac:(by right)). set_solver.
  - exists r. split; [done|]. rewrite D, dom_insert_L. set_solver.
Qed.

Lemma parse_remote v m : parse_manifest_value v = Ok m → sm_remote m = default false (get "remote" v ≫= as_bool).
Proof.
  unfold parse_manifest_value. intros H. repeat (case_match; try done). by simplify_eq.
Qed.

Lemma valid_id_name id : bad_name 128 id = false → valid_id id = true.
Proof.
  unfold bad_name, valid_id. intros H. apply orb_false_iff in H as [[A B]%orb_false_iff C].
  rewrite A, B. apply negb_false_iff in C. exact C.
Qed.
End valid.

(** ** A validated configuration starts *)

Section start.
Context {E : Env} (to_string : Value → string) (w : RWorld).

(** The store takes manifests up to its limit; validation does not look at their size. *)
Definition fits_store (c : ComponentSpec) : Prop := (str_len (to_string (cs_manifest c)) ≤ MAX_BODY)%N.

(** The outside lets a configuration start on a database. *)
Record outside_ok (c : Config) (d : Db) : Prop := {
  oo_lock : rw_locked w = false;
  oo_integrity : rw_integrity w = "ok";
  oo_version : (db_version d ≤ 1)%N;
  oo_epoch : (default 0 (db_epoch d) < i64_max)%N;
  oo_open : w_db (rw_svc w) "open" (cf_home c) = None;
  oo_desired id : w_db (rw_svc w) "set_desired" id = None;
  oo_attach p k : is_ok (rw_attach w p k) = true;
  oo_unary t : is_ok (rw_unary_config w t) = true;
  oo_session a b k : is_ok (rw_session_config w a b k) = true;
  oo_bind a : is_ok (rw_bind w a) = true;
}.

Lemma provision_valid id c s :
  component_ok id c → id ∈ sv_allowed s →
  provision to_string (rw_svc w) (cs_manifest c) s =
  on_db (set_desired to_string (w_db (rw_svc w) "set_desired" id) id (cs_manifest c)) s.
Proof.
  intros [I Nm L (m & P)] A. unfold provision, body_id. unfold manifest_id in I. rewrite I. cbn.
  rewrite (valid_id_name _ Nm), P. cbn. rewrite (bool_decide_eq_true_2 _ A), andb_false_r.
  rewrite (parse_remote _ _ P). destruct (get "remote" (cs_manifest c) ≫= as_bool) as [[]|] eqn:R; cbn; [|done..].
  by destruct L.
Qed.

(** The manifests as rows. *)
Definition desired_rows (names : list string) (cs : list ComponentSpec) (t : gmap string string) : gmap string string :=
  foldl (λ t nc, <[nc.1 := to_string (cs_manifest nc.2)]> t) t (zip names cs).

Lemma provision_all_valid names cs s :
  Forall2 component_ok names cs → (∀ id, id ∈ names → id ∈ sv_allowed s) →
  (∀ id, w_db (rw_svc w) "set_desired" id = None) →
  Forall fits_store cs → ∀ rest,
  provision_all to_string w (cs ++ rest) s =
  provision_all to_string w rest
    (with_db (set_desired_table (desired_rows names cs (db_desired (sv_db s))) (sv_db s)) s).
Proof.
  intros F. revert s. induction F as [|id c names cs O F IH]; intros s A D B rest; cbn.
  { by destruct s as [? []]. }
  apply Forall_cons in B as [B1 B]. unfold fits_store in B1.
  rewrite (provision_valid id c) by (try done; apply A; left). unfold on_db, set_desired.
  rewrite (proj2 (N.ltb_ge _ _)) by done. rewrite D. cbn.
  rewrite IH; [done| |done|done]. intros id' I. apply A. by right.
Qed.

(** A manifest beyond the limit stops the start. *)
Lemma provision_oversized id c rest s :
  component_ok id c → id ∈ sv_allowed s → ¬ fits_store c → sv_leases s = ∅ →
  ∃ s', provision_all to_string w (c :: rest) s =
    (Err (mkError EcResourceExhausted ("provision " +:+ id +:+ ": resource-exhausted")), s') ∧ sv_db s' = sv_db s.
Proof.
  intros O A B L. unfold fits_store in B. cbn [provision_all]. rewrite (provision_valid id c) by done. unfold on_db, set_desired.
  rewrite (proj2 (N.ltb_lt _ _)) by lia. unfold id_or. rewrite (co_id _ _ O). eexists. split; [done|].
  unfold Service.shutdown, tokens_where. cbn. rewrite L. cbn. done.
Qed.

Lemma desired_rows_lookup names cs t id c i :
  NoDup names → names !! i = Some id → cs !! i = Some c →
  desired_rows names cs t !! id = Some (to_string (cs_manifest c)).
Proof.
  revert cs t i. induction names as [|n names IH]; intros cs t i ND N C; [done|].
  apply NoDup_cons in ND as [X ND]. destruct cs as [|c0 cs]; [done|]. unfold desired_rows. cbn.
  destruct i as [|i]; cbn in *; [|by eapply IH].
  injection N as ->. injection C as ->. fold (desired_rows names cs (<[id := to_string (cs_manifest c)]> t)).
  revert X. generalize (<[id := to_string (cs_manifest c)]> t), (lookup_insert_eq t id (to_string (cs_manifest c))).
  clear -E. revert cs. induction names as [|n names IH]; intros cs t' L X; [done|]. destruct cs as [|c' cs]; [done|].
  unfold desired_rows. cbn. apply IH; [|set_solver]. rewrite lookup_insert_ne by set_solver. done.
Qed.
End start.

(** ** Authority

    The grant of a principal that is in force. *)
Definition live (x : Rt) (p : string) : option Grant :=
  if bool_decide (p ∈ sv_revoked (rt_svc x)) then None else sv_grants (rt_svc x) !! p.

(** The baseline of the next reload has every grant in force. *)
Definition mirrored (x : Rt) : Prop := ∀ p g, live x p = Some g → cf_grants (rt_active x) !! p = Some g.

(** Steps that leave authority and the baseline alone. *)
Definition same_auth (x y : Rt) : Prop :=
  sv_grants (rt_svc y) = sv_grants (rt_svc x) ∧ sv_revoked (rt_svc y) = sv_revoked (rt_svc x) ∧
  rt_active y = rt_active x ∧ sv_db (rt_svc y) = sv_db (rt_svc x).

#[export] Instance same_auth_refl : Reflexive same_auth.
Proof. by intros x. Qed.
#[export] Instance same_auth_trans : Transitive same_auth.
Proof. intros x y z (A & B & C & D) (A' & B' & C' & D'). split_and!; congruence. Qed.

Lemma same_auth_live x y p : same_auth x y → live y p = live x p.
Proof. intros (G & R & _). unfold live. by rewrite G, R. Qed.

Lemma clift_auth {A} (p : cprog A) : always same_auth (clift p).
Proof.
  induction p as [a|X f k IH|c u k IH]; cbn; [done|split; [|done]..]; intros x; [|done].
  unfold on_ctl. by destruct (f _).
Qed.

Lemma provision_remote_auth `{Env} v x : same_auth x (on_svc (provision_remote v) x).2.
Proof.
  unfold on_svc, provision_remote. destruct (_ : result _ _) as [m|e]; [|done]. unfold on_kernel.
  by destruct (run _ _).
Qed.

Lemma sync_outbound_frame `{Env} want s :
  sv_grants (sync_outbound_grants want s) = sv_grants s ∧ sv_revoked (sync_outbound_grants want s) = sv_revoked s ∧
  sv_db (sync_outbound_grants want s) = sv_db s ∧ sv_allowed (sync_outbound_grants want s) = sv_allowed s ∧
  sv_leases (sync_outbound_grants want s) = sv_leases s.
Proof.
  assert (G : ∀ A (f : string → string → kprog A) l s,
    let s' := foldl (λ s cc, (on_kernel (f cc.1 cc.2) s).2) s l in
    sv_grants s' = sv_grants s ∧ sv_revoked s' = sv_revoked s ∧ sv_db s' = sv_db s ∧ sv_allowed s' = sv_allowed s ∧
    sv_leases s' = sv_leases s).
  { intros A f l. induction l as [|cc l IH]; intros s1; cbn; [done|].
    destruct (IH (on_kernel (f cc.1 cc.2) s1).2) as (-> & -> & -> & -> & ->). unfold on_kernel. by destruct (run _ _). }
  unfold sync_outbound_grants. cbv zeta. cbn.
  match goal with |- context [foldl ?f (foldl ?g s ?l1) ?l2] =>
    destruct (G _ revoke_outbound l1 s) as (A1 & A2 & A3 & A4 & A5);
    destruct (G _ grant_outbound l2 (foldl g s l1)) as (B1 & B2 & B3 & B4 & B5) end.
  rewrite B1, B2, B3, B4, B5. done.
Qed.

(** A loop that writes at most the key it is at. *)
Lemma fold_at_key {V} (step : gmap string V → string * V → gmap string V) (f : string → V → option V) l m p :
  (∀ m kv, step m kv = match f kv.1 kv.2 with Some v => <[kv.1 := v]> m | None => m end) → NoDup l.*1 →
  foldl step m l !! p =
  match list_to_map (M := gmap string V) l !! p ≫= f p with Some v => Some v | None => m !! p end.
Proof.
  intros S. revert m. induction l as [|[k v] l IH]; intros m ND; cbn; [done|]. apply NoDup_cons in ND as [N ND].
  rewrite IH, S by done. cbn. destruct (decide (p = k)) as [->|P].
  - rewrite lookup_insert_eq, not_elem_of_list_to_map_1 by done. cbn. destruct (f k v); [|done].
    by rewrite lookup_insert_eq.
  - rewrite lookup_insert_ne by done. destruct (_ ≫= _); [done|]. destruct (f k v); [|done].
    by rewrite lookup_insert_ne.
Qed.

Lemma merge_lookup old new gf rf p :
  merge_applied_grants old new gf rf !! p =
  match new !! p with
  | Some g => if bool_decide (p ∈ gf) then old !! p else Some g
  | None => if bool_decide (p ∈ rf) then old !! p else None
  end.
Proof.
  unfold merge_applied_grants.
  rewrite (fold_at_key _ (λ k v, if negb (is_some (new !! k)) && bool_decide (k ∈ rf) then Some v else None));
    [|by intros m [k v]; cbn; destruct (_ && _)|apply NoDup_fst_map_to_list].
  rewrite (fold_at_key _ (λ k v, if bool_decide (k ∈ gf) then old !! k else Some v));
    [|by intros m [k v]; cbn; destruct (bool_decide _)|apply NoDup_fst_map_to_list].
  rewrite !list_to_map_to_list, lookup_empty.
  destruct (new !! p) as [g|]; cbn; destruct (old !! p); cbn; repeat case_bool_decide; done.
Qed.

Section authority.
Context {E : Env} (to_string : Value → string) (w : RWorld).

Lemma sync_routes_auth r : always same_auth (sync_routes w r).
Proof.
  unfold sync_routes. apply always_bind; [|intros _; apply clift_auth]. apply always_for_each. intros y _.
  apply always_bind; [|done]. apply always_one. intros x. apply provision_remote_auth.
Qed.

Lemma reload_remotes_auth new : always same_auth (reload_remotes w new).
Proof.
  unfold reload_remotes. apply always_bind; [by apply always_read; apply _|]. intros [|].
  - apply always_bind; [apply sync_routes_auth|done].
  - by destruct (negb _).
Qed.

(** Whether the database refuses a change of a principal's revocation. *)
Definition refused (p : string) : bool := is_some (w_db (rw_svc w) "set_revoked" p).

Lemma revoke_step p x :
  let r := on_svc (revoke to_string (rw_svc w) p) x in
  is_ok r.1 = negb (refused p) ∧ sv_grants (rt_svc r.2) = sv_grants (rt_svc x) ∧
  sv_revoked (rt_svc r.2) = {[p]} ∪ sv_revoked (rt_svc x) ∧ rt_active r.2 = rt_active x.
Proof.
  unfold on_svc. destruct (revoke_spec to_string (rw_svc w) p (rt_svc x)) as (R & _ & _ & G & _).
  assert (O : is_ok (revoke to_string (rw_svc w) p (rt_svc x)).1 = negb (refused p)).
  { unfold revoke, on_db, set_revoked, refused. by destruct (w_db (rw_svc w) "set_revoked" p). }
  destruct (revoke to_string (rw_svc w) p (rt_svc x)). done.
Qed.

Lemma revoke_dropped_step acc p x :
  let r := run (revoke_dropped to_string w acc p) x in
  sv_grants (rt_svc r.2) = sv_grants (rt_svc x) ∧
  sv_revoked (rt_svc r.2) = {[p]} ∪ sv_revoked (rt_svc x) ∧ rt_active r.2 = rt_active x ∧
  (∀ q, q ∈ r.1.1.2 ↔ q ∈ acc.1.2 ∨ q = p ∧ refused p = true) ∧
  r.1.1.1 = acc.1.1 ++ (if refused p then [] else [p]).
Proof.
  destruct acc as [[a b] c]. unfold revoke_dropped. rewrite run_bind, run_act.
  destruct (revoke_step p x) as (O & G & R & A).
  destruct (on_svc (revoke to_string (rw_svc w) p) x) as [[u|e] y]; cbn [fst snd is_ok] in *;
    rewrite run_ret; cbn [fst snd]; destruct (refused p); try done; split_and!; try done; try set_solver.
  by rewrite app_nil_r.
Qed.

Lemma revoke_fold ps acc x :
  let r := run (for_fold ps acc (revoke_dropped to_string w)) x in
  sv_grants (rt_svc r.2) = sv_grants (rt_svc x) ∧
  sv_revoked (rt_svc r.2) = list_to_set ps ∪ sv_revoked (rt_svc x) ∧ rt_active r.2 = rt_active x ∧
  (∀ p, p ∈ r.1.1.2 ↔ p ∈ acc.1.2 ∨ p ∈ ps ∧ refused p = true) ∧
  r.1.1.1 = acc.1.1 ++ List.filter (λ p, negb (refused p)) ps.
Proof.
  revert acc x. induction ps as [|p ps IH]; intros acc x; cbn [for_fold].
  { rewrite run_ret, app_nil_r. split_and!; try done; set_solver. }
  rewrite run_bind. destruct (revoke_dropped_step acc p x) as (G & R & A & F & L).
  destruct (run (revoke_dropped to_string w acc p) x) as [acc' y]. cbn [fst snd] in *.
  destruct (IH acc' y) as (G' & R' & A' & F' & L').
  destruct (run (for_fold ps acc' _) y) as [acc2 z]. cbn [fst snd] in *. rewrite G', R', A', L', G, R, A, L.
  split_and!; [done|set_solver|done| |].
  - intros q. rewrite F', F. set_solver.
  - rewrite <- app_assoc. cbn. by destruct (refused p).
Qed.

(** One grant. *)
Lemma grant_new_step acc pg x :
  let r := run (grant_new w acc pg) x in
  (∀ q, live r.2 q = if bool_decide (q = pg.1) && negb (refused q) then Some pg.2 else live x q) ∧
  rt_active r.2 = rt_active x ∧ (∀ q, q ∈ r.1.1 ↔ q ∈ acc.1 ∨ q = pg.1 ∧ refused q = true).
Proof.
  destruct acc as [a b]. unfold grant_new. rewrite run_bind, run_act. unfold on_svc, grant, on_db, set_revoked, refused.
  destruct (w_db (rw_svc w) "set_revoked" pg.1) as [e|] eqn:D; cbn [fst snd]; rewrite run_ret; cbn [fst snd].
  - split_and!; [|done|].
    + intros q. case_bool_decide as Q; [|done]. subst. by rewrite D.
    + intros q. rewrite elem_of_union, elem_of_singleton. split; [|tauto].
      intros [->|?]; [right; by rewrite D|by left].
  - split_and!; [|done|].
    + intros q. unfold live. cbn. destruct (decide (q = pg.1)) as [->|Q].
      * rewrite (bool_decide_eq_true_2 (pg.1 = pg.1)) by done. rewrite D, lookup_insert_eq. cbn.
        by rewrite bool_decide_eq_false_2 by set_solver.
      * rewrite (bool_decide_eq_false_2 (q = pg.1)) by done. rewrite lookup_insert_ne by done. cbn.
        by rewrite (bool_decide_ext (q ∈ sv_revoked (rt_svc x) ∖ {[pg.1]}) (q ∈ sv_revoked (rt_svc x))) by set_solver.
    + intros q. split; [by left|]. intros [?|[-> X]]; [done|]. by rewrite D in X.
Qed.

Lemma grant_fold l acc x :
  NoDup l.*1 →
  let r := run (for_fold l acc (grant_new w)) x in
  (∀ q, live r.2 q = match list_to_map (M := gmap string Grant) l !! q with
                     | Some g => if refused q then live x q else Some g
                     | None => live x q
                     end) ∧
  rt_active r.2 = rt_active x ∧ (∀ q, q ∈ r.1.1 ↔ q ∈ acc.1 ∨ q ∈ l.*1 ∧ refused q = true).
Proof.
  revert acc x. induction l as [|[p g] l IH]; intros acc x ND; cbn [for_fold].
  { rewrite run_ret. split_and!; try done. set_solver. }
  apply NoDup_cons in ND as [N ND]. rewrite run_bind. destruct (grant_new_step acc (p, g) x) as (L & A & F).
  destruct (run (grant_new w acc (p, g)) x) as [acc' y]. cbn [fst snd] in *.
  destruct (IH acc' y ND) as (L' & A' & F'). destruct (run (for_fold l acc' _) y) as [acc2 z].
  cbn [fst snd fmap list_fmap list_to_map foldr uncurry] in *. split_and!; [|congruence|].
  - intros q. rewrite L', L. destruct (decide (q = p)) as [->|Q].
    + rewrite lookup_insert_eq, not_elem_of_list_to_map_1 by done. rewrite bool_decide_eq_true_2 by done.
      by destruct (refused p).
    + rewrite lookup_insert_ne by done. by rewrite bool_decide_eq_false_2.
  - intros q. rewrite F', F. set_solver.
Qed.

Lemma runtime_sync_auth want x : same_auth x (run (runtime_sync_outbound want) x).2.
Proof.
  unfold runtime_sync_outbound. rewrite run_modify. by destruct (sync_outbound_frame want (rt_svc x)) as (? & ? & ? & _).
Qed.

(** What a reload that is accepted leaves in force, and its baseline. *)
Definition reload_live (new : Config) (x : Rt) (p : string) : option Grant :=
  match cf_grants new !! p with
  | Some g => if refused p then live x p else Some g
  | None => if is_some (cf_grants (rt_active x) !! p) then None else live x p
  end.

Definition reload_baseline (new : Config) (x : Rt) (p : string) : option Grant :=
  match cf_grants new !! p with
  | Some g => if refused p then cf_grants (rt_active x) !! p else Some g
  | None => if refused p then cf_grants (rt_active x) !! p else None
  end.

Definition dropped (new : Config) (x : Rt) : list string :=
  List.filter (λ p, negb (is_some (cf_grants new !! p))) (keys (cf_grants (rt_active x))).

Lemma elem_of_dropped new x p :
  p ∈ dropped new x ↔ cf_grants new !! p = None ∧ is_Some (cf_grants (rt_active x) !! p).
Proof.
  unfold dropped. rewrite list_elem_of_In, filter_In, <- list_elem_of_In, elem_of_keys.
  destruct (cf_grants new !! p); cbn; naive_solver.
Qed.

Lemma dropped_live new x x1 p :
  sv_grants (rt_svc x1) = sv_grants (rt_svc x) →
  sv_revoked (rt_svc x1) = list_to_set (dropped new x) ∪ sv_revoked (rt_svc x) →
  live x1 p = if negb (is_some (cf_grants new !! p)) && is_some (cf_grants (rt_active x) !! p) then None else live x p.
Proof.
  intros G R. unfold live. rewrite G, R.
  rewrite (bool_decide_ext (p ∈ _) (p ∈ dropped new x ∨ p ∈ sv_revoked (rt_svc x))) by set_solver.
  rewrite bool_decide_or, (bool_decide_ext _ _ (elem_of_dropped new x p)).
  destruct (cf_grants new !! p), (cf_grants (rt_active x) !! p) eqn:O; cbn;
    (rewrite ?(bool_decide_eq_true_2 (_ ∧ _)) by (split; [done|by eexists])) ||
    (rewrite ?(bool_decide_eq_false_2 (_ ∧ _)) by naive_solver); done.
Qed.

Lemma reload_apply_spec new x :
  let r := run (reload_apply to_string w new) x in
  (∀ p, live r.2 p = reload_live new x p) ∧ (∀ p, cf_grants (rt_active r.2) !! p = reload_baseline new x p) ∧
  rr_revoked r.1 = List.filter (λ p, negb (refused p)) (dropped new x) ∧
  (rr_grants_applied r.1 = true ↔
     ∀ p, is_Some (cf_grants new !! p) ∨ is_Some (cf_grants (rt_active x) !! p) → refused p = false).
Proof.
  unfold reload_apply. rewrite run_bind, run_read, run_bind. fold (dropped new x).
  destruct (revoke_fold (dropped new x) ([], ∅, []) x) as (G & R & A & F & L).
  destruct (run (for_fold (dropped new x) _ _) x) as [[[revoked rf] errors] x1]. cbn [fst snd app] in *.
  rewrite run_bind.
  destruct (grant_fold (map_to_list (cf_grants new)) (∅, errors) x1 (NoDup_fst_map_to_list _)) as (L2 & A2 & F2).
  destruct (run (for_fold (map_to_list (cf_grants new)) _ _) x1) as [[gf errors2] x2]. cbn [fst snd] in *.
  rewrite run_bind. pose proof (runtime_sync_auth (cf_outbound_grants new) x2) as S3.
  destruct (run (runtime_sync_outbound _) x2) as [u x3]. cbn [snd] in S3. rewrite run_bind.
  pose proof (always_run same_auth (reload_remotes w new) x3 _ _ (reload_remotes_auth new)) as S4.
  destruct (run (reload_remotes w new) x3) as [m x4]. cbn [snd] in S4.
  rewrite run_bind, run_read, run_bind, run_modify, run_ret. cbn [fst snd rr_revoked rr_grants_applied].
  pose proof (transitivity S3 S4) as S. assert (B : rt_active x4 = rt_active x) by (destruct S as (_ & _ & -> & _); congruence).
  assert (F1 : ∀ p, p ∈ rf ↔ p ∈ dropped new x ∧ refused p = true) by set_solver.
  assert (F3 : ∀ p, p ∈ gf ↔ is_Some (cf_grants new !! p) ∧ refused p = true).
  { intros p. rewrite F2. fold (keys (cf_grants new)). rewrite elem_of_keys. set_solver. }
  split_and!; [| |done|].
  - intros p. trans (live x4 p); [done|]. rewrite (same_auth_live _ _ _ S), L2, list_to_map_to_list.
    rewrite (dropped_live new x x1) by done. unfold reload_live. destruct (cf_grants new !! p); [|done].
    destruct (refused p); [|done]. by rewrite andb_false_l.
  - intros p. cbn. rewrite merge_lookup, B. unfold reload_baseline. destruct (cf_grants new !! p) as [g|] eqn:N.
    + rewrite (bool_decide_ext (p ∈ gf) (refused p = true)); [by destruct (refused p)|].
      rewrite F3. naive_solver.
    + destruct (cf_grants (rt_active x) !! p) eqn:O; [|by destruct (bool_decide _), (refused p)].
      rewrite (bool_decide_ext (p ∈ rf) (refused p = true)); [by destruct (refused p)|].
      rewrite F1, elem_of_dropped. naive_solver.
  - rewrite andb_true_iff, !bool_decide_eq_true. split.
    + intros [-> ->] p Hp. apply not_true_iff_false. intros T. destruct (cf_grants new !! p) eqn:N.
      * apply (not_elem_of_empty (C := gset string) p), F3. naive_solver.
      * apply (not_elem_of_empty (C := gset string) p), F1. rewrite elem_of_dropped. naive_solver.
    + intros H. split; apply elem_of_equiv_empty_L; intros p.
      * intros [? T]%F3. rewrite H in T by auto. done.
      * intros [[? ?]%elem_of_dropped T]%F1. rewrite H in T by auto. done.
Qed.

(** C33: A reload changes everything it reports or nothing. A candidate with a diagnostic, of its
    own or because it changes what needs a restart, is refused with all diagnostics and the runtime
    is as before. An accepted one, whatever the database refuses: a principal of the candidate has
    exactly its new grant, or the old one where the database refused; a principal the candidate
    dropped has none in force, even where its revocation was not recorded; every other principal is
    as before. The baseline keeps what was refused, the report says whether anything was, and a
    baseline that had every grant in force has them all again. *)
Theorem reload_exact new x :
  let diags := config_validate new ++ restart_diff to_string (rt_active x) new in
  let '(r, x') := run (runtime_reload to_string w new) x in
  (diags ≠ [] → r = Err diags ∧ x' = x) ∧
  (diags = [] → ∃ report, r = Ok report ∧
     (∀ p, live x' p = reload_live new x p) ∧ (∀ p, cf_grants (rt_active x') !! p = reload_baseline new x p) ∧
     rr_revoked report = List.filter (λ p, negb (refused p)) (dropped new x) ∧
     (rr_grants_applied report = true ↔
        ∀ p, is_Some (cf_grants new !! p) ∨ is_Some (cf_grants (rt_active x) !! p) → refused p = false) ∧
     (mirrored x → mirrored x')).
Proof.
  cbv zeta. unfold runtime_reload. rewrite run_bind, run_read.
  destruct (config_validate new ++ restart_diff to_string (rt_active x) new) as [|d ds] eqn:D.
  - rewrite run_bind. destruct (reload_apply_spec new x) as (L & B & R & G).
    destruct (run (reload_apply to_string w new) x) as [report x']. cbn [fst snd] in *. rewrite run_ret.
    split; [done|]. intros _. exists report. split_and!; try done.
    intros M p g. rewrite L, B. unfold reload_live, reload_baseline.
    destruct (cf_grants new !! p); [destruct (refused p); auto|].
    destruct (cf_grants (rt_active x) !! p) eqn:O; [done|]. intros H%M. by rewrite O in H.
  - rewrite run_ret. split; [by intros _|done].
Qed.

Lemma runtime_grant_live p g x :
  refused p = false →
  let r := run (runtime_grant w p g) x in
  r.1 = Ok tt ∧ live r.2 p = Some g ∧ rt_active r.2 = rt_active x.
Proof.
  unfold refused, runtime_grant, facade. rewrite run_bind, run_act. unfold on_svc, grant, on_db, set_revoked.
  destruct (w_db (rw_svc w) "set_revoked" p); [done|]. intros _. cbn [fst snd]. rewrite run_ret. cbn [fst snd].
  split_and!; [done| |done]. unfold live. cbn. by rewrite bool_decide_eq_false_2, lookup_insert_eq by set_solver.
Qed.

Lemma runtime_revoke_active p x : rt_active (run (runtime_revoke to_string w p) x).2 = rt_active x.
Proof.
  unfold runtime_revoke, facade. rewrite run_bind, run_act. destruct (revoke_step p x) as (_ & _ & _ & A).
  by destruct (on_svc _ x).
Qed.

(** The baseline knows nothing of the facade's own [grant] and [revoke]. A principal granted
    through [grant], which no configuration names, keeps its grant over every accepted reload, is
    not among the revoked, and no later reload of such a configuration retires it. A principal
    revoked through [revoke] has its grant again after a reload of a configuration that names it,
    the running one included. *)
Theorem facade_drift p g new x :
  refused p = false → config_validate new ++ restart_diff to_string (rt_active x) new = [] →
  (cf_grants (rt_active x) !! p = None → cf_grants new !! p = None →
   let x1 := (run (runtime_grant w p g) x).2 in
   let '(r, x2) := run (runtime_reload to_string w new) x1 in
   live x2 p = Some g ∧ cf_grants (rt_active x2) !! p = None ∧
   ∃ report, r = Ok report ∧ p ∉ rr_revoked report) ∧
  (cf_grants new !! p = Some g →
   let x1 := (run (runtime_revoke to_string w p) x).2 in
   live (run (runtime_reload to_string w new) x1).2 p = Some g).
Proof.
  intros R D. split.
  - intros O N. cbv zeta. destruct (runtime_grant_live p g x R) as (_ & L & A).
    destruct (run (runtime_grant w p g) x) as [u x1]. cbn [snd] in *.
    unfold runtime_reload. rewrite run_bind, run_read, A, D, run_bind.
    destruct (reload_apply_spec new x1) as (L2 & B & V & _).
    destruct (run (reload_apply to_string w new) x1) as [report x2]. cbn [fst snd] in *. rewrite run_ret.
    rewrite L2, B. unfold reload_live, reload_baseline. rewrite N, A, O, R. cbn. split_and!; [done..|].
    exists report. split; [done|]. rewrite V, list_elem_of_In, filter_In, <- list_elem_of_In.
    intros [I _]. apply elem_of_dropped in I as [_ [g' I]]. by rewrite A, O in I.
  - intros N. cbv zeta. pose proof (runtime_revoke_active p x) as A.
    destruct (run (runtime_revoke to_string w p) x) as [u x1]. cbn [snd] in *.
    unfold runtime_reload. rewrite run_bind, run_read, A, D, run_bind.
    destruct (reload_apply_spec new x1) as (L2 & _).
    destruct (run (reload_apply to_string w new) x1) as [report x2]. cbn [fst snd] in *. rewrite run_ret. cbn [snd].
    rewrite L2. unfold reload_live. by rewrite N, R.
Qed.
End authority.

Section starts.
Context {E : Env} (to_string : Value → string) (w : RWorld).

Lemma bind_servers_ok c d h : outside_ok w c d → ∃ r, bind_servers w c h = Ok r.
Proof.
  intros O. unfold bind_servers, bind_unary, bind_session_server.
  assert (B : ∀ a, ∃ b, rw_bind w a = Ok b) by (intros a; pose proof (oo_bind _ _ _ O a); destruct (rw_bind w a); [eauto|done]).
  assert (U : ∀ t, rw_unary_config w t = Ok tt).
  { intros t. pose proof (oo_unary _ _ _ O t). by destruct (rw_unary_config w t) as [[]|]. }
  assert (S : ∀ a b k, rw_session_config w a b k = Ok tt).
  { intros a b k. pose proof (oo_session _ _ _ O a b k). by destruct (rw_session_config w a b k) as [[]|]. }
  assert (X : ∃ l, match cf_tls c with Some t => let? s := bind_unary w t in Ok [s] | None => Ok [] end = Ok l).
  { destruct (cf_tls c) as [t|]; [|by eexists]. unfold bind_unary. rewrite U. destruct (B (tl_listen t)) as [a ->]. by eexists. }
  unfold bind_unary in X. destruct X as [l ->].
  destruct (opt4 _) as [[[[li ca] ce] k]|]; [|by eexists]. rewrite S. destruct (B li) as [a ->]. by eexists.
Qed.

Lemma service_opens c d policy allowed restart :
  outside_ok w c d →
  ∃ k e, service_open (rw_svc w) true (rw_locked w) (rw_integrity w) (cf_home c) (rw_boot w) (rw_journal w)
    (λ k, let? h := rw_attach w policy k in Ok (ho_kernel h)) allowed (cf_grants c) restart d =
  (Ok (mkSvc k (set_operations (forget_admitted (db_operations d)) (set_epoch 1 (Some e) d)) e (cf_home c) allowed ∅
         (cf_grants c) (db_revoked d) ∅ restart false []),
   set_operations (forget_admitted (db_operations d)) (set_epoch 1 (Some e) d)).
Proof.
  intros O. unfold service_open, store_open. cbn [negb].
  rewrite (oo_lock _ _ _ O), (oo_integrity _ _ _ O), (oo_open _ _ _ O).
  rewrite (proj2 (N.ltb_ge _ _) (oo_version _ _ _ O)). rewrite bool_decide_eq_false_2 by auto.
  rewrite (proj2 (N.ltb_lt _ _) (oo_epoch _ _ _ O)).
  pose proof (oo_attach _ _ _ O policy (kernel_new (rw_boot w) (rw_journal w) false)) as A.
  destruct (rw_attach w policy _) as [h|]; [|done]. eexists _, _. done.
Qed.

Lemma stored_rows names cs t m :
  Forall2 component_ok names cs → NoDup names → m ∈ cs →
  ∃ id, manifest_id m = Some id ∧ desired_rows to_string names cs t !! id = Some (to_string (cs_manifest m)).
Proof.
  intros F ND [i Hi]%list_elem_of_lookup. destruct (Forall2_lookup_r _ _ _ _ _ F Hi) as (id & N & Ok_).
  exists id. split; [apply Ok_|]. by eapply desired_rows_lookup.
Qed.

(** Up to the manifests, nothing fails. *)
Lemma boot_provisions c d names :
  config_validate c = [] → outside_ok w c d → Forall2 component_ok names (cf_components c) → NoDup names →
  ∃ s servers h, boot to_string w c d =
    match provision_all to_string w (cf_components c) s with
    | (Err e, s) => Err (e, sv_db s)
    | (Ok _, s) => Ok (mkRt s (manager_new h (sv_epoch s) (rs_authority (cf_remotes c))) (negb (no_remotes c)) servers c)
    end ∧
    sv_grants s = cf_grants c ∧ sv_revoked s = db_revoked d ∧ db_desired (sv_db s) = db_desired d ∧
    sv_leases s = ∅ ∧ (∀ id, id ∈ names → id ∈ sv_allowed s).
Proof.
  intros V O F ND.
  destruct (launch_policies_ok names (cf_components c) ∅ ∅ F ND ltac:(set_solver)) as ([pol restart] & P & D).
  unfold boot. rewrite V, P.
  match goal with |- context [mkHostPolicy ?a ?b ?c ?e] => set (policy := mkHostPolicy a b c e) end.
  destruct (service_opens c d policy (dom pol) restart O) as (k & e & ->).
  pose proof (oo_attach _ _ _ O policy (kernel_new (rw_boot w) (rw_journal w) false)) as A.
  destruct (rw_attach w policy _) as [h|]; [|done].
  match goal with |- context [sync_outbound_grants ?a ?b] =>
    destruct (sync_outbound_frame a b) as (R1 & R2 & R3 & R4 & R5); set (s1 := sync_outbound_grants a b) in *; clearbody s1 end.
  cbn in R1, R2, R3, R4, R5. destruct (bind_servers_ok c d h O) as ([servers h'] & Bs). exists s1, servers, h'.
  rewrite R1, R2, R3, R4, R5. split_and!; [|done..|].
  - destruct (provision_all to_string w (cf_components c) s1) as [[]]; [|done]. by rewrite Bs.
  - intros id I. cbn in *. set_solver.
Qed.

Lemma boot_starts c d names :
  config_validate c = [] → outside_ok w c d → Forall2 component_ok names (cf_components c) → NoDup names →
  Forall (fits_store to_string) (cf_components c) →
  ∃ x, boot to_string w c d = Ok x ∧ rt_active x = c ∧
    sv_grants (rt_svc x) = cf_grants c ∧ sv_revoked (rt_svc x) = db_revoked d ∧
    db_desired (sv_db (rt_svc x)) = desired_rows to_string names (cf_components c) (db_desired d).
Proof.
  intros V O F ND B. destruct (boot_provisions c d names V O F ND) as (s & servers & h & -> & G & R & De & _ & A).
  pose proof (provision_all_valid to_string w names _ s F A (oo_desired _ _ _ O) B []) as P. rewrite app_nil_r in P.
  rewrite P. cbn. eexists. split; [done|]. cbn. by rewrite De.
Qed.

Lemma boot_refused c d n1 id n3 pre m post :
  config_validate c = [] → outside_ok w c d → cf_components c = pre ++ m :: post →
  Forall2 component_ok n1 pre → component_ok id m → Forall2 component_ok n3 post → NoDup (n1 ++ id :: n3) →
  Forall (fits_store to_string) pre → ¬ fits_store to_string m →
  ∃ d', boot to_string w c d =
      Err (mkError EcResourceExhausted ("provision " +:+ id +:+ ": resource-exhausted"), d') ∧
    db_desired d' = desired_rows to_string n1 pre (db_desired d).
Proof.
  intros V O Ec F1 Om F3 ND B N.
  destruct (boot_provisions c d (n1 ++ id :: n3) V O) as (s & servers & h & -> & _ & _ & De & L & A); [|done|].
  { rewrite Ec. apply Forall2_app; [done|]. by constructor. }
  rewrite Ec, (provision_all_valid to_string w n1 pre s F1); [|set_solver|apply O|done].
  edestruct (provision_oversized to_string w id m post) as (s' & -> & Ed); [exact Om| |exact N| |].
  - cbn. set_solver.
  - done.
  - eexists. split; [done|]. rewrite Ed. cbn. by rewrite De.
Qed.

(** C34: What validation is worth at start. When the database, the certificates, the listeners and the
    host do not fail, a configuration without diagnostics starts if every manifest fits the limit of
    the store: every manifest is then stored under its id, no principal has a grant in force that the
    configuration does not give it, a recorded revocation is in force, and the baseline of the first
    reload is the configuration. Size is the one thing that validation does not look at: with a
    manifest beyond the limit the start fails with the store's refusal of the first such manifest, the
    manifests before it being stored already. *)
Theorem valid_config_starts c d :
  config_validate c = [] → outside_ok w c d →
  (Forall (fits_store to_string) (cf_components c) →
   ∃ x, runtime_start to_string w c d = Ok x ∧ rt_active x = c ∧ mirrored x ∧
     (∀ p, live x p = if bool_decide (p ∈ db_revoked d) then None else cf_grants c !! p) ∧
     (∀ m, m ∈ cf_components c → ∃ id, manifest_id m = Some id ∧
        db_desired (sv_db (rt_svc x)) !! id = Some (to_string (cs_manifest m)))) ∧
  (∀ pre m post, cf_components c = pre ++ m :: post → Forall (fits_store to_string) pre → ¬ fits_store to_string m →
   ∃ id d', manifest_id m = Some id ∧
     runtime_start to_string w c d =
       Err (mkError EcResourceExhausted ("provision " +:+ id +:+ ": resource-exhausted"), d') ∧
     (∀ m', m' ∈ pre → ∃ id', manifest_id m' = Some id' ∧
        db_desired d' !! id' = Some (to_string (cs_manifest m')))).
Proof.
  intros V O. destruct (validate_components c V) as (names & F & ND). split.
  - intros B. destruct (boot_starts c d names V O F ND B) as (x & Bx & Ac & G & R & De). unfold runtime_start. rewrite Bx.
    assert (X : ∃ y, (if rt_managed x then Ok (run (sync_routes w (cf_remotes c)) x).2 else Ok x) =
                     Ok (A := Rt) (E := Error * Db) y ∧ same_auth x y).
    { destruct (rt_managed x); [|by eexists]. eexists. split; [done|].
      apply (always_run same_auth); [apply _..|apply sync_routes_auth]. }
    destruct X as (y & -> & S). exists y. pose proof S as (_ & _ & Ay & Dy). split; [done|]. rewrite Ay, Ac.
    assert (L : ∀ p, live y p = if bool_decide (p ∈ db_revoked d) then None else cf_grants c !! p).
    { intros p. rewrite (same_auth_live _ _ _ S). unfold live. by rewrite G, R. }
    split_and!; [done| |done|].
    + intros p g. rewrite L, Ay, Ac. by destruct (bool_decide _).
    + intros m Hm. rewrite Dy, De. by eapply stored_rows.
  - intros pre m post Ec B N. rewrite Ec in F. apply Forall2_app_inv_r in F as (n1 & n2 & F1 & F2 & ->).
    inversion F2 as [|id ? n3 ? Om F3]; subst. apply NoDup_app in ND as ND'.
    destruct (boot_refused c d n1 id n3 pre m post V O Ec F1 Om F3 ND B N) as (d' & Bd & De).
    exists id, d'. split; [apply Om|]. unfold runtime_start. rewrite Bd. split; [done|].
    intros m' Hm. rewrite De. eapply stored_rows; [done| |done]. apply ND'.
Qed.
End starts.

(** ** Waiting *)

Lemma timed_run {A} (P : A → Prop) (p : rprog A) x : timed (λ _, P) (clock x) p → always later p → P (run p x).1.
Proof.
  revert x. induction p as [a|X f k IH|c u k IH]; intros x T L; [done| |]; destruct L as [L1 L2].
  - rewrite run_Act. apply IH; [|done]. eapply timed_later; [apply L1|]. apply T. lia.
  - destruct T as [T F]. rewrite run_Wait. destruct (c x) eqn:C; [apply IH; [apply T; [lia|done]|done]|].
    destruct (N.ltb_spec (clock x) u); (apply IH; [|done]); apply F; cbn in *; lia.
Qed.

Lemma sleep_timed {A} (Q : N → option A → Prop) t dur :
  (∀ t', (t + dur ≤ t')%N → Q t' None) → timed Q t (do! sleep dur; Ret None).
Proof.
  intros H. unfold sleep. apply timed_bind, timed_read. intros x L. split; [done|].
  intros t' L' U. apply H. cbn in *. lia.
Qed.

(** Steps that keep the clock. *)
Lemma later_sleep dur : always later (sleep dur).
Proof.
  unfold sleep. apply always_bind; [by apply always_read; apply _|]. intros t. split; [|done].
  intros x. unfold later. cbn. lia.
Qed.

Lemma later_rt_poll {A} n (p : rprog (option A)) : always later p → always later (poll n p).
Proof.
  intros L. induction n as [|n IH]; cbn; [done|]. apply always_bind; [done|]. by intros [a|].
Qed.

Lemma settle_timed t0 : timed (λ _ r, r ≠ None) t0 (poll (rounds 2000 10) (settle_round t0)).
Proof.
  unfold rounds. apply (poll_returns _ (t0 + 2000) 10); [done| |by apply rounds_enough].
  intros t1. unfold settle_round. apply timed_read. intros x L1. apply timed_read. intros x2 L2.
  destruct (_ && _) eqn:B; [|done]. apply andb_true_iff in B as [_ B]. apply N.ltb_lt in B.
  apply sleep_timed. intros t' L3 _. split; lia.
Qed.

Lemma later_settle t0 : always later (settle_round t0).
Proof.
  unfold settle_round. do 2 (apply always_bind; [by apply always_read; apply _|]; intros ?).
  destruct (_ && _); [|done]. apply always_bind; [apply later_sleep|done].
Qed.

Lemma wait_timed logical timeout t : timed (λ _ r, r ≠ None) t (wait_session logical timeout).
Proof.
  unfold wait_session. apply timed_read. intros x L. unfold rounds.
  apply (poll_returns _ (clock x + timeout) 20); [done| |by apply rounds_enough].
  intros t1. unfold session_round. apply timed_read. intros x1 L1. apply timed_skip. intros t2 [|] L2; [done|].
  apply timed_read. intros x2 L3. destruct (N.leb_spec timeout (clock x2 - clock x)) as [G|G]; [done|].
  apply sleep_timed. intros t' L4 _. split; lia.
Qed.

Lemma later_wait logical timeout : always later (wait_session logical timeout).
Proof.
  unfold wait_session. apply always_bind; [by apply always_read; apply _|]. intros t0. apply later_rt_poll.
  unfold session_round. apply always_bind; [by apply always_read; apply _|]. intros [i|].
  all: apply always_bind; [try done; by apply always_read; apply _|]; intros [|]; [done|].
  all: apply always_bind; [by apply always_read; apply _|]; intros now; destruct (_ <=? _)%N; [done|].
  all: apply always_bind; [apply later_sleep|done].
Qed.

(** Waiting for a session ends: whatever the other threads do, the thread that waits can return, and
    what it returns is the session or the time-out, never neither. *)
Theorem wait_session_returns logical timeout ps i s ps' s' :
  ps !! i = Some (wait_session logical timeout) → rtc clocked_step (ps, s) (ps', s') →
  (∀ r, (ps' !! i ≫= outcome) = Some r → r ≠ None) ∧
  ∃ r s'', r ≠ None ∧ rtc clocked_step (ps', s') (<[i := Ret r]> ps', s'').
Proof.
  assert (C : ∀ n (x : Rt), clock (advance n x) = N.max n (clock x)) by done.
  intros Hp R. eapply (thread_returns C (λ r, r ≠ None)); [apply later_wait|apply wait_timed|exact Hp|exact R].
Qed.

(** ** Inspection *)

(** A method of the kernel, alone, through the service. *)
Lemma run_slift_lift {A} (p : kprog A) x :
  run (slift (lift p)) x =
  ((run p (sv_kernel (rt_svc x))).1, set_rt_svc (with_kernel (run p (sv_kernel (rt_svc x))).2 (rt_svc x)) x).
Proof.
  revert x. induction p as [a|X f k IH|c u k IH]; intros x; cbn [slift lift].
  - rewrite !run_ret. by destruct x as [[] ? ? ? ?].
  - rewrite !run_Act. unfold on_svc. destruct (f (sv_kernel (rt_svc x))) as [b k']. cbn [fst snd]. by rewrite IH.
  - rewrite !run_Wait. destruct (c _); rewrite IH; [done|]. cbn. by destruct (_ <? _)%N.
Qed.

Lemma run_inventory x : run (slift (lift inventory)) x = ((run inventory (sv_kernel (rt_svc x))).1, x).
Proof.
  rewrite run_slift_lift, (reads_run inventory) by apply inventory_reads. cbn [fst snd].
  by destruct x as [[] ? ? ? ?].
Qed.

(** The calls of the report. *)
Definition call_items (k : Kernel) : list Value := List.map (ticket_json (k_now k)) (calls_snapshot (k_calls k)).

Lemma inventory_calls k : get_array "calls" (run inventory k).1 = Some (call_items k).
Proof.
  unfold inventory. do 4 rewrite run_bind, run_read.
  rewrite run_bind, reads_run by (apply map_prog_reads; intros c; apply instance_json_reads).
  cbn [fst snd]. do 8 rewrite run_bind, run_read. rewrite run_ret. cbn [fst]. unfold get_array.
  by rewrite get_obj.
Qed.

(** What the report says of a lease: six facts, and no token. *)
Definition lease_facts (s : Svc) (l : Lease) : Value :=
  obj [("principal", JString (l_principal l)); ("logical", JString (l_logical l));
       ("fence", JString (display (l_fence l))); ("failed", JBool (l_failed l));
       ("restart_pending", JBool (is_some (l_retry l)));
       ("remaining_ms", j_u64 (saturating_sub (l_deadline l) (now s)))].

Definition all_leases (s : Svc) : list Lease := (map_to_list (sv_leases s)).*2.

(** Other tokens, and the leases filed under them. *)
Definition retoken (f : string → string) (s : Svc) : Svc :=
  with_leases (kmap f ((λ l, rotate (f (l_token l)) (l_deadline l) (l_renew_seq l) l) <$> sv_leases s)) s.

Lemma map_to_list_kmap_perm {V} (f : string → string) `{!Inj (=) (=) f} (m : gmap string V) :
  map_to_list (kmap (M2 := gmap string) f m) ≡ₚ (λ kv, (f kv.1, kv.2)) <$> map_to_list m.
Proof.
  induction m as [|i v m N IH] using map_ind; [by rewrite kmap_empty, !map_to_list_empty|].
  rewrite kmap_insert by apply _. rewrite !map_to_list_insert; [cbn; by f_equiv|done|].
  apply lookup_kmap_None; [apply _|]. by intros j ->%(inj f).
Qed.

Lemma retoken_facts f `{!Inj (=) (=) f} s :
  lease_facts s <$> all_leases (retoken f s) ≡ₚ lease_facts s <$> all_leases s.
Proof.
  unfold all_leases. cbn -[kmap]. rewrite map_to_list_kmap_perm by apply _.
  rewrite map_to_list_fmap, <- !list_fmap_compose. apply Permutation_refl', list_fmap_ext. by intros i [t l].
Qed.

(** The snapshot with the given leases. *)
Definition snapshot `{Env} (opts : InspectOpts) (s : Svc) (leases : list Value) : Value :=
  let kernel := (run inventory (sv_kernel s)).1 in
  let calls := call_items (sv_kernel s) in
  obj [("schema", JString INSPECT_SCHEMA); ("api", JString API_VERSION); ("epoch", JString (display (sv_epoch s)));
       ("calls", JArray (take (io_max_calls opts) calls));
       ("calls_truncated", JBool (io_max_calls opts <? length calls));
       ("calls_total", j_u64 (N.of_nat (length calls)));
       ("leases", JArray (take (io_max_leases opts) leases));
       ("leases_truncated", JBool (io_max_leases opts <? length leases));
       ("leases_total", j_u64 (N.of_nat (length leases)));
       ("kernel", obj [("instances", or_null "instances" kernel); ("remotes", or_null "remotes" kernel)])].

Lemma inspect_run `{Env} opts x :
  run (runtime_inspect opts) x = (snapshot opts (rt_svc x) (lease_facts (rt_svc x) <$> all_leases (rt_svc x)), x).
Proof.
  unfold runtime_inspect, service_inspect. rewrite !run_bind, run_inventory. cbn [fst snd]. rewrite run_read, run_ret.
  pose proof (inventory_calls (sv_kernel (rt_svc x))) as C.
  match goal with |- context [inspect_view _ ?v] => set (raw := v) end.
  assert (K : or_null "kernel" raw = (run inventory (sv_kernel (rt_svc x))).1) by (unfold or_null, raw; by rewrite get_obj).
  assert (Ep : or_null "epoch" raw = JString (display (sv_epoch (rt_svc x)))) by (unfold or_null, raw; by rewrite get_obj).
  assert (L : get_array "leases" raw = Some (lease_facts (rt_svc x) <$> all_leases (rt_svc x))).
  { unfold get_array, raw. rewrite get_obj by done. cbn. unfold all_leases. by rewrite <- list_fmap_compose. }
  unfold inspect_view, inspect_take. by rewrite K, Ep, C, L.
Qed.

(** With other leases, only the list of leases is another one. *)
Lemma snapshot_leases `{Env} opts s l l' key :
  length l = length l' → key ≠ "leases" → get key (snapshot opts s l) = get key (snapshot opts s l').
Proof.
  intros E N. unfold snapshot. rewrite !get_obj by done. rewrite E. cbn. by rewrite !(bool_decide_eq_false_2 ("leases" = key)).
Qed.

(** C36: The snapshot of the facade is bounded and has no credentials. It changes nothing; it has the
    first calls and the first leases, at most as many as asked for, with their true numbers and
    whether any were left out; of a lease it has six facts. And it does not depend on the tokens:
    taken of the same runtime with any other tokens, every other member of it is the same, and the
    leases it lists are as many of the same entries, taken in the order that the table then has (all
    of them when none is left out). *)
Theorem inspect_bounded `{Env} opts x f :
  Inj (=) (=) f →
  let calls := call_items (sv_kernel (rt_svc x)) in
  let leases := lease_facts (rt_svc x) <$> all_leases (rt_svc x) in
  let '(v, x') := run (runtime_inspect opts) x in
  let v2 := (run (runtime_inspect opts) (set_rt_svc (retoken f (rt_svc x)) x)).1 in
  x' = x ∧
  get_array "calls" v = Some (take (io_max_calls opts) calls) ∧
  get_u64 "calls_total" v = Some (N.of_nat (length calls)) ∧
  (get "calls_truncated" v ≫= as_bool) = Some (io_max_calls opts <? length calls) ∧
  get_array "leases" v = Some (take (io_max_leases opts) leases) ∧
  get_u64 "leases_total" v = Some (N.of_nat (size (sv_leases (rt_svc x)))) ∧
  (get "leases_truncated" v ≫= as_bool) = Some (io_max_leases opts <? size (sv_leases (rt_svc x))) ∧
  (∀ key, key ≠ "leases" → get key v2 = get key v) ∧
  (∃ leases2, leases2 ≡ₚ leases ∧ get_array "leases" v2 = Some (take (io_max_leases opts) leases2)).
Proof.
  intros I. cbv zeta. rewrite !inspect_run. cbn [fst].
  assert (L : length (lease_facts (rt_svc x) <$> all_leases (rt_svc x)) = size (sv_leases (rt_svc x)))
    by (unfold all_leases; by rewrite !length_fmap, length_map_to_list).
  pose proof (retoken_facts f (rt_svc x)) as P.
  change (lease_facts (rt_svc (set_rt_svc (retoken f (rt_svc x)) x))) with (lease_facts (rt_svc x)).
  change (snapshot opts (rt_svc (set_rt_svc (retoken f (rt_svc x)) x))) with (snapshot opts (rt_svc x)).
  change (rt_svc (set_rt_svc (retoken f (rt_svc x)) x)) with (retoken f (rt_svc x)).
  split_and!; [done|unfold get_array, get_u64, snapshot; rewrite get_obj by done; by rewrite <- ?L..| |].
  - intros key N. apply snapshot_leases; [by apply Permutation_length|done].
  - eexists. split; [exact P|]. unfold get_array, snapshot. by rewrite get_obj.
Qed.

(** ** Shutdown *)

Definition same_links (c c' : Ctl) : Prop := rm_links c' = rm_links c.

#[export] Instance same_links_refl : Reflexive same_links.
Proof. by intros c. Qed.

Lemma hlift_links {A} (p : hprog A) : always same_links (hlift p).
Proof.
  induction p as [a|X f k IH|c u k IH]; cbn; [done|split; [|done]..]; intros x; [|done].
  by destruct (f (rm_host x)).
Qed.

Lemma on_link_links {X} l (f : PeerLink → X * PeerLink) : always same_links (on_link l f).
Proof. apply always_one. intros x. by destruct (f (link l x)). Qed.
Lemma on_sess_links {X} i (f : Sess → X * Sess) : always same_links (on_sess i f).
Proof. apply always_one. intros x. by destruct (f (sess i x)). Qed.

Ltac links_step :=
  match goal with
  | |- always _ (bind _ _) => apply always_bind; [|intros ?]
  | |- always _ (Ret _) => exact I
  | |- always _ (read _) => apply always_read; apply _
  | |- always _ (read_link _ _) => apply always_read; apply _
  | |- always _ (kernel _) => apply hlift_links
  | |- always _ (on_link _ _) => apply on_link_links
  | |- always _ (on_sess _ _) => apply on_sess_links
  | |- always _ (Prog.for_each _ _) => apply always_for_each; intros ? _
  | |- always _ (if ?b then _ else _) => destruct b
  | |- always _ (match ?x with _ => _ end) => destruct x
  | |- always _ (modify _) => apply always_modify; done
  | |- always _ (act _) => apply always_one; done
  end.

Lemma manager_shutdown_links `{Env} cw : always same_links (manager_shutdown cw).
Proof.
  unfold manager_shutdown, teardown_link, take_link_session, take_lease, drain_calls, note, upd_link, upd_sess, unary.
  repeat links_step.
Qed.

(** What shutdown reads of the runtime, apart from the steps that stop the service and the listeners. *)
Definition steady (x y : Rt) : Prop :=
  rm_links (rt_ctl y) = rm_links (rt_ctl x) ∧ rt_managed y = rt_managed x ∧
  sv_leases (rt_svc y) = sv_leases (rt_svc x) ∧ sv_stopped (rt_svc y) = sv_stopped (rt_svc x) ∧
  rt_servers y = rt_servers x.

#[export] Instance steady_refl : Reflexive steady.
Proof. by intros x. Qed.
#[export] Instance steady_trans : Transitive steady.
Proof. intros x y z A B. unfold steady in *. destruct_and!. split_and!; congruence. Qed.

Lemma clift_steady {A} (p : cprog A) : always same_links p → always steady (clift p).
Proof.
  induction p as [a|X f k IH|c u k IH]; cbn; [done| |]; intros [L K]; (split; [|auto]); intros x; [|done].
  specialize (L (ctl_of x)). unfold on_ctl. by destruct (f (ctl_of x)).
Qed.

Lemma slift_lift_steady {A} (p : kprog A) : always steady (slift (lift p)).
Proof.
  induction p as [a|X f k IH|c u k IH]; cbn; [done|split; [|done]..]; intros x; [|done].
  unfold on_svc. by destruct (f (sv_kernel (rt_svc x))).
Qed.

Lemma settle_steady n t0 : always steady (poll n (settle_round t0)).
Proof.
  induction n as [|n IH]; cbn; [done|]. apply always_bind; [|by intros [u|]].
  unfold settle_round, sleep. do 2 (apply always_bind; [by apply always_read; apply _|]; intros ?).
  destruct (_ && _); [|done]. apply always_bind; [|done].
  apply always_bind; [by apply always_read; apply _|]. intros t. by split.
Qed.

Lemma manager_steady `{Env} cw : always steady (clift (manager_shutdown cw)).
Proof. exact (clift_steady (manager_shutdown cw) (manager_shutdown_links cw)). Qed.

Section shutdown.
Context {E : Env} (to_string : Value → string) (w : RWorld).

Lemma service_shutdown_empty s :
  sv_leases (Service.shutdown to_string (rw_svc w) s) = ∅ ∧ sv_stopped (Service.shutdown to_string (rw_svc w) s) = true.
Proof.
  unfold Service.shutdown. split.
  - apply map_eq. intros t. destruct (retire_all_spec to_string (rw_svc w) (tokens_where (λ _, true) (with_stopped s)) (with_stopped s)) as [L _].
    rewrite L, lookup_empty. case_bool_decide as T; [done|].
    destruct (sv_leases (with_stopped s) !! t) eqn:X; [|done]. destruct T. apply tokens_where_spec. eauto.
  - generalize (tokens_where (λ _, true) (with_stopped s)). intros l.
    assert (G : ∀ s, sv_stopped (retire_all to_string (rw_svc w) l s) = sv_stopped s); [|apply G].
    induction l as [|t l IH]; intros s0; cbn; [done|]. rewrite IH. destruct (sv_leases s0 !! t) as [le|]; [|done].
    unfold retire, on_kernel, on_db. repeat (case_match; cbn [snd]; try done). all: by simplify_eq.
Qed.

Lemma stop_routes_steady x :
  steady x (run (if rt_managed x then clift (manager_shutdown (rw_ctl w)) else Ret tt) x).2.
Proof. apply (always_run steady); [apply _..|]. destruct (rt_managed x); [apply manager_steady|done]. Qed.

Lemma active_peers_size x : active_peers x = if rt_managed x then size (rm_links (rt_ctl x)) else 0.
Proof.
  unfold active_peers, manager_inspect. destruct (rt_managed x); [|done]. unfold get_array. rewrite get_obj by done.
  match goal with |- context [JArray ?l] => change (length l = size (rm_links (rt_ctl x))) end.
  by rewrite length_fmap, merge_sort_Permutation, length_fmap, length_map_to_list.
Qed.

(** Shutdown ends and says what is left. It reports within its two seconds, whatever the sessions
    do; afterwards no lease is left, the service and all listeners are stopped, and the report has the
    leases and sessions there were. But the peers of the route manager stay in its table: the report
    of this and of every later shutdown counts them as active routes. *)
Theorem shutdown_report x :
  ∃ r x', run (runtime_shutdown to_string w) x = (Some r, x') ∧
    sh_leases_before r = size (sv_leases (rt_svc x)) ∧ sh_leases_after r = 0 ∧ sv_leases (rt_svc x') = ∅ ∧
    sh_sessions_before r = session_count (rm_host (rt_ctl x)) ∧
    sv_stopped (rt_svc x') = true ∧ rt_servers x' = sg_shutdown <$> rt_servers x ∧
    sh_routes_active r = (if rt_managed x then size (rm_links (rt_ctl x)) else 0) ∧
    rt_managed x' = rt_managed x ∧ rm_links (rt_ctl x') = rm_links (rt_ctl x).
Proof.
  unfold runtime_shutdown, read_host. do 3 rewrite run_bind, run_read. rewrite run_bind.
  pose proof (stop_routes_steady x) as S1.
  destruct (run (if rt_managed x then _ else _) x) as [u x1]. cbn [snd] in S1.
  do 2 rewrite run_bind, run_modify. rewrite run_bind.
  match goal with |- context [run (clift (hlift ?p)) ?y] =>
    pose proof (always_run steady (clift (hlift p)) y _ _ (clift_steady _ (hlift_links p))) as S2;
    destruct (run (clift (hlift p)) y) as [u2 x2]; cbn [snd] in S2 end.
  rewrite run_bind, run_read, run_bind.
  pose proof (timed_run (λ r, r ≠ None) _ x2 (settle_timed (clock x2)) (later_rt_poll _ _ (later_settle (clock x2)))) as T.
  pose proof (always_run steady _ x2 _ _ (settle_steady (rounds 2000 10) (clock x2))) as S3.
  destruct (run (poll _ _) x2) as [[[]|] x3]; cbn [fst snd] in *; [|done].
  do 2 rewrite run_bind, run_read. rewrite run_bind. pose proof (always_run steady _ x3 _ _ (slift_lift_steady pending_calls)) as S4.
  destruct (run (slift (lift pending_calls)) x3) as [calls x4]. cbn [snd] in S4.
  rewrite run_bind, run_read, run_ret. eexists _, x4. split; [done|]. cbn [sh_leases_before sh_leases_after sh_sessions_before sh_routes_active].
  rewrite active_peers_size. destruct (service_shutdown_empty (rt_svc x1)) as [L St].
  destruct S1 as (A1 & A2 & A3 & A4 & A5), S2 as (B1 & B2 & B3 & B4 & B5), S3 as (C1 & C2 & C3 & C4 & C5),
    S4 as (D1 & D2 & D3 & D4 & D5). cbn in B1, B2, B3, B4, B5. unfold live_lease_count.
  rewrite D1, D2, D3, D4, D5, C1, C2, C3, C4, C5, B1, B2, B3, B4, B5, L, St, A1, A2, A5. split_and!; done.
Qed.
End shutdown.

(** ** Copies of stores *)

Lemma snapshot_keeps fault d path k : ∀ p i, dk_images k !! p = Some i →
  dk_images (snapshot_connection fault d path k).2 !! p = Some i.
Proof.
  intros p i H. unfold snapshot_connection. destruct (is_some _) eqn:S; [done|]. destruct (bool_decide _); [done|].
  assert (path ≠ p) by (intros ->; by rewrite H in S).
  destruct fault as [[e [d'|]]|]; cbn; [|done|]; by rewrite lookup_insert_ne.
Qed.

Lemma open_read_only_ok path k d : open_read_only path k = Ok d →
  dk_images k !! path = Some d ∧ lock_path path ∉ dk_held k ∧ db_version d = SUPPORTED_SCHEMA ∧
  dk_integrity k path = "ok" ∧ is_Some (db_epoch d).
Proof.
  unfold open_read_only, offline_open, ensure. destruct (dk_images k !! path) as [d0|]; cbn; [|done].
  case_bool_decide; cbn; [done|]. destruct (N.eqb_spec (db_version d0) SUPPORTED_SCHEMA); cbn; [|done].
  case_bool_decide; cbn; [|done]. destruct (db_epoch d0) eqn:E; cbn; [|done]. intros [= <-]. rewrite E. eauto.
Qed.

Lemma snapshot_made d path k k' :
  snapshot_connection None d path k = (Ok tt, k') →
  dk_images k !! path = None ∧ k' = set_dk_images (<[path := d]> (dk_images k)) k.
Proof.
  unfold snapshot_connection. destruct (dk_images k !! path); [done|]. cbn. destruct (bool_decide _); [done|].
  by intros [= <-].
Qed.

(** Whatever fails, no image that is there is changed. *)
Lemma restore_keeps fd fault backup home k p i :
  dk_images k !! p = Some i → dk_images (restore_backup fd fault backup home k).2 !! p = Some i.
Proof.
  intros H. unfold restore_backup. destruct (open_read_only backup k) as [d|e]; [|done]. destruct (_ || _); [done|].
  destruct fd as [e|]; [done|].
  match goal with |- context [snapshot_connection ?f ?d ?q ?k'] =>
    pose proof (snapshot_keeps f d q k' p i H) as S; destruct (snapshot_connection f d q k') end. exact S.
Qed.

(** The recovery that opens an image. *)
Lemma open_store_ok path k d e :
  dk_images k !! path = Some d → lock_path path ∉ dk_held k → dk_integrity k path = "ok" →
  (db_version d ≤ 1)%N → default 0%N (db_epoch d) = e → (e < i64_max)%N →
  open_store None path k =
  (Ok (e + 1)%N, set_dk_images (<[path := set_operations (forget_admitted (db_operations d))
                                            (set_epoch 1 (Some (e + 1)%N) d)]> (dk_images k)) k).
Proof.
  intros I L G V Ep Mx. unfold open_store. rewrite I, G. cbn. rewrite (bool_decide_eq_false_2 _ L).
  unfold store_open. rewrite (proj2 (N.ltb_ge _ _) V), Ep, (proj2 (N.ltb_lt _ _) Mx).
  by rewrite bool_decide_eq_false_2 by auto.
Qed.

(** C35: A backup restores. When an offline backup of a home and the restore of it into another home
    succeed, the origin and the backup are unchanged, and the store opened in the new home starts at
    the next epoch with the revocations, fences, effects and manifests of the origin, its completed
    operations, and every operation that was admitted marked as unknown, so that none of them runs
    again. *)
Theorem restore_roundtrip home dest home' k k1 k2 :
  backup_offline None home dest k = (Ok tt, k1) → restore_backup None None dest home' k1 = (Ok tt, k2) →
  ∃ d e, dk_images k !! store_path home = Some d ∧ db_epoch d = Some e ∧
    dk_images k2 !! store_path home = Some d ∧ dk_images k2 !! dest = Some d ∧
    (lock_path (store_path home') ∉ dk_held k2 → dk_integrity k2 (store_path home') = "ok" → (e < i64_max)%N →
     ∃ d', (open_store None (store_path home') k2).1 = Ok (e + 1)%N ∧
       dk_images (open_store None (store_path home') k2).2 !! store_path home' = Some d' ∧
       db_revoked d' = db_revoked d ∧ db_fences d' = db_fences d ∧ db_effects d' = db_effects d ∧
       db_desired d' = db_desired d ∧ db_operations d' = forget_admitted (db_operations d)).
Proof.
  unfold backup_offline. intros B R. destruct (open_read_only (store_path home) k) as [d|e] eqn:O; [|done].
  apply open_read_only_ok in O as (I & _ & V & _ & [e Ep]).
  destruct (snapshot_connection None d dest k) as [[[]|x] k0] eqn:S; [|done]. injection B as <-.
  apply snapshot_made in S as [N ->].
  assert (ND : dest ≠ store_path home) by (intros ->; by rewrite I in N).
  pose proof (restore_keeps None None dest home' (set_dk_images (<[dest := d]> (dk_images k)) k) dest d) as K1.
  pose proof (restore_keeps None None dest home' (set_dk_images (<[dest := d]> (dk_images k)) k) (store_path home) d) as K2.
  rewrite R in K1, K2. cbn in K1, K2. rewrite lookup_insert_eq in K1. rewrite lookup_insert_ne in K2 by done.
  exists d, e. split_and!; [done|done|by apply K2|by apply K1|].
  intros L G M. unfold restore_backup in R. destruct (open_read_only dest _) as [d2|] eqn:O2; [|done].
  apply open_read_only_ok in O2 as (I2 & _). cbn in I2. rewrite lookup_insert_eq in I2. injection I2 as <-.
  destruct (_ || _); [done|].
  match type of R with context [snapshot_connection None d ?q ?k'] =>
    destruct (snapshot_connection None d q k') as [[[]|x] k3] eqn:S2; [|done] end. injection R as ->.
  apply snapshot_made in S2 as [_ ->]. rewrite (open_store_ok _ _ d e); [|cbn; by rewrite lookup_insert_eq|done|done| | |done].
  - eexists. split; [done|]. cbn. rewrite lookup_insert_eq. split; [done|]. by destruct d.
  - rewrite V. done.
  - by rewrite Ep.
Qed.

(** A restore that fails leaves a store that starts. When the copy fails after its file was made, the
    restore answers the error, but the file stays: the next restore is refused because a store is
    there, while a runtime started in this home opens it as a new store, at epoch 1, with no
    revocation and no fence. *)
Theorem failed_restore_starts_empty e backup home k d :
  open_read_only backup k = Ok d → dk_images k !! store_path home = None → store_path home ∉ dk_files k →
  lock_path (store_path home) ∉ dk_held k → dk_integrity k (store_path home) = "ok" →
  let '(r, k1) := restore_backup None (Some (e, Some empty_db)) backup home k in
  r = Err (error_from e) ∧
  (restore_backup None None backup home k1).1 =
    Err (mkError EcUnsupportedCombination "destination store exists; remove it explicitly first") ∧
  ∃ d', open_store None (store_path home) k1 = (Ok 1%N, set_dk_images (<[store_path home := d']> (dk_images k1)) k1) ∧
        db_revoked d' = ∅ ∧ db_fences d' = ∅.
Proof.
  intros O N F L G. unfold restore_backup at 1. rewrite O, N. cbn -[store_path].
  rewrite (bool_decide_eq_false_2 _ F). unfold snapshot_connection. cbn -[store_path]. rewrite N. cbn -[store_path].
  rewrite bool_decide_eq_false_2 by set_solver. split_and!; [done| |].
  - unfold restore_backup, open_read_only. pose proof (open_read_only_ok _ _ _ O) as (I & H1 & H2 & H3 & [ep H4]).
    assert (backup ≠ store_path home) by (intros ->; by rewrite I in N). cbn -[store_path].
    rewrite lookup_insert_ne by done. rewrite I. cbn -[store_path]. unfold offline_open, ensure.
    rewrite (bool_decide_eq_false_2 _ H1), H2, H3. cbn -[store_path]. rewrite bool_decide_eq_true_2 by done. rewrite H4.
    cbn -[store_path]. by rewrite lookup_insert_eq.
  - eexists. split; [|split].
    + apply (open_store_ok _ _ empty_db 0); cbn -[store_path]; [by rewrite lookup_insert_eq|done..].
    + done.
    + done.
Qed.

(** ** A runtime with one component *)

Definition no_remotes_spec : RemotesSpec := mkRemotesSpec "" "" [] [] None None None None.

Definition demo_config : Config :=
  mkConfig "/home" [mkComponentSpec store_json None true None] demo_grants ∅ None no_remotes_spec.

Definition demo_rworld : RWorld :=
  mkRWorld (ServiceProps.demo_world "") ControllerDemo.demo_world (λ p k, Ok (host_new p k)) false "ok" 7
    (journal_open [] false) (λ _, Ok tt) (λ _ _ _, Ok tt) Ok.

Lemma demo_outside : outside_ok demo_rworld demo_config empty_db.
Proof. by split. Qed.

Lemma demo_config_valid : config_validate demo_config = [].
Proof. by vm_compute. Qed.

(** A printer whose texts are one byte too long for the store. *)
Definition long_print (_ : Value) : string := of_chars (repeat "x"%char (N.to_nat (MAX_BODY + 1))).

Lemma long_print_len v : str_len (long_print v) = (MAX_BODY + 1)%N.
Proof.
  assert (L : ∀ l, String.length (of_chars l) = length l) by (intros l; induction l as [|a l IH]; cbn; congruence).
  unfold long_print, str_len. rewrite L, repeat_length. apply N2Nat.id.
Qed.

Lemma valid_config_starts_witness :
  (∃ x, runtime_start demo_print demo_rworld demo_config empty_db = Ok x ∧ mirrored x) ∧
  (∃ d', runtime_start long_print demo_rworld demo_config empty_db =
           Err (mkError EcResourceExhausted "provision store: resource-exhausted", d')).
Proof.
  split.
  - destruct (valid_config_starts demo_print demo_rworld demo_config empty_db demo_config_valid demo_outside)
      as [H _]. destruct H as (x & S & _ & M & _).
    { constructor; [|constructor]. unfold fits_store. vm_compute. intros [=]. }
    exact (ex_intro _ x (conj S M)).
  - destruct (valid_config_starts long_print demo_rworld demo_config empty_db demo_config_valid demo_outside)
      as [_ H]. destruct (H [] (mkComponentSpec store_json None true None) [] eq_refl) as (id & d' & I & S & _).
    { constructor. }
    { unfold fits_store. rewrite long_print_len. lia. }
    assert (id = "store") as -> by (vm_compute in I; congruence). exact (ex_intro _ d' S).
Defined.

Definition demo_rt : Rt :=
  match runtime_start demo_print demo_rworld demo_config empty_db with
  | Ok x => x
  | Err _ => mkRt demo_svc0 ctl_new false [] demo_config
  end.

(** Two leases, of which one is listed. *)
Definition demo_lease (principal logical token : string) (fence : N) : Lease :=
  mkLease principal logical token fence 5000 (mkInstanceRef 7 1 1 logical 1) false 0 None false (mkRestartBudget [] None) 0.

Definition leased_rt : Rt :=
  set_rt_svc (with_leases {["t1" := demo_lease "ann" "store" "t1" 3; "t2" := demo_lease "bob" "app" "t2" 9]}
                (rt_svc demo_rt)) demo_rt.

Definition other_token (t : string) : string := String "z"%char t.

Lemma inspect_bounded_witness :
  let v := (run (runtime_inspect (mkInspectOpts 4 1)) leased_rt).1 in
  let v2 := (run (runtime_inspect (mkInspectOpts 4 1)) (set_rt_svc (retoken other_token (rt_svc leased_rt)) leased_rt)).1 in
  get_u64 "leases_total" v = Some 2%N ∧ get "leases_total" v2 = get "leases_total" v ∧
  (∃ e, get_array "leases" v2 = Some [e]).
Proof.
  assert (I : Inj (=) (=) other_token) by (intros a b [= ->]; reflexivity).
  pose proof (inspect_bounded (mkInspectOpts 4 1) leased_rt other_token I) as H. cbv zeta in H |- *.
  destruct (run (runtime_inspect (mkInspectOpts 4 1)) leased_rt) as [v x'].
  destruct H as (_ & _ & _ & _ & _ & T & _ & K & (l2 & P & L)). cbn [fst].
  split; [rewrite T; vm_compute; reflexivity|]. split; [apply K; discriminate|]. apply Permutation_length in P.
  unfold all_leases in P. rewrite !length_fmap, length_map_to_list in P.
  assert (Z : size (sv_leases (rt_svc leased_rt)) = 2) by (vm_compute; reflexivity). rewrite Z in P. clear Z.
  destruct l2 as [|e l2]; [discriminate P|]. exists e. rewrite L. reflexivity.
Defined.

Definition bob_grant : Grant := mkGrant {["store"]} {["store.kv@1"]}.

Lemma facade_drift_witness :
  let x1 := (run (runtime_grant demo_rworld "bob" bob_grant) demo_rt).2 in
  live (run (runtime_reload demo_print demo_rworld demo_config) x1).2 "bob" = Some bob_grant.
Proof.
  assert (D : config_validate demo_config ++ restart_diff demo_print (rt_active demo_rt) demo_config = [])
    by (vm_compute; reflexivity).
  assert (A : cf_grants (rt_active demo_rt) !! "bob" = None) by (vm_compute; reflexivity).
  pose proof (proj1 (facade_drift demo_print demo_rworld "bob" bob_grant demo_config demo_rt eq_refl D) A eq_refl) as H.
  cbv zeta in H |- *. destruct (run (runtime_reload _ _ _) _) as [r x2]. apply H.
Defined.

(** A home with one operation that was admitted, and a revocation. *)
Definition demo_db : Db :=
  mkDb 1 (Some 4%N) ∅ {[("ann", "op-1") := mkOpRow "{}" OpAdmitted None]} [] 0 {["store" := 3%N]} {["eve"]} ∅.

Definition demo_disk : Disk := mkDisk {[store_path "/a" := demo_db]} (λ _, "ok") ∅ ∅.

Definition demo_backup : Disk := (backup_offline None "/a" "/b.sqlite" demo_disk).2.
Definition demo_restored : Disk := (restore_backup None None "/b.sqlite" "/c" demo_backup).2.

Lemma restore_roundtrip_witness :
  ∃ d', (open_store None (store_path "/c") demo_restored).1 = Ok 5%N ∧
    dk_images (open_store None (store_path "/c") demo_restored).2 !! store_path "/c" = Some d' ∧ db_revoked d' = {["eve"]}.
Proof.
  destruct (restore_roundtrip "/a" "/b.sqlite" "/c" demo_disk demo_backup demo_restored) as (d & e & I & Ep & _ & _ & R);
    [vm_compute; reflexivity..|].
  assert (D : d = demo_db) by (apply (inj Some); rewrite <- I; vm_compute; reflexivity). subst d.
  injection Ep as <-. destruct R as (d' & O & Im & V & _); [by vm_compute|done|done|]. exact (ex_intro _ d' (conj O (conj Im V))).
Defined.
