(* ===== verification/Daemon.v ===== *)
(** * The daemon and its client ([matrix-rt/src/main.rs], [matrix-sdk/src/lib.rs])

    The daemon answers one request per connection: a line with a JSON envelope, a verb, its arguments
    and one line back. [handle_conn] is a program over the kernel and the flag [quit]. The client is
    the same on both sides of the socket: [rpc] writes a line and reads one, given by the argument
    [exchange]. The printer and the parser of JSON are arguments. The flush of the journal's file and
    the wake-up of the acceptor at [quit] are I/O outside this state. *)

From S2P Require Import Prelude RustStd Json Identity Contexts Resources Registry Deps Calls Journal Manifest Prog.
From S2P Require Import KernelState KernelCalls KernelLifecycle KernelDispatch KernelDemo Inventory.
From Stdlib Require Import Ascii.

Definition PROTO_V : N := 1.

(** ** Arguments *)

Definition is_flag (a : string) : bool := bool_decide (a ∈ ["--json"; "--dry-run"; "--fsync"]).

(** One argument: the verb so far and the rest. *)
Definition parse_arg (acc : string * list string) (a : string) : string * list string :=
  if str_is_empty acc.1 && negb (starts_with "-" a) then (a, acc.2)
  else if negb (is_flag a) then (acc.1, acc.2 ++ [a]) else acc.

(** [raw]: the arguments after the program's name. *)
Definition parse_args (raw : list string) : string * list string := foldl parse_arg ("", []) raw.

Section cli.
Context (from_str : string → result Value string).

(** What [main] does: run the daemon, send a request and exit with its answer, print the last
    entries of the journal, or explain the usage. *)
Inductive CliAction : Type :=
| CliRun (dry_run batch_fsync v2 : bool)
| CliRpc (verb : string) (extra : Value) (always_zero : bool)
| CliJournal (tail : option N)
| CliUsage.

(** [serde_json::from_str(args.get(1).unwrap_or("{}")).unwrap_or(json!({}))]. *)
Definition json_arg (args : list string) : Value :=
  match from_str (default "{}" (args !! 1)) with Ok v => v | Err _ => obj [] end.

(** [args.iter().position(|a| a == "--tail")], then the next argument as a number. *)
Fixpoint tail_arg (args : list string) : option N :=
  match args with
  | [] => None
  | a :: args =>
      if bool_decide (a = "--tail") then match args with b :: _ => parse_u64 (chars b) | [] => None end
      else tail_arg args
  end.

(** [core_v2]: the variable [MATRIX_CORE_V2]. *)
Definition main_action (raw : list string) (core_v2 : option string) : CliAction :=
  let '(verb, args) := parse_args raw in
  let first := default "" (head args) in
  if bool_decide (verb = "run") then
    CliRun (bool_decide ("--dry-run" ∈ raw)) (bool_decide ("--fsync" ∈ raw) || bool_decide ("--batch-fsync" ∈ raw))
      (bool_decide (core_v2 = Some "1"))
  else if bool_decide (verb = "invoke") then
    CliRpc "invoke" (obj [("cap", JString first); ("input", json_arg args)]) false
  else if bool_decide (verb = "emit") then
    CliRpc "emit" (obj [("topic", JString first); ("payload", json_arg args)]) false
  else if bool_decide (verb = "status") then CliRpc "status" (obj []) true
  else if bool_decide (verb = "reload") then CliRpc "reload" (obj []) false
  else if bool_decide (verb = "remove") then CliRpc "remove" (obj [("id", JString first)]) false
  else if bool_decide (verb = "reset") then CliRpc "reset" (obj []) false
  else if bool_decide (verb = "quit") then CliRpc "quit" (obj []) false
  else if bool_decide (verb = "journal") then CliJournal (tail_arg args)
  else CliUsage.
End cli.

(** [entries[len.saturating_sub(tail)..]]; no number is [usize::MAX]. *)
Definition journal_tail (tail : option N) (entries : list JournalEntry) : list JournalEntry :=
  match tail with
  | Some n => drop (length entries - N.to_nat n) entries
  | None => entries
  end.

(** ** The client *)

Definition newline : string := String "010"%char EmptyString.

Section client.
Context (to_string : Value → string) (from_str : string → result Value string)
        (exchange : string → result string string).

Definition envelope (verb : string) (extra : Value) : Value :=
  obj [("v", j_u64 PROTO_V); ("verb", JString verb); ("extra", extra)].

(** [MatrixClient::rpc]. *)
Definition rpc (verb : string) (extra : Value) : result Value string :=
  let? reply := exchange (to_string (envelope verb extra) +:+ newline) in
  map_err (λ e, "bad reply: " +:+ e) (from_str reply).

Definition ok_flag (r : Value) : bool := default false (get "ok" r ≫= as_bool).

Definition client_invoke (cap : string) (input : Value) : result Value string :=
  let? r := rpc "invoke" (obj [("cap", JString cap); ("input", input)]) in
  if ok_flag r then Ok (default JNull (get "value" r)) else Err (to_string r).

Definition client_emit (topic : string) (payload : Value) : result Value string :=
  rpc "emit" (obj [("topic", JString topic); ("payload", payload)]).

Definition client_status : result Value string := rpc "status" (obj []).

(** [rpc_sock] of the command line, and the exit code of [cli_exit_rpc_full]. *)
Definition rpc_sock (verb : string) (extra : Value) : result Value string :=
  let? reply := exchange (to_string (envelope verb extra) +:+ newline) in
  map_err (λ e, "bad daemon reply: " +:+ e) (from_str reply).

Definition exit_code (verb : string) (extra : Value) (always_zero : bool) : N :=
  match rpc_sock verb extra with
  | Err _ => 1
  | Ok r => if always_zero || negb (is_some (get "ok" r)) then 0 else if ok_flag r then 0 else 1
  end.
End client.

(** ** The daemon *)

Record RtDaemon : Type := mkRtDaemon { da_kernel : Kernel; da_quit : bool }.

#[export] Instance daemon_clock : Clock RtDaemon := {
  clock d := clock (da_kernel d);
  advance n d := mkRtDaemon (advance n (da_kernel d)) (da_quit d);
}.

Notation dprog := (prog RtDaemon).

Fixpoint dlift {A} (p : kprog A) : dprog A :=
  match p with
  | Ret a => Ret a
  | Act f k => Act (λ d, let '(a, k') := f (da_kernel d) in (a, mkRtDaemon k' (da_quit d))) (λ a, dlift (k a))
  | Wait c u k => Wait (λ d, c (da_kernel d)) u (λ b, dlift (k b))
  end.

Definition binding_status (b : Binding) : Value :=
  obj [("interface", JString (bd_interface b)); ("provider", JString (bd_provider_logical b));
       ("instance", j_u64 (bd_provider_instance b)); ("generation", j_u64 (bd_provider_generation b))].

Definition requirement_status (r : Requirement) : Value :=
  match rq_provider r with
  | Some p => obj [("interface", JString (rq_interface r)); ("provider", JString p)]
  | None => obj [("interface", JString (rq_interface r))]
  end.

Definition plugin_status (res : ResourceTable) (p : Plugin) : Value :=
  obj [("id", JString (pl_id p)); ("state", JString (fsm_as_str (pl_state p))); ("tier", JString (pl_tier p));
       ("trust", JString (pl_trust p)); ("generation", j_u64 (pl_generation p));
       ("restart", JString (pl_restart_policy p)); ("caps", j_strs (pl_caps p));
       ("requires", JArray (requirement_status <$> pl_requires p));
       ("bindings", JArray (binding_status <$> pl_bindings p));
       ("waiting_reason", j_opt_str (pl_wait_cause p)); ("instance", j_u64 (pl_instance_id p));
       ("context", j_u64 (pl_context_id p)); ("epoch", j_u64 (pl_epoch p));
       ("active_resources", j_u64 (N.of_nat (active_for (pl_context_id p) res)))].

(** The plugins by their ids. *)
Definition plugins_status (k : Kernel) : list Value :=
  (plugin_status (k_resources k) <$>
    merge_sort (λ a b, String.le (pl_id a) (pl_id b)) (map_to_list (k_plugins k)).*2).

Definition reply_ok (l : list (string * Value)) : Value := obj ([("v", j_u64 PROTO_V); ("ok", JBool true)] ++ l).
Definition reply_error (e : string) : Value :=
  obj [("v", j_u64 PROTO_V); ("ok", JBool false); ("error", JString e)].

Section daemon.
Context {E : Env} (to_string : Value → string) (from_str : string → result Value string).

Definition status : kprog Value :=
  let! plugins := read plugins_status in
  let! caps := read (λ k, size (k_caps k)) in
  let! inv := inventory in
  let! epoch := read (λ k, ct_epoch (k_contexts k)) in
  Ret (obj [("v", j_u64 PROTO_V); ("harness", JString "matrix"); ("plugins", JArray plugins);
            ("capabilities", j_u64 (N.of_nat caps)); ("epoch", j_u64 epoch); ("inventory", inv)]).

(** The verbs but [quit]. *)
Definition answer (verb : string) (extra : Value) : kprog Value :=
  let text key := default "" (get_str key extra) in
  let json key := default (obj []) (get key extra) in
  if bool_decide (verb = "invoke") then
    let! r := invoke (text "cap") (json "input") in
    Ret (obj [("v", j_u64 PROTO_V); ("ok", JBool r.2); ("value", r.1)])
  else if bool_decide (verb = "emit") then
    let! seq := emit (text "topic") (json "payload") in
    Ret (reply_ok [("emitted", JString (text "topic")); ("seq", j_u64 seq)])
  else if bool_decide (verb = "reload") then
    let! r := reload in
    Ret (match r with Ok n => reply_ok [("reloaded", j_u64 n)] | Err e => reply_error e end)
  else if bool_decide (verb = "remove") then
    let! out := dispose_plugin (text "id") in
    Ret (reply_ok [("removed", JString (text "id")); ("outcome", JString (outcome_as_str out))])
  else if bool_decide (verb = "status") then status
  else if bool_decide (verb = "reset") then do! reset_bench; Ret (reply_ok [("reset", JBool true)])
  else Ret (reply_error ("unknown verb " +:+ verb)).

Definition bye : Value := reply_ok [("bye", JBool true)].

(** One connection: the line that was read, and the line written back, if any. *)
Definition handle_conn (line : result string string) : dprog (option string) :=
  match line with
  | Err _ => Ret None
  | Ok line =>
      if str_is_empty (trim line) then Ret None
      else
        match from_str line with
        | Err _ => Ret None
        | Ok req =>
            let verb := default "" (get_str "verb" req) in
            let extra := default (obj []) (get "extra" req) in
            if bool_decide (verb = "quit") then
              do! modify (λ d, mkRtDaemon (da_kernel d) true);
              Ret (Some (to_string bye +:+ newline))
            else
              let! r := dlift (answer verb extra) in
              Ret (Some (to_string r +:+ newline))
        end
  end.

(** ** The run of the daemon *)

(** The manifests of the directory, in order; how many load. *)
Definition load_all : kprog nat :=
  for_fold (sort_strings (default [] env_dir)) 0 (λ n p,
    let! r := load_manifest p in Ret (if is_ok r then S n else n)).

(** What the daemon prints when it is ready. *)
Definition startup : kprog Value :=
  let! loaded := load_all in
  let! r := replay in
  Ret (obj [("ready", JBool true); ("harness", JString "matrix"); ("plugins", j_u64 (N.of_nat loaded));
            ("replayed", j_u64 (N.of_nat r.1)); ("journal_entries", j_u64 (N.of_nat r.2)); ("v", j_u64 PROTO_V)]).

(** The accept loop: what [accept] gives, and the connections a thread is started for. The threads
    run [handle_conn] beside it; an error of [accept] is skipped. *)
Fixpoint serve_loop (accepts : list (option (result string string))) : dprog (list (result string string)) :=
  match accepts with
  | [] => Ret []
  | a :: accepts =>
      let! quit := read da_quit in
      if quit then Ret []
      else
        let! started := serve_loop accepts in
        Ret (match a with Some line => line :: started | None => started end)
  end.
End daemon.

(** ** Arguments are split exactly *)

Definition dashed (a : string) : bool := starts_with "-" a.

Lemma parse_args_rest verb args l :
  str_is_empty verb = false →
  foldl parse_arg (verb, args) l = (verb, args ++ List.filter (λ a, negb (is_flag a)) l).
Proof.
  intros V. revert args. induction l as [|a l IH]; intros args; cbn; [by rewrite app_nil_r|].
  unfold parse_arg at 2. cbn. rewrite V. cbn. destruct (is_flag a); cbn; rewrite IH; [done|].
  by rewrite <- app_assoc.
Qed.

(** The verb is the first argument that does not start with a dash, wherever it stands; the other
    arguments keep their order and lose the three flags. *)
Theorem parse_args_exact pre verb post :
  Forall (λ a, dashed a = true) pre → dashed verb = false → str_is_empty verb = false →
  parse_args (pre ++ verb :: post) = (verb, List.filter (λ a, negb (is_flag a)) (pre ++ post)).
Proof.
  intros P V N. unfold parse_args.
  assert (G : ∀ args, foldl parse_arg ("", args) (pre ++ verb :: post) =
    (verb, args ++ List.filter (λ a, negb (is_flag a)) (pre ++ post))); [|apply G].
  induction P as [|a pre A P IH]; intros args; cbn.
  - unfold parse_arg at 2. cbn. unfold dashed in V. rewrite V. cbn. by apply parse_args_rest.
  - assert (X : parse_arg ("", args) a = ("", if is_flag a then args else args ++ [a])).
    { unfold parse_arg. cbn -[starts_with]. unfold dashed in A. rewrite A. by destruct (is_flag a). }
    rewrite X, IH. destruct (is_flag a); [done|]. by rewrite <- app_assoc.
Qed.

(** ** The client sees what the kernel does *)

Section props.
Context {E : Env} (to_string : Value → string) (from_str : string → result Value string).

Lemma run_dlift {A} (p : kprog A) d :
  run (dlift p) d = ((run p (da_kernel d)).1, mkRtDaemon (run p (da_kernel d)).2 (da_quit d)).
Proof.
  revert d. induction p as [a|X f k IH|c u k IH]; intros d; cbn [dlift].
  - rewrite !run_ret. by destruct d.
  - rewrite !run_Act. destruct (f (da_kernel d)) as [b k']. cbn [fst snd]. by rewrite IH.
  - rewrite !run_Wait. destruct (c _); rewrite IH; [done|]. cbn. by destruct (_ <? _)%N.
Qed.

(** A connection to the daemon, alone: a connection closed without an answer reads as an empty line. *)
Definition daemon_exchange (d : RtDaemon) (line : string) : result string string :=
  Ok (default "" (run (handle_conn to_string from_str (Ok line)) d).1).

(** *** What a request means

    The requests of the clients, one constructor each, with the words of the source's clients. *)
Inductive DaemonCommand : Type :=
| CmdInvoke (cap : string) (input : Value)
| CmdEmit (topic : string) (payload : Value)
| CmdStatus
| CmdReload
| CmdRemove (id : string)
| CmdReset
| CmdQuit
| CmdUnknown (verb : string) (extra : Value).

Definition words (c : DaemonCommand) : string * Value :=
  match c with
  | CmdInvoke cap input => ("invoke", obj [("cap", JString cap); ("input", input)])
  | CmdEmit topic payload => ("emit", obj [("topic", JString topic); ("payload", payload)])
  | CmdStatus => ("status", obj [])
  | CmdReload => ("reload", obj [])
  | CmdRemove id => ("remove", obj [("id", JString id)])
  | CmdReset => ("reset", obj [])
  | CmdQuit => ("quit", obj [])
  | CmdUnknown verb extra => (verb, extra)
  end.

Definition VERBS : list string := ["invoke"; "emit"; "status"; "reload"; "remove"; "reset"; "quit"].

(** A verb that is none of the seven. *)
Definition proper (c : DaemonCommand) : Prop := match c with CmdUnknown verb _ => verb ∉ VERBS | _ => True end.

(** One method of the kernel, and how its result is told. *)
Definition calls {X} (p : kprog X) (tell : X → Value) (d : RtDaemon) : Value * RtDaemon :=
  let '(x, k) := run p (da_kernel d) in (tell x, mkRtDaemon k (da_quit d)).

(** The answer to a command and the daemon after it. *)
Definition meaning (c : DaemonCommand) (d : RtDaemon) : Value * RtDaemon :=
  match c with
  | CmdInvoke cap input =>
      calls (KernelDispatch.invoke cap input)
        (λ r, obj [("v", j_u64 PROTO_V); ("ok", JBool r.2); ("value", r.1)]) d
  | CmdEmit topic payload =>
      calls (emit topic payload) (λ seq, reply_ok [("emitted", JString topic); ("seq", j_u64 seq)]) d
  | CmdStatus => calls status (λ v, v) d
  | CmdReload =>
      calls reload (λ r, match r with Ok n => reply_ok [("reloaded", j_u64 n)] | Err e => reply_error e end) d
  | CmdRemove id =>
      calls (dispose_plugin id)
        (λ out, reply_ok [("removed", JString id); ("outcome", JString (outcome_as_str out))]) d
  | CmdReset => calls reset_bench (λ _, reply_ok [("reset", JBool true)]) d
  | CmdQuit => (bye, mkRtDaemon (da_kernel d) true)
  | CmdUnknown verb _ => (reply_error ("unknown verb " +:+ verb), d)
  end.

(** Whether a command succeeds. *)
Definition succeeds (c : DaemonCommand) (d : RtDaemon) : bool :=
  match c with
  | CmdInvoke cap input => (run (KernelDispatch.invoke cap input) (da_kernel d)).1.2
  | CmdReload => is_ok (run reload (da_kernel d)).1
  | CmdUnknown _ _ => false
  | _ => true
  end.

(** The line of a command, and that the printer and the parser agree on it and on its answer. *)
Definition request_line (c : DaemonCommand) : string := to_string (envelope (words c).1 (words c).2) +:+ newline.

Record carried (c : DaemonCommand) (d : RtDaemon) : Prop := {
  cy_line : str_is_empty (trim (request_line c)) = false;
  cy_request : from_str (request_line c) = Ok (envelope (words c).1 (words c).2);
  cy_reply : from_str (to_string (meaning c d).1 +:+ newline) = Ok (meaning c d).1;
}.

Lemma run_told {X} (p : kprog X) (tell : X → Value) d :
  run (dlift (let! x := p in Ret (tell x))) d = calls p tell d.
Proof. rewrite run_dlift, run_bind. unfold calls. by destruct (run p (da_kernel d)). Qed.

(** The daemon's dispatch on the words of a command is the command. *)
Lemma answer_command c d :
  proper c → c ≠ CmdQuit → run (dlift (answer (words c).1 (words c).2)) d = meaning c d.
Proof.
  intros P N. destruct c as [cap input|topic payload| | |id| | |verb extra]; try done; unfold answer; cbn [words fst snd];
    repeat first [rewrite bool_decide_eq_true_2 by done|rewrite bool_decide_eq_false_2 by done].
  - rewrite (run_told (KernelDispatch.invoke _ _)). unfold get_str. by rewrite !get_obj.
  - rewrite (run_told (emit _ _)). unfold get_str. by rewrite !get_obj.
  - rewrite run_dlift. unfold meaning, calls. by destruct (run status (da_kernel d)).
  - by rewrite (run_told reload).
  - rewrite (run_told (dispose_plugin _)). unfold get_str. by rewrite !get_obj.
  - by rewrite (run_told reset_bench (λ _, _)).
  - unfold proper, VERBS in P. rewrite !bool_decide_eq_false_2 by set_solver. rewrite run_dlift. by destruct d.
Qed.

Lemma handle_request c d :
  proper c → carried c d →
  run (handle_conn to_string from_str (Ok (request_line c))) d =
  (Some (to_string (meaning c d).1 +:+ newline), (meaning c d).2).
Proof.
  intros P [B R _]. unfold handle_conn. rewrite B, R.
  assert (V : get_str "verb" (envelope (words c).1 (words c).2) = Some (words c).1)
    by (unfold get_str, envelope; by rewrite get_obj).
  assert (X : get "extra" (envelope (words c).1 (words c).2) = Some (words c).2)
    by (unfold envelope; by rewrite get_obj).
  rewrite V, X. cbn [default from_option Datatypes.id]. case_bool_decide as Q.
  - assert (c = CmdQuit) as ->; [|by rewrite run_bind, run_modify, run_ret].
    destruct c; try done. cbn in Q. subst. cbn in P. exfalso. apply P. unfold VERBS. set_solver.
  - assert (c ≠ CmdQuit) by by intros ->. rewrite run_bind, answer_command by done.
    destruct (meaning c d). by rewrite run_ret.
Qed.

Lemma rpc_reply c d :
  proper c → carried c d → daemon_exchange d (request_line c) = Ok (to_string (meaning c d).1 +:+ newline).
Proof. intros P C. unfold daemon_exchange. by rewrite handle_request. Qed.

(** The flag of an answer is the success of its command. *)
Lemma ok_succeeds c d :
  c ≠ CmdStatus → get "ok" (meaning c d).1 = Some (JBool (succeeds c d)).
Proof.
  destruct c; intros N; try done; unfold meaning, calls, succeeds, bye, reply_ok, reply_error;
    try (destruct (run _ (da_kernel d)) as [r k]; cbn [fst snd]); try (destruct r); by rewrite get_obj.
Qed.

(** C37: A request through a client does in the daemon exactly what its verb means. When the printer
    and the parser agree on the request and on its answer, then for each of the seven verbs and for
    any other: the client gets the answer that tells the result of the kernel's method of that verb
    (an unknown verb is an error); the kernel is where this method leaves it and nothing else of the
    daemon changed, but for [quit], which leaves the kernel alone and sets the flag; the command line
    exits with zero exactly when the command succeeded; and the client's [invoke] is [Ok] with the
    value of the call precisely when the kernel's [invoke] succeeded. *)
Theorem client_exact c d :
  proper c → carried c d →
  rpc to_string from_str (daemon_exchange d) (words c).1 (words c).2 = Ok (meaning c d).1 ∧
  (run (handle_conn to_string from_str (Ok (request_line c))) d).2 = (meaning c d).2 ∧
  exit_code to_string from_str (daemon_exchange d) (words c).1 (words c).2 (bool_decide ((words c).1 = "status")) =
    (if succeeds c d then 0 else 1)%N ∧
  match c with
  | CmdInvoke cap input =>
      client_invoke to_string from_str (daemon_exchange d) cap input =
      (let '(v, ok) := (run (KernelDispatch.invoke cap input) (da_kernel d)).1 in
       if ok then Ok v else Err (to_string (meaning c d).1))
  | CmdEmit topic payload => client_emit to_string from_str (daemon_exchange d) topic payload = Ok (meaning c d).1
  | CmdStatus => client_status to_string from_str (daemon_exchange d) = Ok (meaning c d).1
  | _ => True
  end.
Proof.
  intros P C. pose proof (rpc_reply c d P C) as R. unfold request_line in R.
  assert (RR : rpc to_string from_str (daemon_exchange d) (words c).1 (words c).2 = Ok (meaning c d).1).
  { unfold rpc. rewrite R. cbn. by rewrite (cy_reply _ _ C). }
  split_and!; [done|by rewrite handle_request| |].
  - unfold exit_code, rpc_sock. rewrite R. cbn [map_err]. rewrite (cy_reply _ _ C). cbn.
    case_bool_decide as Q; cbn.
    + destruct c; try done. cbn in Q. subst. cbn in P. exfalso. apply P. unfold VERBS. set_solver.
    + assert (c ≠ CmdStatus) as N by by intros ->. unfold ok_flag. by rewrite (ok_succeeds c d N).
  - destruct c; try done; [|exact RR..]. unfold client_invoke. cbn [words fst snd] in RR. rewrite RR.
    unfold ok_flag. rewrite (ok_succeeds (CmdInvoke cap input) d) by done.
    unfold meaning, calls, succeeds. destruct (run _ (da_kernel d)) as [[v ok] k]. cbn [fst snd]. rewrite get_obj by done. by destruct ok.
Qed.

(** [quit] is answered, leaves the kernel alone, and from then on no connection is served. *)
Lemma quit_ends line req accepts d :
  str_is_empty (trim line) = false → from_str line = Ok req → get_str "verb" req = Some "quit" →
  let '(r, d') := run (handle_conn to_string from_str (Ok line)) d in
  r = Some (to_string bye +:+ newline) ∧ da_kernel d' = da_kernel d ∧ run (serve_loop accepts) d' = ([], d').
Proof.
  intros B P V. unfold handle_conn. rewrite B, P, V. cbn [default from_option Datatypes.id].
  rewrite bool_decide_eq_true_2 by done. rewrite run_bind, run_modify, run_ret. split_and!; [done..|].
  destruct accepts as [|a accepts]; cbn [serve_loop]; [done|]. by rewrite run_bind, run_read.
Qed.
End props.

(** A daemon with two components; a printer and a parser that know one request and its answer. *)
Definition demo_daemon : RtDaemon := mkRtDaemon demo_loaded false.

(** The texts of one command and of its answer. *)
Definition wire_to_string (v : Value) : string := match get_str "verb" v with Some _ => "request" | None => "reply" end.
Definition wire_from_str (c : DaemonCommand) (s : string) : result Value string :=
  if bool_decide (trim s = "request") then Ok (envelope (words c).1 (words c).2) else Ok (meaning c demo_daemon).1.

Definition via (c : DaemonCommand) : string → result string string :=
  daemon_exchange wire_to_string (wire_from_str c) demo_daemon.

Lemma client_exact_witness :
  client_invoke wire_to_string (wire_from_str (CmdInvoke "store.kv@1" (JString "x")))
    (via (CmdInvoke "store.kv@1" (JString "x"))) "store.kv@1" (JString "x") =
    Ok (run (KernelDispatch.invoke "store.kv@1" (JString "x")) demo_loaded).1.1 ∧
  (run (handle_conn wire_to_string (wire_from_str (CmdRemove "store"))
          (Ok (request_line wire_to_string (CmdRemove "store")))) demo_daemon).2 =
    mkRtDaemon (run (dispose_plugin "store") demo_loaded).2 false ∧
  (run (handle_conn wire_to_string (wire_from_str CmdQuit) (Ok (request_line wire_to_string CmdQuit))) demo_daemon).2 =
    mkRtDaemon demo_loaded true.
Proof.
  assert (K : ∀ c, get_str "verb" (meaning c demo_daemon).1 = None → carried wire_to_string (wire_from_str c) c demo_daemon).
  { intros c V. split; unfold request_line, wire_to_string, wire_from_str; [by vm_compute| |].
    - done.
    - by rewrite V. }
  split_and!.
  - destruct (client_exact wire_to_string (wire_from_str (CmdInvoke "store.kv@1" (JString "x")))
      (CmdInvoke "store.kv@1" (JString "x")) demo_daemon I) as (_ & _ & _ & H); [apply K; by vm_compute|].
    lazy beta iota in H. unfold via. rewrite H. change (da_kernel demo_daemon) with demo_loaded.
    assert (O : (run (KernelDispatch.invoke "store.kv@1" (JString "x")) demo_loaded).1.2 = true) by (vm_compute; reflexivity).
    destruct (run (KernelDispatch.invoke "store.kv@1" (JString "x")) demo_loaded) as [[v ok] k]. cbn [fst snd] in *.
    by subst ok.
  - destruct (client_exact wire_to_string (wire_from_str (CmdRemove "store")) (CmdRemove "store") demo_daemon I)
      as (_ & H & _); [apply K; by vm_compute|]. rewrite H. unfold meaning, calls.
    change (da_kernel demo_daemon) with demo_loaded. by destruct (run (dispose_plugin "store") demo_loaded).
  - by apply (client_exact wire_to_string (wire_from_str CmdQuit) CmdQuit demo_daemon I); apply K; vm_compute.
Defined.
